(* ===== verification/_CoqProject ===== *)
-Q . S2P
Prelude.v
Constants.v
Crypto.v
Receipt.v
Slashing.v
Accounts.v
Evidence.v
Runtime.v
Processor.v
Solvency.v
Payouts.v
Lifecycle.v
Kinds.v
Court.v
Conviction.v
ToyChain.v
ProgramProperties.v
Registration.v
Columns.v
Rocks.v
Store.v
ReceiptLog.v
Pending.v
Writer.v
WriterLog.v
Promises.v
WriterProperties.v
Wire.v
Watchtower.v
LogScan.v
BlockScan.v
Client.v
ToyLog.v
LogScanProperties.v
BlockScanProperties.v
Withholding.v
Watch.v
WatchInv.v
WatchProperties.v
Locks.v
LockInv.v
Scheduler.v
SchedulerInv.v
SchedulerProperties.v
Ledger.v
LedgerInv.v
Truncator.v
TruncatorInv.v
Blocks.v
Executor.v
ExecutorInv.v
Node.v
Replay.v
Ingress.v
Handlers.v
Serve.v
ServeBlock.v
ToyLedger.v
ServeProperties.v
HandlersInv.v
Admission.v
HandlersProperties.v
EndToEnd.v
ServedOrder.v
LedgerProperties.v
Chunks.v
Committor.v
RpcClient.v
RpcInv.v
Delivery.v
Sending.v
DeliveryInv.v
Preparation.v
DeliveryProperties.v
