(* ===== verification/Prelude.v ===== *)
(** * Ordering receipts for ephemeral rollups

    A validator of an ephemeral rollup signs, for every transaction that reaches it, a receipt that
    names the transaction's position in a hash-chained log, before anything the operator controls can
    delay it.  A watchtower compares the receipts with the blocks the validator produces; an operator
    that signs two different statements for one position is slashed by a program on the base chain.
    This library models that protocol as the sources implement it, at the width of their integers,
    and proves what each part promises and what the parts promise together.

    ** The parts and where they are modelled

    - The frozen constants: Constants.v (crates/constants).  The receipt, its 261-byte message, its
      325-byte transport form, signing and verifying: Receipt.v (crates/receipt).  sha2, blake3 and
      ed25519-dalek are the class [Crypto] with [CryptoLaws] (Crypto.v); no law says that a hash is
      injective or a signature unforgeable, the theorems produce the collision or the forgery.
    - The arithmetic of a slash and of the coverage pool: Slashing.v (crates/slashing).
    - The slashing program (crates/program): the account layouts and instructions behind the interface
      [Codec] in Accounts.v; what the ed25519 precompile verified and the contradiction check in
      Evidence.v; the ledger and the runtime's calls in Runtime.v (class [Runtime], laws
      [RuntimeLaws]); every instruction of processor.rs in Processor.v, in a monad that threads the
      ledger.  Solvency.v, Payouts.v, Lifecycle.v, Kinds.v and Conviction.v prove it over the chains
      it can run on, ProgramProperties.v states it; Registration.v is the registration that falls
      outside.  ToyChain.v is a concrete chain.
    - The court's transaction (crates/court): Court.v.
    - The validator's ledger (magicblock-ledger): the columns with their keys in Columns.v, the database
      in Rocks.v (class [Rocks], laws [RocksLaws]), the receipts in Store.v and all other calls of
      store/api.rs in Ledger.v, in a monad that threads the ledger (class [LedgerCodec] for bincode
      and protobuf).  LedgerInv.v says what each call may change, Blocks.v what any sequence of calls
      leaves of a slot.  The truncator and the compaction filter are in Truncator.v, what they may
      remove in TruncatorInv.v; the replay of the ledger at startup is in Replay.v.
    - Receipts (magicblock-receipts): the pending commitments and the writer in Pending.v and Writer.v.
      ReceiptLog.v is the specification of an honest log, [chained]; WriterLog.v and
      WriterProperties.v show that the writer implements it, Promises.v what becomes of a position
      promised blind.
    - Ingress (magicblock-aperture, magicblock-core/src/link): the caches, errors and attack rig in
      Ingress.v; sendTransaction, commitTransaction, revealTransaction and the scheduler's handle in
      Handlers.v, as programs of a free monad whose calls are the points where a handler touches
      shared state or waits, so that [system_step] interleaves any number of them.  HandlersInv.v is a
      program logic for them, Admission.v the replay protection, HandlersProperties.v the theorems.
      Wire.v is what the handlers and the watchtower rely on of JSON and of Solana's wire format
      (classes [Json] and [Solana] with their laws).  getReceipts and getReceipt: Serve.v and
      ServeProperties.v; getBlock: ServeBlock.v (class [BlockEncoding]).
    - The scheduler (magicblock-processor/src/scheduler): the bitmask locks and the coordinator in
      Locks.v, the event loop as a state machine in Scheduler.v; LockInv.v, SchedulerInv.v and
      SchedulerProperties.v prove them.
    - The executors (magicblock-processor/src/executor): their event loop, execution, simulation,
      commits and records in Executor.v; what the SVM and the accounts database answer is the record
      [Answers], over the class [Svm].  ExecutorInv.v proves what one execution does, Node.v what
      any interleaving of executors, block writes and upkeep leaves in the ledger.
    - The watchtower (crates/watchtower): the evidence and its verification in Watchtower.v; the scans
      of the receipt log, of a block and of deliveries in LogScan.v, BlockScan.v and Withholding.v;
      parsing and the client in Client.v; the main loop, with what it prints and sends, in Watch.v.
      WatchInv.v and the files ending in Properties prove them.  ToyLog.v holds concrete logs.
    - The delivery of a commit through a buffer on the base chain: the tracker of delivered chunks, the
      cutting of data into chunks and the packing of reallocations in Chunks.v, the program with its
      four instructions in Committor.v (magicblock-committor-program; classes [Borsh] and [Resize]
      with their laws), the client of the base chain with its errors, cached block hash and retry loop
      in RpcClient.v (magicblock-rpc-client), the instructions built for the program, the preparation
      of a commit, its retry and its clean-up in Delivery.v (magicblock-committor-service).  RpcInv.v
      is a logic for asynchronous code on a network; Sending.v shows what sending a transaction or a
      batch tells, DeliveryInv.v what each instruction does to the ledger, Preparation.v what a
      preparation does, and DeliveryProperties.v states the guarantees.
    - EndToEnd.v composes the scheduler with the block scan and the writer with the program;
      ServedOrder.v composes scheduler, executors, ledger, getBlock, client and block scan;
      LedgerProperties.v states what ledger, executors and replay promise.  ToyLedger.v has a codec, an
      SVM and a block encoding to evaluate them on.

    ** What the theorems show

    - Money: on every reachable ledger an operator account whose registration did not wrap around covers
      rent, bond, stake and rewards, and a conviction its rent and what it owes; claims
      and withdrawals of stake always pay; a bond leaves only by a slash or after its timelock; a slash
      happens at most once, is split exactly, and its victim's share reaches the payer of the wronged
      transaction; accounts never change kind.
    - Accountability: two contradictory receipts shown to the watchtower end in a conviction, where no
      copy is signed again, the bond stands and the conviction's address is untouched and paid for
      ([equivocation_convicted]); a conviction needs two contradictory valid signatures; an honest
      writer whose disk does not fail never makes them, so an honest operator is convicted only by a
      forgery and never sued.
    - The log: what the writer publishes is one gapless hash chain, what the node serves is a segment of
      it, and nothing reaches the scheduler for execution without a receipt in it, under any
      interleaving of handlers; a promised position is handed out once, to what it was promised for.
    - The detectors: each scan reports exactly what its definition of a fault says, reports nothing on an
      honest log, and never panics; the block scan of what the node serves judges the order in which
      the scheduler dispatched ([served_order_judged]), and its conflicts are the scheduler's lock
      conflicts.
    - The node: conflicting transactions never run at once, and none waits for nobody; an execution is
      recorded once, with the status its caller is told; a block reads back as it was written under
      any order of writes, truncation and compaction, which leave the receipts alone; a replay sends
      what had succeeded from the slot on where full processing starts, in the order of execution.
    - Delivery: whatever the network does and whatever an earlier attempt left, a preparation ends, and
      what it reports as delivered is exactly the data and stays so ([delivery_sound]); it succeeds
      where the network answers, with at most four failures once the buffer is set up
      ([delivery_completes]); the tracker on the chain tells exactly what is missing; a buffer answers
      to its authority alone.
    - Limits that the proofs brought out are theorems too: a registration that wraps around and leaves a
      bond nobody deposited, any transaction overtaken in the scheduler while it waits, a row
      half-written or overwritten by a restart, a re-signed copy, a funded conviction or buffer
      address, evidence about commit-mode tickets that does not verify, a pruned ledger that is not
      replayed, a failing replay that is recorded.

    ** Conventions

    Fallible code returns [result E A], with [Ok], [Err] and [Panic]; code without errors of its own
    returns [may_panic A].  Arithmetic wraps as release builds do, with [wrap64] and its siblings.
    The [while] loops of the watchtower take fuel: [statements] the number of receipts, which its
    theorem shows to be enough, and [watch_slots] a parameter, for which [watch_round_terminates]
    shows that the number of slots below the head is enough.  The loop of [replay_blocks] takes fuel
    too; [replay_runs_blocks] shows one turn per block and one more to be enough, and
    [delivery_sound] that the loops over chunks and reallocations end with the fuel [chunks_collect] and
    [realloc_chunks] are given, for any data that fits an account, and that the turns [turns_of] gives
    to a batch of futures, four for each attempt and one for each result, are enough.  A call on the
    ledger is one step; calls of different threads interleave in any order.  Third-party code is a
    class with its documented behaviour as laws, and each class has an executable instance
    ([toy_crypto], [toy_runtime], [toy_rocks], [toy_json], [toy_solana], [toy_codec], [toy_svm],
    [toy_block_encoding], [toy_borsh_chunks], [toy_borsh_ix], [toy_resize]) on which the witnesses
    are evaluated.  [genesis] and [chain_step] say what can happen on the base chain: instructions
    of this program, and of any other, which can only add lamports to this program's accounts or hand
    it zeroed ones, and the ends of transactions, which drop the accounts left without lamports.  The
    ledgers reached include those between two instructions of a transaction; that the runtime refuses
    a transaction that leaves an account short of rent is not used.  [sound] singles out operators
    whose registrations on the chain did not wrap around; the others may do as they like.  A transaction
    of the delivery takes effect as a whole or not at all, and drops accounts left without lamports.  Asynchronous code is a tree of the calls it waits for ([async]), and
    a [Network] is a parameter that says at each moment which transactions in flight land and in what
    order, what the node answers, whether an answer arrives, and which future goes on; the chain runs a
    transaction, known by its block hash and its instructions, at most once.  The order in which a
    [HashSet] is read is a parameter, [hash_order].

    ** Not modelled

    The Solana SVM, the accounts database, chainlink, the rest of the committor service, account
    cloning, replication, task scheduling, metrics, configuration, the RPC methods that the receipt
    protocol does not use, websocket subscriptions, the demo and the front end: the ordering protocol
    reads nothing of them beyond what the models above take as parameters.  Of the modelled parts,
    text (error messages, log lines, the wording of a report) and transport (channels, HTTP, the
    watchtower's connection to a chain) are left out, superblock checksums are not computed, the results kept in
    the transaction cache are not tracked, and the options, metrics and shutdown of the database are
    left out. *)
From stdpp Require Export prelude gmap sorting.
From Stdlib Require Export Strings.Byte.

#[global] Open Scope Z_scope.

Declare Scope receipts_scope.
Delimit Scope receipts_scope with receipts.
#[global] Open Scope receipts_scope.

(** ** Bytes *)

(** A Rust [&[u8]], [Vec<u8>] or [[u8; N]]; array lengths are side conditions. *)
Abbreviation bytes := (list byte).

#[global] Instance byte_eq_decision : EqDecision byte := Byte.byte_eq_dec.

#[global] Program Instance byte_countable : Countable byte :=
  inj_countable Byte.to_N Byte.of_N _.
Next Obligation. apply Byte.of_to_N. Qed.

#[global] Instance byte_inhabited : Inhabited byte := populate x00.

Definition byte_val (b : byte) : Z := Z.of_N (Byte.to_N b).
Definition byte_of (z : Z) : byte := default x00 (Byte.of_N (Z.to_N (z mod 256))).

(** [n] copies of one byte: the array literal [[b; n]]. *)
Definition fill (n : nat) (b : byte) : bytes := replicate n b.
Definition zeros (n : nat) : bytes := fill n x00.

(** ** Machine integers

    A [uN] is a [Z]; the unchecked operators of the sources are compiled without
    overflow checks (no profile of the workspace enables them), so they wrap. *)

Definition wrap16 (z : Z) : Z := z mod 2 ^ 16.
Definition wrap32 (z : Z) : Z := z mod 2 ^ 32.
Definition wrap64 (z : Z) : Z := z mod 2 ^ 64.
Definition wrap128 (z : Z) : Z := z mod 2 ^ 128.

Definition is_u64 (z : Z) : Prop := 0 <= z < 2 ^ 64.
Definition is_u128 (z : Z) : Prop := 0 <= z < 2 ^ 128.
Definition is_u32 (z : Z) : Prop := 0 <= z < 2 ^ 32.

#[global] Instance is_u64_dec z : Decision (is_u64 z).
Proof. unfold is_u64. apply _. Defined.
#[global] Instance is_u128_dec z : Decision (is_u128 z).
Proof. unfold is_u128. apply _. Defined.
#[global] Instance is_u32_dec z : Decision (is_u32 z).
Proof. unfold is_u32. apply _. Defined.

Definition U64_MAX : Z := 2 ^ 64 - 1.
Definition U32_MAX : Z := 2 ^ 32 - 1.

(** The two's complement value of 64 bits, and [as i64]. *)
Definition wrap_i64 (z : Z) : Z := (z + 2 ^ 63) mod 2 ^ 64 - 2 ^ 63.

(** [uN::saturating_sub]. *)
Definition saturating_sub (a b : Z) : Z := Z.max 0 (a - b).
(** [u64::checked_sub] and [u64::checked_add]. *)
Definition checked_sub (a b : Z) : option Z := if decide (b <= a) then Some (a - b) else None.
Definition checked_add (a b : Z) : option Z := if decide (a + b < 2 ^ 64) then Some (a + b) else None.

(** [uN::to_le_bytes] and [uN::from_le_bytes], for [n] bytes. *)
Fixpoint le_bytes (n : nat) (z : Z) : bytes :=
  match n with
  | O => []
  | S n' => byte_of z :: le_bytes n' (z / 256)
  end.

Fixpoint le_val (l : bytes) : Z :=
  match l with
  | [] => 0
  | b :: l' => byte_val b + 256 * le_val l'
  end.

(** [u64::to_be_bytes] and [u64::from_be_bytes]. *)
Definition be_bytes (n : nat) (z : Z) : bytes := reverse (le_bytes n z).
Definition be_val (l : bytes) : Z := le_val (reverse l).

(** ** Results

    A Rust computation returns [Ok], an error of its own type, or panics. *)

Inductive result (E A : Type) : Type :=
| Ok (a : A)
| Err (e : E)
| Panic.
Arguments Ok {E A} a.
Arguments Err {E A} e.
Arguments Panic {E A}.

(** A computation that may panic and has no error of its own. *)
Abbreviation may_panic := (result Empty_set).

#[global] Instance result_ret E : MRet (result E) := fun A a => Ok a.
#[global] Instance result_bind E : MBind (result E) := fun A B f r =>
  match r with
  | Ok a => f a
  | Err e => Err e
  | Panic => Panic
  end.
#[global] Instance result_fmap E : FMap (result E) := fun A B f r =>
  match r with
  | Ok a => Ok (f a)
  | Err e => Err e
  | Panic => Panic
  end.

#[global] Instance result_eq_decision E A `{EqDecision E, EqDecision A} : EqDecision (result E A).
Proof. solve_decision. Defined.

Definition is_ok {E A} (r : result E A) : bool := match r with Ok _ => true | _ => false end.
Definition is_err {E A} (r : result E A) : bool := match r with Err _ => true | _ => false end.

(** [if !b { return Err(e) }]. *)
Definition ensure {E} (b : bool) (e : E) : result E unit := if b then Ok tt else Err e.
(** [Option::ok_or]. *)
Definition ok_or {E A} (o : option A) (e : E) : result E A :=
  match o with Some a => Ok a | None => Err e end.
(** [Option::expect] and [Option::unwrap]. *)
Definition expect {E A} (o : option A) : result E A :=
  match o with Some a => Ok a | None => Panic end.
(** [Result::map_err]. *)
Definition map_err {E F A} (f : E -> F) (r : result E A) : result F A :=
  match r with Ok a => Ok a | Err e => Err (f e) | Panic => Panic end.
(** A panic inside a computation that has errors. *)
Definition rethrow {E A} (r : may_panic A) : result E A :=
  match r with Ok a => Ok a | _ => Panic end.
(** [Result::ok]. *)
Definition ok {E A} (r : result E A) : option A :=
  match r with Ok a => Some a | _ => None end.

(** ** Slices *)

Definition slice (l : bytes) (from upto : nat) : bytes := take (upto - from) (drop from l).

(** [l.get(from..upto)]. *)
Definition get_range (l : bytes) (from upto : nat) : option bytes :=
  if decide (from <= upto <= length l)%nat then Some (slice l from upto) else None.

(** [&l[from..upto]], which panics out of range. *)
Definition index_range {E} (l : bytes) (from upto : nat) : result E bytes :=
  expect (get_range l from upto).

(** [l[i]], which panics out of range. *)
Definition index_at {E} (l : bytes) (i : nat) : result E byte := expect (l !! i).

(** [out[from..upto].copy_from_slice(src)] for a source of exactly that length. *)
Definition copy_range (out : bytes) (from upto : nat) (src : bytes) : bytes :=
  take from out ++ src ++ drop upto out.

(** [bytes.try_into::<[u8; n]>()]. *)
Definition try_into_array (n : nat) (l : bytes) : option bytes :=
  if decide (length l = n) then Some l else None.

(** Lexicographic [<=] on byte slices. *)
Fixpoint bytes_le (a b : bytes) : bool :=
  match a, b with
  | [], _ => true
  | _ :: _, [] => false
  | x :: a', y :: b' =>
      if decide (x = y) then bytes_le a' b' else byte_val x <? byte_val y
  end.

(** ** Sums over finite maps *)

Definition msum {K A} `{Countable K} (f : A -> Z) (m : gmap K A) : Z :=
  map_fold (fun _ a acc => f a + acc) 0 m.

(** ** Lemmas on bytes and integers *)

Lemma byte_val_range b : 0 <= byte_val b < 256.
Proof. unfold byte_val. pose proof (Byte.to_N_bounded b). lia. Qed.

Lemma byte_val_inj b1 b2 : byte_val b1 = byte_val b2 -> b1 = b2.
Proof.
  unfold byte_val. intros Heq%N2Z.inj.
  pose proof (Byte.of_to_N b1) as E1. pose proof (Byte.of_to_N b2) as E2. congruence.
Qed.

Lemma byte_val_of z : byte_val (byte_of z) = z mod 256.
Proof.
  unfold byte_val, byte_of. pose proof (Z.mod_pos_bound z 256 ltac:(lia)).
  destruct (Byte.of_N (Z.to_N (z mod 256))) as [b|] eqn:E; simpl.
  - apply Byte.to_of_N in E. rewrite E. lia.
  - apply Byte.of_N_None_iff in E. lia.
Qed.

Lemma byte_of_val b : byte_of (byte_val b) = b.
Proof.
  apply byte_val_inj. rewrite byte_val_of. apply Z.mod_small, byte_val_range.
Qed.

Lemma length_le_bytes n z : length (le_bytes n z) = n.
Proof. revert z. induction n; simpl; auto. Qed.

Lemma le_val_range l : 0 <= le_val l < 256 ^ Z.of_nat (length l).
Proof.
  induction l as [|b l IH]; simpl le_val; simpl length; [lia|].
  pose proof (byte_val_range b).
  rewrite Nat2Z.inj_succ, Z.pow_succ_r by lia.
  lia.
Qed.

(** Decoding an encoding keeps the low [n] bytes. *)
Lemma le_val_bytes n z : 0 <= z -> le_val (le_bytes n z) = z mod 256 ^ Z.of_nat n.
Proof.
  revert z. induction n as [|n IH]; intros z Hz; simpl le_bytes; simpl le_val.
  { by rewrite Z.mod_1_r. }
  rewrite byte_val_of, IH by (apply Z.div_pos; lia).
  rewrite Nat2Z.inj_succ, Z.pow_succ_r by lia.
  rewrite Z.rem_mul_r by lia. lia.
Qed.

Lemma le_bytes_val l : le_bytes (length l) (le_val l) = l.
Proof.
  induction l as [|b l IH]; [done|]. cbn [length le_bytes le_val].
  pose proof (byte_val_range b). f_equal.
  - apply byte_val_inj. rewrite byte_val_of.
    rewrite Z.mul_comm, Z_mod_plus_full. apply Z.mod_small. lia.
  - rewrite Z.mul_comm, Z_div_plus_full, Z.div_small by lia. exact IH.
Qed.

Lemma le_val_bytes_u64 z : is_u64 z -> le_val (le_bytes 8 z) = z.
Proof. intros [? ?]. rewrite le_val_bytes by lia. apply Z.mod_small. lia. Qed.

Lemma le_val_bytes_u128 z : is_u128 z -> le_val (le_bytes 16 z) = z.
Proof. intros [? ?]. rewrite le_val_bytes by lia. apply Z.mod_small. lia. Qed.

Lemma le_val_u64 l : length l = 8%nat -> is_u64 (le_val l).
Proof. intros Hl. pose proof (le_val_range l) as Hr. rewrite Hl in Hr. exact Hr. Qed.

Lemma le_val_u128 l : length l = 16%nat -> is_u128 (le_val l).
Proof. intros Hl. pose proof (le_val_range l) as Hr. rewrite Hl in Hr. exact Hr. Qed.

Lemma length_be_bytes n z : length (be_bytes n z) = n.
Proof. unfold be_bytes. by rewrite length_reverse, length_le_bytes. Qed.

Lemma be_val_bytes_u64 z : is_u64 z -> be_val (be_bytes 8 z) = z.
Proof. unfold be_val, be_bytes. rewrite reverse_involutive. apply le_val_bytes_u64. Qed.

Lemma be_val_bytes_u32 z : is_u32 z -> be_val (be_bytes 4 z) = z.
Proof.
  intros [? ?]. unfold be_val, be_bytes. rewrite reverse_involutive, le_val_bytes by lia.
  apply Z.mod_small. lia.
Qed.

Lemma wrap64_small z : is_u64 z -> wrap64 z = z.
Proof. apply Z.mod_small. Qed.

Lemma wrap64_range z : is_u64 (wrap64 z).
Proof. apply Z.mod_pos_bound. lia. Qed.

Lemma wrap32_small z : is_u32 z -> wrap32 z = z.
Proof. apply Z.mod_small. Qed.

Lemma wrap32_range z : is_u32 (wrap32 z).
Proof. apply Z.mod_pos_bound. lia. Qed.

Lemma wrap128_small z : is_u128 z -> wrap128 z = z.
Proof. apply Z.mod_small. Qed.

Lemma wrap128_range z : is_u128 (wrap128 z).
Proof. apply Z.mod_pos_bound. lia. Qed.

Lemma checked_sub_Some a b c : checked_sub a b = Some c <-> b <= a /\ c = a - b.
Proof. unfold checked_sub. case_decide; naive_solver lia. Qed.

Lemma checked_add_Some a b c : checked_add a b = Some c <-> a + b < 2 ^ 64 /\ c = a + b.
Proof. unfold checked_add. case_decide; naive_solver lia. Qed.

(** ** Lemmas on results *)

Section results.
Context {E A B : Type}.
Implicit Types (r : result E A) (f : A -> result E B).

Lemma Ok_inj (a b : A) : @Ok E A a = Ok b -> a = b.
Proof. by intros [= ->]. Qed.

Lemma bind_of_ok f a : Ok a ≫= f = f a.
Proof. done. Qed.
Lemma bind_of_err f e : Err e ≫= f = Err e.
Proof. done. Qed.
Lemma bind_of_panic f : Panic ≫= f = Panic.
Proof. done. Qed.
Lemma ensure_true (e : E) : ensure true e = Ok tt.
Proof. done. Qed.
Lemma ensure_false (e : E) : ensure false e = Err e.
Proof. done. Qed.
Lemma ok_or_some (a : A) (e : E) : ok_or (Some a) e = Ok a.
Proof. done. Qed.
Lemma ok_or_none (e : E) : @ok_or E A None e = Err e.
Proof. done. Qed.
Lemma expect_some (a : A) : @expect E A (Some a) = Ok a.
Proof. done. Qed.
Lemma map_err_ok {F} (g : E -> F) (a : A) : map_err g (Ok a) = Ok a.
Proof. done. Qed.
Lemma map_err_err {F} (g : E -> F) (e : E) : @map_err E F A g (Err e) = Err (g e).
Proof. done. Qed.

Lemma bind_Ok r f b : r ≫= f = Ok b <-> exists a, r = Ok a /\ f a = Ok b.
Proof. destruct r; cbv [mbind result_bind]; naive_solver. Qed.

Lemma ensure_Ok (b : bool) (e : E) u : ensure b e = Ok u <-> b = true.
Proof. destruct b, u; naive_solver. Qed.

Lemma ok_or_Ok (o : option A) (e : E) a : ok_or o e = Ok a <-> o = Some a.
Proof. destruct o; naive_solver. Qed.

Lemma expect_Ok (o : option A) a : expect (E:=E) o = Ok a <-> o = Some a.
Proof. destruct o; naive_solver. Qed.

Lemma map_err_Ok {F} (g : E -> F) r a : map_err g r = Ok a <-> r = Ok a.
Proof. destruct r; naive_solver. Qed.
End results.

(** ** Lemmas on slices *)

Section slices.
Implicit Types (l pre mid post src : bytes).

Lemma length_fill n b : length (fill n b) = n.
Proof. apply length_replicate. Qed.

Lemma length_zeros n : length (zeros n) = n.
Proof. apply length_fill. Qed.

Lemma length_slice l a b : (a <= b <= length l)%nat -> length (slice l a b) = (b - a)%nat.
Proof. intros. unfold slice. rewrite length_take, length_drop. lia. Qed.

(** The slice holding the middle of three pieces. *)
Lemma slice_app pre mid post a b :
  a = length pre -> b = (length pre + length mid)%nat -> slice (pre ++ mid ++ post) a b = mid.
Proof.
  intros -> ->. unfold slice. rewrite drop_app_length.
  apply take_app_length'. lia.
Qed.

(** Walking a slice along a concatenation. *)
Lemma slice_skip pre l a b :
  (length pre <= a)%nat -> slice (pre ++ l) a b = slice l (a - length pre) (b - length pre).
Proof.
  intros. unfold slice. rewrite drop_app_ge by lia. f_equal. lia.
Qed.

Lemma slice_left pre l a b : (b <= length pre)%nat -> slice (pre ++ l) a b = slice pre a b.
Proof.
  intros Hb. unfold slice. destruct (decide (a <= b)%nat).
  - rewrite drop_app_le by lia. rewrite take_app_le; [done|]. rewrite length_drop. lia.
  - replace (b - a)%nat with 0%nat by lia. done.
Qed.

Lemma slice_here mid l a b : a = 0%nat -> b = length mid -> slice (mid ++ l) a b = mid.
Proof. intros -> ->. by apply (slice_app []). Qed.

(** Adjacent slices concatenate; a slice of one byte is that byte. *)
Lemma slice_slice l a b c : (a <= b <= c)%nat -> slice l a b ++ slice l b c = slice l a c.
Proof.
  intros. unfold slice. replace (drop b l) with (drop (b - a) (drop a l)).
  - rewrite take_take_drop. f_equal. lia.
  - rewrite drop_drop. f_equal. lia.
Qed.

Lemma slice_all l n : length l = n -> slice l 0 n = l.
Proof. intros <-. unfold slice. rewrite drop_0, Nat.sub_0_r. by apply take_ge. Qed.

Lemma slice_last mid a b : a = 0%nat -> b = length mid -> slice mid a b = mid.
Proof. intros -> ->. by apply slice_all. Qed.

Lemma slice_one l i b : l !! i = Some b -> slice l i (S i) = [b].
Proof.
  intros Hb. unfold slice. rewrite (drop_S _ _ _ Hb).
  by replace (S i - i)%nat with 1%nat by lia.
Qed.

Lemma lookup_app_at pre x post i : i = length pre -> (pre ++ x :: post) !! i = Some x.
Proof. intros ->. by apply list_lookup_middle. Qed.

Lemma get_range_Some l a b s :
  get_range l a b = Some s <-> (a <= b <= length l)%nat /\ s = slice l a b.
Proof. unfold get_range. case_decide; naive_solver. Qed.

Lemma get_range_in l a b : (a <= b <= length l)%nat -> get_range l a b = Some (slice l a b).
Proof. intros. by apply get_range_Some. Qed.

Lemma index_range_in {E} l a b :
  (a <= b <= length l)%nat -> index_range (E:=E) l a b = Ok (slice l a b).
Proof. intros. unfold index_range. by rewrite get_range_in. Qed.

Lemma index_at_in {E} l i b : l !! i = Some b -> index_at (E:=E) l i = Ok b.
Proof. intros H. unfold index_at. by rewrite H. Qed.

Lemma get_range_length l a b s : get_range l a b = Some s -> length s = (b - a)%nat.
Proof. intros [? ->]%get_range_Some. by apply length_slice. Qed.

Lemma index_range_Ok {E} l a b s :
  index_range (E:=E) l a b = Ok s <-> (a <= b <= length l)%nat /\ s = slice l a b.
Proof. unfold index_range. rewrite expect_Ok. apply get_range_Some. Qed.

Lemma length_copy_range out a b src :
  (a <= b <= length out)%nat -> length src = (b - a)%nat ->
  length (copy_range out a b src) = length out.
Proof. intros. unfold copy_range. rewrite !length_app, length_take, length_drop. lia. Qed.

(** Writing the next field behind a prefix already written. *)
Lemma copy_range_next pre l a b src :
  a = length pre -> b = (a + length src)%nat ->
  copy_range (pre ++ drop a l) a b src = (pre ++ src) ++ drop b l.
Proof.
  intros -> ->. unfold copy_range.
  rewrite take_app_length, drop_app_add, drop_drop. by rewrite app_assoc.
Qed.

(** Writing one byte behind a prefix already written. *)
Lemma insert_next pre l a x :
  a = length pre -> (a < length l)%nat ->
  <[a := x]> (pre ++ drop a l) = (pre ++ [x]) ++ drop (S a) l.
Proof.
  intros -> Hlt. rewrite insert_app_r_alt by lia. rewrite Nat.sub_diag.
  destruct (lookup_lt_is_Some_2 l (length pre) Hlt) as [y Hy].
  rewrite (drop_S _ _ _ Hy). simpl. by rewrite <- app_assoc.
Qed.

Lemma try_into_array_Some n l a : try_into_array n l = Some a <-> length l = n /\ a = l.
Proof. unfold try_into_array. case_decide; naive_solver. Qed.

Lemma try_into_array_in n l : length l = n -> try_into_array n l = Some l.
Proof. intros. by apply try_into_array_Some. Qed.

Lemma bytes_le_refl l : bytes_le l l = true.
Proof. induction l; simpl; [done|]. by rewrite decide_True. Qed.

Lemma bytes_le_total a b : bytes_le a b = false -> bytes_le b a = true.
Proof.
  revert b. induction a as [|x a IH]; intros [|y b]; simpl; try done.
  destruct (decide (x = y)) as [->|Hne].
  - rewrite decide_True by done. apply IH.
  - rewrite decide_False by done.
    assert (byte_val x <> byte_val y) by (contradict Hne; by apply byte_val_inj). lia.
Qed.

Lemma bytes_le_antisym a b : bytes_le a b = true -> bytes_le b a = true -> a = b.
Proof.
  revert b. induction a as [|x a IH]; intros [|y b]; simpl; try done.
  destruct (decide (x = y)) as [->|Hne].
  - rewrite decide_True by done. intros. f_equal. auto.
  - rewrite (decide_False (P := y = x)) by done. lia.
Qed.

Lemma bytes_le_trans a b c : bytes_le a b = true -> bytes_le b c = true -> bytes_le a c = true.
Proof.
  revert b c. induction a as [|x a IH]; intros [|y b] [|z c]; simpl; try done.
  repeat case_decide; subst; try done; try lia. eauto.
Qed.

(** Keys with a first part of one length compare by it first. *)
Lemma bytes_le_app a a' b b' : length a = length a' ->
  bytes_le (a ++ b) (a' ++ b') = if decide (a = a') then bytes_le b b' else bytes_le a a'.
Proof.
  revert a'. induction a as [|x a IH]; intros [|y a'] Hl; try done; cbn [app].
  injection Hl as Hl. cbn [bytes_le]. destruct (decide (x = y)) as [->|Hne].
  - rewrite IH by done. by repeat case_decide; naive_solver.
  - by rewrite (decide_False (P := x :: a = y :: a')) by congruence.
Qed.

Lemma le_val_app l1 l2 : le_val (l1 ++ l2) = le_val l1 + 256 ^ Z.of_nat (length l1) * le_val l2.
Proof.
  induction l1 as [|b l1 IH]; cbn [app le_val length]; [change (Z.of_nat 0) with 0; lia|].
  rewrite IH, Nat2Z.inj_succ, Z.pow_succ_r by lia. lia.
Qed.

Lemma be_val_cons b l : be_val (b :: l) = byte_val b * 256 ^ Z.of_nat (length l) + be_val l.
Proof. unfold be_val. rewrite reverse_cons, le_val_app, length_reverse. simpl. lia. Qed.

Lemma be_val_range l : 0 <= be_val l < 256 ^ Z.of_nat (length l).
Proof. unfold be_val. rewrite <-(length_reverse l). apply le_val_range. Qed.

(** The key order of a big-endian column is the order of the numbers. *)
Lemma bytes_le_be_val a b :
  length a = length b -> bytes_le a b = true <-> be_val a <= be_val b.
Proof.
  revert b. induction a as [|x a IH]; intros [|y b] Hl; simpl; try done.
  injection Hl as Hl. rewrite !be_val_cons, Hl.
  pose proof (be_val_range a) as Ha. pose proof (be_val_range b) as Hb. rewrite Hl in Ha.
  case_decide as E; [subst; rewrite IH by done; lia|].
  assert (byte_val x <> byte_val y) by (intros E'; by apply byte_val_inj in E').
  pose proof (byte_val_range x). pose proof (byte_val_range y). split; nia.
Qed.

Lemma be_bytes_le a b :
  is_u64 a -> is_u64 b -> bytes_le (be_bytes 8 a) (be_bytes 8 b) = true <-> a <= b.
Proof.
  intros Ha Hb. rewrite bytes_le_be_val by (by rewrite !length_be_bytes).
  by rewrite !be_val_bytes_u64.
Qed.

Lemma be_bytes_le_u32 a b :
  is_u32 a -> is_u32 b -> bytes_le (be_bytes 4 a) (be_bytes 4 b) = true <-> a <= b.
Proof.
  intros Ha Hb. rewrite bytes_le_be_val by (by rewrite !length_be_bytes).
  by rewrite !be_val_bytes_u32.
Qed.

Lemma be_bytes_inj a b : is_u64 a -> is_u64 b -> be_bytes 8 a = be_bytes 8 b -> a = b.
Proof. intros Ha Hb E. by rewrite <-(be_val_bytes_u64 a Ha), E, be_val_bytes_u64. Qed.

Lemma be_bytes_val l : length l = 8%nat -> be_bytes 8 (be_val l) = l.
Proof.
  intros Hl. unfold be_bytes, be_val. rewrite <-(length_reverse l) in Hl.
  rewrite <-Hl, le_bytes_val. apply reverse_involutive.
Qed.

Lemma be_bytes_val_len n l : length l = n -> be_bytes n (be_val l) = l.
Proof.
  intros Hl. unfold be_bytes, be_val. rewrite <-(length_reverse l) in Hl.
  rewrite <-Hl, le_bytes_val. apply reverse_involutive.
Qed.

Lemma be_val_u32 l : length l = 4%nat -> is_u32 (be_val l).
Proof. intros Hl. pose proof (be_val_range l) as H. by rewrite Hl in H. Qed.

Lemma be_val_u64 l : length l = 8%nat -> is_u64 (be_val l).
Proof. intros Hl. pose proof (be_val_range l) as H. by rewrite Hl in H. Qed.
End slices.

(** ** Stable sorting: [slice::sort_by_key], and the order of a [BTreeMap] *)

Section sort_by.
Context {A : Type} (le : A -> A -> bool).
Implicit Types (l : list A).

Fixpoint insert_by (x : A) l : list A :=
  match l with
  | [] => [x]
  | y :: l' => if le x y then x :: y :: l' else y :: insert_by x l'
  end.

Definition sort_by l : list A := foldr insert_by [] l.

Lemma insert_by_perm x l : insert_by x l ≡ₚ x :: l.
Proof.
  induction l as [|y l IH]; simpl; [done|]. destruct (le x y); [done|].
  rewrite IH. apply Permutation_swap.
Qed.

Lemma sort_by_perm l : sort_by l ≡ₚ l.
Proof. induction l as [|x l IH]; simpl; [done|]. by rewrite insert_by_perm, IH. Qed.

(** Entries that [le] cannot tell apart keep their order. *)
Lemma filter_sort_by (P : A -> Prop) `{!forall x, Decision (P x)} l :
  (forall x y, P x -> P y -> le x y = true) -> filter P (sort_by l) = filter P l.
Proof.
  intros Hle. induction l as [|x l IH]; [done|]. cbn [sort_by foldr].
  change (foldr insert_by [] l) with (sort_by l). rewrite filter_cons, <-IH. clear IH.
  induction (sort_by l) as [|y l' IH]; cbn [insert_by]; [by rewrite filter_cons|].
  destruct (le x y) eqn:E; [by rewrite filter_cons|]. rewrite (filter_cons _ y), IH, (filter_cons _ y).
  repeat case_decide; try done. by rewrite Hle in E.
Qed.

Hypothesis le_total : forall x y, le x y = false -> le y x = true.
Hypothesis le_trans : forall x y z, le x y = true -> le y z = true -> le x z = true.

Lemma insert_by_sorted x l :
  StronglySorted (fun a b => le a b = true) l ->
  StronglySorted (fun a b => le a b = true) (insert_by x l).
Proof.
  induction 1 as [|y l Hs IH Hy]; simpl; [by repeat constructor|].
  destruct (le x y) eqn:E.
  - constructor; [by constructor|]. constructor; [done|].
    eapply Forall_impl; [exact Hy|]. eauto.
  - constructor; [done|]. rewrite insert_by_perm. constructor; eauto.
Qed.

Lemma sort_by_sorted l : StronglySorted (fun a b => le a b = true) (sort_by l).
Proof. induction l; simpl; [constructor|]. by apply insert_by_sorted. Qed.
End sort_by.

Lemma StronglySorted_impl {A} (R S : A -> A -> Prop) l :
  (forall x y, R x y -> S x y) -> StronglySorted R l -> StronglySorted S l.
Proof.
  intros HRS. induction 1 as [|x l Hs IH Hx]; constructor; [done|].
  eapply Forall_impl; [exact Hx|]. auto.
Qed.

Lemma StronglySorted_filter {A} (R : A -> A -> Prop) (P : A -> Prop) `{!forall x, Decision (P x)} l :
  StronglySorted R l -> StronglySorted R (filter P l).
Proof.
  intros Hs. induction Hs as [|x l Hs IH Hx]; [constructor|]. rewrite filter_cons. case_decide; [|done].
  constructor; [done|]. apply Forall_forall. intros y [_ Hy]%list_elem_of_filter.
  rewrite Forall_forall in Hx. by apply Hx.
Qed.

Lemma omap_sorted {A B} (P : A -> A -> Prop) (Q : B -> B -> Prop) (f : A -> option B) l :
  (forall x y x' y', x ∈ l -> y ∈ l -> P x y -> f x = Some x' -> f y = Some y' -> Q x' y') ->
  StronglySorted P l -> StronglySorted Q (omap f l).
Proof.
  intros Hf Hs. induction Hs as [|x l Hs IH Hx]; cbn [omap list_omap]; [constructor|].
  assert (StronglySorted Q (omap f l)) as HQ.
  { apply IH. intros. eapply Hf; eauto; by right. }
  destruct (f x) as [x'|] eqn:Ex; [|done]. constructor; [done|]. apply Forall_forall.
  intros y' (y & Hy & Ey)%list_elem_of_omap. rewrite Forall_forall in Hx.
  eapply (Hf x y); eauto; [by left|by right].
Qed.

Lemma Forall_choice {A B} (P : A -> B -> Prop) l : Forall (fun x => exists y, P x y) l -> exists k, Forall2 P l k.
Proof.
  induction 1 as [|x l [y Hy] _ [k Hk]]; [by exists []|]. exists (y :: k). by constructor.
Qed.

Lemma StronglySorted_map {A B} (R : A -> A -> Prop) (S : B -> B -> Prop) (f : A -> B) l :
  (forall x y, R x y -> S (f x) (f y)) -> StronglySorted R l -> StronglySorted S (f <$> l).
Proof.
  intros Hf. induction 1 as [|x l Hs IH Hx]; cbn; constructor; [done|]. apply Forall_fmap.
  eapply Forall_impl; [exact Hx|]. intros y Hy. by apply Hf.
Qed.

Lemma StronglySorted_snoc {A} (R : A -> A -> Prop) l x :
  StronglySorted R l -> Forall (fun y => R y x) l -> StronglySorted R (l ++ [x]).
Proof.
  induction 1 as [|y l Hs IH Hy]; cbn; intros Hx; [by repeat constructor|].
  apply Forall_cons in Hx as [Hyx Hx]. constructor; [by apply IH|]. apply Forall_app. by repeat constructor.
Qed.

Lemma StronglySorted_reverse {A} (R : A -> A -> Prop) l :
  StronglySorted (fun x y => R y x) l -> StronglySorted R (reverse l).
Proof.
  induction 1 as [|x l Hs IH Hx]; [constructor|]. rewrite reverse_cons. apply StronglySorted_snoc; [done|].
  by apply Forall_reverse.
Qed.

Lemma filter_all {A} (P : A -> Prop) `{!forall x, Decision (P x)} l : Forall P l -> filter P l = l.
Proof. induction 1; [done|]. rewrite filter_cons_True by done. by f_equal. Qed.

Lemma filter_none {A} (P : A -> Prop) `{!forall x, Decision (P x)} l : Forall (fun x => ~ P x) l -> filter P l = [].
Proof. induction 1; [done|]. by rewrite filter_cons_False. Qed.

Lemma StronglySorted_split {A} (R : A -> A -> Prop) l1 x l2 :
  StronglySorted R (l1 ++ x :: l2) -> Forall (fun y => R y x) l1 /\ Forall (R x) l2.
Proof.
  induction l1 as [|y l1 IH]; cbn; intros [Hs Hy]%StronglySorted_inv; [done|].
  destruct (IH Hs) as [H1 H2]. split; [|done]. constructor; [|done].
  rewrite Forall_forall in Hy. apply Hy, elem_of_app. right. by left.
Qed.

Lemma StronglySorted_lookup {A} (R : A -> A -> Prop) l i j x y :
  StronglySorted R l -> l !! i = Some x -> l !! j = Some y -> (i < j)%nat -> R x y.
Proof.
  intros Hs. revert i j. induction Hs as [|z l Hs IH Hz]; intros i j Hi Hj Hlt; [done|].
  destruct i as [|i], j as [|j]; simplify_list_eq; [lia| |lia|].
  - rewrite Forall_forall in Hz. eapply Hz, list_elem_of_lookup_2, Hj.
  - eapply IH; eauto. lia.
Qed.

(** A strictly sorted list is determined by its elements. *)
(** A strict order leaves one way to list a set. *)
Lemma StronglySorted_same {A} (before : A -> A -> Prop) (l k : list A) :
  (forall x y, before x y -> ~ before y x) -> StronglySorted before l -> StronglySorted before k ->
  (forall x, x ∈ l <-> x ∈ k) -> l = k.
Proof.
  intros Has Hl. revert k. induction Hl as [|x l Hl IH Hx]; intros k Hk Hsame.
  { destruct k as [|y k]; [done|]. destruct (not_elem_of_nil y). apply Hsame. by left. }
  destruct Hk as [|y k Hk Hy]; [destruct (not_elem_of_nil x); apply Hsame; by left|].
  rewrite Forall_forall in Hx. rewrite Forall_forall in Hy.
  assert (x = y) as <-.
  { assert (x ∈ y :: k) as [|Hxk]%elem_of_cons by (apply Hsame; by left); [done|].
    assert (y ∈ x :: l) as [|Hyl]%elem_of_cons by (apply Hsame; by left); [done|].
    destruct (Has x y); auto. }
  f_equal. apply IH; [done|]. intros z. specialize (Hsame z). rewrite !elem_of_cons in Hsame.
  assert (z ∈ l -> z <> x) by (intros Hz ->; destruct (Has x x); auto).
  assert (z ∈ k -> z <> x) by (intros Hz ->; destruct (Has x x); auto). naive_solver.
Qed.

Lemma StronglySorted_ext {A} (key : A -> Z) l : forall l',
  StronglySorted (fun u v => key u < key v) l -> StronglySorted (fun u v => key u < key v) l' ->
  (forall x, x ∈ l <-> x ∈ l') -> l = l'.
Proof.
  induction l as [|a l IH]; intros [|b l'] Hl Hl' Hx; [done| | |].
  - assert (b ∈ []) as ?%elem_of_nil by (apply Hx; left). done.
  - assert (a ∈ []) as ?%elem_of_nil by (apply Hx; left). done.
  - apply StronglySorted_inv in Hl as [Hl Ha], Hl' as [Hl' Hb]. rewrite Forall_forall in Ha.
    rewrite Forall_forall in Hb.
    assert (a = b) as ->.
    { assert (a ∈ b :: l') as [|Hin]%elem_of_cons by (apply Hx; left); [done|].
      assert (b ∈ a :: l) as [|Hin']%elem_of_cons by (apply Hx; left); [done|].
      specialize (Ha _ Hin'). specialize (Hb _ Hin). lia. }
    f_equal. apply IH; [done..|]. intros x. specialize (Hx x). rewrite !elem_of_cons in Hx. split.
    + intros Hin. destruct (proj1 Hx (or_intror Hin)) as [->|]; [|done]. specialize (Ha _ Hin). lia.
    + intros Hin. destruct (proj2 Hx (or_intror Hin)) as [->|]; [|done]. specialize (Hb _ Hin). lia.
Qed.

(** In a strictly sorted list nothing lies between neighbours. *)
Lemma StronglySorted_between {A} (key : A -> Z) l i a b x :
  StronglySorted (fun u v => key u < key v) l -> l !! i = Some a -> l !! S i = Some b -> x ∈ l ->
  key x <= key a \/ key b <= key x.
Proof.
  intros Hs Ha Hb [j Hj]%list_elem_of_lookup. destruct (Nat.lt_trichotomy j i) as [Hl|[->|Hl]].
  - left. pose proof (StronglySorted_lookup _ _ _ _ _ _ Hs Hj Ha Hl) as H. cbn in H. lia.
  - left. rewrite Ha in Hj. injection Hj as ->. lia.
  - right. destruct (decide (j = S i)) as [->|]; [rewrite Hb in Hj; injection Hj as ->; lia|].
    assert (S i < j)%nat as Hl' by lia.
    pose proof (StronglySorted_lookup _ _ _ _ _ _ Hs Hb Hj Hl') as H. cbn in H. lia.
Qed.


(** ** Lemmas on sums *)

Section sums.
Context {K A : Type} `{Countable K}.
Implicit Types (m : gmap K A) (f g : A -> Z).

Lemma msum_empty f : msum f (∅ : gmap K A) = 0.
Proof. apply map_fold_empty. Qed.

Lemma msum_insert f m k a : m !! k = None -> msum f (<[k := a]> m) = f a + msum f m.
Proof.
  intros Hk. unfold msum. apply (map_fold_insert_L (fun _ a acc => f a + acc)); [|done].
  intros. lia.
Qed.

Lemma msum_delete f m k a : m !! k = Some a -> msum f m = f a + msum f (delete k m).
Proof.
  intros Hk. rewrite <- (insert_delete_id m k a Hk) at 1.
  apply msum_insert, lookup_delete_eq.
Qed.

(** Replacing one value moves the sum by the difference. *)
Lemma msum_replace f m k a b :
  m !! k = Some a -> msum f (<[k := b]> m) = msum f m - f a + f b.
Proof.
  intros Hk. rewrite (msum_delete f m k a Hk), <- insert_delete_eq.
  rewrite msum_insert by apply lookup_delete_eq. lia.
Qed.

Lemma msum_le f g m :
  (forall k a, m !! k = Some a -> f a <= g a) -> msum f m <= msum g m.
Proof.
  induction m as [|k a m Hk IH] using map_ind; intros Hle.
  { by rewrite !msum_empty. }
  rewrite !msum_insert by done.
  assert (f a <= g a) by (apply (Hle k); apply lookup_insert_eq).
  assert (msum f m <= msum g m); [|lia].
  apply IH. intros k' a' Hk'. apply (Hle k'). rewrite lookup_insert_ne; congruence.
Qed.

Lemma msum_ext f g m :
  (forall k a, m !! k = Some a -> f a = g a) -> msum f m = msum g m.
Proof.
  intros Heq. apply Z.le_antisymm; apply msum_le; intros k a Hk; rewrite (Heq k a Hk); done.
Qed.

Lemma msum_nonneg f m : (forall k a, m !! k = Some a -> 0 <= f a) -> 0 <= msum f m.
Proof.
  induction m as [|k a m Hk IH] using map_ind; intros Hle.
  { by rewrite msum_empty. }
  rewrite msum_insert by done.
  assert (0 <= f a) by (apply (Hle k); apply lookup_insert_eq).
  assert (0 <= msum f m); [|lia].
  apply IH. intros k' a' Hk'. apply (Hle k'). rewrite lookup_insert_ne; congruence.
Qed.

Lemma msum_lookup_le f m k a :
  (forall k a, m !! k = Some a -> 0 <= f a) -> m !! k = Some a -> f a <= msum f m.
Proof.
  intros Hpos Hk. rewrite (msum_delete f m k a Hk).
  assert (0 <= msum f (delete k m)); [|lia].
  apply msum_nonneg. intros k' a' [_ Hk']%lookup_delete_Some. eauto.
Qed.

Lemma msum_add f g m : msum (fun a => f a + g a) m = msum f m + msum g m.
Proof.
  induction m as [|k a m Hk IH] using map_ind; [by rewrite !msum_empty|].
  rewrite !msum_insert by done. lia.
Qed.

Lemma msum_scale c f m : msum (fun a => c * f a) m = c * msum f m.
Proof.
  induction m as [|k a m Hk IH] using map_ind; [rewrite !msum_empty; lia|].
  rewrite !msum_insert by done. lia.
Qed.
End sums.

(** ** Automation *)

(** Lengths of encoded fields. *)
Create Rewrite HintDb len.
#[export] Hint Rewrite @length_app @length_replicate length_fill length_zeros length_le_bytes
  length_be_bytes @length_insert : len.

(** Closes a decidable goal on concrete values by evaluating it. *)
Ltac eval_done := apply (bool_decide_unpack _); vm_compute; exact I.

(** Splits conjunctions written as such, without unfolding definitions. *)
Ltac split_conj := repeat match goal with |- _ /\ _ => split end.

(** Closes a goal on lengths that the context fixes to concrete values. *)
Ltac len_done :=
  autorewrite with len;
  repeat match goal with H : length ?x = _ |- context [length ?x] => rewrite H end;
  eval_done.

(** Reads one field out of a concatenation of fields. *)
Ltac slice_walk :=
  repeat (rewrite slice_skip by len_done);
  first [apply slice_here | apply slice_last]; len_done.

(** [lia] on goals with division by constants. *)
Ltac div_lia := Z.to_euclidean_division_equations; lia.

Ltac solve_len := autorewrite with len; simpl in *; lia.

(** One step of inverting a successful computation. *)
Ltac res_step :=
  match goal with
  | H : _ ≫= _ = Ok _ |- _ => apply bind_Ok in H; destruct H as (? & ? & H)
  | H : ensure _ _ = Ok _ |- _ => apply ensure_Ok in H
  | H : ok_or _ _ = Ok _ |- _ => apply ok_or_Ok in H
  | H : expect _ = Ok _ |- _ => apply expect_Ok in H
  | H : map_err _ _ = Ok _ |- _ => apply map_err_Ok in H
  | H : Ok _ = Ok _ |- _ => apply Ok_inj in H; try subst
  | H : Err _ = Ok _ |- _ => discriminate H
  | H : Panic = Ok _ |- _ => discriminate H
  | H : bool_decide _ = true |- _ => apply bool_decide_eq_true in H
  | H : bool_decide _ = false |- _ => apply bool_decide_eq_false in H
  | H : negb _ = true |- _ => apply negb_true_iff in H
  | H : _ && _ = true |- _ => apply andb_true_iff in H; destruct H
  | u : unit |- _ => destruct u
  end.

Ltac res_inv := repeat res_step.

(** Runs the steps of a computation whose outcome is already known. *)
Create Rewrite HintDb run.
#[export] Hint Rewrite @bind_of_ok @bind_of_err @bind_of_panic @ensure_true @ensure_false
  @ok_or_some @ok_or_none @expect_some @map_err_ok @map_err_err : run.

Ltac res_run := autorewrite with run; cbv beta.

(** Facts that [auto with receipts] may use: the width of decoded and wrapped integers. *)
Create HintDb receipts.
#[export] Hint Resolve wrap64_range wrap128_range le_val_u64 le_val_u128 byte_val_range
  bytes_le_refl : receipts.

#[global] Arguments le_bytes : simpl never.
#[global] Arguments le_val : simpl never.
#[global] Arguments bytes_le : simpl never.
