(* ===== verification/Constants.v ===== *)
(** * The frozen constants of crates/constants

    The mode and outcome bytes, the offset table of a receipt, and the basis points of a
    slash, with the compile-time assertions of the sources as theorems. *)
From S2P Require Import Prelude.

(** ** mode.rs *)

Definition MODE_PLAIN : byte := x01.
Definition MODE_COMMIT : byte := x02.
Definition MODE_REVEAL : byte := x03.
Definition MODE_RETRACT : byte := x04.

Inductive Mode : Type := Plain | Commit | Reveal | Retract.

#[global] Instance Mode_eq_dec : EqDecision Mode.
Proof. solve_decision. Defined.

Definition Mode_from_u8 (b : byte) : option Mode :=
  if decide (b = MODE_PLAIN) then Some Plain
  else if decide (b = MODE_COMMIT) then Some Commit
  else if decide (b = MODE_REVEAL) then Some Reveal
  else if decide (b = MODE_RETRACT) then Some Retract
  else None.

Definition Mode_as_u8 (m : Mode) : byte :=
  match m with
  | Plain => MODE_PLAIN
  | Commit => MODE_COMMIT
  | Reveal => MODE_REVEAL
  | Retract => MODE_RETRACT
  end.

(** ** outcome.rs *)

Definition OUTCOME_PENDING : byte := x01.
Definition OUTCOME_ACCEPTED : byte := x02.
Definition OUTCOME_REJECTED : byte := x03.
Definition OUTCOME_EXPIRED : byte := x04.

Inductive Outcome : Type := Pending | Accepted | Rejected | Expired.

#[global] Instance Outcome_eq_dec : EqDecision Outcome.
Proof. solve_decision. Defined.

Definition Outcome_from_u8 (b : byte) : option Outcome :=
  if decide (b = OUTCOME_PENDING) then Some Pending
  else if decide (b = OUTCOME_ACCEPTED) then Some Accepted
  else if decide (b = OUTCOME_REJECTED) then Some Rejected
  else if decide (b = OUTCOME_EXPIRED) then Some Expired
  else None.

Definition Outcome_as_u8 (o : Outcome) : byte :=
  match o with
  | Pending => OUTCOME_PENDING
  | Accepted => OUTCOME_ACCEPTED
  | Rejected => OUTCOME_REJECTED
  | Expired => OUTCOME_EXPIRED
  end.

(** ** receipt.rs *)

Definition LEN_DOMAIN_TAG : nat := 12.
Definition LEN_LOG_ID : nat := 32.
Definition LEN_MODE : nat := 1.
Definition LEN_SEQ : nat := 8.
Definition LEN_TX_SIG : nat := 64.
Definition LEN_HASH : nat := 32.
Definition LEN_PUBKEY : nat := 32.
Definition LEN_SLOT : nat := 8.
Definition LEN_MICROS : nat := 8.

(** [b"MBRECEIPT_V1"]. *)
Definition DOMAIN_TAG : bytes :=
  [x4d; x42; x52; x45; x43; x45; x49; x50; x54; x5f; x56; x31].

Definition OFF_DOMAIN_TAG : nat := 0.
Definition OFF_LOG_ID : nat := OFF_DOMAIN_TAG + LEN_DOMAIN_TAG.
Definition OFF_MODE : nat := OFF_LOG_ID + LEN_LOG_ID.
Definition OFF_SEQ : nat := OFF_MODE + LEN_MODE.
Definition OFF_TX_SIG : nat := OFF_SEQ + LEN_SEQ.
Definition OFF_TX_HASH : nat := OFF_TX_SIG + LEN_TX_SIG.
Definition OFF_RECENT_BLOCKHASH : nat := OFF_TX_HASH + LEN_HASH.
Definition OFF_PREV_RECEIPT_HASH : nat := OFF_RECENT_BLOCKHASH + LEN_HASH.
Definition OFF_COMMITTER : nat := OFF_PREV_RECEIPT_HASH + LEN_HASH.
Definition OFF_INGRESS_SLOT : nat := OFF_COMMITTER + LEN_PUBKEY.
Definition OFF_T_INGRESS_MICROS : nat := OFF_INGRESS_SLOT + LEN_SLOT.
Definition RECEIPT_LEN : nat := OFF_T_INGRESS_MICROS + LEN_MICROS.

Definition LEN_SIGNATURE : nat := 64.
Definition OFF_SIGNATURE : nat := RECEIPT_LEN.
Definition SIGNED_RECEIPT_LEN : nat := OFF_SIGNATURE + LEN_SIGNATURE.

Definition ZERO_SIG : bytes := zeros LEN_TX_SIG.
Definition ZERO_PUBKEY : bytes := zeros LEN_PUBKEY.
Definition ZERO_HASH : bytes := zeros LEN_HASH.
Definition GENESIS_PREV_HASH : bytes := ZERO_HASH.

(** The offset table as (offset, length) pairs in field order. *)
Definition FIELDS : list (nat * nat) :=
  [ (OFF_DOMAIN_TAG, LEN_DOMAIN_TAG); (OFF_LOG_ID, LEN_LOG_ID); (OFF_MODE, LEN_MODE);
    (OFF_SEQ, LEN_SEQ); (OFF_TX_SIG, LEN_TX_SIG); (OFF_TX_HASH, LEN_HASH);
    (OFF_RECENT_BLOCKHASH, LEN_HASH); (OFF_PREV_RECEIPT_HASH, LEN_HASH);
    (OFF_COMMITTER, LEN_PUBKEY); (OFF_INGRESS_SLOT, LEN_SLOT);
    (OFF_T_INGRESS_MICROS, LEN_MICROS) ].

(** ** slashing.rs *)

Definition BPS_DENOMINATOR : Z := 10000.
Definition BURN_BPS : Z := 5000.
Definition VICTIM_BPS : Z := 3000.
Definition POOL_BPS : Z := 2000.
Definition REWARD_SCALE : Z := 1000000000000.
Definition UNBOND_SLOTS : Z := 216000.

(** ** Properties *)

Lemma Mode_from_as_u8 m : Mode_from_u8 (Mode_as_u8 m) = Some m.
Proof. by destruct m. Qed.

Lemma Mode_from_u8_Some b m : Mode_from_u8 b = Some m -> b = Mode_as_u8 m.
Proof. unfold Mode_from_u8. repeat case_decide; naive_solver. Qed.

Lemma Mode_from_u8_zero : Mode_from_u8 x00 = None.
Proof. reflexivity. Qed.

Lemma Outcome_from_as_u8 o : Outcome_from_u8 (Outcome_as_u8 o) = Some o.
Proof. by destruct o. Qed.

Lemma Outcome_from_u8_Some b o : Outcome_from_u8 b = Some o -> b = Outcome_as_u8 o.
Proof. unfold Outcome_from_u8. repeat case_decide; naive_solver. Qed.

(** Each field begins where the previous one ends, and the last ends at [RECEIPT_LEN]. *)
Fixpoint tiles (cursor : nat) (fields : list (nat * nat)) (total : nat) : bool :=
  match fields with
  | [] => bool_decide (cursor = total)
  | (off, len) :: rest => bool_decide (off = cursor) && tiles (cursor + len) rest total
  end.

Lemma fields_tile : tiles 0 FIELDS RECEIPT_LEN = true.
Proof. reflexivity. Qed.

Lemma bps_sum : BURN_BPS + VICTIM_BPS + POOL_BPS = BPS_DENOMINATOR.
Proof. reflexivity. Qed.

Lemma burn_dominates : BURN_BPS >= VICTIM_BPS + POOL_BPS.
Proof. discriminate. Qed.

Create Rewrite HintDb codec.
#[export] Hint Rewrite Mode_from_as_u8 Outcome_from_as_u8 : codec.
