(* ===== verification/Crypto.v ===== *)
(** * The cryptographic primitives the crates call

    sha2, blake3 and ed25519-dalek are third-party crates: their functions are the fields of
    a class, and what the sources rely on of them is the class [CryptoLaws].  No law states
    that a hash is injective; the theorems that need it produce the colliding pair instead.
    [toy_crypto] is an executable instance with which the witnesses are evaluated. *)
From S2P Require Import Prelude.

Class Crypto : Type := {
  (** [sha2::Sha256::digest], also [solana_program::hash::hash]. *)
  sha256 : bytes -> bytes;
  (** [blake3::Hasher] over the concatenation of its updates. *)
  blake3 : bytes -> bytes;
  (** [ed25519_dalek::SigningKey]. *)
  SigningKey : Type;
  (** [SigningKey::verifying_key], as its 32 bytes. *)
  verifying_key : SigningKey -> bytes;
  (** [Signer::sign], as its 64 bytes. *)
  ed25519_sign : SigningKey -> bytes -> bytes;
  (** [VerifyingKey::verify_strict key message signature]. *)
  ed25519_verify_strict : bytes -> bytes -> bytes -> bool;
}.

Class CryptoLaws (C : Crypto) : Prop := {
  length_sha256 m : length (sha256 m) = 32%nat;
  length_blake3 m : length (blake3 m) = 32%nat;
  length_verifying_key k : length (verifying_key k) = 32%nat;
  length_sign k m : length (ed25519_sign k m) = 64%nat;
  sign_verifies k m : ed25519_verify_strict (verifying_key k) m (ed25519_sign k m) = true;
}.

#[export] Hint Rewrite @length_sha256 @length_blake3 @length_verifying_key @length_sign
  using typeclasses eauto : len.

(** Two different messages with one digest. *)
Definition sha256_collision `{Crypto} (x y : bytes) : Prop := x <> y /\ sha256 x = sha256 y.

(** ** An executable instance *)

Definition toy_poly (m : bytes) : Z :=
  foldl (fun acc b => (acc * 257 + byte_val b + 1) mod 1000003) 1 m.
Definition toy_hash (m : bytes) : bytes := le_bytes 32 (toy_poly m).
Definition toy_key (k : bytes) : bytes := take 32 (k ++ zeros 32).
Definition toy_sign (k m : bytes) : bytes :=
  let h := toy_hash (toy_key k ++ m) in h ++ h.

Definition toy_crypto : Crypto := {|
  sha256 := toy_hash;
  blake3 m := toy_hash (x42 :: m);
  SigningKey := bytes;
  verifying_key := toy_key;
  ed25519_sign := toy_sign;
  ed25519_verify_strict key m s := bool_decide (s = toy_sign key m);
|}.

Lemma length_toy_key k : length (toy_key k) = 32%nat.
Proof. unfold toy_key. rewrite length_take, length_app, length_zeros. lia. Qed.

Lemma toy_key_idemp k : toy_key (toy_key k) = toy_key k.
Proof.
  unfold toy_key at 1. rewrite take_app_le by (rewrite length_toy_key; lia).
  apply take_ge. by rewrite length_toy_key.
Qed.

#[global] Instance toy_laws : CryptoLaws toy_crypto.
Proof.
  split; intros.
  - apply (length_le_bytes 32).
  - apply (length_le_bytes 32).
  - apply length_toy_key.
  - cbv [ed25519_sign toy_crypto toy_sign toy_hash]. by rewrite length_app, length_le_bytes.
  - apply bool_decide_eq_true. unfold toy_sign. by rewrite toy_key_idemp.
Qed.
