(* ===== verification/Receipt.v ===== *)
(** * Receipts: crates/receipt

    The signed statement of one position: its fields, the rules of each mode, the 261-byte
    message and the 325-byte transport encoding, signing and verifying. *)
From S2P Require Import Prelude Constants Crypto.

(** ** error.rs *)

Inductive ReceiptError : Type :=
| WrongLength (got : nat)
| BadDomainTag
| InvalidMode (b : byte)
| ModeReserved
| TxSigNotZeroed
| TxSigZeroed
| TxHashZeroed
| RecentBlockhashNotZeroed
| CommitterNotZeroed
| CommitterZeroed
| BadSignature.

#[global] Instance ReceiptError_eq_dec : EqDecision ReceiptError.
Proof. solve_decision. Defined.

(** ** receipt.rs *)

Record Receipt : Type := MkReceipt {
  r_log_id : bytes;
  r_mode : Mode;
  r_seq : Z;
  r_tx_sig : bytes;
  r_tx_hash : bytes;
  r_recent_blockhash : bytes;
  r_prev_receipt_hash : bytes;
  r_committer : bytes;
  r_ingress_slot : Z;
  r_t_ingress_micros : Z;
}.

#[global] Instance Receipt_eq_dec : EqDecision Receipt.
Proof. solve_decision. Defined.

(** What the Rust types of the fields guarantee. *)
Definition Receipt_wf (r : Receipt) : Prop :=
  length (r_log_id r) = LEN_LOG_ID /\ is_u64 (r_seq r) /\
  length (r_tx_sig r) = LEN_TX_SIG /\ length (r_tx_hash r) = LEN_HASH /\
  length (r_recent_blockhash r) = LEN_HASH /\ length (r_prev_receipt_hash r) = LEN_HASH /\
  length (r_committer r) = LEN_PUBKEY /\ is_u64 (r_ingress_slot r) /\
  is_u64 (r_t_ingress_micros r).

#[global] Instance Receipt_wf_dec r : Decision (Receipt_wf r).
Proof. unfold Receipt_wf. apply _. Defined.

(** [arr::<N>(buf, off)]: slices, then converts a slice of exactly [N] bytes. *)
Definition arr {E} (n : nat) (buf : bytes) (off : nat) : result E bytes :=
  s ← index_range buf off (off + n);
  expect (try_into_array n s).

Definition Receipt_to_bytes (r : Receipt) : bytes :=
  let out := zeros RECEIPT_LEN in
  let out := copy_range out OFF_DOMAIN_TAG OFF_LOG_ID DOMAIN_TAG in
  let out := copy_range out OFF_LOG_ID OFF_MODE (r_log_id r) in
  let out := <[OFF_MODE := Mode_as_u8 (r_mode r)]> out in
  let out := copy_range out OFF_SEQ OFF_TX_SIG (le_bytes 8 (r_seq r)) in
  let out := copy_range out OFF_TX_SIG OFF_TX_HASH (r_tx_sig r) in
  let out := copy_range out OFF_TX_HASH OFF_RECENT_BLOCKHASH (r_tx_hash r) in
  let out := copy_range out OFF_RECENT_BLOCKHASH OFF_PREV_RECEIPT_HASH (r_recent_blockhash r) in
  let out := copy_range out OFF_PREV_RECEIPT_HASH OFF_COMMITTER (r_prev_receipt_hash r) in
  let out := copy_range out OFF_COMMITTER OFF_INGRESS_SLOT (r_committer r) in
  let out := copy_range out OFF_INGRESS_SLOT OFF_T_INGRESS_MICROS
               (le_bytes 8 (r_ingress_slot r)) in
  copy_range out OFF_T_INGRESS_MICROS RECEIPT_LEN (le_bytes 8 (r_t_ingress_micros r)).

Definition Receipt_validate (r : Receipt) : result ReceiptError unit :=
  match r_mode r with
  | Plain =>
      _ ← ensure (bool_decide (r_tx_sig r <> ZERO_SIG)) TxSigZeroed;
      ensure (bool_decide (r_committer r = ZERO_PUBKEY)) CommitterNotZeroed
  | Commit =>
      _ ← ensure (bool_decide (r_tx_sig r = ZERO_SIG)) TxSigNotZeroed;
      ensure (bool_decide (r_committer r <> ZERO_PUBKEY)) CommitterZeroed
  | Retract =>
      _ ← ensure (bool_decide (r_tx_sig r <> ZERO_SIG)) TxSigZeroed;
      _ ← ensure (bool_decide (r_tx_hash r <> ZERO_HASH)) TxHashZeroed;
      _ ← ensure (bool_decide (r_recent_blockhash r = ZERO_HASH)) RecentBlockhashNotZeroed;
      ensure (bool_decide (r_committer r = ZERO_PUBKEY)) CommitterNotZeroed
  | Reveal => Err ModeReserved
  end.

Definition Receipt_from_bytes (buf : bytes) : result ReceiptError Receipt :=
  _ ← ensure (bool_decide (length buf = RECEIPT_LEN)) (WrongLength (length buf));
  tag ← index_range buf OFF_DOMAIN_TAG OFF_LOG_ID;
  _ ← ensure (bool_decide (tag = DOMAIN_TAG)) BadDomainTag;
  mode_byte ← index_at buf OFF_MODE;
  log_id ← arr LEN_LOG_ID buf OFF_LOG_ID;
  mode ← ok_or (Mode_from_u8 mode_byte) (InvalidMode mode_byte);
  seq ← arr 8 buf OFF_SEQ;
  tx_sig ← arr LEN_TX_SIG buf OFF_TX_SIG;
  tx_hash ← arr LEN_HASH buf OFF_TX_HASH;
  recent_blockhash ← arr LEN_HASH buf OFF_RECENT_BLOCKHASH;
  prev_receipt_hash ← arr LEN_HASH buf OFF_PREV_RECEIPT_HASH;
  committer ← arr LEN_PUBKEY buf OFF_COMMITTER;
  ingress_slot ← arr 8 buf OFF_INGRESS_SLOT;
  t_ingress_micros ← arr 8 buf OFF_T_INGRESS_MICROS;
  let receipt := {|
    r_log_id := log_id;
    r_mode := mode;
    r_seq := le_val seq;
    r_tx_sig := tx_sig;
    r_tx_hash := tx_hash;
    r_recent_blockhash := recent_blockhash;
    r_prev_receipt_hash := prev_receipt_hash;
    r_committer := committer;
    r_ingress_slot := le_val ingress_slot;
    r_t_ingress_micros := le_val t_ingress_micros;
  |} in
  _ ← Receipt_validate receipt;
  Ok receipt.

(** ** signed_receipt.rs and hashing.rs *)

Record SignedReceipt : Type := MkSigned {
  s_receipt : Receipt;
  s_signature : bytes;
}.

#[global] Instance SignedReceipt_eq_dec : EqDecision SignedReceipt.
Proof. solve_decision. Defined.

Definition SignedReceipt_wf (s : SignedReceipt) : Prop :=
  Receipt_wf (s_receipt s) /\ length (s_signature s) = LEN_SIGNATURE.

#[global] Instance SignedReceipt_wf_dec s : Decision (SignedReceipt_wf s).
Proof. unfold SignedReceipt_wf. apply _. Defined.

Definition SignedReceipt_message (s : SignedReceipt) : bytes := Receipt_to_bytes (s_receipt s).

Definition SignedReceipt_to_bytes (s : SignedReceipt) : bytes :=
  let out := zeros SIGNED_RECEIPT_LEN in
  let out := copy_range out 0 OFF_SIGNATURE (Receipt_to_bytes (s_receipt s)) in
  copy_range out OFF_SIGNATURE SIGNED_RECEIPT_LEN (s_signature s).

Definition SignedReceipt_from_bytes (buf : bytes) : result ReceiptError SignedReceipt :=
  _ ← ensure (bool_decide (length buf = SIGNED_RECEIPT_LEN)) (WrongLength (length buf));
  head ← index_range buf 0 OFF_SIGNATURE;
  receipt ← Receipt_from_bytes head;
  tail ← index_range buf OFF_SIGNATURE (length buf);
  signature ← expect (try_into_array LEN_TX_SIG tail);
  Ok {| s_receipt := receipt; s_signature := signature |}.

Section crypto.
Context `{C : Crypto}.

Definition tx_hash (wire_bytes : bytes) : bytes := sha256 wire_bytes.

Definition Receipt_sign (r : Receipt) (key : SigningKey) : result ReceiptError SignedReceipt :=
  _ ← Receipt_validate r;
  Ok {| s_receipt := r; s_signature := ed25519_sign key (Receipt_to_bytes r) |}.

(** The hasher is fed the message, then the signature. *)
Definition receipt_hash (s : SignedReceipt) : bytes :=
  sha256 (Receipt_to_bytes (s_receipt s) ++ s_signature s).

Definition SignedReceipt_verify (s : SignedReceipt) (key : bytes) : result ReceiptError unit :=
  _ ← Receipt_validate (s_receipt s);
  ensure (ed25519_verify_strict key (SignedReceipt_message s) (s_signature s)) BadSignature.
End crypto.

#[global] Arguments Receipt_to_bytes : simpl never.
#[global] Arguments Receipt_from_bytes : simpl never.
#[global] Arguments Receipt_validate : simpl never.
#[global] Arguments SignedReceipt_to_bytes : simpl never.
#[global] Arguments SignedReceipt_from_bytes : simpl never.

(** ** The encoding *)

Ltac cbn_receipt :=
  cbn [r_log_id r_mode r_seq r_tx_sig r_tx_hash r_recent_blockhash r_prev_receipt_hash
       r_committer r_ingress_slot r_t_ingress_micros s_receipt s_signature].

(** The message as the concatenation of its fields, the form the proofs work with. *)
Definition receipt_layout (r : Receipt) : bytes :=
  DOMAIN_TAG ++ r_log_id r ++ [Mode_as_u8 (r_mode r)] ++ le_bytes 8 (r_seq r) ++ r_tx_sig r ++
  r_tx_hash r ++ r_recent_blockhash r ++ r_prev_receipt_hash r ++ r_committer r ++
  le_bytes 8 (r_ingress_slot r) ++ le_bytes 8 (r_t_ingress_micros r).

(** Filling the zeroed buffer field by field leaves exactly the fields, in order. *)
Lemma Receipt_to_bytes_layout r : Receipt_wf r -> Receipt_to_bytes r = receipt_layout r.
Proof.
  intros (H1 & H2 & H3 & H4 & H5 & H6 & H7 & H8 & H9). unfold Receipt_to_bytes, receipt_layout.
  change (zeros RECEIPT_LEN) with ([] ++ drop OFF_DOMAIN_TAG (zeros RECEIPT_LEN)).
  cbv zeta.
  rewrite (copy_range_next []) by done.
  rewrite copy_range_next by (autorewrite with len; rewrite ?H1; done).
  rewrite insert_next by
    first [rewrite length_zeros; apply Nat.ltb_lt; reflexivity | rewrite !length_app, H1; done].
  change (S OFF_MODE) with OFF_SEQ.
  do 8 (rewrite copy_range_next by
    (autorewrite with len; rewrite ?H1, ?H3, ?H4, ?H5, ?H6, ?H7; reflexivity)).
  rewrite drop_ge by (rewrite length_zeros; lia).
  by rewrite app_nil_r, <- !app_assoc, app_nil_l.
Qed.

Lemma length_receipt_layout r : Receipt_wf r -> length (receipt_layout r) = RECEIPT_LEN.
Proof.
  intros (H1 & H2 & H3 & H4 & H5 & H6 & H7 & H8 & H9). unfold receipt_layout.
  autorewrite with len. rewrite H1, H3, H4, H5, H6, H7. reflexivity.
Qed.

Lemma length_Receipt_to_bytes r : Receipt_wf r -> length (Receipt_to_bytes r) = RECEIPT_LEN.
Proof. intros Hr. rewrite Receipt_to_bytes_layout by done. by apply length_receipt_layout. Qed.

Lemma arr_in {E} n buf off :
  (off + n <= length buf)%nat -> arr (E:=E) n buf off = Ok (slice buf off (off + n)).
Proof.
  intros. unfold arr. rewrite index_range_in by lia. cbn.
  rewrite try_into_array_in; [done|]. rewrite length_slice; lia.
Qed.

(** The fields of a buffer of the right length. *)
Definition receipt_fields (buf : bytes) (mode : Mode) : Receipt := {|
  r_log_id := slice buf OFF_LOG_ID OFF_MODE;
  r_mode := mode;
  r_seq := le_val (slice buf OFF_SEQ OFF_TX_SIG);
  r_tx_sig := slice buf OFF_TX_SIG OFF_TX_HASH;
  r_tx_hash := slice buf OFF_TX_HASH OFF_RECENT_BLOCKHASH;
  r_recent_blockhash := slice buf OFF_RECENT_BLOCKHASH OFF_PREV_RECEIPT_HASH;
  r_prev_receipt_hash := slice buf OFF_PREV_RECEIPT_HASH OFF_COMMITTER;
  r_committer := slice buf OFF_COMMITTER OFF_INGRESS_SLOT;
  r_ingress_slot := le_val (slice buf OFF_INGRESS_SLOT OFF_T_INGRESS_MICROS);
  r_t_ingress_micros := le_val (slice buf OFF_T_INGRESS_MICROS RECEIPT_LEN);
|}.

(** Parsing without the steps that cannot fail: none of the slices panics. *)
Lemma Receipt_from_bytes_checks buf b :
  length buf = RECEIPT_LEN -> buf !! OFF_MODE = Some b ->
  Receipt_from_bytes buf =
    (_ ← ensure (bool_decide (slice buf OFF_DOMAIN_TAG OFF_LOG_ID = DOMAIN_TAG)) BadDomainTag;
     mode ← ok_or (Mode_from_u8 b) (InvalidMode b);
     _ ← Receipt_validate (receipt_fields buf mode);
     Ok (receipt_fields buf mode)).
Proof.
  intros Hlen Hb. unfold Receipt_from_bytes. rewrite bool_decide_true by done. res_run.
  rewrite index_range_in by (rewrite Hlen; eval_done).
  rewrite (index_at_in _ _ _ Hb).
  rewrite !arr_in by (rewrite Hlen; eval_done).
  cbv [mbind result_bind]. destruct (bool_decide _); [|done]. cbn [ensure].
  by destruct (Mode_from_u8 b).
Qed.

Lemma receipt_fields_wf buf mode : length buf = RECEIPT_LEN -> Receipt_wf (receipt_fields buf mode).
Proof.
  intros Hlen.
  assert (forall a b, (a <= b <= RECEIPT_LEN)%nat -> length (slice buf a b) = (b - a)%nat) as Hs.
  { intros. apply length_slice. lia. }
  unfold Receipt_wf, receipt_fields; cbn_receipt.
  split_conj; try apply le_val_u64; (rewrite Hs; [reflexivity|eval_done]).
Qed.

(** The slices of a buffer, put back together, are the buffer. *)
Lemma receipt_fields_layout buf mode :
  length buf = RECEIPT_LEN -> slice buf OFF_DOMAIN_TAG OFF_LOG_ID = DOMAIN_TAG ->
  buf !! OFF_MODE = Some (Mode_as_u8 mode) -> receipt_layout (receipt_fields buf mode) = buf.
Proof.
  intros Hlen Htag Hmode. unfold receipt_layout, receipt_fields; cbn_receipt.
  assert (forall a b, (b = a + 8 /\ b <= RECEIPT_LEN)%nat ->
    le_bytes 8 (le_val (slice buf a b)) = slice buf a b) as Hint.
  { intros a b [-> Ha]. rewrite <- (le_bytes_val (slice _ _ _)) at 2.
    f_equal. rewrite length_slice; lia. }
  rewrite !Hint by eval_done.
  rewrite <- Htag, <- (slice_one _ _ _ Hmode).
  rewrite <- (slice_all buf RECEIPT_LEN Hlen) at 12. rewrite !app_assoc.
  by repeat (rewrite slice_slice by eval_done).
Qed.

(** Reading the fields back out of an encoded receipt. *)
Lemma receipt_layout_fields r :
  Receipt_wf r ->
  slice (receipt_layout r) OFF_DOMAIN_TAG OFF_LOG_ID = DOMAIN_TAG /\
  receipt_layout r !! OFF_MODE = Some (Mode_as_u8 (r_mode r)) /\
  receipt_fields (receipt_layout r) (r_mode r) = r.
Proof.
  intros (H1 & H2 & H3 & H4 & H5 & H6 & H7 & H8 & H9). destruct r as [l m q s h b p c i t].
  unfold receipt_layout, receipt_fields; cbn_receipt. cbn in H1, H2, H3, H4, H5, H6, H7, H8, H9.
  split_conj; [slice_walk| |f_equal].
  - rewrite app_assoc. apply lookup_app_at. len_done.
  - slice_walk.
  - rewrite <- (le_val_bytes_u64 q) at 2 by done. f_equal. slice_walk.
  - slice_walk.
  - slice_walk.
  - slice_walk.
  - slice_walk.
  - slice_walk.
  - rewrite <- (le_val_bytes_u64 i) at 2 by done. f_equal. slice_walk.
  - rewrite <- (le_val_bytes_u64 t) at 2 by done. f_equal. slice_walk.
Qed.

Lemma Receipt_to_bytes_inj r1 r2 :
  Receipt_wf r1 -> Receipt_wf r2 -> Receipt_to_bytes r1 = Receipt_to_bytes r2 -> r1 = r2.
Proof.
  intros W1 W2. rewrite !Receipt_to_bytes_layout by done. intros Heq.
  destruct (receipt_layout_fields r1 W1) as (_ & M1 & F1).
  destruct (receipt_layout_fields r2 W2) as (_ & M2 & F2).
  rewrite Heq, M2 in M1. assert (r_mode r1 = r_mode r2) as Hm.
  { injection M1 as M1. apply (f_equal Mode_from_u8) in M1. autorewrite with codec in M1. congruence. }
  rewrite <- F1, <- F2. by rewrite Heq, Hm.
Qed.

(** Parsing an encoded receipt yields the receipt or the error of its mode's rules. *)
Lemma Receipt_from_to_bytes r :
  Receipt_wf r ->
  Receipt_from_bytes (Receipt_to_bytes r) = (_ ← Receipt_validate r; Ok r).
Proof.
  intros Hwf. rewrite Receipt_to_bytes_layout by done.
  destruct (receipt_layout_fields r Hwf) as (Htag & Hmode & Hf).
  rewrite (Receipt_from_bytes_checks _ _ (length_receipt_layout r Hwf) Hmode).
  rewrite bool_decide_true by done. rewrite Mode_from_as_u8. res_run. by rewrite Hf.
Qed.

Lemma mode_byte_exists (buf : bytes) : length buf = RECEIPT_LEN -> exists b, buf !! OFF_MODE = Some b.
Proof. intros Hlen. apply lookup_lt_is_Some_2. rewrite Hlen. eval_done. Qed.

(** Only canonical encodings parse, and what parses obeys the rules of its mode. *)
Lemma Receipt_from_bytes_Ok buf r :
  Receipt_from_bytes buf = Ok r ->
  Receipt_to_bytes r = buf /\ Receipt_wf r /\ Receipt_validate r = Ok tt.
Proof.
  intros Hr. assert (length buf = RECEIPT_LEN) as Hlen.
  { unfold Receipt_from_bytes in Hr. by res_inv. }
  destruct (mode_byte_exists buf Hlen) as [b Hb].
  rewrite (Receipt_from_bytes_checks buf b) in Hr by done. res_inv.
  match goal with Hm : Mode_from_u8 _ = Some _ |- _ => apply Mode_from_u8_Some in Hm as -> end.
  rewrite Receipt_to_bytes_layout by (by apply receipt_fields_wf).
  split_conj; auto using receipt_fields_layout, receipt_fields_wf.
Qed.

Lemma Receipt_validate_no_panic r : Receipt_validate r <> Panic.
Proof.
  unfold Receipt_validate. destruct (r_mode r); repeat case_bool_decide; done.
Qed.

Lemma Receipt_from_bytes_no_panic buf : Receipt_from_bytes buf <> Panic.
Proof.
  destruct (decide (length buf = RECEIPT_LEN)) as [Hlen|Hlen].
  - destruct (mode_byte_exists buf Hlen) as [b Hb].
    rewrite (Receipt_from_bytes_checks buf b) by done.
    destruct (bool_decide _); [|done]. destruct (Mode_from_u8 b) as [m|]; [|done]. cbn.
    pose proof (Receipt_validate_no_panic (receipt_fields buf m)).
    by destruct (Receipt_validate _).
  - unfold Receipt_from_bytes. by rewrite bool_decide_false by done.
Qed.

Lemma Receipt_from_bytes_inj b1 b2 r :
  Receipt_from_bytes b1 = Ok r -> Receipt_from_bytes b2 = Ok r -> b1 = b2.
Proof. by intros [<- _]%Receipt_from_bytes_Ok [<- _]%Receipt_from_bytes_Ok. Qed.

(** ** The signed receipt *)

Lemma SignedReceipt_to_bytes_app s :
  SignedReceipt_wf s -> SignedReceipt_to_bytes s = Receipt_to_bytes (s_receipt s) ++ s_signature s.
Proof.
  intros [Hr Hs]. unfold SignedReceipt_to_bytes. cbv zeta.
  change (zeros SIGNED_RECEIPT_LEN) with ([] ++ drop 0 (zeros SIGNED_RECEIPT_LEN)).
  rewrite (copy_range_next []) by (rewrite ?length_Receipt_to_bytes by done; done).
  rewrite copy_range_next by (rewrite ?Hs; cbn [app]; rewrite ?length_Receipt_to_bytes by done; done).
  rewrite drop_ge by (rewrite length_zeros; lia). by rewrite app_nil_r, app_nil_l.
Qed.

Lemma length_SignedReceipt_to_bytes s :
  SignedReceipt_wf s -> length (SignedReceipt_to_bytes s) = SIGNED_RECEIPT_LEN.
Proof.
  intros Hs. rewrite SignedReceipt_to_bytes_app by done. destruct Hs as [Hr Hs].
  rewrite length_app, length_Receipt_to_bytes, Hs by done. reflexivity.
Qed.

Lemma SignedReceipt_to_bytes_inj s1 s2 :
  SignedReceipt_wf s1 -> SignedReceipt_wf s2 ->
  SignedReceipt_to_bytes s1 = SignedReceipt_to_bytes s2 -> s1 = s2.
Proof.
  intros W1 W2. rewrite !SignedReceipt_to_bytes_app by done. destruct W1, W2, s1, s2; cbn in *.
  intros [Hr ->]%app_inj_1.
  - f_equal. by apply Receipt_to_bytes_inj.
  - by rewrite !length_Receipt_to_bytes.
Qed.

Lemma SignedReceipt_from_to_bytes s :
  SignedReceipt_wf s ->
  SignedReceipt_from_bytes (SignedReceipt_to_bytes s) = (_ ← Receipt_validate (s_receipt s); Ok s).
Proof.
  intros Hs. pose proof (length_SignedReceipt_to_bytes s Hs) as Hlen.
  unfold SignedReceipt_from_bytes. rewrite bool_decide_true by done. res_run. rewrite Hlen.
  rewrite !index_range_in by (rewrite Hlen; eval_done).
  rewrite SignedReceipt_to_bytes_app by done. destruct Hs as [Hr Hs].
  pose proof (length_Receipt_to_bytes _ Hr) as HlenR.
  rewrite (slice_here _ _ 0 OFF_SIGNATURE) by (rewrite ?HlenR; reflexivity).
  rewrite bind_of_ok, Receipt_from_to_bytes by done.
  rewrite slice_skip, HlenR by (rewrite HlenR; reflexivity).
  rewrite slice_last by (rewrite ?Hs; reflexivity).
  destruct s as [r g]; cbn_receipt.
  destruct (Receipt_validate r) as [[]| |]; res_run; [|done..].
  by rewrite try_into_array_in.
Qed.

Lemma SignedReceipt_from_bytes_Ok buf s :
  SignedReceipt_from_bytes buf = Ok s ->
  SignedReceipt_to_bytes s = buf /\ SignedReceipt_wf s /\ Receipt_validate (s_receipt s) = Ok tt.
Proof.
  unfold SignedReceipt_from_bytes. intros Hs. res_inv.
  repeat match goal with
  | H : index_range _ _ _ = Ok _ |- _ => apply index_range_Ok in H as [? ->]
  | H : try_into_array _ _ = Some _ |- _ => apply try_into_array_Some in H as [? ->]
  | H : Receipt_from_bytes _ = Ok _ |- _ => apply Receipt_from_bytes_Ok in H as (Hb & Hwf & Hv)
  end.
  assert (SignedReceipt_wf (MkSigned x1 (slice buf OFF_SIGNATURE (length buf)))) as HW by done.
  split_conj; [|done..]. rewrite SignedReceipt_to_bytes_app by done. cbn_receipt.
  rewrite Hb, slice_slice by lia. by apply slice_all.
Qed.

Section signing.
Context `{C : Crypto} `{L : !CryptoLaws C}.

(** The chain link is the digest of the transport encoding. *)
Lemma receipt_hash_transport s :
  SignedReceipt_wf s -> receipt_hash s = tx_hash (SignedReceipt_to_bytes s).
Proof. intros Hs. unfold receipt_hash, tx_hash. by rewrite SignedReceipt_to_bytes_app. Qed.

Lemma Receipt_sign_Ok r key s :
  Receipt_sign r key = Ok s ->
  Receipt_validate r = Ok tt /\ s = MkSigned r (ed25519_sign key (Receipt_to_bytes r)).
Proof. unfold Receipt_sign. intros H. by res_inv. Qed.

Lemma Receipt_sign_no_panic r key : Receipt_sign r key <> Panic.
Proof.
  unfold Receipt_sign. pose proof (Receipt_validate_no_panic r).
  by destruct (Receipt_validate r) as [[]| |].
Qed.

Lemma Receipt_sign_wf r key s :
  Receipt_wf r -> Receipt_sign r key = Ok s -> SignedReceipt_wf s.
Proof. intros Hr [_ ->]%Receipt_sign_Ok. split; [done|]. apply length_sign. Qed.

(** A signed receipt verifies under the signer's key. *)
Lemma Receipt_sign_verifies r key s :
  Receipt_sign r key = Ok s -> SignedReceipt_verify s (verifying_key key) = Ok tt.
Proof.
  intros [Hv ->]%Receipt_sign_Ok. unfold SignedReceipt_verify, SignedReceipt_message. cbn_receipt.
  rewrite Hv. cbn. by rewrite sign_verifies.
Qed.

Lemma SignedReceipt_verify_Ok s key :
  SignedReceipt_verify s key = Ok tt <->
  Receipt_validate (s_receipt s) = Ok tt /\
  ed25519_verify_strict key (Receipt_to_bytes (s_receipt s)) (s_signature s) = true.
Proof.
  unfold SignedReceipt_verify, SignedReceipt_message.
  destruct (Receipt_validate (s_receipt s)) as [[]| |]; cbn; [|naive_solver..].
  rewrite ensure_Ok. naive_solver.
Qed.

(** Equal chain links mean equal signed receipts, or a sha256 collision in hand. *)
Lemma receipt_hash_binds s1 s2 :
  SignedReceipt_wf s1 -> SignedReceipt_wf s2 -> receipt_hash s1 = receipt_hash s2 ->
  s1 = s2 \/ sha256_collision (SignedReceipt_to_bytes s1) (SignedReceipt_to_bytes s2).
Proof.
  intros W1 W2. rewrite !receipt_hash_transport by done. intros Heq.
  destruct (decide (s1 = s2)) as [|Hne]; [by left|right]. split; [|done].
  contradict Hne. by apply SignedReceipt_to_bytes_inj.
Qed.
End signing.

Lemma SignedReceipt_from_bytes_no_panic buf : SignedReceipt_from_bytes buf <> Panic.
Proof.
  unfold SignedReceipt_from_bytes. case_bool_decide as Hlen; [|done]. res_run.
  rewrite !index_range_in by (rewrite Hlen; eval_done). res_run.
  pose proof (Receipt_from_bytes_no_panic (slice buf 0 OFF_SIGNATURE)).
  destruct (Receipt_from_bytes _) as [r| |]; [|done..]. res_run.
  rewrite try_into_array_in; [done|]. rewrite length_slice, Hlen by (rewrite Hlen; eval_done). done.
Qed.

(** ** Properties *)

(** C32: the transport encoding is canonical.  [SignedReceipt::from_bytes] never panics, and it
    accepts exactly the encodings of the receipts whose fields have their widths and obey the
    rules of their mode, returning the encoded receipt: each valid receipt has one encoding,
    and every byte string that parses is the encoding of what it parses to. *)
Theorem signed_receipt_codec (buf : bytes) (s : SignedReceipt) :
  SignedReceipt_from_bytes buf <> Panic /\
  (SignedReceipt_from_bytes buf = Ok s <->
   SignedReceipt_wf s /\ Receipt_validate (s_receipt s) = Ok tt /\ buf = SignedReceipt_to_bytes s).
Proof.
  split; [apply SignedReceipt_from_bytes_no_panic|]. split.
  - intros (<- & ? & ?)%SignedReceipt_from_bytes_Ok. done.
  - intros (Hwf & Hv & ->). rewrite SignedReceipt_from_to_bytes by done. by rewrite Hv.
Qed.

(** a receipt that obeys its mode's rules can be signed, and what is signed verifies under
    the signer's key, also after a trip through the transport encoding; and the signed message
    determines every field: no other well-formed receipt has the same message. *)
Theorem sign_transport_verify `{C : Crypto} `{!CryptoLaws C} (r : Receipt) (key : SigningKey)
    (Hwf : Receipt_wf r) (Hv : Receipt_validate r = Ok tt) :
  exists s, Receipt_sign r key = Ok s /\ s_receipt s = r /\
    (s' ← SignedReceipt_from_bytes (SignedReceipt_to_bytes s);
     _ ← SignedReceipt_verify s' (verifying_key key); Ok s') = Ok s /\
    forall r', Receipt_wf r' -> SignedReceipt_message s = Receipt_to_bytes r' -> r' = r.
Proof.
  exists (MkSigned r (ed25519_sign key (Receipt_to_bytes r))).
  assert (Receipt_sign r key = Ok (MkSigned r (ed25519_sign key (Receipt_to_bytes r)))) as Hs.
  { unfold Receipt_sign. by rewrite Hv. }
  split_conj; [done|done| |].
  - rewrite SignedReceipt_from_to_bytes by (by eapply Receipt_sign_wf). cbn_receipt. rewrite Hv.
    res_run. by rewrite (Receipt_sign_verifies _ _ _ Hs).
  - intros r' Hr' Heq. by apply Receipt_to_bytes_inj.
Qed.

Definition sample_receipt : Receipt :=
  MkReceipt (fill 32 x07) Plain 5 (fill 64 x09) (fill 32 x01) (fill 32 x02) (fill 32 x03)
    ZERO_PUBKEY 11 12.

Lemma sign_transport_verify_witness :
  exists s, Receipt_sign (C := toy_crypto) sample_receipt (fill 32 x41) = Ok s /\
    s_receipt s = sample_receipt /\
    (s' ← SignedReceipt_from_bytes (SignedReceipt_to_bytes s);
     _ ← SignedReceipt_verify (C := toy_crypto) s' (toy_key (fill 32 x41)); Ok s') = Ok s /\
    forall r', Receipt_wf r' -> SignedReceipt_message s = Receipt_to_bytes r' -> r' = sample_receipt.
Proof.
  exact (sign_transport_verify (C := toy_crypto) sample_receipt (fill 32 x41)
           ltac:(eval_done) ltac:(eval_done)).
Defined.

(** the hash chain is binding.  If two well-formed signed receipts have the same receipt hash
    (the value the next receipt commits to), they are the same receipt with the same signature,
    or their transport encodings are an explicit SHA-256 collision. *)
Theorem receipt_hash_binding `{C : Crypto} (s1 s2 : SignedReceipt)
    (W1 : SignedReceipt_wf s1) (W2 : SignedReceipt_wf s2) (H : receipt_hash s1 = receipt_hash s2) :
  s1 = s2 \/ sha256_collision (SignedReceipt_to_bytes s1) (SignedReceipt_to_bytes s2).
Proof. by apply receipt_hash_binds. Qed.

Lemma receipt_hash_binding_witness :
  let s := MkSigned sample_receipt (fill 64 x44) in
  s = s \/ sha256_collision (H := toy_crypto) (SignedReceipt_to_bytes s) (SignedReceipt_to_bytes s).
Proof.
  exact (receipt_hash_binding (C := toy_crypto) (MkSigned sample_receipt (fill 64 x44))
           (MkSigned sample_receipt (fill 64 x44))
           ltac:(eval_done) ltac:(eval_done) ltac:(reflexivity)).
Defined.
