(* ===== verification/Slashing.v ===== *)
(** * Slashing arithmetic: crates/slashing

    How a slashed bond is split, and the coverage pool that pays stakers through a running
    reward index.  [Coverage] is the pool together with every position staked in it; its step
    relation is what any sequence of calls can do, and [covered] is the invariant that makes
    the pool solvent. *)
From S2P Require Import Prelude Constants.

(** ** error.rs *)

Inductive PoolError : Type :=
| StakeIsZero
| PoolOverdraw (requested held : Z)
| ForeignPosition.

(** ** split.rs *)

Record Split : Type := MkSplit { burn : Z; victim : Z; pool : Z }.

Definition share (slashed bps : Z) : Z := wrap64 (wrap128 (slashed * bps) / BPS_DENOMINATOR).

Definition Split_of (slashed : Z) : Split :=
  let victim := share slashed VICTIM_BPS in
  let pool := share slashed POOL_BPS in
  {| burn := wrap64 (wrap64 (slashed - victim) - pool); victim := victim; pool := pool |}.

Definition Split_total (s : Split) : Z := wrap64 (wrap64 (burn s + victim s) + pool s).

Definition Split_without_pool (s : Split) : Split :=
  {| burn := wrap64 (burn s + pool s); victim := victim s; pool := 0 |}.

(** ** position.rs *)

Record Position : Type := MkPosition { p_staked : Z; p_entry_index : Z; p_reward : Z }.

#[global] Instance Position_eq_dec : EqDecision Position.
Proof. solve_decision. Defined.

Definition Position_default : Position := MkPosition 0 0 0.

Definition accrued (p : Position) (index : Z) : Z :=
  let delta := saturating_sub index (p_entry_index p) in
  wrap64 (wrap128 (p_staked p * delta) / REWARD_SCALE).

Definition claimable (p : Position) (index : Z) : Z := wrap64 (p_reward p + accrued p index).

Definition settle (p : Position) (index : Z) : Position :=
  {| p_staked := p_staked p;
     p_entry_index := index;
     p_reward := wrap64 (p_reward p + accrued p index) |}.

(** ** pool.rs *)

Record Pool : Type := MkPool { staked : Z; reward_index : Z }.

#[global] Instance Pool_eq_dec : EqDecision Pool.
Proof. solve_decision. Defined.

Definition Pool_default : Pool := MkPool 0 0.

Definition Pool_stake (self : Pool) (position : Position) (amount : Z)
    : result PoolError (Pool * Position) :=
  if decide (amount = 0) then Err StakeIsZero
  else if decide (0 < p_staked position /\ reward_index self < p_entry_index position)
  then Err ForeignPosition
  else
    let position := settle position (reward_index self) in
    Ok ({| staked := wrap64 (staked self + amount); reward_index := reward_index self |},
        {| p_staked := wrap64 (p_staked position + amount);
           p_entry_index := p_entry_index position;
           p_reward := p_reward position |}).

Definition Pool_unstake (self : Pool) (position : Position) (amount : Z)
    : result PoolError (Pool * Position * Z) :=
  if decide (p_staked position < amount) then Err (PoolOverdraw amount (p_staked position))
  else
    let position := settle position (reward_index self) in
    Ok ({| staked := wrap64 (staked self - amount); reward_index := reward_index self |},
        {| p_staked := wrap64 (p_staked position - amount);
           p_entry_index := p_entry_index position;
           p_reward := p_reward position |},
        amount).

(** Returns the position with its reward taken, and the reward. *)
Definition Pool_claim (self : Pool) (position : Position) : Position * Z :=
  let position := settle position (reward_index self) in
  ({| p_staked := p_staked position; p_entry_index := p_entry_index position; p_reward := 0 |},
   p_reward position).

Definition Pool_distribute (self : Pool) (split : Split) : Pool * Split :=
  if decide (staked self = 0 \/ pool split = 0) then (self, Split_without_pool split)
  else
    ({| staked := staked self;
        reward_index :=
          wrap128 (reward_index self + wrap128 (pool split * REWARD_SCALE) / staked self) |},
     split).

(** ** The pool with its positions *)

(** What a position is owed, in units of [1 / REWARD_SCALE] lamport. *)
Definition owed (index : Z) (p : Position) : Z :=
  p_reward p * REWARD_SCALE + p_staked p * (index - p_entry_index p).

Definition Position_wf (p : Position) : Prop :=
  is_u64 (p_staked p) /\ is_u128 (p_entry_index p) /\ is_u64 (p_reward p).

(** [distributed] is the total ever credited to the index, [paid] the total ever claimed. *)
Record covered {K} `{Countable K} (P : Pool) (ps : gmap K Position) (distributed paid : Z)
    : Prop := {
  cov_paid : 0 <= paid;
  cov_distributed : distributed < 2 ^ 64;
  cov_staked_wf : is_u64 (staked P);
  cov_index : 0 <= reward_index P <= distributed * REWARD_SCALE;
  cov_positions : forall k p, ps !! k = Some p ->
    Position_wf p /\ p_entry_index p <= reward_index P;
  cov_staked : staked P = msum p_staked ps;
  cov_owed : msum (owed (reward_index P)) ps + paid * REWARD_SCALE <= distributed * REWARD_SCALE;
}.
Arguments cov_paid {K _ _ P ps distributed paid} _.
Arguments cov_distributed {K _ _ P ps distributed paid} _.
Arguments cov_staked_wf {K _ _ P ps distributed paid} _.
Arguments cov_index {K _ _ P ps distributed paid} _.
Arguments cov_positions {K _ _ P ps distributed paid} _.
Arguments cov_staked {K _ _ P ps distributed paid} _.
Arguments cov_owed {K _ _ P ps distributed paid} _.

Record Coverage {K} `{Countable K} : Type := MkCoverage {
  c_pool : Pool;
  c_positions : gmap K Position;
  c_distributed : Z;
  c_paid : Z;
}.
Arguments Coverage K {_ _}.

Definition Coverage_init {K} `{Countable K} : Coverage K := MkCoverage K _ _ Pool_default ∅ 0 0.

(** One call on the pool, for some staker [k].  The two bounds on sums say that no more than
    [2 ^ 64 - 1] lamports exist to stake and to slash. *)
Inductive coverage_step {K} `{Countable K} : Coverage K -> Coverage K -> Prop :=
| step_open P ps d c k :
    ps !! k = None ->
    coverage_step (MkCoverage K _ _ P ps d c) (MkCoverage K _ _ P (<[k := Position_default]> ps) d c)
| step_stake P ps d c k p amount P' p' :
    ps !! k = Some p -> 0 <= amount -> staked P + amount < 2 ^ 64 ->
    Pool_stake P p amount = Ok (P', p') ->
    coverage_step (MkCoverage K _ _ P ps d c) (MkCoverage K _ _ P' (<[k := p']> ps) d c)
| step_unstake P ps d c k p amount P' p' paid :
    ps !! k = Some p -> 0 <= amount ->
    Pool_unstake P p amount = Ok (P', p', paid) ->
    coverage_step (MkCoverage K _ _ P ps d c) (MkCoverage K _ _ P' (<[k := p']> ps) d c)
| step_claim P ps d c k p p' earned :
    ps !! k = Some p -> Pool_claim P p = (p', earned) ->
    coverage_step (MkCoverage K _ _ P ps d c) (MkCoverage K _ _ P (<[k := p']> ps) d (c + earned))
| step_distribute P ps d c slashed P' s :
    is_u64 slashed -> d + pool (Split_of slashed) < 2 ^ 64 ->
    Pool_distribute P (Split_of slashed) = (P', s) ->
    coverage_step (MkCoverage K _ _ P ps d c) (MkCoverage K _ _ P' ps (d + pool s) c).

(** ** Splits *)

Lemma share_exact slashed bps :
  is_u64 slashed -> 0 <= bps <= BPS_DENOMINATOR ->
  share slashed bps = slashed * bps / BPS_DENOMINATOR /\ 0 <= share slashed bps <= slashed.
Proof.
  unfold is_u64, BPS_DENOMINATOR. intros Hs Hb. unfold share, BPS_DENOMINATOR.
  assert (0 <= slashed * bps <= slashed * 10000) by nia.
  rewrite wrap128_small by (split; lia).
  assert (0 <= slashed * bps / 10000 <= slashed).
  { split; [apply Z.div_pos; lia|]. apply Z.div_le_upper_bound; lia. }
  rewrite wrap64_small by (split; lia). done.
Qed.

Lemma Split_of_exact slashed :
  is_u64 slashed ->
  Split_of slashed =
    {| burn := slashed - slashed * VICTIM_BPS / BPS_DENOMINATOR - slashed * POOL_BPS / BPS_DENOMINATOR;
       victim := slashed * VICTIM_BPS / BPS_DENOMINATOR;
       pool := slashed * POOL_BPS / BPS_DENOMINATOR |} /\
  slashed * VICTIM_BPS / BPS_DENOMINATOR + slashed * POOL_BPS / BPS_DENOMINATOR <= slashed / 2.
Proof.
  intros Hs. unfold Split_of.
  destruct (share_exact slashed VICTIM_BPS Hs) as [-> ?]; [split; discriminate|].
  destruct (share_exact slashed POOL_BPS Hs) as [-> ?]; [split; discriminate|].
  unfold is_u64, VICTIM_BPS, POOL_BPS, BPS_DENOMINATOR in *.
  assert (slashed * 3000 / 10000 + slashed * 2000 / 10000 <= slashed / 2) by div_lia.
  rewrite (wrap64_small (slashed - _)) by (split; div_lia).
  rewrite wrap64_small by (split; div_lia). done.
Qed.

Lemma Split_of_bounds slashed :
  is_u64 slashed ->
  let s := Split_of slashed in
  0 <= burn s /\ 0 <= victim s /\ 0 <= pool s /\ burn s + victim s + pool s = slashed.
Proof.
  intros Hs. destruct (Split_of_exact slashed Hs) as [-> ?]. cbn.
  unfold is_u64, VICTIM_BPS, POOL_BPS, BPS_DENOMINATOR in *. div_lia.
Qed.

(** What [distribute] returns still adds up to the slash. *)
Lemma Pool_distribute_split P slashed :
  is_u64 slashed ->
  let s := (Pool_distribute P (Split_of slashed)).2 in
  0 <= burn s /\ 0 <= victim s /\ 0 <= pool s /\ burn s + victim s + pool s = slashed.
Proof.
  intros Hs. pose proof (Split_of_bounds slashed Hs) as Hb. unfold Pool_distribute.
  case_decide; [|done]. unfold is_u64 in Hs. cbn in *. rewrite wrap64_small by (split; lia). lia.
Qed.

(** ** Positions in a covered pool *)

Section coverage.
Context {K : Type} `{Countable K}.
Implicit Types (P : Pool) (ps : gmap K Position) (p : Position).

Lemma owed_nonneg P ps d c k p : covered P ps d c -> ps !! k = Some p -> 0 <= owed (reward_index P) p.
Proof.
  intros Hc Hk. destruct (cov_positions Hc k p Hk) as [(? & ? & ?) ?].
  unfold owed, is_u64, REWARD_SCALE in *. nia.
Qed.

Lemma owed_bound P ps d c k p :
  covered P ps d c -> ps !! k = Some p -> owed (reward_index P) p <= (d - c) * REWARD_SCALE.
Proof.
  intros Hc Hk. pose proof (cov_owed Hc).
  assert (owed (reward_index P) p <= msum (owed (reward_index P)) ps); [|lia].
  apply (msum_lookup_le _ _ k); [|done]. intros. by eapply owed_nonneg.
Qed.

(** No multiplication, addition or narrowing of an accrual wraps. *)
Lemma accrued_exact P ps d c k p :
  covered P ps d c -> ps !! k = Some p ->
  accrued p (reward_index P) = p_staked p * (reward_index P - p_entry_index p) / REWARD_SCALE /\
  0 <= accrued p (reward_index P) /\ p_reward p + accrued p (reward_index P) <= d - c.
Proof.
  intros Hc Hk. pose proof (owed_bound _ _ _ _ _ _ Hc Hk) as Hb.
  destruct (cov_positions Hc k p Hk) as [(Hs & ? & Hr) He].
  pose proof (cov_distributed Hc). pose proof (cov_paid Hc).
  unfold owed, is_u64 in *. unfold accrued, saturating_sub. rewrite Z.max_r by lia.
  set (v := p_staked p * _) in *. assert (0 <= v) by (unfold v; nia).
  unfold REWARD_SCALE in *. rewrite wrap128_small by (split; lia).
  rewrite wrap64_small by (split; div_lia). split_conj; div_lia.
Qed.

Lemma claimable_exact P ps d c k p :
  covered P ps d c -> ps !! k = Some p ->
  claimable p (reward_index P) = p_reward p + accrued p (reward_index P) /\
  0 <= claimable p (reward_index P) <= d - c.
Proof.
  intros Hc Hk. destruct (accrued_exact _ _ _ _ _ _ Hc Hk) as (_ & ? & ?).
  destruct (cov_positions Hc k p Hk) as [(? & ? & ?) ?]. unfold is_u64 in *.
  pose proof (cov_distributed Hc). pose proof (cov_paid Hc).
  unfold claimable. rewrite wrap64_small by (split; lia). lia.
Qed.

Lemma settle_exact P ps d c k p :
  covered P ps d c -> ps !! k = Some p ->
  let p' := settle p (reward_index P) in
  p' = MkPosition (p_staked p) (reward_index P) (claimable p (reward_index P)) /\
  Position_wf p' /\ owed (reward_index P) p' <= owed (reward_index P) p.
Proof.
  intros Hc Hk. destruct (claimable_exact _ _ _ _ _ _ Hc Hk) as [Hcl ?].
  destruct (accrued_exact _ _ _ _ _ _ Hc Hk) as (Ha & ? & ?).
  destruct (cov_positions Hc k p Hk) as [(? & ? & ?) ?].
  pose proof (cov_index Hc). pose proof (cov_distributed Hc). pose proof (cov_paid Hc).
  split; [done|]. unfold settle, owed, Position_wf, is_u64, is_u128 in *; cbn.
  fold (claimable p (reward_index P)). rewrite Hcl. rewrite Ha in *.
  set (v := p_staked p * _) in *. unfold REWARD_SCALE in *.
  split_conj; div_lia.
Qed.

(** Replacing one position by one that is owed no more. *)
Lemma covered_replace P ps d c k p P' p' c' :
  covered P ps d c -> ps !! k = Some p ->
  reward_index P' = reward_index P -> is_u64 (staked P') ->
  staked P' - staked P = p_staked p' - p_staked p ->
  Position_wf p' -> p_entry_index p' <= reward_index P -> 0 <= c' ->
  owed (reward_index P) p' + c' * REWARD_SCALE <= owed (reward_index P) p + c * REWARD_SCALE ->
  covered P' (<[k := p']> ps) d c'.
Proof.
  intros Hc Hk Hi Hs Hst Hwf He Hc' Ho. destruct Hc as [? ? ? ? Hps Hsum Howed].
  split; rewrite ?Hi; auto.
  - intros k' q Hq. apply lookup_insert_Some in Hq as [[<- <-]|[_ Hq]]; eauto.
  - rewrite (msum_replace _ _ _ _ _ Hk). lia.
  - rewrite (msum_replace _ _ _ _ _ Hk). lia.
Qed.

Lemma covered_open P ps d c k :
  covered P ps d c -> ps !! k = None -> covered P (<[k := Position_default]> ps) d c.
Proof.
  intros [? ? ? ? Hps Hsum Howed] Hk. split; auto.
  - intros k' q Hq. apply lookup_insert_Some in Hq as [[<- <-]|[_ Hq]]; eauto.
    unfold Position_wf, is_u64, is_u128; cbn; lia.
  - rewrite msum_insert by done. cbn; lia.
  - rewrite msum_insert by done. unfold owed at 1; cbn; lia.
Qed.

Lemma covered_empty : covered Pool_default (∅ : gmap K Position) 0 0.
Proof. split; rewrite ?msum_empty; cbn; unfold is_u64; try lia. intros k p Hk. by simplify_map_eq. Qed.

(** ** The operations *)

Lemma stake_covered P ps d c k p amount P' p' :
  covered P ps d c -> ps !! k = Some p -> 0 <= amount -> staked P + amount < 2 ^ 64 ->
  Pool_stake P p amount = Ok (P', p') ->
  covered P' (<[k := p']> ps) d c /\ staked P' = staked P + amount /\
  reward_index P' = reward_index P /\
  p' = MkPosition (p_staked p + amount) (reward_index P) (claimable p (reward_index P)).
Proof.
  intros Hc Hk Ha Hlt Hst. destruct (settle_exact _ _ _ _ _ _ Hc Hk) as (Heq & (? & ? & ?) & Ho).
  pose proof (cov_staked_wf Hc). pose proof (cov_paid Hc).
  assert (p_staked p <= staked P).
  { rewrite (cov_staked Hc). apply (msum_lookup_le _ _ k); [|done].
    intros k' q Hq. by destruct (cov_positions Hc k' q Hq) as [[[] _] _]. }
  unfold Pool_stake in Hst. repeat case_decide; [done..|].
  rewrite Heq in *; cbn in *. injection Hst as <- <-. unfold is_u64 in *.
  rewrite !wrap64_small by (split; lia). split_conj; [|done..].
  unfold owed in Ho; cbn in Ho.
  eapply covered_replace; eauto; unfold Position_wf, is_u64, owed; cbn; split_conj; auto; lia.
Qed.

Lemma unstake_covered P ps d c k p amount P' p' paid :
  covered P ps d c -> ps !! k = Some p -> 0 <= amount ->
  Pool_unstake P p amount = Ok (P', p', paid) ->
  covered P' (<[k := p']> ps) d c /\ staked P' = staked P - amount /\ paid = amount /\
  0 <= amount <= p_staked p /\ reward_index P' = reward_index P /\
  p' = MkPosition (p_staked p - amount) (reward_index P) (claimable p (reward_index P)).
Proof.
  intros Hc Hk Ha Hst. destruct (settle_exact _ _ _ _ _ _ Hc Hk) as (Heq & (? & ? & ?) & Ho).
  pose proof (cov_staked_wf Hc). pose proof (cov_paid Hc).
  assert (p_staked p <= staked P).
  { rewrite (cov_staked Hc). apply (msum_lookup_le _ _ k); [|done].
    intros k' q Hq. by destruct (cov_positions Hc k' q Hq) as [[[] _] _]. }
  unfold Pool_unstake in Hst. case_decide; [done|].
  rewrite Heq in *; cbn in *. injection Hst as <- <- <-. unfold is_u64 in *.
  rewrite !wrap64_small by (split; lia). split_conj; [|done || lia..].
  unfold owed in Ho; cbn in Ho.
  eapply covered_replace; eauto; unfold Position_wf, is_u64, owed; cbn; split_conj; auto; lia.
Qed.

Lemma claim_covered P ps d c k p p' earned :
  covered P ps d c -> ps !! k = Some p -> Pool_claim P p = (p', earned) ->
  covered P (<[k := p']> ps) d (c + earned) /\ earned = claimable p (reward_index P) /\
  0 <= earned <= d - c /\ p' = MkPosition (p_staked p) (reward_index P) 0.
Proof.
  intros Hc Hk Hcl. destruct (settle_exact _ _ _ _ _ _ Hc Hk) as (Heq & (? & ? & ?) & Ho).
  destruct (claimable_exact _ _ _ _ _ _ Hc Hk) as [_ ?]. pose proof (cov_paid Hc).
  unfold Pool_claim in Hcl. rewrite Heq in *. injection Hcl as <- <-. cbn in *.
  split_conj; [|done || lia..]. unfold owed in Ho; cbn in Ho.
  pose proof (cov_staked_wf Hc). unfold is_u64 in *.
  eapply covered_replace; eauto; unfold Position_wf, is_u64, owed; cbn; split_conj; auto; lia.
Qed.

Lemma distribute_covered P ps d c slashed P' s :
  covered P ps d c -> is_u64 slashed -> d + pool (Split_of slashed) < 2 ^ 64 ->
  Pool_distribute P (Split_of slashed) = (P', s) ->
  covered P' ps (d + pool s) c /\ staked P' = staked P /\ reward_index P <= reward_index P'.
Proof.
  intros Hc Hs Hd Hdist. pose proof (Split_of_bounds slashed Hs) as (? & ? & ? & _).
  unfold Pool_distribute in Hdist. case_decide as Hz; injection Hdist as <- <-.
  { split_conj; [|done..]. cbn. by rewrite Z.add_0_r. }
  set (sh := pool (Split_of slashed)) in *. destruct Hc as [? ? [? ?] ? Hps Hsum Howed].
  unfold REWARD_SCALE in *. cbn [staked reward_index].
  rewrite (wrap128_small (sh * _)) by (split; lia).
  set (delta := sh * 1000000000000 / staked P).
  assert (0 <= delta /\ staked P * delta <= sh * 1000000000000 /\ delta <= sh * 1000000000000) as (? & Hdl & ?).
  { pose proof (Z.mul_div_le (sh * 1000000000000) (staked P) ltac:(lia)).
    assert (0 <= delta) by (apply Z.div_pos; lia). split_conj; [done..|]. nia. }
  rewrite wrap128_small by (split; lia). split_conj; [|done|lia].
  assert (msum (owed (reward_index P + delta)) ps = msum (owed (reward_index P)) ps + delta * staked P) as Hm.
  { rewrite Hsum, <- msum_scale, <- msum_add. apply msum_ext. intros. unfold owed. lia. }
  split; cbn [staked reward_index]; unfold REWARD_SCALE, is_u64; rewrite ?Hm; try lia.
  intros k p Hk. destruct (Hps k p Hk) as [? ?]. split; [done|lia].
Qed.

(** ** Whole histories *)

Definition Coverage_ok (st : Coverage K) : Prop :=
  covered (c_pool st) (c_positions st) (c_distributed st) (c_paid st).

Lemma coverage_step_ok st st' : Coverage_ok st -> coverage_step st st' -> Coverage_ok st'.
Proof.
  intros Hok Hstep. destruct Hstep; unfold Coverage_ok in *; cbn in *.
  - by apply covered_open.
  - by eapply stake_covered.
  - by eapply unstake_covered.
  - by eapply claim_covered.
  - by eapply distribute_covered.
Qed.

Lemma coverage_reachable_ok st : rtc coverage_step Coverage_init st -> Coverage_ok st.
Proof.
  revert st. apply (rtc_ind_r Coverage_ok); [apply covered_empty|].
  intros st st' _ Hs Hok. by eapply coverage_step_ok.
Qed.

(** Everything claimable fits in what was distributed and not yet paid. *)
Lemma claimable_sum_le P ps d c :
  covered P ps d c -> msum (fun p => claimable p (reward_index P)) ps <= d - c.
Proof.
  intros Hc. pose proof (cov_owed Hc) as Ho.
  assert (REWARD_SCALE * msum (fun p => claimable p (reward_index P)) ps
          <= msum (owed (reward_index P)) ps).
  { rewrite <- msum_scale. apply msum_le. intros k p Hk.
    destruct (claimable_exact _ _ _ _ _ _ Hc Hk) as [-> _].
    destruct (accrued_exact _ _ _ _ _ _ Hc Hk) as [-> _].
    unfold owed. set (v := p_staked p * _). unfold REWARD_SCALE. div_lia. }
  unfold REWARD_SCALE in *. lia.
Qed.

(** A stake or an unstake leaves what the position can claim untouched. *)
Lemma settled_claimable p index stake' :
  is_u64 (claimable p index) ->
  claimable (MkPosition stake' index (claimable p index)) index = claimable p index.
Proof.
  intros Hu. unfold claimable at 1, accrued, saturating_sub; cbn.
  rewrite Z.max_r, Z.sub_diag, Z.mul_0_r by lia.
  replace (wrap64 (wrap128 0 / REWARD_SCALE)) with 0 by reflexivity.
  rewrite Z.add_0_r. by apply wrap64_small.
Qed.

(** The exact advance of the index. *)
Lemma distribute_index P ps d c slashed P' s :
  covered P ps d c -> is_u64 slashed -> d + pool (Split_of slashed) < 2 ^ 64 ->
  Pool_distribute P (Split_of slashed) = (P', s) -> 0 < staked P -> 0 < pool s ->
  covered P' ps (d + pool s) c /\
  reward_index P' = reward_index P + pool s * REWARD_SCALE / staked P.
Proof.
  intros Hc Hs Hd Hdist Hst Hps.
  destruct (distribute_covered _ _ _ _ _ _ _ Hc Hs Hd Hdist) as (Hc' & _ & _). split; [done|].
  pose proof (Split_of_bounds slashed Hs) as (_ & _ & ? & _). pose proof (cov_index Hc).
  pose proof (cov_distributed Hc). pose proof (cov_staked_wf Hc) as Hu.
  unfold Pool_distribute in Hdist. case_decide; injection Hdist as <- <-; [cbn in Hps; lia|].
  cbn [reward_index] in *. unfold REWARD_SCALE, is_u64 in *.
  set (sh := pool (Split_of slashed)) in *. rewrite (wrap128_small (sh * _)) by (split; lia).
  apply wrap128_small. assert (sh * 1000000000000 / staked P <= sh * 1000000000000).
  { apply Z.div_le_upper_bound; nia. }
  pose proof (Z.div_pos (sh * 1000000000000) (staked P)). split; lia.
Qed.

(** What one distribution adds to one position, up to truncation. *)
Lemma distribute_gain P ps d c slashed P' s k p :
  covered P ps d c -> is_u64 slashed -> d + pool (Split_of slashed) < 2 ^ 64 ->
  Pool_distribute P (Split_of slashed) = (P', s) -> 0 < staked P -> 0 < pool s -> ps !! k = Some p ->
  let gain := claimable p (reward_index P') - claimable p (reward_index P) in
  let fair := p_staked p * pool s / staked P in
  fair - p_staked p / REWARD_SCALE - 2 <= gain <= fair + 1.
Proof.
  intros Hc Hs Hd Hdist Hst Hps Hk gain fair.
  destruct (distribute_index _ _ _ _ _ _ _ Hc Hs Hd Hdist Hst Hps) as [Hc' Hidx].
  destruct (claimable_exact _ _ _ _ _ _ Hc Hk) as [Hcl _].
  destruct (claimable_exact _ _ _ _ _ _ Hc' Hk) as [Hcl' _].
  destruct (accrued_exact _ _ _ _ _ _ Hc Hk) as [Ha _].
  destruct (accrued_exact _ _ _ _ _ _ Hc' Hk) as [Ha' _].
  destruct (cov_positions Hc k p Hk) as [([Hp0 _] & _ & _) _].
  subst gain fair. rewrite Hcl, Hcl', Ha, Ha', Hidx.
  set (T := staked P) in *. set (st := p_staked p) in *. set (sh := pool s) in *.
  unfold REWARD_SCALE. set (q := sh * 1000000000000 / T).
  assert (T * q <= sh * 1000000000000 < T * q + T) as [Hq1 Hq2].
  { pose proof (Z.mul_div_le (sh * 1000000000000) T Hst).
    pose proof (Z.mul_succ_div_gt (sh * 1000000000000) T Hst). unfold q. lia. }
  set (f := st * sh / T).
  assert (T * f <= st * sh < T * f + T) as [Hf1 Hf2].
  { pose proof (Z.mul_div_le (st * sh) T Hst). pose proof (Z.mul_succ_div_gt (st * sh) T Hst).
    unfold f. lia. }
  (* the scaled gain [st * q] is within one stake of the scaled fair share *)
  assert (st * q < (f + 1) * 1000000000000) by nia.
  assert (f * 1000000000000 - st <= st * q) by nia.
  replace (st * (reward_index P + q - p_entry_index p))
    with (st * (reward_index P - p_entry_index p) + st * q) by ring.
  set (a := st * (reward_index P - p_entry_index p)). set (b := st * q) in *.
  clearbody a b f. clear Hq1 Hq2 Hf1 Hf2 Ha Ha' Hcl Hcl' Hidx. div_lia.
Qed.
End coverage.

(** A share too small for the index is not carried over: repeating the distribution credits
    nobody, however often. *)
Lemma distribute_dust P s n :
  0 < pool s -> pool s * REWARD_SCALE < staked P -> pool s < 2 ^ 64 -> is_u128 (reward_index P) ->
  Nat.iter n (fun P => (Pool_distribute P s).1) P = P.
Proof.
  intros Hs Hlt H64 Hi. induction n as [|n IH]; [done|]. rewrite Nat.iter_succ, IH.
  unfold Pool_distribute. unfold REWARD_SCALE in *. rewrite decide_False by lia. cbn.
  rewrite (wrap128_small (pool s * _)) by (split; lia).
  rewrite Z.div_small, Z.add_0_r, wrap128_small by (done || lia). by destruct P.
Qed.

(** ** Properties *)

(** A slash is split exactly.  Whatever the pool decides, burned, victim and pool shares are
    non-negative and sum to the slashed amount, the burn takes at least as much as victim and
    pool together (an operator colluding with a victim and every staker still loses half its
    bond), and the pool's share is burned when nothing is staked. *)
Theorem slash_split_exact (P : Pool) (slashed : Z) (H : is_u64 slashed) :
  let s := (Pool_distribute P (Split_of slashed)).2 in
  0 <= victim s /\ 0 <= pool s /\ victim s + pool s <= burn s /\
  burn s + victim s + pool s = slashed /\ Split_total s = slashed /\
  (staked P = 0 -> pool s = 0).
Proof.
  pose proof (Pool_distribute_split P slashed H) as Hs.
  destruct (Split_of_exact slashed H) as [He Hhalf]. set (s := (Pool_distribute _ _).2) in *.
  assert (victim s + pool s <= slashed / 2 /\ (staked P = 0 -> pool s = 0)) as [? ?].
  { unfold s, Pool_distribute. rewrite He. cbn. unfold VICTIM_BPS, POOL_BPS, BPS_DENOMINATOR, is_u64 in *.
    case_decide as Hz; cbn; split; [div_lia|done|div_lia|]. intros ?. destruct Hz. by left. }
  clearbody s. unfold Split_total, is_u64 in *.
  rewrite !wrap64_small by (rewrite ?wrap64_small; split; lia). split_conj; [div_lia..|done].
Qed.

Lemma slash_split_exact_witness :
  is_u64 10001 /\
  (let s := (Pool_distribute (MkPool 7 0) (Split_of 10001)).2 in
   0 <= victim s /\ 0 <= pool s /\ victim s + pool s <= burn s /\
   burn s + victim s + pool s = 10001 /\ Split_total s = 10001 /\
   (staked (MkPool 7 0) = 0 -> pool s = 0)) /\
  (Pool_distribute (MkPool 7 0) (Split_of 10001)).2 = MkSplit 5001 3000 2000.
Proof.
  assert (is_u64 10001) as H by (unfold is_u64; lia).
  split; [exact H|]. split; [exact (slash_split_exact (MkPool 7 0) 10001 H)|]. vm_compute. reflexivity.
Defined.

(** The coverage pool is solvent after any history of calls.  The pool's stake is the sum of
    the positions' stakes, everything claimable by all stakers together fits in what slashes
    distributed minus what was paid out, and no position's reward has wrapped around. *)
Theorem coverage_solvent {K} `{Countable K} (st : Coverage K)
    (Hr : rtc coverage_step Coverage_init st) :
  staked (c_pool st) = msum p_staked (c_positions st) /\
  msum (fun p => claimable p (reward_index (c_pool st))) (c_positions st)
    <= c_distributed st - c_paid st /\
  forall k p, c_positions st !! k = Some p ->
    claimable p (reward_index (c_pool st)) =
    p_reward p + p_staked p * (reward_index (c_pool st) - p_entry_index p) / REWARD_SCALE.
Proof.
  pose proof (coverage_reachable_ok st Hr) as Hok. split_conj.
  - apply (cov_staked Hok).
  - by apply claimable_sum_le.
  - intros k p Hk. destruct (claimable_exact _ _ _ _ _ _ Hok Hk) as [-> _].
    by destruct (accrued_exact _ _ _ _ _ _ Hok Hk) as [-> _].
Qed.

(** A history: two stakers, a slash, a claim. *)
Definition history_end : Coverage nat :=
  MkCoverage nat _ _ (MkPool 4000 500000000000)
    (<[0%nat := MkPosition 1000 500000000000 0]> (<[1%nat := MkPosition 3000 0 0]> ∅)) 2000 500.

Lemma history_end_reachable : rtc coverage_step Coverage_init history_end.
Proof.
  eapply rtc_l; [eapply (step_open _ _ _ _ 0%nat); reflexivity|].
  eapply rtc_l; [eapply (step_open _ _ _ _ 1%nat); reflexivity|].
  eapply rtc_l; [eapply (step_stake _ _ _ _ 0%nat _ 1000); [reflexivity|lia|eval_done|reflexivity]|].
  eapply rtc_l; [eapply (step_stake _ _ _ _ 1%nat _ 3000); [reflexivity|lia|eval_done|reflexivity]|].
  eapply rtc_l; [eapply (step_distribute _ _ _ _ 10000); [unfold is_u64; lia|eval_done|reflexivity]|].
  eapply rtc_l; [eapply (step_claim _ _ _ _ 0%nat); reflexivity|].
  match goal with |- rtc _ ?a _ => replace history_end with a by (vm_compute; reflexivity) end.
  apply rtc_refl.
Defined.

Lemma coverage_solvent_witness :
  msum (fun p => claimable p (reward_index (c_pool history_end))) (c_positions history_end) <= 1500 /\
  claimable (MkPosition 3000 0 0) (reward_index (c_pool history_end)) = 1500.
Proof.
  destruct (coverage_solvent history_end history_end_reachable) as (_ & Hle & Hc).
  split; [exact Hle|]. rewrite (Hc 1%nat _ ltac:(reflexivity)). reflexivity.
Defined.

(** A distribution pays each staker its share.  In any reachable pool, the amount one slash
    adds to what a position can claim is [stake * share / total stake], up to truncation: at
    most one lamport more, and at most [stake / REWARD_SCALE + 2] lamports less. *)
Theorem distribution_proportional {K} `{Countable K} (st : Coverage K) slashed P' s k p
    (Hr : rtc coverage_step Coverage_init st) (Hs : is_u64 slashed)
    (Hd : c_distributed st + pool (Split_of slashed) < 2 ^ 64)
    (Hdist : Pool_distribute (c_pool st) (Split_of slashed) = (P', s))
    (Hpos : 0 < staked (c_pool st)) (Hpool : 0 < pool s) (Hk : c_positions st !! k = Some p) :
  let gain := claimable p (reward_index P') - claimable p (reward_index (c_pool st)) in
  let fair := p_staked p * pool s / staked (c_pool st) in
  fair - p_staked p / REWARD_SCALE - 2 <= gain <= fair + 1.
Proof. by eapply distribute_gain; [apply coverage_reachable_ok|..]. Qed.

Lemma distribution_proportional_witness :
  let P' := MkPool 4000 1000000000000 in
  1500 - 0 - 2 <= claimable (MkPosition 3000 0 0) (reward_index P')
                  - claimable (MkPosition 3000 0 0) (reward_index (c_pool history_end)) <= 1501.
Proof.
  pose proof (distribution_proportional history_end 10000 (MkPool 4000 1000000000000)
    (MkSplit 5000 3000 2000) 1%nat (MkPosition 3000 0 0) history_end_reachable
    ltac:(unfold is_u64; lia) ltac:(eval_done) ltac:(reflexivity) ltac:(eval_done)
    ltac:(eval_done) ltac:(reflexivity)) as H.
  exact H.
Defined.

(** capital that arrives after a slash earns nothing from it.  In any reachable pool a stake
    succeeds for every positive amount, and leaves both the index and what its position can
    claim exactly as they were; only later distributions count the new stake. *)
Theorem late_stake_earns_nothing {K} `{Countable K} (st : Coverage K) k p amount
    (Hr : rtc coverage_step Coverage_init st) (Hk : c_positions st !! k = Some p)
    (Ha : 0 < amount) (Hlt : staked (c_pool st) + amount < 2 ^ 64) :
  exists P' p', Pool_stake (c_pool st) p amount = Ok (P', p') /\
    reward_index P' = reward_index (c_pool st) /\ p_staked p' = p_staked p + amount /\
    claimable p' (reward_index P') = claimable p (reward_index (c_pool st)).
Proof.
  pose proof (coverage_reachable_ok st Hr) as Hok.
  destruct (Pool_stake (c_pool st) p amount) as [[P' p']|e|] eqn:Hst.
  - exists P', p'. split; [done|].
    destruct (stake_covered _ _ _ _ _ _ amount _ _ Hok Hk ltac:(lia) Hlt Hst) as (_ & _ & -> & ->).
    split_conj; [done..|]. apply settled_claimable.
    destruct (claimable_exact _ _ _ _ _ _ Hok Hk). pose proof (cov_distributed Hok).
    pose proof (cov_paid Hok). unfold is_u64. lia.
  - exfalso. unfold Pool_stake in Hst. destruct (cov_positions Hok k p Hk) as [_ ?].
    rewrite decide_False in Hst by lia. rewrite decide_False in Hst by lia. done.
  - exfalso. unfold Pool_stake in Hst. by repeat case_decide.
Qed.

Lemma late_stake_earns_nothing_witness :
  exists P' p', Pool_stake (c_pool history_end) (MkPosition 3000 0 0) 1000000 = Ok (P', p') /\
    reward_index P' = reward_index (c_pool history_end) /\ p_staked p' = 3000 + 1000000 /\
    claimable p' (reward_index P') = 1500.
Proof.
  exact (late_stake_earns_nothing history_end 1%nat (MkPosition 3000 0 0) 1000000
           history_end_reachable ltac:(reflexivity) ltac:(lia) ltac:(eval_done)).
Defined.

(** truncation dust does not accrue.  When the pool's share is below one unit of the index,
    the distribution leaves the pool exactly as it was, so any number of equal distributions
    credits nobody, although each returns the split as applied. *)
Theorem distribution_dust_lost (P : Pool) (slashed : Z) (n : nat)
    (Hs : is_u64 slashed) (Hi : is_u128 (reward_index P)) (Hpos : 0 < pool (Split_of slashed))
    (Hlt : pool (Split_of slashed) * REWARD_SCALE < staked P) :
  Nat.iter n (fun P => (Pool_distribute P (Split_of slashed)).1) P = P /\
  pool (Pool_distribute P (Split_of slashed)).2 = pool (Split_of slashed).
Proof.
  pose proof (Split_of_bounds slashed Hs). split.
  - apply distribute_dust; [done..| |done]. unfold is_u64 in *. lia.
  - unfold Pool_distribute. rewrite decide_False; [done|]. unfold REWARD_SCALE in *. lia.
Qed.

Lemma distribution_dust_lost_witness :
  let P := MkPool 3000000000000 0 in
  Nat.iter 5 (fun P => (Pool_distribute P (Split_of 10)).1) P = P /\
  pool (Pool_distribute P (Split_of 10)).2 = 2.
Proof.
  exact (distribution_dust_lost (MkPool 3000000000000 0) 10 5 ltac:(unfold is_u64; lia)
           ltac:(unfold is_u128; cbn; lia) ltac:(eval_done) ltac:(eval_done)).
Defined.
