(* ===== verification/Accounts.v ===== *)
(** * Accounts and instructions of the slashing program: crates/program

    The three account layouts and the instruction encoding of the on-chain program.  [Codec] is
    the interface the instruction handlers rely on: what is written reads back, and no account of
    one kind reads as another. *)
From S2P Require Import Prelude Constants Crypto Receipt Slashing.

(** ** error.rs *)

Inductive SlashError : Type :=
| BadInstruction
| BadAccountData
| WrongOwner
| WrongPda
| NotSigner
| NoEd25519Instruction
| UnregisteredKey
| OffsetsNotSelfContained
| WrongSignatureCount
| MalformedReceipt
| MixedLogs
| DifferentSequence
| NotContradictory
| AlreadyConvicted
| InsufficientBond
| NothingStaked
| Overdraw
| BondLocked.

#[global] Instance SlashError_eq_dec : EqDecision SlashError.
Proof. solve_decision. Defined.

(** [error as u32]: the discriminants continue from the last explicit one. *)
Definition SlashError_code (e : SlashError) : Z :=
  match e with
  | BadInstruction => 0
  | BadAccountData => 1
  | WrongOwner => 2
  | WrongPda => 3
  | NotSigner => 4
  | NoEd25519Instruction => 10
  | UnregisteredKey => 11
  | OffsetsNotSelfContained => 12
  | WrongSignatureCount => 13
  | MalformedReceipt => 14
  | MixedLogs => 20
  | DifferentSequence => 21
  | NotContradictory => 22
  | AlreadyConvicted => 23
  | InsufficientBond => 30
  | NothingStaked => 31
  | Overdraw => 32
  | BondLocked => 33
  end.

(** [solana_program::program_error::ProgramError]: the programs' own errors, the one
    [next_account_info] returns, those the committor program names, and the errors the runtime's
    functions return, passed on. *)
Inductive ProgramError : Type :=
| Custom (code : Z)
| NotEnoughAccountKeys
| MissingRequiredSignature
| AccountAlreadyInitialized
| IncorrectProgramId
| ArithmeticOverflow
| BorshIoError
| RuntimeError (code : Z).

#[global] Instance ProgramError_eq_dec : EqDecision ProgramError.
Proof. solve_decision. Defined.

(** [impl From<SlashError> for ProgramError]. *)
Definition ProgramError_from (e : SlashError) : ProgramError := Custom (SlashError_code e).

(** ** operator_account.rs *)

Definition OPERATOR_LEN : nat := (1 + 32 + 32 + 8 + 8 + 16 + 8 + 1)%nat.
Definition OPERATOR_TAG : byte := x01.
Definition OPERATOR_SEED : bytes := ["o"; "p"; "e"; "r"; "a"; "t"; "o"; "r"]%byte.

Record OperatorAccount : Type := MkOperator {
  o_authority : bytes;
  o_signing_key : bytes;
  o_bond : Z;
  o_pool_staked : Z;
  o_reward_index : Z;
  o_unbond_at : Z;
  o_bump : byte;
}.

#[global] Instance OperatorAccount_eq_dec : EqDecision OperatorAccount.
Proof. solve_decision. Defined.

(** The closure [arr] of the [read] functions. *)
Definition sub_slice {E} (data : bytes) (at_ len : nat) : result E bytes :=
  index_range data at_ (at_ + len).

(** [arr(at, N).try_into().map_err(|_| SlashError::BadAccountData)?] *)
Definition array_or_bad (data : bytes) (at_ len : nat) : result SlashError bytes :=
  s ← sub_slice data at_ len; ok_or (try_into_array len s) BadAccountData.

(** [uN::from_le_bytes(arr(at, N).try_into().unwrap())] *)
Definition int_at (data : bytes) (at_ len : nat) : result SlashError Z :=
  s ← sub_slice data at_ len; a ← expect (try_into_array len s); Ok (le_val a).

Definition OperatorAccount_write (o : OperatorAccount) (into : bytes) : result SlashError bytes :=
  out ← ok_or (get_range into 0 OPERATOR_LEN) BadAccountData;
  let out := <[0%nat := OPERATOR_TAG]> out in
  let out := copy_range out 1 33 (o_authority o) in
  let out := copy_range out 33 65 (o_signing_key o) in
  let out := copy_range out 65 73 (le_bytes 8 (o_bond o)) in
  let out := copy_range out 73 81 (le_bytes 8 (o_pool_staked o)) in
  let out := copy_range out 81 97 (le_bytes 16 (o_reward_index o)) in
  let out := copy_range out 97 105 (le_bytes 8 (o_unbond_at o)) in
  let out := <[105%nat := o_bump o]> out in
  Ok (out ++ drop OPERATOR_LEN into).

Definition OperatorAccount_read (from : bytes) : result SlashError OperatorAccount :=
  data ← ok_or (get_range from 0 OPERATOR_LEN) BadAccountData;
  tag ← index_at data 0;
  _ ← ensure (bool_decide (tag = OPERATOR_TAG)) BadAccountData;
  authority ← array_or_bad data 1 32;
  signing_key ← array_or_bad data 33 32;
  bond ← int_at data 65 8;
  pool_staked ← int_at data 73 8;
  reward_index ← int_at data 81 16;
  unbond_at ← int_at data 97 8;
  bump ← index_at data 105;
  Ok (MkOperator authority signing_key bond pool_staked reward_index unbond_at bump).

Definition OperatorAccount_pool (o : OperatorAccount) : Pool :=
  {| staked := o_pool_staked o; reward_index := o_reward_index o |}.

Definition OperatorAccount_set_pool (o : OperatorAccount) (pool : Pool) : OperatorAccount :=
  MkOperator (o_authority o) (o_signing_key o) (o_bond o) (staked pool) (reward_index pool)
    (o_unbond_at o) (o_bump o).

Definition OperatorAccount_wf (o : OperatorAccount) : Prop :=
  length (o_authority o) = 32%nat /\ length (o_signing_key o) = 32%nat /\ is_u64 (o_bond o) /\
  is_u64 (o_pool_staked o) /\ is_u128 (o_reward_index o) /\ is_u64 (o_unbond_at o).

(** ** position_account.rs *)

Definition POSITION_LEN : nat := (1 + 32 + 32 + 8 + 16 + 8 + 1)%nat.
Definition POSITION_TAG : byte := x02.
Definition POSITION_SEED : bytes := ["p"; "o"; "s"; "i"; "t"; "i"; "o"; "n"]%byte.

Record PositionAccount : Type := MkPositionAccount {
  pa_owner : bytes;
  pa_operator : bytes;
  pa_staked : Z;
  pa_entry_index : Z;
  pa_reward : Z;
  pa_bump : byte;
}.

#[global] Instance PositionAccount_eq_dec : EqDecision PositionAccount.
Proof. solve_decision. Defined.

Definition PositionAccount_write (p : PositionAccount) (into : bytes) : result SlashError bytes :=
  out ← ok_or (get_range into 0 POSITION_LEN) BadAccountData;
  let out := <[0%nat := POSITION_TAG]> out in
  let out := copy_range out 1 33 (pa_owner p) in
  let out := copy_range out 33 65 (pa_operator p) in
  let out := copy_range out 65 73 (le_bytes 8 (pa_staked p)) in
  let out := copy_range out 73 89 (le_bytes 16 (pa_entry_index p)) in
  let out := copy_range out 89 97 (le_bytes 8 (pa_reward p)) in
  let out := <[97%nat := pa_bump p]> out in
  Ok (out ++ drop POSITION_LEN into).

Definition PositionAccount_read (from : bytes) : result SlashError PositionAccount :=
  data ← ok_or (get_range from 0 POSITION_LEN) BadAccountData;
  tag ← index_at data 0;
  _ ← ensure (bool_decide (tag = POSITION_TAG)) BadAccountData;
  owner ← array_or_bad data 1 32;
  operator ← array_or_bad data 33 32;
  staked ← int_at data 65 8;
  entry_index ← int_at data 73 16;
  reward ← int_at data 89 8;
  bump ← index_at data 97;
  Ok (MkPositionAccount owner operator staked entry_index reward bump).

Definition PositionAccount_position (p : PositionAccount) : Position :=
  {| p_staked := pa_staked p; p_entry_index := pa_entry_index p; p_reward := pa_reward p |}.

Definition PositionAccount_set_position (p : PositionAccount) (q : Position) : PositionAccount :=
  MkPositionAccount (pa_owner p) (pa_operator p) (p_staked q) (p_entry_index q) (p_reward q)
    (pa_bump p).

Definition PositionAccount_wf (p : PositionAccount) : Prop :=
  length (pa_owner p) = 32%nat /\ length (pa_operator p) = 32%nat /\ is_u64 (pa_staked p) /\
  is_u128 (pa_entry_index p) /\ is_u64 (pa_reward p).

(** ** conviction_account.rs *)

Definition CONVICTION_LEN : nat := (1 + 32 + 64 + 32 + 8 + 8 + 8 + 1)%nat.
Definition CONVICTION_TAG : byte := x03.
Definition CONVICTION_SEED : bytes :=
  ["c"; "o"; "n"; "v"; "i"; "c"; "t"; "i"; "o"; "n"]%byte.

Record ConvictionAccount : Type := MkConviction {
  cv_operator : bytes;
  cv_wronged : bytes;
  cv_wronged_tx_hash : bytes;
  cv_slashed : Z;
  cv_owed_to_victim : Z;
  cv_slot : Z;
  cv_bump : byte;
}.

#[global] Instance ConvictionAccount_eq_dec : EqDecision ConvictionAccount.
Proof. solve_decision. Defined.

Definition ConvictionAccount_write (c : ConvictionAccount) (into : bytes)
    : result SlashError bytes :=
  out ← ok_or (get_range into 0 CONVICTION_LEN) BadAccountData;
  let out := <[0%nat := CONVICTION_TAG]> out in
  let out := copy_range out 1 33 (cv_operator c) in
  let out := copy_range out 33 97 (cv_wronged c) in
  let out := copy_range out 97 129 (cv_wronged_tx_hash c) in
  let out := copy_range out 129 137 (le_bytes 8 (cv_slashed c)) in
  let out := copy_range out 137 145 (le_bytes 8 (cv_owed_to_victim c)) in
  let out := copy_range out 145 153 (le_bytes 8 (cv_slot c)) in
  let out := <[153%nat := cv_bump c]> out in
  Ok (out ++ drop CONVICTION_LEN into).

Definition ConvictionAccount_read (from : bytes) : result SlashError ConvictionAccount :=
  data ← ok_or (get_range from 0 CONVICTION_LEN) BadAccountData;
  tag ← index_at data 0;
  _ ← ensure (bool_decide (tag = CONVICTION_TAG)) BadAccountData;
  operator ← array_or_bad data 1 32;
  wronged ← array_or_bad data 33 64;
  wronged_tx_hash ← array_or_bad data 97 32;
  slashed ← int_at data 129 8;
  owed_to_victim ← int_at data 137 8;
  slot ← int_at data 145 8;
  bump ← index_at data 153;
  Ok (MkConviction operator wronged wronged_tx_hash slashed owed_to_victim slot bump).

Definition ConvictionAccount_wf (c : ConvictionAccount) : Prop :=
  length (cv_operator c) = 32%nat /\ length (cv_wronged c) = 64%nat /\
  length (cv_wronged_tx_hash c) = 32%nat /\ is_u64 (cv_slashed c) /\
  is_u64 (cv_owed_to_victim c) /\ is_u64 (cv_slot c).

(** ** instruction.rs *)

Inductive Instruction : Type :=
| Register (signing_key : bytes) (bond : Z)
| Stake (amount : Z)
| Unstake (amount : Z)
| Claim
| ProveEquivocation
| ClaimVictim (wire_bytes : bytes)
| BeginUnbond
| WithdrawBond.

#[global] Instance Instruction_eq_dec : EqDecision Instruction.
Proof. solve_decision. Defined.

(** [rest.get(a..b).and_then(|bytes| bytes.try_into().ok())] *)
Definition get_array (rest : bytes) (from upto : nat) : option bytes :=
  get_range rest from upto ≫= try_into_array (upto - from).

Definition Instruction_read (data : bytes) : result SlashError Instruction :=
  match data with
  | [] => Err BadInstruction
  | tag :: rest =>
      let amount : result SlashError Z := ok_or (le_val <$> get_array rest 0 8) BadInstruction in
      match tag with
      | x00 =>
          signing_key ← ok_or (get_array rest 0 32) BadInstruction;
          bond ← ok_or (le_val <$> get_array rest 32 40) BadInstruction;
          Ok (Register signing_key bond)
      | x01 => a ← amount; Ok (Stake a)
      | x02 => a ← amount; Ok (Unstake a)
      | x03 => Ok Claim
      | x04 => Ok ProveEquivocation
      | x05 => Ok (ClaimVictim rest)
      | x06 => Ok BeginUnbond
      | x07 => Ok WithdrawBond
      | _ => Err BadInstruction
      end
  end.

Definition Instruction_write (i : Instruction) : bytes :=
  match i with
  | Register signing_key bond => [x00] ++ signing_key ++ le_bytes 8 bond
  | Stake amount => [x01] ++ le_bytes 8 amount
  | Unstake amount => [x02] ++ le_bytes 8 amount
  | Claim => [x03]
  | ProveEquivocation => [x04]
  | BeginUnbond => [x06]
  | WithdrawBond => [x07]
  | ClaimVictim wire_bytes => [x05] ++ wire_bytes
  end.

Definition Instruction_wf (i : Instruction) : Prop :=
  match i with
  | Register signing_key bond => length signing_key = 32%nat /\ is_u64 bond
  | Stake amount | Unstake amount => is_u64 amount
  | _ => True
  end.

#[global] Arguments OperatorAccount_write : simpl never.
#[global] Arguments OperatorAccount_read : simpl never.
#[global] Arguments PositionAccount_write : simpl never.
#[global] Arguments PositionAccount_read : simpl never.
#[global] Arguments ConvictionAccount_write : simpl never.
#[global] Arguments ConvictionAccount_read : simpl never.

(** ** The interface of an account layout *)

Class Codec (T : Type) : Type := {
  codec_len : nat;
  codec_tag : byte;
  codec_wf : T -> Prop;
  codec_write : T -> bytes -> result SlashError bytes;
  codec_read : bytes -> result SlashError T;
}.

(** What the handlers rely on. *)
Class CodecLaws {T} (C : Codec T) : Prop := {
  codec_len_pos : (0 < codec_len)%nat;
  write_fits t into : codec_wf t -> (codec_len <= length into)%nat ->
    exists out, codec_write t into = Ok out /\ length out = length into /\
      out !! 0%nat = Some codec_tag /\ codec_read out = Ok t;
  write_short t into : (length into < codec_len)%nat -> codec_write t into = Err BadAccountData;
  read_Ok d t : codec_read d = Ok t ->
    codec_wf t /\ (codec_len <= length d)%nat /\ d !! 0%nat = Some codec_tag;
  read_tagged d : (codec_len <= length d)%nat -> d !! 0%nat = Some codec_tag ->
    exists t, codec_read d = Ok t;
  read_refused d : (forall t, codec_read d <> Ok t) -> codec_read d = Err BadAccountData;
}.

#[global] Instance operator_codec : Codec OperatorAccount := {|
  codec_len := OPERATOR_LEN;
  codec_tag := OPERATOR_TAG;
  codec_wf := OperatorAccount_wf;
  codec_write := OperatorAccount_write;
  codec_read := OperatorAccount_read;
|}.

#[global] Instance position_codec : Codec PositionAccount := {|
  codec_len := POSITION_LEN;
  codec_tag := POSITION_TAG;
  codec_wf := PositionAccount_wf;
  codec_write := PositionAccount_write;
  codec_read := PositionAccount_read;
|}.

#[global] Instance conviction_codec : Codec ConvictionAccount := {|
  codec_len := CONVICTION_LEN;
  codec_tag := CONVICTION_TAG;
  codec_wf := ConvictionAccount_wf;
  codec_write := ConvictionAccount_write;
  codec_read := ConvictionAccount_read;
|}.

(** ** The layouts implement the interface

    Each layout is given by the concatenation of its fields and by the function that reads the
    fields of a buffer of its length; the laws follow from how [write] and [read] relate to
    these. *)

Record CodecLayout {T} (C : Codec T) (layout : T -> bytes) (fields : bytes -> T) : Prop := {
  lay_pos : (0 < codec_len)%nat;
  lay_len t : codec_wf t -> length (layout t) = codec_len;
  lay_tag t : exists rest, layout t = codec_tag :: rest;
  lay_write t into : codec_wf t -> (codec_len <= length into)%nat ->
    codec_write t into = Ok (layout t ++ drop codec_len into);
  lay_short t into : (length into < codec_len)%nat -> codec_write t into = Err BadAccountData;
  lay_read d : codec_read d =
    if decide (codec_len <= length d)%nat
    then if decide (d !! 0%nat = Some codec_tag) then Ok (fields (slice d 0 codec_len))
         else Err BadAccountData
    else Err BadAccountData;
  lay_fields t : codec_wf t -> fields (layout t) = t;
  lay_wf d : length d = codec_len -> codec_wf (fields d);
}.

Lemma codec_laws {T} (C : Codec T) layout fields : CodecLayout C layout fields -> CodecLaws C.
Proof.
  intros [Hpos Hlen Htag Hwrite Hshort Hread Hfields Hwf]. split; [done| |done| | |].
  - intros t into Ht Hl. exists (layout t ++ drop codec_len into).
    pose proof (Hlen t Ht) as Ll. destruct (Htag t) as [rest Hrest].
    assert (length (layout t ++ drop codec_len into) = length into) as Hlo.
    { rewrite length_app, length_drop, Ll. lia. }
    assert ((layout t ++ drop codec_len into) !! 0%nat = Some codec_tag) as H0 by by rewrite Hrest.
    split_conj; [by apply Hwrite|done|done|].
    rewrite Hread, !decide_True by (done || lia).
    by rewrite slice_here, Hfields by (done || lia).
  - intros d t Hd. rewrite Hread in Hd. repeat case_decide; [|done..].
    injection Hd as <-. split_conj; [|done..]. apply Hwf. rewrite length_slice; lia.
  - intros d Hl Ht. rewrite Hread, !decide_True by done. eauto.
  - intros d Hne. rewrite Hread in *. repeat case_decide; [|done..]. by edestruct Hne.
Qed.

Lemma array_or_bad_in data at_ len :
  (at_ + len <= length data)%nat -> array_or_bad data at_ len = Ok (slice data at_ (at_ + len)).
Proof.
  intros. unfold array_or_bad, sub_slice. rewrite index_range_in by lia. cbn.
  by rewrite try_into_array_in by (rewrite length_slice; lia).
Qed.

Lemma int_at_in data at_ len :
  (at_ + len <= length data)%nat -> int_at data at_ len = Ok (le_val (slice data at_ (at_ + len))).
Proof.
  intros. unfold int_at, sub_slice. rewrite index_range_in by lia. cbn.
  by rewrite try_into_array_in by (rewrite length_slice; lia).
Qed.

(** The byte at [i], for buffers known to have one. *)
Definition byte_at (data : bytes) (i : nat) : byte := default x00 (data !! i).

Lemma index_at_byte {E} data i : (i < length data)%nat -> index_at (E:=E) data i = Ok (byte_at data i).
Proof.
  intros Hi. destruct (lookup_lt_is_Some_2 data i Hi) as [b Hb].
  rewrite (index_at_in _ _ _ Hb). unfold byte_at. by rewrite Hb.
Qed.

Lemma slice_head d n : (0 < n <= length d)%nat -> slice d 0 n !! 0%nat = d !! 0%nat.
Proof.
  intros. unfold slice. rewrite drop_0, Nat.sub_0_r. by rewrite lookup_take_lt by lia.
Qed.

(** The first step of every [read]: the range and the tag. *)
Lemma read_checked {T} (n : nat) (tag : byte) (d : bytes) (k : bytes -> result SlashError T) f :
  (0 < n)%nat ->
  (forall h, length h = n -> k h = Ok (f h)) ->
  (data ← ok_or (get_range d 0 n) BadAccountData;
   t ← index_at data 0;
   _ ← ensure (bool_decide (t = tag)) BadAccountData; k data) =
  if decide (n <= length d)%nat
  then if decide (d !! 0%nat = Some tag) then Ok (f (slice d 0 n)) else Err BadAccountData
  else Err BadAccountData.
Proof.
  intros Hn Hk. destruct (decide (n <= length d)%nat) as [Hl|Hl].
  - rewrite get_range_in by lia. res_run.
    assert (length (slice d 0 n) = n) as Ls by (rewrite length_slice; lia).
    rewrite index_at_byte by lia. res_run. unfold byte_at. rewrite slice_head by lia.
    destruct (lookup_lt_is_Some_2 d 0%nat ltac:(lia)) as [b Hb]. rewrite Hb.
    change (default x00 (Some b)) with b.
    destruct (decide (b = tag)) as [->|Hne].
    + rewrite bool_decide_true, decide_True by done. res_run. by apply Hk.
    + rewrite bool_decide_false by done. by rewrite decide_False by congruence.
  - unfold get_range. rewrite decide_False by lia. done.
Qed.

(** Reads the fields of a concrete buffer, runs the checks of a [read]. *)
Ltac run_fields Hl :=
  repeat first [rewrite array_or_bad_in by (rewrite Hl; eval_done)
               |rewrite int_at_in by (rewrite Hl; eval_done)
               |rewrite index_at_byte by (rewrite Hl; eval_done)]; res_run.

(** Fills a buffer of [base] field by field. *)
Ltac fill_next :=
  first [rewrite copy_range_next by len_done | rewrite insert_next by len_done].

Definition operator_layout (o : OperatorAccount) : bytes :=
  [OPERATOR_TAG] ++ o_authority o ++ o_signing_key o ++ le_bytes 8 (o_bond o) ++
  le_bytes 8 (o_pool_staked o) ++ le_bytes 16 (o_reward_index o) ++ le_bytes 8 (o_unbond_at o) ++
  [o_bump o].

Definition operator_fields (d : bytes) : OperatorAccount :=
  MkOperator (slice d 1 33) (slice d 33 65) (le_val (slice d 65 73)) (le_val (slice d 73 81))
    (le_val (slice d 81 97)) (le_val (slice d 97 105)) (byte_at d 105).

Lemma operator_write_layout o into :
  OperatorAccount_wf o -> (OPERATOR_LEN <= length into)%nat ->
  OperatorAccount_write o into = Ok (operator_layout o ++ drop OPERATOR_LEN into).
Proof.
  intros (H1 & H2 & _) Hl. unfold OperatorAccount_write. rewrite get_range_in by lia. res_run.
  assert (length (slice into 0 OPERATOR_LEN) = OPERATOR_LEN) as Ls by (rewrite length_slice; lia).
  set (base := slice into 0 OPERATOR_LEN) in *. clearbody base.
  change base with ([] ++ drop 0 base) at 1. cbv zeta.
  repeat fill_next. rewrite (drop_ge base) by (rewrite Ls; eval_done).
  unfold operator_layout. by rewrite app_nil_r, <- !app_assoc, app_nil_l.
Qed.

Lemma operator_codec_layout : CodecLayout operator_codec operator_layout operator_fields.
Proof.
  split; cbn [codec_len codec_tag codec_wf codec_write codec_read operator_codec].
  - eval_done.
  - intros o (H1 & H2 & _). unfold operator_layout. len_done.
  - intros o. unfold operator_layout. cbn [app]. eauto.
  - apply operator_write_layout.
  - intros o into Hl. unfold OperatorAccount_write, get_range. by rewrite decide_False by lia.
  - intros d. unfold OperatorAccount_read. apply read_checked; [eval_done|].
    intros h Hl. run_fields Hl. done.
  - intros [a k b s r u bu] (H1 & H2 & H3 & H4 & H5 & H6).
    cbn [o_authority o_signing_key o_bond o_pool_staked o_reward_index o_unbond_at o_bump] in *.
    unfold operator_fields, operator_layout.
    cbn [o_authority o_signing_key o_bond o_pool_staked o_reward_index o_unbond_at o_bump].
    f_equal; [slice_walk|slice_walk|rewrite <- (le_val_bytes_u64 b) at 2 by done
      |rewrite <- (le_val_bytes_u64 s) at 2 by done|rewrite <- (le_val_bytes_u128 r) at 2 by done
      |rewrite <- (le_val_bytes_u64 u) at 2 by done|]; [f_equal; slice_walk..|].
    unfold byte_at. rewrite !app_assoc, lookup_app_at by len_done. done.
  - intros d Hl. unfold operator_fields, OperatorAccount_wf.
    cbn [o_authority o_signing_key o_bond o_pool_staked o_reward_index o_unbond_at].
    split_conj; try apply le_val_u64; try apply le_val_u128;
      (rewrite length_slice; [reflexivity|rewrite Hl; eval_done]).
Qed.

Definition position_layout (p : PositionAccount) : bytes :=
  [POSITION_TAG] ++ pa_owner p ++ pa_operator p ++ le_bytes 8 (pa_staked p) ++
  le_bytes 16 (pa_entry_index p) ++ le_bytes 8 (pa_reward p) ++ [pa_bump p].

Definition position_fields (d : bytes) : PositionAccount :=
  MkPositionAccount (slice d 1 33) (slice d 33 65) (le_val (slice d 65 73))
    (le_val (slice d 73 89)) (le_val (slice d 89 97)) (byte_at d 97).

Lemma position_write_layout p into :
  PositionAccount_wf p -> (POSITION_LEN <= length into)%nat ->
  PositionAccount_write p into = Ok (position_layout p ++ drop POSITION_LEN into).
Proof.
  intros (H1 & H2 & _) Hl. unfold PositionAccount_write. rewrite get_range_in by lia. res_run.
  assert (length (slice into 0 POSITION_LEN) = POSITION_LEN) as Ls by (rewrite length_slice; lia).
  set (base := slice into 0 POSITION_LEN) in *. clearbody base.
  change base with ([] ++ drop 0 base) at 1. cbv zeta.
  repeat fill_next. rewrite (drop_ge base) by (rewrite Ls; eval_done).
  unfold position_layout. by rewrite app_nil_r, <- !app_assoc, app_nil_l.
Qed.

Lemma position_codec_layout : CodecLayout position_codec position_layout position_fields.
Proof.
  split; cbn [codec_len codec_tag codec_wf codec_write codec_read position_codec].
  - eval_done.
  - intros p (H1 & H2 & _). unfold position_layout. len_done.
  - intros p. unfold position_layout. cbn [app]. eauto.
  - apply position_write_layout.
  - intros p into Hl. unfold PositionAccount_write, get_range. by rewrite decide_False by lia.
  - intros d. unfold PositionAccount_read. apply read_checked; [eval_done|].
    intros h Hl. run_fields Hl. done.
  - intros [o q s e r bu] (H1 & H2 & H3 & H4 & H5).
    cbn [pa_owner pa_operator pa_staked pa_entry_index pa_reward pa_bump] in *.
    unfold position_fields, position_layout.
    cbn [pa_owner pa_operator pa_staked pa_entry_index pa_reward pa_bump].
    f_equal; [slice_walk|slice_walk|rewrite <- (le_val_bytes_u64 s) at 2 by done
      |rewrite <- (le_val_bytes_u128 e) at 2 by done
      |rewrite <- (le_val_bytes_u64 r) at 2 by done|]; [f_equal; slice_walk..|].
    unfold byte_at. rewrite !app_assoc, lookup_app_at by len_done. done.
  - intros d Hl. unfold position_fields, PositionAccount_wf.
    cbn [pa_owner pa_operator pa_staked pa_entry_index pa_reward].
    split_conj; try apply le_val_u64; try apply le_val_u128;
      (rewrite length_slice; [reflexivity|rewrite Hl; eval_done]).
Qed.

Definition conviction_layout (c : ConvictionAccount) : bytes :=
  [CONVICTION_TAG] ++ cv_operator c ++ cv_wronged c ++ cv_wronged_tx_hash c ++
  le_bytes 8 (cv_slashed c) ++ le_bytes 8 (cv_owed_to_victim c) ++ le_bytes 8 (cv_slot c) ++
  [cv_bump c].

Definition conviction_fields (d : bytes) : ConvictionAccount :=
  MkConviction (slice d 1 33) (slice d 33 97) (slice d 97 129) (le_val (slice d 129 137))
    (le_val (slice d 137 145)) (le_val (slice d 145 153)) (byte_at d 153).

Lemma conviction_write_layout c into :
  ConvictionAccount_wf c -> (CONVICTION_LEN <= length into)%nat ->
  ConvictionAccount_write c into = Ok (conviction_layout c ++ drop CONVICTION_LEN into).
Proof.
  intros (H1 & H2 & H3 & _) Hl. unfold ConvictionAccount_write. rewrite get_range_in by lia. res_run.
  assert (length (slice into 0 CONVICTION_LEN) = CONVICTION_LEN) as Ls by (rewrite length_slice; lia).
  set (base := slice into 0 CONVICTION_LEN) in *. clearbody base.
  change base with ([] ++ drop 0 base) at 1. cbv zeta.
  repeat fill_next. rewrite (drop_ge base) by (rewrite Ls; eval_done).
  unfold conviction_layout. by rewrite app_nil_r, <- !app_assoc, app_nil_l.
Qed.

Lemma conviction_codec_layout : CodecLayout conviction_codec conviction_layout conviction_fields.
Proof.
  split; cbn [codec_len codec_tag codec_wf codec_write codec_read conviction_codec].
  - eval_done.
  - intros c (H1 & H2 & H3 & _). unfold conviction_layout. len_done.
  - intros c. unfold conviction_layout. cbn [app]. eauto.
  - apply conviction_write_layout.
  - intros c into Hl. unfold ConvictionAccount_write, get_range. by rewrite decide_False by lia.
  - intros d. unfold ConvictionAccount_read. apply read_checked; [eval_done|].
    intros h Hl. run_fields Hl. done.
  - intros [o w h s v t bu] (H1 & H2 & H3 & H4 & H5 & H6).
    cbn [cv_operator cv_wronged cv_wronged_tx_hash cv_slashed cv_owed_to_victim cv_slot cv_bump] in *.
    unfold conviction_fields, conviction_layout.
    cbn [cv_operator cv_wronged cv_wronged_tx_hash cv_slashed cv_owed_to_victim cv_slot cv_bump].
    f_equal; [slice_walk|slice_walk|slice_walk|rewrite <- (le_val_bytes_u64 s) at 2 by done
      |rewrite <- (le_val_bytes_u64 v) at 2 by done
      |rewrite <- (le_val_bytes_u64 t) at 2 by done|]; [f_equal; slice_walk..|].
    unfold byte_at. rewrite !app_assoc, lookup_app_at by len_done. done.
  - intros d Hl. unfold conviction_fields, ConvictionAccount_wf.
    cbn [cv_operator cv_wronged cv_wronged_tx_hash cv_slashed cv_owed_to_victim cv_slot].
    split_conj; try apply le_val_u64;
      (rewrite length_slice; [reflexivity|rewrite Hl; eval_done]).
Qed.

#[global] Instance operator_laws : CodecLaws operator_codec := codec_laws _ _ _ operator_codec_layout.
#[global] Instance position_laws : CodecLaws position_codec := codec_laws _ _ _ position_codec_layout.
#[global] Instance conviction_laws : CodecLaws conviction_codec :=
  codec_laws _ _ _ conviction_codec_layout.

(** ** Consequences of the interface *)

Section codec.
Context {T U : Type} {C : Codec T} {D : Codec U} `{!CodecLaws C, !CodecLaws D}.

(** No buffer reads as two kinds of account. *)
Lemma read_disjoint d (t : T) (u : U) :
  codec_tag (Codec := C) <> codec_tag (Codec := D) ->
  codec_read (Codec := C) d = Ok t -> codec_read (Codec := D) d = Ok u -> False.
Proof. intros Hne (_ & _ & H1)%read_Ok (_ & _ & H2)%read_Ok. congruence. Qed.

Lemma read_other d (t : T) :
  codec_tag (Codec := C) <> codec_tag (Codec := D) ->
  codec_read (Codec := C) d = Ok t -> codec_read (Codec := D) d = Err BadAccountData.
Proof. intros Hne Ht. apply read_refused. intros u Hu. by eapply read_disjoint. Qed.

Lemma read_no_panic d : codec_read (Codec := C) d <> Panic.
Proof.
  intros Hp. assert (codec_read (Codec := C) d = Err BadAccountData) as He; [|congruence].
  apply read_refused. congruence.
Qed.

Lemma write_Ok (t : T) into out :
  codec_wf t -> codec_write t into = Ok out ->
  (codec_len (Codec := C) <= length into)%nat /\ length out = length into /\
  out !! 0%nat = Some (codec_tag (Codec := C)) /\ codec_read out = Ok t.
Proof.
  intros Hwf Hw. destruct (decide (codec_len (Codec := C) <= length into)%nat) as [Hl|Hl].
  - destruct (write_fits t into Hwf Hl) as (out' & Hw' & ? & ? & ?). split; [done|].
    rewrite Hw in Hw'. by injection Hw' as ->.
  - rewrite (write_short t into) in Hw by lia. done.
Qed.

(** A zeroed buffer reads as no account. *)
Lemma read_zeros n (t : T) : codec_tag (Codec := C) <> x00 -> codec_read (zeros n) <> Ok t.
Proof.
  intros Ht (_ & _ & H0)%read_Ok. unfold zeros, fill in H0.
  apply lookup_replicate in H0 as [Heq _]. done.
Qed.
End codec.

(** The integers of an account are written modulo their width, so what is written always reads as an
    account of the same kind and identity. *)
Lemma le_bytes_wrap n z : le_bytes n z = le_bytes n (z mod 256 ^ Z.of_nat n).
Proof.
  revert z. induction n as [|n IH]; intros z; [done|]. unfold le_bytes; fold le_bytes.
  rewrite Nat2Z.inj_succ, Z.pow_succ_r, Z.rem_mul_r, (IH (z / 256)) by lia.
  generalize ((z / 256) mod 256 ^ Z.of_nat n). intros q. f_equal; [unfold byte_of|].
  - by rewrite (Z.mul_comm 256), Z.mod_add, Z.mod_mod by lia.
  - by rewrite (Z.mul_comm 256), Z.div_add, Z.div_small by (try apply Z.mod_pos_bound; lia).
Qed.

Lemma write_operator_reads a into d :
  length (o_authority a) = 32%nat -> length (o_signing_key a) = 32%nat -> OperatorAccount_write a into = Ok d ->
  exists a', OperatorAccount_read d = Ok a' /\ o_authority a' = o_authority a /\
    o_signing_key a' = o_signing_key a /\ (OperatorAccount_wf a -> a' = a).
Proof.
  intros H1 H2 Hw.
  assert (OperatorAccount_write (MkOperator (o_authority a) (o_signing_key a) (wrap64 (o_bond a)) (wrap64 (o_pool_staked a))
    (wrap128 (o_reward_index a)) (wrap64 (o_unbond_at a)) (o_bump a)) into = Ok d) as Hw'.
  { rewrite <-Hw. unfold OperatorAccount_write. cbn [o_authority o_signing_key o_bond o_pool_staked o_reward_index o_unbond_at o_bump].
    rewrite (le_bytes_wrap 8 (o_bond a)), (le_bytes_wrap 8 (o_pool_staked a)), (le_bytes_wrap 16 (o_reward_index a)),
      (le_bytes_wrap 8 (o_unbond_at a)). done. }
  apply (write_Ok (C := operator_codec)) in Hw' as (_ & _ & _ & Hr);
    [|exact (conj H1 (conj H2 (conj (wrap64_range _) (conj (wrap64_range _) (conj (wrap128_range _) (wrap64_range _))))))].
  eexists. split_conj; [exact Hr|done..|]. intros Hwf.
  apply (write_Ok (C := operator_codec)) in Hw as (_ & _ & _ & Hr'); [|done].
  cbn [codec_read operator_codec] in Hr, Hr'. congruence.
Qed.

Lemma write_position_reads p into d :
  length (pa_owner p) = 32%nat -> length (pa_operator p) = 32%nat -> PositionAccount_write p into = Ok d ->
  exists p', PositionAccount_read d = Ok p' /\ pa_owner p' = pa_owner p /\
    pa_operator p' = pa_operator p /\ (PositionAccount_wf p -> p' = p).
Proof.
  intros H1 H2 Hw.
  assert (PositionAccount_write (MkPositionAccount (pa_owner p) (pa_operator p) (wrap64 (pa_staked p))
    (wrap128 (pa_entry_index p)) (wrap64 (pa_reward p)) (pa_bump p)) into = Ok d) as Hw'.
  { rewrite <-Hw. unfold PositionAccount_write. cbn [pa_owner pa_operator pa_staked pa_entry_index pa_reward pa_bump].
    by rewrite (le_bytes_wrap 8 (pa_staked p)), (le_bytes_wrap 16 (pa_entry_index p)), (le_bytes_wrap 8 (pa_reward p)). }
  apply (write_Ok (C := position_codec)) in Hw' as (_ & _ & _ & Hr);
    [|exact (conj H1 (conj H2 (conj (wrap64_range _) (conj (wrap128_range _) (wrap64_range _)))))].
  eexists. split_conj; [exact Hr|done..|]. intros Hwf.
  apply (write_Ok (C := position_codec)) in Hw as (_ & _ & _ & Hr'); [|done].
  cbn [codec_read position_codec] in Hr, Hr'. congruence.
Qed.

Lemma write_conviction_reads c into d :
  length (cv_operator c) = 32%nat -> length (cv_wronged c) = 64%nat -> length (cv_wronged_tx_hash c) = 32%nat ->
  ConvictionAccount_write c into = Ok d ->
  exists c', ConvictionAccount_read d = Ok c' /\ cv_operator c' = cv_operator c /\
    cv_wronged c' = cv_wronged c /\ cv_wronged_tx_hash c' = cv_wronged_tx_hash c /\ (ConvictionAccount_wf c -> c' = c).
Proof.
  intros H1 H2 H3 Hw.
  assert (ConvictionAccount_write (MkConviction (cv_operator c) (cv_wronged c) (cv_wronged_tx_hash c) (wrap64 (cv_slashed c))
    (wrap64 (cv_owed_to_victim c)) (wrap64 (cv_slot c)) (cv_bump c)) into = Ok d) as Hw'.
  { rewrite <-Hw. unfold ConvictionAccount_write.
    cbn [cv_operator cv_wronged cv_wronged_tx_hash cv_slashed cv_owed_to_victim cv_slot cv_bump].
    by rewrite (le_bytes_wrap 8 (cv_slashed c)), (le_bytes_wrap 8 (cv_owed_to_victim c)), (le_bytes_wrap 8 (cv_slot c)). }
  apply (write_Ok (C := conviction_codec)) in Hw' as (_ & _ & _ & Hr);
    [|exact (conj H1 (conj H2 (conj H3 (conj (wrap64_range _) (conj (wrap64_range _) (wrap64_range _))))))].
  eexists. split_conj; [exact Hr|done..|]. intros Hwf.
  apply (write_Ok (C := conviction_codec)) in Hw as (_ & _ & _ & Hr'); [|done].
  cbn [codec_read conviction_codec] in Hr, Hr'. congruence.
Qed.

(** ** Instructions *)

Lemma get_array_Some rest a b s :
  get_array rest a b = Some s <-> (a <= b <= length rest)%nat /\ s = slice rest a b.
Proof.
  unfold get_array. rewrite bind_Some. split.
  - intros (s' & [? ->]%get_range_Some & [? ->]%try_into_array_Some). done.
  - intros [? ->]. exists (slice rest a b). rewrite get_range_Some, try_into_array_Some, length_slice; done.
Qed.

Lemma get_array_None rest a b : (length rest < b)%nat -> get_array rest a b = None.
Proof.
  intros Hl. destruct (get_array rest a b) as [s|] eqn:H; [|done].
  apply get_array_Some in H. lia.
Qed.

Lemma get_array_in rest a b s :
  slice rest a b = s -> (a <= b <= length rest)%nat -> get_array rest a b = Some s.
Proof. intros. by apply get_array_Some. Qed.

Ltac len_done_nat := match goal with |- (_ <= _ <= _)%nat => len_done end.

Lemma Instruction_read_write i : Instruction_wf i -> Instruction_read (Instruction_write i) = Ok i.
Proof.
  destruct i as [k b|a|a| | |w| |]; cbn; try done.
  - intros [Hk Hb].
    rewrite (get_array_in _ 0 32 k) by first [len_done_nat | slice_walk]. res_run.
    rewrite (get_array_in _ 32 40 (le_bytes 8 b)) by first [len_done_nat | slice_walk]. cbn. res_run.
    by rewrite le_val_bytes_u64.
  - intros Ha. rewrite (get_array_in _ 0 8 (le_bytes 8 a)) by first [len_done_nat | slice_walk]. cbn. res_run.
    by rewrite le_val_bytes_u64.
  - intros Ha. rewrite (get_array_in _ 0 8 (le_bytes 8 a)) by first [len_done_nat | slice_walk]. cbn. res_run.
    by rewrite le_val_bytes_u64.
Qed.

(** Data shorter than an instruction with operands needs is refused. *)
Lemma Instruction_read_short tag rest :
  (tag = x00 /\ length rest < 40 \/ (tag = x01 \/ tag = x02) /\ length rest < 8)%nat ->
  Instruction_read (tag :: rest) = Err BadInstruction.
Proof.
  intros [[-> Hl]|[[-> | ->] Hl]]; cbn.
  - destruct (get_array rest 0 32); [|done]. res_run. by rewrite get_array_None by lia.
  - by rewrite get_array_None by lia.
  - by rewrite get_array_None by lia.
Qed.

Lemma Instruction_read_wf d i : Instruction_read d = Ok i -> Instruction_wf i.
Proof.
  assert (forall rest a, le_val <$> get_array rest 0 8 = Some a -> is_u64 a) as Hamt.
  { intros rest a [s [Hs ->]]%fmap_Some. apply get_array_Some in Hs as [? ->].
    apply le_val_u64. by rewrite length_slice. }
  destruct d as [|tag rest]; [done|]. unfold Instruction_read.
  intros H. destruct tag; try discriminate H; res_inv; try exact I; cbn; eauto.
  match goal with H1 : get_array rest 0 32 = Some _, H2 : _ <$> _ = Some _ |- _ =>
    apply get_array_Some in H1 as [? ->]; apply fmap_Some in H2 as (s & Hs & ->) end.
  apply get_array_Some in Hs as [? ->]. split; [by rewrite length_slice|].
  apply le_val_u64. by rewrite length_slice.
Qed.

(** ** Properties *)

(** account data round trips and is never read as another kind of account.  Writing a
    well-formed operator, position or conviction into a buffer that holds it succeeds, keeps the
    buffer's length and reads back as written; the two other readers refuse the result. *)
Theorem account_layouts_roundtrip (into : bytes) (o : OperatorAccount) (p : PositionAccount)
    (c : ConvictionAccount) (Ho : OperatorAccount_wf o) (Hp : PositionAccount_wf p)
    (Hc : ConvictionAccount_wf c) (Hl : (CONVICTION_LEN <= length into)%nat) :
  (exists out, OperatorAccount_write o into = Ok out /\ length out = length into /\
     OperatorAccount_read out = Ok o /\ PositionAccount_read out = Err BadAccountData /\
     ConvictionAccount_read out = Err BadAccountData) /\
  (exists out, PositionAccount_write p into = Ok out /\ length out = length into /\
     PositionAccount_read out = Ok p /\ OperatorAccount_read out = Err BadAccountData /\
     ConvictionAccount_read out = Err BadAccountData) /\
  (exists out, ConvictionAccount_write c into = Ok out /\ length out = length into /\
     ConvictionAccount_read out = Ok c /\ OperatorAccount_read out = Err BadAccountData /\
     PositionAccount_read out = Err BadAccountData).
Proof.
  assert (OPERATOR_LEN <= CONVICTION_LEN)%nat by eval_done.
  assert (POSITION_LEN <= CONVICTION_LEN)%nat by eval_done.
  destruct (write_fits (C := operator_codec) o into Ho ltac:(cbn [codec_len operator_codec]; lia))
    as (out1 & ? & ? & _ & R1).
  destruct (write_fits (C := position_codec) p into Hp ltac:(cbn [codec_len position_codec]; lia))
    as (out2 & ? & ? & _ & R2).
  destruct (write_fits (C := conviction_codec) c into Hc Hl) as (out3 & ? & ? & _ & R3).
  split_conj; [exists out1|exists out2|exists out3]; split_conj; try done;
    [apply (read_other (C := operator_codec) (D := position_codec) _ o)
    |apply (read_other (C := operator_codec) (D := conviction_codec) _ o)
    |apply (read_other (C := position_codec) (D := operator_codec) _ p)
    |apply (read_other (C := position_codec) (D := conviction_codec) _ p)
    |apply (read_other (C := conviction_codec) (D := operator_codec) _ c)
    |apply (read_other (C := conviction_codec) (D := position_codec) _ c)]; done.
Qed.

Definition sample_operator : OperatorAccount :=
  MkOperator (fill 32 x11) (fill 32 x22) 5000000000 1234 987654321098765432109 42 xfe.
Definition sample_position : PositionAccount :=
  MkPositionAccount (fill 32 x33) (fill 32 x44) 7000 123456789 55 xfd.
Definition sample_conviction : ConvictionAccount :=
  MkConviction (fill 32 x44) (fill 64 x55) (fill 32 x66) 10000 3000 77 xfc.

Lemma account_layouts_roundtrip_witness :
  exists out, OperatorAccount_write sample_operator (zeros 160) = Ok out /\
    OperatorAccount_read out = Ok sample_operator /\
    PositionAccount_read out = Err BadAccountData.
Proof.
  destruct (account_layouts_roundtrip (zeros 160) sample_operator sample_position sample_conviction
    ltac:(unfold OperatorAccount_wf; eval_done) ltac:(unfold PositionAccount_wf; eval_done)
    ltac:(unfold ConvictionAccount_wf; eval_done) ltac:(eval_done))
    as [(out & Hw & _ & Hr & Hp & _) _].
  exact (ex_intro _ out (conj Hw (conj Hr Hp))).
Defined.

(** the instruction encoding round trips, and only whole instructions are read.  Every
    well-formed instruction reads back as written, what reads is well formed, and no strict
    prefix of an instruction with operands is read as an instruction with smaller ones. *)
Theorem instruction_codec (i : Instruction) (Hwf : Instruction_wf i) :
  Instruction_read (Instruction_write i) = Ok i /\
  (forall d j, Instruction_read d = Ok j -> Instruction_wf j) /\
  (forall n, (n < length (Instruction_write i))%nat -> (forall w, i <> ClaimVictim w) ->
     Instruction_read (take n (Instruction_write i)) = Err BadInstruction).
Proof.
  split_conj; [by apply Instruction_read_write|by apply Instruction_read_wf|].
  intros [|n]; [done|]. intros Hn Hw.
  destruct i as [k b|a|a| | |w| |]; cbn [Instruction_write Instruction_wf app take length] in *;
    try lia.
  - destruct Hwf as [Hk _]. autorewrite with len in Hn. rewrite Hk in Hn.
    apply Instruction_read_short. left. rewrite length_take. autorewrite with len. rewrite Hk. split; [done|lia].
  - autorewrite with len in Hn. apply Instruction_read_short. right. rewrite length_take.
    autorewrite with len. split; [by left|lia].
  - autorewrite with len in Hn. apply Instruction_read_short. right. rewrite length_take.
    autorewrite with len. split; [by right|lia].
  - by destruct (Hw w).
Qed.

Lemma instruction_codec_witness :
  Instruction_read (Instruction_write (Stake 258)) = Ok (Stake 258) /\
  Instruction_read (take 3 (Instruction_write (Stake 258))) = Err BadInstruction.
Proof.
  destruct (instruction_codec (Stake 258) ltac:(split; lia)) as (Hr & _ & Ht).
  split; [exact Hr|]. apply Ht; [eval_done|discriminate].
Defined.
