(* ===== verification/Evidence.v ===== *)
(** * Evidence: crates/program, ed25519.rs, evidence.rs and transaction.rs

    What the slashing program reads out of a transaction: the (key, message) pairs the ed25519
    precompile verified, the contradiction between two receipts, and the payer of the wronged
    transaction. *)
From S2P Require Import Prelude Constants Crypto Receipt Slashing Accounts.

(** ** ed25519.rs *)

Definition OFFSETS_LEN : nat := 14.
Definition HEADER_LEN : nat := 2.
Definition THIS_INSTRUCTION : Z := 65535.

Record Verified : Type := MkVerified { v_key : bytes; v_message : bytes }.

#[global] Instance Verified_eq_dec : EqDecision Verified.
Proof. solve_decision. Defined.

(** The closure [field]: the [n]th little-endian [u16] of an entry. *)
Definition offset_field {E} (offsets : bytes) (n : nat) : result E Z :=
  lo ← index_at offsets (n * 2);
  hi ← index_at offsets (n * 2 + 1);
  Ok (le_val [lo; hi]).

(** The body of the loop of [verified_pairs]. *)
Definition verified_entry (data : bytes) (index : Z) (entry : nat) : result SlashError Verified :=
  let at_ := (HEADER_LEN + entry * OFFSETS_LEN)%nat in
  offsets ← ok_or (get_range data at_ (at_ + OFFSETS_LEN)) NoEd25519Instruction;
  signature_at ← offset_field offsets 0;
  key_at ← offset_field offsets 2;
  message_at ← offset_field offsets 4;
  message_len ← offset_field offsets 5;
  i1 ← offset_field offsets 1;
  i3 ← offset_field offsets 3;
  i6 ← offset_field offsets 6;
  _ ← ensure (forallb (fun i => (i =? THIS_INSTRUCTION) || (i =? index)) [i1; i3; i6])
        OffsetsNotSelfContained;
  _ ← ok_or (get_range data (Z.to_nat signature_at) (Z.to_nat signature_at + 64))
        OffsetsNotSelfContained;
  key ← ok_or (get_range data (Z.to_nat key_at) (Z.to_nat key_at + 32)) OffsetsNotSelfContained;
  key ← ok_or (try_into_array 32 key) OffsetsNotSelfContained;
  message ← ok_or (get_range data (Z.to_nat message_at) (Z.to_nat message_at + Z.to_nat message_len))
        OffsetsNotSelfContained;
  Ok (MkVerified key message).

Definition verified_pairs (data : bytes) (index : Z) : result SlashError (list Verified) :=
  _ ← ensure (bool_decide (HEADER_LEN <= length data)%nat) NoEd25519Instruction;
  count ← index_at data 0;
  mapM (verified_entry data index) (seq 0 (Z.to_nat (byte_val count))).

(** What the precompile's acceptance of [data] means for one entry whose offsets all point into
    the same instruction: the signature found there is valid for the key and the message. *)
Definition entry_accepted `{Crypto} (data : bytes) (index : Z) (entry : nat) : Prop :=
  let at_ := (HEADER_LEN + entry * OFFSETS_LEN)%nat in
  let field n := le_val (slice data (at_ + n * 2) (at_ + n * 2 + 2)) in
  let range a len := slice data (Z.to_nat a) (Z.to_nat a + Z.to_nat len) in
  (at_ + OFFSETS_LEN <= length data)%nat ->
  Forall (fun n => field n = THIS_INSTRUCTION \/ field n = index) [1; 3; 6]%nat ->
  ed25519_verify_strict (range (field 2%nat) 32) (range (field 4%nat) (field 5%nat))
    (range (field 0%nat) 64) = true.

(** The documented effect of the ed25519 program: a transaction that carries an instruction for
    it executes only when every entry verifies. *)
Definition precompile_accepts `{Crypto} (data : bytes) (index : Z) : Prop :=
  forall entry, (entry < Z.to_nat (byte_val (byte_at data 0)))%nat -> entry_accepted data index entry.

(** ** evidence.rs *)

Record Equivocation : Type := MkEquivocation {
  e_seq : Z;
  e_log_id : bytes;
  e_a : bytes;
  e_b : bytes;
}.

#[global] Instance Equivocation_eq_dec : EqDecision Equivocation.
Proof. solve_decision. Defined.

Definition check_shape (receipt : bytes) : result SlashError unit :=
  _ ← ensure (bool_decide (length receipt = RECEIPT_LEN)) MalformedReceipt;
  tag ← index_range receipt 0 OFF_LOG_ID;
  ensure (bool_decide (tag = DOMAIN_TAG)) MalformedReceipt.

(** The closures [field] and [seq_of]. *)
Definition evidence_field (receipt : bytes) (at_ len : nat) : result SlashError bytes :=
  ok_or (get_range receipt at_ (at_ + len)) MalformedReceipt.

Definition evidence_seq (receipt : bytes) : result SlashError Z :=
  s ← evidence_field receipt OFF_SEQ 8;
  a ← ok_or (try_into_array 8 s) MalformedReceipt;
  Ok (le_val a).

Definition Equivocation_check (a b : bytes) : result SlashError Equivocation :=
  _ ← check_shape a;
  _ ← check_shape b;
  log_a ← evidence_field a OFF_LOG_ID 32;
  log_id ← ok_or (try_into_array 32 log_a) MalformedReceipt;
  log_b ← evidence_field b OFF_LOG_ID 32;
  _ ← ensure (bool_decide (log_b = log_id)) MixedLogs;
  seq ← evidence_seq a;
  seq_b ← evidence_seq b;
  _ ← ensure (bool_decide (seq_b = seq)) DifferentSequence;
  _ ← ensure (bool_decide (a <> b)) NotContradictory;
  Ok (MkEquivocation seq log_id a b).

Definition Equivocation_ordered (e : Equivocation) : bytes * bytes :=
  if bytes_le (e_a e) (e_b e) then (e_a e, e_b e) else (e_b e, e_a e).

(** The two panic when the receipt is shorter than its offsets, which [check] excludes. *)
Definition wronged_signature {E} (e : Equivocation) : result E bytes :=
  index_range (Equivocation_ordered e).1 OFF_TX_SIG (OFF_TX_SIG + 64).

Definition wronged_tx_hash {E} (e : Equivocation) : result E bytes :=
  index_range (Equivocation_ordered e).1 OFF_TX_HASH OFF_RECENT_BLOCKHASH.

(** ** transaction.rs *)

(** The loop of [compact_u16] from its [step]th iteration on. *)
Fixpoint compact_u16_loop (wire : bytes) (at_ : nat) (steps : list nat) (value : Z)
    : result SlashError (Z * nat) :=
  match steps with
  | [] => Err MalformedReceipt
  | step :: steps =>
      byte ← ok_or (wire !! (at_ + step)%nat) MalformedReceipt;
      let value :=
        Z.lor value (Z.shiftl (Z.land (byte_val byte) 0x7f) (Z.of_nat step * 7)) in
      if Z.land (byte_val byte) 0x80 =? 0 then Ok (value, (at_ + step + 1)%nat)
      else compact_u16_loop wire at_ steps value
  end.

Definition compact_u16 (wire : bytes) (at_ : nat) : result SlashError (Z * nat) :=
  compact_u16_loop wire at_ [0; 1; 2]%nat 0.

Definition fee_payer (wire : bytes) : result SlashError bytes :=
  r ← compact_u16 wire 0;
  let message_at := (r.2 + Z.to_nat r.1 * 64)%nat in
  header_at ←
    match wire !! message_at with
    | Some byte => if Z.land (byte_val byte) 0x80 =? 0 then Ok message_at else Ok (message_at + 1)%nat
    | None => Err MalformedReceipt
    end;
  keys ← compact_u16 wire (header_at + 3);
  payer ← ok_or (get_range wire keys.2 (keys.2 + 32)) MalformedReceipt;
  ok_or (try_into_array 32 payer) MalformedReceipt.

#[global] Arguments verified_entry : simpl never.
#[global] Arguments Equivocation_check : simpl never.

(** ** What the precompile proves *)


Lemma two_bytes (l : bytes) i :
  (i + 2 <= length l)%nat -> slice l i (i + 2) = [byte_at l i; byte_at l (i + 1)].
Proof.
  intros. destruct (lookup_lt_is_Some_2 l i ltac:(lia)) as [x Hx].
  destruct (lookup_lt_is_Some_2 l (i + 1) ltac:(lia)) as [y Hy].
  unfold slice, byte_at. rewrite Hx, Hy. rewrite (drop_S _ _ _ Hx).
  replace (S i) with (i + 1)%nat by lia. rewrite (drop_S _ _ _ Hy).
  by replace (i + 2 - i)%nat with 2%nat by lia.
Qed.

Lemma byte_at_slice l a b i : (a + i < b <= length l)%nat -> byte_at (slice l a b) i = byte_at l (a + i).
Proof.
  intros. unfold byte_at, slice. by rewrite lookup_take_lt, lookup_drop by lia.
Qed.

(** The fields of an entry, read through the offsets slice or directly. *)
Lemma offset_field_in {E} data at_ n :
  (at_ + OFFSETS_LEN <= length data)%nat -> (n < 7)%nat ->
  offset_field (E:=E) (slice data at_ (at_ + OFFSETS_LEN)) n =
  Ok (le_val (slice data (at_ + n * 2) (at_ + n * 2 + 2))).
Proof.
  intros Hl Hn. unfold offset_field, OFFSETS_LEN in *.
  rewrite !index_at_byte by (rewrite length_slice; lia). cbn -[slice le_val Nat.mul].
  rewrite two_bytes, !byte_at_slice by lia. by rewrite Nat.add_assoc.
Qed.

Lemma verified_entry_Ok `{Crypto} data index entry v :
  verified_entry data index entry = Ok v -> entry_accepted data index entry ->
  length (v_key v) = 32%nat /\
  exists sig, length sig = 64%nat /\ ed25519_verify_strict (v_key v) (v_message v) sig = true.
Proof.
  intros Hv Hacc. unfold verified_entry in Hv. cbv zeta in Hv. res_step.
  rename select (ok_or _ _ = _) into Hoff. apply ok_or_Ok, get_range_Some in Hoff as [Hl ->].
  rewrite !offset_field_in in Hv by (cbv [OFFSETS_LEN HEADER_LEN] in *; lia).
  rewrite !bind_of_ok in Hv. res_inv.
  repeat match goal with
  | H : get_range _ _ _ = Some _ |- _ => apply get_range_Some in H as [? ->]
  | H : try_into_array _ _ = Some _ |- _ => apply try_into_array_Some in H as [? ->]
  end.
  cbn [v_key v_message]. split; [done|].
  unfold entry_accepted in Hacc. cbv zeta in Hacc.
  eexists; split; [|apply Hacc; [lia|]].
  - rewrite length_slice; lia.
  - rename select (forallb _ _ = true) into Hall. cbn -[slice le_val Nat.mul] in Hall.
    rewrite !andb_true_iff, !orb_true_iff, !Z.eqb_eq in Hall.
    destruct Hall as (? & ? & ? & _).
    repeat (apply Forall_cons; split; [assumption|]). apply Forall_nil_2.
Qed.

Lemma mapM_Ok_Forall2 {E A B} (f : A -> result E B) l k :
  mapM f l = Ok k -> Forall2 (fun a b => f a = Ok b) l k.
Proof.
  revert k. induction l as [|a l IH]; intros k Hk; cbn in Hk.
  { injection Hk as <-. constructor. }
  apply bind_Ok in Hk as (b & Hb & Hk). apply bind_Ok in Hk as (k' & Hk' & Hk).
  injection Hk as <-. constructor; auto.
Qed.

(** Every pair read back was verified by the precompile. *)
Lemma verified_pairs_sound `{Crypto} data index pairs :
  verified_pairs data index = Ok pairs -> precompile_accepts data index ->
  Forall (fun v => length (v_key v) = 32%nat /\
    exists sig, length sig = 64%nat /\ ed25519_verify_strict (v_key v) (v_message v) sig = true) pairs.
Proof.
  unfold verified_pairs. intros Hp Hacc. res_inv.
  rewrite index_at_byte in * by (cbv [HEADER_LEN] in *; lia). res_inv.
  rename select (mapM _ _ = _) into Hm. apply mapM_Ok_Forall2 in Hm.
  eapply Forall2_Forall_r; [exact Hm|]. apply Forall_forall. intros entry Hin v Hv.
  eapply verified_entry_Ok; [exact Hv|]. apply Hacc. apply elem_of_seq in Hin. lia.
Qed.

(** ** Contradictions *)

Lemma check_shape_Ok r : check_shape r = Ok tt <-> length r = RECEIPT_LEN /\ slice r 0 OFF_LOG_ID = DOMAIN_TAG.
Proof.
  unfold check_shape. destruct (decide (length r = RECEIPT_LEN)) as [Hl|Hl].
  - rewrite bool_decide_true by done. res_run. rewrite index_range_in by (rewrite Hl; eval_done).
    res_run. rewrite ensure_Ok, bool_decide_eq_true. naive_solver.
  - rewrite bool_decide_false by done. res_run. naive_solver.
Qed.

Lemma evidence_field_in r a n : (a + n <= length r)%nat -> evidence_field r a n = Ok (slice r a (a + n)).
Proof. intros. unfold evidence_field. by rewrite get_range_in by lia. Qed.

Lemma evidence_seq_in r :
  length r = RECEIPT_LEN -> evidence_seq r = Ok (le_val (slice r OFF_SEQ OFF_TX_SIG)).
Proof.
  intros Hl. unfold evidence_seq. rewrite evidence_field_in by (rewrite Hl; eval_done). res_run.
  rewrite try_into_array_in; [done|]. rewrite length_slice; [done|]. rewrite Hl. eval_done.
Qed.

(** Exactly when the program accepts two messages as a contradiction. *)
Lemma Equivocation_check_Ok a b e :
  Equivocation_check a b = Ok e <->
  check_shape a = Ok tt /\ check_shape b = Ok tt /\
  slice b OFF_LOG_ID OFF_MODE = slice a OFF_LOG_ID OFF_MODE /\
  le_val (slice b OFF_SEQ OFF_TX_SIG) = le_val (slice a OFF_SEQ OFF_TX_SIG) /\ a <> b /\
  e = MkEquivocation (le_val (slice a OFF_SEQ OFF_TX_SIG)) (slice a OFF_LOG_ID OFF_MODE) a b.
Proof.
  unfold Equivocation_check. destruct (check_shape a) as [[]| |] eqn:Ha; [|by split; [|intros (? & _)]..].
  destruct (check_shape b) as [[]| |] eqn:Hb; [|by split; [|intros (_ & ? & _)]..]. res_run.
  apply check_shape_Ok in Ha as [La _]. apply check_shape_Ok in Hb as [Lb _].
  rewrite !evidence_field_in by (rewrite ?La, ?Lb; eval_done). res_run.
  rewrite try_into_array_in by (rewrite length_slice; [done|rewrite La; eval_done]). res_run.
  change (OFF_LOG_ID + 32)%nat with OFF_MODE. rewrite !evidence_seq_in by done.
  split.
  - intros He. res_inv. by split_conj.
  - intros (_ & _ & Hlog & Hseq & Hne & ->). rewrite (bool_decide_true (slice b _ _ = _)) by done. res_run.
    by rewrite !bool_decide_true by done.
Qed.

(** The bytes of an encoded receipt at the offsets the program reads. *)
Lemma receipt_offsets r :
  Receipt_wf r ->
  let m := Receipt_to_bytes r in
  check_shape m = Ok tt /\ slice m OFF_LOG_ID OFF_MODE = r_log_id r /\
  le_val (slice m OFF_SEQ OFF_TX_SIG) = r_seq r /\ slice m OFF_TX_SIG OFF_TX_HASH = r_tx_sig r /\
  slice m OFF_TX_HASH OFF_RECENT_BLOCKHASH = r_tx_hash r.
Proof.
  intros Hwf m. pose proof (length_Receipt_to_bytes r Hwf) as Hl.
  subst m. rewrite Receipt_to_bytes_layout in * by done.
  destruct (receipt_layout_fields r Hwf) as (Htag & _ & Hf).
  split; [by apply check_shape_Ok|]. rewrite <- Hf at 2 4 6 8. by split_conj.
Qed.

Lemma Equivocation_check_receipts ra rb e :
  Receipt_wf ra -> Receipt_wf rb ->
  Equivocation_check (Receipt_to_bytes ra) (Receipt_to_bytes rb) = Ok e <->
  r_log_id ra = r_log_id rb /\ r_seq ra = r_seq rb /\ ra <> rb /\
  e = MkEquivocation (r_seq ra) (r_log_id ra) (Receipt_to_bytes ra) (Receipt_to_bytes rb).
Proof.
  intros Wa Wb. destruct (receipt_offsets ra Wa) as (Sa & La & Qa & _).
  destruct (receipt_offsets rb Wb) as (Sb & Lb & Qb & _).
  rewrite Equivocation_check_Ok, La, Lb, Qa, Qb. split.
  - intros (_ & _ & ? & ? & Hne & ->). split_conj; [done..| |done]. contradict Hne. by rewrite Hne.
  - intros (? & ? & Hne & ->). split_conj; try done. contradict Hne. by apply Receipt_to_bytes_inj.
Qed.

Lemma Equivocation_ordered_sym a b q l q' l' :
  Equivocation_ordered (MkEquivocation q l a b) = Equivocation_ordered (MkEquivocation q' l' b a).
Proof.
  unfold Equivocation_ordered; cbn [e_a e_b].
  destruct (bytes_le a b) eqn:Hab, (bytes_le b a) eqn:Hba; try done.
  - f_equal; by apply bytes_le_antisym.
  - apply bytes_le_total in Hab. congruence.
Qed.

Lemma Equivocation_check_sym a b e :
  Equivocation_check a b = Ok e ->
  exists e', Equivocation_check b a = Ok e' /\ Equivocation_ordered e' = Equivocation_ordered e.
Proof.
  intros (Ha & Hb & Hl & Hs & Hne & ->)%Equivocation_check_Ok. eexists. split.
  - by apply Equivocation_check_Ok.
  - apply Equivocation_ordered_sym.
Qed.

(** The ordered pair is the presented pair, and both are whole receipts. *)
Lemma ordered_cases e :
  Equivocation_ordered e = (e_a e, e_b e) \/ Equivocation_ordered e = (e_b e, e_a e).
Proof. unfold Equivocation_ordered. case_match; auto. Qed.

Lemma wronged_Ok {E} a b e :
  Equivocation_check a b = Ok e ->
  let low := (Equivocation_ordered e).1 in
  length low = RECEIPT_LEN /\
  wronged_signature (E:=E) e = Ok (slice low OFF_TX_SIG OFF_TX_HASH) /\
  wronged_tx_hash (E:=E) e = Ok (slice low OFF_TX_HASH OFF_RECENT_BLOCKHASH) /\
  length (slice low OFF_TX_SIG OFF_TX_HASH) = 64%nat /\
  length (slice low OFF_TX_HASH OFF_RECENT_BLOCKHASH) = 32%nat.
Proof.
  intros (Ha & Hb & _ & _ & _ & ->)%Equivocation_check_Ok low.
  assert (length low = RECEIPT_LEN) as Hl.
  { apply check_shape_Ok in Ha as [La _]. apply check_shape_Ok in Hb as [Lb _].
    subst low. destruct (ordered_cases
      (MkEquivocation (le_val (slice a OFF_SEQ OFF_TX_SIG)) (slice a OFF_LOG_ID OFF_MODE) a b))
      as [-> | ->]; done. }
  unfold wronged_signature, wronged_tx_hash. fold low.
  rewrite !index_range_in by (rewrite Hl; eval_done).
  split_conj; try done; (rewrite length_slice; [done|rewrite Hl; eval_done]).
Qed.

(** ** The payer *)

(** Solana's compact-u16: seven bits per byte, low group first, the high bit set on every byte
    but the last. *)
Definition compact_bytes (v : Z) : bytes :=
  if v <? 2 ^ 7 then [byte_of v]
  else if v <? 2 ^ 14 then [byte_of (v mod 128 + 128); byte_of (v / 128)]
  else [byte_of (v mod 128 + 128); byte_of (v / 128 mod 128 + 128); byte_of (v / 2 ^ 14)].


(** Checks a fact about every byte by evaluation. *)
Lemma byte_cases (P : byte -> bool) : forallb P (map (fun n => byte_of (Z.of_nat n)) (seq 0 256)) = true -> forall b, P b = true.
Proof.
  intros H b. rewrite forallb_forall in H. apply H. apply in_map_iff.
  exists (Z.to_nat (byte_val b)). pose proof (byte_val_range b). split.
  - rewrite Z2Nat.id by lia. apply byte_of_val.
  - apply in_seq. lia.
Qed.

Lemma byte_high_bit b : (Z.land (byte_val b) 0x80 =? 0) = (byte_val b <? 128).
Proof.
  apply eqb_prop. revert b. apply byte_cases. vm_compute. reflexivity.
Qed.

Lemma byte_low_bits b : Z.land (byte_val b) 0x7f = byte_val b mod 128.
Proof. change 0x7f with (Z.ones 7). by rewrite Z.land_ones. Qed.

(** Disjoint groups of bits add up. *)
Lemma lor_shift_add v x n : 0 <= n -> 0 <= v < 2 ^ n -> Z.lor v (Z.shiftl x n) = v + x * 2 ^ n.
Proof.
  intros Hn Hv. rewrite <- Z.shiftl_mul_pow2, <- Z.add_lor_land by done.
  assert (Z.land v (Z.shiftl x n) = 0) as ->; [|lia].
  apply Z.bits_inj'. intros i Hi. rewrite Z.land_spec, Z.bits_0.
  destruct (decide (i < n)).
  - by rewrite Z.shiftl_spec_low, andb_false_r by done.
  - rewrite <- (Z.mod_small v (2 ^ n)) by done. by rewrite Z.mod_pow2_bits_high by lia.
Qed.

(** One turn of the loop, in arithmetic. *)
Lemma compact_u16_step wire at_ step steps value b :
  wire !! (at_ + step)%nat = Some b -> 0 <= value < 2 ^ (Z.of_nat step * 7) ->
  compact_u16_loop wire at_ (step :: steps) value =
  let value := value + byte_val b mod 128 * 2 ^ (Z.of_nat step * 7) in
  if byte_val b <? 128 then Ok (value, (at_ + step + 1)%nat)
  else compact_u16_loop wire at_ steps value.
Proof.
  intros Hb Hv. cbn [compact_u16_loop]. rewrite Hb. res_run.
  rewrite byte_low_bits, byte_high_bit. by rewrite lor_shift_add by lia.
Qed.

Lemma compact_u16_bytes pre v post :
  0 <= v < 2 ^ 16 ->
  compact_u16 (pre ++ compact_bytes v ++ post) (length pre) =
  Ok (v, length (pre ++ compact_bytes v)).
Proof.
  intros Hv. unfold compact_u16, compact_bytes.
  assert (forall l i b, l !! i = Some b -> (pre ++ l ++ post) !! (length pre + i)%nat = Some b) as Hat.
  { intros l i b Hb. rewrite lookup_app_r by lia.
    replace (length pre + i - length pre)%nat with i by lia. by apply lookup_app_l_Some. }
  rewrite length_app. destruct (Z.ltb_spec v (2 ^ 7)); [|destruct (Z.ltb_spec v (2 ^ 14))].
  - erewrite compact_u16_step by (first [by apply Hat | lia]). cbv zeta.
    rewrite byte_val_of, (Z.mod_small v 256), (Z.mod_small v 128) by lia.
    rewrite (proj2 (Z.ltb_lt _ _)) by lia. cbn [length]. do 2 f_equal; lia.
  - erewrite compact_u16_step by (first [by apply Hat | lia]). cbv zeta. rewrite byte_val_of.
    rewrite (Z.mod_small (_ + 128) 256), (proj2 (Z.ltb_ge _ _)) by div_lia.
    erewrite compact_u16_step by (first [by apply Hat | div_lia]). cbv zeta. rewrite byte_val_of.
    rewrite (Z.mod_small (v / 128) 256), (proj2 (Z.ltb_lt _ _)) by div_lia.
    cbn [length]. do 2 f_equal; [div_lia|lia].
  - erewrite compact_u16_step by (first [by apply Hat | lia]). cbv zeta. rewrite byte_val_of.
    rewrite (Z.mod_small (v mod 128 + 128) 256), (proj2 (Z.ltb_ge _ _)) by div_lia.
    erewrite compact_u16_step by (first [by apply Hat | div_lia]). cbv zeta. rewrite byte_val_of.
    rewrite (Z.mod_small (v / 128 mod 128 + 128) 256), (proj2 (Z.ltb_ge _ _)) by div_lia.
    erewrite compact_u16_step by (first [by apply Hat | div_lia]). cbv zeta. rewrite byte_val_of.
    rewrite (Z.mod_small (v / 2 ^ 14) 256), (proj2 (Z.ltb_lt _ _)) by div_lia.
    cbn [length]. do 2 f_equal; [div_lia|lia].
Qed.

(** A transaction on the wire: its signatures, an optional version byte, the message header and
    the account keys, of which the first pays. *)
Definition wire_transaction (signatures : list bytes) (version : option byte) (header : bytes)
    (payer : bytes) (keys : list bytes) (rest : bytes) : bytes :=
  compact_bytes (Z.of_nat (length signatures)) ++ concat signatures ++ option_list version ++
  header ++ compact_bytes (Z.of_nat (S (length keys))) ++ payer ++ concat keys ++ rest.

Lemma length_concat_const (l : list bytes) n :
  Forall (fun x => length x = n) l -> length (concat l) = (length l * n)%nat.
Proof. induction 1 as [|x l Hx _ IH]; cbn; [done|]. rewrite length_app. lia. Qed.

(** Where the message header starts. *)
Lemma header_at_wire (pre header tail : bytes) version :
  (forall v, version = Some v -> 128 <= byte_val v) ->
  (version = None -> byte_val (byte_at header 0) < 128) -> length header = 3%nat ->
  match (pre ++ option_list version ++ header ++ tail) !! length pre with
  | Some byte => if Z.land (byte_val byte) 0x80 =? 0 then Ok (length pre) else Ok (length pre + 1)%nat
  | None => Err MalformedReceipt
  end = Ok (length (pre ++ option_list version)).
Proof.
  intros Hsome Hnone Hh. rewrite lookup_app_r, Nat.sub_diag, length_app by lia.
  destruct version as [v|].
  - change ((option_list (Some v) ++ header ++ tail) !! 0%nat) with (Some v). cbv iota.
    by rewrite byte_high_bit, (proj2 (Z.ltb_ge _ _)) by auto.
  - destruct header as [|h header]; [done|].
    change ((option_list None ++ (h :: header) ++ tail) !! 0%nat) with (Some h). cbv iota.
    rewrite byte_high_bit, (proj2 (Z.ltb_lt _ _)) by (by apply Hnone). f_equal. cbn. lia.
Qed.

Lemma fee_payer_wire signatures version header payer keys rest :
  Forall (fun s => length s = 64%nat) signatures -> Z.of_nat (length signatures) < 2 ^ 16 ->
  (forall v, version = Some v -> 128 <= byte_val v) ->
  (version = None -> byte_val (byte_at header 0) < 128) ->
  length header = 3%nat -> length payer = 32%nat -> Z.of_nat (S (length keys)) < 2 ^ 16 ->
  fee_payer (wire_transaction signatures version header payer keys rest) = Ok payer.
Proof.
  intros Hsigs Hns Hsome Hnone Hh Hp Hnk. unfold fee_payer, wire_transaction.
  set (ns := Z.of_nat (length signatures)). set (nk := Z.of_nat (S (length keys))).
  set (tail := payer ++ concat keys ++ rest).
  pose proof (compact_u16_bytes [] ns) as Hc. cbn [app length] in Hc. rewrite Hc by lia.
  res_run. cbn [fst snd].
  replace (length (compact_bytes ns) + Z.to_nat ns * 64)%nat
    with (length (compact_bytes ns ++ concat signatures))
    by (rewrite length_app, (length_concat_const _ _ Hsigs); lia).
  set (pre := compact_bytes ns ++ concat signatures). rewrite (app_assoc (compact_bytes ns)). fold pre.
  rewrite header_at_wire by done. res_run.
  replace (pre ++ option_list version ++ header ++ compact_bytes nk ++ tail) with
    ((pre ++ option_list version ++ header) ++ compact_bytes nk ++ tail) by by rewrite <- !app_assoc.
  replace (length (pre ++ option_list version) + 3)%nat
    with (length (pre ++ option_list version ++ header)) by (rewrite !length_app; lia).
  rewrite compact_u16_bytes by lia. res_run. cbn [snd].
  rewrite (app_assoc (pre ++ _)). subst tail.
  rewrite get_range_in by (rewrite !length_app; lia). res_run.
  rewrite slice_app by (rewrite ?Hp; done). by rewrite try_into_array_in.
Qed.

(** ** Properties *)

(** the pairs the program reads are the pairs the precompile verified.  When the ed25519
    program accepted the instruction data, every (key, message) pair [verified_pairs] returns
    comes with a signature of that key over that message; data whose offsets point into another
    instruction yields no pair at all. *)
Theorem verified_pairs_are_signed `{Crypto} (data : bytes) (index : Z) (pairs : list Verified)
    (Hread : verified_pairs data index = Ok pairs) (Hacc : precompile_accepts data index) :
  Forall (fun v => length (v_key v) = 32%nat /\
    exists sig, length sig = 64%nat /\ ed25519_verify_strict (v_key v) (v_message v) sig = true)
    pairs.
Proof. by eapply verified_pairs_sound. Qed.

(** Instruction data for one signature by [key] over [msg]. *)
Definition one_signature (key msg : bytes) : bytes :=
  [x01; x00] ++ le_bytes 2 16 ++ le_bytes 2 65535 ++ le_bytes 2 80 ++ le_bytes 2 65535 ++
  le_bytes 2 112 ++ le_bytes 2 (Z.of_nat (length msg)) ++ le_bytes 2 65535 ++
  toy_sign key msg ++ key ++ msg.

Lemma verified_pairs_are_signed_witness :
  Forall (fun v => length (v_key v) = 32%nat /\
    exists sig, length sig = 64%nat /\
      ed25519_verify_strict (Crypto := toy_crypto) (v_key v) (v_message v) sig = true)
    [MkVerified (fill 32 x41) [x01; x02; x03]].
Proof.
  refine (verified_pairs_are_signed (one_signature (fill 32 x41) [x01; x02; x03]) 0 _ _ _).
  - vm_compute. reflexivity.
  - intros [|entry] Hentry; [intros _ _; vm_compute; reflexivity|].
    exfalso. apply (Nat.nlt_0_r entry). apply Nat.succ_lt_mono. exact Hentry.
Defined.

(** The program convicts exactly the contradictions.  For two well-formed receipts, the check
    on their messages succeeds if and only if they are different receipts for one position of one
    log, whichever way round they are presented; and the canonical order, from which the
    conviction's address and the wronged transaction are taken, does not depend on that. *)
Theorem contradiction_iff (ra rb : Receipt) (Wa : Receipt_wf ra) (Wb : Receipt_wf rb) :
  let a := Receipt_to_bytes ra in
  let b := Receipt_to_bytes rb in
  ((exists e, Equivocation_check a b = Ok e) <->
   r_log_id ra = r_log_id rb /\ r_seq ra = r_seq rb /\ ra <> rb) /\
  (forall e, Equivocation_check a b = Ok e ->
   exists e', Equivocation_check b a = Ok e' /\ Equivocation_ordered e' = Equivocation_ordered e) /\
  (forall e, Equivocation_check a b = Ok e -> exists r, (r = ra \/ r = rb) /\
   wronged_signature (E := SlashError) e = Ok (r_tx_sig r) /\
   wronged_tx_hash (E := SlashError) e = Ok (r_tx_hash r)).
Proof.
  intros a b. split_conj.
  - split.
    + intros (e & (? & ? & ? & _)%Equivocation_check_receipts); done.
    + intros (? & ? & ?). eexists. by apply Equivocation_check_receipts.
  - apply Equivocation_check_sym.
  - intros e He. destruct (wronged_Ok (E := SlashError) a b e He) as (_ & -> & -> & _).
    apply Equivocation_check_receipts in He as (_ & _ & _ & ->); [|done..].
    destruct (receipt_offsets ra Wa) as (_ & _ & _ & ? & ?).
    destruct (receipt_offsets rb Wb) as (_ & _ & _ & ? & ?).
    edestruct ordered_cases as [Ho|Ho]; rewrite Ho; cbn [fst e_a e_b];
      [exists ra|exists rb]; (split; [auto|]); split; f_equal; done.
Qed.

Definition conflicting_receipt : Receipt :=
  MkReceipt (fill 32 x07) Plain 5 (fill 64 x0a) (fill 32 x01) (fill 32 x02) (fill 32 x03)
    ZERO_PUBKEY 11 12.

Lemma contradiction_iff_witness :
  exists e, Equivocation_check (Receipt_to_bytes sample_receipt)
              (Receipt_to_bytes conflicting_receipt) = Ok e.
Proof.
  apply (contradiction_iff sample_receipt conflicting_receipt ltac:(eval_done) ltac:(eval_done)).
  eval_done.
Defined.

(** The payer is read from the wire.  For every transaction in Solana's wire format, legacy
    or versioned, with any number of signatures and account keys the compact-u16 counts can
    hold, [fee_payer] returns its first account key. *)
Theorem fee_payer_correct signatures version header payer keys rest
    (Hsigs : Forall (fun s => length s = 64%nat) signatures)
    (Hns : Z.of_nat (length signatures) < 2 ^ 16)
    (Hsome : forall v, version = Some v -> 128 <= byte_val v)
    (Hnone : version = None -> byte_val (byte_at header 0) < 128)
    (Hh : length header = 3%nat) (Hp : length payer = 32%nat)
    (Hnk : Z.of_nat (S (length keys)) < 2 ^ 16) :
  fee_payer (wire_transaction signatures version header payer keys rest) = Ok payer.
Proof. by apply fee_payer_wire. Qed.

Lemma fee_payer_correct_witness :
  fee_payer (wire_transaction [fill 64 x11] (Some x80) [x01; x00; x01] (fill 32 x22)
               [fill 32 x33; fill 32 x00] (fill 32 x44)) = Ok (fill 32 x22).
Proof.
  refine (fee_payer_correct [fill 64 x11] (Some x80) [x01; x00; x01] (fill 32 x22)
    [fill 32 x33; fill 32 x00] (fill 32 x44) _ _ _ _ _ _ _);
    [repeat constructor|eval_done|intros v [= <-]; eval_done|discriminate|reflexivity
    |reflexivity|eval_done].
Defined.
