(* ===== verification/Runtime.v ===== *)
(** * The Solana runtime as the slashing program sees it

    The ledger of accounts, and the parts of the runtime the program calls: program derived
    addresses, the rent and clock sysvars, the instructions sysvar and the two system-program
    instructions.  The runtime is not part of the sources: its functions are the fields of
    [Runtime] and [Context], and its documented behaviour is [RuntimeLaws].  [toy_runtime] is
    an executable instance. *)
From S2P Require Import Prelude Constants Crypto Receipt Slashing Accounts Evidence.

(** ** Accounts *)

Record account : Type := MkAccount { a_lamports : Z; a_data : bytes; a_owner : bytes }.

#[global] Instance account_eq_dec : EqDecision account.
Proof. solve_decision. Defined.

Abbreviation ledger := (gmap bytes account).

(** [solana_program::account_info::AccountInfo]: balance, data and owner are those of the ledger's
    account at the key, which all infos with that key share.  The flag [is_writable] is left out: the
    program does not read it.  The runtime refuses a transaction that changes an account not passed
    as writable; one that succeeds here stands for one that passes every account it changes so, as
    the builders of the court's client do. *)
Record AccountInfo : Type := MkInfo { ai_key : bytes; ai_is_signer : bool }.

#[global] Instance AccountInfo_eq_dec : EqDecision AccountInfo.
Proof. solve_decision. Defined.

(** ** The runtime *)

Class Runtime : Type := {
  system_program_id : bytes;
  incinerator_id : bytes;
  ed25519_program_id : bytes;
  instructions_sysvar_id : bytes;
  (** [Pubkey::find_program_address]; [None] where it panics. *)
  find_program_address : list bytes -> bytes -> option (bytes * byte);
  (** [Pubkey::create_program_address], by which [invoke_signed] derives the extra signers. *)
  create_program_address : list bytes -> bytes -> option bytes;
  (** [Rent::get()?.minimum_balance(len)]. *)
  Rent_minimum_balance : option (nat -> Z);
  (** [invoke_signed] of [system_instruction::create_account(from, to, lamports, space, owner)]
      by [program_id], with the seeds for the new account. *)
  invoke_create_account (program_id : bytes) (L : ledger) (from to system : AccountInfo)
    (lamports : Z) (space : nat) (owner : bytes) (seeds : list bytes) : result ProgramError ledger;
  (** [invoke_signed] of [system_instruction::transfer(from, to, lamports)], without seeds. *)
  invoke_transfer (program_id : bytes) (L : ledger) (from to system : AccountInfo) (lamports : Z)
    : result ProgramError ledger;
}.

(** What one transaction sees: the clock and its own instructions. *)
Record Context : Type := MkContext {
  (** [Clock::get()?.slot]. *)
  Clock_slot : result ProgramError Z;
  load_current_index_checked : bytes -> result ProgramError Z;
  (** The program id and the data of an instruction of the transaction. *)
  load_instruction_at_checked : Z -> bytes -> result ProgramError (bytes * bytes);
}.

Section ledger.
Context `{R : Runtime}.
Implicit Types (L : ledger) (k : bytes).

(** An address never written to is an empty account of the system program. *)
Definition empty_account : account := MkAccount 0 [] system_program_id.
Definition account_at L k : account := default empty_account (L !! k).
Definition lamports_at L k : Z := a_lamports (account_at L k).
Definition data_at L k : bytes := a_data (account_at L k).
Definition owner_at L k : bytes := a_owner (account_at L k).

Definition set_lamports L k (n : Z) : ledger :=
  <[k := MkAccount n (data_at L k) (owner_at L k)]> L.
Definition set_data L k (d : bytes) : ledger :=
  <[k := MkAccount (lamports_at L k) d (owner_at L k)]> L.

Definition transfer L (from to : bytes) (n : Z) : ledger :=
  let L := set_lamports L from (lamports_at L from - n) in
  set_lamports L to (lamports_at L to + n).

(** When the system program moves lamports out of [from]. *)
Definition can_pay L (from : AccountInfo) (n : Z) : Prop :=
  ai_is_signer from = true /\ owner_at L (ai_key from) = system_program_id /\
  data_at L (ai_key from) = [] /\ 0 <= n <= lamports_at L (ai_key from).

(** The documented behaviour of the runtime. *)
Class RuntimeLaws : Prop := {
  rent_available : exists f, Rent_minimum_balance = Some f /\ forall n, 0 < f n < 2 ^ 64;
  find_create seeds program_id k bump :
    find_program_address seeds program_id = Some (k, bump) ->
    create_program_address (seeds ++ [[bump]]) program_id = Some k /\ length k = 32%nat;
  (** A new account is created only where there is none: an address that holds lamports, data or
      another owner is refused. *)
  create_account_sound program_id L from to system n space owner seeds L' :
    invoke_create_account program_id L from to system n space owner seeds = Ok L' ->
    can_pay L from n /\ ai_key from <> ai_key to /\ account_at L (ai_key to) = empty_account /\
    L' = <[ai_key to := MkAccount n (zeros space) owner]>
           (set_lamports L (ai_key from) (lamports_at L (ai_key from) - n));
  create_account_complete program_id L from to system n space owner seeds :
    can_pay L from n -> ai_key from <> ai_key to -> account_at L (ai_key to) = empty_account ->
    ai_key system = system_program_id ->
    create_program_address seeds program_id = Some (ai_key to) -> Z.of_nat space <= 10240 ->
    exists L', invoke_create_account program_id L from to system n space owner seeds = Ok L';
  create_account_no_panic program_id L from to system n space owner seeds :
    invoke_create_account program_id L from to system n space owner seeds <> Panic;
  transfer_sound program_id L from to system n L' :
    invoke_transfer program_id L from to system n = Ok L' ->
    can_pay L from n /\ L' = transfer L (ai_key from) (ai_key to) n /\
    lamports_at L' (ai_key to) < 2 ^ 64;
  transfer_complete program_id L from to system n :
    can_pay L from n -> ai_key system = system_program_id ->
    lamports_at (transfer L (ai_key from) (ai_key to) n) (ai_key to) < 2 ^ 64 ->
    invoke_transfer program_id L from to system n = Ok (transfer L (ai_key from) (ai_key to) n);
}.

(** [ctx] is what instruction number [i] of a transaction sees at [slot]. *)
Record runs_at (ctx : Context) (slot : Z) (instructions : list (bytes * bytes)) (i : nat) : Prop := {
  runs_slot : Clock_slot ctx = Ok slot;
  runs_index : load_current_index_checked ctx instructions_sysvar_id = Ok (Z.of_nat i);
  runs_load j ix : instructions !! j = Some ix ->
    load_instruction_at_checked ctx (Z.of_nat j) instructions_sysvar_id = Ok ix;
}.

(** The precompile ran before the program: a transaction reaches the program only if the ed25519
    program accepted each of its instructions for it. *)
Definition precompiled `{Crypto} (ctx : Context) : Prop :=
  forall j key data, load_instruction_at_checked ctx j key = Ok (ed25519_program_id, data) ->
    precompile_accepts data j.
End ledger.
Arguments RuntimeLaws : clear implicits.

(** ** The ledger's equations *)

Section equations.
Context `{R : Runtime}.
Implicit Types (L : ledger) (k : bytes).

Lemma account_at_insert L k k' a :
  account_at (<[k := a]> L) k' = if decide (k = k') then a else account_at L k'.
Proof.
  unfold account_at. destruct (decide (k = k')) as [->|].
  - by rewrite lookup_insert_eq.
  - by rewrite lookup_insert_ne.
Qed.

Lemma lamports_at_insert L k a k' :
  lamports_at (<[k := a]> L) k' = if decide (k = k') then a_lamports a else lamports_at L k'.
Proof. unfold lamports_at. rewrite account_at_insert. by case_decide. Qed.
Lemma data_at_insert L k a k' :
  data_at (<[k := a]> L) k' = if decide (k = k') then a_data a else data_at L k'.
Proof. unfold data_at. rewrite account_at_insert. by case_decide. Qed.
Lemma owner_at_insert L k a k' :
  owner_at (<[k := a]> L) k' = if decide (k = k') then a_owner a else owner_at L k'.
Proof. unfold owner_at. rewrite account_at_insert. by case_decide. Qed.

Lemma lamports_at_set L k n k' :
  lamports_at (set_lamports L k n) k' = if decide (k = k') then n else lamports_at L k'.
Proof. unfold lamports_at, set_lamports. rewrite account_at_insert. by case_decide. Qed.

Lemma data_at_set_lamports L k n k' : data_at (set_lamports L k n) k' = data_at L k'.
Proof.
  unfold data_at at 1, set_lamports. rewrite account_at_insert. by case_decide; subst.
Qed.

Lemma owner_at_set_lamports L k n k' : owner_at (set_lamports L k n) k' = owner_at L k'.
Proof.
  unfold owner_at at 1, set_lamports. rewrite account_at_insert. by case_decide; subst.
Qed.

Lemma lamports_at_set_data L k d k' : lamports_at (set_data L k d) k' = lamports_at L k'.
Proof.
  unfold lamports_at at 1, set_data. rewrite account_at_insert. by case_decide; subst.
Qed.

Lemma owner_at_set_data L k d k' : owner_at (set_data L k d) k' = owner_at L k'.
Proof.
  unfold owner_at at 1, set_data. rewrite account_at_insert. by case_decide; subst.
Qed.

Lemma data_at_set L k d k' :
  data_at (set_data L k d) k' = if decide (k = k') then d else data_at L k'.
Proof. unfold data_at, set_data. rewrite account_at_insert. by case_decide. Qed.

Lemma lamports_at_transfer L from to n k :
  lamports_at (transfer L from to n) k =
  lamports_at L k - (if decide (from = k) then n else 0) + (if decide (to = k) then n else 0).
Proof.
  unfold transfer. rewrite !lamports_at_set. repeat case_decide; subst; try done; lia.
Qed.

Lemma data_at_transfer L from to n k : data_at (transfer L from to n) k = data_at L k.
Proof. unfold transfer. by rewrite !data_at_set_lamports. Qed.

Lemma owner_at_transfer L from to n k : owner_at (transfer L from to n) k = owner_at L k.
Proof. unfold transfer. by rewrite !owner_at_set_lamports. Qed.
End equations.

Create Rewrite HintDb ledger.
#[export] Hint Rewrite @lamports_at_set @data_at_set_lamports @owner_at_set_lamports
  @lamports_at_set_data @owner_at_set_data @data_at_set @lamports_at_transfer @data_at_transfer
  @owner_at_transfer : ledger.

(** ** An executable instance *)

Definition toy_can_pay (sys : bytes) (L : ledger) (from : AccountInfo) (n : Z) : bool :=
  let a := default (MkAccount 0 [] sys) (L !! ai_key from) in
  ai_is_signer from && bool_decide (a_owner a = sys) && bool_decide (a_data a = []) &&
  (0 <=? n) && (n <=? a_lamports a).

Definition toy_id (b : byte) : bytes := fill 32 b.

Definition toy_debit (L : ledger) (k : bytes) (n : Z) : ledger :=
  let a := default (MkAccount 0 [] (toy_id x00)) (L !! k) in
  <[k := MkAccount (a_lamports a - n) (a_data a) (a_owner a)]> L.

Definition toy_derive (seeds : list bytes) (program_id : bytes) : bytes :=
  toy_hash (concat seeds ++ program_id).

Definition toy_runtime : Runtime := {|
  system_program_id := toy_id x00;
  incinerator_id := toy_id x01;
  ed25519_program_id := toy_id x02;
  instructions_sysvar_id := toy_id x03;
  find_program_address seeds p := Some (toy_derive (seeds ++ [[xff]]) p, xff);
  create_program_address seeds p := Some (toy_derive seeds p);
  Rent_minimum_balance := Some (fun n => Z.min (Z.of_nat n) 100000 + 10);
  invoke_create_account p L from to system n space owner seeds :=
    if toy_can_pay (toy_id x00) L from n && bool_decide (ai_key from <> ai_key to) &&
       bool_decide (default (MkAccount 0 [] (toy_id x00)) (L !! ai_key to) =
                    MkAccount 0 [] (toy_id x00))
    then Ok (<[ai_key to := MkAccount n (zeros space) owner]> (toy_debit L (ai_key from) n))
    else Err (RuntimeError 0);
  invoke_transfer p L from to system n :=
    if toy_can_pay (toy_id x00) L from n then
      let L' := toy_debit (toy_debit L (ai_key from) n) (ai_key to) (- n) in
      if a_lamports (default (MkAccount 0 [] (toy_id x00)) (L' !! ai_key to)) <? 2 ^ 64
      then Ok L' else Err (RuntimeError 1)
    else Err (RuntimeError 0);
|}.

(** The context of instruction [i] of a transaction. *)
Definition toy_context (slot : Z) (instructions : list (bytes * bytes)) (i : nat) : Context :=
  MkContext (Ok slot)
    (fun key => if decide (key = toy_id x03) then Ok (Z.of_nat i) else Err (RuntimeError 2))
    (fun j key => if decide (key = toy_id x03)
                  then ok_or (if j <? 0 then None else instructions !! Z.to_nat j) (RuntimeError 3)
                  else Err (RuntimeError 2)).

Lemma toy_can_pay_spec L from n :
  toy_can_pay (toy_id x00) L from n = true <-> can_pay (R := toy_runtime) L from n.
Proof.
  unfold toy_can_pay, can_pay. rewrite !andb_true_iff, !bool_decide_eq_true, !Z.leb_le.
  unfold owner_at, data_at, lamports_at, account_at. cbn [system_program_id toy_runtime].
  tauto.
Qed.

Lemma toy_debit_transfer L from to n :
  toy_debit (toy_debit L from n) to (- n) = transfer (R := toy_runtime) L from to n.
Proof.
  assert (forall L k n, toy_debit L k n =
    set_lamports (R := toy_runtime) L k (lamports_at (R := toy_runtime) L k - n)) as Hd by done.
  unfold transfer. by rewrite !Hd, Z.sub_opp_r.
Qed.

#[global] Instance toy_runtime_laws : RuntimeLaws toy_runtime.
Proof.
  split.
  - eexists. split; [reflexivity|]. intros n. cbv beta. lia.
  - intros seeds p k bump [= <- <-]. split; [done|]. apply (length_le_bytes 32).
  - intros p L from to system n space owner seeds L'. cbn [invoke_create_account toy_runtime].
    destruct (_ && _) eqn:Hc; [|done]. intros [= <-].
    rewrite !andb_true_iff, !bool_decide_eq_true in Hc. destruct Hc as [[Hp Hne] He].
    by rewrite toy_can_pay_spec in Hp.
  - intros p L from to system n space owner seeds Hp Hne He Hs Hd Hsp.
    cbn [invoke_create_account toy_runtime]. apply toy_can_pay_spec in Hp. rewrite Hp.
    rewrite !bool_decide_true by done. eauto.
  - intros p L from to system n space owner seeds. cbn [invoke_create_account toy_runtime].
    by case_match.
  - intros p L from to system n L'. cbn [invoke_transfer toy_runtime].
    destruct (toy_can_pay _ _ _ _) eqn:Hp; [|done]. apply toy_can_pay_spec in Hp.
    case_match eqn:Hlt; [|done]. intros [= <-]. apply Z.ltb_lt in Hlt. split; [done|].
    by rewrite toy_debit_transfer in *.
  - intros p L from to system n Hp Hs Hlt. cbn [invoke_transfer toy_runtime].
    apply toy_can_pay_spec in Hp. rewrite Hp.
    rewrite toy_debit_transfer. apply Z.ltb_lt in Hlt. unfold lamports_at, account_at in Hlt.
    cbn [empty_account system_program_id toy_runtime] in Hlt.
    change (empty_account (R := toy_runtime)) with (MkAccount 0 [] (toy_id x00)) in Hlt.
    by rewrite Hlt.
Qed.

Lemma toy_context_runs slot instructions i :
  runs_at (R := toy_runtime) (toy_context slot instructions i) slot instructions i.
Proof.
  split; [done|by cbn|]. intros j ix Hj. cbn [load_instruction_at_checked toy_context].
  cbn [instructions_sysvar_id toy_runtime]. rewrite decide_True by done.
  rewrite (proj2 (Z.ltb_ge _ _)) by lia. by rewrite Nat2Z.id, Hj.
Qed.
