(* ===== verification/Processor.v ===== *)
(** * The slashing program: crates/program/src/processor.rs

    Every instruction handler, over the shared ledger: a handler returns the ledger it leaves or
    an error, in which case the runtime discards its writes. *)
From S2P Require Import Prelude Constants Crypto Receipt Slashing Accounts Evidence Runtime.

(** ** The handlers' monad: the ledger is threaded, an error ends the instruction *)

Definition prog (A : Type) : Type := ledger -> result ProgramError (A * ledger).

#[global] Instance prog_ret : MRet prog := fun A a L => Ok (a, L).
#[global] Instance prog_bind : MBind prog := fun A B f m L =>
  match m L with
  | Ok (a, L) => f a L
  | Err e => Err e
  | Panic => Panic
  end.

(** [?] on a [ProgramError], and on a [SlashError], which converts. *)
Definition lift {A} (r : result ProgramError A) : prog A := fun L => a ← r; Ok (a, L).
Definition lift_slash {A} (r : result SlashError A) : prog A := lift (map_err ProgramError_from r).
Definition fail_with {A} (e : SlashError) : prog A := fun L => Err (ProgramError_from e).
Definition require (b : bool) (e : SlashError) : prog unit := lift_slash (ensure b e).

(** [next_account_info]. *)
Definition next_account_info (infos : list AccountInfo)
    : result ProgramError (AccountInfo * list AccountInfo) :=
  match infos with
  | [] => Err NotEnoughAccountKeys
  | info :: infos => Ok (info, infos)
  end.

(** The handlers take the first [n] accounts they are given. *)
Fixpoint next_account_infos (n : nat) (infos : list AccountInfo)
    : result ProgramError (list AccountInfo) :=
  match n with
  | O => Ok []
  | S n =>
      next ← next_account_info infos;
      rest ← next_account_infos n next.2;
      Ok (next.1 :: rest)
  end.

Section processor.
Context `{C : Crypto} `{R : Runtime}.

(** [info.lamports()], [info.try_borrow_data()?], [info.owner]. *)
Definition get_lamports (info : AccountInfo) : prog Z := fun L => Ok (lamports_at L (ai_key info), L).
Definition borrow_data (info : AccountInfo) : prog bytes := fun L => Ok (data_at L (ai_key info), L).
Definition get_owner (info : AccountInfo) : prog bytes := fun L => Ok (owner_at L (ai_key info), L).
(** [**info.try_borrow_mut_lamports()? = n]. *)
Definition put_lamports (info : AccountInfo) (n : Z) : prog unit :=
  fun L => Ok (tt, set_lamports L (ai_key info) n).
(** [account.write(&mut info.try_borrow_mut_data()?)?]. *)
Definition write_account {T} `{Codec T} (t : T) (info : AccountInfo) : prog unit := fun L =>
  d ← map_err ProgramError_from (codec_write t (data_at L (ai_key info)));
  Ok (tt, set_data L (ai_key info) d).
(** [T::read(&info.try_borrow_data()?)?]. *)
Definition read_account {T} `{Codec T} (info : AccountInfo) : prog T :=
  d ← borrow_data info; lift_slash (codec_read d).

Definition create_account (program_id : bytes) (from to system : AccountInfo) (n : Z) (space : nat)
    (seeds : list bytes) : prog unit := fun L =>
  L ← invoke_create_account program_id L from to system n space program_id seeds; Ok (tt, L).

Definition system_transfer (program_id : bytes) (from to system : AccountInfo) (n : Z)
    : prog unit := fun L =>
  L ← invoke_transfer program_id L from to system n; Ok (tt, L).

(** [Rent::get()?.minimum_balance(len)]. *)
Definition rent_minimum (len : nat) : prog Z :=
  lift (f ← ok_or Rent_minimum_balance (RuntimeError 0); Ok (f len)).

(** ** processor.rs *)

(** [account.bond = bond; account.unbond_at = unbond_at;] *)
Definition with_bond (account : OperatorAccount) (bond unbond_at : Z) : OperatorAccount :=
  {| o_authority := o_authority account; o_signing_key := o_signing_key account; o_bond := bond;
     o_pool_staked := o_pool_staked account; o_reward_index := o_reward_index account;
     o_unbond_at := unbond_at; o_bump := o_bump account |}.

Definition owned_by (info : AccountInfo) (program_id : bytes) : prog unit :=
  owner ← get_owner info; require (bool_decide (owner = program_id)) WrongOwner.

Definition at_pda (info : AccountInfo) (seeds : list bytes) (program_id : bytes) : prog byte :=
  found ← lift (expect (find_program_address seeds program_id));
  _ ← require (bool_decide (ai_key info = found.1)) WrongPda;
  mret found.2.

Definition reserved (operator : OperatorAccount) : Z :=
  let rent := from_option (fun f => f OPERATOR_LEN) 0 Rent_minimum_balance in
  wrap64 (wrap64 (rent + o_bond operator) + o_pool_staked operator).

Definition register (program_id : bytes) (accounts : list AccountInfo) (signing_key : bytes)
    (bond : Z) : prog unit :=
  infos ← lift (next_account_infos 3 accounts);
  match infos with
  | [authority; operator_info; system] =>
      _ ← require (ai_is_signer authority) NotSigner;
      _ ← require (bool_decide (bond <> 0)) InsufficientBond;
      bump ← at_pda operator_info [OPERATOR_SEED; ai_key authority] program_id;
      rent ← rent_minimum OPERATOR_LEN;
      _ ← create_account program_id authority operator_info system (wrap64 (rent + bond))
            OPERATOR_LEN [OPERATOR_SEED; ai_key authority; [bump]];
      write_account
        {| o_authority := ai_key authority; o_signing_key := signing_key; o_bond := bond;
           o_pool_staked := 0; o_reward_index := 0; o_unbond_at := 0; o_bump := bump |}
        operator_info
  | _ => lift (Err NotEnoughAccountKeys)
  end.

Definition open_position (program_id : bytes) (owner operator_info position_info system : AccountInfo)
    : prog PositionAccount :=
  bump ← at_pda position_info [POSITION_SEED; ai_key operator_info; ai_key owner] program_id;
  position_owner ← get_owner position_info;
  if decide (position_owner = system_program_id) then
    rent ← rent_minimum POSITION_LEN;
    _ ← create_account program_id owner position_info system rent POSITION_LEN
          [POSITION_SEED; ai_key operator_info; ai_key owner; [bump]];
    let fresh :=
      {| pa_owner := ai_key owner; pa_operator := ai_key operator_info; pa_staked := 0;
         pa_entry_index := 0; pa_reward := 0; pa_bump := bump |} in
    _ ← write_account fresh position_info;
    mret fresh
  else
    _ ← owned_by position_info program_id;
    position ← read_account position_info;
    if decide (pa_owner position <> ai_key owner \/ pa_operator position <> ai_key operator_info)
    then fail_with WrongPda
    else mret position.

Definition stake (program_id : bytes) (accounts : list AccountInfo) (amount : Z) : prog unit :=
  infos ← lift (next_account_infos 4 accounts);
  match infos with
  | [owner; operator_info; position_info; system] =>
      _ ← require (ai_is_signer owner) NotSigner;
      _ ← owned_by operator_info program_id;
      account ← read_account (T := OperatorAccount) operator_info;
      stored ← open_position program_id owner operator_info position_info system;
      staked ← lift_slash (map_err (fun _ => NothingStaked)
        (Pool_stake (OperatorAccount_pool account) (PositionAccount_position stored) amount));
      _ ← system_transfer program_id owner operator_info system amount;
      _ ← write_account (OperatorAccount_set_pool account staked.1) operator_info;
      write_account (PositionAccount_set_position stored staked.2) position_info
  | _ => lift (Err NotEnoughAccountKeys)
  end.

Definition pay_out (from to : AccountInfo) (amount : Z) : prog unit :=
  have ← get_lamports from;
  left_ ← lift_slash (ok_or (checked_sub have amount) Overdraw);
  _ ← put_lamports from left_;
  has ← get_lamports to;
  sum ← lift_slash (ok_or (checked_add has amount) Overdraw);
  put_lamports to sum.

Definition pay_out_from_operator (operator_info : AccountInfo) (account : OperatorAccount)
    (to : AccountInfo) (amount : Z) : prog unit :=
  have ← get_lamports operator_info;
  remaining ← lift_slash (ok_or (checked_sub have amount) Overdraw);
  _ ← require (bool_decide (reserved account <= remaining)) Overdraw;
  pay_out operator_info to amount.

Definition unstake (program_id : bytes) (accounts : list AccountInfo) (amount : Z) : prog unit :=
  infos ← lift (next_account_infos 3 accounts);
  match infos with
  | [owner; operator_info; position_info] =>
      _ ← require (ai_is_signer owner) NotSigner;
      _ ← owned_by operator_info program_id;
      _ ← owned_by position_info program_id;
      account ← read_account (T := OperatorAccount) operator_info;
      stored ← read_account (T := PositionAccount) position_info;
      if decide (pa_owner stored <> ai_key owner \/ pa_operator stored <> ai_key operator_info)
      then fail_with WrongPda
      else
        unstaked ← lift_slash (map_err (fun _ => Overdraw)
          (Pool_unstake (OperatorAccount_pool account) (PositionAccount_position stored) amount));
        let account := OperatorAccount_set_pool account unstaked.1.1 in
        let stored := PositionAccount_set_position stored unstaked.1.2 in
        _ ← write_account account operator_info;
        _ ← write_account stored position_info;
        pay_out_from_operator operator_info account owner amount
  | _ => lift (Err NotEnoughAccountKeys)
  end.

Definition claim (program_id : bytes) (accounts : list AccountInfo) : prog unit :=
  infos ← lift (next_account_infos 3 accounts);
  match infos with
  | [owner; operator_info; position_info] =>
      _ ← require (ai_is_signer owner) NotSigner;
      _ ← owned_by operator_info program_id;
      _ ← owned_by position_info program_id;
      account ← read_account (T := OperatorAccount) operator_info;
      stored ← read_account (T := PositionAccount) position_info;
      if decide (pa_owner stored <> ai_key owner \/ pa_operator stored <> ai_key operator_info)
      then fail_with WrongPda
      else
        let claimed := Pool_claim (OperatorAccount_pool account) (PositionAccount_position stored) in
        _ ← write_account (PositionAccount_set_position stored claimed.1) position_info;
        pay_out_from_operator operator_info account owner claimed.2
  | _ => lift (Err NotEnoughAccountKeys)
  end.

(** The walk back to the precompile's instruction, down to two receipts of the registered key. *)
Definition load_evidence (ctx : Context) (account : OperatorAccount) (sysvar : AccountInfo)
    : prog Equivocation :=
  here ← lift (load_current_index_checked ctx (ai_key sysvar));
  ed25519_index ← lift_slash (ok_or (checked_sub here 1) NoEd25519Instruction);
  verifier ← lift (load_instruction_at_checked ctx ed25519_index (ai_key sysvar));
  _ ← require (bool_decide (verifier.1 = ed25519_program_id)) NoEd25519Instruction;
  pairs ← lift_slash (verified_pairs verifier.2 ed25519_index);
  match pairs with
  | [p0; p1] =>
      _ ← require (bool_decide (v_key p0 = o_signing_key account)) UnregisteredKey;
      _ ← require (bool_decide (length (v_message p0) = RECEIPT_LEN)) MalformedReceipt;
      _ ← require (bool_decide (v_key p1 = o_signing_key account)) UnregisteredKey;
      _ ← require (bool_decide (length (v_message p1) = RECEIPT_LEN)) MalformedReceipt;
      lift_slash (Equivocation_check (v_message p0) (v_message p1))
  | _ => fail_with WrongSignatureCount
  end.

Definition conviction_seeds (operator : bytes) (e : Equivocation) : list bytes :=
  let low := sha256 (Equivocation_ordered e).1 in
  let high := sha256 (Equivocation_ordered e).2 in
  [CONVICTION_SEED; operator; low; high].

Definition prove_equivocation (ctx : Context) (program_id : bytes) (accounts : list AccountInfo)
    : prog unit :=
  infos ← lift (next_account_infos 6 accounts);
  match infos with
  | [accuser; operator_info; conviction_info; burn_to; sysvar; system] =>
      _ ← require (ai_is_signer accuser) NotSigner;
      _ ← require (bool_decide (ai_key burn_to = incinerator_id)) BadInstruction;
      _ ← owned_by operator_info program_id;
      account ← read_account (T := OperatorAccount) operator_info;
      evidence ← load_evidence ctx account sysvar;
      bump ← at_pda conviction_info (conviction_seeds (ai_key operator_info) evidence) program_id;
      conviction_owner ← get_owner conviction_info;
      _ ← require (bool_decide (conviction_owner = system_program_id)) AlreadyConvicted;
      let slashed := o_bond account in
      _ ← require (bool_decide (slashed <> 0)) InsufficientBond;
      let distributed := Pool_distribute (OperatorAccount_pool account) (Split_of slashed) in
      let applied := distributed.2 in
      rent ← rent_minimum CONVICTION_LEN;
      _ ← create_account program_id accuser conviction_info system rent CONVICTION_LEN
            (conviction_seeds (ai_key operator_info) evidence ++ [[bump]]);
      wronged ← lift (wronged_signature evidence);
      wronged_hash ← lift (wronged_tx_hash evidence);
      slot ← lift (Clock_slot ctx);
      _ ← write_account
            {| cv_operator := ai_key operator_info; cv_wronged := wronged;
               cv_wronged_tx_hash := wronged_hash; cv_slashed := slashed;
               cv_owed_to_victim := victim applied; cv_slot := slot; cv_bump := bump |}
            conviction_info;
      let account :=
        OperatorAccount_set_pool (with_bond account 0 (o_unbond_at account)) distributed.1 in
      _ ← write_account account operator_info;
      _ ← pay_out operator_info burn_to (burn applied);
      pay_out operator_info conviction_info (victim applied)
  | _ => lift (Err NotEnoughAccountKeys)
  end.

Definition as_authority (program_id : bytes) (authority operator_info : AccountInfo)
    : prog OperatorAccount :=
  _ ← require (ai_is_signer authority) NotSigner;
  _ ← owned_by operator_info program_id;
  account ← read_account operator_info;
  _ ← require (bool_decide (o_authority account = ai_key authority)) NotSigner;
  mret account.

Definition begin_unbond (ctx : Context) (program_id : bytes) (accounts : list AccountInfo)
    : prog unit :=
  infos ← lift (next_account_infos 2 accounts);
  match infos with
  | [authority; operator_info] =>
      account ← as_authority program_id authority operator_info;
      _ ← require (bool_decide (o_bond account <> 0)) InsufficientBond;
      if decide (o_unbond_at account = 0) then
        slot ← lift (Clock_slot ctx);
        write_account (with_bond account (o_bond account) (wrap64 (slot + UNBOND_SLOTS))) operator_info
      else mret tt
  | _ => lift (Err NotEnoughAccountKeys)
  end.

Definition withdraw_bond (ctx : Context) (program_id : bytes) (accounts : list AccountInfo)
    : prog unit :=
  infos ← lift (next_account_infos 2 accounts);
  match infos with
  | [authority; operator_info] =>
      account ← as_authority program_id authority operator_info;
      _ ← require (bool_decide (o_unbond_at account <> 0)) BondLocked;
      slot ← lift (Clock_slot ctx);
      _ ← require (bool_decide (o_unbond_at account <= slot)) BondLocked;
      let bond := o_bond account in
      let account := with_bond account 0 0 in
      _ ← write_account account operator_info;
      pay_out_from_operator operator_info account authority bond
  | _ => lift (Err NotEnoughAccountKeys)
  end.

Definition claim_victim (program_id : bytes) (accounts : list AccountInfo) (wire : bytes)
    : prog unit :=
  infos ← lift (next_account_infos 2 accounts);
  match infos with
  | [claimant; conviction_info] =>
      _ ← require (ai_is_signer claimant) NotSigner;
      _ ← owned_by conviction_info program_id;
      conviction ← read_account (T := ConvictionAccount) conviction_info;
      _ ← require (bool_decide (sha256 wire = cv_wronged_tx_hash conviction)) MalformedReceipt;
      payer ← lift_slash (fee_payer wire);
      _ ← require (bool_decide (ai_key claimant = payer)) NotSigner;
      let owed := cv_owed_to_victim conviction in
      _ ← write_account
            {| cv_operator := cv_operator conviction; cv_wronged := cv_wronged conviction;
               cv_wronged_tx_hash := cv_wronged_tx_hash conviction;
               cv_slashed := cv_slashed conviction; cv_owed_to_victim := 0;
               cv_slot := cv_slot conviction; cv_bump := cv_bump conviction |}
            conviction_info;
      pay_out conviction_info claimant owed
  | _ => lift (Err NotEnoughAccountKeys)
  end.

Definition process (ctx : Context) (program_id : bytes) (accounts : list AccountInfo) (data : bytes)
    : prog unit :=
  instruction ← lift_slash (Instruction_read data);
  match instruction with
  | Register signing_key bond => register program_id accounts signing_key bond
  | Stake amount => stake program_id accounts amount
  | Unstake amount => unstake program_id accounts amount
  | Claim => claim program_id accounts
  | ProveEquivocation => prove_equivocation ctx program_id accounts
  | ClaimVictim wire_bytes => claim_victim program_id accounts wire_bytes
  | BeginUnbond => begin_unbond ctx program_id accounts
  | WithdrawBond => withdraw_bond ctx program_id accounts
  end.
End processor.

(** ** Inverting a handler that succeeds *)

Section inversion.
Context `{C : Crypto} `{R : Runtime}.
Implicit Types (L : ledger).

Lemma prog_bind_Ok {A B} (m : prog A) (f : A -> prog B) L b L' :
  (m ≫= f) L = Ok (b, L') <-> exists a L1, m L = Ok (a, L1) /\ f a L1 = Ok (b, L').
Proof. unfold mbind, prog_bind. destruct (m L) as [[a L1]| |]; naive_solver. Qed.

Lemma prog_ret_Ok {A} (a : A) L b L' : (mret a : prog A) L = Ok (b, L') <-> a = b /\ L' = L.
Proof. unfold mret, prog_ret. naive_solver. Qed.

Lemma lift_Ok {A} (r : result ProgramError A) L a L' : lift r L = Ok (a, L') <-> r = Ok a /\ L' = L.
Proof. unfold lift. rewrite bind_Ok. naive_solver. Qed.

Lemma lift_slash_Ok {A} (r : result SlashError A) L a L' :
  lift_slash r L = Ok (a, L') <-> r = Ok a /\ L' = L.
Proof. unfold lift_slash. by rewrite lift_Ok, map_err_Ok. Qed.

Lemma require_Ok b e L u L' : require b e L = Ok (u, L') <-> b = true /\ L' = L.
Proof. unfold require. by rewrite lift_slash_Ok, ensure_Ok. Qed.

Lemma rent_minimum_Ok len L n L' :
  rent_minimum len L = Ok (n, L') <->
  (exists f, Rent_minimum_balance = Some f /\ n = f len) /\ L' = L.
Proof. unfold rent_minimum. rewrite lift_Ok, bind_Ok. setoid_rewrite ok_or_Ok. naive_solver. Qed.

Lemma owned_by_Ok info p L u L' :
  owned_by info p L = Ok (u, L') <-> owner_at L (ai_key info) = p /\ L' = L.
Proof.
  unfold owned_by. rewrite prog_bind_Ok. setoid_rewrite require_Ok.
  setoid_rewrite bool_decide_eq_true. unfold get_owner. naive_solver.
Qed.

Lemma at_pda_Ok info seeds p L bump L' :
  at_pda info seeds p L = Ok (bump, L') <->
  find_program_address seeds p = Some (ai_key info, bump) /\ L' = L.
Proof.
  unfold at_pda. rewrite prog_bind_Ok. setoid_rewrite lift_Ok. setoid_rewrite expect_Ok.
  setoid_rewrite prog_bind_Ok. setoid_rewrite require_Ok. setoid_rewrite bool_decide_eq_true.
  setoid_rewrite prog_ret_Ok. split.
  - intros ([k b] & ? & [? ->] & ? & ? & [? ->] & ? & ->). cbn in *. by subst.
  - intros [? ->]. exists (ai_key info, bump), L. split; [done|]. by exists tt, L.
Qed.

Lemma read_account_Ok {T} `{Codec T} info L (t : T) L' :
  read_account info L = Ok (t, L') <-> codec_read (data_at L (ai_key info)) = Ok t /\ L' = L.
Proof.
  unfold read_account. rewrite prog_bind_Ok. setoid_rewrite lift_slash_Ok.
  unfold borrow_data. naive_solver.
Qed.

Lemma write_account_Ok {T} `{Codec T} (t : T) info L u L' :
  write_account t info L = Ok (u, L') <->
  exists d, codec_write t (data_at L (ai_key info)) = Ok d /\ L' = set_data L (ai_key info) d.
Proof.
  unfold write_account. rewrite bind_Ok. setoid_rewrite map_err_Ok. destruct u. naive_solver.
Qed.

Lemma create_account_Ok p from to system n space seeds L u L' :
  create_account p from to system n space seeds L = Ok (u, L') <->
  invoke_create_account p L from to system n space p seeds = Ok L'.
Proof. unfold create_account. rewrite bind_Ok. destruct u. naive_solver. Qed.

Lemma system_transfer_Ok p from to system n L u L' :
  system_transfer p from to system n L = Ok (u, L') <->
  invoke_transfer p L from to system n = Ok L'.
Proof. unfold system_transfer. rewrite bind_Ok. destruct u. naive_solver. Qed.

Lemma pay_out_Ok from to n L u L' :
  pay_out from to n L = Ok (u, L') <->
  n <= lamports_at L (ai_key from) /\ L' = transfer L (ai_key from) (ai_key to) n /\
  lamports_at L' (ai_key to) < 2 ^ 64.
Proof.
  unfold pay_out, mbind, prog_bind, get_lamports, put_lamports, lift_slash, lift, transfer.
  unfold checked_sub, checked_add. destruct u.
  case_decide; cbn; [|naive_solver lia]. case_decide; cbn.
  - split; [intros [= <-]|intros (_ & -> & _)]; [|done].
    split_conj; [done..|]. by rewrite (lamports_at_set _ (ai_key to)), decide_True by done.
  - split; [done|]. intros (_ & -> & Hlt).
    by rewrite (lamports_at_set _ (ai_key to)), decide_True in Hlt by done.
Qed.

Lemma pay_out_from_operator_Ok o account to n L u L' :
  pay_out_from_operator o account to n L = Ok (u, L') <->
  n <= lamports_at L (ai_key o) /\ reserved account <= lamports_at L (ai_key o) - n /\
  L' = transfer L (ai_key o) (ai_key to) n /\ lamports_at L' (ai_key to) < 2 ^ 64.
Proof.
  unfold pay_out_from_operator. rewrite prog_bind_Ok. unfold get_lamports, checked_sub.
  split.
  - intros (? & ? & [= <- <-] & (? & ? & (Hs & ->)%lift_slash_Ok & Hk)%prog_bind_Ok).
    apply prog_bind_Ok in Hk as (? & ? & [Hr%bool_decide_eq_true ->]%require_Ok & Hk).
    apply pay_out_Ok in Hk. case_decide; [|done]. injection Hs as <-. naive_solver.
  - intros (Hle & Hr & Hp). do 2 eexists. split; [done|]. rewrite decide_True by done.
    rewrite prog_bind_Ok. do 2 eexists. split; [done|].
    rewrite prog_bind_Ok. do 2 eexists. split; [by rewrite bool_decide_true by done|].
    by apply pay_out_Ok.
Qed.
End inversion.

(** Inverts the steps of a handler that returned [Ok], naming no hypothesis. *)
Ltac prog_step :=
  match goal with
  | H : (_ ≫= _) _ = Ok _ |- _ => apply prog_bind_Ok in H; destruct H as (? & ? & ? & H)
  | H : mret _ _ = Ok _ |- _ => apply prog_ret_Ok in H; destruct H as [? ?]
  | H : lift _ _ = Ok _ |- _ => apply lift_Ok in H; destruct H as [? ?]
  | H : lift_slash _ _ = Ok _ |- _ => apply lift_slash_Ok in H; destruct H as [? ?]
  | H : require _ _ _ = Ok _ |- _ => apply require_Ok in H; destruct H as [? ?]
  | H : rent_minimum _ _ = Ok _ |- _ => apply rent_minimum_Ok in H; destruct H as [(? & ? & ->) ?]
  | H : owned_by _ _ _ = Ok _ |- _ => apply owned_by_Ok in H; destruct H as [? ?]
  | H : at_pda _ _ _ _ = Ok _ |- _ => apply at_pda_Ok in H; destruct H as [? ?]
  | H : read_account _ _ = Ok _ |- _ => apply read_account_Ok in H; destruct H as [? ?]
  | H : write_account _ _ _ = Ok _ |- _ => apply write_account_Ok in H; destruct H as (? & ? & ?)
  | H : create_account _ _ _ _ _ _ _ _ = Ok _ |- _ => apply create_account_Ok in H
  | H : system_transfer _ _ _ _ _ _ = Ok _ |- _ => apply system_transfer_Ok in H
  | H : pay_out _ _ _ _ = Ok _ |- _ => apply pay_out_Ok in H; destruct H as (? & ? & ?)
  | H : pay_out_from_operator _ _ _ _ _ = Ok _ |- _ =>
      apply pay_out_from_operator_Ok in H; destruct H as (? & ? & ? & ?)
  | H : fail_with _ _ = Ok _ |- _ => discriminate H
  | H : get_owner _ _ = Ok _ |- _ => injection H as <- <-
  | H : ?L = ?M |- _ => is_var L; lazymatch type of L with gmap bytes account => subst L end
  | u : unit |- _ => destruct u
  | H : map_err _ _ = Ok _ |- _ => apply map_err_Ok in H
  | H : bool_decide _ = true |- _ => apply bool_decide_eq_true in H
  | H : ok_or _ _ = Ok _ |- _ => apply ok_or_Ok in H
  end.

Ltac prog_inv := repeat prog_step.

(** The accounts a handler takes, in order. *)
Lemma next_account_infos_Ok n infos l :
  next_account_infos n infos = Ok l -> length l = n /\ l = take n infos.
Proof.
  revert infos l. induction n as [|n IH]; intros infos l Hl; cbn in Hl.
  { by injection Hl as <-. }
  apply bind_Ok in Hl as ([info rest] & Hi & Hl). apply bind_Ok in Hl as (l' & Hl' & Hl).
  injection Hl as <-. destruct infos; [done|]. injection Hi as <- <-.
  apply IH in Hl' as [? ->]. cbn in *. split; [lia|done].
Qed.

(** Inverts a handler down to its accounts. *)
Ltac handler_inv H :=
  apply prog_bind_Ok in H; destruct H as (? & ? & ? & H);
  match goal with N : lift (next_account_infos _ _) _ = Ok _ |- _ =>
    apply lift_Ok in N; destruct N as [N ->]; apply next_account_infos_Ok in N; destruct N as [_ N]
  end;
  repeat match type of H with
  | context [match ?infos with [] => _ | _ :: _ => _ end] =>
      is_var infos; destruct infos as [|? infos]; try discriminate H
  end.

Section handlers.
Context `{C : Crypto} `{R : Runtime}.
Implicit Types (L : ledger).

Lemma claim_Ok p accounts L L' :
  claim p accounts L = Ok (tt, L') ->
  exists owner oi pi acc st d,
    let claimed := Pool_claim (OperatorAccount_pool acc) (PositionAccount_position st) in
    take 3 accounts = [owner; oi; pi] /\ ai_is_signer owner = true /\
    owner_at L (ai_key oi) = p /\ owner_at L (ai_key pi) = p /\
    OperatorAccount_read (data_at L (ai_key oi)) = Ok acc /\
    PositionAccount_read (data_at L (ai_key pi)) = Ok st /\
    pa_owner st = ai_key owner /\ pa_operator st = ai_key oi /\
    PositionAccount_write (PositionAccount_set_position st claimed.1) (data_at L (ai_key pi)) = Ok d /\
    let L1 := set_data L (ai_key pi) d in
    claimed.2 <= lamports_at L (ai_key oi) /\ reserved acc <= lamports_at L (ai_key oi) - claimed.2 /\
    L' = transfer L1 (ai_key oi) (ai_key owner) claimed.2 /\ lamports_at L' (ai_key owner) < 2 ^ 64.
Proof.
  intros H. unfold claim in H. handler_inv H. prog_inv.
  case_decide as Hd; [done|]. apply Decidable.not_or in Hd as [?%dec_stable ?%dec_stable]. prog_inv.
  rewrite lamports_at_set_data in *. repeat eexists; done.
Qed.

Lemma unstake_Ok p accounts amount L L' :
  unstake p accounts amount L = Ok (tt, L') ->
  exists owner oi pi acc st pool' pos' paid do dp,
    take 3 accounts = [owner; oi; pi] /\ ai_is_signer owner = true /\
    owner_at L (ai_key oi) = p /\ owner_at L (ai_key pi) = p /\
    OperatorAccount_read (data_at L (ai_key oi)) = Ok acc /\
    PositionAccount_read (data_at L (ai_key pi)) = Ok st /\
    pa_owner st = ai_key owner /\ pa_operator st = ai_key oi /\
    Pool_unstake (OperatorAccount_pool acc) (PositionAccount_position st) amount
      = Ok (pool', pos', paid) /\
    let acc' := OperatorAccount_set_pool acc pool' in
    OperatorAccount_write acc' (data_at L (ai_key oi)) = Ok do /\
    let L1 := set_data L (ai_key oi) do in
    PositionAccount_write (PositionAccount_set_position st pos') (data_at L1 (ai_key pi)) = Ok dp /\
    let L2 := set_data L1 (ai_key pi) dp in
    amount <= lamports_at L (ai_key oi) /\ reserved acc' <= lamports_at L (ai_key oi) - amount /\
    L' = transfer L2 (ai_key oi) (ai_key owner) amount /\ lamports_at L' (ai_key owner) < 2 ^ 64.
Proof.
  intros H. unfold unstake in H. handler_inv H. prog_inv.
  case_decide as Hd; [done|]. apply Decidable.not_or in Hd as [?%dec_stable ?%dec_stable]. prog_inv.
  match goal with x : Pool * Position * Z |- _ => destruct x as [[pool' pos'] paid] end.
  rewrite !lamports_at_set_data in *. cbn [fst snd] in *. repeat eexists; done.
Qed.

(** Opening a position either creates it or finds the caller's. *)
Lemma open_position_Ok p owner oi pi system L st L' :
  open_position p owner oi pi system L = Ok (st, L') ->
  pa_owner st = ai_key owner /\ pa_operator st = ai_key oi /\
  ((exists f bump L1 d,
      st = MkPositionAccount (ai_key owner) (ai_key oi) 0 0 0 bump /\
      Rent_minimum_balance = Some f /\
      owner_at L (ai_key pi) = system_program_id /\
      invoke_create_account p L owner pi system (f POSITION_LEN) POSITION_LEN p
        [POSITION_SEED; ai_key oi; ai_key owner; [bump]] = Ok L1 /\
      PositionAccount_write st (data_at L1 (ai_key pi)) = Ok d /\ L' = set_data L1 (ai_key pi) d) \/
   (owner_at L (ai_key pi) = p /\ PositionAccount_read (data_at L (ai_key pi)) = Ok st /\ L' = L)).
Proof.
  intros H. unfold open_position in H. prog_inv. case_decide.
  - prog_inv. subst st. split_conj; [done..|]. left. subst. repeat eexists; done.
  - prog_inv. case_decide as Hd; [done|].
    apply Decidable.not_or in Hd as [?%dec_stable ?%dec_stable]. prog_inv. subst st.
    split_conj; [done..|]. by right.
Qed.

Lemma stake_Ok p accounts amount L L' :
  stake p accounts amount L = Ok (tt, L') ->
  exists owner oi pi system acc st L1 pool' pos' L2 do dp,
    take 4 accounts = [owner; oi; pi; system] /\ ai_is_signer owner = true /\
    owner_at L (ai_key oi) = p /\ OperatorAccount_read (data_at L (ai_key oi)) = Ok acc /\
    open_position p owner oi pi system L = Ok (st, L1) /\
    Pool_stake (OperatorAccount_pool acc) (PositionAccount_position st) amount = Ok (pool', pos') /\
    invoke_transfer p L1 owner oi system amount = Ok L2 /\
    OperatorAccount_write (OperatorAccount_set_pool acc pool') (data_at L2 (ai_key oi)) = Ok do /\
    let L3 := set_data L2 (ai_key oi) do in
    PositionAccount_write (PositionAccount_set_position st pos') (data_at L3 (ai_key pi)) = Ok dp /\
    L' = set_data L3 (ai_key pi) dp.
Proof.
  intros H. unfold stake in H. handler_inv H. prog_inv.
  match goal with x : Pool * Position |- _ => destruct x as [pool' pos'] end.
  cbn [fst snd] in *. repeat eexists; done.
Qed.

Lemma register_Ok p accounts key bond L L' :
  register p accounts key bond L = Ok (tt, L') ->
  exists authority oi system f bump L1 d,
    take 3 accounts = [authority; oi; system] /\ ai_is_signer authority = true /\ bond <> 0 /\
    find_program_address [OPERATOR_SEED; ai_key authority] p = Some (ai_key oi, bump) /\
    Rent_minimum_balance = Some f /\
    invoke_create_account p L authority oi system (wrap64 (f OPERATOR_LEN + bond)) OPERATOR_LEN p
      [OPERATOR_SEED; ai_key authority; [bump]] = Ok L1 /\
    OperatorAccount_write (MkOperator (ai_key authority) key bond 0 0 0 bump)
      (data_at L1 (ai_key oi)) = Ok d /\ L' = set_data L1 (ai_key oi) d.
Proof.
  intros H. unfold register in H. handler_inv H. prog_inv. subst. repeat eexists; done.
Qed.

Lemma load_evidence_Ok ctx acc sysvar L e L' :
  load_evidence ctx acc sysvar L = Ok (e, L') ->
  L' = L /\ exists here data p0 p1,
    load_current_index_checked ctx (ai_key sysvar) = Ok here /\ 1 <= here /\
    load_instruction_at_checked ctx (here - 1) (ai_key sysvar) = Ok (ed25519_program_id, data) /\
    verified_pairs data (here - 1) = Ok [p0; p1] /\
    v_key p0 = o_signing_key acc /\ v_key p1 = o_signing_key acc /\
    Equivocation_check (v_message p0) (v_message p1) = Ok e.
Proof.
  intros H. unfold load_evidence in H. prog_inv.
  match goal with H : checked_sub _ _ = Some _ |- _ => apply checked_sub_Some in H as [? ->] end.
  match goal with x : bytes * bytes |- _ => destruct x as [pid data] end.
  match goal with x : list Verified |- _ => destruct x as [|p0 [|p1 [|]]]; try discriminate H end.
  prog_inv. cbn [fst snd] in *. subst pid. split; [done|]. repeat eexists; done.
Qed.

Lemma prove_equivocation_Ok ctx p accounts L L' :
  prove_equivocation ctx p accounts L = Ok (tt, L') ->
  exists accuser oi ci burn_to sysvar system acc e bump f L1 wronged hash slot dc do,
    let distributed := Pool_distribute (OperatorAccount_pool acc) (Split_of (o_bond acc)) in
    let applied := distributed.2 in
    take 6 accounts = [accuser; oi; ci; burn_to; sysvar; system] /\ ai_is_signer accuser = true /\
    ai_key burn_to = incinerator_id /\ owner_at L (ai_key oi) = p /\
    OperatorAccount_read (data_at L (ai_key oi)) = Ok acc /\
    load_evidence ctx acc sysvar L = Ok (e, L) /\
    find_program_address (conviction_seeds (ai_key oi) e) p = Some (ai_key ci, bump) /\
    owner_at L (ai_key ci) = system_program_id /\ o_bond acc <> 0 /\
    Rent_minimum_balance = Some f /\
    invoke_create_account p L accuser ci system (f CONVICTION_LEN) CONVICTION_LEN p
      (conviction_seeds (ai_key oi) e ++ [[bump]]) = Ok L1 /\
    wronged_signature (E := ProgramError) e = Ok wronged /\
    wronged_tx_hash (E := ProgramError) e = Ok hash /\ Clock_slot ctx = Ok slot /\
    ConvictionAccount_write
      (MkConviction (ai_key oi) wronged hash (o_bond acc) (victim applied) slot bump)
      (data_at L1 (ai_key ci)) = Ok dc /\
    let L2 := set_data L1 (ai_key ci) dc in
    OperatorAccount_write
      (OperatorAccount_set_pool (with_bond acc 0 (o_unbond_at acc)) distributed.1)
      (data_at L2 (ai_key oi)) = Ok do /\
    let L3 := set_data L2 (ai_key oi) do in
    burn applied <= lamports_at L3 (ai_key oi) /\
    let L4 := transfer L3 (ai_key oi) (ai_key burn_to) (burn applied) in
    lamports_at L4 (ai_key burn_to) < 2 ^ 64 /\ victim applied <= lamports_at L4 (ai_key oi) /\
    L' = transfer L4 (ai_key oi) (ai_key ci) (victim applied) /\
    lamports_at L' (ai_key ci) < 2 ^ 64.
Proof.
  intros H. unfold prove_equivocation in H. handler_inv H. prog_inv.
  match goal with E : load_evidence _ _ _ _ = Ok (_, ?L2) |- _ =>
    pose proof E as E'; apply load_evidence_Ok in E' as [-> _] end.
  repeat eexists; eassumption || done.
Qed.

Lemma as_authority_Ok p authority oi L acc L' :
  as_authority p authority oi L = Ok (acc, L') ->
  L' = L /\ ai_is_signer authority = true /\ owner_at L (ai_key oi) = p /\
  OperatorAccount_read (data_at L (ai_key oi)) = Ok acc /\ o_authority acc = ai_key authority.
Proof. intros H. unfold as_authority in H. prog_inv. by subst. Qed.

Lemma begin_unbond_Ok ctx p accounts L L' :
  begin_unbond ctx p accounts L = Ok (tt, L') ->
  exists authority oi acc,
    take 2 accounts = [authority; oi] /\ ai_is_signer authority = true /\
    owner_at L (ai_key oi) = p /\ OperatorAccount_read (data_at L (ai_key oi)) = Ok acc /\
    o_authority acc = ai_key authority /\ o_bond acc <> 0 /\
    ((o_unbond_at acc <> 0 /\ L' = L) \/
     (o_unbond_at acc = 0 /\ exists slot d, Clock_slot ctx = Ok slot /\
        OperatorAccount_write (with_bond acc (o_bond acc) (wrap64 (slot + UNBOND_SLOTS)))
          (data_at L (ai_key oi)) = Ok d /\ L' = set_data L (ai_key oi) d)).
Proof.
  intros H. unfold begin_unbond in H. handler_inv H. prog_inv.
  match goal with E : as_authority _ _ _ _ = Ok _ |- _ =>
    apply as_authority_Ok in E as (-> & ? & ? & ? & ?) end.
  case_decide; prog_inv; repeat eexists; try done; [right|left]; eauto 10.
Qed.

Lemma withdraw_bond_Ok ctx p accounts L L' :
  withdraw_bond ctx p accounts L = Ok (tt, L') ->
  exists authority oi acc slot d,
    take 2 accounts = [authority; oi] /\ ai_is_signer authority = true /\
    owner_at L (ai_key oi) = p /\ OperatorAccount_read (data_at L (ai_key oi)) = Ok acc /\
    o_authority acc = ai_key authority /\ o_unbond_at acc <> 0 /\ Clock_slot ctx = Ok slot /\
    o_unbond_at acc <= slot /\
    OperatorAccount_write (with_bond acc 0 0) (data_at L (ai_key oi)) = Ok d /\
    let L1 := set_data L (ai_key oi) d in
    o_bond acc <= lamports_at L (ai_key oi) /\
    reserved (with_bond acc 0 0) <= lamports_at L (ai_key oi) - o_bond acc /\
    L' = transfer L1 (ai_key oi) (ai_key authority) (o_bond acc) /\
    lamports_at L' (ai_key authority) < 2 ^ 64.
Proof.
  intros H. unfold withdraw_bond in H. handler_inv H. prog_inv.
  match goal with E : as_authority _ _ _ _ = Ok _ |- _ =>
    apply as_authority_Ok in E as (-> & ? & ? & ? & ?) end.
  rewrite !lamports_at_set_data in *. repeat eexists; done.
Qed.

Lemma claim_victim_Ok p accounts wire L L' :
  claim_victim p accounts wire L = Ok (tt, L') ->
  exists claimant ci cv d,
    take 2 accounts = [claimant; ci] /\ ai_is_signer claimant = true /\
    owner_at L (ai_key ci) = p /\ ConvictionAccount_read (data_at L (ai_key ci)) = Ok cv /\
    sha256 wire = cv_wronged_tx_hash cv /\ fee_payer wire = Ok (ai_key claimant) /\
    ConvictionAccount_write
      (MkConviction (cv_operator cv) (cv_wronged cv) (cv_wronged_tx_hash cv) (cv_slashed cv) 0
         (cv_slot cv) (cv_bump cv)) (data_at L (ai_key ci)) = Ok d /\
    cv_owed_to_victim cv <= lamports_at L (ai_key ci) /\
    L' = transfer (set_data L (ai_key ci) d) (ai_key ci) (ai_key claimant) (cv_owed_to_victim cv) /\
    lamports_at L' (ai_key claimant) < 2 ^ 64.
Proof.
  intros H. unfold claim_victim in H. handler_inv H. prog_inv.
  match goal with H : ai_key _ = ?payer |- _ => is_var payer; subst payer end.
  rewrite !lamports_at_set_data in *. repeat eexists; done.
Qed.
End handlers.

Lemma process_prove `{C : Crypto} `{R : Runtime} ctx p accounts :
  process ctx p accounts (Instruction_write ProveEquivocation) = prove_equivocation ctx p accounts.
Proof. done. Qed.
