(* ===== verification/Solvency.v ===== *)
(** * The slashing program keeps its accounts solvent

    What the program's own accounts say is abstracted into [views], the data of every account it
    owns, next to the balance of every address.  [solvent] is the invariant: each operator account
    holds its rent, its bond, every stake and every reward still owed, and each conviction holds
    what it owes its victim.  The second half shows that every instruction preserves it, in any
    interleaving with the rest of the chain. *)
From S2P Require Import Prelude Constants Crypto Receipt Slashing Accounts Evidence Runtime Processor.

Abbreviation store := (gmap bytes bytes) (only parsing).

(** ** The abstract state *)

Section views.
Context `{R : Runtime} (program_id : bytes).
Implicit Types (L : ledger) (k : bytes).

Definition views L : store :=
  omap (fun a => if decide (a_owner a = program_id) then Some (a_data a) else None) L.

Hypothesis not_system : program_id <> system_program_id.

Lemma views_Some L k d :
  views L !! k = Some d <-> owner_at L k = program_id /\ data_at L k = d.
Proof.
  unfold views, owner_at, data_at, account_at. rewrite lookup_omap.
  destruct (L !! k) as [a|]; cbn; [case_decide; naive_solver|].
  split; [done|]. intros [Heq _]. by destruct not_system.
Qed.

Lemma views_None L k : views L !! k = None <-> owner_at L k <> program_id.
Proof.
  split.
  - intros Hn Ho. assert (views L !! k = Some (data_at L k)) by by apply views_Some. congruence.
  - intros Ho. destruct (views L !! k) as [d|] eqn:Hd; [|done].
    apply views_Some in Hd as [? _]. done.
Qed.

(** Two ledgers with the same owners and data at every address have the same views. *)
Lemma views_ext L L' :
  (forall k, owner_at L k = owner_at L' k) -> (forall k, data_at L k = data_at L' k) ->
  views L = views L'.
Proof.
  intros Ho Hd. apply map_eq. intros k. apply option_eq. intros d.
  by rewrite !views_Some, Ho, Hd.
Qed.

Lemma views_set_lamports L k n : views (set_lamports L k n) = views L.
Proof. apply views_ext; intros; by autorewrite with ledger. Qed.

Lemma views_transfer L from to n : views (transfer L from to n) = views L.
Proof. apply views_ext; intros; by autorewrite with ledger. Qed.

Lemma views_set_data L k d :
  owner_at L k = program_id -> views (set_data L k d) = <[k := d]> (views L).
Proof.
  intros Hk. apply map_eq. intros k'. apply option_eq. intros d'.
  rewrite views_Some, lookup_insert_Some, views_Some. autorewrite with ledger.
  case_decide; subst; naive_solver.
Qed.

(** A created account was not one of the program's, and is one with zeroed data. *)
Lemma views_create `{!RuntimeLaws R} L from to system n space seeds L' :
  invoke_create_account program_id L from to system n space program_id seeds = Ok L' ->
  views L !! ai_key to = None /\ views L' = <[ai_key to := zeros space]> (views L) /\
  lamports_at L (ai_key to) = 0 /\ ai_key from <> ai_key to /\
  views L !! ai_key from = None /\
  (forall k, lamports_at L' k = if decide (ai_key to = k) then n else
     if decide (ai_key from = k) then lamports_at L k - n else lamports_at L k) /\
  0 <= n <= lamports_at L (ai_key from) /\
  owner_at L' (ai_key to) = program_id /\ data_at L' (ai_key to) = zeros space.
Proof.
  intros ((_ & Ho & _ & [? ?]) & Hne & He & ->)%create_account_sound.
  assert (views L !! ai_key from = None) as Hf by (apply views_None; congruence).
  assert (views L !! ai_key to = None) as Ht.
  { apply views_None. unfold owner_at. rewrite He. cbn. congruence. }
  split_conj; try done.
  - apply map_eq. intros k. apply option_eq. intros d.
    rewrite views_Some, lookup_insert_Some, views_Some, owner_at_insert, data_at_insert.
    autorewrite with ledger. case_decide; subst; cbn; naive_solver.
  - unfold lamports_at. by rewrite He.
  - intros k. rewrite lamports_at_insert. autorewrite with ledger.
    repeat case_decide; by subst.
  - by rewrite owner_at_insert, decide_True.
  - by rewrite data_at_insert, decide_True.
Qed.

Lemma views_system_transfer `{!RuntimeLaws R} L from to system n L' :
  invoke_transfer program_id L from to system n = Ok L' ->
  views L' = views L /\ views L !! ai_key from = None /\ 0 <= n /\
  lamports_at L' (ai_key to) < 2 ^ 64 /\ n <= lamports_at L (ai_key from) /\
  L' = transfer L (ai_key from) (ai_key to) n.
Proof.
  intros ((_ & Ho & _ & Hn) & -> & Hlt)%transfer_sound.
  split_conj; try done; [by rewrite views_transfer| |lia|lia]. apply views_None. congruence.
Qed.
End views.

(** ** What the program's accounts say *)

Definition operator_in (V : store) (o : bytes) : option OperatorAccount :=
  V !! o ≫= fun d => ok (OperatorAccount_read d).
Definition position_in (V : store) (k : bytes) : option PositionAccount :=
  V !! k ≫= fun d => ok (PositionAccount_read d).
Definition conviction_in (V : store) (k : bytes) : option ConvictionAccount :=
  V !! k ≫= fun d => ok (ConvictionAccount_read d).

(** The positions staked on operator [o], by address. *)
Definition position_on (o : bytes) (d : bytes) : option Position :=
  p ← ok (PositionAccount_read d);
  if decide (pa_operator p = o) then Some (PositionAccount_position p) else None.
Definition positions_in (V : store) (o : bytes) : gmap bytes Position := omap (position_on o) V.

Lemma ok_Some {E A} (r : result E A) a : ok r = Some a <-> r = Ok a.
Proof. destruct r; naive_solver. Qed.

Lemma positions_in_Some V o k q :
  positions_in V o !! k = Some q <->
  exists p, position_in V k = Some p /\ pa_operator p = o /\ PositionAccount_position p = q.
Proof.
  unfold positions_in, position_in, position_on. rewrite lookup_omap.
  destruct (V !! k) as [d|]; cbn; [|naive_solver].
  destruct (PositionAccount_read d) as [p| |]; cbn; [|naive_solver..].
  case_decide; naive_solver.
Qed.

Section kinds.
Implicit Types (V : store) (k o d : bytes).

Lemma operator_in_Some V o acc :
  operator_in V o = Some acc <-> exists d, V !! o = Some d /\ OperatorAccount_read d = Ok acc.
Proof. unfold operator_in. rewrite bind_Some. setoid_rewrite ok_Some. done. Qed.
Lemma position_in_Some V k p :
  position_in V k = Some p <-> exists d, V !! k = Some d /\ PositionAccount_read d = Ok p.
Proof. unfold position_in. rewrite bind_Some. setoid_rewrite ok_Some. done. Qed.
Lemma conviction_in_Some V k c :
  conviction_in V k = Some c <-> exists d, V !! k = Some d /\ ConvictionAccount_read d = Ok c.
Proof. unfold conviction_in. rewrite bind_Some. setoid_rewrite ok_Some. done. Qed.

(** An account is of one kind. *)
Lemma operator_not_position V k acc p :
  operator_in V k = Some acc -> position_in V k = Some p -> False.
Proof.
  intros (d & Hd & Ho)%operator_in_Some (d' & Hd' & Hp)%position_in_Some.
  rewrite Hd in Hd'. injection Hd' as <-.
  by eapply (read_disjoint (C := operator_codec) (D := position_codec)).
Qed.
Lemma operator_not_conviction V k acc c :
  operator_in V k = Some acc -> conviction_in V k = Some c -> False.
Proof.
  intros (d & Hd & Ho)%operator_in_Some (d' & Hd' & Hc)%conviction_in_Some.
  rewrite Hd in Hd'. injection Hd' as <-.
  by eapply (read_disjoint (C := operator_codec) (D := conviction_codec)).
Qed.
Lemma position_not_conviction V k p c :
  position_in V k = Some p -> conviction_in V k = Some c -> False.
Proof.
  intros (d & Hd & Hp)%position_in_Some (d' & Hd' & Hc)%conviction_in_Some.
  rewrite Hd in Hd'. injection Hd' as <-.
  by eapply (read_disjoint (C := position_codec) (D := conviction_codec)).
Qed.

(** The kinds after one account's data changed. *)
Lemma operator_in_insert V k d o :
  operator_in (<[k := d]> V) o = if decide (k = o) then ok (OperatorAccount_read d) else operator_in V o.
Proof.
  unfold operator_in. case_decide; subst; [by rewrite lookup_insert_eq|by rewrite lookup_insert_ne].
Qed.
Lemma position_in_insert V k d o :
  position_in (<[k := d]> V) o = if decide (k = o) then ok (PositionAccount_read d) else position_in V o.
Proof.
  unfold position_in. case_decide; subst; [by rewrite lookup_insert_eq|by rewrite lookup_insert_ne].
Qed.
Lemma conviction_in_insert V k d o :
  conviction_in (<[k := d]> V) o =
  if decide (k = o) then ok (ConvictionAccount_read d) else conviction_in V o.
Proof.
  unfold conviction_in. case_decide; subst; [by rewrite lookup_insert_eq|by rewrite lookup_insert_ne].
Qed.

(** Operator data reads as nothing else, and so on. *)
Lemma read_operator_only d acc :
  OperatorAccount_read d = Ok acc ->
  ok (PositionAccount_read d) = None /\ ok (ConvictionAccount_read d) = None.
Proof.
  intros H. pose proof (read_other (C := operator_codec) (D := position_codec) d acc) as H1.
  pose proof (read_other (C := operator_codec) (D := conviction_codec) d acc) as H2.
  cbn [codec_read position_codec conviction_codec operator_codec] in H1, H2.
  by rewrite H1, H2 by done.
Qed.
Lemma read_position_only d p :
  PositionAccount_read d = Ok p ->
  ok (OperatorAccount_read d) = None /\ ok (ConvictionAccount_read d) = None.
Proof.
  intros H. pose proof (read_other (C := position_codec) (D := operator_codec) d p) as H1.
  pose proof (read_other (C := position_codec) (D := conviction_codec) d p) as H2.
  cbn [codec_read position_codec conviction_codec operator_codec] in H1, H2.
  by rewrite H1, H2 by done.
Qed.
Lemma read_conviction_only d c :
  ConvictionAccount_read d = Ok c ->
  ok (OperatorAccount_read d) = None /\ ok (PositionAccount_read d) = None.
Proof.
  intros H. pose proof (read_other (C := conviction_codec) (D := operator_codec) d c) as H1.
  pose proof (read_other (C := conviction_codec) (D := position_codec) d c) as H2.
  cbn [codec_read position_codec conviction_codec operator_codec] in H1, H2.
  by rewrite H1, H2 by done.
Qed.

(** The positions depend on the position accounts alone. *)
Lemma positions_in_ext V V' o :
  (forall k, position_in V k = position_in V' k) -> positions_in V o = positions_in V' o.
Proof.
  intros Heq. apply map_eq. intros k. apply option_eq. intros q.
  rewrite !positions_in_Some. by setoid_rewrite Heq.
Qed.

Lemma positions_in_insert V k d p o :
  PositionAccount_read d = Ok p -> (forall q, position_in V k = Some q -> pa_operator q = pa_operator p) ->
  positions_in (<[k := d]> V) o =
  if decide (pa_operator p = o) then <[k := PositionAccount_position p]> (positions_in V o)
  else positions_in V o.
Proof.
  intros Hp Hold. apply map_eq. intros k'. apply option_eq. intros q.
  rewrite positions_in_Some, position_in_insert. destruct (decide (k = k')) as [<-|Hne].
  - rewrite Hp. cbn. case_decide as Ho.
    + rewrite lookup_insert_eq. naive_solver.
    + rewrite positions_in_Some. split.
      * intros (p' & [= <-] & ? & _). done.
      * intros (p' & Hp' & ? & _). apply Hold in Hp'. congruence.
  - rewrite <- positions_in_Some. case_decide; [by rewrite lookup_insert_ne|done].
Qed.
End kinds.

(** ** The invariant *)

Section invariant.
Context `{R : Runtime} `{!RuntimeLaws R} {sound : bytes -> Prop}.
Implicit Types (V : store) (lam : bytes -> Z) (ps : gmap bytes Position) (acc : OperatorAccount).

Definition rent (len : nat) : Z := from_option (fun f => f len) 0 Rent_minimum_balance.

Lemma rent_range len : 0 < rent len < 2 ^ 64.
Proof. unfold rent. destruct rent_available as (f & -> & Hf). apply Hf. Qed.

Lemma rent_Some f len : Rent_minimum_balance = Some f -> f len = rent len.
Proof. unfold rent. by intros ->. Qed.

(** One operator account with balance [n] and the positions [ps] staked on it.  A pool is slashed
    at most once: as long as the bond stands, nothing was distributed. *)
Definition operator_solvent ps (n : Z) acc : Prop :=
  exists d c, covered (OperatorAccount_pool acc) ps d c /\ (0 < o_bond acc -> d = 0) /\
    rent OPERATOR_LEN + o_bond acc + o_pool_staked acc + (d - c) <= n.

(** [sound] says which operator addresses the invariant speaks of: [register] adds the rent to the
    bond modulo 2^64, and an operator whose sum wrapped around never held its bond. *)
Record solvent V lam : Prop := {
  sol_lam k : is_u64 (lam k);
  sol_operator o acc : operator_in V o = Some acc -> sound o ->
    operator_solvent (positions_in V o) (lam o) acc;
  sol_position k p : position_in V k = Some p ->
    0 < lam k /\ (sound (pa_operator p) -> is_Some (operator_in V (pa_operator p)));
  sol_conviction k c : conviction_in V k = Some c -> rent CONVICTION_LEN + cv_owed_to_victim c <= lam k;
}.

(** ... for every operator except [x]. *)
Record solvent_but (x : bytes) V lam : Prop := {
  but_lam k : is_u64 (lam k);
  but_operator o acc : operator_in V o = Some acc -> sound o -> o <> x ->
    operator_solvent (positions_in V o) (lam o) acc;
  but_position k p : position_in V k = Some p ->
    0 < lam k /\ (sound (pa_operator p) -> is_Some (operator_in V (pa_operator p)));
  but_conviction k c : conviction_in V k = Some c -> rent CONVICTION_LEN + cv_owed_to_victim c <= lam k;
}.

Lemma solvent_weaken x V lam : solvent V lam -> solvent_but x V lam.
Proof. intros [? ? ? ?]. split; eauto. Qed.

Lemma solvent_restore x V lam :
  solvent_but x V lam ->
  (forall acc, operator_in V x = Some acc -> sound x -> operator_solvent (positions_in V x) (lam x) acc) ->
  solvent V lam.
Proof.
  intros [? Hop ? ?] Hx. split; [done| |done..].
  intros o acc Ho. destruct (decide (o = x)) as [->|]; eauto.
Qed.

(** ** One operator *)

Lemma operator_solvent_mono ps n m acc :
  operator_solvent ps n acc -> n <= m -> operator_solvent ps m acc.
Proof. intros (d & c & ? & ? & ?) ?. exists d, c. split_conj; [done..|lia]. Qed.

(** Everything owed is counted, so nothing of it can have wrapped around. *)
Lemma operator_solvent_facts ps n acc :
  operator_solvent ps n acc -> codec_wf acc ->
  0 <= o_bond acc /\ 0 <= o_pool_staked acc /\
  rent OPERATOR_LEN + o_bond acc + o_pool_staked acc <= n /\
  (forall k q, ps !! k = Some q ->
     p_staked q <= o_pool_staked acc /\
     rent OPERATOR_LEN + o_bond acc + o_pool_staked acc + claimable q (o_reward_index acc) <= n).
Proof.
  intros (d & c & Hc & _ & Hn) (_ & _ & [? _] & [? _] & _).
  pose proof (claimable_sum_le _ _ _ _ Hc) as Hsum.
  assert (0 <= msum (fun p => claimable p (o_reward_index acc)) ps) as Hpos.
  { apply msum_nonneg. intros k q Hq. by destruct (claimable_exact _ _ _ _ _ _ Hc Hq) as [_ [? _]]. }
  cbn [OperatorAccount_pool reward_index] in *. split_conj; [done|done|lia|].
  intros k q Hq. destruct (claimable_exact _ _ _ _ _ _ Hc Hq) as [_ Hq'].
  cbn [OperatorAccount_pool reward_index] in Hq'. split; [|lia].
  pose proof (cov_staked Hc) as Hst. cbn [OperatorAccount_pool staked] in Hst. rewrite Hst.
  apply (msum_lookup_le p_staked ps k); [|done]. intros k' q' Hq''.
  by destruct (cov_positions Hc k' q' Hq'') as [[[? _] _] _].
Qed.

Lemma operator_solvent_open ps n acc k :
  operator_solvent ps n acc -> ps !! k = None -> operator_solvent (<[k := Position_default]> ps) n acc.
Proof. intros (d & c & ? & ? & ?) Hk. exists d, c. split_conj; [by apply covered_open|done..]. Qed.

Lemma operator_solvent_stake ps n acc k q amount P' q' :
  operator_solvent ps n acc -> codec_wf acc -> ps !! k = Some q -> 0 <= amount -> n + amount < 2 ^ 64 ->
  Pool_stake (OperatorAccount_pool acc) q amount = Ok (P', q') ->
  operator_solvent (<[k := q']> ps) (n + amount) (OperatorAccount_set_pool acc P').
Proof.
  intros Hs Hwf Hk Ha Hlt Hst. destruct (operator_solvent_facts _ _ _ Hs Hwf) as (? & ? & ? & _).
  pose proof (rent_range OPERATOR_LEN). destruct Hs as (d & c & Hc & Hd & Hn). exists d, c.
  destruct (stake_covered _ _ _ _ _ _ amount _ _ Hc Hk Ha ltac:(cbn; lia) Hst) as (Hc' & Hp & _).
  destruct P' as [s' i']. cbn in *. split_conj; [done..|]. lia.
Qed.

Lemma operator_solvent_unstake ps n acc k q amount P' q' paid :
  operator_solvent ps n acc -> ps !! k = Some q -> 0 <= amount ->
  Pool_unstake (OperatorAccount_pool acc) q amount = Ok (P', q', paid) ->
  operator_solvent (<[k := q']> ps) (n - amount) (OperatorAccount_set_pool acc P').
Proof.
  intros (d & c & Hc & Hd & Hn) Hk Ha Hst. exists d, c.
  destruct (unstake_covered _ _ _ _ _ _ amount _ _ _ Hc Hk Ha Hst) as (Hc' & Hp & _).
  destruct P' as [s' i']. cbn in *. split_conj; [done..|]. lia.
Qed.

Lemma operator_solvent_claim ps n acc k q q' earned :
  operator_solvent ps n acc -> ps !! k = Some q ->
  Pool_claim (OperatorAccount_pool acc) q = (q', earned) ->
  operator_solvent (<[k := q']> ps) (n - earned) acc.
Proof.
  intros (d & c & Hc & Hd & Hn) Hk Hst. exists d, (c + earned).
  destruct (claim_covered _ _ _ _ _ _ _ _ Hc Hk Hst) as (Hc' & _). split_conj; [done..|]. lia.
Qed.

Lemma operator_solvent_bond ps n acc bond unbond_at :
  operator_solvent ps n acc -> 0 <= bond <= o_bond acc ->
  operator_solvent ps (n - (o_bond acc - bond)) (with_bond acc bond unbond_at).
Proof.
  intros (d & c & Hc & Hd & Hn) Hb. exists d, c. unfold with_bond. cbn in *.
  split_conj; [done|intros; apply Hd; lia|lia].
Qed.

(** Slashing: the burned and the victim's share leave, the pool's share is owed to the stakers. *)
Lemma operator_solvent_slash ps n acc P' s unbond_at :
  operator_solvent ps n acc -> codec_wf acc -> 0 < o_bond acc ->
  Pool_distribute (OperatorAccount_pool acc) (Split_of (o_bond acc)) = (P', s) ->
  operator_solvent ps (n - burn s - victim s)
    (OperatorAccount_set_pool (with_bond acc 0 unbond_at) P').
Proof.
  intros (d & c & Hc & Hd & Hn) (_ & _ & Hb & _) Hpos Hdist. specialize (Hd Hpos). subst d.
  pose proof (Pool_distribute_split (OperatorAccount_pool acc) (o_bond acc) Hb) as Hs.
  pose proof (Split_of_bounds (o_bond acc) Hb) as Hs0. cbv zeta in Hs, Hs0.
  destruct (distribute_covered _ _ _ _ (o_bond acc) P' s Hc Hb) as (Hc' & Hst & _);
    [unfold is_u64 in Hb; lia|done|].
  rewrite Hdist in Hs. exists (0 + pool s), c. destruct P' as [s' i']. cbn in *.
  split_conj; [done|intros; lia|lia].
Qed.

Lemma operator_solvent_fresh acc n :
  o_pool_staked acc = 0 -> o_reward_index acc = 0 -> rent OPERATOR_LEN + o_bond acc <= n ->
  operator_solvent ∅ n acc.
Proof.
  intros Hs Hi Hn. exists 0, 0. unfold OperatorAccount_pool. rewrite Hs, Hi.
  split_conj; [apply covered_empty|done|lia].
Qed.

(** ** Changing one account of the store *)

(** Balances may grow anywhere, and move freely at the excepted operator. *)
Lemma but_balances x V lam lam' :
  solvent_but x V lam -> is_Some (operator_in V x) -> (forall k, is_u64 (lam' k)) ->
  (forall k, is_Some (V !! k) -> k <> x -> lam k <= lam' k) -> solvent_but x V lam'.
Proof.
  intros [Hl Ho Hp Hc] [xacc Hx] Hl' Hle. split; [done|..].
  - intros o acc Hacc Hs Hne. eapply operator_solvent_mono; [by apply Ho|]. apply Hle; [|done].
    apply operator_in_Some in Hacc as (d & ? & _). eauto.
  - intros k p Hk. destruct (Hp k p Hk) as [? ?]. split; [|done].
    assert (k <> x) by (intros ->; by eapply operator_not_position).
    assert (lam k <= lam' k); [|lia]. apply Hle; [|done].
    apply position_in_Some in Hk as (d & ? & _). eauto.
  - intros k c Hk. assert (k <> x) by (intros ->; by eapply operator_not_conviction).
    etrans; [by apply Hc|]. apply Hle; [|done].
    apply conviction_in_Some in Hk as (d & ? & _). eauto.
Qed.

(** Rewriting the excepted operator's own account. *)
Lemma but_operator_data x V lam d acc acc' :
  solvent_but x V lam -> operator_in V x = Some acc -> OperatorAccount_read d = Ok acc' ->
  solvent_but x (<[x := d]> V) lam /\ operator_in (<[x := d]> V) x = Some acc' /\
  (forall o, positions_in (<[x := d]> V) o = positions_in V o).
Proof.
  intros [Hl Ho Hp Hc] Hx Hd. destruct (read_operator_only d acc' Hd) as [Hdp Hdc].
  assert (forall k, position_in (<[x := d]> V) k = position_in V k) as Hpos.
  { intros k. rewrite position_in_insert. case_decide as Hk; [subst k|done]. rewrite Hdp.
    destruct (position_in V x) eqn:E; [|done]. by edestruct operator_not_position. }
  assert (forall o, positions_in (<[x := d]> V) o = positions_in V o) as Hps.
  { intros. by apply positions_in_ext. }
  split_conj; [|by rewrite operator_in_insert, decide_True, Hd|done]. split; [done|..].
  - intros o acc0. rewrite operator_in_insert, Hps. intros Hacc Hs Hne.
    rewrite decide_False in Hacc by done. by apply Ho.
  - intros k p. rewrite Hpos. intros Hk. destruct (Hp k p Hk) as [? Ha]. split; [done|].
    intros [a Ha']%Ha. rewrite operator_in_insert. case_decide; [rewrite Hd|]; eauto.
  - intros k c. rewrite conviction_in_insert. case_decide; [by rewrite Hdc|]. apply Hc.
Qed.

(** Creating or rewriting a position of the excepted operator. *)
Lemma but_position_data x V lam k d p acc :
  solvent_but x V lam -> operator_in V x = Some acc -> PositionAccount_read d = Ok p ->
  pa_operator p = x -> 0 < lam k ->
  (V !! k = None \/ exists p0, position_in V k = Some p0 /\ pa_operator p0 = x) ->
  solvent_but x (<[k := d]> V) lam /\ operator_in (<[k := d]> V) x = Some acc /\
  positions_in (<[k := d]> V) x = <[k := PositionAccount_position p]> (positions_in V x).
Proof.
  intros [Hl Ho Hp Hc] Hx Hd Hop Hlam Hold. destruct (read_position_only d p Hd) as [Hdo Hdc].
  assert (operator_in V k = None) as Hko.
  { destruct (operator_in V k) eqn:E; [|done]. destruct Hold as [Hn|(p0 & Hp0 & _)].
    - apply operator_in_Some in E as (? & ? & _). congruence.
    - by edestruct operator_not_position. }
  assert (forall o, operator_in (<[k := d]> V) o = operator_in V o) as Hops.
  { intros o. rewrite operator_in_insert. case_decide; [subst o; by rewrite Hdo|done]. }
  assert (forall q, position_in V k = Some q -> pa_operator q = pa_operator p) as Hq.
  { intros q Hq. destruct Hold as [Hn|(p0 & Hp0 & ?)]; [|congruence].
    apply position_in_Some in Hq as (? & ? & _). congruence. }
  split_conj; [|by rewrite Hops|by rewrite (positions_in_insert _ _ _ p), decide_True by done].
  split; [done|..].
  - intros o acc0. rewrite Hops. intros Hacc Hs Hne.
    rewrite (positions_in_insert _ _ _ p) by done. rewrite decide_False by congruence. by apply Ho.
  - intros k' p'. rewrite position_in_insert, Hops. case_decide; [subst k'; rewrite Hd|].
    + intros [= <-]. rewrite Hop. eauto.
    + eauto.
  - intros k' c. rewrite conviction_in_insert. case_decide; [by rewrite Hdc|]. apply Hc.
Qed.

(** Rewriting an operator and one of its positions together. *)
Lemma but_both x V lam k st acc do dp acc' st' :
  solvent V lam -> operator_in V x = Some acc -> position_in V k = Some st -> pa_operator st = x ->
  OperatorAccount_read do = Ok acc' -> PositionAccount_read dp = Ok st' -> pa_operator st' = x ->
  let V' := <[k := dp]> (<[x := do]> V) in
  solvent_but x V' lam /\ operator_in V' x = Some acc' /\
  positions_in V' x = <[k := PositionAccount_position st']> (positions_in V x).
Proof.
  intros Hsol HO HP Hst Hdo Hdp Hst' V'.
  destruct (but_operator_data _ _ _ do _ _ (solvent_weaken _ _ _ Hsol) HO Hdo) as (Hb1 & HO1 & Hps1).
  destruct (but_position_data x _ _ k dp _ _ Hb1 HO1 Hdp) as (Hb & HO' & Hps'); try done.
  - by apply (sol_position _ _ Hsol _ _ HP).
  - right. exists st. rewrite position_in_insert, decide_False; [done|].
    intros ->. exact (operator_not_position _ _ _ _ HO HP).
  - by rewrite <- Hps1.
Qed.

(** A new conviction. *)
Lemma but_new_conviction x V lam k d c :
  solvent_but x V lam -> V !! k = None -> ConvictionAccount_read d = Ok c ->
  rent CONVICTION_LEN + cv_owed_to_victim c <= lam k ->
  solvent_but x (<[k := d]> V) lam /\
  (forall o, operator_in (<[k := d]> V) o = operator_in V o) /\
  (forall o, positions_in (<[k := d]> V) o = positions_in V o).
Proof.
  intros [Hl Ho Hp Hc] Hk Hd Hlam. destruct (read_conviction_only d c Hd) as [Hdo Hdp].
  assert (forall o, operator_in (<[k := d]> V) o = operator_in V o) as Hops.
  { intros o. rewrite operator_in_insert. case_decide; [subst o|done].
    rewrite Hdo. unfold operator_in. by rewrite Hk. }
  assert (forall o, position_in (<[k := d]> V) o = position_in V o) as Hpos.
  { intros o. rewrite position_in_insert. case_decide; [subst o|done].
    rewrite Hdp. unfold position_in. by rewrite Hk. }
  assert (forall o, positions_in (<[k := d]> V) o = positions_in V o) as Hps.
  { intros. by apply positions_in_ext. }
  split_conj; [|done..]. split; [done|..].
  - intros o acc. rewrite Hops, Hps. apply Ho.
  - intros k' p. rewrite Hpos, Hops. apply Hp.
  - intros k' c'. rewrite conviction_in_insert. case_decide; [subst k'; rewrite Hd|apply Hc].
    by intros [= <-].
Qed.

(** Slashing an operator into a new conviction. *)
Lemma solvent_slash V lam lam' (x k : bytes) acc acc' (do dc : bytes) cv P' s unbond_at :
  solvent V lam -> operator_in V x = Some acc -> OperatorAccount_wf acc -> 0 < o_bond acc ->
  V !! k = None -> Pool_distribute (OperatorAccount_pool acc) (Split_of (o_bond acc)) = (P', s) ->
  OperatorAccount_read do = Ok acc' ->
  (sound x -> acc' = OperatorAccount_set_pool (with_bond acc 0 unbond_at) P') ->
  ConvictionAccount_read dc = Ok cv -> cv_owed_to_victim cv = victim s ->
  (forall k, is_u64 (lam' k)) -> (forall k', is_Some (V !! k') -> k' <> x -> lam k' <= lam' k') ->
  lam x - burn s - victim s <= lam' x -> rent CONVICTION_LEN + victim s <= lam' k ->
  solvent (<[x := do]> (<[k := dc]> V)) lam'.
Proof.
  intros Hsol HO Wacc Hpos Hk Hdist Hdo Hacc' Hdc Hcv Hu Hmono Hx Hlk.
  pose proof (fun Hs => operator_solvent_slash _ _ _ _ _ unbond_at (sol_operator _ _ Hsol _ _ HO Hs) Wacc Hpos Hdist)
    as Hop.
  pose proof (but_balances x V lam lam' (solvent_weaken _ _ _ Hsol) ltac:(eauto) Hu Hmono) as Hb0.
  destruct (but_new_conviction x V lam' k dc cv Hb0 Hk Hdc) as (Hb1 & HO1 & Hps1); [by rewrite Hcv|].
  rewrite <- (HO1 x) in HO.
  destruct (but_operator_data x _ lam' do _ _ Hb1 HO Hdo) as (Hb2 & HO2 & Hps2).
  apply (solvent_restore x); [done|]. intros acc0. rewrite HO2, Hps2, Hps1. intros [= <-] Hs.
  rewrite (Hacc' Hs). eapply operator_solvent_mono; [by apply Hop|done].
Qed.

(** A conviction pays part of what it owes. *)
Lemma solvent_conviction_data V lam lam' k d c c' :
  solvent V lam -> conviction_in V k = Some c -> ConvictionAccount_read d = Ok c' ->
  (forall k, is_u64 (lam' k)) -> (forall k', is_Some (V !! k') -> k' <> k -> lam k' <= lam' k') ->
  lam k - (cv_owed_to_victim c - cv_owed_to_victim c') <= lam' k -> solvent (<[k := d]> V) lam'.
Proof.
  intros [Hl Ho Hp Hc] Hk Hd Hl' Hle Hpay. destruct (read_conviction_only d c' Hd) as [Hdo Hdp].
  assert (forall o, operator_in (<[k := d]> V) o = operator_in V o) as Hops.
  { intros o. rewrite operator_in_insert. case_decide; [subst o|done]. rewrite Hdo.
    destruct (operator_in V k) eqn:E; [|done]. by edestruct operator_not_conviction. }
  assert (forall o, position_in (<[k := d]> V) o = position_in V o) as Hpos.
  { intros o. rewrite position_in_insert. case_decide; [subst o|done]. rewrite Hdp.
    destruct (position_in V k) eqn:E; [|done]. by edestruct position_not_conviction. }
  assert (forall o, positions_in (<[k := d]> V) o = positions_in V o) as Hps.
  { intros. by apply positions_in_ext. }
  split; [done|..].
  - intros o acc. rewrite Hops, Hps. intros Hacc Hs. eapply operator_solvent_mono; [by apply Ho|].
    apply Hle; [apply operator_in_Some in Hacc as (? & ? & _); eauto|].
    intros ->. by eapply operator_not_conviction.
  - intros k' p. rewrite Hpos, Hops. intros Hk'. destruct (Hp k' p Hk') as [? ?]. split; [|done].
    assert (lam k' <= lam' k'); [|lia].
    apply Hle; [apply position_in_Some in Hk' as (? & ? & _); eauto|].
    intros ->. by eapply position_not_conviction.
  - intros k' c0. rewrite conviction_in_insert. case_decide as Hkk; [subst k'; rewrite Hd|].
    + intros [= <-]. specialize (Hc k c Hk). lia.
    + intros Hk'. etrans; [by apply Hc|]. apply Hle; [|congruence].
      apply conviction_in_Some in Hk' as (? & ? & _). eauto.
Qed.

(** A new operator, on which nobody can have staked yet. *)
Lemma solvent_new_operator V lam lam' (k : bytes) (d : bytes) acc :
  solvent V lam -> V !! k = None -> OperatorAccount_read d = Ok acc ->
  o_pool_staked acc = 0 -> o_reward_index acc = 0 -> (sound k -> rent OPERATOR_LEN + o_bond acc <= lam' k) ->
  (forall k, is_u64 (lam' k)) -> (forall k, is_Some (V !! k) -> lam k <= lam' k) ->
  solvent (<[k := d]> V) lam'.
Proof.
  intros [Hl Ho Hp Hc] Hk Hd Hst Hi Hn Hl' Hle. destruct (read_operator_only _ _ Hd) as [Hdp Hdc].
  assert (forall k', position_in (<[k := d]> V) k' = position_in V k') as Hpos.
  { intros k'. rewrite position_in_insert. case_decide; [subst k'|done]. rewrite Hdp.
    unfold position_in. by rewrite Hk. }
  split; [done|..].
  - intros o acc0. rewrite operator_in_insert, (positions_in_ext _ V) by done.
    case_decide as Hko; [subst o; rewrite Hd; intros [= <-] Hs|].
    + replace (positions_in V k) with (∅ : gmap bytes Position); [apply operator_solvent_fresh; auto|].
      symmetry. apply map_eq. intros k'. rewrite lookup_empty. apply eq_None_not_Some. intros [q Hq].
      apply positions_in_Some in Hq as (p & Hq & <- & _).
      destruct (Hp _ _ Hq) as [_ [acc0 (? & ? & _)%operator_in_Some]]; [done|]. congruence.
    + intros Hacc Hs. eapply operator_solvent_mono; [by apply Ho|].
      apply Hle. apply operator_in_Some in Hacc as (? & ? & _). eauto.
  - intros k' p. rewrite Hpos. intros Hk'. destruct (Hp _ _ Hk') as [? Hacc]. split.
    + assert (lam k' <= lam' k'); [|lia].
      apply Hle. apply position_in_Some in Hk' as (? & ? & _). eauto.
    + intros [acc0 Hacc0]%Hacc. rewrite operator_in_insert. case_decide; [rewrite Hd|]; eauto.
  - intros k' c. rewrite conviction_in_insert. case_decide; [by rewrite Hdc|].
    intros Hk'. etrans; [by apply Hc|].
    apply Hle. apply conviction_in_Some in Hk' as (? & ? & _). eauto.
Qed.

(** The accounts the invariant speaks of. *)
Definition tracked V k : Prop :=
  (sound k /\ is_Some (operator_in V k)) \/ is_Some (position_in V k) \/ is_Some (conviction_in V k).

Lemma tracked_Some V k : tracked V k -> is_Some (V !! k).
Proof.
  unfold tracked, operator_in, position_in, conviction_in. destruct (V !! k); [eauto|].
  by intros [[_ [? ?]]|[[? ?]|[? ?]]].
Qed.

(** Changes that leave every such account alone. *)
Lemma solvent_ext V V' lam lam' :
  solvent V lam -> (forall k, sound k -> operator_in V k = operator_in V' k) ->
  (forall k, position_in V k = position_in V' k) -> (forall k, conviction_in V k = conviction_in V' k) ->
  (forall k, is_u64 (lam' k)) ->
  (forall k, tracked V k -> lam k <= lam' k) -> solvent V' lam'.
Proof.
  unfold tracked. intros [Hl Ho Hp Hc] HO HP HC Hl' Hle. split; [done|..].
  - intros o acc Hacc Hs. rewrite <- HO in Hacc by done. rewrite <- (positions_in_ext V V') by done.
    eapply operator_solvent_mono; eauto.
  - intros k p Hk. rewrite <- HP in Hk. destruct (Hp k p Hk) as [? ?].
    split; [|intros; rewrite <- HO by done; auto]. assert (lam k <= lam' k); [|lia]. eauto.
  - intros k c Hk. rewrite <- HC in Hk. etrans; [by apply Hc|]. eauto 6.
Qed.

(** What a solvent operator's account and positions fit in. *)
Lemma operator_solvent_wf ps n acc :
  operator_solvent ps n acc ->
  is_u64 (o_pool_staked acc) /\ is_u128 (o_reward_index acc) /\
  forall k q, ps !! k = Some q -> Position_wf q.
Proof.
  intros (d & c & Hc & _ & _). pose proof (cov_staked_wf Hc). pose proof (cov_index Hc).
  pose proof (cov_distributed Hc). cbn in *. unfold REWARD_SCALE, is_u128 in *.
  split_conj; [done|lia|lia|]. intros k q Hq. by destruct (cov_positions Hc k q Hq) as [? _].
Qed.

(** ** Balances after a transfer *)

Lemma transfer_balances (L : ledger) from to n :
  (forall k, is_u64 (lamports_at L k)) -> 0 <= n <= lamports_at L from ->
  lamports_at (transfer L from to n) to < 2 ^ 64 ->
  (forall k, is_u64 (lamports_at (transfer L from to n) k)) /\
  (forall k, k <> from -> lamports_at L k <= lamports_at (transfer L from to n) k) /\
  lamports_at L from - n <= lamports_at (transfer L from to n) from.
Proof.
  intros Hl Hn Hlt. rewrite lamports_at_transfer, (decide_True (P := to = to)) in Hlt by done.
  unfold is_u64 in *. split_conj.
  - intros k. pose proof (Hl k). rewrite lamports_at_transfer.
    destruct (decide (to = k)) as [<-|]; [pose proof (Hl to); case_decide; subst; lia|].
    destruct (decide (from = k)); subst; lia.
  - intros k Hk. rewrite lamports_at_transfer, decide_False by done.
    destruct (decide (to = k)); lia.
  - rewrite lamports_at_transfer, decide_True by done. destruct (decide (to = from)); lia.
Qed.

(** The last step of a handler that pays out of an operator account. *)
Lemma but_pay_out (x : bytes) V lam (L : ledger) (to : bytes) (n : Z) acc :
  (forall k, lamports_at L k = lam k) -> solvent_but x V lam -> operator_in V x = Some acc ->
  0 <= n <= lam x -> lamports_at (transfer L x to n) to < 2 ^ 64 ->
  (sound x -> operator_solvent (positions_in V x) (lam x - n) acc) ->
  solvent V (lamports_at (transfer L x to n)).
Proof.
  intros Hlam Hb Hx Hn Hlt Hop.
  destruct (transfer_balances L x to n) as (Hu & Hmono & Hfrom); [|by rewrite Hlam|done|].
  { intros k. rewrite Hlam. apply (but_lam _ _ _ Hb). }
  apply (solvent_restore x).
  - apply (but_balances _ _ lam); [done|eauto|done|]. intros k _ Hk. rewrite <- Hlam. by apply Hmono.
  - intros acc'. rewrite Hx. intros [= <-] Hs. eapply operator_solvent_mono; [by apply Hop|]. by rewrite <- Hlam.
Qed.
End invariant.

Arguments solvent {_} sound V lam : rename.
Arguments solvent_but {_} sound x V lam : rename.
Arguments tracked sound V k : rename, clear implicits.

(** ** Every handler preserves the invariant *)

Section preservation.
Context `{C : Crypto} `{!CryptoLaws C} `{R : Runtime} `{!RuntimeLaws R}.
Context (program_id : bytes) (sound : bytes -> Prop) (not_system : program_id <> system_program_id).
Implicit Types (L : ledger).

Definition ledger_solvent L : Prop := solvent sound (views program_id L) (lamports_at L).

(** What [Pubkey] and the clock guarantee of the values a handler is given. *)
Definition infos_wf (accounts : list AccountInfo) : Prop :=
  Forall (fun i => length (ai_key i) = 32%nat) accounts.
Definition context_wf (ctx : Context) : Prop := forall slot, Clock_slot ctx = Ok slot -> is_u64 slot.

Lemma infos_wf_take n accounts l : infos_wf accounts -> take n accounts = l -> infos_wf l.
Proof. intros H <-. by apply Forall_take. Qed.

Lemma operator_of_ledger L k acc :
  owner_at L k = program_id -> OperatorAccount_read (data_at L k) = Ok acc ->
  operator_in (views program_id L) k = Some acc.
Proof. intros. apply operator_in_Some. exists (data_at L k). split; [|done]. by apply views_Some. Qed.
Lemma position_of_ledger L k p :
  owner_at L k = program_id -> PositionAccount_read (data_at L k) = Ok p ->
  position_in (views program_id L) k = Some p.
Proof. intros. apply position_in_Some. exists (data_at L k). split; [|done]. by apply views_Some. Qed.
Lemma conviction_of_ledger L k c :
  owner_at L k = program_id -> ConvictionAccount_read (data_at L k) = Ok c ->
  conviction_in (views program_id L) k = Some c.
Proof. intros. apply conviction_in_Some. exists (data_at L k). split; [|done]. by apply views_Some. Qed.

Lemma positions_of_ledger L k p :
  position_in (views program_id L) k = Some p ->
  positions_in (views program_id L) (pa_operator p) !! k = Some (PositionAccount_position p).
Proof. intros. apply positions_in_Some. eauto. Qed.

(** Writing back an account of the size it was read from. *)
Lemma operator_rewrite L k acc acc' d :
  OperatorAccount_read (data_at L k) = Ok acc -> OperatorAccount_wf acc' ->
  OperatorAccount_write acc' (data_at L k) = Ok d -> OperatorAccount_read d = Ok acc'.
Proof. intros _ Hwf Hw. by apply (write_Ok (C := operator_codec)) in Hw as (_ & _ & _ & ?). Qed.

Lemma set_pool_wf acc P :
  OperatorAccount_wf acc -> is_u64 (staked P) -> is_u128 (reward_index P) ->
  OperatorAccount_wf (OperatorAccount_set_pool acc P).
Proof. intros (? & ? & ? & ? & ? & ?) ? ?. by split_conj. Qed.

Lemma position_set_position st q : PositionAccount_position (PositionAccount_set_position st q) = q.
Proof. by destruct q. Qed.

Lemma with_bond_wf acc bond unbond_at :
  OperatorAccount_wf acc -> is_u64 bond -> is_u64 unbond_at ->
  OperatorAccount_wf (with_bond acc bond unbond_at).
Proof. intros (? & ? & ? & ? & ? & ?) ? ?. by split_conj. Qed.

Lemma conviction_wf operator wronged hash slashed owed slot bump :
  length operator = 32%nat -> length wronged = 64%nat -> length hash = 32%nat ->
  is_u64 slashed -> is_u64 owed -> is_u64 slot ->
  ConvictionAccount_wf (MkConviction operator wronged hash slashed owed slot bump).
Proof. intros. by split_conj. Qed.

Lemma set_position_wf st q :
  PositionAccount_wf st -> Position_wf q -> PositionAccount_wf (PositionAccount_set_position st q).
Proof. intros (? & ? & ? & ? & ?) (? & ? & ?). by split_conj. Qed.

(** Writing back an operator and a position after the pool's arithmetic.  As long as the operator is
    solvent, what is written reads back exactly. *)
Lemma write_both acc st P' q' into into' do dp :
  OperatorAccount_wf acc -> PositionAccount_wf st ->
  OperatorAccount_write (OperatorAccount_set_pool acc P') into = Ok do ->
  PositionAccount_write (PositionAccount_set_position st q') into' = Ok dp ->
  exists acc' st', OperatorAccount_read do = Ok acc' /\ PositionAccount_read dp = Ok st' /\
    pa_operator st' = pa_operator st /\
    forall (k : bytes) ps n, operator_solvent (<[k := q']> ps) n (OperatorAccount_set_pool acc P') ->
      acc' = OperatorAccount_set_pool acc P' /\ st' = PositionAccount_set_position st q'.
Proof.
  intros Wacc Wst Hdo Hdp. pose proof Wacc as (Wa1 & Wa2 & _). pose proof Wst as (Ws1 & Ws2 & _).
  destruct (write_operator_reads (OperatorAccount_set_pool acc P') into do Wa1 Wa2 Hdo) as (acc' & Hdo' & _ & _ & Eacc).
  destruct (write_position_reads (PositionAccount_set_position st q') into' dp Ws1 Ws2 Hdp) as (st' & Hdp' & _ & Ep & Est).
  exists acc', st'. split_conj; [done..|]. intros k ps n Hop.
  destruct (operator_solvent_wf _ _ _ Hop) as (Ws & Wi & Hq). specialize (Hq k q' (lookup_insert_eq _ _ _)).
  split; [apply Eacc; by apply set_pool_wf|apply Est; by apply set_position_wf].
Qed.

Lemma claim_preserves accounts L L' :
  ledger_solvent L -> claim program_id accounts L = Ok (tt, L') -> ledger_solvent L'.
Proof.
  intros Hsol (owner & oi & pi & acc & st & d & _ & _ & Ho & Hp & Hacc & Hst & Hown & Hopr & Hd &
               Hle & _ & -> & Hlt)%claim_Ok.
  pose proof (operator_of_ledger _ _ _ Ho Hacc) as HO. pose proof (position_of_ledger _ _ _ Hp Hst) as HP.
  pose proof (positions_of_ledger _ _ _ HP) as Hps. rewrite Hopr in Hps.
  destruct (read_Ok (C := position_codec) _ _ Hst) as (Wst & _).
  destruct (Pool_claim (OperatorAccount_pool acc) (PositionAccount_position st)) as [q' earned] eqn:Hcl.
  cbn [fst snd] in *.
  pose proof (fun Hs => operator_solvent_claim _ _ _ _ _ _ _ (sol_operator _ _ Hsol _ _ HO Hs) Hps Hcl) as Hop.
  pose proof Wst as (Wst1 & Wst2 & _).
  destruct (write_position_reads (PositionAccount_set_position st q') _ _ Wst1 Wst2 Hd) as (st' & Hd' & _ & Ep & Est).
  assert (0 <= earned) as Hearned.
  { injection Hcl as _ <-. cbn. apply wrap64_range. }
  destruct (but_position_data (ai_key oi) _ _ (ai_key pi) d _ acc (solvent_weaken _ _ _ Hsol) HO Hd')
    as (Hb & HO' & Hps'); [by rewrite Ep|by apply (sol_position _ _ Hsol _ _ HP)|eauto|].
  unfold ledger_solvent. rewrite views_transfer, views_set_data by done.
  eapply but_pay_out; [|exact Hb|exact HO'|lia|done|].
  - intros k. apply lamports_at_set_data.
  - intros Hs. specialize (Hop Hs). destruct (operator_solvent_wf _ _ _ Hop) as (_ & _ & Hq).
    specialize (Hq (ai_key pi) q' (lookup_insert_eq _ _ _)).
    by rewrite Hps', (Est (set_position_wf _ _ Wst Hq)), position_set_position.
Qed.

Lemma unstake_preserves accounts amount L L' :
  0 <= amount -> ledger_solvent L -> unstake program_id accounts amount L = Ok (tt, L') ->
  ledger_solvent L'.
Proof.
  intros Hamt Hsol (owner & oi & pi & acc & st & P' & q' & paid & do & dp & _ & _ & Ho & Hp & Hacc &
    Hst & Hown & Hopr & Hun & Hdo & Hdp & Hle & _ & -> & Hlt)%unstake_Ok.
  pose proof (operator_of_ledger _ _ _ Ho Hacc) as HO. pose proof (position_of_ledger _ _ _ Hp Hst) as HP.
  pose proof (positions_of_ledger _ _ _ HP) as Hps. rewrite Hopr in Hps.
  destruct (read_Ok (C := position_codec) _ _ Hst) as (Wst & _).
  destruct (read_Ok (C := operator_codec) _ _ Hacc) as (Wacc & _).
  pose proof (fun Hs => operator_solvent_unstake _ _ _ _ _ _ _ _ _ (sol_operator _ _ Hsol _ _ HO Hs) Hps Hamt Hun) as Hop.
  destruct (write_both _ _ _ _ _ _ _ _ Wacc Wst Hdo Hdp) as (acc' & st' & Hdo' & Hdp' & Ep & Eboth).
  destruct (but_both _ _ _ _ st acc do dp _ _ Hsol HO HP Hopr Hdo' Hdp') as (Hb & HO' & Hps'); [congruence|].
  unfold ledger_solvent. rewrite views_transfer, !views_set_data by (rewrite ?owner_at_set_data; done).
  eapply but_pay_out; [|exact Hb|exact HO'|lia|done|].
  - intros k. by rewrite !lamports_at_set_data.
  - intros Hs. destruct (Eboth (ai_key pi) _ _ (Hop Hs)) as [-> ->].
    rewrite Hps', position_set_position. by apply Hop.
Qed.

Lemma withdraw_bond_preserves ctx accounts L L' :
  ledger_solvent L -> withdraw_bond ctx program_id accounts L = Ok (tt, L') -> ledger_solvent L'.
Proof.
  intros Hsol (authority & oi & acc & slot & d & _ & _ & Ho & Hacc & _ & _ & _ & _ & Hd & Hle & _ &
               -> & Hlt)%withdraw_bond_Ok.
  pose proof (operator_of_ledger _ _ _ Ho Hacc) as HO.
  destruct (read_Ok (C := operator_codec) _ _ Hacc) as ((? & ? & [? ?] & ? & ? & ?) & _).
  pose proof (fun Hs => operator_solvent_bond _ _ _ 0 0 (sol_operator _ _ Hsol _ _ HO Hs) ltac:(lia)) as Hop.
  apply (write_Ok (C := operator_codec)) in Hd as (_ & _ & _ & Hd); [|by split_conj].
  destruct (but_operator_data _ _ _ d _ _ (solvent_weaken _ _ _ Hsol) HO Hd) as (Hb & HO' & Hps).
  unfold ledger_solvent. rewrite views_transfer, views_set_data by done.
  eapply but_pay_out; [|exact Hb|exact HO'|lia|done|].
  - intros k. apply lamports_at_set_data.
  - intros Hs. specialize (Hop Hs). rewrite Hps. by rewrite Z.sub_0_r in Hop.
Qed.

Lemma begin_unbond_preserves ctx accounts L L' :
  ledger_solvent L -> begin_unbond ctx program_id accounts L = Ok (tt, L') -> ledger_solvent L'.
Proof.
  intros Hsol (authority & oi & acc & _ & _ & Ho & Hacc & _ & _ & [[_ ->]|(_ & slot & d & _ & Hd & ->)])
    %begin_unbond_Ok; [done|].
  pose proof (operator_of_ledger _ _ _ Ho Hacc) as HO.
  destruct (read_Ok (C := operator_codec) _ _ Hacc) as ((? & ? & [? ?] & ? & ? & ?) & _).
  pose proof (fun Hs => operator_solvent_bond _ _ _ (o_bond acc) (wrap64 (slot + UNBOND_SLOTS))
    (sol_operator _ _ Hsol _ _ HO Hs) ltac:(lia)) as Hop.
  apply (write_Ok (C := operator_codec)) in Hd as (_ & _ & _ & Hd);
    [|apply with_bond_wf; [by split_conj|by split|apply wrap64_range]].
  destruct (but_operator_data _ _ _ d _ _ (solvent_weaken _ _ _ Hsol) HO Hd) as (Hb & HO' & Hps).
  unfold ledger_solvent. rewrite views_set_data by done. apply (solvent_restore (ai_key oi)).
  - eapply but_balances; [exact Hb|eauto| |].
    + intros k. rewrite lamports_at_set_data. apply (sol_lam _ _ Hsol).
    + intros k _ _. by rewrite lamports_at_set_data.
  - intros acc0. rewrite HO', Hps, lamports_at_set_data. intros [= <-] Hs.
    eapply operator_solvent_mono; [by apply Hop|lia].
Qed.

Lemma claim_victim_preserves accounts wire L L' :
  ledger_solvent L -> claim_victim program_id accounts wire L = Ok (tt, L') -> ledger_solvent L'.
Proof.
  intros Hsol (claimant & ci & cv & d & _ & _ & Ho & Hcv & _ & _ & Hd & Hle & -> & Hlt)%claim_victim_Ok.
  pose proof (conviction_of_ledger _ _ _ Ho Hcv) as HC.
  destruct (read_Ok (C := conviction_codec) _ _ Hcv) as ((? & ? & ? & ? & [? ?] & ?) & _).
  apply (write_Ok (C := conviction_codec)) in Hd as (_ & _ & _ & Hd); [|by split_conj].
  destruct (transfer_balances (set_data L (ai_key ci) d) (ai_key ci) (ai_key claimant)
    (cv_owed_to_victim cv)) as (Hu & Hmono & Hfrom); [|rewrite lamports_at_set_data; lia|done|].
  { intros k. rewrite lamports_at_set_data. apply (sol_lam _ _ Hsol). }
  unfold ledger_solvent. rewrite views_transfer, views_set_data by done.
  eapply solvent_conviction_data; [exact Hsol|exact HC|exact Hd|done| |].
  - intros k _ Hk. rewrite <- (lamports_at_set_data L (ai_key ci) d). by apply Hmono.
  - cbn. rewrite lamports_at_set_data in Hfrom. lia.
Qed.

(** Creating one of the program's accounts moves lamports to it from an account that is not. *)
Lemma create_balances L from to system n space seeds L' :
  (forall k, is_u64 (lamports_at L k)) ->
  invoke_create_account program_id L from to system n space program_id seeds = Ok L' ->
  (forall k, is_u64 (lamports_at L' k)) /\
  (forall k, is_Some (views program_id L !! k) -> lamports_at L k <= lamports_at L' k) /\
  lamports_at L' (ai_key to) = n.
Proof.
  intros Hu (Ht & _ & _ & Hne & Hf & Hlam & Hn & _)%views_create; [|done..]. split_conj.
  - intros k. rewrite Hlam. pose proof (Hu k). pose proof (Hu (ai_key from)). unfold is_u64 in *.
    repeat case_decide; subst; lia.
  - intros k [d Hd]. rewrite Hlam. repeat case_decide; subst; try congruence. lia.
  - by rewrite Hlam, decide_True.
Qed.

(** The rent and bond of a registration do not wrap around, if it is of an operator the invariant
    speaks of. *)
Definition deposit_fits (accounts : list AccountInfo) (data : bytes) : Prop :=
  forall key bond oi, Instruction_read data = Ok (Register key bond) -> accounts !! 1%nat = Some oi ->
    sound (ai_key oi) -> rent OPERATOR_LEN + bond < 2 ^ 64.

(** A new operator holds its rent and bond, when their sum does not wrap around. *)
Lemma register_preserves accounts key bond L L' :
  infos_wf accounts -> length key = 32%nat -> is_u64 bond ->
  (forall oi, accounts !! 1%nat = Some oi -> sound (ai_key oi) -> rent OPERATOR_LEN + bond < 2 ^ 64) ->
  ledger_solvent L -> register program_id accounts key bond L = Ok (tt, L') -> ledger_solvent L'.
Proof.
  intros Hinfos Hkey [Hb0 Hb] Hwrap Hsol
    (authority & oi & system & f & bump & L1 & d & Htake & _ & _ & _ & Hf & Hcr & Hd & ->)%register_Ok.
  assert (accounts !! 1%nat = Some oi) as Hoi by (rewrite <- (lookup_take_lt accounts 3), Htake by lia; done).
  apply infos_wf_take with (n := 3%nat) in Htake; [|done]. inversion_clear Htake as [|? ? Hauth _].
  pose proof (rent_range OPERATOR_LEN). rewrite (rent_Some f) in Hcr by done.
  destruct (create_balances _ _ _ _ _ _ _ _ (sol_lam _ _ Hsol) Hcr) as (Hu & Hmono & Hn).
  destruct (views_create _ not_system _ _ _ _ _ _ _ _ Hcr) as (Hnone & HV & _ & _ & _ & _ & _ & Hown & Hdata).
  apply (write_Ok (C := operator_codec)) in Hd as (_ & _ & _ & Hd); [|by split_conj].
  unfold ledger_solvent. rewrite views_set_data, HV, insert_insert_eq by done.
  eapply solvent_new_operator; [exact Hsol|done|exact Hd|done|done|..].
  - intros Hs. specialize (Hwrap oi Hoi Hs). rewrite lamports_at_set_data, Hn.
    rewrite wrap64_small by (split; lia). done.
  - intros k. rewrite lamports_at_set_data. apply Hu.
  - intros k Hk. rewrite lamports_at_set_data. by apply Hmono.
Qed.

(** Opening a position keeps the ledger solvent and leaves the caller's position in place. *)
Lemma open_position_preserves owner oi pi system L st L' acc :
  length (ai_key owner) = 32%nat -> length (ai_key oi) = 32%nat ->
  ledger_solvent L -> operator_in (views program_id L) (ai_key oi) = Some acc ->
  open_position program_id owner oi pi system L = Ok (st, L') ->
  ledger_solvent L' /\ operator_in (views program_id L') (ai_key oi) = Some acc /\
  position_in (views program_id L') (ai_key pi) = Some st /\
  pa_owner st = ai_key owner /\ pa_operator st = ai_key oi.
Proof.
  intros Hlo Hli Hsol HO (Hown & Hopr & [(f & bump & L1 & d & Hst & Hf & _ & Hcr & Hd & ->)|(Ho & Hst & ->)])
    %open_position_Ok; [|split_conj; [done|done|by apply position_of_ledger|done..]].
  destruct (create_balances _ _ _ _ _ _ _ _ (sol_lam _ _ Hsol) Hcr) as (Hu & Hmono & Hn).
  destruct (views_create _ not_system _ _ _ _ _ _ _ _ Hcr) as (Hnone & HV & _ & _ & _ & _ & _ & Hcrown & _).
  apply (write_Ok (C := position_codec)) in Hd as (_ & _ & _ & Hd); [|subst st; by split_conj].
  assert (views program_id (set_data L1 (ai_key pi) d) = <[ai_key pi := d]> (views program_id L)) as HV'.
  { by rewrite views_set_data, HV, insert_insert_eq by done. }
  unfold ledger_solvent. rewrite HV'. set (V := views program_id L) in *.
  assert (solvent_but sound (ai_key oi) V (lamports_at L1)) as Hb0.
  { eapply but_balances; [by apply solvent_weaken|eauto|done|]. intros k Hk _. by apply Hmono. }
  destruct (but_position_data (ai_key oi) V (lamports_at L1) (ai_key pi) d st acc Hb0)
    as (Hb & HO' & Hps); try done; [|by left|].
  { rewrite Hn, (rent_Some f) by done. apply rent_range. }
  split_conj; [|done| |done..].
  - apply (solvent_restore (ai_key oi)).
    + eapply but_balances; [exact Hb|eauto|..].
      * intros k. rewrite lamports_at_set_data. apply Hu.
      * intros k _ _. by rewrite lamports_at_set_data.
    + intros acc0. rewrite HO', Hps, lamports_at_set_data. intros [= <-] Hs. subst st.
      apply (operator_solvent_open _ _ _ (ai_key pi)).
      * eapply operator_solvent_mono; [by apply (sol_operator _ _ Hsol)|]. apply Hmono.
        apply operator_in_Some in HO as (? & ? & _). eauto.
      * apply eq_None_not_Some. intros [q (p & (? & ? & _)%position_in_Some & _)%positions_in_Some].
        congruence.
  - rewrite position_in_insert, decide_True by done. cbn in Hd. by rewrite Hd.
Qed.

Lemma stake_preserves accounts amount L L' :
  infos_wf accounts -> ledger_solvent L -> stake program_id accounts amount L = Ok (tt, L') ->
  ledger_solvent L'.
Proof.
  intros Hinfos Hsol0 (owner & oi & pi & system & acc & st & L1 & P' & q' & L2 & do & dp & Htake & _ &
    Ho & Hacc & Hopen & Hst & Htr & Hdo & Hdp & ->)%stake_Ok.
  apply infos_wf_take with (n := 4%nat) in Htake; [|done].
  inversion_clear Htake as [|? ? Hlo Htake']. inversion_clear Htake' as [|? ? Hlp _].
  destruct (open_position_preserves _ _ _ _ _ _ _ _ Hlo Hlp Hsol0 (operator_of_ledger _ _ _ Ho Hacc) Hopen)
    as (Hsol & HO & HP & Hown & Hopr). clear Hopen Hsol0.
  destruct (views_system_transfer _ not_system _ _ _ _ _ _ Htr) as (HV & Hfrom & Hamt & Hlt & Hle & ->).
  pose proof (positions_of_ledger _ _ _ HP) as Hps. rewrite Hopr in Hps.
  assert (ai_key pi <> ai_key oi) as Hne.
  { intros Heq. rewrite Heq in HP. exact (operator_not_position _ _ _ _ HO HP). }
  destruct (transfer_balances L1 (ai_key owner) (ai_key oi) amount (sol_lam _ _ Hsol)) as (Hu & Hmono & _);
    [lia|done|].
  assert (ai_key owner <> ai_key oi) as Hno.
  { intros Heq. rewrite Heq in Hfrom. apply operator_in_Some in HO as (? & ? & _). congruence. }
  assert (lamports_at (transfer L1 (ai_key owner) (ai_key oi) amount) (ai_key oi)
          = lamports_at L1 (ai_key oi) + amount) as Hbal.
  { rewrite lamports_at_transfer, decide_False, decide_True by done. lia. }
  pose proof HO as (d0 & Hd0 & Hread)%operator_in_Some.
  destruct (proj1 (views_Some _ not_system _ _ _) Hd0) as [Hoo _].
  destruct (read_Ok (C := operator_codec) _ _ Hread) as (Wacc & _).
  pose proof HP as (d1 & Hd1 & Hread1)%position_in_Some.
  destruct (proj1 (views_Some _ not_system _ _ _) Hd1) as [Hpo _].
  destruct (read_Ok (C := position_codec) _ _ Hread1) as (Wst & _).
  pose proof (fun Hs => operator_solvent_stake _ _ _ _ _ amount _ _ (sol_operator _ _ Hsol _ _ HO Hs) Wacc Hps Hamt
    ltac:(lia) Hst) as Hop.
  destruct (write_both _ _ _ _ _ _ _ _ Wacc Wst Hdo Hdp) as (acc' & st' & Hdo' & Hdp' & Ep & Eboth).
  destruct (but_both _ _ _ _ st acc do dp _ _ Hsol HO HP Hopr Hdo' Hdp') as (Hb & HO' & Hps'); [congruence|].
  unfold ledger_solvent. rewrite !views_set_data, HV
    by (rewrite ?owner_at_set_data, ?owner_at_transfer; done).
  apply (solvent_restore (ai_key oi)).
  - eapply but_balances; [exact Hb|eauto|..].
    + intros k. rewrite !lamports_at_set_data. apply Hu.
    + intros k Hk Hko. rewrite !lamports_at_set_data. apply Hmono. intros ->.
      rewrite !lookup_insert_ne in Hk by congruence. rewrite Hfrom in Hk. by destruct Hk.
  - intros acc0. rewrite HO', Hps', !lamports_at_set_data, Hbal. intros [= <-] Hs.
    destruct (Eboth (ai_key pi) _ _ (Hop Hs)) as [-> ->]. rewrite position_set_position. by apply Hop.
Qed.

(** Two payments out of one account. *)
Lemma two_transfers (L : ledger) (x a b : bytes) (n m : Z) :
  (forall k, is_u64 (lamports_at L k)) -> 0 <= n <= lamports_at L x ->
  let L1 := transfer L x a n in
  lamports_at L1 a < 2 ^ 64 -> 0 <= m <= lamports_at L1 x ->
  let L2 := transfer L1 x b m in
  lamports_at L2 b < 2 ^ 64 ->
  (forall k, is_u64 (lamports_at L2 k)) /\
  (forall k, k <> x -> lamports_at L k <= lamports_at L2 k) /\
  (b <> x -> lamports_at L b + m <= lamports_at L2 b) /\
  lamports_at L x - n - m <= lamports_at L2 x.
Proof.
  intros Hu Hn L1 Ha Hm L2 Hb.
  destruct (transfer_balances L x a n Hu Hn Ha) as (Hu1 & Hm1 & Hf1).
  destruct (transfer_balances L1 x b m Hu1 Hm Hb) as (Hu2 & Hm2 & Hf2). fold L1 in Hm1, Hf1.
  fold L2 in Hu2, Hm2, Hf2. split_conj; [done| | |lia].
  - intros k Hk. specialize (Hm1 k Hk). specialize (Hm2 k Hk). lia.
  - intros Hne. specialize (Hm1 b Hne). unfold L2. rewrite lamports_at_transfer.
    rewrite decide_False, decide_True by congruence. lia.
Qed.

Lemma prove_equivocation_preserves ctx accounts L L' :
  infos_wf accounts -> context_wf ctx -> ledger_solvent L ->
  prove_equivocation ctx program_id accounts L = Ok (tt, L') -> ledger_solvent L'.
Proof.
  intros Hinfos Hctx Hsol (accuser & oi & ci & burn_to & sysvar & system & acc & e & bump & f & L1 &
    wronged & hash & slot & dc & do & Htake & _ & _ & Ho & Hacc & Hev & _ & _ & Hbond & Hf & Hcr &
    Hwr & Hha & Hslot & Hdc & Hdo & Hburn & Hlt1 & Hvic & -> & Hlt2)%prove_equivocation_Ok.
  apply infos_wf_take with (n := 6%nat) in Htake; [|done].
  inversion_clear Htake as [|? ? _ Htake']. inversion_clear Htake' as [|? ? Hlp _].
  pose proof (operator_of_ledger _ _ _ Ho Hacc) as HO.
  destruct (read_Ok (C := operator_codec) _ _ Hacc) as (Wacc & _).
  pose proof Wacc as (_ & _ & Wb & _ & _ & Wu).
  assert (0 < o_bond acc) as Hpos by (destruct Wb; lia).
  pose proof (Pool_distribute_split (OperatorAccount_pool acc) (o_bond acc) Wb) as Hs.
  destruct (Pool_distribute _ _) as [P' s] eqn:Hdist. cbn [fst snd] in *. cbv zeta in Hs.
  pose proof (fun Hs => operator_solvent_slash _ _ _ _ _ (o_unbond_at acc) (sol_operator _ _ Hsol _ _ HO Hs) Wacc Hpos Hdist)
    as Hop.
  apply load_evidence_Ok in Hev as (_ & ? & ? & p0 & p1 & _ & _ & _ & _ & _ & _ & Hcheck).
  destruct (wronged_Ok (E := ProgramError) _ _ _ Hcheck) as (_ & Hw' & Hh' & Lw & Lh).
  rewrite Hw' in Hwr. rewrite Hh' in Hha. injection Hwr as <-. injection Hha as <-.
  destruct (create_balances _ _ _ _ _ _ _ _ (sol_lam _ _ Hsol) Hcr) as (Hu & Hmono & Hn).
  destruct (views_create _ not_system _ _ _ _ _ _ _ _ Hcr) as (Hnone & HV & _ & _ & _ & _ & _ & Hown & _).
  assert (ai_key ci <> ai_key oi) as Hne.
  { intros Heq. rewrite Heq in Hnone. apply operator_in_Some in HO as (? & ? & _). congruence. }
  assert (owner_at L1 (ai_key oi) = program_id) as Ho1.
  { eapply (views_Some _ not_system). rewrite HV, lookup_insert_ne by done. by apply views_Some. }
  apply (write_Ok (C := conviction_codec)) in Hdc as (_ & _ & _ & Hdc);
    [|apply conviction_wf; try done; [|by apply Hctx]; destruct Wb; split; lia].
  pose proof Wacc as (Wa1 & Wa2 & _).
  apply write_operator_reads in Hdo as (acc' & Hdo & _ & _ & Eacc); [|done..].
  unfold ledger_solvent. rewrite !views_transfer, !views_set_data, HV, insert_insert_eq
    by (rewrite ?owner_at_set_data; done).
  set (L3 := set_data (set_data L1 (ai_key ci) dc) (ai_key oi) do) in *.
  assert (forall k, lamports_at L3 k = lamports_at L1 k) as HL3.
  { intros k. unfold L3. by rewrite !lamports_at_set_data. }
  destruct (two_transfers L3 (ai_key oi) (ai_key burn_to) (ai_key ci) (burn s) (victim s))
    as (Hu' & Hm' & Hc' & Hx'); [intros k; by rewrite HL3|lia|done|lia|done|].
  rewrite HL3 in Hc', Hx'.
  specialize (Hc' Hne). rewrite Hn, (rent_Some f) in Hc' by done.
  assert (lamports_at L (ai_key oi) <= lamports_at L1 (ai_key oi)) as Hoi.
  { apply Hmono. apply operator_in_Some in HO as (? & ? & _). eauto. }
  eapply solvent_slash; [exact Hsol|exact HO|done|done|done|exact Hdist|exact Hdo| |exact Hdc|done|done|..];
    [| |lia|done].
  - intros Hsd. apply Eacc. destruct (operator_solvent_wf _ _ _ (Hop Hsd)) as (Ws & Wi & _).
    apply set_pool_wf; [by apply with_bond_wf; [|split|]|done..].
  - intros k Hk Hko. etrans; [by apply Hmono|]. rewrite <- HL3. by apply Hm'.
Qed.

(** ** The chain *)

(** What an instruction of another program can do to this program's accounts: add lamports, and hand
    over accounts with zeroed data. *)
Definition other_instruction L L' : Prop :=
  (forall k, is_u64 (lamports_at L' k)) /\
  (forall k, owner_at L k = program_id ->
     owner_at L' k = program_id /\ data_at L' k = data_at L k /\ lamports_at L k <= lamports_at L' k) /\
  (forall k, owner_at L k <> program_id -> owner_at L' k = program_id ->
     exists n, data_at L' k = zeros n).

(** One instruction, of this program or another, called by the transaction or by another program. *)
Inductive instruction_step : ledger -> ledger -> Prop :=
| step_program ctx accounts data L L' :
    infos_wf accounts -> context_wf ctx -> deposit_fits accounts data ->
    process ctx program_id accounts data L = Ok (tt, L') -> instruction_step L L'
| step_other L L' : other_instruction L L' -> instruction_step L L'.

(** At the end of a transaction the runtime refuses it if an account it leaves with lamports is not
    exempt from rent, and drops the accounts left without. *)
Definition rent_exempt L : Prop :=
  forall k, owner_at L k = program_id ->
    lamports_at L k = 0 \/ rent (length (data_at L k)) <= lamports_at L k.
Definition purge L : ledger := filter (fun kv => 0 < a_lamports kv.2) L.

(** A transaction: its instructions in order, each on what the one before left, then the check and
    the drop, once. *)
Definition transaction L L' : Prop :=
  exists L1, rtc instruction_step L L1 /\ rent_exempt L1 /\ L' = purge L1.

(** The steps of a chain, one by one: the instructions of its transactions, and the ends of the
    transactions.  The ledgers reached are those between two instructions of a transaction as well
    as those between transactions.  That the check at the end forbids some of them is not used. *)
Inductive chain_step : ledger -> ledger -> Prop :=
| chain_instruction L L' : instruction_step L L' -> chain_step L L'
| chain_commit L : chain_step L (purge L).

(** Every chain of transactions, the last one possibly under way, is such a sequence of steps. *)
Lemma transactions_chain L0 L1 L2 :
  rtc transaction L0 L1 -> rtc instruction_step L1 L2 -> rtc chain_step L0 L2.
Proof.
  assert (forall L L', rtc instruction_step L L' -> rtc chain_step L L') as Hin.
  { intros L L' H. eapply rtc_congruence with (f := fun L : ledger => L); [|exact H]. intros. by constructor. }
  intros Ht Hi. transitivity L1; [|by apply Hin]. clear Hi. induction Ht as [|L La Lb (Lm & Hr & _ & ->) _ IH]; [done|].
  transitivity Lm; [by apply Hin|]. eapply rtc_l; [apply chain_commit|exact IH].
Qed.

(** A chain on which the program has not run yet. *)
Definition genesis L : Prop :=
  (forall k, is_u64 (lamports_at L k)) /\
  (forall k, owner_at L k = program_id -> exists n, data_at L k = zeros n).

Lemma zeros_unreadable (V : store) (k : bytes) n :
  V !! k = Some (zeros n) -> operator_in V k = None /\ position_in V k = None /\ conviction_in V k = None.
Proof.
  intros Hk. split_conj; apply eq_None_not_Some; intros [t Ht].
  - apply operator_in_Some in Ht as (d & Hd & Hr). rewrite Hk in Hd. injection Hd as <-.
    by eapply (read_zeros (C := operator_codec)).
  - apply position_in_Some in Ht as (d & Hd & Hr). rewrite Hk in Hd. injection Hd as <-.
    by eapply (read_zeros (C := position_codec)).
  - apply conviction_in_Some in Ht as (d & Hd & Hr). rewrite Hk in Hd. injection Hd as <-.
    by eapply (read_zeros (C := conviction_codec)).
Qed.

Lemma genesis_solvent L : genesis L -> ledger_solvent L.
Proof.
  intros [Hu Hz].
  assert (forall k d, views program_id L !! k = Some d -> exists n, d = zeros n) as Hv.
  { intros k d [Ho <-]%views_Some; [|done]. by apply Hz. }
  split; [done|..].
  - intros o acc Ho. pose proof Ho as (d & Hd & _)%operator_in_Some.
    destruct (Hv o d Hd) as [n ->]. apply zeros_unreadable in Hd as (? & _). congruence.
  - intros o acc Ho. pose proof Ho as (d & Hd & _)%position_in_Some.
    destruct (Hv o d Hd) as [n ->]. apply zeros_unreadable in Hd as (_ & ? & _). congruence.
  - intros o acc Ho. pose proof Ho as (d & Hd & _)%conviction_in_Some.
    destruct (Hv o d Hd) as [n ->]. apply zeros_unreadable in Hd as (_ & _ & ?). congruence.
Qed.

Lemma other_solvent L L' : ledger_solvent L -> other_instruction L L' -> ledger_solvent L'.
Proof.
  intros Hsol (Hu & Hkeep & Hnew).
  set (V := views program_id L). set (V' := views program_id L').
  assert (forall k d, V !! k = Some d -> V' !! k = Some d /\ lamports_at L k <= lamports_at L' k) as Hv.
  { intros k d [Ho <-]%views_Some; [|done]. destruct (Hkeep k Ho) as (? & <- & ?).
    split; [|done]. by apply views_Some. }
  assert (forall k, V !! k = None -> V' !! k = None \/ exists n, V' !! k = Some (zeros n)) as Hn.
  { intros k Ho%views_None; [|done]. destruct (V' !! k) as [d|] eqn:Hd; [right|by left].
    apply views_Some in Hd as [Ho' <-]; [|done]. destruct (Hnew k Ho Ho') as [n ->]. eauto. }
  assert (forall k, operator_in V k = operator_in V' k /\ position_in V k = position_in V' k /\
                    conviction_in V k = conviction_in V' k) as Hsame.
  { intros k. destruct (V !! k) as [d|] eqn:Hd.
    - destruct (Hv k d Hd) as [Hd' _]. unfold operator_in, position_in, conviction_in. by rewrite Hd, Hd'.
    - destruct (Hn k Hd) as [Hd'|[n Hd']].
      + unfold operator_in, position_in, conviction_in. by rewrite Hd, Hd'.
      + apply zeros_unreadable in Hd' as (-> & -> & ->).
        unfold operator_in, position_in, conviction_in. by rewrite Hd. }
  apply (solvent_ext V V' (lamports_at L)); try done; [intros k _; apply Hsame|apply Hsame..|].
  intros k [d Hd]%tracked_Some. by apply (Hv k d).
Qed.

Lemma purge_lookup L k :
  purge L !! k = a ← L !! k; if decide (0 < a_lamports a) then Some a else None.
Proof.
  clear not_system sound program_id. unfold purge. apply option_eq. intros a. rewrite map_lookup_filter_Some. cbn.
  destruct (L !! k) as [b|]; cbn; [case_decide|]; naive_solver.
Qed.

Lemma lamports_at_purge L k : 0 <= lamports_at L k -> lamports_at (purge L) k = lamports_at L k.
Proof.
  unfold lamports_at, account_at. rewrite purge_lookup. destruct (L !! k) as [a|]; cbn; [|done].
  case_decide; cbn; lia.
Qed.

Lemma account_at_purge L k : 0 < lamports_at L k -> account_at (purge L) k = account_at L k.
Proof.
  unfold lamports_at, account_at. rewrite purge_lookup. destruct (L !! k) as [a|]; cbn; [|done].
  intros Hk. by rewrite decide_True.
Qed.

Lemma views_purge L k :
  views program_id (purge L) !! k =
  if decide (0 < lamports_at L k) then views program_id L !! k else None.
Proof.
  unfold views, lamports_at, account_at. rewrite !lookup_omap, purge_lookup.
  destruct (L !! k) as [a|]; cbn; [|by case_decide].
  by destruct (decide (0 < a_lamports a)).
Qed.

(** Every account the invariant speaks of holds lamports, so the end of a transaction keeps it. *)
Lemma tracked_funded L k : ledger_solvent L -> tracked sound (views program_id L) k -> 0 < lamports_at L k.
Proof.
  intros Hsol [[Hs [acc Hk]]|[[p Hk]|[c Hk]]].
  - destruct (operator_solvent_facts _ _ _ (sol_operator _ _ Hsol _ _ Hk Hs)) as (? & ? & ? & _).
    { apply operator_in_Some in Hk as (? & _ & Hr). by apply (read_Ok (C := operator_codec)) in Hr as [? _]. }
    pose proof (rent_range OPERATOR_LEN). lia.
  - by apply (sol_position _ _ Hsol) in Hk as [? _].
  - pose proof (sol_conviction _ _ Hsol _ _ Hk). pose proof (rent_range CONVICTION_LEN).
    apply conviction_in_Some in Hk as (? & _ & Hr).
    apply (read_Ok (C := conviction_codec)) in Hr as [(_ & _ & _ & _ & [? _] & _) _]. lia.
Qed.

Lemma purge_keeps L k :
  ledger_solvent L -> tracked sound (views program_id L) k ->
  views program_id (purge L) !! k = views program_id L !! k.
Proof. intros Hsol Hk. rewrite views_purge, decide_True; [done|by apply tracked_funded]. Qed.

Lemma purge_solvent L : ledger_solvent L -> ledger_solvent (purge L).
Proof.
  intros Hsol. pose proof (sol_lam _ _ Hsol) as Hu.
  assert (forall k, lamports_at (purge L) k = lamports_at L k) as Hl.
  { intros k. apply lamports_at_purge. destruct (Hu k). done. }
  assert (forall {A} (read : bytes -> option A) k,
    (is_Some (views program_id L !! k ≫= read) -> tracked sound (views program_id L) k) ->
    views program_id L !! k ≫= read = views program_id (purge L) !! k ≫= read) as Hread.
  { intros A read k Hk. destruct (views program_id L !! k ≫= read) as [a|] eqn:E.
    - rewrite purge_keeps; [done..|]. apply Hk. eauto.
    - rewrite views_purge. by case_decide. }
  apply (solvent_ext (views program_id L) _ (lamports_at L)); try done.
  - intros k Hs. apply Hread. left. eauto.
  - intros k. apply Hread. right. eauto.
  - intros k. apply Hread. right. eauto.
  - intros k. rewrite Hl. apply Hu.
  - intros k _. by rewrite Hl.
Qed.

Lemma process_solvent ctx accounts data L L' :
  infos_wf accounts -> context_wf ctx -> deposit_fits accounts data -> ledger_solvent L ->
  process ctx program_id accounts data L = Ok (tt, L') -> ledger_solvent L'.
Proof.
  intros Hinfos Hctx Hfits Hsol Hp. unfold process in Hp. prog_inv.
  match goal with H : Instruction_read _ = Ok _ |- _ => pose proof (Instruction_read_wf _ _ H) as Hwf; rename H into Hread end.
  destruct x as [key bond|amount|amount| | |wire| |]; cbn in Hwf.
  - destruct Hwf as [Hkey Hbond]. eapply register_preserves; [done|done|done| |done..].
    intros oi Hoi Hs. exact (Hfits key bond oi Hread Hoi Hs).
  - by eapply stake_preserves.
  - destruct Hwf. by eapply unstake_preserves.
  - by eapply claim_preserves.
  - by eapply prove_equivocation_preserves.
  - by eapply claim_victim_preserves.
  - by eapply begin_unbond_preserves.
  - by eapply withdraw_bond_preserves.
Qed.

Lemma chain_step_solvent L L' : ledger_solvent L -> chain_step L L' -> ledger_solvent L'.
Proof.
  intros Hsol Hstep. destruct Hstep as [L L' Hstep|L]; [|by apply purge_solvent].
  destruct Hstep as [ctx accounts data L L' Hi Hc Hf Hp|L L' Ho].
  - exact (process_solvent ctx accounts data L L' Hi Hc Hf Hsol Hp).
  - exact (other_solvent L L' Hsol Ho).
Qed.

Lemma steps_solvent L L' : ledger_solvent L -> rtc chain_step L L' -> ledger_solvent L'.
Proof. intros Hsol H. induction H; [done|]. eauto using chain_step_solvent. Qed.

Lemma chain_solvent L0 L : genesis L0 -> rtc chain_step L0 L -> ledger_solvent L.
Proof. intros Hg%genesis_solvent. by apply steps_solvent. Qed.
End preservation.
