(* ===== verification/Payouts.v ===== *)
(** * What the slashing program pays, and when

    Liveness and exactness of the payments: in every state the chain can reach, a staker's claim
    and withdrawal succeed and pay exactly what the pool's arithmetic says. *)
From S2P Require Import Prelude Constants Crypto Receipt Slashing Accounts Evidence Runtime Processor Solvency.

(** ** Running a handler forward *)

Lemma next_account_infos_take n infos l :
  take n infos = l -> length l = n -> next_account_infos n infos = Ok l.
Proof.
  intros <-. revert infos. induction n as [|n IH]; intros infos Hl; [done|].
  destruct infos as [|i infos]; [done|]. cbn in *. rewrite IH by lia. done.
Qed.

(** Runs one step of a handler whose outcome is known. *)
Ltac run_step H := apply prog_bind_Ok; do 2 eexists; split; [H|].
Ltac run_unit H := apply prog_bind_Ok; exists tt; eexists; split; [H|].

Section runs.
Context `{C : Crypto} `{R : Runtime}.
Implicit Types (L : ledger).

Lemma claim_run p accounts owner oi pi acc st d L :
  let claimed := Pool_claim (OperatorAccount_pool acc) (PositionAccount_position st) in
  take 3 accounts = [owner; oi; pi] -> ai_is_signer owner = true ->
  owner_at L (ai_key oi) = p -> owner_at L (ai_key pi) = p ->
  OperatorAccount_read (data_at L (ai_key oi)) = Ok acc ->
  PositionAccount_read (data_at L (ai_key pi)) = Ok st ->
  pa_owner st = ai_key owner -> pa_operator st = ai_key oi ->
  PositionAccount_write (PositionAccount_set_position st claimed.1) (data_at L (ai_key pi)) = Ok d ->
  let L1 := set_data L (ai_key pi) d in
  let L' := transfer L1 (ai_key oi) (ai_key owner) claimed.2 in
  claimed.2 <= lamports_at L (ai_key oi) -> reserved acc <= lamports_at L (ai_key oi) - claimed.2 ->
  lamports_at L' (ai_key owner) < 2 ^ 64 ->
  claim p accounts L = Ok (tt, L').
Proof.
  intros claimed Ht Hs Ho Hp Hacc Hst Hown Hopr Hd L1 L' Hle Hres Hlt. unfold claim.
  run_step ltac:(apply lift_Ok; split; [by eapply next_account_infos_take|reflexivity]).
  run_unit ltac:(by apply require_Ok). run_unit ltac:(by apply owned_by_Ok).
  run_unit ltac:(by apply owned_by_Ok). run_step ltac:(by apply (read_account_Ok (T := OperatorAccount))).
  run_step ltac:(by apply (read_account_Ok (T := PositionAccount))).
  rewrite decide_False by (rewrite Hown, Hopr; tauto). cbv zeta.
  run_unit ltac:(apply write_account_Ok; by exists d).
  apply pay_out_from_operator_Ok. by rewrite !lamports_at_set_data.
Qed.

Lemma unstake_run p accounts amount owner oi pi acc st pool' pos' paid do dp L :
  take 3 accounts = [owner; oi; pi] -> ai_is_signer owner = true ->
  owner_at L (ai_key oi) = p -> owner_at L (ai_key pi) = p ->
  OperatorAccount_read (data_at L (ai_key oi)) = Ok acc ->
  PositionAccount_read (data_at L (ai_key pi)) = Ok st ->
  pa_owner st = ai_key owner -> pa_operator st = ai_key oi ->
  Pool_unstake (OperatorAccount_pool acc) (PositionAccount_position st) amount = Ok (pool', pos', paid) ->
  let acc' := OperatorAccount_set_pool acc pool' in
  OperatorAccount_write acc' (data_at L (ai_key oi)) = Ok do ->
  let L1 := set_data L (ai_key oi) do in
  PositionAccount_write (PositionAccount_set_position st pos') (data_at L1 (ai_key pi)) = Ok dp ->
  let L2 := set_data L1 (ai_key pi) dp in
  let L' := transfer L2 (ai_key oi) (ai_key owner) amount in
  amount <= lamports_at L (ai_key oi) -> reserved acc' <= lamports_at L (ai_key oi) - amount ->
  lamports_at L' (ai_key owner) < 2 ^ 64 ->
  unstake p accounts amount L = Ok (tt, L').
Proof.
  intros Ht Hs Ho Hp Hacc Hst Hown Hopr Hun acc' Hdo L1 Hdp L2 L' Hle Hres Hlt. unfold unstake.
  run_step ltac:(apply lift_Ok; split; [by eapply next_account_infos_take|reflexivity]).
  run_unit ltac:(by apply require_Ok). run_unit ltac:(by apply owned_by_Ok).
  run_unit ltac:(by apply owned_by_Ok). run_step ltac:(by apply (read_account_Ok (T := OperatorAccount))).
  run_step ltac:(by apply (read_account_Ok (T := PositionAccount))).
  rewrite decide_False by (rewrite Hown, Hopr; tauto).
  run_step ltac:(apply lift_slash_Ok; split; [by apply map_err_Ok|reflexivity]). cbv zeta. cbn [fst snd].
  run_unit ltac:(apply write_account_Ok; by exists do).
  run_unit ltac:(apply write_account_Ok; by exists dp).
  apply pay_out_from_operator_Ok. by rewrite !lamports_at_set_data.
Qed.
End runs.

(** ** Payments out of a solvent ledger *)

Section payments.
Context `{C : Crypto} `{!CryptoLaws C} `{R : Runtime} `{!RuntimeLaws R}.
Context (program_id : bytes) (sound : bytes -> Prop) (not_system : program_id <> system_program_id).
Implicit Types (L : ledger).

(** The floor is computed without wrapping around. *)
Lemma reserved_exact ps n acc :
  operator_solvent ps n acc -> OperatorAccount_wf acc -> n < 2 ^ 64 ->
  reserved acc = rent OPERATOR_LEN + o_bond acc + o_pool_staked acc.
Proof.
  intros Hs Hwf Hn. destruct (operator_solvent_facts _ _ _ Hs Hwf) as (? & ? & ? & _).
  pose proof (rent_range OPERATOR_LEN). unfold reserved. fold (rent OPERATOR_LEN).
  rewrite !wrap64_small by (rewrite ?wrap64_small; split; lia). done.
Qed.

(** A position's operator is one of the program's operator accounts. *)
Lemma position_operator L k st :
  ledger_solvent program_id sound L -> sound (pa_operator st) -> owner_at L k = program_id ->
  PositionAccount_read (data_at L k) = Ok st ->
  exists acc, owner_at L (pa_operator st) = program_id /\
    OperatorAccount_read (data_at L (pa_operator st)) = Ok acc /\
    operator_in (views program_id L) (pa_operator st) = Some acc /\
    positions_in (views program_id L) (pa_operator st) !! k = Some (PositionAccount_position st) /\
    OperatorAccount_wf acc /\ PositionAccount_wf st.
Proof.
  intros Hsol Hs Ho Hst. pose proof (position_of_ledger _ not_system _ _ _ Ho Hst) as HP.
  destruct (proj2 (sol_position _ _ Hsol _ _ HP) Hs) as [acc HO]. exists acc.
  pose proof HO as (d & Hd & Hr)%operator_in_Some.
  apply (views_Some _ not_system) in Hd as [Hown <-].
  destruct (read_Ok (C := operator_codec) _ _ Hr) as (Wacc & _).
  destruct (read_Ok (C := position_codec) _ _ Hst) as (Wst & _).
  split_conj; try done. by apply positions_of_ledger.
Qed.

Lemma claim_pays L owner oi pi rest st :
  ledger_solvent program_id sound L -> sound (ai_key oi) -> ai_is_signer owner = true ->
  owner_at L (ai_key pi) = program_id -> PositionAccount_read (data_at L (ai_key pi)) = Ok st ->
  pa_owner st = ai_key owner -> pa_operator st = ai_key oi -> ai_key owner <> ai_key oi ->
  exists acc, OperatorAccount_read (data_at L (ai_key oi)) = Ok acc /\
    let earned := claimable (PositionAccount_position st) (o_reward_index acc) in
    (lamports_at L (ai_key owner) + earned < 2 ^ 64 ->
     exists L', claim program_id (owner :: oi :: pi :: rest) L = Ok (tt, L') /\
       lamports_at L' (ai_key owner) = lamports_at L (ai_key owner) + earned /\
       lamports_at L' (ai_key oi) = lamports_at L (ai_key oi) - earned /\
       PositionAccount_read (data_at L' (ai_key pi)) =
         Ok (PositionAccount_set_position st (MkPosition (pa_staked st) (o_reward_index acc) 0))).
Proof.
  intros Hsol Hs Hsig Ho Hst Hown Hopr Hne.
  destruct (position_operator L _ _ Hsol ltac:(by rewrite Hopr) Ho Hst) as (acc & Hoo & Hacc & HO & Hps & Wacc & Wst).
  rewrite Hopr in *. exists acc. split; [done|]. intros earned Hfit.
  pose proof (sol_operator _ _ Hsol _ _ HO Hs) as Hop.
  destruct (operator_solvent_facts _ _ _ Hop Wacc) as (? & ? & _ & Hfacts).
  destruct (Hfacts _ _ Hps) as [_ Hpay].
  destruct (Pool_claim (OperatorAccount_pool acc) (PositionAccount_position st)) as [q' e] eqn:Hcl.
  pose proof Hop as (dd & c & Hc & _ & _).
  destruct (claim_covered _ _ _ _ _ _ _ _ Hc Hps Hcl) as (_ & He & ? & Hq').
  change (reward_index (OperatorAccount_pool acc)) with (o_reward_index acc) in *.
  change (p_staked (PositionAccount_position st)) with (pa_staked st) in *.
  pose proof (sol_lam _ _ Hsol (ai_key oi)) as [_ Hu]. pose proof (rent_range OPERATOR_LEN).
  pose proof (operator_solvent_claim _ _ _ _ _ _ _ Hop Hps Hcl) as Hop'.
  destruct (operator_solvent_wf _ _ _ Hop') as (_ & _ & Hq).
  specialize (Hq (ai_key pi) q' (lookup_insert_eq _ _ _)).
  destruct (write_fits (C := position_codec) (PositionAccount_set_position st q') (data_at L (ai_key pi)))
    as (d & Hw & _ & _ & Hr); [by apply set_position_wf|by apply (read_Ok (C := position_codec)) in Hst as (_ & ? & _)|].
  eexists. split.
  { apply (claim_run _ _ owner oi pi acc st d); try done; rewrite Hcl; try done; cbn [snd].
    - subst earned. lia.
    - rewrite (reserved_exact _ _ _ Hop Wacc Hu). lia.
    - rewrite lamports_at_transfer, decide_False, decide_True, lamports_at_set_data by done. lia. }
  rewrite Hcl. cbn [snd]. split_conj.
  - rewrite lamports_at_transfer, decide_False, decide_True, lamports_at_set_data by done. lia.
  - rewrite lamports_at_transfer, decide_True, decide_False, lamports_at_set_data by done. lia.
  - rewrite data_at_transfer, data_at_set, decide_True by done. by rewrite Hq' in Hr.
Qed.

(** What a position can withdraw, the pool can pay. *)
Lemma Pool_unstake_fits P p amount :
  0 <= amount <= p_staked p -> exists P' p', Pool_unstake P p amount = Ok (P', p', amount).
Proof. intros ?. unfold Pool_unstake. rewrite decide_False by lia. eauto. Qed.

Lemma unstake_pays L owner oi pi rest st amount :
  ledger_solvent program_id sound L -> sound (ai_key oi) -> ai_is_signer owner = true ->
  owner_at L (ai_key pi) = program_id -> PositionAccount_read (data_at L (ai_key pi)) = Ok st ->
  pa_owner st = ai_key owner -> pa_operator st = ai_key oi -> ai_key owner <> ai_key oi ->
  0 <= amount <= pa_staked st -> lamports_at L (ai_key owner) + amount < 2 ^ 64 ->
  exists acc L', OperatorAccount_read (data_at L (ai_key oi)) = Ok acc /\
    unstake program_id (owner :: oi :: pi :: rest) amount L = Ok (tt, L') /\
    lamports_at L' (ai_key owner) = lamports_at L (ai_key owner) + amount /\
    lamports_at L' (ai_key oi) = lamports_at L (ai_key oi) - amount /\
    PositionAccount_read (data_at L' (ai_key pi)) =
      Ok (PositionAccount_set_position st
            (MkPosition (pa_staked st - amount) (o_reward_index acc)
               (claimable (PositionAccount_position st) (o_reward_index acc)))).
Proof.
  intros Hsol Hs Hsig Ho Hst Hown Hopr Hne Hamt Hfit.
  destruct (position_operator L _ _ Hsol ltac:(by rewrite Hopr) Ho Hst) as (acc & Hoo & Hacc & HO & Hps & Wacc & Wst).
  rewrite Hopr in *. exists acc. pose proof (sol_operator _ _ Hsol _ _ HO Hs) as Hop.
  destruct (operator_solvent_facts _ _ _ Hop Wacc) as (? & ? & Hall & Hfacts).
  destruct (Hfacts _ _ Hps) as [Hstk _]. cbn in Hstk.
  destruct (Pool_unstake_fits (OperatorAccount_pool acc) (PositionAccount_position st) amount Hamt)
    as (P' & q' & Hun).
  pose proof Hop as (dd & c & Hc & _ & _).
  destruct (unstake_covered _ _ _ _ _ _ _ _ _ _ Hc Hps (proj1 Hamt) Hun) as (_ & HP' & _ & _ & _ & Hq').
  pose proof (operator_solvent_unstake _ _ _ _ _ _ _ _ _ Hop Hps (proj1 Hamt) Hun) as Hop'.
  destruct (operator_solvent_wf _ _ _ Hop') as (Ws & Wi & Hq).
  specialize (Hq (ai_key pi) q' (lookup_insert_eq _ _ _)).
  pose proof (sol_lam _ _ Hsol (ai_key oi)) as [_ Hu]. pose proof (rent_range OPERATOR_LEN).
  assert (OperatorAccount_wf (OperatorAccount_set_pool acc P')) as Wacc' by by apply set_pool_wf.
  assert (ai_key oi <> ai_key pi) as Hpo.
  { intros Heq. rewrite Heq in Hacc. exact (read_disjoint (C := operator_codec) (D := position_codec)
      _ _ _ ltac:(done) Hacc Hst). }
  destruct (write_fits (C := operator_codec) (OperatorAccount_set_pool acc P') (data_at L (ai_key oi)))
    as (do & Hwo & _); [done|by apply (read_Ok (C := operator_codec)) in Hacc as (_ & ? & _)|].
  destruct (write_fits (C := position_codec) (PositionAccount_set_position st q') (data_at L (ai_key pi)))
    as (d & Hw & _ & _ & Hr); [by apply set_position_wf|by apply (read_Ok (C := position_codec)) in Hst as (_ & ? & _)|].
  eexists. split; [done|]. split.
  { apply (unstake_run _ _ amount owner oi pi acc st P' q' amount do d); try done.
    - by rewrite data_at_set, decide_False by done.
    - lia.
    - rewrite (reserved_exact _ _ _ Hop' Wacc'); [|lia]. destruct P'. cbn in *. lia.
    - rewrite lamports_at_transfer, decide_False, decide_True, !lamports_at_set_data by done. lia. }
  split_conj.
  - rewrite lamports_at_transfer, decide_False, decide_True, !lamports_at_set_data by done. lia.
  - rewrite lamports_at_transfer, decide_True, decide_False, !lamports_at_set_data by done. lia.
  - rewrite data_at_transfer, data_at_set, decide_True by done. by rewrite Hq' in Hr.
Qed.
End payments.
