(* ===== verification/Lifecycle.v ===== *)
(** * The life of an operator account

    [operator_step] is what the slashing program promises about one registered operator: who it is
    never changes, its bond only ever leaves by a slash or by a withdrawal whose timelock has run,
    and the clock of that timelock is started once.  Every instruction refines it. *)
From S2P Require Import Prelude Constants Crypto Receipt Slashing Accounts Evidence Runtime Processor Solvency.

Inductive operator_step (ctx : Context) (acc : OperatorAccount) : OperatorAccount -> Prop :=
| op_same : operator_step ctx acc acc
(** Staking and unstaking move the pool's stake; rewards are not touched. *)
| op_pool s :
    operator_step ctx acc (OperatorAccount_set_pool acc (MkPool s (o_reward_index acc)))
(** The bond is slashed in full, once, and the stakers' share is distributed. *)
| op_slash :
    0 < o_bond acc ->
    operator_step ctx acc
      (OperatorAccount_set_pool (with_bond acc 0 (o_unbond_at acc))
         (Pool_distribute (OperatorAccount_pool acc) (Split_of (o_bond acc))).1)
| op_begin_unbond slot :
    0 < o_bond acc -> o_unbond_at acc = 0 -> Clock_slot ctx = Ok slot ->
    operator_step ctx acc (with_bond acc (o_bond acc) (wrap64 (slot + UNBOND_SLOTS)))
| op_withdraw slot :
    o_unbond_at acc <> 0 -> Clock_slot ctx = Ok slot -> o_unbond_at acc <= slot ->
    operator_step ctx acc (with_bond acc 0 0).

Section refinement.
Context `{C : Crypto} `{!CryptoLaws C} `{R : Runtime} `{!RuntimeLaws R}.
Context (program_id : bytes) (not_system : program_id <> system_program_id).
Implicit Types (L : ledger) (o : bytes).

(** An instruction, seen from one operator. *)
Definition refines ctx L L' : Prop :=
  forall o acc, operator_in (views program_id L) o = Some acc ->
  exists acc', operator_in (views program_id L') o = Some acc' /\ operator_step ctx acc acc'.

Lemma refines_views ctx L L' : views program_id L' = views program_id L -> refines ctx L L'.
Proof. intros Hv o acc Ho. rewrite Hv. exists acc. split; [done|constructor]. Qed.

(** Writing an account that is not an operator. *)
Lemma refines_other ctx L L' k d :
  views program_id L' = <[k := d]> (views program_id L) ->
  operator_in (views program_id L) k = None -> refines ctx L L'.
Proof.
  intros Hv Hk o acc Ho. rewrite Hv, operator_in_insert. exists acc.
  rewrite decide_False by congruence. split; [done|constructor].
Qed.

(** Writing an operator by one of its steps; other accounts may change if they are not operators. *)
Lemma refines_operator ctx L L' o acc acc' d :
  operator_in (views program_id L) o = Some acc -> OperatorAccount_read d = Ok acc' ->
  operator_step ctx acc acc' ->
  (forall x, is_Some (operator_in (views program_id L) x) ->
     views program_id L' !! x = <[o := d]> (views program_id L) !! x) ->
  refines ctx L L'.
Proof.
  intros Ho Hd Hs Hv x accx Hx. unfold operator_in. rewrite (Hv x) by eauto.
  fold (operator_in (<[o := d]> (views program_id L)) x). rewrite operator_in_insert.
  destruct (decide (o = x)) as [<-|].
  - rewrite Hd. exists acc'. split; [done|]. congruence.
  - exists accx. split; [done|constructor].
Qed.

Lemma refines_trans_other ctx L L1 L' :
  (forall o acc, operator_in (views program_id L) o = Some acc ->
     operator_in (views program_id L1) o = Some acc) -> refines ctx L1 L' -> refines ctx L L'.
Proof. intros H1 H2 o acc Ho. apply H2. by apply H1. Qed.

Lemma position_not_operator L k st :
  owner_at L k = program_id -> PositionAccount_read (data_at L k) = Ok st ->
  operator_in (views program_id L) k = None.
Proof.
  intros Ho Hst. pose proof (position_of_ledger _ not_system _ _ _ Ho Hst) as HP.
  apply eq_None_not_Some. intros [acc HO]. exact (operator_not_position _ _ _ _ HO HP).
Qed.

Lemma claim_refines ctx accounts L L' :
  claim program_id accounts L = Ok (tt, L') -> refines ctx L L'.
Proof.
  intros (owner & oi & pi & acc & st & d & _ & _ & Ho & Hp & Hacc & Hst & _ & _ & _ & _ & _ & -> & _)%claim_Ok.
  apply (refines_other _ _ _ (ai_key pi) d); [|by eapply position_not_operator].
  by rewrite views_transfer, views_set_data by done.
Qed.

(** Staking and unstaking leave a machine integer and the index they found. *)
Lemma Pool_stake_pool P p amount P' p' :
  Pool_stake P p amount = Ok (P', p') -> exists s, is_u64 s /\ P' = MkPool s (reward_index P).
Proof.
  unfold Pool_stake. repeat case_decide; [done..|]. intros [= <- _]. eexists. split; [|done].
  apply wrap64_range.
Qed.
Lemma Pool_unstake_pool P p amount P' p' paid :
  Pool_unstake P p amount = Ok (P', p', paid) -> exists s, is_u64 s /\ P' = MkPool s (reward_index P).
Proof.
  unfold Pool_unstake. case_decide; [done|]. intros [= <- _ _]. eexists. split; [|done].
  apply wrap64_range.
Qed.

Lemma unstake_refines ctx accounts amount L L' :
  unstake program_id accounts amount L = Ok (tt, L') -> refines ctx L L'.
Proof.
  intros (owner & oi & pi & acc & st & P' & q' & paid & do & dp & _ & _ & Ho & Hp & Hacc & Hst &
    Hown & Hopr & Hun & Hdo & _ & _ & _ & -> & _)%unstake_Ok.
  pose proof (position_not_operator _ _ _ Hp Hst) as Hpn.
  destruct (read_Ok (C := operator_codec) _ _ Hacc) as (Wacc & _).
  apply Pool_unstake_pool in Hun as (s & Hs & ->).
  apply (write_Ok (C := operator_codec)) in Hdo as (_ & _ & _ & Hdo);
    [|apply set_pool_wf; [done..|]; by destruct Wacc as (_ & _ & _ & _ & ? & _)].
  eapply (refines_operator _ _ _ (ai_key oi) acc); [by apply operator_of_ledger|exact Hdo|constructor|].
  intros x [accx Hx]. rewrite views_transfer, !views_set_data by (rewrite ?owner_at_set_data; done).
  rewrite lookup_insert_ne; [done|]. congruence.
Qed.

(** Opening a position touches at most a new account. *)
Lemma open_position_views owner oi pi system L st L' :
  open_position program_id owner oi pi system L = Ok (st, L') ->
  operator_in (views program_id L) (ai_key pi) = None /\
  (forall k, k <> ai_key pi -> views program_id L' !! k = views program_id L !! k) /\
  owner_at L' (ai_key pi) = program_id.
Proof.
  intros (_ & _ & [(f & bump & L1 & d & _ & _ & _ & Hcr & _ & ->)|(Ho & Hst & ->)])%open_position_Ok.
  - destruct (views_create _ not_system _ _ _ _ _ _ _ _ Hcr) as (Hnone & HV & _ & _ & _ & _ & _ & Hown & _).
    split_conj; [by unfold operator_in; rewrite Hnone| |by rewrite owner_at_set_data].
    intros k Hk. rewrite views_set_data, HV, insert_insert_eq by done. by rewrite lookup_insert_ne.
  - split_conj; [by eapply position_not_operator|done..].
Qed.

Lemma stake_refines ctx accounts amount L L' :
  stake program_id accounts amount L = Ok (tt, L') -> refines ctx L L'.
Proof.
  intros (owner & oi & pi & system & acc & st & L1 & P' & q' & L2 & do & dp & _ & _ & Ho & Hacc & Hopen &
    Hst & Htr & Hdo & _ & ->)%stake_Ok.
  destruct (open_position_views _ _ _ _ _ _ _ Hopen) as (Hpn & HV1 & Hpo).
  destruct (views_system_transfer _ not_system _ _ _ _ _ _ Htr) as (HV2 & _ & _ & _ & _ & ->).
  pose proof (operator_of_ledger _ not_system _ _ _ Ho Hacc) as HO.
  destruct (read_Ok (C := operator_codec) _ _ Hacc) as (Wacc & _).
  apply Pool_stake_pool in Hst as (s & Hs & ->).
  assert (ai_key oi <> ai_key pi) as Hne by congruence.
  assert (owner_at L1 (ai_key oi) = program_id) as Ho1.
  { apply (views_Some _ not_system L1 _ (data_at L (ai_key oi))). rewrite HV1 by done. by apply views_Some. }
  apply (write_Ok (C := operator_codec)) in Hdo as (_ & _ & _ & Hdo);
    [|apply set_pool_wf; [done..|]; by destruct Wacc as (_ & _ & _ & _ & ? & _)].
  eapply (refines_operator _ _ _ (ai_key oi) acc); [done|exact Hdo|constructor|].
  intros x [accx Hx]. rewrite !views_set_data, HV2 by (rewrite ?owner_at_set_data, ?owner_at_transfer; done).
  assert (ai_key pi <> x) by congruence. rewrite lookup_insert_ne by done.
  destruct (decide (ai_key oi = x)) as [->|]; [by rewrite !lookup_insert_eq|].
  rewrite !lookup_insert_ne by done. by apply HV1.
Qed.

Lemma prove_equivocation_refines ctx accounts L L' :
  prove_equivocation ctx program_id accounts L = Ok (tt, L') -> refines ctx L L'.
Proof.
  intros (accuser & oi & ci & burn_to & sysvar & system & acc & e & bump & f & L1 & wronged & hash & slot &
    dc & do & _ & _ & _ & Ho & Hacc & _ & _ & _ & Hbond & _ & Hcr & _ & _ & _ & _ & Hdo & _ & _ & _ & -> & _)
    %prove_equivocation_Ok.
  destruct (views_create _ not_system _ _ _ _ _ _ _ _ Hcr) as (Hnone & HV & _ & _ & _ & _ & _ & Hown & _).
  pose proof (operator_of_ledger _ not_system _ _ _ Ho Hacc) as HO.
  destruct (read_Ok (C := operator_codec) _ _ Hacc) as (Wacc & _).
  pose proof Wacc as (_ & _ & [? ?] & Ws & Wi & Wu).
  assert (ai_key ci <> ai_key oi) as Hne.
  { intros Heq. rewrite Heq in Hnone. apply operator_in_Some in HO as (? & ? & _). congruence. }
  assert (owner_at L1 (ai_key oi) = program_id) as Ho1.
  { eapply (views_Some _ not_system). rewrite HV, lookup_insert_ne by done. by apply views_Some. }
  apply (write_Ok (C := operator_codec)) in Hdo as (_ & _ & _ & Hdo).
  2: { apply set_pool_wf; [by apply with_bond_wf; [|split|]|..]; unfold Pool_distribute;
       case_decide; try done. apply wrap128_range. }
  eapply (refines_operator _ _ _ (ai_key oi) acc); [done|exact Hdo|constructor; lia|].
  intros x [accx Hx]. rewrite !views_transfer, !views_set_data, HV by (rewrite ?owner_at_set_data; done).
  assert (ai_key ci <> x).
  { intros <-. apply operator_in_Some in Hx as (? & ? & _). congruence. }
  destruct (decide (ai_key oi = x)) as [->|]; [by rewrite !lookup_insert_eq|].
  by rewrite !lookup_insert_ne by done.
Qed.

Lemma withdraw_bond_refines ctx accounts L L' :
  withdraw_bond ctx program_id accounts L = Ok (tt, L') -> refines ctx L L'.
Proof.
  intros (authority & oi & acc & slot & d & _ & _ & Ho & Hacc & _ & Hun & Hslot & Hle & Hd & _ & _ & -> & _)
    %withdraw_bond_Ok.
  destruct (read_Ok (C := operator_codec) _ _ Hacc) as (Wacc & _).
  apply (write_Ok (C := operator_codec)) in Hd as (_ & _ & _ & Hd); [|by apply with_bond_wf].
  eapply (refines_operator _ _ _ (ai_key oi) acc); [by apply operator_of_ledger|exact Hd|by econstructor|].
  intros x _. by rewrite views_transfer, views_set_data by done.
Qed.

Lemma begin_unbond_refines ctx accounts L L' :
  begin_unbond ctx program_id accounts L = Ok (tt, L') -> refines ctx L L'.
Proof.
  intros (authority & oi & acc & _ & _ & Ho & Hacc & _ & Hb & [[_ ->]|(Hu & slot & d & Hslot & Hd & ->)])
    %begin_unbond_Ok; [by apply refines_views|].
  destruct (read_Ok (C := operator_codec) _ _ Hacc) as (Wacc & _). pose proof Wacc as (_ & _ & [? ?] & _).
  apply (write_Ok (C := operator_codec)) in Hd as (_ & _ & _ & Hd);
    [|apply with_bond_wf; [done|by split|apply wrap64_range]].
  eapply (refines_operator _ _ _ (ai_key oi) acc); [by apply operator_of_ledger|exact Hd| |].
  - econstructor; [lia|done|done].
  - intros x _. by rewrite views_set_data by done.
Qed.

Lemma claim_victim_refines ctx accounts wire L L' :
  claim_victim program_id accounts wire L = Ok (tt, L') -> refines ctx L L'.
Proof.
  intros (claimant & ci & cv & d & _ & _ & Ho & Hcv & _ & _ & _ & _ & -> & _)%claim_victim_Ok.
  apply (refines_other _ _ _ (ai_key ci) d); [by rewrite views_transfer, views_set_data by done|].
  apply eq_None_not_Some. intros [acc HO].
  exact (operator_not_conviction _ _ _ _ HO (conviction_of_ledger _ not_system _ _ _ Ho Hcv)).
Qed.

Lemma register_refines ctx accounts key bond L L' :
  register program_id accounts key bond L = Ok (tt, L') -> refines ctx L L'.
Proof.
  intros (authority & oi & system & f & bump & L1 & d & _ & _ & _ & _ & _ & Hcr & _ & ->)%register_Ok.
  destruct (views_create _ not_system _ _ _ _ _ _ _ _ Hcr) as (Hnone & HV & _ & _ & _ & _ & _ & Hown & _).
  apply (refines_other _ _ _ (ai_key oi) d).
  - by rewrite views_set_data, HV, insert_insert_eq by done.
  - unfold operator_in. by rewrite Hnone.
Qed.

Lemma process_refines ctx accounts data L L' :
  process ctx program_id accounts data L = Ok (tt, L') -> refines ctx L L'.
Proof.
  intros Hp. unfold process in Hp. prog_inv. destruct x as [key bond|amount|amount| | |wire| |].
  - by eapply register_refines.
  - by eapply stake_refines.
  - by eapply unstake_refines.
  - by eapply claim_refines.
  - by eapply prove_equivocation_refines.
  - by eapply claim_victim_refines.
  - by eapply begin_unbond_refines.
  - by eapply withdraw_bond_refines.
Qed.

(** ** Histories *)

Section histories.
Context (sound : bytes -> Prop).

(** A stretch of the chain, with the contexts in which the program ran: the steps of [chain_step],
    within transactions and across them. *)
Inductive chain_trace : list Context -> ledger -> ledger -> Prop :=
| trace_start L : chain_trace [] L L
| trace_program ctxs ctx accounts data L L1 L2 :
    chain_trace ctxs L L1 -> infos_wf accounts -> context_wf ctx -> deposit_fits sound accounts data ->
    process ctx program_id accounts data L1 = Ok (tt, L2) -> chain_trace (ctxs ++ [ctx]) L L2
| trace_other ctxs L L1 L2 :
    chain_trace ctxs L L1 -> other_instruction program_id L1 L2 -> chain_trace ctxs L L2
| trace_commit ctxs L L1 : chain_trace ctxs L L1 -> chain_trace ctxs L (purge L1).

Lemma trace_chain ctxs L L' : chain_trace ctxs L L' -> rtc (chain_step program_id sound) L L'.
Proof.
  induction 1 as [|ctxs ctx accounts data L L1 L2 Ht IH Hi Hc Hf Hp|ctxs L L1 L2 Ht IH Ho|ctxs L L1 Ht IH];
    [apply rtc_refl|eapply rtc_r; [exact IH|]..].
  - apply chain_instruction. by econstructor.
  - by apply chain_instruction, step_other.
  - apply chain_commit.
Qed.

Lemma chain_traced L L' : rtc (chain_step program_id sound) L L' -> exists ctxs, chain_trace ctxs L L'.
Proof.
  revert L'. apply rtc_ind_r; [exists []; apply trace_start|].
  intros L1 L2 _ [L3 L4 [ctx accounts data L5 L6 Hi Hc Hf Hp|L5 L6 Ho]|L3] [ctxs Ht].
  - exists (ctxs ++ [ctx]). by eapply trace_program.
  - exists ctxs. by eapply trace_other.
  - exists ctxs. by apply trace_commit.
Qed.

Lemma other_operator L L' o acc :
  other_instruction program_id L L' -> operator_in (views program_id L) o = Some acc ->
  operator_in (views program_id L') o = Some acc.
Proof.
  intros (_ & Hkeep & _) (d & Hd & Hr)%operator_in_Some.
  apply (views_Some _ not_system) in Hd as [Ho <-]. destruct (Hkeep o Ho) as (Ho' & Hd & _).
  rewrite <- Hd in Hr. apply operator_in_Some. eexists. split; [|exact Hr]. by apply views_Some.
Qed.

(** Along any history, one operator goes through its steps. *)
Lemma operator_history (P : list Context -> OperatorAccount -> Prop) ctxs L L' o acc :
  ledger_solvent program_id sound L -> sound o -> chain_trace ctxs L L' ->
  operator_in (views program_id L) o = Some acc -> P [] acc ->
  (forall ctxs ctx a a', P ctxs a -> operator_step ctx a a' -> P (ctxs ++ [ctx]) a') ->
  exists acc', operator_in (views program_id L') o = Some acc' /\ P ctxs acc'.
Proof.
  intros Hsol Hs Ht Ho H0 Hstep. revert Hsol Ho.
  induction Ht as [|ctxs ctx accounts data L L1 L2 Ht IH Hi Hc Hf Hp|ctxs L L1 L2 Ht IH Hother|ctxs L L1 Ht IH]; intros Hsol Ho.
  - eauto.
  - destruct (IH Hsol Ho) as (acc1 & Ho1 & Hacc1).
    destruct (process_refines _ _ _ _ _ Hp _ _ Ho1) as (acc2 & Ho2 & Hstp). exists acc2. eauto.
  - destruct (IH Hsol Ho) as (acc1 & Ho1 & Hacc1). exists acc1. split; [|done].
    by eapply other_operator.
  - destruct (IH Hsol Ho) as (acc1 & Ho1 & Hacc1). exists acc1. split; [|done].
    assert (ledger_solvent program_id sound L1) as Hsol1 by by eapply steps_solvent, trace_chain.
    unfold operator_in. rewrite (purge_keeps _ sound); [exact Ho1|done|left; eauto].
Qed.
End histories.

Lemma operator_step_identity ctx a a' :
  operator_step ctx a a' ->
  o_authority a' = o_authority a /\ o_signing_key a' = o_signing_key a /\
  (0 <= o_bond a -> 0 <= o_bond a' <= o_bond a).
Proof. destruct 1; cbn; split_conj; lia || done. Qed.

(** A running timelock was started by an earlier instruction, at the slot it says. *)
Definition timelock_started (ctxs : list Context) (a : OperatorAccount) : Prop :=
  o_unbond_at a <> 0 -> exists ctx slot, In ctx ctxs /\ Clock_slot ctx = Ok slot /\
    o_unbond_at a = wrap64 (slot + UNBOND_SLOTS).

Lemma timelock_step ctxs ctx a a' :
  timelock_started ctxs a -> operator_step ctx a a' -> timelock_started (ctxs ++ [ctx]) a'.
Proof.
  intros Ha Hs. assert (forall u, o_unbond_at a = u -> u <> 0 -> exists ctx0 slot,
    In ctx0 (ctxs ++ [ctx]) /\ Clock_slot ctx0 = Ok slot /\ u = wrap64 (slot + UNBOND_SLOTS)) as Hold.
  { intros u <- Hu. destruct (Ha Hu) as (c & s & ? & ? & ?). exists c, s. rewrite in_app_iff. eauto. }
  unfold timelock_started. destruct Hs as [|s| |slot Hb Hu Hs|slot Hu Hs Hle]; cbn; intros Hne; eauto.
  - exists ctx, slot. rewrite in_app_iff. cbn. auto.
  - done.
Qed.
End refinement.
