(* ===== verification/Kinds.v ===== *)
(** * What kind of account each account is

    The program tells its accounts apart by the data they hold.  An account once written as an
    operator, a position or a conviction stays one, of the same identity, whatever happens on the
    chain: no instruction writes one layout over another. *)
From S2P Require Import Prelude Constants Crypto Receipt Slashing Accounts Evidence Runtime Processor Solvency Lifecycle.

(** The fields of an account that say which one it is. *)
Inductive Identity : Type :=
| IsOperator (authority signing_key : bytes)
| IsPosition (owner operator : bytes)
| IsConviction (operator wronged wronged_tx_hash : bytes).

Definition identity (d : bytes) : option Identity :=
  match OperatorAccount_read d, PositionAccount_read d, ConvictionAccount_read d with
  | Ok a, _, _ => Some (IsOperator (o_authority a) (o_signing_key a))
  | _, Ok p, _ => Some (IsPosition (pa_owner p) (pa_operator p))
  | _, _, Ok c => Some (IsConviction (cv_operator c) (cv_wronged c) (cv_wronged_tx_hash c))
  | _, _, _ => None
  end.

Lemma identity_operator d a :
  OperatorAccount_read d = Ok a -> identity d = Some (IsOperator (o_authority a) (o_signing_key a)).
Proof. unfold identity. by intros ->. Qed.

Lemma identity_position d p :
  PositionAccount_read d = Ok p -> identity d = Some (IsPosition (pa_owner p) (pa_operator p)).
Proof.
  intros H. destruct (read_position_only _ _ H) as [Ho _]. unfold identity. rewrite H.
  by destruct (OperatorAccount_read d).
Qed.

Lemma identity_conviction d c :
  ConvictionAccount_read d = Ok c ->
  identity d = Some (IsConviction (cv_operator c) (cv_wronged c) (cv_wronged_tx_hash c)).
Proof.
  intros H. destruct (read_conviction_only _ _ H) as [Ho Hp]. unfold identity. rewrite H.
  by destruct (OperatorAccount_read d), (PositionAccount_read d).
Qed.

(** ** Writing keeps the identity *)

Lemma write_operator_identity a into d :
  length (o_authority a) = 32%nat -> length (o_signing_key a) = 32%nat -> OperatorAccount_write a into = Ok d ->
  identity d = Some (IsOperator (o_authority a) (o_signing_key a)).
Proof.
  intros H1 H2 Hw. destruct (write_operator_reads _ _ _ H1 H2 Hw) as (a' & Hr & <- & <- & _). by apply identity_operator.
Qed.

Lemma write_position_identity p into d :
  length (pa_owner p) = 32%nat -> length (pa_operator p) = 32%nat -> PositionAccount_write p into = Ok d ->
  identity d = Some (IsPosition (pa_owner p) (pa_operator p)).
Proof.
  intros H1 H2 Hw. destruct (write_position_reads _ _ _ H1 H2 Hw) as (p' & Hr & <- & <- & _). by apply identity_position.
Qed.

Lemma write_conviction_identity c into d :
  length (cv_operator c) = 32%nat -> length (cv_wronged c) = 64%nat -> length (cv_wronged_tx_hash c) = 32%nat ->
  ConvictionAccount_write c into = Ok d ->
  identity d = Some (IsConviction (cv_operator c) (cv_wronged c) (cv_wronged_tx_hash c)).
Proof.
  intros H1 H2 H3 Hw. destruct (write_conviction_reads _ _ _ H1 H2 H3 Hw) as (c' & Hr & <- & <- & <- & _).
  by apply identity_conviction.
Qed.

(** ** Steps keep identities *)

Section kinds.
Context `{C : Crypto} `{!CryptoLaws C} `{R : Runtime} `{!RuntimeLaws R}.
Context (program_id : bytes) (sound : bytes -> Prop) (not_system : program_id <> system_program_id).
Implicit Types (L : ledger) (k d : bytes) (V : store).

Definition stays V V' : Prop :=
  forall k d i, V !! k = Some d -> identity d = Some i -> exists d', V' !! k = Some d' /\ identity d' = Some i.

Lemma stays_refl V : stays V V.
Proof. intros k d i. eauto. Qed.

Lemma stays_trans V1 V2 V3 : stays V1 V2 -> stays V2 V3 -> stays V1 V3.
Proof. intros H1 H2 k d i Hd Hi. destruct (H1 k d i Hd Hi) as (d' & Hd' & Hi'). eauto. Qed.

(** Writing an account that was not there, or writing it again as what it is. *)
Lemma stays_new V k d' : V !! k = None -> stays V (<[k := d']> V).
Proof. intros Hn x d i Hd Hi. exists d. rewrite lookup_insert_ne by congruence. done. Qed.

Lemma stays_again V k d d' : V !! k = Some d -> identity d' = identity d -> stays V (<[k := d']> V).
Proof.
  intros Hk Hid x dx i Hd Hi. destruct (decide (k = x)) as [<-|].
  - exists d'. rewrite lookup_insert_eq. split; [done|]. congruence.
  - exists dx. by rewrite lookup_insert_ne.
Qed.

Lemma stays_operator V k d0 acc acc' into d :
  V !! k = Some d0 -> OperatorAccount_read d0 = Ok acc -> OperatorAccount_write acc' into = Ok d ->
  o_authority acc' = o_authority acc -> o_signing_key acc' = o_signing_key acc -> stays V (<[k := d]> V).
Proof.
  intros Hk Hr Hw E1 E2. apply (stays_again _ _ d0); [done|].
  destruct (read_Ok (C := operator_codec) _ _ Hr) as ((? & ? & _) & _).
  rewrite (identity_operator _ _ Hr), (write_operator_identity acc' into) by congruence. by rewrite E1, E2.
Qed.

Lemma stays_position V k d0 p into d :
  V !! k = Some d0 -> identity d0 = Some (IsPosition (pa_owner p) (pa_operator p)) ->
  length (pa_owner p) = 32%nat -> length (pa_operator p) = 32%nat -> PositionAccount_write p into = Ok d ->
  stays V (<[k := d]> V).
Proof.
  intros Hk Hi H1 H2 Hw. apply (stays_again _ _ d0); [done|]. by rewrite Hi, (write_position_identity p into).
Qed.

Lemma view_of L k : owner_at L k = program_id -> views program_id L !! k = Some (data_at L k).
Proof. intros Ho. by apply views_Some. Qed.

Lemma kinds_differ V (k k' : bytes) d d' i i' :
  V !! k = Some d -> identity d = Some i -> V !! k' = Some d' -> identity d' = Some i' -> i <> i' -> k <> k'.
Proof. congruence. Qed.

Lemma claim_stays accounts L L' :
  claim program_id accounts L = Ok (tt, L') -> stays (views program_id L) (views program_id L').
Proof.
  intros (owner & oi & pi & acc & st & d & _ & _ & _ & Hp & _ & Hst & _ & _ & Hd & _ & _ & -> & _)%claim_Ok.
  rewrite views_transfer, views_set_data by done.
  destruct (read_Ok (C := position_codec) _ _ Hst) as ((? & ? & _) & _).
  refine (stays_position _ _ _ _ _ _ _ _ _ _ Hd); [by apply view_of|exact (identity_position _ _ Hst)|done..].
Qed.

(** Writing an operator and one of its positions. *)
Lemma stays_both V (o k : bytes) (d0 d1 into into' do dp : bytes) acc acc' p :
  V !! o = Some d0 -> OperatorAccount_read d0 = Ok acc -> OperatorAccount_write acc' into = Ok do ->
  o_authority acc' = o_authority acc -> o_signing_key acc' = o_signing_key acc ->
  V !! k = Some d1 -> identity d1 = Some (IsPosition (pa_owner p) (pa_operator p)) ->
  length (pa_owner p) = 32%nat -> length (pa_operator p) = 32%nat -> PositionAccount_write p into' = Ok dp ->
  stays V (<[k := dp]> (<[o := do]> V)).
Proof.
  intros Ho Hr Hw E1 E2 Hk Hi H1 H2 Hwp.
  assert (o <> k) by (eapply kinds_differ; [exact Ho|by apply identity_operator|exact Hk|exact Hi|done]).
  eapply stays_trans; [exact (stays_operator _ _ _ _ _ _ _ Ho Hr Hw E1 E2)|].
  refine (stays_position _ _ _ _ _ _ _ Hi H1 H2 Hwp). by rewrite lookup_insert_ne.
Qed.

Lemma unstake_stays accounts amount L L' :
  unstake program_id accounts amount L = Ok (tt, L') -> stays (views program_id L) (views program_id L').
Proof.
  intros (owner & oi & pi & acc & st & P' & q' & paid & do & dp & _ & _ & Ho & Hp & Hacc & Hst & _ & _ & _ &
    Hdo & Hdp & _ & _ & -> & _)%unstake_Ok.
  rewrite views_transfer, !views_set_data by (rewrite ?owner_at_set_data; done).
  destruct (read_Ok (C := position_codec) _ _ Hst) as ((? & ? & _) & _).
  refine (stays_both _ _ _ _ _ _ _ _ _ _ _ _ _ Hacc Hdo _ _ _ _ _ _ Hdp);
    [by apply view_of|done|done|by apply view_of|exact (identity_position _ _ Hst)|done..].
Qed.

(** Opening a position makes a new account or finds one. *)
Lemma open_position_stays owner oi pi system L st L' :
  length (ai_key owner) = 32%nat -> length (ai_key oi) = 32%nat ->
  open_position program_id owner oi pi system L = Ok (st, L') ->
  stays (views program_id L) (views program_id L') /\
  length (pa_owner st) = 32%nat /\ length (pa_operator st) = 32%nat /\
  owner_at L' (ai_key pi) = program_id /\
  exists d, views program_id L' !! ai_key pi = Some d /\ identity d = Some (IsPosition (pa_owner st) (pa_operator st)).
Proof.
  intros Hl1 Hl2 (Eo & Ep & [(f & bump & L1 & d & Est & _ & _ & Hcr & Hw & ->)|(Ho & Hst & ->)])%open_position_Ok;
    rewrite Eo, Ep.
  - destruct (views_create _ not_system _ _ _ _ _ _ _ _ Hcr) as (Hnone & HV & _ & _ & _ & _ & _ & Hown & _).
    rewrite views_set_data, HV, insert_insert_eq by done. split_conj; [by apply stays_new|done|done|by rewrite owner_at_set_data|].
    exists d. rewrite lookup_insert_eq. split; [done|]. rewrite (write_position_identity st (data_at L1 (ai_key pi))); congruence.
  - split_conj; [apply stays_refl|done|done|done|]. exists (data_at L (ai_key pi)).
    split; [by apply view_of|]. rewrite (identity_position _ _ Hst). congruence.
Qed.

Lemma stake_stays accounts amount L L' :
  infos_wf accounts -> stake program_id accounts amount L = Ok (tt, L') ->
  stays (views program_id L) (views program_id L').
Proof.
  intros Hinfos (owner & oi & pi & system & acc & st & L1 & P' & q' & L2 & do & dp & Htake & _ & Ho & Hacc & Hopen &
    _ & Htr & Hdo & Hdp & ->)%stake_Ok.
  apply infos_wf_take with (n := 4%nat) in Htake; [|done].
  inversion_clear Htake as [|? ? Hlo Htake']. inversion_clear Htake' as [|? ? Hlp _].
  destruct (open_position_views _ not_system _ _ _ _ _ _ _ Hopen) as (Hpn & HV1 & _).
  destruct (open_position_stays _ _ _ _ _ _ _ Hlo Hlp Hopen) as (Hs & H1 & H2 & Hpo & d & Hd & Hi).
  destruct (views_system_transfer _ not_system _ _ _ _ _ _ Htr) as (HV2 & _ & _ & _ & _ & ->).
  assert (ai_key oi <> ai_key pi) as Hne.
  { intros Heq. rewrite <-Heq in Hpn. by rewrite (operator_of_ledger _ not_system _ _ _ Ho Hacc) in Hpn. }
  assert (views program_id L1 !! ai_key oi = Some (data_at L (ai_key oi))) as Hv by (rewrite HV1; [by apply view_of|done]).
  pose proof (proj1 (views_Some _ not_system L1 _ _) Hv) as [Ho1 _].
  rewrite !views_set_data, HV2 by (rewrite ?owner_at_set_data, ?owner_at_transfer; done).
  eapply stays_trans; [exact Hs|].
  refine (stays_both _ _ _ _ _ _ _ _ _ _ _ _ Hv Hacc Hdo _ _ Hd _ _ _ Hdp); [done|done|exact Hi|done..].
Qed.

Lemma prove_equivocation_stays ctx accounts L L' :
  prove_equivocation ctx program_id accounts L = Ok (tt, L') -> stays (views program_id L) (views program_id L').
Proof.
  intros (accuser & oi & ci & burn_to & sysvar & system & acc & e & bump & f & L1 & wronged & hash & slot &
    dc & do & _ & _ & _ & Ho & Hacc & _ & _ & _ & _ & _ & Hcr & _ & _ & _ & _ & Hdo & _ & _ & _ & -> & _)
    %prove_equivocation_Ok.
  destruct (views_create _ not_system _ _ _ _ _ _ _ _ Hcr) as (Hnone & HV & _ & _ & _ & _ & _ & Hown & _).
  pose proof (view_of _ _ Ho) as Hv. assert (ai_key ci <> ai_key oi) as Hne by congruence.
  assert (owner_at L1 (ai_key oi) = program_id) as Ho1.
  { eapply (views_Some _ not_system). rewrite HV, lookup_insert_ne by done. exact Hv. }
  rewrite !views_transfer, !views_set_data, HV, insert_insert_eq by (rewrite ?owner_at_set_data; done).
  eapply stays_trans; [by apply (stays_new _ (ai_key ci) dc)|].
  refine (stays_operator _ _ _ _ _ _ _ _ Hacc Hdo _ _); [by rewrite lookup_insert_ne|done..].
Qed.

Lemma withdraw_bond_stays ctx accounts L L' :
  withdraw_bond ctx program_id accounts L = Ok (tt, L') -> stays (views program_id L) (views program_id L').
Proof.
  intros (authority & oi & acc & slot & d & _ & _ & Ho & Hacc & _ & _ & _ & _ & Hd & _ & _ & -> & _)%withdraw_bond_Ok.
  rewrite views_transfer, views_set_data by done.
  by refine (stays_operator _ _ _ _ _ _ _ (view_of _ _ Ho) Hacc Hd _ _).
Qed.

Lemma begin_unbond_stays ctx accounts L L' :
  begin_unbond ctx program_id accounts L = Ok (tt, L') -> stays (views program_id L) (views program_id L').
Proof.
  intros (authority & oi & acc & _ & _ & Ho & Hacc & _ & _ & [[_ ->]|(_ & slot & d & _ & Hd & ->)])%begin_unbond_Ok;
    [apply stays_refl|]. rewrite views_set_data by done.
  by refine (stays_operator _ _ _ _ _ _ _ (view_of _ _ Ho) Hacc Hd _ _).
Qed.

Lemma claim_victim_stays accounts wire L L' :
  claim_victim program_id accounts wire L = Ok (tt, L') -> stays (views program_id L) (views program_id L').
Proof.
  intros (claimant & ci & cv & d & _ & _ & Ho & Hcv & _ & _ & Hd & _ & -> & _)%claim_victim_Ok.
  rewrite views_transfer, views_set_data by done. apply (stays_again _ _ (data_at L (ai_key ci))); [by apply view_of|].
  destruct (read_Ok (C := conviction_codec) _ _ Hcv) as ((H1 & H2 & H3 & _) & _).
  rewrite (identity_conviction _ _ Hcv). by refine (write_conviction_identity _ _ _ _ _ _ Hd).
Qed.

Lemma register_stays accounts key bond L L' :
  register program_id accounts key bond L = Ok (tt, L') -> stays (views program_id L) (views program_id L').
Proof.
  intros (authority & oi & system & f & bump & L1 & d & _ & _ & _ & _ & _ & Hcr & _ & ->)%register_Ok.
  destruct (views_create _ not_system _ _ _ _ _ _ _ _ Hcr) as (Hnone & HV & _ & _ & _ & _ & _ & Hown & _).
  rewrite views_set_data, HV, insert_insert_eq by done. by apply stays_new.
Qed.

Lemma process_stays ctx accounts data L L' :
  infos_wf accounts -> process ctx program_id accounts data L = Ok (tt, L') ->
  stays (views program_id L) (views program_id L').
Proof.
  intros Hi Hp. unfold process in Hp. prog_inv. destruct x as [key bond|amount|amount| | |wire| |].
  - by eapply register_stays.
  - by eapply stake_stays.
  - by eapply unstake_stays.
  - by eapply claim_stays.
  - by eapply prove_equivocation_stays.
  - by eapply claim_victim_stays.
  - by eapply begin_unbond_stays.
  - by eapply withdraw_bond_stays.
Qed.

(** ** The chain *)

(** Everything but an operator the invariant does not speak of. *)
Definition kept k (i : Identity) : Prop :=
  match i with IsOperator _ _ => sound k | _ => True end.

Lemma kept_tracked V k d i : V !! k = Some d -> identity d = Some i -> kept k i -> tracked sound V k.
Proof.
  intros Hk. unfold identity, tracked, operator_in, position_in, conviction_in. rewrite Hk. cbn.
  destruct (OperatorAccount_read d), (PositionAccount_read d), (ConvictionAccount_read d); cbn; naive_solver eauto.
Qed.

Definition stays_kept V V' : Prop :=
  forall k d i, V !! k = Some d -> identity d = Some i -> kept k i ->
    exists d', V' !! k = Some d' /\ identity d' = Some i.

Lemma stays_stays_kept V V' : stays V V' -> stays_kept V V'.
Proof. intros H k d i Hk Hi _. eauto. Qed.

Lemma chain_step_stays L L' :
  ledger_solvent program_id sound L -> chain_step program_id sound L L' ->
  stays_kept (views program_id L) (views program_id L').
Proof.
  intros Hsol Hstep. destruct Hstep as [L L' Hstep|L].
  - apply stays_stays_kept. destruct Hstep as [ctx accounts data L L' Hi Hc Hf Hp|L L' (_ & Hkeep & _)];
      [by eapply process_stays|]. intros k d i Hk Hid.
    apply (views_Some _ not_system) in Hk as [Ho <-]. destruct (Hkeep k Ho) as (Ho' & Hd & _).
    exists (data_at L' k). split; [by apply view_of|]. by rewrite Hd.
  - intros k d i Hk Hid Hkept. exists d. split; [|done].
    rewrite (purge_keeps _ sound); [done..|by eapply kept_tracked].
Qed.

Lemma chain_stays L L' :
  ledger_solvent program_id sound L -> rtc (chain_step program_id sound) L L' ->
  stays_kept (views program_id L) (views program_id L').
Proof.
  intros Hsol Hr. induction Hr as [L|L L1 L' Hs _ IH]; [by apply stays_stays_kept, stays_refl|].
  intros k d i Hk Hi Hkept. destruct (chain_step_stays _ _ Hsol Hs k d i Hk Hi Hkept) as (d1 & Hk1 & Hi1).
  by apply (IH (chain_step_solvent _ _ not_system _ _ Hsol Hs) k d1 i).
Qed.
End kinds.

