(* ===== verification/Court.v ===== *)
(** * Presenting evidence: crates/court

    The client side of a conviction: the addresses of an operator's accounts, the ed25519
    instruction that verifies two receipts, and the pair of instructions that convicts.  What the
    builder writes is what the program reads back. *)
From S2P Require Import Prelude Constants Crypto Receipt Slashing Accounts Evidence Runtime Processor Solvency Payouts.

(** [solana_sdk::instruction::AccountMeta] and [Instruction]. *)
Record AccountMeta : Type := MkMeta { m_pubkey : bytes; m_is_signer : bool; m_is_writable : bool }.

Record SolInstruction : Type := MkIx {
  ix_program_id : bytes;
  ix_accounts : list AccountMeta;
  ix_data : bytes;
}.

(** ** ed25519_instruction.rs *)

(** One turn of the loop of [verify_two], on the offsets and the payload written so far. *)
Definition verify_two_step (signer : bytes) (st : bytes * bytes) (receipt : SignedReceipt)
    : bytes * bytes :=
  let '(data, payload) := st in
  let payload_start := (HEADER_LEN + 2 * OFFSETS_LEN)%nat in
  let signature_at := (payload_start + length payload)%nat in
  let payload := payload ++ s_signature receipt in
  let key_at := (payload_start + length payload)%nat in
  let payload := payload ++ signer in
  let message_at := (payload_start + length payload)%nat in
  let message := SignedReceipt_message receipt in
  let payload := payload ++ message in
  let values := [Z.of_nat signature_at; THIS_INSTRUCTION; Z.of_nat key_at; THIS_INSTRUCTION;
                 Z.of_nat message_at; Z.of_nat (length message); THIS_INSTRUCTION] in
  (foldl (fun data value => data ++ le_bytes 2 (wrap16 value)) data values, payload).

Definition verify_two_data (signer : bytes) (a b : SignedReceipt) : bytes :=
  let '(data, payload) := foldl (verify_two_step signer) ([x02; x00], []) [a; b] in
  data ++ payload.

Section court.
Context `{C : Crypto} `{R : Runtime}.

Definition verify_two (signer : bytes) (a b : SignedReceipt) : SolInstruction :=
  {| ix_program_id := ed25519_program_id; ix_accounts := []; ix_data := verify_two_data signer a b |}.

(** ** addresses.rs *)

Record Addresses : Type := MkAddresses { ad_program : bytes; ad_operator : bytes }.

Definition Addresses_new (program authority : bytes) : option Addresses :=
  found ← find_program_address [OPERATOR_SEED; authority] program;
  Some {| ad_program := program; ad_operator := found.1 |}.

Definition Addresses_position (self : Addresses) (owner : bytes) : option bytes :=
  fst <$> find_program_address [POSITION_SEED; ad_operator self; owner] (ad_program self).

Definition Addresses_conviction (self : Addresses) (a b : bytes) : option bytes :=
  let '(low, high) := if bytes_le a b then (a, b) else (b, a) in
  fst <$> find_program_address [CONVICTION_SEED; ad_operator self; sha256 low; sha256 high]
            (ad_program self).

(** ** evidence_transaction.rs *)

Definition court_prove_equivocation (addresses : Addresses) (accuser signer : bytes)
    (a b : SignedReceipt) : option (list SolInstruction) :=
  conviction ← Addresses_conviction addresses (SignedReceipt_message a) (SignedReceipt_message b);
  Some [ verify_two signer a b;
         {| ix_program_id := ad_program addresses;
            ix_accounts :=
              [ MkMeta accuser true true;
                MkMeta (ad_operator addresses) false true;
                MkMeta conviction false true;
                MkMeta incinerator_id false true;
                MkMeta instructions_sysvar_id false false;
                MkMeta system_program_id false false ];
            ix_data := Instruction_write ProveEquivocation |} ].

(** What the runtime passes to the program for an instruction's accounts. *)
Definition infos_of (ix : SolInstruction) : list AccountInfo :=
  map (fun m => MkInfo (m_pubkey m) (m_is_signer m)) (ix_accounts ix).
Definition load_ix (ix : SolInstruction) : bytes * bytes := (ix_program_id ix, ix_data ix).
End court.

(** ** What the builder writes is what the program reads *)

(** The instruction data as the concatenation of its fields. *)
Definition verify_two_head : bytes :=
  [x02; x00] ++
  le_bytes 2 30 ++ le_bytes 2 65535 ++ le_bytes 2 94 ++ le_bytes 2 65535 ++ le_bytes 2 126 ++
  le_bytes 2 261 ++ le_bytes 2 65535 ++
  le_bytes 2 387 ++ le_bytes 2 65535 ++ le_bytes 2 451 ++ le_bytes 2 65535 ++ le_bytes 2 483 ++
  le_bytes 2 261 ++ le_bytes 2 65535.

Definition verify_two_layout (signer : bytes) (a b : SignedReceipt) : bytes :=
  verify_two_head ++
  s_signature a ++ signer ++ SignedReceipt_message a ++
  s_signature b ++ signer ++ SignedReceipt_message b.

Lemma verify_two_data_layout signer a b :
  length signer = 32%nat -> SignedReceipt_wf a -> SignedReceipt_wf b ->
  verify_two_data signer a b = verify_two_layout signer a b.
Proof.
  intros Hk [Wa Sa] [Wb Sb]. unfold verify_two_data, verify_two_step, verify_two_layout, verify_two_head.
  pose proof (length_Receipt_to_bytes _ Wa) as La. pose proof (length_Receipt_to_bytes _ Wb) as Lb.
  fold (SignedReceipt_message a) in La. fold (SignedReceipt_message b) in Lb.
  cbn [foldl app length]. autorewrite with len. rewrite La, Lb, Sa, Sb, Hk. cbn [length].
  rewrite <- !app_assoc. reflexivity.
Qed.

Section verify_two.
Context (signer : bytes) (a b : SignedReceipt) (index : Z).
Hypotheses (Hk : length signer = 32%nat) (Wa : SignedReceipt_wf a) (Wb : SignedReceipt_wf b).

Abbreviation data := (verify_two_layout signer a b).

Lemma verify_two_lengths :
  length (s_signature a) = 64%nat /\ length (s_signature b) = 64%nat /\
  length (SignedReceipt_message a) = RECEIPT_LEN /\ length (SignedReceipt_message b) = RECEIPT_LEN.
Proof.
  destruct Wa as [Ra Sa], Wb as [Rb Sb]. split_conj; [done|done|..]; by apply length_Receipt_to_bytes.
Qed.

Lemma length_verify_two : length data = 744%nat.
Proof.
  destruct verify_two_lengths as (Sa & Sb & La & Lb). unfold verify_two_layout. len_done.
Qed.

(** The offsets of both entries. *)
Definition verify_two_values (entry n : nat) : Z :=
  nth n (nth entry [[30; 65535; 94; 65535; 126; 261; 65535]; [387; 65535; 451; 65535; 483; 261; 65535]] []) 0.

Lemma verify_two_field entry n :
  (entry < 2)%nat -> (n < 7)%nat ->
  let at_ := (HEADER_LEN + entry * OFFSETS_LEN)%nat in
  le_val (slice data (at_ + n * 2) (at_ + n * 2 + 2)) = verify_two_values entry n.
Proof.
  intros He Hn at_. subst at_. unfold verify_two_layout, HEADER_LEN, OFFSETS_LEN.
  rewrite slice_left by (change (length verify_two_head) with 30%nat; lia).
  destruct entry as [|[|]]; [| |lia]; (do 7 (destruct n as [|n]; [reflexivity|]); lia).
Qed.

Lemma verify_two_ranges :
  slice data 30 94 = s_signature a /\ slice data 94 126 = signer /\
  slice data 126 387 = SignedReceipt_message a /\
  slice data 387 451 = s_signature b /\ slice data 451 483 = signer /\
  slice data 483 744 = SignedReceipt_message b.
Proof.
  destruct verify_two_lengths as (Sa & Sb & La & Lb). unfold verify_two_layout.
  split_conj; slice_walk.
Qed.

Lemma verify_two_entry entry :
  (entry < 2)%nat ->
  verified_entry data index entry =
  Ok (MkVerified signer (SignedReceipt_message (if decide (entry = 0%nat) then a else b))).
Proof.
  intros He. unfold verified_entry. cbv zeta. pose proof length_verify_two as Hl.
  destruct verify_two_ranges as (_ & Ka & Ma & _ & Kb & Mb).
  rewrite get_range_in by (rewrite Hl; unfold HEADER_LEN, OFFSETS_LEN; lia).
  rewrite bind_of_ok || res_run.
  rewrite !offset_field_in by (rewrite ?Hl; unfold HEADER_LEN, OFFSETS_LEN; lia). res_run.
  rewrite !(verify_two_field entry) by lia.
  destruct entry as [|[|]]; [| |lia]; cbv [verify_two_values nth].
  - rewrite !get_range_in by (rewrite Hl; eval_done). cbn [forallb]. res_run.
    change (slice data (Z.to_nat 94) (Z.to_nat 94 + 32)) with (slice data 94 126).
    change (slice data (Z.to_nat 126) (Z.to_nat 126 + Z.to_nat 261)) with (slice data 126 387).
    rewrite Ka, Ma, try_into_array_in by done. done.
  - rewrite !get_range_in by (rewrite Hl; eval_done). cbn [forallb]. res_run.
    change (slice data (Z.to_nat 451) (Z.to_nat 451 + 32)) with (slice data 451 483).
    change (slice data (Z.to_nat 483) (Z.to_nat 483 + Z.to_nat 261)) with (slice data 483 744).
    rewrite Kb, Mb, try_into_array_in by done. done.
Qed.

Lemma verify_two_head_0 : data !! 0%nat = Some x02.
Proof. done. Qed.

Lemma verify_two_pairs :
  verified_pairs data index =
  Ok [MkVerified signer (SignedReceipt_message a); MkVerified signer (SignedReceipt_message b)].
Proof.
  unfold verified_pairs. pose proof length_verify_two as Hl.
  rewrite bool_decide_true by (rewrite Hl; eval_done). res_run.
  rewrite (index_at_in _ _ _ verify_two_head_0). res_run.
  change (seq 0 (Z.to_nat (byte_val x02))) with [0; 1]%nat. cbn [mapM].
  rewrite !verify_two_entry by lia. done.
Qed.

(** The precompile accepts the instruction when both receipts verify. *)
Lemma verify_two_accepted `{Crypto} :
  ed25519_verify_strict signer (SignedReceipt_message a) (s_signature a) = true ->
  ed25519_verify_strict signer (SignedReceipt_message b) (s_signature b) = true ->
  precompile_accepts data index.
Proof.
  intros Va Vb entry He _ _. destruct verify_two_ranges as (Ga & Ka & Ma & Gb & Kb & Mb).
  change (Z.to_nat (byte_val (byte_at data 0))) with 2%nat in He.
  rewrite !(verify_two_field entry) by lia.
  destruct entry as [|[|]]; [| |lia]; cbv [verify_two_values nth].
  - change (slice data (Z.to_nat 94) (Z.to_nat 94 + Z.to_nat 32)) with (slice data 94 126).
    change (slice data (Z.to_nat 126) (Z.to_nat 126 + Z.to_nat 261)) with (slice data 126 387).
    change (slice data (Z.to_nat 30) (Z.to_nat 30 + Z.to_nat 64)) with (slice data 30 94).
    by rewrite Ga, Ka, Ma.
  - change (slice data (Z.to_nat 451) (Z.to_nat 451 + Z.to_nat 32)) with (slice data 451 483).
    change (slice data (Z.to_nat 483) (Z.to_nat 483 + Z.to_nat 261)) with (slice data 483 744).
    change (slice data (Z.to_nat 387) (Z.to_nat 387 + Z.to_nat 64)) with (slice data 387 451).
    by rewrite Gb, Kb, Mb.
Qed.
End verify_two.
