(* ===== verification/Conviction.v ===== *)
(** * Convictions: when the slashing program slashes, and what it does then

    Soundness (no conviction without two contradictory signatures of the registered key),
    completeness (the transaction crates/court builds from two such receipts convicts), and what
    stands in the way of a conviction. *)
From S2P Require Import Prelude Constants Crypto Receipt Slashing Accounts Evidence Runtime Processor Solvency Payouts Court.

Section conviction.
Context `{C : Crypto} `{!CryptoLaws C} `{R : Runtime} `{!RuntimeLaws R}.
Implicit Types (L : ledger).

(** ** Running the handler forward *)

Lemma load_evidence_run ctx acc sysvar here data p0 p1 e L :
  load_current_index_checked ctx (ai_key sysvar) = Ok here -> 1 <= here ->
  load_instruction_at_checked ctx (here - 1) (ai_key sysvar) = Ok (ed25519_program_id, data) ->
  verified_pairs data (here - 1) = Ok [p0; p1] ->
  v_key p0 = o_signing_key acc -> v_key p1 = o_signing_key acc ->
  Equivocation_check (v_message p0) (v_message p1) = Ok e ->
  load_evidence ctx acc sysvar L = Ok (e, L).
Proof.
  intros Hi H1 Hl Hp Hk0 Hk1 He. pose proof He as (S0 & S1 & _)%Equivocation_check_Ok.
  apply check_shape_Ok in S0 as [L0 _], S1 as [L1 _]. unfold load_evidence.
  run_step ltac:(apply lift_Ok; split; [exact Hi|reflexivity]).
  run_step ltac:(apply lift_slash_Ok; split; [apply ok_or_Ok, checked_sub_Some; by split|reflexivity]).
  run_step ltac:(apply lift_Ok; split; [exact Hl|reflexivity]).
  run_unit ltac:(apply require_Ok; split; [by apply bool_decide_eq_true|reflexivity]).
  run_step ltac:(apply lift_slash_Ok; split; [exact Hp|reflexivity]).
  run_unit ltac:(apply require_Ok; split; [by apply bool_decide_eq_true|reflexivity]).
  run_unit ltac:(apply require_Ok; split; [by apply bool_decide_eq_true|reflexivity]).
  run_unit ltac:(apply require_Ok; split; [by apply bool_decide_eq_true|reflexivity]).
  run_unit ltac:(apply require_Ok; split; [by apply bool_decide_eq_true|reflexivity]).
  apply lift_slash_Ok. by split.
Qed.

Lemma prove_equivocation_run ctx p accounts accuser oi ci burn_to sysvar system acc e bump f L1 wronged
    hash slot dc do L :
  let distributed := Pool_distribute (OperatorAccount_pool acc) (Split_of (o_bond acc)) in
  let applied := distributed.2 in
  take 6 accounts = [accuser; oi; ci; burn_to; sysvar; system] -> ai_is_signer accuser = true ->
  ai_key burn_to = incinerator_id -> owner_at L (ai_key oi) = p ->
  OperatorAccount_read (data_at L (ai_key oi)) = Ok acc ->
  load_evidence ctx acc sysvar L = Ok (e, L) ->
  find_program_address (conviction_seeds (ai_key oi) e) p = Some (ai_key ci, bump) ->
  owner_at L (ai_key ci) = system_program_id -> o_bond acc <> 0 -> Rent_minimum_balance = Some f ->
  invoke_create_account p L accuser ci system (f CONVICTION_LEN) CONVICTION_LEN p
    (conviction_seeds (ai_key oi) e ++ [[bump]]) = Ok L1 ->
  wronged_signature (E := ProgramError) e = Ok wronged ->
  wronged_tx_hash (E := ProgramError) e = Ok hash -> Clock_slot ctx = Ok slot ->
  ConvictionAccount_write
    (MkConviction (ai_key oi) wronged hash (o_bond acc) (victim applied) slot bump)
    (data_at L1 (ai_key ci)) = Ok dc ->
  let L2 := set_data L1 (ai_key ci) dc in
  OperatorAccount_write
    (OperatorAccount_set_pool (with_bond acc 0 (o_unbond_at acc)) distributed.1)
    (data_at L2 (ai_key oi)) = Ok do ->
  let L3 := set_data L2 (ai_key oi) do in
  burn applied <= lamports_at L3 (ai_key oi) ->
  let L4 := transfer L3 (ai_key oi) (ai_key burn_to) (burn applied) in
  lamports_at L4 (ai_key burn_to) < 2 ^ 64 -> victim applied <= lamports_at L4 (ai_key oi) ->
  let L' := transfer L4 (ai_key oi) (ai_key ci) (victim applied) in
  lamports_at L' (ai_key ci) < 2 ^ 64 ->
  prove_equivocation ctx p accounts L = Ok (tt, L').
Proof.
  intros distributed applied Ht Hs Hb Ho Hacc He Hf Hco Hbond Hrent Hcr Hw Hh Hslot Hdc L2 Hdo L3 Hburn L4
    Hlt4 Hvic L' Hlt'. unfold prove_equivocation.
  run_step ltac:(apply lift_Ok; split; [by eapply next_account_infos_take|reflexivity]).
  run_unit ltac:(by apply require_Ok).
  run_unit ltac:(apply require_Ok; split; [by apply bool_decide_eq_true|reflexivity]).
  run_unit ltac:(by apply owned_by_Ok). run_step ltac:(by apply (read_account_Ok (T := OperatorAccount))).
  run_step ltac:(exact He). run_step ltac:(by apply at_pda_Ok). run_step ltac:(reflexivity).
  run_unit ltac:(apply require_Ok; split; [by apply bool_decide_eq_true|reflexivity]).
  cbv zeta. run_unit ltac:(apply require_Ok; split; [by apply bool_decide_eq_true|reflexivity]).
  run_step ltac:(apply rent_minimum_Ok; split; [by eauto|reflexivity]).
  run_unit ltac:(by apply create_account_Ok). run_step ltac:(by apply lift_Ok).
  run_step ltac:(by apply lift_Ok). run_step ltac:(by apply lift_Ok).
  run_unit ltac:(apply write_account_Ok; by exists dc).
  run_unit ltac:(apply write_account_Ok; by exists do).
  run_unit ltac:(apply pay_out_Ok; split_conj; [done|reflexivity|done]).
  apply pay_out_Ok. by split_conj.
Qed.

(** ** The court's transaction convicts *)

(** The address the court derives is the one the program expects. *)
Lemma conviction_address addresses ra rb e ck :
  Receipt_wf ra -> Receipt_wf rb ->
  Equivocation_check (Receipt_to_bytes ra) (Receipt_to_bytes rb) = Ok e ->
  Addresses_conviction addresses (Receipt_to_bytes ra) (Receipt_to_bytes rb) = Some ck ->
  exists bump, find_program_address (conviction_seeds (ad_operator addresses) e) (ad_program addresses)
                 = Some (ck, bump).
Proof.
  intros Wa Wb He Hck. apply Equivocation_check_receipts in He as (_ & _ & _ & ->); [|done..].
  unfold Addresses_conviction in Hck. unfold conviction_seeds, Equivocation_ordered. cbn [e_a e_b].
  destruct (bytes_le _ _); apply fmap_Some in Hck as ([k bump] & Hf & ->); exists bump; exact Hf.
Qed.

(** The ledger a conviction leaves. *)
Record convicted L L' (acc : OperatorAccount) (oi ck : bytes) : Prop := {
  conv_operator : OperatorAccount_read (data_at L' oi) =
    Ok (OperatorAccount_set_pool (with_bond acc 0 (o_unbond_at acc))
          (Pool_distribute (OperatorAccount_pool acc) (Split_of (o_bond acc))).1);
  conv_account : exists cv, ConvictionAccount_read (data_at L' ck) = Ok cv /\
    cv_operator cv = oi /\ cv_slashed cv = o_bond acc /\
    cv_owed_to_victim cv = victim (Split_of (o_bond acc));
  conv_paid :
    let s := (Pool_distribute (OperatorAccount_pool acc) (Split_of (o_bond acc))).2 in
    lamports_at L' oi = lamports_at L oi - burn s - victim s /\
    lamports_at L' incinerator_id = lamports_at L incinerator_id + burn s /\
    lamports_at L' ck = rent CONVICTION_LEN + victim s;
}.

(** Whatever the pool holds, the victim's share is the same. *)
Lemma distribute_victim P s : victim (Pool_distribute P s).2 = victim s.
Proof. unfold Pool_distribute. by case_decide. Qed.

(** The balances the two payments of a slash leave. *)
Lemma slash_balances L1 (oi x ci : bytes) (n m : Z) (dc do : bytes) :
  x <> oi -> x <> ci -> ci <> oi ->
  let L3 := set_data (set_data L1 ci dc) oi do in
  let L4 := transfer L3 oi x n in
  let L' := transfer L4 oi ci m in
  lamports_at L3 oi = lamports_at L1 oi /\ lamports_at L4 x = lamports_at L1 x + n /\
  lamports_at L4 oi = lamports_at L1 oi - n /\ lamports_at L' ci = lamports_at L1 ci + m /\
  lamports_at L' oi = lamports_at L1 oi - n - m /\ lamports_at L' x = lamports_at L1 x + n.
Proof.
  intros H1 H2 H3 L3 L4 L'. unfold L', L4, L3.
  rewrite !lamports_at_transfer, !lamports_at_set_data.
  repeat match goal with |- context [decide (?a = ?b)] => destruct (decide (a = b)); try congruence end.
  split_conj; lia.
Qed.

Lemma prove_equivocation_convicts program_id sound ctx L accuser oi ci burn_to sysvar system acc e slot bump :
  program_id <> system_program_id -> ledger_solvent program_id sound L -> sound (ai_key oi) ->
  ai_is_signer accuser = true -> ai_key burn_to = incinerator_id -> ai_key system = system_program_id ->
  owner_at L (ai_key oi) = program_id -> OperatorAccount_read (data_at L (ai_key oi)) = Ok acc ->
  0 < o_bond acc -> load_evidence ctx acc sysvar L = Ok (e, L) ->
  find_program_address (conviction_seeds (ai_key oi) e) program_id = Some (ai_key ci, bump) ->
  account_at L (ai_key ci) = empty_account -> length (ai_key oi) = 32%nat ->
  Clock_slot ctx = Ok slot -> is_u64 slot ->
  can_pay L accuser (rent CONVICTION_LEN) -> ai_key accuser <> ai_key ci ->
  incinerator_id <> ai_key oi -> incinerator_id <> ai_key ci -> incinerator_id <> ai_key accuser ->
  lamports_at L incinerator_id + o_bond acc < 2 ^ 64 -> rent CONVICTION_LEN + o_bond acc < 2 ^ 64 ->
  exists L', prove_equivocation ctx program_id [accuser; oi; ci; burn_to; sysvar; system] L = Ok (tt, L') /\
    convicted L L' acc (ai_key oi) (ai_key ci).
Proof.
  intros Hns Hsol Hsound Hsig Hburn Hsys Ho Hacc Hpos Hev Hpda Hempty Hlen Hslot Wslot Hpay Hne Hi1 Hi2 Hi3 Hfit1 Hfit2.
  destruct rent_available as (f & Hf & _). pose proof (rent_Some f CONVICTION_LEN Hf) as Hrent.
  destruct (create_account_complete program_id L accuser ci system (f CONVICTION_LEN) CONVICTION_LEN program_id
    (conviction_seeds (ai_key oi) e ++ [[bump]])) as [L1 Hcr]; try done.
  { by rewrite Hrent. }
  { by apply find_create. }
  destruct (views_create _ Hns _ _ _ _ _ _ _ _ Hcr) as (Hnone & HV & _ & _ & Hfrom & Hlam & _ & Hown & Hdata).
  pose proof (operator_of_ledger _ Hns _ _ _ Ho Hacc) as HO.
  destruct (read_Ok (C := operator_codec) _ _ Hacc) as (Wacc & Lacc & _).
  pose proof Wacc as (_ & _ & Wb & Ws & Wi & Wu).
  pose proof (operator_solvent_facts _ _ _ (sol_operator _ _ Hsol _ _ HO Hsound) Wacc) as (_ & Hst0 & Hall & _).
  pose proof (rent_range OPERATOR_LEN).
  pose proof (Pool_distribute_split (OperatorAccount_pool acc) (o_bond acc) Wb) as Hs. cbv zeta in Hs.
  pose proof (distribute_victim (OperatorAccount_pool acc) (Split_of (o_bond acc))) as Hvic.
  apply load_evidence_Ok in Hev as Hev'. destruct Hev' as (_ & ? & ? & p0 & p1 & _ & _ & _ & _ & _ & _ & Hcheck).
  destruct (wronged_Ok (E := ProgramError) _ _ _ Hcheck) as (_ & Hw & Hh & Lw & Lh).
  assert (owner_at L (ai_key ci) = system_program_id) as Hco by (unfold owner_at; by rewrite Hempty).
  assert (ai_key ci <> ai_key oi) as Hcio by congruence.
  assert (ai_key accuser <> ai_key oi) as Hao.
  { destruct Hpay as (_ & Hao & _). congruence. }
  assert (data_at L1 (ai_key oi) = data_at L (ai_key oi)) as Hdo1.
  { apply create_account_sound in Hcr as (_ & _ & _ & ->).
    by rewrite data_at_insert, decide_False, data_at_set_lamports by done. }
  set (dist := Pool_distribute (OperatorAccount_pool acc) (Split_of (o_bond acc))) in *.
  set (cv := MkConviction (ai_key oi) (slice (Equivocation_ordered e).1 OFF_TX_SIG OFF_TX_HASH)
    (slice (Equivocation_ordered e).1 OFF_TX_HASH OFF_RECENT_BLOCKHASH) (o_bond acc) (victim dist.2) slot bump).
  set (acc' := OperatorAccount_set_pool (with_bond acc 0 (o_unbond_at acc)) dist.1).
  destruct (write_fits (C := conviction_codec) cv (data_at L1 (ai_key ci))) as (dc & Hwc & _ & _ & Hrc).
  { destruct Wb. apply conviction_wf; try done; split; lia. }
  { rewrite Hdata, length_zeros. done. }
  destruct (write_fits (C := operator_codec) acc' (data_at L (ai_key oi))) as (do & Hwo & _ & _ & Hro); [|done|].
  { apply set_pool_wf; [by apply with_bond_wf; [|split|]|..]; unfold dist, Pool_distribute;
       case_decide; try done. apply wrap128_range. }
  assert (forall k, k <> ai_key ci -> k <> ai_key accuser -> lamports_at L1 k = lamports_at L k) as Hsame.
  { intros k ? ?. by rewrite Hlam, !decide_False by done. }
  destruct (slash_balances L1 (ai_key oi) incinerator_id (ai_key ci) (burn dist.2) (victim dist.2) dc do)
    as (B1 & B2 & B3 & B4 & B5 & B6); [done..|].
  rewrite (Hlam (ai_key ci)), decide_True in B4 by done. rewrite !Hsame in B1, B2, B3, B5, B6 by done.
  eexists. split.
  - eapply (prove_equivocation_run ctx program_id _ accuser oi ci burn_to sysvar system acc e bump f L1
      _ _ slot dc do); try done; rewrite ?Hburn; fold dist; try lia.
    rewrite data_at_set, decide_False, Hdo1 by done. exact Hwo.
  - rewrite Hburn. split.
    + rewrite !data_at_transfer, data_at_set, decide_True by done. exact Hro.
    + exists cv. rewrite !data_at_transfer, data_at_set, decide_False, data_at_set, decide_True by done.
      by split_conj.
    + cbv zeta. fold dist. rewrite B4, B5, B6. split_conj; lia.
Qed.


(** ** No conviction without evidence *)

(** Two different messages of one position of one log, both signed by [key]. *)
Definition contradiction (key m1 m2 : bytes) : Prop :=
  m1 <> m2 /\ length m1 = RECEIPT_LEN /\ length m2 = RECEIPT_LEN /\
  slice m1 OFF_LOG_ID OFF_MODE = slice m2 OFF_LOG_ID OFF_MODE /\
  le_val (slice m1 OFF_SEQ OFF_TX_SIG) = le_val (slice m2 OFF_SEQ OFF_TX_SIG) /\
  exists sig1 sig2, ed25519_verify_strict key m1 sig1 = true /\ ed25519_verify_strict key m2 sig2 = true.

Lemma load_evidence_sound ctx acc sysvar e L :
  precompiled ctx -> load_evidence ctx acc sysvar L = Ok (e, L) ->
  contradiction (o_signing_key acc) (e_a e) (e_b e).
Proof.
  intros Hpre (_ & here & data & p0 & p1 & _ & _ & Hload & Hpairs & Hk0 & Hk1 & He)%load_evidence_Ok.
  pose proof (verified_pairs_sound _ _ _ Hpairs (Hpre _ _ _ Hload)) as Hall.
  inversion_clear Hall as [|? ? (_ & s0 & _ & V0) Hall']. inversion_clear Hall' as [|? ? (_ & s1 & _ & V1) _].
  apply Equivocation_check_Ok in He as (S0 & S1 & Hlog & Hseq & Hne & ->).
  apply check_shape_Ok in S0 as [? _], S1 as [? _]. cbn [e_a e_b].
  rewrite Hk0 in V0. rewrite Hk1 in V1. unfold contradiction.
  split_conj; [done|done|done|by symmetry|by symmetry|eauto].
Qed.

(** ** The whole transaction *)

Lemma court_convicts program_id sound addresses L accuser acc a b ixs ctx slot ck :
  let oi := ad_operator addresses in
  let key := o_signing_key acc in
  ad_program addresses = program_id -> program_id <> system_program_id -> length oi = 32%nat ->
  ledger_solvent program_id sound L -> sound oi ->
  owner_at L oi = program_id -> OperatorAccount_read (data_at L oi) = Ok acc -> 0 < o_bond acc ->
  SignedReceipt_wf a -> SignedReceipt_wf b ->
  SignedReceipt_verify a key = Ok tt -> SignedReceipt_verify b key = Ok tt ->
  r_log_id (s_receipt a) = r_log_id (s_receipt b) -> r_seq (s_receipt a) = r_seq (s_receipt b) ->
  s_receipt a <> s_receipt b ->
  court_prove_equivocation addresses accuser key a b = Some ixs ->
  Addresses_conviction addresses (SignedReceipt_message a) (SignedReceipt_message b) = Some ck ->
  runs_at ctx slot (map load_ix ixs) 1 -> is_u64 slot ->
  account_at L ck = empty_account ->
  can_pay L (MkInfo accuser true) (rent CONVICTION_LEN) -> accuser <> ck ->
  incinerator_id <> oi -> incinerator_id <> ck -> incinerator_id <> accuser ->
  lamports_at L incinerator_id + o_bond acc < 2 ^ 64 -> rent CONVICTION_LEN + o_bond acc < 2 ^ 64 ->
  exists ix0 ix1 L', ixs = [ix0; ix1] /\ ix_program_id ix0 = ed25519_program_id /\
    precompile_accepts (ix_data ix0) 0 /\
    process ctx program_id (infos_of ix1) (ix_data ix1) L = Ok (tt, L') /\ convicted L L' acc oi ck.
Proof.
  intros oi key Hprog Hns Hlen Hsol Hsound Ho Hacc Hpos Wa Wb Va Vb Hlog Hseq Hne Hixs Hck Hruns Wslot Hempty Hpay
    Hn1 Hn2 Hn3 Hn4 Hf1 Hf2.
  unfold court_prove_equivocation in Hixs. rewrite Hck in Hixs. injection Hixs as <-.
  destruct Hruns as [Hslot Hindex Hload]. specialize (Hload 0%nat _ eq_refl).
  assert (length key = 32%nat) as Lkey.
  { by apply (read_Ok (C := operator_codec)) in Hacc as ((_ & ? & _) & _). }
  apply SignedReceipt_verify_Ok in Va as [_ Va], Vb as [_ Vb].
  pose proof (verify_two_data_layout key a b Lkey Wa Wb) as Hdata.
  do 2 eexists. change (load_ix _) with (ed25519_program_id, verify_two_data key a b) in Hload.
  rewrite Hdata in Hload.
  pose proof Wa as [Ra _]. pose proof Wb as [Rb _].
  assert (exists e, Equivocation_check (SignedReceipt_message a) (SignedReceipt_message b) = Ok e) as [e He].
  { eexists. by apply Equivocation_check_receipts. }
  destruct (conviction_address addresses _ _ e ck Ra Rb He Hck) as [bump Hpda]. rewrite Hprog in Hpda.
  destruct (prove_equivocation_convicts program_id sound ctx L (MkInfo accuser true) (MkInfo oi false)
    (MkInfo ck false) (MkInfo incinerator_id false) (MkInfo instructions_sysvar_id false)
    (MkInfo system_program_id false) acc e slot bump) as (L' & Hrun & Hconv); try done.
  { apply (load_evidence_run _ _ _ 1 (verify_two_layout key a b)
      (MkVerified key (SignedReceipt_message a)) (MkVerified key (SignedReceipt_message b))); try done.
    by apply verify_two_pairs. }
  exists L'. split_conj; [reflexivity|reflexivity| | |done].
  { cbn [verify_two ix_data]. fold key. rewrite Hdata. by apply verify_two_accepted. }
  cbn [ix_data infos_of map ix_accounts m_pubkey m_is_signer]. fold oi. exact Hrun.
Qed.

(** ** What stands in the way of a conviction *)

(** The conviction's account must not exist, not even as a balance. *)
Lemma prove_equivocation_needs_empty ctx program_id accounts L L' :
  prove_equivocation ctx program_id accounts L = Ok (tt, L') ->
  exists accuser oi ci rest acc sysvar e bump,
    accounts = accuser :: oi :: ci :: rest /\ owner_at L (ai_key oi) = program_id /\
    OperatorAccount_read (data_at L (ai_key oi)) = Ok acc /\ o_bond acc <> 0 /\
    load_evidence ctx acc sysvar L = Ok (e, L) /\
    find_program_address (conviction_seeds (ai_key oi) e) program_id = Some (ai_key ci, bump) /\
    account_at L (ai_key ci) = empty_account.
Proof.
  intros (accuser & oi & ci & burn_to & sysvar & system & acc & e & bump & f & L1 & ? & ? & ? & ? & ? &
    Htake & _ & _ & Ho & Hacc & Hev & Hpda & _ & Hbond & _ & Hcr & _)%prove_equivocation_Ok.
  apply create_account_sound in Hcr as (_ & _ & Hempty & _).
  destruct accounts as [|y1 [|y2 [|y3 rest]]]; try discriminate Htake. injection Htake as -> -> -> _.
  exists accuser, oi, ci, rest, acc, sysvar, e, bump. by split_conj.
Qed.

(** A conviction leaves the operator without a bond. *)
Lemma prove_equivocation_slashed program_id ctx accounts L L' :
  program_id <> system_program_id -> prove_equivocation ctx program_id accounts L = Ok (tt, L') ->
  exists oi acc', nth_error accounts 1 = Some oi /\
    operator_in (views program_id L') (ai_key oi) = Some acc' /\ o_bond acc' = 0.
Proof.
  intros Hns (accuser & oi & ci & burn_to & sysvar & system & acc & e & bump & f & L1 & wronged & hash & slot &
    dc & do & Htake & _ & _ & Ho & Hacc & _ & _ & _ & Hbond & _ & Hcr & _ & _ & _ & _ & Hdo & _ & _ & _ & -> & _)
    %prove_equivocation_Ok.
  destruct (views_create _ Hns _ _ _ _ _ _ _ _ Hcr) as (Hnone & HV & _ & _ & _ & _ & _ & Hown & _).
  destruct (read_Ok (C := operator_codec) _ _ Hacc) as (Wacc & _). pose proof Wacc as (_ & _ & _ & Ws & Wi & Wu).
  assert (ai_key ci <> ai_key oi) as Hne.
  { intros Heq. rewrite Heq in Hnone. apply (views_None _ Hns) in Hnone. done. }
  assert (owner_at L1 (ai_key oi) = program_id) as Ho1.
  { eapply (views_Some _ Hns). rewrite HV, lookup_insert_ne by done. by apply views_Some. }
  apply (write_Ok (C := operator_codec)) in Hdo as (_ & _ & _ & Hdo).
  2: { apply set_pool_wf; [by apply with_bond_wf; [|split|]|..]; unfold Pool_distribute;
       case_decide; try done. apply wrap128_range. }
  eexists oi, _. split_conj.
  - destruct accounts as [|y1 [|y2 accounts]]; try discriminate Htake. by injection Htake as _ ->.
  - rewrite !views_transfer, !views_set_data by (rewrite ?owner_at_set_data; done).
    rewrite operator_in_insert, decide_True by done. cbn in Hdo. by rewrite Hdo.
  - done.
Qed.

Lemma conviction_seeds_ordered operator e e' :
  Equivocation_ordered e = Equivocation_ordered e' ->
  conviction_seeds operator e = conviction_seeds operator e'.
Proof. intros Heq. unfold conviction_seeds. by rewrite Heq. Qed.

(** ** The victim's share *)

Lemma claim_victim_pays program_id sound L claimant ci rest cv wire :
  program_id <> system_program_id -> ledger_solvent program_id sound L -> ai_is_signer claimant = true ->
  owner_at L (ai_key ci) = program_id -> ConvictionAccount_read (data_at L (ai_key ci)) = Ok cv ->
  sha256 wire = cv_wronged_tx_hash cv -> fee_payer wire = Ok (ai_key claimant) ->
  ai_key claimant <> ai_key ci -> lamports_at L (ai_key claimant) + cv_owed_to_victim cv < 2 ^ 64 ->
  exists L', claim_victim program_id (claimant :: ci :: rest) wire L = Ok (tt, L') /\
    lamports_at L' (ai_key claimant) = lamports_at L (ai_key claimant) + cv_owed_to_victim cv /\
    exists cv', ConvictionAccount_read (data_at L' (ai_key ci)) = Ok cv' /\ cv_owed_to_victim cv' = 0 /\
      cv_wronged_tx_hash cv' = cv_wronged_tx_hash cv.
Proof.
  intros Hns Hsol Hsig Ho Hcv Hhash Hpayer Hne Hfit.
  pose proof (conviction_of_ledger _ Hns _ _ _ Ho Hcv) as HC.
  pose proof (sol_conviction _ _ Hsol _ _ HC) as Hfund. pose proof (rent_range CONVICTION_LEN).
  destruct (read_Ok (C := conviction_codec) _ _ Hcv) as ((? & ? & ? & ? & [? ?] & ?) & Lcv & _).
  set (cv' := MkConviction (cv_operator cv) (cv_wronged cv) (cv_wronged_tx_hash cv) (cv_slashed cv) 0
         (cv_slot cv) (cv_bump cv)).
  destruct (write_fits (C := conviction_codec) cv' (data_at L (ai_key ci))) as (d & Hw & _ & _ & Hr);
    [by apply conviction_wf|done|].
  exists (transfer (set_data L (ai_key ci) d) (ai_key ci) (ai_key claimant) (cv_owed_to_victim cv)).
  assert (lamports_at (transfer (set_data L (ai_key ci) d) (ai_key ci) (ai_key claimant) (cv_owed_to_victim cv))
    (ai_key claimant) = lamports_at L (ai_key claimant) + cv_owed_to_victim cv) as Hbal.
  { rewrite lamports_at_transfer, decide_False, decide_True, lamports_at_set_data by done. lia. }
  split_conj; [|done|].
  - unfold claim_victim.
    run_step ltac:(apply lift_Ok; split; [by eapply next_account_infos_take|reflexivity]).
    run_unit ltac:(by apply require_Ok). run_unit ltac:(by apply owned_by_Ok).
    run_step ltac:(by apply (read_account_Ok (T := ConvictionAccount))).
    run_unit ltac:(apply require_Ok; split; [by apply bool_decide_eq_true|reflexivity]).
    run_step ltac:(apply lift_slash_Ok; split; [exact Hpayer|reflexivity]).
    run_unit ltac:(apply require_Ok; split; [by apply bool_decide_eq_true|reflexivity]).
    cbv zeta. run_unit ltac:(apply write_account_Ok; by exists d).
    apply pay_out_Ok. rewrite lamports_at_set_data, Hbal. split_conj; [lia|done|done].
  - exists cv'. rewrite data_at_transfer, data_at_set, decide_True by done. by split_conj.
Qed.
End conviction.
