(* ===== verification/ToyChain.v ===== *)
(** * A small chain, run to the end

    Concrete ledgers of the executable runtime: an operator registers, a staker stakes, the
    operator is convicted on two receipts it signed.  Every ledger is computed by the handlers
    themselves; the witnesses of the program's theorems are taken from it. *)
From S2P Require Import Prelude Constants Crypto Receipt Slashing Accounts Evidence Runtime Processor Solvency Payouts Lifecycle Court Conviction.

(** ** Checking a step by evaluation *)

Section check.
Context `{C : Crypto} `{R : Runtime} (program_id : bytes).
Implicit Types (L : ledger).

Definition run (m : prog unit) L : ledger :=
  match m L with Ok (_, L) => purge L | _ => ∅ end.
Definition ran (m : prog unit) L : ledger :=
  match m L with Ok (_, L) => L | _ => ∅ end.

Lemma ran_ok (m : prog unit) L : is_ok (m L) = true -> m L = Ok (tt, ran m L).
Proof. unfold ran. by destruct (m L) as [[[] L']| |]. Qed.

Definition exempt_check L : bool :=
  bool_decide (map_Forall (fun _ a => a_owner a = program_id ->
    a_lamports a = 0 \/ rent (length (a_data a)) <= a_lamports a) L).

Definition genesis_check L : bool :=
  bool_decide (map_Forall (fun _ a => is_u64 (a_lamports a) /\ a_owner a <> program_id) L).

(** No operator's registration is left out. *)
Definition everyone : bytes -> Prop := fun _ => True.
Definition deposit_check (data : bytes) : bool :=
  match Instruction_read data with
  | Ok (Register _ bond) => rent OPERATOR_LEN + bond <? 2 ^ 64
  | _ => true
  end.

(** A transaction with one instruction. *)
Definition step_check ctx accounts data L L' : bool :=
  deposit_check data &&
  match process ctx program_id accounts data L with
  | Ok (_, L1) => exempt_check L1 && bool_decide (purge L1 = L')
  | _ => false
  end.

Lemma deposit_check_ok accounts data : deposit_check data = true -> deposit_fits everyone accounts data.
Proof. intros H key bond oi Hr _ _. unfold deposit_check in H. rewrite Hr in H. by apply Z.ltb_lt. Qed.

Lemma exempt_check_ok L :
  program_id <> system_program_id -> exempt_check L = true -> rent_exempt program_id L.
Proof.
  intros Hns H%bool_decide_eq_true k Ho. unfold owner_at, lamports_at, data_at, account_at in *.
  destruct (L !! k) as [a|] eqn:Hk; cbn in *; [by apply (H k a)|done].
Qed.

Lemma genesis_check_ok L :
  program_id <> system_program_id -> genesis_check L = true -> genesis program_id L.
Proof.
  intros Hns H%bool_decide_eq_true. unfold owner_at, lamports_at, data_at, account_at.
  split; intros k; unfold owner_at, lamports_at, data_at, account_at;
    destruct (L !! k) as [a|] eqn:Hk; cbn.
  - by destruct (H k a Hk).
  - by split.
  - intros Ho. by destruct (H k a Hk).
  - intros Ho. by destruct Hns.
Qed.

Lemma run_step_ok ctx accounts data L L' :
  program_id <> system_program_id -> infos_wf accounts -> context_wf ctx ->
  step_check ctx accounts data L L' = true ->
  process ctx program_id accounts data L = Ok (tt, ran (process ctx program_id accounts data) L) /\
  transaction program_id everyone L L' /\ chain_trace program_id everyone ([] ++ [ctx]) L L'.
Proof.
  intros Hns Hi Hc [Hf Hok]%andb_true_iff. unfold ran in *. apply deposit_check_ok with (accounts := accounts) in Hf.
  destruct (process ctx program_id accounts data L) as [[[] L1]| |] eqn:Hp; [|done..].
  apply andb_true_iff in Hok as [Hex <-%bool_decide_eq_true]. split; [done|]. split.
  - exists L1. split; [|split; [by apply exempt_check_ok|done]]. apply rtc_once. by eapply step_program.
  - apply trace_commit. eapply trace_program; [apply trace_start|done..].
Qed.

Lemma run_chain L0 L1 : rtc (transaction program_id everyone) L0 L1 -> rtc (chain_step program_id everyone) L0 L1.
Proof. intros H. eapply transactions_chain; [exact H|apply rtc_refl]. Qed.
End check.

(** ** The chain *)

Definition toy_program : bytes := fill 32 x50.
Definition toy_authority : bytes := fill 32 x61.
Definition toy_staker : bytes := fill 32 x62.
Definition toy_accuser : bytes := fill 32 x63.
Definition toy_signing : bytes := fill 32 x41.
Definition toy_operator : bytes := Eval vm_compute in toy_derive [OPERATOR_SEED; toy_authority; [xff]] toy_program.
Definition toy_position : bytes := Eval vm_compute in
  toy_derive [POSITION_SEED; toy_operator; toy_staker; [xff]] toy_program.

Definition toy_wallet (n : Z) : account := MkAccount n [] (toy_id x00).
Definition toy_ledger0 : ledger :=
  <[toy_authority := toy_wallet 1000000]> (<[toy_staker := toy_wallet 1000000]>
    (<[toy_accuser := toy_wallet 1000000]> ∅)).

#[local] Existing Instance toy_crypto.
#[local] Existing Instance toy_runtime.

Definition signer_info (k : bytes) : AccountInfo := MkInfo k true.
Definition plain_info (k : bytes) : AccountInfo := MkInfo k false.
Definition system_info : AccountInfo := plain_info (toy_id x00).

Definition register_accounts : list AccountInfo :=
  [signer_info toy_authority; plain_info toy_operator; system_info].
Definition register_data : bytes := Instruction_write (Register toy_signing 10000).
Definition toy_ctx0 : Context := toy_context 5 [] 0.
Abbreviation toy_register := (process toy_ctx0 toy_program register_accounts register_data).
Definition toy_accounts1 : list (bytes * account) := Eval vm_compute in
  map_to_list (run toy_register toy_ledger0).
Definition toy_ledger1 : ledger := list_to_map toy_accounts1.

Definition staker_accounts : list AccountInfo :=
  [signer_info toy_staker; plain_info toy_operator; plain_info toy_position; system_info].
Definition stake_data : bytes := Instruction_write (Stake 4000).
Abbreviation toy_stake := (process toy_ctx0 toy_program staker_accounts stake_data).
Definition toy_accounts2 : list (bytes * account) := Eval vm_compute in
  map_to_list (run toy_stake toy_ledger1).
Definition toy_ledger2 : ledger := list_to_map toy_accounts2.

Definition toy_signed (r : Receipt) : SignedReceipt :=
  MkSigned r (toy_sign toy_signing (Receipt_to_bytes r)).
(** The transaction both receipts speak of, and its payer. *)
Definition toy_victim : bytes := fill 32 x64.
Definition toy_wire : bytes :=
  wire_transaction [fill 64 x11] None [x01; x00; x01] toy_victim [fill 32 x33] (fill 32 x44).
Definition toy_receipt (tx_sig : byte) : Receipt :=
  MkReceipt (fill 32 x07) Plain 5 (fill 64 tx_sig) (toy_hash toy_wire) (fill 32 x02) (fill 32 x03)
    ZERO_PUBKEY 11 12.
Definition toy_receipt_a : SignedReceipt := Eval vm_compute in toy_signed (toy_receipt x09).
Definition toy_receipt_b : SignedReceipt := Eval vm_compute in toy_signed (toy_receipt x0a).
Definition toy_addresses : Addresses := MkAddresses toy_program toy_operator.
Definition toy_conviction : bytes := Eval vm_compute in
  default [] (Addresses_conviction toy_addresses (SignedReceipt_message toy_receipt_a)
                (SignedReceipt_message toy_receipt_b)).
Definition toy_instructions : list SolInstruction := Eval vm_compute in
  default [] (court_prove_equivocation toy_addresses toy_accuser toy_signing toy_receipt_a toy_receipt_b).
Definition toy_ctx1 : Context := toy_context 7 (map load_ix toy_instructions) 1.
Definition prove_accounts : list AccountInfo :=
  [signer_info toy_accuser; plain_info toy_operator; plain_info toy_conviction; plain_info (toy_id x01);
   plain_info (toy_id x03); system_info].
Definition prove_data : bytes := Instruction_write ProveEquivocation.
Abbreviation toy_prove := (process toy_ctx1 toy_program prove_accounts prove_data).
Definition toy_accounts3 : list (bytes * account) := Eval vm_compute in
  map_to_list (run toy_prove toy_ledger2).
Definition toy_ledger3 : ledger := list_to_map toy_accounts3.

Lemma toy_not_system : toy_program <> system_program_id (Runtime := toy_runtime).
Proof. eval_done. Qed.

Lemma toy_context_wf slot ixs i : is_u64 slot -> context_wf (toy_context slot ixs i).
Proof. intros H s [= <-]. done. Qed.

Lemma toy_infos_wf accounts :
  forallb (fun i => bool_decide (length (ai_key i) = 32%nat)) accounts = true -> infos_wf accounts.
Proof.
  intros H. apply Forall_forall. intros i Hi. rewrite forallb_forall in H.
  apply list_elem_of_In, H, bool_decide_eq_true in Hi. done.
Qed.

Lemma toy_genesis : genesis toy_program toy_ledger0.
Proof. apply genesis_check_ok; [apply toy_not_system|]. vm_compute. reflexivity. Qed.

Lemma toy_step1 : process toy_ctx0 toy_program register_accounts register_data toy_ledger0
    = Ok (tt, ran toy_register toy_ledger0) /\
  transaction toy_program everyone toy_ledger0 toy_ledger1 /\ chain_trace toy_program everyone ([] ++ [toy_ctx0]) toy_ledger0 toy_ledger1.
Proof.
  refine (run_step_ok toy_program toy_ctx0 register_accounts register_data toy_ledger0 toy_ledger1 _ _ _ _);
    [apply toy_not_system|apply toy_infos_wf; vm_compute; reflexivity
    |apply toy_context_wf; eval_done|vm_compute; reflexivity].
Qed.

Lemma toy_step2 : process toy_ctx0 toy_program staker_accounts stake_data toy_ledger1
    = Ok (tt, ran toy_stake toy_ledger1) /\
  transaction toy_program everyone toy_ledger1 toy_ledger2 /\ chain_trace toy_program everyone ([] ++ [toy_ctx0]) toy_ledger1 toy_ledger2.
Proof.
  refine (run_step_ok toy_program toy_ctx0 staker_accounts stake_data toy_ledger1 toy_ledger2 _ _ _ _);
    [apply toy_not_system|apply toy_infos_wf; vm_compute; reflexivity
    |apply toy_context_wf; eval_done|vm_compute; reflexivity].
Qed.

Lemma toy_step3 : process toy_ctx1 toy_program prove_accounts prove_data toy_ledger2
    = Ok (tt, ran toy_prove toy_ledger2) /\
  transaction toy_program everyone toy_ledger2 toy_ledger3 /\ chain_trace toy_program everyone ([] ++ [toy_ctx1]) toy_ledger2 toy_ledger3.
Proof.
  refine (run_step_ok toy_program toy_ctx1 prove_accounts prove_data toy_ledger2 toy_ledger3 _ _ _ _);
    [apply toy_not_system|apply toy_infos_wf; vm_compute; reflexivity
    |apply toy_context_wf; eval_done|vm_compute; reflexivity].
Qed.

Lemma toy_reach2 : rtc (chain_step toy_program everyone) toy_ledger0 toy_ledger2.
Proof. apply run_chain. eapply rtc_l; [apply toy_step1|]. apply rtc_once, toy_step2. Qed.

Lemma toy_reach3 : rtc (chain_step toy_program everyone) toy_ledger0 toy_ledger3.
Proof. etrans; [apply toy_reach2|]. apply run_chain, rtc_once, toy_step3. Qed.
