(* ===== verification/ProgramProperties.v ===== *)
(** * What the slashing program guarantees

    The program's theorems in terms of the ledger, with the concrete chain of [ToyChain] as the
    witness that their hypotheses can hold. *)
From S2P Require Import Prelude Constants Crypto Receipt Slashing Accounts Evidence Runtime Processor Solvency Payouts Lifecycle Kinds Court Conviction ToyChain.

#[local] Existing Instance toy_crypto.
#[local] Existing Instance toy_runtime.

(** ** Solvency *)

(** C1: the slashing program is solvent on every chain.  After any sequence of instructions, its own
    and those of other programs, in transactions of any length and also between two instructions of
    one, each operator account whose registration did not wrap around holds its rent, its bond, the
    sum of all stakes and the sum of all rewards the stakers can claim, whatever other operators
    did; and each conviction holds its rent and what it owes its victim. *)
Theorem program_solvent `{C : Crypto} `{!CryptoLaws C} `{R : Runtime} `{!RuntimeLaws R}
    (program_id : bytes) (sound : bytes -> Prop) (L0 L : ledger)
    (Hns : program_id <> system_program_id) (Hg : genesis program_id L0)
    (Hr : rtc (chain_step program_id sound) L0 L) :
  (forall o acc, sound o -> owner_at L o = program_id -> OperatorAccount_read (data_at L o) = Ok acc ->
     let ps := positions_in (views program_id L) o in
     o_pool_staked acc = msum p_staked ps /\
     rent OPERATOR_LEN + o_bond acc + msum p_staked ps +
       msum (fun p => claimable p (o_reward_index acc)) ps <= lamports_at L o) /\
  (forall k cv, owner_at L k = program_id -> ConvictionAccount_read (data_at L k) = Ok cv ->
     rent CONVICTION_LEN + cv_owed_to_victim cv <= lamports_at L k).
Proof.
  pose proof (chain_solvent _ _ Hns _ _ Hg Hr) as Hsol. split.
  - intros o acc Hs Ho Hacc ps.
    destruct (sol_operator _ _ Hsol _ _ (operator_of_ledger _ Hns _ _ _ Ho Hacc) Hs) as (d & c & Hc & _ & Hle).
    pose proof (claimable_sum_le _ _ _ _ Hc) as Hsum. pose proof (cov_staked Hc) as Hst.
    cbn [OperatorAccount_pool staked reward_index] in *. fold ps in Hsum, Hst. split; [done|lia].
  - intros k cv Ho Hcv. apply (sol_conviction _ _ Hsol). by apply conviction_of_ledger.
Qed.

Definition toy_account (L : ledger) : OperatorAccount :=
  match OperatorAccount_read (data_at L toy_operator) with Ok acc => acc | _ => sample_operator end.

Lemma program_solvent_witness :
  OperatorAccount_read (data_at toy_ledger3 toy_operator) = Ok (toy_account toy_ledger3) /\
  let acc := toy_account toy_ledger3 in
  let ps := positions_in (views toy_program toy_ledger3) toy_operator in
  o_pool_staked acc = msum p_staked ps /\
  rent OPERATOR_LEN + o_bond acc + msum p_staked ps +
    msum (fun p => claimable p (o_reward_index acc)) ps <= lamports_at toy_ledger3 toy_operator.
Proof.
  assert (OperatorAccount_read (data_at toy_ledger3 toy_operator) = Ok (toy_account toy_ledger3)) as Hacc
    by (vm_compute; reflexivity).
  split; [exact Hacc|].
  refine (proj1 (program_solvent toy_program everyone toy_ledger0 toy_ledger3 toy_not_system toy_genesis toy_reach3)
    toy_operator (toy_account toy_ledger3) I _ Hacc).
  vm_compute. reflexivity.
Defined.

(** C20: accounts keep their kind.  Leave aside operators whose registration wrapped around.  On every
    reachable ledger, also between two instructions of a transaction, a position names an operator
    account; and whatever happens on the chain from there, an account that reads as an operator, a
    position or a conviction is never dropped and goes on reading as one, under the same authority
    and key, owner and operator, or convicted operator and wronged transaction. *)
Theorem account_kinds_stable `{C : Crypto} `{!CryptoLaws C} `{R : Runtime} `{!RuntimeLaws R}
    (program_id : bytes) (sound : bytes -> Prop) (L0 L L' : ledger)
    (Hns : program_id <> system_program_id) (Hg : genesis program_id L0)
    (Hr : rtc (chain_step program_id sound) L0 L) (Hr' : rtc (chain_step program_id sound) L L') :
  (forall k p, position_in (views program_id L) k = Some p -> sound (pa_operator p) ->
     is_Some (operator_in (views program_id L) (pa_operator p))) /\
  (forall k d i, views program_id L !! k = Some d -> identity d = Some i ->
     (forall authority key, i = IsOperator authority key -> sound k) ->
     exists d', views program_id L' !! k = Some d' /\ identity d' = Some i).
Proof.
  pose proof (chain_solvent _ _ Hns _ _ Hg Hr) as Hsol. split.
  - intros k p Hk. by apply (sol_position _ _ Hsol) in Hk as [_ ?].
  - intros k d i Hk Hi Hs. apply (chain_stays _ _ Hns _ _ Hsol Hr' k d i Hk Hi). destruct i; cbn; eauto.
Qed.

Lemma account_kinds_stable_witness :
  exists d', views toy_program toy_ledger3 !! toy_operator = Some d' /\
    identity d' = Some (IsOperator toy_authority toy_signing).
Proof.
  refine (proj2 (account_kinds_stable toy_program everyone toy_ledger0 toy_ledger2 toy_ledger3 toy_not_system toy_genesis toy_reach2 _)
    toy_operator (data_at toy_ledger2 toy_operator) (IsOperator toy_authority toy_signing) _ _ _).
  - exact (run_chain _ _ _ (rtc_once _ _ (proj1 (proj2 toy_step3)))).
  - vm_compute. reflexivity.
  - vm_compute. reflexivity.
  - intros. exact I.
Defined.

(** A staker's claim always pays.  On every reachable ledger, unless the operator's registration
    wrapped around, a staker that signs a claim on
    its own position receives exactly what the pool's index says it earned, up to the receiving
    account's capacity; the operator account is debited by that amount and the position's reward
    is emptied.  No other staker, slash or withdrawal can make the claim fail. *)
Theorem claim_always_pays `{C : Crypto} `{!CryptoLaws C} `{R : Runtime} `{!RuntimeLaws R}
    (program_id : bytes) (sound : bytes -> Prop) (L0 L : ledger) (owner oi pi : AccountInfo) (rest : list AccountInfo)
    (st : PositionAccount)
    (Hns : program_id <> system_program_id) (Hg : genesis program_id L0)
    (Hr : rtc (chain_step program_id sound) L0 L) (Hsound : sound (ai_key oi)) (Hsig : ai_is_signer owner = true)
    (Ho : owner_at L (ai_key pi) = program_id) (Hst : PositionAccount_read (data_at L (ai_key pi)) = Ok st)
    (Hown : pa_owner st = ai_key owner) (Hopr : pa_operator st = ai_key oi)
    (Hne : ai_key owner <> ai_key oi) :
  exists acc, OperatorAccount_read (data_at L (ai_key oi)) = Ok acc /\
    let earned := claimable (PositionAccount_position st) (o_reward_index acc) in
    (lamports_at L (ai_key owner) + earned < 2 ^ 64 ->
     exists L', claim program_id (owner :: oi :: pi :: rest) L = Ok (tt, L') /\
       lamports_at L' (ai_key owner) = lamports_at L (ai_key owner) + earned /\
       lamports_at L' (ai_key oi) = lamports_at L (ai_key oi) - earned /\
       PositionAccount_read (data_at L' (ai_key pi)) =
         Ok (PositionAccount_set_position st (MkPosition (pa_staked st) (o_reward_index acc) 0))).
Proof. apply (claim_pays _ sound); [done| |done..]. by eapply chain_solvent. Qed.

Definition toy_stored (L : ledger) : PositionAccount :=
  match PositionAccount_read (data_at L toy_position) with Ok st => st | _ => sample_position end.

Lemma claim_always_pays_witness :
  exists acc, OperatorAccount_read (data_at toy_ledger3 toy_operator) = Ok acc /\
    let earned := claimable (PositionAccount_position (toy_stored toy_ledger3)) (o_reward_index acc) in
    (lamports_at toy_ledger3 toy_staker + earned < 2 ^ 64 ->
     exists L', claim toy_program [signer_info toy_staker; plain_info toy_operator; plain_info toy_position]
         toy_ledger3 = Ok (tt, L') /\
       lamports_at L' toy_staker = lamports_at toy_ledger3 toy_staker + earned /\
       lamports_at L' toy_operator = lamports_at toy_ledger3 toy_operator - earned /\
       PositionAccount_read (data_at L' toy_position) =
         Ok (PositionAccount_set_position (toy_stored toy_ledger3)
               (MkPosition (pa_staked (toy_stored toy_ledger3)) (o_reward_index acc) 0))).
Proof.
  exact (claim_always_pays toy_program everyone toy_ledger0 toy_ledger3 (signer_info toy_staker)
    (plain_info toy_operator) (plain_info toy_position) [] (toy_stored toy_ledger3) toy_not_system
    toy_genesis toy_reach3 I eq_refl ltac:(vm_compute; reflexivity) ltac:(vm_compute; reflexivity)
    ltac:(vm_compute; reflexivity) ltac:(vm_compute; reflexivity) ltac:(eval_done)).
Defined.

(** Staked capital can always be withdrawn.  On every reachable ledger, unless the operator's
    registration wrapped around, a staker that signs an
    unstake of at most its stake receives that amount; its stake is reduced by it and everything it
    had earned stays claimable. *)
Theorem unstake_always_pays `{C : Crypto} `{!CryptoLaws C} `{R : Runtime} `{!RuntimeLaws R}
    (program_id : bytes) (sound : bytes -> Prop) (L0 L : ledger) (owner oi pi : AccountInfo) (rest : list AccountInfo)
    (st : PositionAccount) (amount : Z)
    (Hns : program_id <> system_program_id) (Hg : genesis program_id L0)
    (Hr : rtc (chain_step program_id sound) L0 L) (Hsound : sound (ai_key oi)) (Hsig : ai_is_signer owner = true)
    (Ho : owner_at L (ai_key pi) = program_id) (Hst : PositionAccount_read (data_at L (ai_key pi)) = Ok st)
    (Hown : pa_owner st = ai_key owner) (Hopr : pa_operator st = ai_key oi)
    (Hne : ai_key owner <> ai_key oi) (Hamt : 0 <= amount <= pa_staked st)
    (Hfit : lamports_at L (ai_key owner) + amount < 2 ^ 64) :
  exists acc L', OperatorAccount_read (data_at L (ai_key oi)) = Ok acc /\
    unstake program_id (owner :: oi :: pi :: rest) amount L = Ok (tt, L') /\
    lamports_at L' (ai_key owner) = lamports_at L (ai_key owner) + amount /\
    lamports_at L' (ai_key oi) = lamports_at L (ai_key oi) - amount /\
    PositionAccount_read (data_at L' (ai_key pi)) =
      Ok (PositionAccount_set_position st
            (MkPosition (pa_staked st - amount) (o_reward_index acc)
               (claimable (PositionAccount_position st) (o_reward_index acc)))).
Proof. apply (unstake_pays _ sound); try done. by eapply chain_solvent. Qed.

Lemma unstake_always_pays_witness :
  exists acc L', OperatorAccount_read (data_at toy_ledger3 toy_operator) = Ok acc /\
    unstake toy_program [signer_info toy_staker; plain_info toy_operator; plain_info toy_position] 1500
      toy_ledger3 = Ok (tt, L') /\
    lamports_at L' toy_staker = lamports_at toy_ledger3 toy_staker + 1500 /\
    lamports_at L' toy_operator = lamports_at toy_ledger3 toy_operator - 1500 /\
    PositionAccount_read (data_at L' toy_position) =
      Ok (PositionAccount_set_position (toy_stored toy_ledger3)
            (MkPosition (pa_staked (toy_stored toy_ledger3) - 1500) (o_reward_index acc)
               (claimable (PositionAccount_position (toy_stored toy_ledger3)) (o_reward_index acc)))).
Proof.
  exact (unstake_always_pays toy_program everyone toy_ledger0 toy_ledger3 (signer_info toy_staker)
    (plain_info toy_operator) (plain_info toy_position) [] (toy_stored toy_ledger3) 1500 toy_not_system
    toy_genesis toy_reach3 I eq_refl ltac:(vm_compute; reflexivity) ltac:(vm_compute; reflexivity)
    ltac:(vm_compute; reflexivity) ltac:(vm_compute; reflexivity) ltac:(eval_done)
    ltac:(eval_done) ltac:(eval_done)).
Defined.

(** ** Convictions *)

(** C9: no conviction without two contradictory signatures.  Whenever the slashing instruction
    succeeds, the accounts it was given hold an operator with a standing bond, and two different
    receipt messages for one position of one log exist, both with a valid signature of the
    operator's registered key.  An operator whose key never signed such a pair is never slashed. *)
Theorem conviction_needs_two_signatures `{C : Crypto} `{R : Runtime} `{!RuntimeLaws R}
    (ctx : Context) (program_id : bytes) (accounts : list AccountInfo) (L L' : ledger)
    (Hpre : precompiled ctx) (Hp : prove_equivocation ctx program_id accounts L = Ok (tt, L')) :
  exists accuser oi ci rest acc m1 m2,
    accounts = accuser :: oi :: ci :: rest /\ owner_at L (ai_key oi) = program_id /\
    OperatorAccount_read (data_at L (ai_key oi)) = Ok acc /\ o_bond acc <> 0 /\
    contradiction (o_signing_key acc) m1 m2.
Proof.
  apply prove_equivocation_needs_empty in Hp
    as (accuser & oi & ci & rest & acc & sysvar & e & bump & -> & Ho & Hacc & Hb & Hev & _).
  exists accuser, oi, ci, rest, acc, (e_a e), (e_b e). split_conj; try done.
  by eapply load_evidence_sound.
Qed.

Lemma toy_precompiled : precompiled toy_ctx1.
Proof.
  intros j key data. unfold toy_ctx1, toy_context. cbn [load_instruction_at_checked].
  case_decide; [|done]. case_match eqn:Hj; [done|]. intros Hl%ok_or_Ok.
  assert (Z.to_nat j = 0%nat /\ data = verify_two_data toy_signing toy_receipt_a toy_receipt_b) as [Hj0 ->].
  { destruct (Z.to_nat j) as [|[|n]] eqn:E; [by injection Hl as <-| |by destruct n].
    vm_compute in Hl. discriminate Hl. }
  assert (j = 0) as -> by lia.
  rewrite verify_two_data_layout by eval_done.
  apply verify_two_accepted; [eval_done|eval_done|eval_done|vm_compute; reflexivity|vm_compute; reflexivity].
Qed.

Lemma toy_prove_runs :
  prove_equivocation toy_ctx1 toy_program prove_accounts toy_ledger2 = Ok (tt, ran (prove_equivocation toy_ctx1 toy_program prove_accounts) toy_ledger2).
Proof. pose proof (proj1 toy_step3) as H. unfold prove_data in H. by rewrite !process_prove in H. Qed.

Lemma conviction_needs_two_signatures_witness :
  exists accuser oi ci rest acc m1 m2,
    prove_accounts = accuser :: oi :: ci :: rest /\ owner_at toy_ledger2 (ai_key oi) = toy_program /\
    OperatorAccount_read (data_at toy_ledger2 (ai_key oi)) = Ok acc /\ o_bond acc <> 0 /\
    contradiction (o_signing_key acc) m1 m2.
Proof.
  exact (conviction_needs_two_signatures toy_ctx1 toy_program prove_accounts toy_ledger2 _
           toy_precompiled toy_prove_runs).
Defined.

(** C10: the court's transaction convicts.  Take any two verifying receipts that contradict each
    other under the key of an operator whose bond stands and whose registration did not wrap around.
    On every reachable ledger where the conviction's address is untouched, the accuser can pay its
    rent, and neither the incinerator nor the conviction would overflow with the bond, the two
    instructions crates/court builds go through: the precompile accepts the first, and the program,
    run on the second, slashes the whole bond, burns its share, and escrows the victim's in the
    conviction. *)
Theorem court_transaction_convicts `{C : Crypto} `{!CryptoLaws C} `{R : Runtime} `{!RuntimeLaws R}
    (program_id : bytes) (sound : bytes -> Prop) (addresses : Addresses) (L0 L : ledger) (accuser : bytes)
    (acc : OperatorAccount) (a b : SignedReceipt) (ixs : list SolInstruction) (ctx : Context) (slot : Z)
    (ck : bytes)
    (Hprog : ad_program addresses = program_id) (Hns : program_id <> system_program_id)
    (Hlen : length (ad_operator addresses) = 32%nat)
    (Hg : genesis program_id L0) (Hr : rtc (chain_step program_id sound) L0 L)
    (Hsound : sound (ad_operator addresses)) (Ho : owner_at L (ad_operator addresses) = program_id)
    (Hacc : OperatorAccount_read (data_at L (ad_operator addresses)) = Ok acc) (Hpos : 0 < o_bond acc)
    (Wa : SignedReceipt_wf a) (Wb : SignedReceipt_wf b)
    (Va : SignedReceipt_verify a (o_signing_key acc) = Ok tt)
    (Vb : SignedReceipt_verify b (o_signing_key acc) = Ok tt)
    (Hlog : r_log_id (s_receipt a) = r_log_id (s_receipt b))
    (Hseq : r_seq (s_receipt a) = r_seq (s_receipt b)) (Hdiff : s_receipt a <> s_receipt b)
    (Hixs : court_prove_equivocation addresses accuser (o_signing_key acc) a b = Some ixs)
    (Hck : Addresses_conviction addresses (SignedReceipt_message a) (SignedReceipt_message b) = Some ck)
    (Hruns : runs_at ctx slot (map load_ix ixs) 1) (Wslot : is_u64 slot)
    (Hempty : account_at L ck = empty_account)
    (Hpay : can_pay L (MkInfo accuser true) (rent CONVICTION_LEN)) (Hn1 : accuser <> ck)
    (Hn2 : incinerator_id <> ad_operator addresses) (Hn3 : incinerator_id <> ck)
    (Hn4 : incinerator_id <> accuser)
    (Hfit1 : lamports_at L incinerator_id + o_bond acc < 2 ^ 64)
    (Hfit2 : rent CONVICTION_LEN + o_bond acc < 2 ^ 64) :
  exists ix0 ix1 L', ixs = [ix0; ix1] /\ ix_program_id ix0 = ed25519_program_id /\
    precompile_accepts (ix_data ix0) 0 /\
    process ctx program_id (infos_of ix1) (ix_data ix1) L = Ok (tt, L') /\
    convicted L L' acc (ad_operator addresses) ck.
Proof.
  pose proof (chain_solvent _ _ Hns _ _ Hg Hr) as Hsol.
  by apply (court_convicts program_id sound addresses L accuser acc a b ixs ctx slot ck).
Qed.

Lemma court_transaction_convicts_witness :
  exists ix0 ix1 L', toy_instructions = [ix0; ix1] /\
    ix_program_id ix0 = ed25519_program_id /\ precompile_accepts (ix_data ix0) 0 /\
    process toy_ctx1 toy_program (infos_of ix1) (ix_data ix1) toy_ledger2 = Ok (tt, L') /\
    convicted toy_ledger2 L' (toy_account toy_ledger2) toy_operator toy_conviction.
Proof.
  exact (court_transaction_convicts toy_program everyone toy_addresses toy_ledger0 toy_ledger2 toy_accuser
    (toy_account toy_ledger2) toy_receipt_a toy_receipt_b toy_instructions toy_ctx1 7 toy_conviction
    eq_refl toy_not_system ltac:(vm_compute; reflexivity) toy_genesis toy_reach2 I
    ltac:(vm_compute; reflexivity) ltac:(vm_compute; reflexivity) ltac:(eval_done)
    ltac:(eval_done) ltac:(eval_done) ltac:(vm_compute; reflexivity) ltac:(vm_compute; reflexivity)
    ltac:(vm_compute; reflexivity) ltac:(vm_compute; reflexivity) ltac:(eval_done)
    ltac:(vm_compute; reflexivity) ltac:(vm_compute; reflexivity)
    (toy_context_runs 7 (map load_ix toy_instructions) 1) ltac:(eval_done) ltac:(vm_compute; reflexivity)
    ltac:(unfold can_pay; eval_done) ltac:(eval_done) ltac:(eval_done) ltac:(eval_done)
    ltac:(eval_done) ltac:(eval_done) ltac:(eval_done)).
Defined.

(** the court's instruction is read back exactly.  For any two well-formed receipts and any
    32-byte key, the data [verify_two] writes is parsed by the program's [verified_pairs] into that
    key with the two messages, whatever the instruction's index; and the precompile accepts it
    when both signatures are valid. *)
Theorem verify_two_read_back `{C : Crypto} `{R : Runtime} (signer : bytes) (a b : SignedReceipt) (index : Z)
    (Hk : length signer = 32%nat) (Wa : SignedReceipt_wf a) (Wb : SignedReceipt_wf b) :
  verified_pairs (ix_data (verify_two signer a b)) index =
    Ok [MkVerified signer (SignedReceipt_message a); MkVerified signer (SignedReceipt_message b)] /\
  (ed25519_verify_strict signer (SignedReceipt_message a) (s_signature a) = true ->
   ed25519_verify_strict signer (SignedReceipt_message b) (s_signature b) = true ->
   precompile_accepts (ix_data (verify_two signer a b)) index).
Proof.
  cbn [verify_two ix_data]. rewrite verify_two_data_layout by done. split.
  - by apply verify_two_pairs.
  - by apply verify_two_accepted.
Qed.

Lemma verify_two_read_back_witness :
  verified_pairs (ix_data (verify_two toy_signing toy_receipt_a toy_receipt_b)) 4 =
    Ok [MkVerified toy_signing (SignedReceipt_message toy_receipt_a);
        MkVerified toy_signing (SignedReceipt_message toy_receipt_b)].
Proof.
  exact (proj1 (verify_two_read_back toy_signing toy_receipt_a toy_receipt_b 4 eq_refl
    ltac:(eval_done) ltac:(eval_done))).
Defined.

(** ** The operator's life *)

(** C21: every instruction refines the operator's lifecycle.  Whatever instruction succeeds, each
    operator account that existed makes one step of [operator_step]: nothing, a change of the
    pool's stake, one slash of the whole bond, the start of the timelock, or a withdrawal after
    it; its authority and signing key never change and its bond never grows. *)
Theorem instruction_refines_lifecycle `{C : Crypto} `{!CryptoLaws C} `{R : Runtime} `{!RuntimeLaws R}
    (ctx : Context) (program_id : bytes) (accounts : list AccountInfo) (data : bytes) (L L' : ledger)
    (o : bytes) (acc : OperatorAccount)
    (Hns : program_id <> system_program_id)
    (Hp : process ctx program_id accounts data L = Ok (tt, L'))
    (Ho : owner_at L o = program_id) (Hacc : OperatorAccount_read (data_at L o) = Ok acc) :
  exists acc', owner_at L' o = program_id /\ OperatorAccount_read (data_at L' o) = Ok acc' /\
    operator_step ctx acc acc' /\ o_authority acc' = o_authority acc /\
    o_signing_key acc' = o_signing_key acc /\ 0 <= o_bond acc' <= o_bond acc.
Proof.
  destruct (process_refines _ Hns _ _ _ _ _ Hp o acc) as (acc' & HO & Hs); [by apply operator_of_ledger|].
  exists acc'. apply operator_in_Some in HO as (d & Hd & Hr).
  apply (views_Some _ Hns) in Hd as [Ho' <-].
  destruct (operator_step_identity _ _ _ Hs) as (? & ? & Hb).
  apply (read_Ok (C := operator_codec)) in Hacc as ((_ & _ & [? _] & _) & _).
  destruct (Hb ltac:(done)). by split_conj.
Qed.

Lemma instruction_refines_lifecycle_witness :
  exists acc', owner_at (ran toy_prove toy_ledger2) toy_operator = toy_program /\
    OperatorAccount_read (data_at (ran toy_prove toy_ledger2) toy_operator) = Ok acc' /\
    operator_step toy_ctx1 (toy_account toy_ledger2) acc' /\
    o_authority acc' = o_authority (toy_account toy_ledger2) /\
    o_signing_key acc' = o_signing_key (toy_account toy_ledger2) /\
    0 <= o_bond acc' <= o_bond (toy_account toy_ledger2).
Proof.
  exact (instruction_refines_lifecycle toy_ctx1 toy_program prove_accounts prove_data toy_ledger2 _
    toy_operator (toy_account toy_ledger2) toy_not_system (proj1 toy_step3)
    ltac:(vm_compute; reflexivity) ltac:(vm_compute; reflexivity)).
Defined.

(** The bond is timelocked.  Take an operator with no withdrawal under way, whose registration did not
    wrap around, any further history
    of the chain, and a withdrawal of its bond at slot [t] at the end: some instruction of that
    history ran at a slot [s] with [s + UNBOND_SLOTS <= t].  The bond cannot leave sooner, except
    by a slash. *)
Theorem bond_is_timelocked `{C : Crypto} `{!CryptoLaws C} `{R : Runtime} `{!RuntimeLaws R}
    (program_id : bytes) (sound : bytes -> Prop) (L0 L1 L2 L3 : ledger) (ctxs : list Context) (ctx : Context)
    (authority oi : AccountInfo) (rest : list AccountInfo) (acc : OperatorAccount)
    (Hns : program_id <> system_program_id) (Hg : genesis program_id L0)
    (Hr : rtc (chain_step program_id sound) L0 L1) (Hsound : sound (ai_key oi))
    (Ho : owner_at L1 (ai_key oi) = program_id)
    (Hacc : OperatorAccount_read (data_at L1 (ai_key oi)) = Ok acc) (Hidle : o_unbond_at acc = 0)
    (Ht : chain_trace program_id sound ctxs L1 L2)
    (Hslots : forall c s, In c ctxs -> Clock_slot c = Ok s -> 0 <= s /\ s + UNBOND_SLOTS < 2 ^ 64)
    (Hw : withdraw_bond ctx program_id (authority :: oi :: rest) L2 = Ok (tt, L3)) :
  exists c s t, In c ctxs /\ Clock_slot c = Ok s /\ Clock_slot ctx = Ok t /\ s + UNBOND_SLOTS <= t.
Proof.
  pose proof (chain_solvent _ _ Hns _ _ Hg Hr) as Hsol.
  destruct (operator_history _ Hns sound timelock_started ctxs L1 L2 (ai_key oi) acc Hsol Hsound Ht)
    as (acc2 & HO2 & Hstarted).
  - by apply operator_of_ledger.
  - intros Hne. by destruct Hne.
  - intros. by eapply timelock_step.
  - apply withdraw_bond_Ok in Hw as (authority' & oi' & acc' & t & d & Htake & _ & Ho2 & Hacc2 & _ & Hu &
      Hclock & Hle & _).
    injection Htake as _ <-. pose proof (operator_of_ledger _ Hns _ _ _ Ho2 Hacc2) as HO2'.
    rewrite HO2 in HO2'. injection HO2' as ->.
    destruct (Hstarted Hu) as (c & s & Hin & Hs & Heq). destruct (Hslots c s Hin Hs) as [Hs0 Hs1].
    exists c, s, t. split_conj; [done..|]. rewrite wrap64_small in Heq; [lia|].
    unfold is_u64. assert (0 <= UNBOND_SLOTS) by eval_done. lia.
Qed.

Definition unbond_accounts : list AccountInfo := [signer_info toy_authority; plain_info toy_operator].
Definition unbond_data : bytes := Instruction_write BeginUnbond.
Definition toy_ctx2 : Context := toy_context 10 [] 0.
Definition toy_ctx3 : Context := toy_context (10 + UNBOND_SLOTS) [] 0.
Definition toy_ledger4 : ledger := list_to_map ltac:(let l := eval vm_compute in
  (map_to_list (run (process toy_ctx2 toy_program unbond_accounts unbond_data) toy_ledger2)) in exact l).

Lemma toy_trace4 : chain_trace toy_program everyone ([] ++ [toy_ctx2]) toy_ledger2 toy_ledger4.
Proof.
  refine (proj2 (proj2 (run_step_ok toy_program toy_ctx2 unbond_accounts unbond_data toy_ledger2 toy_ledger4 _ _ _ _)));
    [apply toy_not_system|apply toy_infos_wf; vm_compute; reflexivity
    |apply toy_context_wf; eval_done|vm_compute; reflexivity].
Qed.

Lemma bond_is_timelocked_witness :
  exists c s t, In c ([] ++ [toy_ctx2]) /\ Clock_slot c = Ok s /\ Clock_slot toy_ctx3 = Ok t /\
    s + UNBOND_SLOTS <= t.
Proof.
  refine (bond_is_timelocked toy_program everyone toy_ledger0 toy_ledger2 toy_ledger4
    (ran (withdraw_bond toy_ctx3 toy_program unbond_accounts) toy_ledger4) ([] ++ [toy_ctx2]) toy_ctx3
    (signer_info toy_authority) (plain_info toy_operator) [] (toy_account toy_ledger2) toy_not_system
    toy_genesis toy_reach2 I ltac:(vm_compute; reflexivity) ltac:(vm_compute; reflexivity)
    ltac:(vm_compute; reflexivity) toy_trace4 _ _).
  - intros c s [<-|[]] [= <-]. split; eval_done.
  - apply ran_ok. vm_compute. reflexivity.
Defined.

(** C19: an operator is slashed at most once.  Take an operator whose registration did not wrap
    around.  After a conviction, whatever happens on the chain, in the rest of the same transaction
    and in later ones, no slashing instruction for that operator succeeds again, on any evidence: the
    same contradiction is never paid out twice. *)
Theorem slashed_at_most_once `{C : Crypto} `{!CryptoLaws C} `{R : Runtime} `{!RuntimeLaws R}
    (program_id : bytes) (sound : bytes -> Prop) (L0 L1 L2 L3 : ledger) (ctx1 : Context)
    (accuser oi ci : AccountInfo) (rest : list AccountInfo)
    (Hns : program_id <> system_program_id) (Hg : genesis program_id L0)
    (Hr : rtc (chain_step program_id sound) L0 L1) (Hsound : sound (ai_key oi))
    (Hi : infos_wf (accuser :: oi :: ci :: rest)) (Hc : context_wf ctx1)
    (Hp : prove_equivocation ctx1 program_id (accuser :: oi :: ci :: rest) L1 = Ok (tt, L2))
    (Hr' : rtc (chain_step program_id sound) L2 L3) :
  forall ctx accuser' ci' rest' L4,
    prove_equivocation ctx program_id (accuser' :: oi :: ci' :: rest') L3 <> Ok (tt, L4).
Proof.
  intros ctx accuser' ci' rest' L4 Hagain.
  pose proof (chain_solvent _ _ Hns _ _ Hg Hr) as Hsol.
  pose proof (prove_equivocation_preserves _ _ Hns _ _ _ _ Hi Hc Hsol Hp) as Hsol2.
  destruct (prove_equivocation_slashed _ _ _ _ _ Hns Hp) as (oi2 & acc2 & Htake & HO2 & Hb2).
  injection Htake as <-. destruct (chain_traced _ _ _ _ Hr') as [ctxs Ht].
  destruct (operator_history _ Hns sound (fun _ a => o_bond a = 0) ctxs L2 L3 (ai_key oi) acc2)
    as (acc3 & HO3 & Hb3); [done..| |].
  { intros _ c a a' Ha Hs. destruct (operator_step_identity _ _ _ Hs) as (_ & _ & Hb). lia. }
  apply prove_equivocation_needs_empty in Hagain
    as (x1 & x2 & x3 & x4 & acc & sysvar & e & bump & [= <- <- <- <-] & Ho & Hacc & Hb & _).
  pose proof (operator_of_ledger _ Hns _ _ _ Ho Hacc) as HO. congruence.
Qed.

Lemma slashed_at_most_once_witness :
  exists L3, is_ok (toy_prove toy_ledger2) = true /\ L3 = purge (ran toy_prove toy_ledger2) /\
    forall ctx accuser' ci' rest' L4,
      prove_equivocation ctx toy_program (accuser' :: plain_info toy_operator :: ci' :: rest') L3
        <> Ok (tt, L4).
Proof.
  eexists. split; [vm_compute; reflexivity|]. split; [reflexivity|].
  unfold prove_data. rewrite process_prove.
  refine (slashed_at_most_once toy_program everyone toy_ledger0 toy_ledger2
    (ran (prove_equivocation toy_ctx1 toy_program prove_accounts) toy_ledger2) _
    toy_ctx1 (signer_info toy_accuser) (plain_info toy_operator) (plain_info toy_conviction)
    [plain_info (toy_id x01); plain_info (toy_id x03); system_info] toy_not_system toy_genesis toy_reach2 I
    _ _ toy_prove_runs (rtc_once _ _ (chain_commit _ _ _))).
  - apply toy_infos_wf. vm_compute. reflexivity.
  - apply toy_context_wf. eval_done.
Defined.

(** C39: a funded address blocks its conviction.  If the address derived from two contradictory
    receipts already holds lamports, which anybody can send there, then no slashing instruction
    presenting this pair, in either order, by any accuser and in any transaction, succeeds: the
    program creates the account instead of taking over the balance. *)
Theorem funded_address_blocks_conviction `{C : Crypto} `{R : Runtime} `{!RuntimeLaws R}
    (program_id operator ck : bytes) (ra rb : Receipt) (ctx : Context) (L L' : ledger)
    (accuser oi ci : AccountInfo) (rest : list AccountInfo)
    (Hck : Addresses_conviction (MkAddresses program_id operator) (Receipt_to_bytes ra) (Receipt_to_bytes rb)
           = Some ck)
    (Hfund : 0 < lamports_at L ck) (Hoi : ai_key oi = operator)
    (Hpairs : forall sysvar i d pairs, load_current_index_checked ctx sysvar = Ok i ->
       load_instruction_at_checked ctx (i - 1) sysvar = Ok (ed25519_program_id, d) ->
       verified_pairs d (i - 1) = Ok pairs ->
       map v_message pairs = [Receipt_to_bytes ra; Receipt_to_bytes rb] \/
       map v_message pairs = [Receipt_to_bytes rb; Receipt_to_bytes ra]) :
  prove_equivocation ctx program_id (accuser :: oi :: ci :: rest) L <> Ok (tt, L').
Proof.
  intros Hp. apply prove_equivocation_needs_empty in Hp
    as (x1 & x2 & x3 & x4 & acc & sysvar & e & bump & [= <- <- <- <-] & Ho & Hacc & Hb & Hev & Hpda & Hempty).
  apply load_evidence_Ok in Hev as (_ & i & d & q0 & q1 & Hi & _ & Hd & Hq & _ & _ & He).
  assert (Equivocation_ordered e = Equivocation_ordered
    (MkEquivocation (r_seq ra) (r_log_id ra) (Receipt_to_bytes ra) (Receipt_to_bytes rb))) as Hord.
  { pose proof He as (_ & _ & _ & _ & _ & ->)%Equivocation_check_Ok.
    destruct (Hpairs _ _ _ _ Hi Hd Hq) as [[= <- <-]|[= <- <-]]; [done|]. apply Equivocation_ordered_sym. }
  unfold Addresses_conviction in Hck. rewrite (conviction_seeds_ordered _ _ _ Hord), Hoi in Hpda.
  unfold conviction_seeds, Equivocation_ordered in Hpda. cbn [e_a e_b ad_operator ad_program] in *.
  assert (ck = ai_key ci) as ->.
  { destruct (bytes_le _ _); cbn [fst snd] in Hpda; rewrite Hpda in Hck; by injection Hck as <-. }
  unfold lamports_at in Hfund. rewrite Hempty in Hfund. done.
Qed.

(** The conviction's address, funded before the conviction. *)
Definition toy_funded : ledger := <[toy_conviction := toy_wallet 1]> toy_ledger2.

Lemma toy_ctx1_pairs sysvar i d pairs :
  load_current_index_checked toy_ctx1 sysvar = Ok i ->
  load_instruction_at_checked toy_ctx1 (i - 1) sysvar = Ok (ed25519_program_id, d) ->
  verified_pairs d (i - 1) = Ok pairs ->
  map v_message pairs = [SignedReceipt_message toy_receipt_a; SignedReceipt_message toy_receipt_b].
Proof.
  unfold toy_ctx1, toy_context. cbn [load_current_index_checked load_instruction_at_checked].
  case_decide; [|done]. intros [= <-] [= <-].
  change (verified_pairs (verify_two_data toy_signing toy_receipt_a toy_receipt_b) 0 = Ok pairs -> map v_message pairs =
    [SignedReceipt_message toy_receipt_a; SignedReceipt_message toy_receipt_b]).
  rewrite verify_two_data_layout, verify_two_pairs by eval_done. by intros [= <-].
Qed.

Lemma funded_address_blocks_conviction_witness :
  is_ok (prove_equivocation toy_ctx1 toy_program prove_accounts toy_ledger2) = true /\
  forall L', prove_equivocation toy_ctx1 toy_program prove_accounts toy_funded <> Ok (tt, L').
Proof.
  split; [vm_compute; reflexivity|]. intros L'.
  refine (funded_address_blocks_conviction toy_program toy_operator toy_conviction (s_receipt toy_receipt_a)
    (s_receipt toy_receipt_b) toy_ctx1 toy_funded L' (signer_info toy_accuser) (plain_info toy_operator)
    (plain_info toy_conviction) [plain_info (toy_id x01); plain_info (toy_id x03); system_info] _ _ eq_refl _).
  - vm_compute. reflexivity.
  - eval_done.
  - intros sysvar i d pairs Hi Hd Hp. left. exact (toy_ctx1_pairs _ _ _ _ Hi Hd Hp).
Defined.

(** The victim's share goes to the payer of the wronged transaction, once.  On every reachable
    ledger, whoever signs for the payer of a transaction whose bytes hash to the value in the
    conviction receives what the conviction owes, after which it owes nothing; and no other claim
    on a conviction succeeds. *)
Theorem victim_share_paid `{C : Crypto} `{!CryptoLaws C} `{R : Runtime} `{!RuntimeLaws R}
    (program_id : bytes) (sound : bytes -> Prop) (L0 L : ledger) (claimant ci : AccountInfo) (rest : list AccountInfo)
    (cv : ConvictionAccount) (wire : bytes)
    (Hns : program_id <> system_program_id) (Hg : genesis program_id L0)
    (Hr : rtc (chain_step program_id sound) L0 L) (Hsig : ai_is_signer claimant = true)
    (Ho : owner_at L (ai_key ci) = program_id)
    (Hcv : ConvictionAccount_read (data_at L (ai_key ci)) = Ok cv)
    (Hhash : sha256 wire = cv_wronged_tx_hash cv) (Hpayer : fee_payer wire = Ok (ai_key claimant))
    (Hne : ai_key claimant <> ai_key ci)
    (Hfit : lamports_at L (ai_key claimant) + cv_owed_to_victim cv < 2 ^ 64) :
  (exists L', claim_victim program_id (claimant :: ci :: rest) wire L = Ok (tt, L') /\
     lamports_at L' (ai_key claimant) = lamports_at L (ai_key claimant) + cv_owed_to_victim cv /\
     exists cv', ConvictionAccount_read (data_at L' (ai_key ci)) = Ok cv' /\ cv_owed_to_victim cv' = 0 /\
       cv_wronged_tx_hash cv' = cv_wronged_tx_hash cv) /\
  (forall other rest' wire' L', claim_victim program_id (other :: ci :: rest') wire' L = Ok (tt, L') ->
     ai_is_signer other = true /\ fee_payer wire' = Ok (ai_key other) /\
     (wire' = wire \/ sha256_collision wire' wire)).
Proof.
  split; [apply (claim_victim_pays _ sound); try done; by eapply chain_solvent|].
  intros other rest' wire' L' (claimant' & ci' & cv' & d & [= <- <-] & Hs & _ & Hcv' & Hh & Hf & _)%claim_victim_Ok.
  split_conj; [done..|]. rewrite Hcv in Hcv'. injection Hcv' as <-.
  destruct (decide (wire' = wire)); [by left|right]. split; [done|congruence].
Qed.

Definition escrow_at (L : ledger) : ConvictionAccount :=
  match ConvictionAccount_read (data_at L toy_conviction) with
  | Ok cv => cv
  | _ => sample_conviction
  end.
Definition toy_escrow : ConvictionAccount := escrow_at toy_ledger3.

Lemma victim_share_paid_witness :
  cv_owed_to_victim toy_escrow = 3000 /\
  exists L', claim_victim toy_program [signer_info toy_victim; plain_info toy_conviction] toy_wire toy_ledger3
    = Ok (tt, L') /\ lamports_at L' toy_victim = lamports_at toy_ledger3 toy_victim + cv_owed_to_victim toy_escrow.
Proof.
  split; [vm_compute; reflexivity|].
  destruct (victim_share_paid toy_program everyone toy_ledger0 toy_ledger3 (signer_info toy_victim)
    (plain_info toy_conviction) [] toy_escrow toy_wire toy_not_system toy_genesis toy_reach3 eq_refl
    ltac:(vm_compute; reflexivity) ltac:(vm_compute; reflexivity) ltac:(vm_compute; reflexivity)
    ltac:(vm_compute; reflexivity) ltac:(eval_done) ltac:(eval_done)) as [(L' & Hrun & Hpaid & _) _].
  exact (ex_intro _ L' (conj Hrun Hpaid)).
Defined.
