(* ===== verification/Registration.v ===== *)
(** * A registration whose deposit wraps around

    [register] takes the rent and the bond with a 64-bit addition that wraps.  An authority that asks
    for a bond close to 2^64 pays nothing and is left with an operator account that claims the bond.
    The theorem shows the whole transaction, and that the operator cannot be slashed. *)
From S2P Require Import Prelude Constants Crypto Receipt Slashing Accounts Evidence Runtime Processor Solvency Payouts Lifecycle Court Conviction ToyChain.

Section registration.
Context `{C : Crypto} `{!CryptoLaws C} `{R : Runtime} `{!RuntimeLaws R}.
Context (program_id : bytes) (not_system : program_id <> system_program_id).
Implicit Types (L : ledger).

Lemma register_run accounts authority oi system key bond f bump d L L1 :
  take 3 accounts = [authority; oi; system] -> ai_is_signer authority = true -> bond <> 0 ->
  find_program_address [OPERATOR_SEED; ai_key authority] program_id = Some (ai_key oi, bump) ->
  Rent_minimum_balance = Some f ->
  invoke_create_account program_id L authority oi system (wrap64 (f OPERATOR_LEN + bond)) OPERATOR_LEN program_id
    [OPERATOR_SEED; ai_key authority; [bump]] = Ok L1 ->
  OperatorAccount_write (MkOperator (ai_key authority) key bond 0 0 0 bump) (data_at L1 (ai_key oi)) = Ok d ->
  register program_id accounts key bond L = Ok (tt, set_data L1 (ai_key oi) d).
Proof.
  intros Ht Hs Hb Hf Hr Hcr Hd. unfold register.
  run_step ltac:(apply lift_Ok; split; [by eapply next_account_infos_take|reflexivity]).
  run_unit ltac:(by apply require_Ok).
  run_unit ltac:(apply require_Ok; split; [by apply bool_decide_eq_true|reflexivity]).
  run_step ltac:(by apply at_pda_Ok). run_step ltac:(apply rent_minimum_Ok; split; [by eauto|reflexivity]).
  run_unit ltac:(by apply create_account_Ok). apply write_account_Ok. by exists d.
Qed.

(** At least half of what is slashed is burned. *)
Lemma burned_half P slashed :
  is_u64 slashed -> slashed <= 2 * burn (Pool_distribute P (Split_of slashed)).2.
Proof.
  intros Hs. pose proof (Split_of_bounds slashed Hs) as Hb. unfold Pool_distribute.
  destruct (Split_of_exact slashed Hs) as [E Hhalf]. rewrite E in *. cbv zeta in Hb. cbn [burn victim pool] in Hb.
  unfold is_u64 in Hs. case_decide; cbn [snd burn pool Split_without_pool]; [rewrite wrap64_small by (split; lia)|];
    div_lia.
Qed.

(** An operator that does not hold the burned share cannot be slashed. *)
Lemma underfunded_unslashed ctx accuser oi ci rest L L' acc :
  owner_at L (ai_key oi) = program_id -> OperatorAccount_read (data_at L (ai_key oi)) = Ok acc ->
  2 * lamports_at L (ai_key oi) < o_bond acc ->
  prove_equivocation ctx program_id (accuser :: oi :: ci :: rest) L <> Ok (tt, L').
Proof.
  intros Ho Hacc Hlow (x & oi' & ci' & burn_to & sysvar & system & acc' & e & bump & f & L1 & wronged & hash & slot &
    dc & do & Htake & _ & _ & Ho' & Hacc' & _ & _ & _ & _ & _ & Hcr & _ & _ & _ & _ & _ & Hburn & _)%prove_equivocation_Ok.
  cbn in Htake. injection Htake as <- <- <- _. rewrite Hacc in Hacc'. injection Hacc' as <-.
  destruct (read_Ok (C := operator_codec) _ _ Hacc) as ((_ & _ & Wb & _) & _).
  pose proof (burned_half (OperatorAccount_pool acc) (o_bond acc) Wb) as Hhalf.
  rewrite !lamports_at_set_data in Hburn.
  destruct (views_create _ not_system _ _ _ _ _ _ _ _ Hcr) as (Hnone & _ & _ & _ & Hfrom & Hlam & _).
  assert (views program_id L !! ai_key oi = Some (data_at L (ai_key oi))) as Hv by by apply views_Some.
  rewrite Hlam, !decide_False in Hburn by congruence. lia.
Qed.

(** The registration itself moves nothing. *)
Lemma register_wrapped L (authority oi system : AccountInfo) key bump :
  length key = 32%nat -> length (ai_key authority) = 32%nat -> ai_key system = system_program_id ->
  find_program_address [OPERATOR_SEED; ai_key authority] program_id = Some (ai_key oi, bump) ->
  account_at L (ai_key oi) = empty_account -> can_pay L authority (rent OPERATOR_LEN) ->
  let bond := 2 ^ 64 - rent OPERATOR_LEN in
  exists L1, register program_id [authority; oi; system] key bond L = Ok (tt, L1) /\
    (forall k, lamports_at L1 k = lamports_at L k) /\
    (forall k, k <> ai_key oi -> owner_at L1 k = owner_at L k /\ data_at L1 k = data_at L k) /\
    owner_at L1 (ai_key oi) = program_id /\ length (data_at L1 (ai_key oi)) = OPERATOR_LEN /\
    OperatorAccount_read (data_at L1 (ai_key oi)) = Ok (MkOperator (ai_key authority) key bond 0 0 0 bump).
Proof.
  intros Hkey Hlen Hsys Hpda Hempty (Hsig & Hown & Hdat & _ & Hpay) bond.
  pose proof (rent_range OPERATOR_LEN) as Hr. destruct rent_available as (f & Hf & _).
  assert (wrap64 (f OPERATOR_LEN + bond) = 0) as Hwrap.
  { rewrite (rent_Some f) by done. unfold bond. replace (rent OPERATOR_LEN + (2 ^ 64 - rent OPERATOR_LEN)) with (1 * 2 ^ 64) by lia.
    unfold wrap64. by rewrite Z.mod_mul by lia. }
  assert (ai_key authority <> ai_key oi) as Hne.
  { intros E. unfold lamports_at in Hpay. rewrite E, Hempty in Hpay. cbn [a_lamports empty_account] in Hpay. lia. }
  destruct (create_account_complete program_id L authority oi system (wrap64 (f OPERATOR_LEN + bond)) OPERATOR_LEN program_id
    [OPERATOR_SEED; ai_key authority; [bump]]) as [L1 Hcr]; try done.
  { rewrite Hwrap. unfold can_pay. split_conj; [done..|lia]. }
  { by apply (find_create [OPERATOR_SEED; ai_key authority]). }
  pose proof Hcr as (_ & _ & _ & HL1)%create_account_sound.
  destruct (views_create _ not_system _ _ _ _ _ _ _ _ Hcr) as (_ & _ & H0 & _ & _ & Hlam & _ & Ho & Hd).
  destruct (write_fits (C := operator_codec) (MkOperator (ai_key authority) key bond 0 0 0 bump) (data_at L1 (ai_key oi)))
    as (d & Hw & Hl & _ & Hread); [|by rewrite Hd, length_zeros|].
  { unfold bond. split; [done|]. split; [done|]. split; [split; cbn [o_bond]; lia|]. by split_conj. }
  eexists. split; [by eapply register_run; try done; unfold bond; lia|].
  split_conj.
  - intros k. rewrite lamports_at_set_data, Hlam, Hwrap. repeat case_decide; subst; lia.
  - intros k Hk. rewrite owner_at_set_data, data_at_set, decide_False by congruence. rewrite HL1.
    rewrite owner_at_insert, data_at_insert, !decide_False by congruence. by autorewrite with ledger.
  - by rewrite owner_at_set_data.
  - by rewrite data_at_set, decide_True, Hl, Hd, length_zeros.
  - by rewrite data_at_set, decide_True.
Qed.
End registration.

(** A bond nobody deposited.  The rent and the bond are added modulo 2^64.  So an authority that can
    pay the rent registers with a bond that makes the sum wrap to zero: the registration moves no
    lamports, a plain transfer of the rent to the new account makes it exempt, and the transaction of
    the two leaves an operator account that claims the whole bond and holds only its rent.  No slashing
    instruction succeeds against it. *)
Theorem wrapped_registration_unbacked `{C : Crypto} `{!CryptoLaws C} `{R : Runtime} `{!RuntimeLaws R}
    (program_id : bytes) (ctx : Context) (L : ledger) (authority oi system : AccountInfo) (key : bytes) (bump : byte)
    (Hns : program_id <> system_program_id) (Hctx : context_wf ctx) (Hinfos : infos_wf [authority; oi; system])
    (Hkey : length key = 32%nat) (Hsys : ai_key system = system_program_id)
    (Hpda : find_program_address [OPERATOR_SEED; ai_key authority] program_id = Some (ai_key oi, bump))
    (Hempty : account_at L (ai_key oi) = empty_account) (Hpay : can_pay L authority (rent OPERATOR_LEN))
    (Hlam : forall k, is_u64 (lamports_at L k)) (Hex : rent_exempt program_id L)
    (Hrent : 3 * rent OPERATOR_LEN < 2 ^ 64) :
  let bond := 2 ^ 64 - rent OPERATOR_LEN in
  exists L1 L2,
    process ctx program_id [authority; oi; system] (Instruction_write (Register key bond)) L = Ok (tt, L1) /\
    (forall k, lamports_at L1 k = lamports_at L k) /\
    L2 = purge (transfer L1 (ai_key authority) (ai_key oi) (rent OPERATOR_LEN)) /\
    transaction program_id (fun k => k <> ai_key oi) L L2 /\
    owner_at L2 (ai_key oi) = program_id /\
    OperatorAccount_read (data_at L2 (ai_key oi)) = Ok (MkOperator (ai_key authority) key bond 0 0 0 bump) /\
    lamports_at L2 (ai_key oi) = rent OPERATOR_LEN /\
    forall ctx' accuser ci rest L3,
      prove_equivocation ctx' program_id (accuser :: oi :: ci :: rest) L2 <> Ok (tt, L3).
Proof.
  intros bond. pose proof Hinfos as Hi. inversion_clear Hi as [|? ? Hlen _]. pose proof (rent_range OPERATOR_LEN) as Hr.
  destruct (register_wrapped program_id Hns L authority oi system key bump) as (L1 & Hreg & Hl1 & Hsame & Ho1 & Hd1 & Hread1);
    [done..|].
  assert (process ctx program_id [authority; oi; system] (Instruction_write (Register key bond)) L = Ok (tt, L1)) as Hp.
  { unfold process. rewrite Instruction_read_write by (split; [done|unfold bond; split; lia]). exact Hreg. }
  destruct Hpay as (_ & Hown & _ & _ & Hpay).
  assert (lamports_at L (ai_key oi) = 0) as H0 by (unfold lamports_at; by rewrite Hempty).
  assert (ai_key authority <> ai_key oi) as Hne by (intros E; rewrite E, H0 in Hpay; lia).
  set (Lt := transfer L1 (ai_key authority) (ai_key oi) (rent OPERATOR_LEN)).
  destruct (transfer_balances L1 (ai_key authority) (ai_key oi) (rent OPERATOR_LEN)) as (Hu & Hmono & _);
    [intros k; rewrite Hl1; apply Hlam|rewrite Hl1; lia| |].
  { rewrite lamports_at_transfer, decide_False, decide_True, Hl1, H0 by done. lia. }
  assert (lamports_at Lt (ai_key oi) = rent OPERATOR_LEN) as Hlt.
  { unfold Lt. by rewrite lamports_at_transfer, decide_False, decide_True, Hl1, H0 by done. }
  assert (account_at (purge Lt) (ai_key oi) = account_at Lt (ai_key oi)) as Hkeep.
  { apply account_at_purge. rewrite Hlt. lia. }
  assert (owner_at (purge Lt) (ai_key oi) = program_id /\ lamports_at (purge Lt) (ai_key oi) = rent OPERATOR_LEN /\
    OperatorAccount_read (data_at (purge Lt) (ai_key oi)) = Ok (MkOperator (ai_key authority) key bond 0 0 0 bump))
    as (Ho2 & Hl2 & Hread2).
  { unfold owner_at, lamports_at, data_at. rewrite Hkeep. fold (owner_at Lt (ai_key oi)) (lamports_at Lt (ai_key oi)) (data_at Lt (ai_key oi)).
    unfold Lt at 1 3. by rewrite owner_at_transfer, data_at_transfer. }
  exists L1, (purge Lt). split_conj; try done.
  - exists Lt. split; [|split; [|done]].
    + eapply rtc_l; [eapply step_program; [exact Hinfos|exact Hctx| |exact Hp]|apply rtc_once, step_other].
      * intros k b info _ [= <-] Hs. by destruct Hs.
      * split; [done|split].
        -- intros k Ho. unfold Lt. rewrite owner_at_transfer, data_at_transfer. split_conj; [done..|]. apply Hmono.
           intros ->. rewrite (proj1 (Hsame _ Hne)) in Ho. congruence.
        -- intros k Hno. unfold Lt. rewrite owner_at_transfer. done.
    + intros k. unfold Lt. rewrite owner_at_transfer, data_at_transfer. intros Ho. destruct (decide (k = ai_key oi)) as [->|Hk].
      * right. rewrite Hd1. fold Lt. by rewrite Hlt.
      * destruct (Hsame k Hk) as [E1 E2]. rewrite E1 in Ho. rewrite E2.
        assert (k <> ai_key authority) by congruence.
        rewrite lamports_at_transfer, !decide_False, Hl1 by congruence. rewrite Z.sub_0_r, Z.add_0_r. by apply Hex.
  - intros ctx' accuser ci rest L3. apply (underfunded_unslashed program_id Hns _ _ _ _ _ _ _ _ Ho2 Hread2). rewrite Hl2. cbn [o_bond]. unfold bond. lia.
Qed.

#[local] Existing Instance toy_crypto.
#[local] Existing Instance toy_runtime.

Lemma wrapped_registration_unbacked_witness :
  exists L1 L2,
    process toy_ctx0 toy_program register_accounts
      (Instruction_write (Register toy_signing (2 ^ 64 - rent OPERATOR_LEN))) toy_ledger0 = Ok (tt, L1) /\
    transaction toy_program (fun k => k <> toy_operator) toy_ledger0 L2 /\
    lamports_at L2 toy_operator = rent OPERATOR_LEN /\
    forall ctx accuser ci rest L3,
      prove_equivocation ctx toy_program (accuser :: plain_info toy_operator :: ci :: rest) L2 <> Ok (tt, L3).
Proof.
  destruct (wrapped_registration_unbacked toy_program toy_ctx0 toy_ledger0 (signer_info toy_authority)
    (plain_info toy_operator) system_info toy_signing xff toy_not_system ltac:(apply toy_context_wf; eval_done)
    ltac:(apply toy_infos_wf; vm_compute; reflexivity) eq_refl eq_refl ltac:(vm_compute; reflexivity)
    ltac:(vm_compute; reflexivity) ltac:(unfold can_pay; eval_done) (proj1 toy_genesis)
    ltac:(apply exempt_check_ok; [apply toy_not_system|vm_compute; reflexivity]) ltac:(vm_compute; reflexivity))
    as (L1 & L2 & Hp & _ & _ & Ht & _ & _ & Hl & Hno).
  exact (ex_intro _ L1 (ex_intro _ L2 (conj Hp (conj Ht (conj Hl Hno))))).
Defined.
