(* ===== verification/Columns.v ===== *)
(** * The columns of the ledger: magicblock-ledger/src/database/columns.rs

    How each column family of the ledger turns an index into the bytes of a key and back.  The
    trait [Column] is a class over the names of the columns, with one instance per
    implementation; [CurrentIndex] is what iterators use of the trait [ColumnIndexDeprecation].
    [LawfulColumn] states that a key gives back its index. *)
From S2P Require Import Prelude.

(** ** The columns and their trait *)

Inductive column : Type :=
| TransactionStatus
| AddressSignatures
| SlotSignatures
| Blocktime
| Blockhash
| Transaction
| TransactionMemos
| PerfSamples
| ReceiptBySeq
| ReceiptBySig.

#[global] Instance column_eq_dec : EqDecision column.
Proof. solve_decision. Defined.

Definition columns : list column :=
  [TransactionStatus; AddressSignatures; SlotSignatures; Blocktime; Blockhash; Transaction;
   TransactionMemos; PerfSamples; ReceiptBySeq; ReceiptBySig].

(** [slot_of] and [as_index] are the trait's [slot] and [as_index]. *)
Class Column (c : column) : Type := {
  Index : Type;
  column_key : Index -> bytes;
  column_index : bytes -> may_panic Index;
  as_index : Z -> Index;
  slot_of : Index -> Z;
  keep_all_on_compaction : bool;
}.
Arguments Index c {_}.
Arguments column_key c {_} _.
Arguments column_index c {_} _.
Arguments as_index c {_} _.
Arguments slot_of c {_} _.
Arguments keep_all_on_compaction c {_}.

Inductive IndexError : Type := UnpackError.

(** What iterators over a column with a former key format use of it. *)
Class CurrentIndex (c : column) `{Column c} : Type := {
  try_current_index : bytes -> result IndexError (Index c);
}.
Arguments try_current_index c {_ _} _.

(** [ColumnIndexDeprecation::index]: the current format, else the deprecated one, else the index of
    slot 0. *)
Definition deprecation_index {I D} (try_current : bytes -> result IndexError I)
    (try_deprecated : bytes -> result IndexError D) (convert_index : D -> I) (fallback : I) (key : bytes)
    : may_panic I :=
  match try_current key with
  | Ok index => Ok index
  | Panic => Panic
  | Err _ =>
      match try_deprecated key with
      | Ok index => Ok (convert_index index)
      | Err _ => Ok fallback
      | Panic => Panic
      end
  end.

(** [BigEndian::read_u64] and [read_u32] of a range of a key. *)
Definition read_be {E} (key : bytes) (from upto : nat) : result E Z :=
  b ← index_range key from upto; Ok (be_val b).

(** [Pubkey::try_from(&key[from..upto]).unwrap()], and the same for a signature. *)
Definition read_array {E} (key : bytes) (from upto : nat) : result E bytes :=
  b ← index_range key from upto; expect (try_into_array (upto - from) b).

Definition check_len (n : nat) (key : bytes) : result IndexError unit :=
  ensure (bool_decide (length key = n)) UnpackError.

(** ** Columns keyed by slot: [SlotColumn] *)

Definition SlotColumn_key (slot : Z) : bytes := copy_range (zeros 8) 0 8 (be_bytes 8 slot).
Definition SlotColumn_index (key : bytes) : may_panic Z := read_be key 0 8.

#[global] Instance Blocktime_column : Column Blocktime :=
  {| Index := Z; column_key := SlotColumn_key; column_index := SlotColumn_index; as_index slot := slot;
     slot_of slot := slot; keep_all_on_compaction := false |}.
#[global] Instance Blockhash_column : Column Blockhash :=
  {| Index := Z; column_key := SlotColumn_key; column_index := SlotColumn_index; as_index slot := slot;
     slot_of slot := slot; keep_all_on_compaction := false |}.
#[global] Instance PerfSamples_column : Column PerfSamples :=
  {| Index := Z; column_key := SlotColumn_key; column_index := SlotColumn_index; as_index slot := slot;
     slot_of slot := slot; keep_all_on_compaction := false |}.

(** ** AddressSignatures *)

Definition SIGNATURE_DEFAULT : bytes := zeros 64.
Definition PUBKEY_DEFAULT : bytes := zeros 32.

Definition AddressSignatures_key (index : bytes * Z * Z * bytes) : bytes :=
  let '(pubkey, slot, transaction_index, signature) := index in
  let key := zeros 108 in
  let key := copy_range key 0 32 pubkey in
  let key := copy_range key 32 40 (be_bytes 8 slot) in
  let key := copy_range key 40 44 (be_bytes 4 transaction_index) in
  copy_range key 44 108 signature.

Definition AddressSignatures_try_current_index (key : bytes) : result IndexError (bytes * Z * Z * bytes) :=
  _ ← check_len 108 key;
  pubkey ← read_array key 0 32;
  slot ← read_be key 32 40;
  transaction_index ← read_be key 40 44;
  signature ← read_array key 44 108;
  Ok (pubkey, slot, transaction_index, signature).

Definition AddressSignatures_try_deprecated_index (key : bytes) : result IndexError (Z * bytes * Z * bytes) :=
  _ ← check_len 112 key;
  primary_index ← read_be key 0 8;
  pubkey ← read_array key 8 40;
  slot ← read_be key 40 48;
  signature ← read_array key 48 112;
  Ok (primary_index, pubkey, slot, signature).

Definition AddressSignatures_convert_index (deprecated_index : Z * bytes * Z * bytes) : bytes * Z * Z * bytes :=
  let '(_, pubkey, slot, signature) := deprecated_index in (pubkey, slot, 0, signature).

Definition AddressSignatures_as_index (_ : Z) : bytes * Z * Z * bytes := (PUBKEY_DEFAULT, 0, 0, SIGNATURE_DEFAULT).

Definition AddressSignatures_index : bytes -> may_panic (bytes * Z * Z * bytes) :=
  deprecation_index AddressSignatures_try_current_index AddressSignatures_try_deprecated_index
    AddressSignatures_convert_index (AddressSignatures_as_index 0).

#[global] Instance AddressSignatures_column : Column AddressSignatures :=
  {| Index := bytes * Z * Z * bytes; column_key := AddressSignatures_key; column_index := AddressSignatures_index;
     as_index := AddressSignatures_as_index; slot_of index := let '(_, slot, _, _) := index in slot;
     keep_all_on_compaction := false |}.
#[global] Instance AddressSignatures_current : CurrentIndex AddressSignatures :=
  {| try_current_index := AddressSignatures_try_current_index |}.

(** ** SlotSignatures *)

Definition SLOT_SIGNATURES_INDEX_LEN : nat := 12.

Definition SlotSignatures_key (index : Z * Z) : bytes :=
  let '(slot, tx_idx) := index in
  let key := zeros SLOT_SIGNATURES_INDEX_LEN in
  let key := copy_range key 0 8 (be_bytes 8 slot) in
  copy_range key 8 12 (be_bytes 4 tx_idx).

Definition SlotSignatures_try_current_index (key : bytes) : result IndexError (Z * Z) :=
  _ ← check_len SLOT_SIGNATURES_INDEX_LEN key;
  slot ← read_be key 0 8;
  tx_idx ← read_be key 8 12;
  Ok (slot, tx_idx).

Definition SlotSignatures_try_deprecated_index (key : bytes) : result IndexError (Z * Z * Z) :=
  _ ← check_len (SLOT_SIGNATURES_INDEX_LEN + 8) key;
  primary_index ← read_be key 0 8;
  slot ← read_be key 8 16;
  tx_idx ← read_be key 16 20;
  Ok (primary_index, slot, tx_idx).

Definition SlotSignatures_convert_index (deprecated_index : Z * Z * Z) : Z * Z :=
  let '(_, slot, tx_idx) := deprecated_index in (slot, tx_idx).

Definition SlotSignatures_as_index (slot : Z) : Z * Z := (slot, 0).

Definition SlotSignatures_index : bytes -> may_panic (Z * Z) :=
  deprecation_index SlotSignatures_try_current_index SlotSignatures_try_deprecated_index
    SlotSignatures_convert_index (SlotSignatures_as_index 0).

#[global] Instance SlotSignatures_column : Column SlotSignatures :=
  {| Index := Z * Z; column_key := SlotSignatures_key; column_index := SlotSignatures_index;
     as_index := SlotSignatures_as_index; slot_of index := index.1; keep_all_on_compaction := false |}.
#[global] Instance SlotSignatures_current : CurrentIndex SlotSignatures :=
  {| try_current_index := SlotSignatures_try_current_index |}.

(** ** TransactionStatus, and Transaction with the same key *)

Definition TransactionStatus_key (index : bytes * Z) : bytes :=
  let '(signature, slot) := index in
  let key := zeros 72 in
  let key := copy_range key 0 64 signature in
  copy_range key 64 72 (be_bytes 8 slot).

Definition TransactionStatus_try_current_index (key : bytes) : result IndexError (bytes * Z) :=
  _ ← check_len 72 key;
  signature ← read_array key 0 64;
  slot ← read_be key 64 72;
  Ok (signature, slot).

Definition TransactionStatus_try_deprecated_index (key : bytes) : result IndexError (Z * bytes * Z) :=
  _ ← check_len 80 key;
  primary_index ← read_be key 0 8;
  signature ← read_array key 8 72;
  slot ← read_be key 72 80;
  Ok (primary_index, signature, slot).

Definition TransactionStatus_convert_index (deprecated_index : Z * bytes * Z) : bytes * Z :=
  let '(_, signature, slot) := deprecated_index in (signature, slot).

Definition TransactionStatus_as_index (_ : Z) : bytes * Z := (SIGNATURE_DEFAULT, 0).

Definition TransactionStatus_index : bytes -> may_panic (bytes * Z) :=
  deprecation_index TransactionStatus_try_current_index TransactionStatus_try_deprecated_index
    TransactionStatus_convert_index (TransactionStatus_as_index 0).

#[global] Instance TransactionStatus_column : Column TransactionStatus :=
  {| Index := bytes * Z; column_key := TransactionStatus_key; column_index := TransactionStatus_index;
     as_index := TransactionStatus_as_index; slot_of index := index.2; keep_all_on_compaction := false |}.
#[global] Instance TransactionStatus_current : CurrentIndex TransactionStatus :=
  {| try_current_index := TransactionStatus_try_current_index |}.

#[global] Instance Transaction_column : Column Transaction :=
  {| Index := bytes * Z; column_key := TransactionStatus_key; column_index := TransactionStatus_index;
     as_index := TransactionStatus_as_index; slot_of index := index.2; keep_all_on_compaction := false |}.
#[global] Instance Transaction_current : CurrentIndex Transaction :=
  {| try_current_index := TransactionStatus_try_current_index |}.

(** ** TransactionMemos *)

Definition TransactionMemos_key (index : bytes * Z) : bytes :=
  let '(signature, slot) := index in
  let key := zeros 72 in
  let key := copy_range key 0 64 signature in
  copy_range key 64 72 (be_bytes 8 slot).

Definition TransactionMemos_try_current_index (key : bytes) : result IndexError (bytes * Z) :=
  _ ← check_len 72 key;
  signature ← read_array key 0 64;
  slot ← read_be key 64 72;
  Ok (signature, slot).

(** The former keys of this column are the first 64 bytes of any longer one. *)
Definition TransactionMemos_try_deprecated_index (key : bytes) : result IndexError bytes :=
  b ← index_range key 0 64;
  ok_or (try_into_array 64 b) UnpackError.

Definition TransactionMemos_convert_index (deprecated_index : bytes) : bytes * Z := (deprecated_index, 0).

Definition TransactionMemos_as_index (index : Z) : bytes * Z := (SIGNATURE_DEFAULT, index).

Definition TransactionMemos_index : bytes -> may_panic (bytes * Z) :=
  deprecation_index TransactionMemos_try_current_index TransactionMemos_try_deprecated_index
    TransactionMemos_convert_index (TransactionMemos_as_index 0).

#[global] Instance TransactionMemos_column : Column TransactionMemos :=
  {| Index := bytes * Z; column_key := TransactionMemos_key; column_index := TransactionMemos_index;
     as_index := TransactionMemos_as_index; slot_of index := index.2; keep_all_on_compaction := false |}.

(** ** The receipt columns *)

Definition ReceiptBySeq_key (seq : Z) : bytes := copy_range (zeros 8) 0 8 (be_bytes 8 seq).
Definition ReceiptBySeq_index (key : bytes) : may_panic Z := read_be key 0 8.

Definition ReceiptBySig_key (signature : bytes) : bytes := signature.
Definition ReceiptBySig_index (key : bytes) : may_panic bytes :=
  b ← index_range key 0 64;
  Ok (default SIGNATURE_DEFAULT (try_into_array 64 b)).

#[global] Instance ReceiptBySeq_column : Column ReceiptBySeq :=
  {| Index := Z; column_key := ReceiptBySeq_key; column_index := ReceiptBySeq_index; as_index _ := 0;
     slot_of _ := 0; keep_all_on_compaction := true |}.
#[global] Instance ReceiptBySig_column : Column ReceiptBySig :=
  {| Index := bytes; column_key := ReceiptBySig_key; column_index := ReceiptBySig_index;
     as_index _ := SIGNATURE_DEFAULT; slot_of _ := 0; keep_all_on_compaction := true |}.

(** Every column has an implementation. *)
Definition any_column (c : column) : Column c :=
  match c with
  | TransactionStatus => TransactionStatus_column
  | AddressSignatures => AddressSignatures_column
  | SlotSignatures => SlotSignatures_column
  | Blocktime => Blocktime_column
  | Blockhash => Blockhash_column
  | Transaction => Transaction_column
  | TransactionMemos => TransactionMemos_column
  | PerfSamples => PerfSamples_column
  | ReceiptBySeq => ReceiptBySeq_column
  | ReceiptBySig => ReceiptBySig_column
  end.

#[global] Arguments SlotColumn_key : simpl never.
#[global] Arguments AddressSignatures_key : simpl never.
#[global] Arguments SlotSignatures_key : simpl never.
#[global] Arguments TransactionStatus_key : simpl never.
#[global] Arguments TransactionMemos_key : simpl never.
#[global] Arguments ReceiptBySeq_key : simpl never.

(** ** The fields of a key *)

Lemma copy_range_first l b src : copy_range l 0 b src = src ++ drop b l.
Proof. done. Qed.

Lemma SlotColumn_keyE slot : SlotColumn_key slot = be_bytes 8 slot.
Proof. unfold SlotColumn_key, copy_range. by rewrite app_nil_r. Qed.

Lemma ReceiptBySeq_keyE seq : ReceiptBySeq_key seq = be_bytes 8 seq.
Proof. unfold ReceiptBySeq_key, copy_range. by rewrite app_nil_r. Qed.

Lemma length_ReceiptBySeq_key seq : length (ReceiptBySeq_key seq) = 8%nat.
Proof. by rewrite ReceiptBySeq_keyE, length_be_bytes. Qed.

Lemma SlotSignatures_keyE slot i : SlotSignatures_key (slot, i) = be_bytes 8 slot ++ be_bytes 4 i.
Proof.
  unfold SlotSignatures_key. rewrite copy_range_first.
  rewrite copy_range_next by (cbn [app]; rewrite ?length_be_bytes; done). by rewrite app_nil_r.
Qed.

Lemma TransactionStatus_keyE signature slot : length signature = 64%nat ->
  TransactionStatus_key (signature, slot) = signature ++ be_bytes 8 slot.
Proof.
  intros Hs. unfold TransactionStatus_key. rewrite copy_range_first.
  rewrite copy_range_next by (cbn [app]; rewrite ?Hs, ?length_be_bytes; done). by rewrite app_nil_r.
Qed.

Lemma TransactionMemos_keyE index : TransactionMemos_key index = TransactionStatus_key index.
Proof. done. Qed.

Lemma AddressSignatures_keyE pubkey slot i signature :
  length pubkey = 32%nat -> length signature = 64%nat ->
  AddressSignatures_key (pubkey, slot, i, signature) = pubkey ++ be_bytes 8 slot ++ be_bytes 4 i ++ signature.
Proof.
  intros Hp Hs. unfold AddressSignatures_key. rewrite copy_range_first.
  do 3 (rewrite copy_range_next by
    (cbn [app]; rewrite ?length_app, ?length_be_bytes, ?Hp, ?Hs; done)).
  cbn [app]. by rewrite app_nil_r, <-!app_assoc.
Qed.

(** Reading a field that is at its place. *)
Lemma read_be_at {E} pre post a b n z :
  a = length pre -> b = (a + n)%nat -> be_val (be_bytes n z) = z ->
  read_be (E := E) (pre ++ be_bytes n z ++ post) a b = Ok z.
Proof.
  intros Ha Hb Hz. unfold read_be. rewrite index_range_in by (rewrite !length_app, length_be_bytes; lia).
  rewrite bind_of_ok, slice_app by (rewrite ?length_be_bytes; lia). by rewrite Hz.
Qed.

Lemma read_array_at {E} pre post a b x :
  a = length pre -> b = (a + length x)%nat -> read_array (E := E) (pre ++ x ++ post) a b = Ok x.
Proof.
  intros Ha Hb. unfold read_array. rewrite index_range_in by (rewrite !length_app; lia).
  rewrite bind_of_ok, slice_app by lia. by rewrite try_into_array_in by lia.
Qed.

Lemma read_be_first {E} post n z :
  be_val (be_bytes n z) = z -> read_be (E := E) (be_bytes n z ++ post) 0 n = Ok z.
Proof. by apply (read_be_at []). Qed.

Lemma read_be_last {E} pre a b n z :
  a = length pre -> b = (a + n)%nat -> be_val (be_bytes n z) = z ->
  read_be (E := E) (pre ++ be_bytes n z) a b = Ok z.
Proof. intros. rewrite <-(app_nil_r (be_bytes n z)). by apply read_be_at. Qed.

Lemma read_array_first {E} post b x : b = length x -> read_array (E := E) (x ++ post) 0 b = Ok x.
Proof. intros ->. by apply (read_array_at []). Qed.

Lemma read_array_last {E} pre a b x :
  a = length pre -> b = (a + length x)%nat -> read_array (E := E) (pre ++ x) a b = Ok x.
Proof. intros. rewrite <-(app_nil_r x) at 1. by apply read_array_at. Qed.

Lemma check_len_in n key : length key = n -> check_len n key = Ok tt.
Proof. intros H. unfold check_len. by rewrite bool_decide_eq_true_2. Qed.

Lemma length_SlotSignatures_key i : length (SlotSignatures_key i) = 12%nat.
Proof. destruct i. rewrite SlotSignatures_keyE, length_app, !length_be_bytes. done. Qed.

(** ** A key gives back its index *)

Class LawfulColumn (c : column) (C : Column c) : Type := {
  index_wf : Index c -> Prop;
  column_index_key i : index_wf i -> column_index c (column_key c i) = Ok i;
  slot_of_as_index slot : is_u64 slot -> slot_of c (as_index c slot) = slot \/ slot_of c (as_index c slot) = 0;
}.
Arguments index_wf c {_ _} _.

Lemma SlotColumn_index_key slot : is_u64 slot -> SlotColumn_index (SlotColumn_key slot) = Ok slot.
Proof.
  intros Hs. unfold SlotColumn_index. rewrite SlotColumn_keyE, <-(app_nil_r (be_bytes 8 slot)).
  apply (read_be_at []); [done..|by apply be_val_bytes_u64].
Qed.

#[global] Program Instance Blocktime_lawful : LawfulColumn Blocktime _ := {| index_wf := is_u64 |}.
Next Obligation. exact SlotColumn_index_key. Qed.
Next Obligation. by left. Qed.
#[global] Program Instance Blockhash_lawful : LawfulColumn Blockhash _ := {| index_wf := is_u64 |}.
Next Obligation. exact SlotColumn_index_key. Qed.
Next Obligation. by left. Qed.
#[global] Program Instance PerfSamples_lawful : LawfulColumn PerfSamples _ := {| index_wf := is_u64 |}.
Next Obligation. exact SlotColumn_index_key. Qed.
Next Obligation. by left. Qed.

Lemma SlotSignatures_try_current_key slot i : is_u64 slot -> is_u32 i ->
  SlotSignatures_try_current_index (SlotSignatures_key (slot, i)) = Ok (slot, i).
Proof.
  intros Hs Hi. unfold SlotSignatures_try_current_index. rewrite check_len_in by apply length_SlotSignatures_key.
  rewrite bind_of_ok, SlotSignatures_keyE, read_be_first by (by apply be_val_bytes_u64).
  rewrite bind_of_ok.
  by rewrite read_be_last by (rewrite ?length_be_bytes; done || by apply be_val_bytes_u32).
Qed.

#[global] Program Instance SlotSignatures_lawful : LawfulColumn SlotSignatures _ :=
  {| index_wf i := is_u64 i.1 /\ is_u32 i.2 |}.
Next Obligation.
  intros [slot i] [Hs Hi]. cbn in *. unfold SlotSignatures_index, deprecation_index.
  by rewrite SlotSignatures_try_current_key.
Qed.
Next Obligation. by left. Qed.

Lemma TransactionStatus_try_current_key signature slot : length signature = 64%nat -> is_u64 slot ->
  TransactionStatus_try_current_index (TransactionStatus_key (signature, slot)) = Ok (signature, slot).
Proof.
  intros Hg Hs. rewrite TransactionStatus_keyE by done. unfold TransactionStatus_try_current_index.
  rewrite check_len_in by (rewrite length_app, length_be_bytes, Hg; done). rewrite bind_of_ok.
  rewrite read_array_first by done. rewrite bind_of_ok.
  by rewrite read_be_last by (rewrite ?Hg; done || by apply be_val_bytes_u64).
Qed.

#[global] Program Instance TransactionStatus_lawful : LawfulColumn TransactionStatus _ :=
  {| index_wf i := length i.1 = 64%nat /\ is_u64 i.2 |}.
Next Obligation.
  intros [signature slot] [Hg Hs]. cbn in *. unfold TransactionStatus_index, deprecation_index.
  by rewrite TransactionStatus_try_current_key.
Qed.
Next Obligation. by right. Qed.
#[global] Program Instance Transaction_lawful : LawfulColumn Transaction _ :=
  {| index_wf i := length i.1 = 64%nat /\ is_u64 i.2 |}.
Next Obligation.
  intros [signature slot] [Hg Hs]. cbn in *. unfold TransactionStatus_index, deprecation_index.
  by rewrite TransactionStatus_try_current_key.
Qed.
Next Obligation. by right. Qed.
#[global] Program Instance TransactionMemos_lawful : LawfulColumn TransactionMemos _ :=
  {| index_wf i := length i.1 = 64%nat /\ is_u64 i.2 |}.
Next Obligation.
  intros [signature slot] [Hg Hs]. cbn in *. unfold TransactionMemos_index, deprecation_index.
  change TransactionMemos_try_current_index with TransactionStatus_try_current_index.
  by rewrite TransactionMemos_keyE, TransactionStatus_try_current_key.
Qed.
Next Obligation. by left. Qed.

Lemma AddressSignatures_try_current_key pubkey slot i signature :
  length pubkey = 32%nat -> is_u64 slot -> is_u32 i -> length signature = 64%nat ->
  AddressSignatures_try_current_index (AddressSignatures_key (pubkey, slot, i, signature))
    = Ok (pubkey, slot, i, signature).
Proof.
  intros Hp Hs Hi Hg. rewrite AddressSignatures_keyE by done. unfold AddressSignatures_try_current_index.
  rewrite check_len_in by (rewrite !length_app, !length_be_bytes, Hp, Hg; done). rewrite bind_of_ok.
  rewrite read_array_first by done. rewrite bind_of_ok.
  rewrite (read_be_at pubkey _ 32 40 8 slot) by (rewrite ?Hp; done || by apply be_val_bytes_u64). rewrite bind_of_ok.
  rewrite app_assoc, (read_be_at _ _ 40 44 4 i) by (rewrite ?length_app, ?length_be_bytes, ?Hp; done || by apply be_val_bytes_u32).
  rewrite bind_of_ok, app_assoc.
  by rewrite read_array_last by (rewrite ?length_app, ?length_be_bytes, ?Hp, ?Hg; done).
Qed.

#[global] Program Instance AddressSignatures_lawful : LawfulColumn AddressSignatures _ :=
  {| index_wf i := length i.1.1.1 = 32%nat /\ is_u64 i.1.1.2 /\ is_u32 i.1.2 /\ length i.2 = 64%nat |}.
Next Obligation.
  intros [[[pubkey slot] i] signature] (Hp & Hs & Hi & Hg). cbn in *.
  unfold AddressSignatures_index, deprecation_index. by rewrite AddressSignatures_try_current_key.
Qed.
Next Obligation. by right. Qed.

#[global] Program Instance ReceiptBySeq_lawful : LawfulColumn ReceiptBySeq _ := {| index_wf := is_u64 |}.
Next Obligation.
  intros seq Hs. cbn. rewrite ReceiptBySeq_keyE, <-SlotColumn_keyE. by apply SlotColumn_index_key.
Qed.
Next Obligation. by right. Qed.
#[global] Program Instance ReceiptBySig_lawful : LawfulColumn ReceiptBySig _ :=
  {| index_wf i := length i = 64%nat |}.
Next Obligation.
  intros signature Hg. cbn. unfold ReceiptBySig_index, ReceiptBySig_key.
  rewrite index_range_in by (rewrite Hg; lia). rewrite bind_of_ok, slice_all by done.
  by rewrite try_into_array_in.
Qed.
Next Obligation. by right. Qed.

Definition any_lawful (c : column) : LawfulColumn c (any_column c) :=
  match c with
  | TransactionStatus => TransactionStatus_lawful
  | AddressSignatures => AddressSignatures_lawful
  | SlotSignatures => SlotSignatures_lawful
  | Blocktime => Blocktime_lawful
  | Blockhash => Blockhash_lawful
  | Transaction => Transaction_lawful
  | TransactionMemos => TransactionMemos_lawful
  | PerfSamples => PerfSamples_lawful
  | ReceiptBySeq => ReceiptBySeq_lawful
  | ReceiptBySig => ReceiptBySig_lawful
  end.

(** Different indexes have different keys. *)
Lemma column_key_inj c (C : Column c) (L : LawfulColumn c C) i j :
  index_wf c i -> index_wf c j -> column_key c i = column_key c j -> i = j.
Proof.
  intros Hi Hj E. apply column_index_key in Hi, Hj. rewrite E, Hj in Hi. by injection Hi as ->.
Qed.

(** Keys of a slot are together, in the order of the transactions. *)
Lemma SlotSignatures_key_le slot i slot' i' : is_u64 slot -> is_u64 slot' -> is_u32 i -> is_u32 i' ->
  bytes_le (SlotSignatures_key (slot, i)) (SlotSignatures_key (slot', i')) = true <->
  slot < slot' \/ slot = slot' /\ i <= i'.
Proof.
  intros Hs Hs' Hi Hi'. rewrite !SlotSignatures_keyE, bytes_le_app by (by rewrite !length_be_bytes).
  case_decide as E.
  - apply be_bytes_inj in E; [|done..]. rewrite be_bytes_le_u32 by done. lia.
  - rewrite be_bytes_le by done. assert (slot <> slot') by (intros ->; done). lia.
Qed.

(** A key in the current format is that of its index. *)
Lemma read_be_Ok {E} key a b z : read_be (E := E) key a b = Ok z -> (a <= b <= length key)%nat /\ z = be_val (slice key a b).
Proof. unfold read_be. intros (s & Hs & [= <-])%bind_Ok. by apply index_range_Ok in Hs as [? ->]. Qed.

Lemma SlotSignatures_try_current_Ok k slot i : SlotSignatures_try_current_index k = Ok (slot, i) ->
  is_u64 slot /\ is_u32 i /\ k = SlotSignatures_key (slot, i).
Proof.
  unfold SlotSignatures_try_current_index, check_len, SLOT_SIGNATURES_INDEX_LEN.
  destruct (bool_decide (length k = 12%nat)) eqn:Hl; [|done]. apply bool_decide_eq_true in Hl. cbn [ensure].
  rewrite bind_of_ok. intros (s & [_ ->]%read_be_Ok & H)%bind_Ok. apply bind_Ok in H as (j & [_ ->]%read_be_Ok & [= <- <-]).
  split_conj.
  - apply be_val_u64. rewrite length_slice; lia.
  - apply be_val_u32. rewrite length_slice; lia.
  - rewrite SlotSignatures_keyE, !be_bytes_val_len by (rewrite length_slice; lia).
    rewrite slice_slice by lia. by rewrite slice_all.
Qed.

Lemma SlotSignatures_key_inj s i s' i' : is_u64 s -> is_u32 i -> is_u64 s' -> is_u32 i' ->
  SlotSignatures_key (s, i) = SlotSignatures_key (s', i') -> s = s' /\ i = i'.
Proof.
  intros Hs Hi Hs' Hi' E.
  by apply (column_key_inj SlotSignatures SlotSignatures_column SlotSignatures_lawful (s, i) (s', i') (conj Hs Hi) (conj Hs' Hi')) in E as [= -> ->].
Qed.

Lemma TransactionStatus_key_inj g s g' s' : length g = 64%nat -> is_u64 s -> length g' = 64%nat -> is_u64 s' ->
  TransactionStatus_key (g, s) = TransactionStatus_key (g', s') -> g = g' /\ s = s'.
Proof.
  intros Hg Hs Hg' Hs' E.
  by apply (column_key_inj TransactionStatus TransactionStatus_column TransactionStatus_lawful (g, s) (g', s') (conj Hg Hs) (conj Hg' Hs')) in E
    as [= -> ->].
Qed.

Lemma SlotColumn_key_inj s s' : is_u64 s -> is_u64 s' -> SlotColumn_key s = SlotColumn_key s' -> s = s'.
Proof. intros Hs Hs'. exact (column_key_inj Blockhash Blockhash_column Blockhash_lawful s s' Hs Hs'). Qed.
