(* ===== verification/Rocks.v ===== *)
(** * The database under the ledger: magicblock-ledger/src/database

    RocksDB is a third-party crate: its calls are the fields of the class [Rocks], which may fail,
    and [RocksLaws] states what a column family promises.  A call returns its answer with the
    database it leaves behind, also when it fails: an error in the middle of a ledger call does not
    undo the writes before it.  [toy_rocks] is an executable instance that may refuse writes. *)
From S2P Require Import Prelude Columns.

(** ** errors.rs *)

Inductive LedgerError : Type :=
| RocksDb
| Io
| FsExtraError
| Serialize
| ProtobufEncodeError
| ProtobufDecodeError
| UnableToSetOpenFileDescriptorLimit
| TransactionNotFound
| TransactionStatusMetaNotFound
| TransactionStatusSlotMismatch
| TransactionIndexOverflow
| TransactionConversionError
| SlotCleanedUp
| TryFromSliceError
| ReceiptCorrupted (seq : Z)
| BlockStoreProcessor.

#[global] Instance LedgerError_eq_dec : EqDecision LedgerError.
Proof. solve_decision. Defined.

(** ** iterator.rs *)

Inductive IteratorDirection : Type := Forward | Reverse.

Inductive IteratorMode (I : Type) : Type :=
| IterStart
| IterEnd
| IterFrom (index : I) (direction : IteratorDirection).
Arguments IterStart {I}.
Arguments IterEnd {I}.
Arguments IterFrom {I} index direction.

(** [Rocks::iterator_cf] turns the index of a mode into a key. *)
Definition raw_mode {c} `{Column c} (mode : IteratorMode (Index c)) : IteratorMode bytes :=
  match mode with
  | IterFrom start_from direction => IterFrom (column_key c start_from) direction
  | IterStart => IterStart
  | IterEnd => IterEnd
  end.

(** What a mode visits, and in which direction. *)
Definition in_mode (mode : IteratorMode bytes) (key : bytes) : bool :=
  match mode with
  | IterFrom from Forward => bytes_le from key
  | IterFrom from Reverse => bytes_le key from
  | IterStart | IterEnd => true
  end.

Definition visits_before (mode : IteratorMode bytes) (a b : bytes * bytes) : Prop :=
  match mode with
  | IterEnd | IterFrom _ Reverse => bytes_le b.1 a.1 = true
  | IterStart | IterFrom _ Forward => bytes_le a.1 b.1 = true
  end /\ a.1 <> b.1.

(** ** rocksdb *)

Inductive CompactionDecision : Type := Keep | Remove.

Class Rocks : Type := {
  (** The state of an open database. *)
  rocks : Type;
  get_cf : rocks -> column -> bytes -> result LedgerError (option bytes);
  put_cf : rocks -> column -> bytes -> bytes -> result LedgerError unit * rocks;
  (** A write batch of puts. *)
  write_cf : rocks -> list (column * bytes * bytes) -> result LedgerError unit * rocks;
  (** Deletion of the keys from the first key on, up to but not including the second. *)
  delete_range_cf : rocks -> column -> bytes -> bytes -> result LedgerError unit * rocks;
  (** The items of an iterator. *)
  iterator_cf : rocks -> column -> IteratorMode bytes -> list (result LedgerError (bytes * bytes));
  (** A compaction of a range of keys of a column, with its filter. *)
  compact_range_cf : rocks -> (bytes -> may_panic CompactionDecision) -> column -> option bytes -> option bytes ->
    may_panic rocks;
  flush_cfs : rocks -> list column -> result LedgerError unit * rocks;
  (** The property rocksdb.estimate-num-keys. *)
  estimate_num_keys : rocks -> column -> result LedgerError Z;
  (** The size of the directory of the database. *)
  dir_size : rocks -> result LedgerError Z;
  (** What a column holds. *)
  holds : rocks -> column -> bytes -> option bytes;
}.

Class RocksLaws (R : Rocks) : Prop := {
  get_cf_holds d c k o : get_cf d c k = Ok o -> o = holds d c k;
  get_cf_total d c k : get_cf d c k <> Panic;
  put_cf_holds d c k v d' c' k' : put_cf d c k v = (Ok tt, d') ->
    holds d' c' k' = if decide ((c', k') = (c, k)) then Some v else holds d c' k';
  put_cf_failed d c k v d' e : put_cf d c k v = (Err e, d') -> holds d' = holds d;
  put_cf_total d c k v d' : put_cf d c k v <> (Panic, d');
  (** A batch is written whole or not at all. *)
  write_cf_holds d batch d' c k : write_cf d batch = (Ok tt, d') ->
    holds d' c k = foldl (fun found '(c', k', v) => if decide ((c, k) = (c', k')) then Some v else found)
                     (holds d c k) batch;
  write_cf_failed d batch d' e : write_cf d batch = (Err e, d') -> holds d' = holds d;
  write_cf_total d batch d' : write_cf d batch <> (Panic, d');
  delete_range_cf_holds d c from upto d' c' k : delete_range_cf d c from upto = (Ok tt, d') ->
    holds d' c' k = if decide (c' = c /\ bytes_le from k = true /\ bytes_le upto k = false) then None
                    else holds d c' k;
  delete_range_cf_failed d c from upto d' e : delete_range_cf d c from upto = (Err e, d') -> holds d' = holds d;
  delete_range_cf_total d c from upto d' : delete_range_cf d c from upto <> (Panic, d');
  iterator_cf_holds d c mode items k v : iterator_cf d c mode = map Ok items ->
    (k, v) ∈ items <-> holds d c k = Some v /\ in_mode mode k = true;
  iterator_cf_ordered d c mode items : iterator_cf d c mode = map Ok items ->
    StronglySorted (visits_before mode) items;
  (** A compaction removes nothing its filter does not want removed, and need not meet every key. *)
  compact_range_cf_holds d filter c from upto d' c' k : compact_range_cf d filter c from upto = Ok d' ->
    holds d' c' k = holds d c' k \/ c' = c /\ filter k = Ok Remove /\ holds d' c' k = None;
  compact_range_cf_total d filter c from upto :
    (forall k v, holds d c k = Some v -> filter k <> Panic) -> compact_range_cf d filter c from upto <> Panic;
  flush_cfs_holds d cs r d' : flush_cfs d cs = (r, d') -> holds d' = holds d;
  flush_cfs_total d cs d' : flush_cfs d cs <> (Panic, d');
  estimate_num_keys_range d c n : estimate_num_keys d c = Ok n -> 0 <= n < 2 ^ 63;
  dir_size_range d n : dir_size d = Ok n -> is_u64 n;
}.

(** ** ledger_column.rs *)

(** A call on the database: the answer and the database after it. *)
Definition io `{Rocks} (A : Type) : Type := rocks -> result LedgerError A * rocks.

#[global] Instance io_ret `{Rocks} : MRet io := fun A a d => (Ok a, d).
#[global] Instance io_bind `{Rocks} : MBind io := fun A B f m d =>
  match m d with
  | (Ok a, d') => f a d'
  | (Err e, d') => (Err e, d')
  | (Panic, d') => (Panic, d')
  end.

Section ledger_column.
Context `{R : Rocks}.

Definition io_of {A} (r : result LedgerError A) : io A := fun d => (r, d).

Definition read_bytes c `{Column c} (d : rocks) (key : Index c) : result LedgerError (option bytes) :=
  get_cf d c (column_key c key).
Definition get_bytes c `{Column c} (key : Index c) : io (option bytes) := fun d => (read_bytes c d key, d).
Definition put_bytes c `{Column c} (key : Index c) (value : bytes) : io unit := fun d => put_cf d c (column_key c key) value.

(** [pair.unwrap()] panics on an item the iterator could not read. *)
Definition column_iter c `{Column c} (d : rocks) (mode : IteratorMode (Index c))
    : list (result LedgerError (Index c * bytes)) :=
  map (fun item => match item with
                   | Ok (key, value) => index ← rethrow (column_index c key); Ok (index, value)
                   | _ => Panic
                   end) (iterator_cf d c (raw_mode mode)).

(** Items with a key of another format are passed over. *)
Definition iter_current_index_filtered c `{CurrentIndex c} (d : rocks) (mode : IteratorMode (Index c))
    : list (result LedgerError (Index c * bytes)) :=
  omap (fun item => match item with
                    | Ok (key, value) =>
                        match try_current_index c key with
                        | Ok index => Some (Ok (index, value))
                        | Err _ => None
                        | Panic => Some Panic
                        end
                    | _ => Some Panic
                    end) (iterator_cf d c (raw_mode mode)).

(** [get] and [get_protobuf], with the decoder of the type of the column and its error. *)
Definition read_typed c `{Column c} {A} (decode : bytes -> option A) (error : LedgerError) (d : rocks) (key : Index c)
    : result LedgerError (option A) :=
  stored ← read_bytes c d key;
  match stored with
  | Some bytes => value ← ok_or (decode bytes) error; Ok (Some value)
  | None => Ok None
  end.

(** [iter_protobuf]: an unreadable or undecodable item is an error of its own. *)
Definition iter_decoded c `{Column c} {A} (decode : bytes -> option A) (error : LedgerError) (d : rocks)
    (mode : IteratorMode (Index c)) : list (result LedgerError (Index c * A)) :=
  map (fun item => '(key, value) ← item; decoded ← ok_or (decode value) error;
                   index ← rethrow (column_index c key); Ok (index, decoded)) (iterator_cf d c (raw_mode mode)).

(** [Iterator::next] of an iterator that panics on an item it cannot read. *)
Definition next_item {A} (items : list (result LedgerError A)) : result LedgerError (option A) :=
  match items with
  | [] => Ok None
  | item :: _ => a ← item; Ok (Some a)
  end.

Definition delete_range c `{Column c} (from upto : Index c) : io unit := fun d =>
  delete_range_cf d c (column_key c from) (column_key c upto).

Definition compact_range (filter : bytes -> may_panic CompactionDecision) c `{Column c} (from upto : option (Index c))
    (d : rocks) : may_panic rocks :=
  compact_range_cf d filter c (column_key c <$> from) (column_key c <$> upto).
End ledger_column.

(** ** What the calls do *)

(** The contents of a database with one entry replaced. *)
Definition overlay (f : column -> bytes -> option bytes) (c0 : column) (k0 v : bytes)
    : column -> bytes -> option bytes :=
  fun c k => if decide ((c, k) = (c0, k0)) then Some v else f c k.

Lemma overlay_hit f c k v : overlay f c k v c k = Some v.
Proof. unfold overlay. by rewrite decide_True. Qed.

Lemma overlay_miss f c k v c' k' : (c', k') <> (c, k) -> overlay f c k v c' k' = f c' k'.
Proof. unfold overlay. intros. by rewrite decide_False. Qed.

Lemma overlay_column f c k v c' k' : c' <> c -> overlay f c k v c' k' = f c' k'.
Proof. intros. apply overlay_miss. congruence. Qed.

Section laws.
Context `{R : Rocks} `{!RocksLaws R}.
Implicit Types (d : rocks).

(** No read of this database fails. *)
Definition readable d : Prop := forall c k, is_ok (get_cf d c k) = true.

(** No iterator over it meets an error. *)
Definition iterable d : Prop := forall c mode, exists items, iterator_cf d c mode = map Ok items.

Lemma readable_get d c k : readable d -> get_cf d c k = Ok (holds d c k).
Proof.
  intros Hr. specialize (Hr c k). destruct (get_cf d c k) as [o|e|] eqn:E; [|done..].
  by apply get_cf_holds in E as ->.
Qed.

Lemma get_bytes_run c `{Column c} (i : Index c) d :
  readable d -> get_bytes c i d = (Ok (holds d c (column_key c i)), d).
Proof. intros Hr. unfold get_bytes, read_bytes. by rewrite readable_get. Qed.

Lemma read_typed_run c `{Column c} {A} (decode : bytes -> option A) error (i : Index c) d :
  readable d -> read_typed c decode error d i =
    match holds d c (column_key c i) with
    | Some bytes => value ← ok_or (decode bytes) error; Ok (Some value)
    | None => Ok None
    end.
Proof. intros Hr. unfold read_typed, read_bytes. by rewrite readable_get. Qed.

Lemma io_bind_Ok {A B} (m : io A) (f : A -> io B) d b d' :
  (m ≫= f) d = (Ok b, d') <-> exists a d1, m d = (Ok a, d1) /\ f a d1 = (Ok b, d').
Proof. unfold mbind, io_bind. destruct (m d) as [[a|e|] d1]; naive_solver. Qed.

Lemma put_cf_overlay d c k v u d' :
  put_cf d c k v = (Ok u, d') -> forall c' k', holds d' c' k' = overlay (holds d) c k v c' k'.
Proof. destruct u. intros H c' k'. exact (put_cf_holds _ _ _ _ _ _ _ H). Qed.

Lemma put_bytes_Ok c `{Column c} (k : Index c) v d u d' :
  put_bytes c k v d = (Ok u, d') -> forall c' k', holds d' c' k' = overlay (holds d) c (column_key c k) v c' k'.
Proof. apply put_cf_overlay. Qed.

Lemma visits_before_key mode x y : visits_before mode x y -> x.1 <> y.1.
Proof. by intros [_ H]. Qed.

(** The items of an iterator are what the column holds, each once. *)
Lemma iterator_NoDup d c mode items : iterator_cf d c mode = map Ok items -> NoDup items.*1.
Proof.
  intros Hi%iterator_cf_ordered. induction Hi as [|x l Hs IH Hx]; cbn; constructor; [|done].
  intros (y & E & Hy)%list_elem_of_fmap. rewrite Forall_forall in Hx.
  by destruct (visits_before_key _ _ _ (Hx _ Hy)).
Qed.

Lemma visits_before_asym mode x y : visits_before mode x y -> ~ visits_before mode y x.
Proof.
  intros [Hxy Hne] [Hyx _]. apply Hne. destruct mode as [| |from []]; by apply bytes_le_antisym.
Qed.

(** Columns with the same contents are listed alike. *)
Lemma iterator_same d d' c mode : iterable d -> iterable d' -> (forall k, holds d' c k = holds d c k) ->
  iterator_cf d' c mode = iterator_cf d c mode.
Proof.
  intros Hd Hd' Hsame. destruct (Hd c mode) as [items Hi], (Hd' c mode) as [items' Hi']. rewrite Hi, Hi'. f_equal.
  apply (StronglySorted_same (visits_before mode)).
  - apply visits_before_asym.
  - by eapply iterator_cf_ordered.
  - by eapply iterator_cf_ordered.
  - intros [k v]. rewrite (iterator_cf_holds _ _ _ _ _ _ Hi), (iterator_cf_holds _ _ _ _ _ _ Hi'). by rewrite Hsame.
Qed.
End laws.

(** ** An executable database *)

(** The columns, whether each of the coming writes fails, and the size of the directory. *)
Record toy_db : Type := MkToyDb { t_columns : column -> gmap bytes bytes; t_failing : list bool; t_size : Z }.

Definition toy_empty : column -> gmap bytes bytes := fun _ => ∅.

Definition toy_update (f : column -> gmap bytes bytes) (c : column) (m : gmap bytes bytes)
    : column -> gmap bytes bytes := fun c' => if decide (c' = c) then m else f c'.

Definition toy_try (d : toy_db) (change : (column -> gmap bytes bytes) -> column -> gmap bytes bytes)
    : result LedgerError unit * toy_db :=
  match t_failing d with
  | true :: rest => (Err RocksDb, MkToyDb (t_columns d) rest (t_size d))
  | _ => (Ok tt, MkToyDb (change (t_columns d)) (tail (t_failing d)) (t_size d))
  end.

Definition toy_put (f : column -> gmap bytes bytes) (c : column) (k v : bytes) : column -> gmap bytes bytes :=
  toy_update f c (<[k := v]> (f c)).

Definition toy_deleted (from upto k : bytes) : bool := bytes_le from k && negb (bytes_le upto k).

Definition toy_rows (m : gmap bytes bytes) (mode : IteratorMode bytes) : list (bytes * bytes) :=
  let ascending := sort_by (fun a b => bytes_le a.1 b.1)
    (filter (fun kv => in_mode mode kv.1 = true) (map_to_list m)) in
  match mode with
  | IterEnd | IterFrom _ Reverse => reverse ascending
  | IterStart | IterFrom _ Forward => ascending
  end.

(** Compacts the whole column. *)
Definition toy_compact (d : toy_db) (filter : bytes -> may_panic CompactionDecision) (c : column) : may_panic toy_db :=
  let panics k := match filter k with Panic => true | _ => false end in
  let removed k := match filter k with Ok Remove => true | _ => false end in
  if existsb (fun kv : bytes * bytes => panics kv.1) (map_to_list (t_columns d c)) then Panic
  else Ok (MkToyDb (toy_update (t_columns d) c
    (base.filter (fun kv : bytes * bytes => removed kv.1 = false) (t_columns d c))) (t_failing d) (t_size d)).

Definition toy_rocks : Rocks := {|
  rocks := toy_db;
  get_cf d c k := Ok (t_columns d c !! k);
  put_cf d c k v := toy_try d (fun f => toy_put f c k v);
  write_cf d batch := toy_try d (fun f => foldl (fun f '(c, k, v) => toy_put f c k v) f batch);
  delete_range_cf d c from upto := toy_try d (fun f =>
    toy_update f c (filter (fun kv => toy_deleted from upto kv.1 = false) (f c)));
  iterator_cf d c mode := map Ok (toy_rows (t_columns d c) mode);
  compact_range_cf d f c _ _ := toy_compact d f c;
  flush_cfs d _ := toy_try d id;
  estimate_num_keys d c := Ok (Z.min (Z.of_nat (size (t_columns d c))) (2 ^ 63 - 1));
  dir_size d := Ok (wrap64 (t_size d));
  holds d c k := t_columns d c !! k;
|}.

Lemma map_Ok_inj {E A} (l l' : list A) : map (@Ok E A) l = map Ok l' -> l = l'.
Proof. revert l'. induction l; intros [|]; cbn; naive_solver. Qed.

Lemma toy_update_lookup f c m c' k :
  toy_update f c m c' !! k = if decide (c' = c) then m !! k else f c' !! k.
Proof. unfold toy_update. by case_decide. Qed.

Lemma toy_put_lookup f c k v c' k' :
  toy_put f c k v c' !! k' = if decide ((c', k') = (c, k)) then Some v else f c' !! k'.
Proof.
  unfold toy_put. rewrite toy_update_lookup. destruct (decide (c' = c)) as [->|Hne].
  - destruct (decide (k' = k)) as [->|Hne].
    + by rewrite lookup_insert_eq, decide_True.
    + by rewrite lookup_insert_ne, decide_False by congruence.
  - by rewrite decide_False by congruence.
Qed.

Lemma toy_try_Ok d change d' : toy_try d change = (Ok tt, d') -> t_columns d' = change (t_columns d).
Proof. unfold toy_try. destruct (t_failing d) as [|[] rest]; by intros [= <-]. Qed.

Lemma toy_try_Err d change d' e : toy_try d change = (Err e, d') -> t_columns d' = t_columns d.
Proof. unfold toy_try. destruct (t_failing d) as [|[] rest]; by intros [= <- <-]. Qed.

Lemma toy_try_total d change d' : toy_try d change <> (Panic, d').
Proof. unfold toy_try. by destruct (t_failing d) as [|[] rest]. Qed.

Lemma toy_batch_lookup batch f c k :
  foldl (fun f '(c, k, v) => toy_put f c k v) f batch c !! k =
  foldl (fun found '(c', k', v) => if decide ((c, k) = (c', k')) then Some v else found) (f c !! k) batch.
Proof.
  revert f. induction batch as [|[[c' k'] v] batch IH]; intros f; [done|]. cbn [foldl].
  by rewrite IH, toy_put_lookup.
Qed.

Lemma toy_rows_elem m mode k v : (k, v) ∈ toy_rows m mode <-> m !! k = Some v /\ in_mode mode k = true.
Proof.
  assert ((k, v) ∈ sort_by (fun a b : bytes * bytes => bytes_le a.1 b.1)
    (filter (fun kv : bytes * bytes => in_mode mode kv.1 = true) (map_to_list m)) <->
    m !! k = Some v /\ in_mode mode k = true) as H.
  { rewrite sort_by_perm, list_elem_of_filter, elem_of_map_to_list. naive_solver. }
  unfold toy_rows. destruct mode as [| |from []]; by rewrite ?elem_of_reverse.
Qed.

Lemma toy_rows_sorted m mode : StronglySorted (visits_before mode) (toy_rows m mode).
Proof.
  unfold toy_rows. set (l := filter _ _).
  assert (NoDup (sort_by (fun a b : bytes * bytes => bytes_le a.1 b.1) l).*1) as Hnd.
  { rewrite sort_by_perm. eapply sublist_NoDup; [apply (NoDup_fst_map_to_list m)|].
    apply fmap_sublist, sublist_filter. }
  pose proof (sort_by_sorted (fun a b : bytes * bytes => bytes_le a.1 b.1)
    (fun x y => bytes_le_total _ _) (fun x y z => bytes_le_trans _ _ _) l) as Hs.
  assert (StronglySorted (fun a b : bytes * bytes => bytes_le a.1 b.1 = true /\ a.1 <> b.1) (sort_by (fun a b => bytes_le a.1 b.1) l)) as Hss.
  { revert Hnd. induction Hs as [|x l' Hs IH Hx]; cbn; [constructor|].
    intros [Hnot Hnd]%NoDup_cons. constructor; [auto|]. apply Forall_forall. intros y Hy.
    rewrite Forall_forall in Hx. split; [auto|]. intros E. apply Hnot. rewrite E. by apply list_elem_of_fmap_2. }
  assert (StronglySorted (fun a b : bytes * bytes => bytes_le b.1 a.1 = true /\ a.1 <> b.1)
    (reverse (sort_by (fun a b => bytes_le a.1 b.1) l))) as Hr.
  { apply StronglySorted_reverse. eapply StronglySorted_impl; [|exact Hss]. intros x y [? ?]. done. }
  destruct mode as [| |from []]; done.
Qed.

#[global] Instance toy_rocks_laws : RocksLaws toy_rocks.
Proof.
  split; cbn -[toy_try toy_rows toy_compact].
  - by intros d c k o [= <-].
  - done.
  - intros d c k v d' c' k' ->%toy_try_Ok. apply toy_put_lookup.
  - by intros d c k v d' e ->%toy_try_Err.
  - intros. apply toy_try_total.
  - intros d batch d' c k ->%toy_try_Ok. apply toy_batch_lookup.
  - by intros d batch d' e ->%toy_try_Err.
  - intros. apply toy_try_total.
  - intros d c from upto d' c' k ->%toy_try_Ok. rewrite toy_update_lookup.
    destruct (decide (c' = c)) as [->|Hne]; [|by rewrite decide_False by naive_solver].
    rewrite map_lookup_filter. unfold toy_deleted. cbn.
    destruct (t_columns d c !! k); cbn; repeat case_decide; destruct (bytes_le from k), (bytes_le upto k); naive_solver.
  - by intros d c from upto d' e ->%toy_try_Err.
  - intros. apply toy_try_total.
  - intros d c mode items k v <-%map_Ok_inj. apply toy_rows_elem.
  - intros d c mode items <-%map_Ok_inj. apply toy_rows_sorted.
  - intros d f c from upto d' c' k. unfold toy_compact. destruct (existsb _ _); [done|]. intros [= <-]. cbn.
    rewrite toy_update_lookup. destruct (decide (c' = c)) as [->|Hne]; [|by left].
    rewrite map_lookup_filter. destruct (t_columns d c !! k) as [v|]; [|by left]. cbn.
    case_guard as G; [by left|right]. cbn in G. destruct (f k) as [[]|[]|]; done.
  - intros d f c from upto Hf. unfold toy_compact. destruct (existsb _ _) eqn:E; [|done].
    apply existsb_exists in E as ([k v] & Hin%list_elem_of_In%elem_of_map_to_list & Hp). cbn in Hp.
    exfalso. apply (Hf k v Hin). by destruct (f k).
  - intros d cs [u|e|] d' H; [destruct u; by apply toy_try_Ok in H as ->|by apply toy_try_Err in H as ->|by apply toy_try_total in H].
  - intros. apply toy_try_total.
  - intros d c n [= <-]. lia.
  - intros d n [= <-]. apply wrap64_range.
Qed.

Lemma toy_readable (d : toy_db) : readable (R := toy_rocks) d.
Proof. done. Qed.

Lemma toy_iterable (d : toy_db) : iterable (R := toy_rocks) d.
Proof. intros c mode. by eexists. Qed.
