(* ===== verification/Store.v ===== *)
(** * The receipt log on disk: magicblock-ledger/src/store/api.rs

    The two receipt columns of the ledger: receipts by sequence number, sequence numbers by
    transaction signature. *)
From S2P Require Import Prelude Constants Columns Rocks.

(** ** store/api.rs: receipts *)

Section store.
Context `{R : Rocks}.

Definition write_receipt (seq : Z) (signature : option bytes) (outcome : byte) (receipt : bytes)
    : io unit :=
  let value := outcome :: receipt in
  _ ← put_bytes ReceiptBySeq seq value;
  match signature with
  | Some signature => put_bytes ReceiptBySig signature (be_bytes 8 seq)
  | None => mret tt
  end.

Definition index_receipt_signature (seq : Z) (signature : bytes) : io unit :=
  put_bytes ReceiptBySig signature (be_bytes 8 seq).

Definition set_receipt_outcome (seq : Z) (outcome : byte) : io bool :=
  stored ← get_bytes ReceiptBySeq seq;
  match stored with
  | None => mret false
  | Some [] => io_of (Err (ReceiptCorrupted seq))
  | Some (_ :: receipt) =>
      _ ← put_bytes ReceiptBySeq seq (outcome :: receipt);
      mret true
  end.

Definition split_receipt (seq : Z) (value : bytes) : result LedgerError (byte * bytes) :=
  match value with
  | [] => Err (ReceiptCorrupted seq)
  | outcome :: receipt => Ok (outcome, receipt)
  end.

Definition read_receipt (seq : Z) : io (option (byte * bytes)) :=
  stored ← get_bytes ReceiptBySeq seq;
  match stored with
  | None => mret None
  | Some value => split ← io_of (split_receipt seq value); mret (Some split)
  end.

Definition read_receipt_by_signature (signature : bytes) : io (option (Z * byte * bytes)) :=
  stored ← get_bytes ReceiptBySig signature;
  match stored with
  | None => mret None
  | Some bytes =>
      array ← io_of (ok_or (try_into_array 8 bytes) TryFromSliceError);
      let seq := be_val array in
      found ← read_receipt seq;
      mret (fmap (fun '(outcome, receipt) => (seq, outcome, receipt)) found)
  end.

(** A row too short to hold an outcome is skipped, an unreadable one panics when it is reached. *)
Definition iter_receipts (d : rocks) (from_seq : Z) : list (result LedgerError (Z * byte * bytes)) :=
  omap (fun item => match item with
                    | Ok (seq, value) =>
                        fmap (fun '(outcome, receipt) => Ok (seq, outcome, receipt))
                          (ok (split_receipt seq value))
                    | _ => Some Panic
                    end) (column_iter ReceiptBySeq d (IterFrom from_seq Forward)).

Definition count_receipts (d : rocks) : result LedgerError Z :=
  items ← mapM id (column_iter ReceiptBySeq d IterStart);
  Ok (Z.of_nat (length items)).
End store.

(** ** What the calls do to the columns *)

Section laws.
Context `{R : Rocks} `{!RocksLaws R}.
Implicit Types (d : rocks) (seq : Z).

(** The stored value of a sequence number: one outcome byte, then the receipt. *)
Definition row d seq : option bytes := holds d ReceiptBySeq (ReceiptBySeq_key seq).

(** Every key of the sequence column is a sequence number. *)
Definition keyed d : Prop := forall k v, holds d ReceiptBySeq k = Some v -> length k = 8%nat.

(** The content after a complete [write_receipt]. *)
Definition written (f : column -> bytes -> option bytes) seq (signature : option bytes) (outcome : byte)
    (receipt : bytes) : column -> bytes -> option bytes :=
  let f := overlay f ReceiptBySeq (ReceiptBySeq_key seq) (outcome :: receipt) in
  match signature with
  | Some signature => overlay f ReceiptBySig signature (be_bytes 8 seq)
  | None => f
  end.

Lemma overlay_row_other f seq v seq' : is_u64 seq -> is_u64 seq' -> seq' <> seq ->
  overlay f ReceiptBySeq (ReceiptBySeq_key seq) v ReceiptBySeq (ReceiptBySeq_key seq')
    = f ReceiptBySeq (ReceiptBySeq_key seq').
Proof.
  intros Hs Hs' Hne. unfold overlay. rewrite decide_False; [done|].
  intros E%(f_equal snd). exact (Hne (column_key_inj ReceiptBySeq _ _ _ _ Hs' Hs E)).
Qed.

Lemma overlay_sig_row f s v k : overlay f ReceiptBySig s v ReceiptBySeq k = f ReceiptBySeq k.
Proof. unfold overlay. by rewrite decide_False by congruence. Qed.

Lemma written_row f seq signature outcome receipt k :
  written f seq signature outcome receipt ReceiptBySeq k =
    overlay f ReceiptBySeq (ReceiptBySeq_key seq) (outcome :: receipt) ReceiptBySeq k.
Proof. unfold written. destruct signature; [apply overlay_sig_row|done]. Qed.

Lemma write_receipt_Ok seq signature outcome receipt d u d' :
  write_receipt seq signature outcome receipt d = (Ok u, d') ->
  forall c k, holds d' c k = written (holds d) seq signature outcome receipt c k.
Proof.
  unfold write_receipt. intros ([] & d1 & Hp & H)%io_bind_Ok c k.
  pose proof (put_bytes_Ok _ _ _ _ _ _ Hp) as H1. unfold written. destruct signature.
  - rewrite (put_bytes_Ok _ _ _ _ _ _ H). unfold overlay at 1 2. by rewrite H1.
  - injection H as _ <-. apply H1.
Qed.

(** A failed write left nothing, or the receipt without its signature index. *)
Lemma write_receipt_Err seq signature outcome receipt d e d' :
  write_receipt seq signature outcome receipt d = (Err e, d') ->
  holds d' = holds d \/
  is_Some signature /\ forall c k, holds d' c k = written (holds d) seq None outcome receipt c k.
Proof.
  unfold write_receipt, mbind, io_bind.
  destruct (put_bytes _ _ _ d) as [[u|e1|] d1] eqn:Hp; [..|done].
  - pose proof (put_bytes_Ok _ _ _ _ _ _ Hp) as H1. destruct signature; [|done].
    intros H%put_cf_failed. right. split; [done|]. intros c k. by rewrite H, H1.
  - intros [= <- <-]. left. by apply put_cf_failed in Hp.
Qed.

Lemma write_receipt_no_panic seq signature outcome receipt d d' :
  write_receipt seq signature outcome receipt d <> (Panic, d').
Proof.
  unfold write_receipt, mbind, io_bind.
  destruct (put_bytes _ _ _ d) as [[u|e1|] d1] eqn:Hp; [|done|by apply put_cf_total in Hp].
  destruct signature; [|done]. apply put_cf_total.
Qed.

Lemma index_receipt_signature_holds seq signature d r d' :
  index_receipt_signature seq signature d = (r, d') ->
  holds d' = holds d \/ forall c k, holds d' c k = overlay (holds d) ReceiptBySig signature (be_bytes 8 seq) c k.
Proof.
  unfold index_receipt_signature. destruct r as [u|e|]; intros H.
  - right. exact (put_bytes_Ok _ _ _ _ _ _ H).
  - left. exact (put_cf_failed _ _ _ _ _ _ H).
  - by apply put_cf_total in H.
Qed.

(** Setting an outcome changes at most the first byte of the row it names. *)
Lemma set_receipt_outcome_holds seq outcome d r d' :
  set_receipt_outcome seq outcome d = (r, d') ->
  holds d' = holds d \/
  exists b receipt, row d seq = Some (b :: receipt) /\ r = Ok true /\
    forall c k, holds d' c k = overlay (holds d) ReceiptBySeq (ReceiptBySeq_key seq) (outcome :: receipt) c k.
Proof.
  unfold set_receipt_outcome, get_bytes, read_bytes. unfold mbind at 1, io_bind at 1.
  change (@column_key ReceiptBySeq ReceiptBySeq_column seq) with (ReceiptBySeq_key seq).
  destruct (get_cf d ReceiptBySeq (ReceiptBySeq_key seq)) as [stored|e|] eqn:Hg;
    [|intros [= <- <-]; by left..].
  apply get_cf_holds in Hg as ->.
  destruct (holds d ReceiptBySeq (ReceiptBySeq_key seq)) as [[|b receipt]|] eqn:Hrow;
    [intros [= <- <-]; by left| |intros [= <- <-]; by left].
  unfold mbind, io_bind. destruct (put_bytes _ _ _ d) as [[u|e1|] d1] eqn:Hp.
  - intros [= <- <-]. right. exists b, receipt. split_conj; [done..|]. exact (put_bytes_Ok _ _ _ _ _ _ Hp).
  - intros [= <- <-]. left. by apply put_cf_failed in Hp.
  - intros [= <- <-]. by apply put_cf_total in Hp.
Qed.

Lemma set_receipt_outcome_Ok seq outcome d b receipt r d' : row d seq = Some (b :: receipt) ->
  set_receipt_outcome seq outcome d = (Ok r, d') -> r = true /\
  forall c k, holds d' c k = overlay (holds d) ReceiptBySeq (ReceiptBySeq_key seq) (outcome :: receipt) c k.
Proof.
  intros Hrow. unfold set_receipt_outcome. intros (stored & d1 & Hg & Hset)%io_bind_Ok.
  injection Hg as Hg <-. apply (get_cf_holds _ ReceiptBySeq (ReceiptBySeq_key seq)) in Hg as ->. unfold row in Hrow. rewrite Hrow in Hset.
  apply io_bind_Ok in Hset as (u & d1 & Hp & [= <- <-]). split; [done|]. exact (put_bytes_Ok _ _ _ _ _ _ Hp).
Qed.

Lemma read_receipt_row d seq : readable d ->
  (read_receipt seq d).1 = match row d seq with
    | None => Ok None
    | Some value => split ← split_receipt seq value; Ok (Some split)
    end.
Proof.
  intros Hr. unfold read_receipt, mbind at 1, io_bind at 1, row. rewrite get_bytes_run by done.
  change (@column_key ReceiptBySeq ReceiptBySeq_column seq) with (ReceiptBySeq_key seq).
  by destruct (holds d ReceiptBySeq (ReceiptBySeq_key seq)) as [[|b v]|].
Qed.

Lemma read_receipt_by_signature_row d signature seq outcome receipt : readable d -> is_u64 seq ->
  holds d ReceiptBySig signature = Some (be_bytes 8 seq) -> row d seq = Some (outcome :: receipt) ->
  (read_receipt_by_signature signature d).1 = Ok (Some (seq, outcome, receipt)).
Proof.
  intros Hr Hseq Hi Hrow. unfold read_receipt_by_signature, mbind at 1, io_bind at 1.
  rewrite get_bytes_run by done. change (@column_key ReceiptBySig ReceiptBySig_column signature) with signature.
  rewrite Hi, try_into_array_in by apply length_be_bytes.
  cbn [ok_or]. unfold mbind at 1 2, io_bind at 1 2. cbn [io_of]. rewrite be_val_bytes_u64 by done.
  pose proof (read_receipt_row d seq Hr) as Hread. rewrite Hrow in Hread.
  destruct (read_receipt seq d) as [[|e|] d1]; cbn in *; naive_solver.
Qed.
End laws.

(** ** Walking the log *)

Section iteration.
Context `{R : Rocks} `{!RocksLaws R}.
Implicit Types (d : rocks) (from seq : Z).

(** The row an iterator item stands for, if it holds an outcome. *)
Definition row_of (kv : bytes * bytes) : option (Z * byte * bytes) :=
  match kv.2 with [] => None | outcome :: receipt => Some (be_val kv.1, outcome, receipt) end.

Lemma ReceiptBySeq_index_key k : length k = 8%nat -> ReceiptBySeq_index k = Ok (be_val k).
Proof.
  intros Hl. unfold ReceiptBySeq_index, read_be. rewrite index_range_in by lia. res_run.
  by rewrite slice_all.
Qed.

Lemma iter_receipts_rows d from items :
  keyed d -> iterator_cf d ReceiptBySeq (IterFrom (ReceiptBySeq_key from) Forward) = map Ok items ->
  iter_receipts d from = map Ok (omap row_of items).
Proof.
  intros Hk Hi. assert (forall kv, kv ∈ items -> length kv.1 = 8%nat) as Hlen.
  { intros [k v] [Hh _]%(iterator_cf_holds _ _ _ _ _ _ Hi). by eapply Hk. }
  unfold iter_receipts, column_iter. cbn [raw_mode column_key ReceiptBySeq_column]. rewrite Hi. clear Hi.
  induction items as [|[k v] items IH]; [done|]. cbn [map omap list_omap column_index ReceiptBySeq_column].
  rewrite ReceiptBySeq_index_key by (apply (Hlen (k, v)); left). cbn [rethrow]. rewrite bind_of_ok.
  unfold row_of at 1. cbn [fst snd]. destruct v as [|b v]; cbn [split_receipt ok fmap option_fmap option_map map].
  - apply IH. intros. apply Hlen. by right.
  - f_equal. apply IH. intros. apply Hlen. by right.
Qed.

Lemma rows_ascend d from items :
  keyed d -> iterator_cf d ReceiptBySeq (IterFrom (ReceiptBySeq_key from) Forward) = map Ok items ->
  StronglySorted (fun a b : Z * byte * bytes => a.1.1 < b.1.1) (omap row_of items).
Proof.
  intros Hk Hi. eapply omap_sorted, (iterator_cf_ordered _ _ _ _ Hi).
  intros [k v] [k' v'] x' y' [Hh _]%(iterator_cf_holds _ _ _ _ _ _ Hi)
    [Hh' _]%(iterator_cf_holds _ _ _ _ _ _ Hi) [Hle Hne].
  apply Hk in Hh, Hh'. cbn in Hle, Hne. apply bytes_le_be_val in Hle; [|congruence].
  unfold row_of. cbn. repeat case_match; intros [= <-] [= <-]. cbn.
  assert (be_val k <> be_val k'); [|lia].
  intros E. apply Hne. by rewrite <-(be_bytes_val k), E, be_bytes_val.
Qed.

Lemma elem_of_rows d from items seq outcome receipt :
  keyed d -> is_u64 from -> iterator_cf d ReceiptBySeq (IterFrom (ReceiptBySeq_key from) Forward) = map Ok items ->
  (seq, outcome, receipt) ∈ omap row_of items <->
  is_u64 seq /\ from <= seq /\ row d seq = Some (outcome :: receipt).
Proof.
  intros Hk Hfrom Hi. rewrite list_elem_of_omap. split.
  - intros ([k v] & Hin & Hrow). apply (iterator_cf_holds _ _ _ _ _ _ Hi) in Hin as [Hh Hle].
    pose proof (Hk _ _ Hh) as Hl. unfold row_of in Hrow. cbn in Hrow.
    destruct v as [|b v]; [done|]. injection Hrow as <- <- <-.
    pose proof (be_val_u64 _ Hl). split_conj; [done| |].
    + apply bytes_le_be_val in Hle; [|by rewrite ReceiptBySeq_keyE, length_be_bytes].
      rewrite ReceiptBySeq_keyE in Hle. by rewrite be_val_bytes_u64 in Hle.
    + unfold row. by rewrite ReceiptBySeq_keyE, be_bytes_val.
  - intros (Hseq & Hle & Hrow). exists (ReceiptBySeq_key seq, outcome :: receipt). split.
    + apply (iterator_cf_holds _ _ _ _ _ _ Hi). split; [done|].
      cbn [in_mode]. rewrite !ReceiptBySeq_keyE. by apply be_bytes_le.
    + unfold row_of. cbn. by rewrite ReceiptBySeq_keyE, be_val_bytes_u64.
Qed.
End iteration.

(** ** Properties *)

(** What is written to the log is what is read back.  After a complete [write_receipt] the
    receipt and its outcome are read by sequence number, and by signature when it was given one;
    no other row changes; recording an outcome later replaces the outcome byte of an existing row
    and leaves the signed receipt as it is. *)
Theorem receipt_store_roundtrip `{R : Rocks} `{!RocksLaws R} (d d1 : rocks) (seq : Z)
    (signature : option bytes) (outcome : byte) (receipt : bytes)
    (Hseq : is_u64 seq) (Hw : write_receipt seq signature outcome receipt d = (Ok tt, d1))
    (Hr : readable d1) :
  (read_receipt seq d1).1 = Ok (Some (outcome, receipt)) /\
  (forall s, signature = Some s -> (read_receipt_by_signature s d1).1 = Ok (Some (seq, outcome, receipt))) /\
  (forall seq', is_u64 seq' -> seq' <> seq -> row d1 seq' = row d seq') /\
  (forall outcome' b d2, set_receipt_outcome seq outcome' d1 = (Ok b, d2) ->
    b = true /\ row d2 seq = Some (outcome' :: receipt) /\
    forall seq', is_u64 seq' -> seq' <> seq -> row d2 seq' = row d seq').
Proof.
  pose proof (write_receipt_Ok _ _ _ _ _ _ _ Hw) as Hh.
  assert (row d1 seq = Some (outcome :: receipt)) as Hrow.
  { unfold row. rewrite Hh, written_row. apply overlay_hit. }
  assert (forall seq', is_u64 seq' -> seq' <> seq -> row d1 seq' = row d seq') as Hother.
  { intros seq' Hseq' Hne. unfold row. rewrite Hh, written_row. by apply overlay_row_other. }
  split_conj; [by rewrite read_receipt_row, Hrow| |exact Hother|].
  - intros s ->. apply read_receipt_by_signature_row; try done.
    rewrite Hh. apply overlay_hit.
  - intros outcome' b d2 Hset. pose proof (set_receipt_outcome_Ok _ _ _ _ _ _ _ Hrow Hset) as [-> H2].
    split_conj; [done|unfold row; rewrite H2; apply overlay_hit|]. intros seq' Hseq' Hne.
    rewrite <-(Hother _ Hseq' Hne). unfold row. rewrite H2. by apply overlay_row_other.
Qed.

#[local] Existing Instance toy_rocks.

Definition toy_disk : toy_db := MkToyDb toy_empty [] 0.

Lemma receipt_store_roundtrip_witness :
  (read_receipt 300 (write_receipt 300 (Some [x05]) OUTCOME_PENDING [x07; x08] toy_disk).2).1
    = Ok (Some (OUTCOME_PENDING, [x07; x08])).
Proof.
  exact (proj1 (receipt_store_roundtrip toy_disk _ 300 (Some [x05]) OUTCOME_PENDING [x07; x08]
    ltac:(eval_done) eq_refl (fun _ _ => eq_refl))).
Defined.

(** The log is walked in sequence order, whole.  The rows an iterator yields from a
    sequence number on are in strictly ascending order of sequence numbers, and they are exactly
    the rows stored at that number or a later one, each with its outcome and its receipt. *)
Theorem iter_receipts_ascending `{R : Rocks} `{!RocksLaws R} (d : rocks) (from : Z)
    (items : list (bytes * bytes)) (Hk : keyed d) (Hfrom : is_u64 from)
    (Hi : iterator_cf d ReceiptBySeq (IterFrom (ReceiptBySeq_key from) Forward) = map Ok items) :
  exists rows, iter_receipts d from = map Ok rows /\
    StronglySorted (fun a b : Z * byte * bytes => a.1.1 < b.1.1) rows /\
    forall seq outcome receipt, (seq, outcome, receipt) ∈ rows <->
      is_u64 seq /\ from <= seq /\ row d seq = Some (outcome :: receipt).
Proof.
  exists (omap row_of items). split_conj; [by apply iter_receipts_rows|by eapply rows_ascend|].
  intros. by eapply elem_of_rows.
Qed.

Definition toy_disk3 : toy_db :=
  MkToyDb (toy_update toy_empty ReceiptBySeq (<[ReceiptBySeq_key 256 := [x01; x22]]>
    (<[ReceiptBySeq_key 3 := [x01; x23]]> (<[ReceiptBySeq_key 1 := [x02; x24]]> ∅)))) [] 0.

Lemma iter_receipts_ascending_witness :
  exists rows, iter_receipts (R := toy_rocks) toy_disk3 2 = map Ok rows /\ length rows = 2%nat /\
    (256, x01, [x22]) ∈ rows.
Proof.
  destruct (iter_receipts_ascending (R := toy_rocks) toy_disk3 2 (toy_rows (t_columns toy_disk3 ReceiptBySeq) (IterFrom (ReceiptBySeq_key 2) Forward)))
    as (rows & Hrows & _ & Hin).
  - assert (map_Forall (fun k _ => length k = 8%nat) (t_columns toy_disk3 ReceiptBySeq)) as Hall by eval_done.
    intros k v Hv. exact (Hall k v Hv).
  - eval_done.
  - reflexivity.
  - exists rows. split; [exact Hrows|]. split.
    + assert (length (iter_receipts (R := toy_rocks) toy_disk3 2) = 2%nat) as Hl by (vm_compute; reflexivity).
      rewrite Hrows, length_map in Hl. exact Hl.
    + apply Hin. split_conj; [eval_done|lia|vm_compute; reflexivity].
Defined.
