(* ===== verification/ReceiptLog.v ===== *)
(** * What an honest receipt log is

    The specification the writer implements and the watchtower checks: receipts of one log id,
    signed by one key, numbered from zero without gaps, each naming the hash of its
    predecessor. *)
From S2P Require Import Prelude Constants Crypto Receipt.

Section log.
Context `{C : Crypto}.
Implicit Types (log : list SignedReceipt).

(** The link the receipt at position [i] has to carry. *)
Definition link_at log (i : nat) : bytes :=
  match i with
  | O => GENESIS_PREV_HASH
  | S j => from_option receipt_hash GENESIS_PREV_HASH (log !! j)
  end.

Record entry_at (key log_id : bytes) log (i : nat) (s : SignedReceipt) : Prop := {
  entry_wf : SignedReceipt_wf s;
  entry_signed : SignedReceipt_verify s key = Ok tt;
  entry_log : r_log_id (s_receipt s) = log_id;
  entry_seq : r_seq (s_receipt s) = Z.of_nat i;
  entry_link : r_prev_receipt_hash (s_receipt s) = link_at log i;
}.

Definition chained (key log_id : bytes) log : Prop :=
  forall i s, log !! i = Some s -> entry_at key log_id log i s.

Lemma chained_nil key log_id : chained key log_id [].
Proof. by intros i s ?. Qed.

Lemma link_at_app log log' i : (i <= length log)%nat -> link_at (log ++ log') i = link_at log i.
Proof. intros Hi. destruct i as [|j]; [done|]. cbn. by rewrite lookup_app_l by lia. Qed.

Lemma link_at_snoc log s : link_at (log ++ [s]) (length (log ++ [s])) = receipt_hash s.
Proof. rewrite length_app, Nat.add_1_r. cbn. by rewrite list_lookup_middle. Qed.

Lemma entry_at_app key log_id log log' i s :
  (i <= length log)%nat -> entry_at key log_id log i s -> entry_at key log_id (log ++ log') i s.
Proof. intros Hi []. split; try done. by rewrite link_at_app. Qed.

Lemma chained_snoc key log_id log s :
  chained key log_id log -> entry_at key log_id log (length log) s -> chained key log_id (log ++ [s]).
Proof.
  intros Hc Hs i s' [Hl|[? Hl]]%lookup_app_Some.
  - apply entry_at_app; [apply lookup_lt_Some in Hl; lia|auto].
  - apply list_lookup_singleton_Some in Hl as [Hi <-].
    assert (i = length log) as -> by lia. by apply entry_at_app.
Qed.

(** A position of the log carries one statement. *)
Lemma chained_unique key log_id log s s' :
  chained key log_id log -> s ∈ log -> s' ∈ log ->
  r_seq (s_receipt s) = r_seq (s_receipt s') -> s = s'.
Proof.
  intros Hc [i Hi]%list_elem_of_lookup [j Hj]%list_elem_of_lookup E.
  pose proof (entry_seq _ _ _ _ _ (Hc _ _ Hi)). pose proof (entry_seq _ _ _ _ _ (Hc _ _ Hj)).
  assert (i = j) as -> by lia. congruence.
Qed.
End log.
