(* ===== verification/Pending.v ===== *)
(** * Positions promised blind: magicblock-receipts/src/pending.rs and deadline.rs

    The table of commitments whose contents have not been revealed, keyed by content hash. *)
From S2P Require Import Prelude Constants.

(** ** deadline.rs *)

Record RevealDeadline : Type := MkDeadline { dl_slots : Z; dl_max_outstanding : Z }.

Definition RevealDeadline_default : RevealDeadline := MkDeadline 150 8.

(** [from_env], given what [read] makes of the two variables. *)
Definition RevealDeadline_from_env (slots max_outstanding : option Z) : RevealDeadline :=
  let fallback := RevealDeadline_default in
  MkDeadline (default (dl_slots fallback) slots) (default (dl_max_outstanding fallback) max_outstanding).

(** ** pending.rs *)

Record PendingCommit : Type := MkPending {
  pc_tx_hash : bytes;
  pc_committer : bytes;
  pc_committed_at_slot : Z;
}.

#[global] Instance PendingCommit_eq_dec : EqDecision PendingCommit.
Proof. solve_decision. Defined.

(** A [BTreeMap] by hash, which iterates in the order of the hashes. *)
Definition PendingCommits : Type := gmap bytes (Z * PendingCommit).

Definition by_hash (pending : PendingCommits) : list (bytes * (Z * PendingCommit)) :=
  sort_by (fun a b => bytes_le a.1 b.1) (map_to_list pending).

Definition PendingCommits_record (pending : PendingCommits) (seq : Z) (tx_hash committer : bytes)
    (committed_at_slot : Z) : PendingCommits :=
  <[tx_hash := (seq, MkPending tx_hash committer committed_at_slot)]> pending.

Definition PendingCommits_claim (pending : PendingCommits) (tx_hash : bytes)
    : option (Z * PendingCommit) * PendingCommits :=
  (pending !! tx_hash, delete tx_hash pending).

(** [stale.into_iter().filter_map(|hash| self.by_hash.remove(&hash)).collect()]. *)
Fixpoint remove_all (pending : PendingCommits) (stale : list bytes)
    : list (Z * PendingCommit) * PendingCommits :=
  match stale with
  | [] => ([], pending)
  | hash :: stale =>
      let removed := PendingCommits_claim pending hash in
      let rest := remove_all removed.2 stale in
      (option_list removed.1 ++ rest.1, rest.2)
  end.

Definition PendingCommits_expire (pending : PendingCommits) (cutoff_slot : Z)
    : list (Z * PendingCommit) * PendingCommits :=
  let stale := map fst (filter (fun e => pc_committed_at_slot e.2.2 < cutoff_slot) (by_hash pending)) in
  remove_all pending stale.

Definition PendingCommits_outstanding (pending : PendingCommits) : list (Z * PendingCommit) :=
  map snd (by_hash pending).

Definition PendingCommits_len (pending : PendingCommits) : Z := Z.of_nat (size pending).
Definition PendingCommits_is_empty (pending : PendingCommits) : bool := bool_decide (pending = ∅).

(** How many values name this committer. *)
Definition outstanding_for (pending : PendingCommits) (committer : bytes) : Z :=
  Z.of_nat (size (filter (fun kv => pc_committer kv.2.2 = committer) pending)).

(** ** Lemmas *)

Section pending.
Implicit Types (pending : gmap bytes (Z * PendingCommit)) (h c : bytes).

Lemma outstanding_for_empty c : outstanding_for ∅ c = 0.
Proof. unfold outstanding_for, PendingCommits. by rewrite map_filter_empty, map_size_empty. Qed.

Lemma outstanding_for_nonneg pending c : 0 <= outstanding_for pending c.
Proof. unfold outstanding_for. lia. Qed.

Lemma outstanding_for_subseteq pending pending' c :
  pending ⊆ pending' -> outstanding_for pending c <= outstanding_for pending' c.
Proof.
  intros Hs. unfold outstanding_for. apply Nat2Z.inj_le, map_subseteq_size.
  by apply map_filter_subseteq_mono.
Qed.

(** A record adds at most one position, and only to its own committer. *)
Lemma outstanding_for_record pending seq h c slot c' :
  outstanding_for (PendingCommits_record pending seq h c slot) c'
    <= outstanding_for pending c' + (if decide (c' = c) then 1 else 0).
Proof.
  unfold PendingCommits_record, PendingCommits. rewrite <-insert_delete_eq.
  assert (outstanding_for (delete h pending) c' <= outstanding_for pending c')
    by (apply outstanding_for_subseteq, delete_subseteq).
  unfold outstanding_for, PendingCommits in *. case_decide.
  - rewrite map_filter_insert_True by done.
    rewrite map_size_insert_None; [lia|]. rewrite map_lookup_filter, lookup_delete_eq. done.
  - rewrite map_filter_insert_False by done. rewrite delete_delete_eq. lia.
Qed.

Lemma remove_all_cons pending h stale :
  remove_all pending (h :: stale) =
    (option_list (pending !! h) ++ (remove_all (delete h pending) stale).1, (remove_all (delete h pending) stale).2).
Proof. done. Qed.

Lemma remove_all_subseteq pending stale : (remove_all pending stale).2 ⊆ pending.
Proof.
  revert pending. induction stale as [|h stale IH]; intros pending; [done|]. rewrite remove_all_cons. cbn.
  etransitivity; [apply IH|apply delete_subseteq].
Qed.

Lemma remove_all_elem pending stale e :
  e ∈ (remove_all pending stale).1 -> exists h, h ∈ stale /\ pending !! h = Some e.
Proof.
  revert pending. induction stale as [|h stale IH]; intros pending; [by intros ?%elem_of_nil|]. rewrite remove_all_cons. cbn.
  rewrite elem_of_app. intros [He|He].
  - destruct (pending !! h) as [e'|] eqn:E; cbn in He; [|by apply elem_of_nil in He].
    apply list_elem_of_singleton in He as ->. exists h. split; [by left|done].
  - apply IH in He as (h' & Hin & Hl). exists h'. split; [by right|].
    by apply lookup_delete_Some in Hl as [_ ?].
Qed.

Lemma remove_all_lookup pending stale h :
  (remove_all pending stale).2 !! h = if decide (h ∈ stale) then None else pending !! h.
Proof.
  revert pending. induction stale as [|h' stale IH]; intros pending; [done|].
  rewrite remove_all_cons. cbn. rewrite IH. destruct (decide (h = h')) as [->|Hne].
  - rewrite lookup_delete_eq. rewrite (decide_True (P := h' ∈ h' :: stale)) by (by left).
    by case_decide.
  - rewrite lookup_delete_ne by done. case_decide as H1.
    + by rewrite decide_True by (by right).
    + rewrite decide_False; [done|]. by intros [?|?]%elem_of_cons.
Qed.

Lemma remove_all_complete pending stale h e :
  h ∈ stale -> pending !! h = Some e -> e ∈ (remove_all pending stale).1.
Proof.
  revert pending. induction stale as [|h' stale IH]; intros pending; [by intros ?%elem_of_nil|].
  rewrite remove_all_cons. cbn. intros Hin Hl. apply elem_of_app. destruct (decide (h = h')) as [->|Hne].
  - left. rewrite Hl. cbn. by left.
  - right. apply elem_of_cons in Hin as [?|Hin]; [done|]. apply IH; [done|].
    by rewrite lookup_delete_ne.
Qed.

Lemma elem_of_by_hash pending h e : (h, e) ∈ by_hash pending <-> pending !! h = Some e.
Proof. unfold by_hash, PendingCommits. by rewrite sort_by_perm, elem_of_map_to_list. Qed.

Lemma elem_of_stale pending cutoff h :
  h ∈ map fst (filter (fun e => pc_committed_at_slot e.2.2 < cutoff) (by_hash pending)) <->
  exists e, pending !! h = Some e /\ pc_committed_at_slot e.2 < cutoff.
Proof.
  rewrite list_elem_of_fmap. setoid_rewrite list_elem_of_filter. split.
  - intros ([h' e] & -> & Hs & Hin%elem_of_by_hash). eauto.
  - intros (e & Hl & Hs). exists (h, e). split_conj; [done..|]. by apply elem_of_by_hash.
Qed.

(** [expire] returns exactly the commitments made before the cutoff, and keeps the others. *)
Lemma expire_spec pending cutoff :
  (forall e, e ∈ (PendingCommits_expire pending cutoff).1 <->
     exists h, pending !! h = Some e /\ pc_committed_at_slot e.2 < cutoff) /\
  (forall h, (PendingCommits_expire pending cutoff).2 !! h =
     match pending !! h with
     | Some e => if decide (pc_committed_at_slot e.2 < cutoff) then None else Some e
     | None => None
     end).
Proof.
  unfold PendingCommits_expire. split.
  - intros e. split.
    + intros (h & (e' & Hl & Hs)%elem_of_stale & Hl')%remove_all_elem. exists h. by simplify_eq.
    + intros (h & Hl & Hs). eapply remove_all_complete; [|exact Hl]. apply elem_of_stale. eauto.
  - intros h. rewrite remove_all_lookup. case_decide as Hin.
    + apply elem_of_stale in Hin as (e & -> & Hs). by rewrite decide_True.
    + destruct (pending !! h) as [e|] eqn:E; [|done]. rewrite decide_False; [done|].
      intros Hs. apply Hin, elem_of_stale. eauto.
Qed.
End pending.
