(* ===== verification/Writer.v ===== *)
(** * The receipt writer: magicblock-receipts

    The single task that assigns sequence numbers, signs receipts and stores them.  Its state is
    the record [ReceiptWriter]; a command is one value of the inbox; the slot source and the
    clock, which the writer reads once per command, come with the command. *)
From S2P Require Import Prelude Constants Crypto Receipt Columns Rocks Store ReceiptLog Pending.

(** ** error.rs, command.rs, request.rs *)

(** [Storage] and [TooManyOutstanding] carry in the code the rendering of what they carry here. *)
Inductive StampError : Type :=
| WriterGone
| Invalid (e : ReceiptError)
| Storage (e : LedgerError)
| UnsignedCommitment
| TooManyOutstanding (committer : bytes).

#[global] Instance StampError_eq_dec : EqDecision StampError.
Proof. solve_decision. Defined.

Inductive WriterCommand : Type :=
| CmdStamp (tx_sig wire_bytes recent_blockhash : bytes)
| CmdCommit (tx_hash committer : bytes)
| CmdReveal (tx_hash tx_sig : bytes)
| CmdRecordOutcome (seq : Z) (outcome : Outcome)
| CmdSweep.

(** What goes down the reply channel of a command. *)
Inductive Reply : Type :=
| ReplyReceipt (r : result StampError SignedReceipt)
| ReplyReveal (r : option (Z * PendingCommit))
| NoReply.

(** [(self.slots)()] and [now_micros()] while one command is handled. *)
Record Instant : Type := MkInstant { i_slot : Z; i_micros : Z }.

(** ** writer.rs *)

Record ReceiptWriter `{C : Crypto} `{R : Rocks} : Type := MkWriter {
  (** What went to [events], in order. *)
  w_events : list SignedReceipt;
  w_ledger : rocks;
  w_key : SigningKey;
  w_log_id : bytes;
  w_seq : Z;
  w_prev_receipt_hash : bytes;
  w_equivocation : bool;
  w_published : option SignedReceipt;
  w_pending : PendingCommits;
  w_deadline : RevealDeadline;
}.
Arguments MkWriter {_ _}.

Section writer.
Context `{C : Crypto} `{R : Rocks}.
Implicit Types (self : ReceiptWriter).

Definition mint_log_id (key : SigningKey) (nanos minted : Z) : bytes :=
  let seed := zeros 48 in
  let seed := copy_range seed 0 32 (verifying_key key) in
  let seed := copy_range seed 32 40 (le_bytes 8 nanos) in
  let seed := copy_range seed 40 48 (le_bytes 8 minted) in
  tx_hash seed.

Definition ReceiptWriter_new (ledger : rocks) (key : SigningKey) (nanos minted : Z)
    (equivocation : bool) (deadline : RevealDeadline) : ReceiptWriter :=
  {| w_events := []; w_ledger := ledger; w_key := key; w_log_id := mint_log_id key nanos minted;
     w_seq := 0; w_prev_receipt_hash := GENESIS_PREV_HASH; w_equivocation := equivocation;
     w_published := None; w_pending := ∅; w_deadline := deadline |}.

Definition set_ledger self (ledger : rocks) : ReceiptWriter :=
  {| w_events := w_events self; w_ledger := ledger; w_key := w_key self; w_log_id := w_log_id self;
     w_seq := w_seq self; w_prev_receipt_hash := w_prev_receipt_hash self;
     w_equivocation := w_equivocation self; w_published := w_published self;
     w_pending := w_pending self; w_deadline := w_deadline self |}.

Definition set_pending self (pending : PendingCommits) : ReceiptWriter :=
  {| w_events := w_events self; w_ledger := w_ledger self; w_key := w_key self;
     w_log_id := w_log_id self; w_seq := w_seq self;
     w_prev_receipt_hash := w_prev_receipt_hash self; w_equivocation := w_equivocation self;
     w_published := w_published self; w_pending := pending; w_deadline := w_deadline self |}.

(** [self.seq += 1; self.prev_receipt_hash = published.receipt_hash();
    self.published = Some(published)]. *)
Definition advance self (published : SignedReceipt) : ReceiptWriter :=
  {| w_events := w_events self; w_ledger := w_ledger self; w_key := w_key self;
     w_log_id := w_log_id self; w_seq := wrap64 (w_seq self + 1);
     w_prev_receipt_hash := receipt_hash published; w_equivocation := w_equivocation self;
     w_published := Some published; w_pending := w_pending self; w_deadline := w_deadline self |}.

(** [if let Some(published) = self.published.take() { self.events.send(published) }]. *)
Definition broadcast self : ReceiptWriter :=
  {| w_events := w_events self ++ option_list (w_published self); w_ledger := w_ledger self;
     w_key := w_key self; w_log_id := w_log_id self; w_seq := w_seq self;
     w_prev_receipt_hash := w_prev_receipt_hash self; w_equivocation := w_equivocation self;
     w_published := None; w_pending := w_pending self; w_deadline := w_deadline self |}.

Definition commit_ticket (now : Instant) (tx_hash committer : bytes) self : Receipt := {|
  r_log_id := w_log_id self;
  r_mode := Commit;
  r_seq := w_seq self;
  r_tx_sig := ZERO_SIG;
  r_tx_hash := tx_hash;
  r_recent_blockhash := zeros LEN_HASH;
  r_prev_receipt_hash := w_prev_receipt_hash self;
  r_committer := committer;
  r_ingress_slot := i_slot now;
  r_t_ingress_micros := i_micros now;
|}.

Definition commit (now : Instant) (tx_hash committer : bytes) self
    : result StampError SignedReceipt * ReceiptWriter :=
  if decide (dl_max_outstanding (w_deadline self) <= outstanding_for (w_pending self) committer)
  then (Err (TooManyOutstanding committer), self)
  else
    match map_err Invalid (Receipt_sign (commit_ticket now tx_hash committer self) (w_key self)) with
    | Ok signed =>
        match write_receipt (w_seq self) None (Outcome_as_u8 Pending) (SignedReceipt_to_bytes signed)
                (w_ledger self) with
        | (Ok _, ledger) =>
            let self := set_ledger self ledger in
            let self := set_pending self
              (PendingCommits_record (w_pending self) (w_seq self) tx_hash committer (i_slot now)) in
            (Ok signed, advance self signed)
        | (Err e, ledger) => (Err (Storage e), set_ledger self ledger)
        | (Panic, ledger) => (Panic, set_ledger self ledger)
        end
    | Err e => (Err e, self)
    | Panic => (Panic, self)
    end.

(** [tampered.tx_hash[0] ^= 0xFF]. *)
Definition tamper (receipt : Receipt) : Receipt := {|
  r_log_id := r_log_id receipt;
  r_mode := r_mode receipt;
  r_seq := r_seq receipt;
  r_tx_sig := r_tx_sig receipt;
  r_tx_hash := alter (fun b => byte_of (Z.lxor (byte_val b) 255)) 0%nat (r_tx_hash receipt);
  r_recent_blockhash := r_recent_blockhash receipt;
  r_prev_receipt_hash := r_prev_receipt_hash receipt;
  r_committer := r_committer receipt;
  r_ingress_slot := r_ingress_slot receipt;
  r_t_ingress_micros := r_t_ingress_micros receipt;
|}.

Definition plain_receipt (now : Instant) (tx_sig wire_bytes recent_blockhash : bytes) self : Receipt := {|
  r_log_id := w_log_id self;
  r_mode := Plain;
  r_seq := w_seq self;
  r_tx_sig := tx_sig;
  r_tx_hash := tx_hash wire_bytes;
  r_recent_blockhash := recent_blockhash;
  r_prev_receipt_hash := w_prev_receipt_hash self;
  r_committer := ZERO_PUBKEY;
  r_ingress_slot := i_slot now;
  r_t_ingress_micros := i_micros now;
|}.

Definition stamp (now : Instant) (tx_sig wire_bytes recent_blockhash : bytes) self
    : result StampError SignedReceipt * ReceiptWriter :=
  let receipt := plain_receipt now tx_sig wire_bytes recent_blockhash self in
  match
    signed ← map_err Invalid (Receipt_sign receipt (w_key self));
    published ← (if w_equivocation self
                 then map_err Invalid (Receipt_sign (tamper receipt) (w_key self))
                 else Ok signed);
    Ok (signed, published)
  with
  | Ok (signed, published) =>
      match write_receipt (w_seq self) (Some tx_sig) (Outcome_as_u8 Pending)
              (SignedReceipt_to_bytes published) (w_ledger self) with
      | (Ok _, ledger) => (Ok signed, advance (set_ledger self ledger) published)
      | (Err e, ledger) => (Err (Storage e), set_ledger self ledger)
      | (Panic, ledger) => (Panic, set_ledger self ledger)
      end
  | Err e => (Err e, self)
  | Panic => (Panic, self)
  end.

Definition handle_stamp (now : Instant) (tx_sig wire_bytes recent_blockhash : bytes) self
    : result StampError SignedReceipt * ReceiptWriter :=
  let '(result, self) := stamp now tx_sig wire_bytes recent_blockhash self in
  (result, broadcast self).

Definition handle_commit (now : Instant) (tx_hash committer : bytes) self
    : result StampError SignedReceipt * ReceiptWriter :=
  let '(result, self) := commit now tx_hash committer self in
  (result, broadcast self).

(** A failure to index is logged; the position stays claimed. *)
Definition handle_reveal (tx_hash tx_sig : bytes) self : option (Z * PendingCommit) * ReceiptWriter :=
  let '(claimed, pending) := PendingCommits_claim (w_pending self) tx_hash in
  match claimed with
  | None => (None, self)
  | Some claimed =>
      let self := set_pending self pending in
      let '(_, ledger) := index_receipt_signature claimed.1 tx_sig (w_ledger self) in
      (Some claimed, set_ledger self ledger)
  end.

(** [set_receipt_outcome], whose failures are logged. *)
Definition handle_outcome (seq : Z) (outcome : Outcome) self : ReceiptWriter :=
  let '(_, ledger) := set_receipt_outcome seq (Outcome_as_u8 outcome) (w_ledger self) in
  set_ledger self ledger.

Definition handle_sweep (now : Instant) self : ReceiptWriter :=
  let cutoff := saturating_sub (i_slot now) (dl_slots (w_deadline self)) in
  let '(expired, pending) := PendingCommits_expire (w_pending self) cutoff in
  foldl (fun self e => handle_outcome e.1 Expired self) (set_pending self pending) expired.

Definition run_command (now : Instant) (command : WriterCommand) self : Reply * ReceiptWriter :=
  match command with
  | CmdStamp tx_sig wire_bytes recent_blockhash =>
      let '(r, self) := handle_stamp now tx_sig wire_bytes recent_blockhash self in
      (ReplyReceipt r, self)
  | CmdCommit tx_hash committer =>
      let '(r, self) := handle_commit now tx_hash committer self in (ReplyReceipt r, self)
  | CmdReveal tx_hash tx_sig =>
      let '(r, self) := handle_reveal tx_hash tx_sig self in (ReplyReveal r, self)
  | CmdRecordOutcome seq outcome => (NoReply, handle_outcome seq outcome self)
  | CmdSweep => (NoReply, handle_sweep now self)
  end.

(** The loop of [run]: the commands in the order of the inbox, and their replies. *)
Fixpoint ReceiptWriter_run (commands : list (Instant * WriterCommand)) self : list Reply * ReceiptWriter :=
  match commands with
  | [] => ([], self)
  | (now, command) :: commands =>
      let '(reply, self) := run_command now command self in
      let '(replies, self) := ReceiptWriter_run commands self in
      (reply :: replies, self)
  end.
End writer.
