(* ===== verification/WriterLog.v ===== *)
(** * The log a writer keeps

    The invariant of the receipt writer, for every sequence of commands: what it published is one
    chained log, stored row by row, and every promised position in its table is a ticket of that
    log. *)
From S2P Require Import Prelude Constants Crypto Receipt Evidence Columns Rocks Store ReceiptLog Pending Writer.

(** ** Commands the RPC layer can send *)

(** What the Rust types of a command guarantee. *)
Definition command_wf (now : Instant) (command : WriterCommand) : Prop :=
  is_u64 (i_slot now) /\ is_u64 (i_micros now) /\
  match command with
  | CmdStamp tx_sig _ recent_blockhash =>
      length tx_sig = LEN_TX_SIG /\ length recent_blockhash = LEN_HASH
  | CmdCommit tx_hash committer => length tx_hash = LEN_HASH /\ length committer = LEN_PUBKEY
  | CmdReveal tx_hash tx_sig => length tx_hash = LEN_HASH /\ length tx_sig = LEN_TX_SIG
  | CmdRecordOutcome seq _ => is_u64 seq
  | CmdSweep => True
  end.

(** The command was not refused for a failing disk. *)
Definition healthy (reply : Reply) : Prop := forall e, reply <> ReplyReceipt (Err (Storage e)).

Lemma healthy_ok s : healthy (ReplyReceipt (Ok s)).
Proof. by intros e. Qed.

Section writer.
Context `{C : Crypto} `{!CryptoLaws C} `{R : Rocks} `{!RocksLaws R}.
Implicit Types (self : ReceiptWriter) (log : list SignedReceipt) (d : rocks).

(** ** Rows *)

(** The row of a sequence number holds this receipt, under some outcome. *)
Definition stored d (seq : Z) (receipt : bytes) : Prop :=
  exists outcome, row d seq = Some (outcome :: receipt).

Lemma set_receipt_outcome_stored d r d' seq outcome seq' receipt :
  set_receipt_outcome seq outcome d = (r, d') -> stored d seq' receipt -> stored d' seq' receipt.
Proof.
  intros H [o Ho]. unfold stored, row in *.
  destruct (set_receipt_outcome_holds _ _ _ _ _ H) as [->|(b & receipt' & Hrow & _ & Hh)]; [eauto|].
  rewrite Hh. unfold overlay. case_decide as E; [|eauto]. apply (f_equal snd) in E.
  unfold row in Hrow. cbn [snd] in E. rewrite <-E, Ho in Hrow. injection Hrow as -> ->. eauto.
Qed.

Lemma index_receipt_signature_stored d r d' seq signature seq' receipt :
  index_receipt_signature seq signature d = (r, d') -> stored d seq' receipt -> stored d' seq' receipt.
Proof.
  intros H [o Ho]. unfold stored, row in *.
  destruct (index_receipt_signature_holds _ _ _ _ _ H) as [->|Hh]; [eauto|].
  rewrite Hh, overlay_sig_row. eauto.
Qed.

Lemma write_receipt_stored d u d' seq signature outcome receipt :
  write_receipt seq signature outcome receipt d = (Ok u, d') -> stored d' seq receipt.
Proof.
  intros H. exists outcome. unfold row. rewrite (write_receipt_Ok _ _ _ _ _ _ _ H), written_row.
  apply overlay_hit.
Qed.

Lemma write_receipt_stored_other d u d' seq signature outcome receipt seq' receipt' :
  is_u64 seq -> is_u64 seq' -> seq' <> seq ->
  write_receipt seq signature outcome receipt d = (Ok u, d') ->
  stored d seq' receipt' -> stored d' seq' receipt'.
Proof.
  intros Hs Hs' Hne H [o Ho]. exists o. unfold row in *.
  by rewrite (write_receipt_Ok _ _ _ _ _ _ _ H), written_row, overlay_row_other.
Qed.

(** ** What a command that signs does *)

(** The published copy of a receipt that was handed out. *)
Definition published_as (equivocation : bool) (signed published : SignedReceipt) : Prop :=
  if equivocation && bool_decide (r_mode (s_receipt signed) = Plain)
  then s_receipt published = tamper (s_receipt signed)
  else published = signed.

Lemma stamp_cases now tx_sig wire_bytes recent_blockhash self r self' :
  stamp now tx_sig wire_bytes recent_blockhash self = (r, self') ->
  (exists e, r = Err (Invalid e) /\ self' = self) \/
  exists signed published ledger,
    Receipt_sign (plain_receipt now tx_sig wire_bytes recent_blockhash self) (w_key self) = Ok signed /\
    Receipt_sign (s_receipt published) (w_key self) = Ok published /\
    published_as (w_equivocation self) signed published /\
    let written := write_receipt (w_seq self) (Some tx_sig) (Outcome_as_u8 Pending)
      (SignedReceipt_to_bytes published) (w_ledger self) in
    (exists e, r = Err (Storage e) /\ written = (Err e, ledger) /\ self' = set_ledger self ledger) \/
    (r = Ok signed /\ written = (Ok tt, ledger) /\ self' = advance (set_ledger self ledger) published).
Proof.
  unfold stamp. set (receipt := plain_receipt _ _ _ _ _).
  destruct (Receipt_sign receipt (w_key self)) as [signed|e|] eqn:Hs;
    [|cbn; intros [= <- <-]; eauto|by apply Receipt_sign_no_panic in Hs].
  cbn [map_err]. rewrite bind_of_ok.
  assert (s_receipt signed = receipt) as Hr by (by apply Receipt_sign_Ok in Hs as [_ ->]).
  assert (forall published,
    (if w_equivocation self then map_err Invalid (Receipt_sign (tamper receipt) (w_key self)) else Ok signed)
      = Ok published ->
    Receipt_sign (s_receipt published) (w_key self) = Ok published /\
    published_as (w_equivocation self) signed published) as Hpub.
  { intros published. unfold published_as. rewrite Hr. destruct (w_equivocation self); cbn.
    - intros H%map_err_Ok. pose proof H as [_ E]%Receipt_sign_Ok. rewrite E in *. done.
    - intros [= <-]. by rewrite Hr. }
  destruct (if w_equivocation self then _ else _) as [published|e|] eqn:Hp.
  - destruct (Hpub _ eq_refl) as [Hsig Has]. rewrite bind_of_ok.
    destruct (write_receipt _ _ _ _ _) as [[[]|e|] ledger] eqn:Hw; intros [= <- <-].
    + right. exists signed, published, ledger. split_conj; [done..|]. by right.
    + right. exists signed, published, ledger. split_conj; [done..|]. left. eauto.
    + by apply write_receipt_no_panic in Hw.
  - rewrite bind_of_err. intros [= <- <-]. left. destruct (w_equivocation self); [|done].
    destruct (Receipt_sign (tamper receipt) (w_key self)); cbn in Hp; [done| |done].
    injection Hp as <-. eauto.
  - exfalso. destruct (w_equivocation self); [|done].
    destruct (Receipt_sign (tamper receipt) (w_key self)) eqn:E; cbn in Hp; [done|done|].
    by apply Receipt_sign_no_panic in E.
Qed.

Lemma commit_cases now tx_hash committer self r self' :
  commit now tx_hash committer self = (r, self') ->
  (exists e, r = Err e /\ (forall e', e <> Storage e') /\ self' = self) \/
  (exists e ledger, r = Err (Storage e) /\ self' = set_ledger self ledger) \/
  exists signed ledger, r = Ok signed /\
    outstanding_for (w_pending self) committer < dl_max_outstanding (w_deadline self) /\
    Receipt_sign (commit_ticket now tx_hash committer self) (w_key self) = Ok signed /\
    write_receipt (w_seq self) None (Outcome_as_u8 Pending) (SignedReceipt_to_bytes signed)
      (w_ledger self) = (Ok tt, ledger) /\
    self' = advance (set_pending (set_ledger self ledger)
      (PendingCommits_record (w_pending self) (w_seq self) tx_hash committer (i_slot now))) signed.
Proof.
  unfold commit. case_decide; [intros [= <- <-]; naive_solver|].
  destruct (Receipt_sign _ _) as [signed|e|] eqn:Hs;
    [|cbn; intros [= <- <-]; naive_solver|by apply Receipt_sign_no_panic in Hs].
  cbn [map_err]. destruct (write_receipt _ _ _ _ _) as [[[]|e|] ledger] eqn:Hw; intros [= <- <-].
  - right; right. exists signed, ledger. split_conj; try done. lia.
  - right; left. eauto.
  - by apply write_receipt_no_panic in Hw.
Qed.

(** ** The invariant *)

(** A commitment in the table is a ticket of the log. *)
Definition promised log (h : bytes) (e : Z * PendingCommit) : Prop :=
  0 <= e.1 /\ pc_tx_hash e.2 = h /\
  exists s, log !! Z.to_nat e.1 = Some s /\ r_mode (s_receipt s) = Commit /\
    r_tx_hash (s_receipt s) = h /\ r_committer (s_receipt s) = pc_committer e.2 /\
    r_ingress_slot (s_receipt s) = pc_committed_at_slot e.2.

Record writer_inv log self : Prop := {
  wi_log_id : length (w_log_id self) = LEN_LOG_ID;
  wi_chain : chained (verifying_key (w_key self)) (w_log_id self) log;
  wi_seq : w_seq self = Z.of_nat (length log);
  wi_prev : w_prev_receipt_hash self = link_at log (length log);
  wi_stored : forall i s, log !! i = Some s ->
    stored (w_ledger self) (Z.of_nat i) (SignedReceipt_to_bytes s);
  wi_events : w_events self = log;
  wi_published : w_published self = None;
  wi_pending : forall h e, w_pending self !! h = Some e -> promised log h e;
  wi_bound : forall c, outstanding_for (w_pending self) c <= dl_max_outstanding (w_deadline self);
}.

(** The configuration a writer keeps for its life. *)
Definition same_config self self' : Prop :=
  w_key self' = w_key self /\ w_log_id self' = w_log_id self /\
  w_equivocation self' = w_equivocation self /\ w_deadline self' = w_deadline self.

Lemma promised_app log log' h e : promised log h e -> promised (log ++ log') h e.
Proof.
  unfold promised. intros (H0 & Hh & s & Hl & Hs). split_conj; [done..|]. exists s. split; [|done].
  rewrite lookup_app_l; [done|]. by eapply lookup_lt_Some.
Qed.

Lemma length_link_at key log_id log i : chained key log_id log -> length (link_at log i) = LEN_HASH.
Proof.
  intros _. destruct i as [|j]; [done|]. cbn. destruct (log !! j); [apply length_sha256|done].
Qed.

(** One more receipt in the log: the writer after signing [published] and storing it. *)
Lemma writer_inv_advance log self published ledger pending :
  writer_inv log self -> Z.of_nat (length log) + 1 < 2 ^ 64 ->
  Receipt_wf (s_receipt published) -> r_log_id (s_receipt published) = w_log_id self ->
  r_seq (s_receipt published) = w_seq self ->
  r_prev_receipt_hash (s_receipt published) = w_prev_receipt_hash self ->
  Receipt_sign (s_receipt published) (w_key self) = Ok published ->
  (exists signature, write_receipt (w_seq self) signature (Outcome_as_u8 Pending)
    (SignedReceipt_to_bytes published) (w_ledger self) = (Ok tt, ledger)) ->
  (forall h e, pending !! h = Some e -> promised (log ++ [published]) h e) ->
  (forall c, outstanding_for pending c <= dl_max_outstanding (w_deadline self)) ->
  writer_inv (log ++ [published]) (broadcast (advance (set_pending (set_ledger self ledger) pending) published)).
Proof.
  intros Hi Hlen Hwf Hid Hseq Hprev Hsig [signature Hw] Hpend Hbound. destruct Hi.
  assert (is_u64 (w_seq self)) as Hu by (unfold is_u64; lia).
  split; cbn [w_log_id w_key w_seq w_prev_receipt_hash w_ledger w_events w_published w_pending w_deadline
              broadcast advance set_pending set_ledger option_list].
  - done.
  - apply chained_snoc; [done|]. split; try done; try congruence.
    + by eapply Receipt_sign_wf.
    + by eapply Receipt_sign_verifies.
  - rewrite wi_seq0, length_app, wrap64_small by (unfold is_u64; lia). cbn. lia.
  - by rewrite link_at_snoc.
  - intros i s [Hl|[? Hl]]%lookup_app_Some.
    + apply lookup_lt_Some in Hl as Hlt. eapply write_receipt_stored_other; eauto; unfold is_u64; lia.
    + apply list_lookup_singleton_Some in Hl as [Hi <-]. replace (Z.of_nat i) with (w_seq self) by lia.
      by eapply write_receipt_stored.
  - by rewrite wi_events0.
  - done.
  - done.
  - done.
Qed.

(** Storage calls that change no receipt, and a smaller table, keep the invariant. *)
Lemma writer_inv_set log self ledger pending :
  writer_inv log self ->
  (forall seq receipt, stored (w_ledger self) seq receipt -> stored ledger seq receipt) ->
  pending ⊆ w_pending self ->
  writer_inv log (set_ledger (set_pending self pending) ledger).
Proof.
  intros [] Hst Hsub. split; cbn; try done.
  - intros i s Hl. by apply Hst, wi_stored0.
  - intros h e He. apply wi_pending0. by eapply lookup_weaken.
  - intros c. etransitivity; [by apply outstanding_for_subseteq|done].
Qed.

Lemma handle_outcome_inv log self seq outcome :
  writer_inv log self -> writer_inv log (handle_outcome seq outcome self).
Proof.
  intros Hi. unfold handle_outcome. destruct (set_receipt_outcome _ _ _) as [r ledger] eqn:H.
  apply (writer_inv_set log self ledger (w_pending self) Hi); [|done].
  intros. by eapply set_receipt_outcome_stored.
Qed.

Lemma handle_outcome_config self seq outcome : same_config self (handle_outcome seq outcome self).
Proof. unfold handle_outcome. by destruct (set_receipt_outcome _ _ _). Qed.

Lemma same_config_trans self self1 self2 :
  same_config self self1 -> same_config self1 self2 -> same_config self self2.
Proof. unfold same_config. intuition congruence. Qed.

Lemma handle_sweep_inv log self now :
  writer_inv log self -> writer_inv log (handle_sweep now self) /\ same_config self (handle_sweep now self).
Proof.
  intros Hi. unfold handle_sweep, PendingCommits_expire.
  set (stale := map fst _). pose proof (remove_all_subseteq (w_pending self) stale) as Hsub.
  destruct (remove_all _ _) as [expired pending]. cbn [snd] in Hsub.
  assert (writer_inv log (set_pending self pending)) as Hi'
    by (exact (writer_inv_set log self (w_ledger self) pending Hi (fun _ _ H => H) Hsub)).
  assert (same_config self (set_pending self pending)) as Hc by done.
  revert Hi' Hc. generalize (set_pending self pending). induction expired as [|e expired IH]; [done|].
  intros self1 Hi1 Hc1. cbn. apply IH; [by apply handle_outcome_inv|].
  eapply same_config_trans; [exact Hc1|apply handle_outcome_config].
Qed.

Lemma handle_reveal_inv log self tx_hash tx_sig r self' :
  writer_inv log self -> handle_reveal tx_hash tx_sig self = (r, self') ->
  writer_inv log self' /\ same_config self self'.
Proof.
  intros Hi. unfold handle_reveal, PendingCommits_claim.
  destruct (w_pending self !! tx_hash); [|by intros [= <- <-]].
  destruct (index_receipt_signature _ _ _) as [r' ledger] eqn:H. intros [= <- <-]. split; [|done].
  apply (writer_inv_set log self ledger); [done| |apply delete_subseteq].
  intros. by eapply index_receipt_signature_stored.
Qed.

Lemma tamper_wf r : Receipt_wf (tamper r) <-> Receipt_wf r.
Proof. unfold Receipt_wf, tamper. cbn_receipt. by rewrite length_alter. Qed.

Lemma tamper_ne r : Receipt_wf r -> tamper r <> r.
Proof.
  intros (_ & _ & _ & Hlen & _) E%(f_equal r_tx_hash). unfold tamper in E. cbn_receipt. cbn [r_tx_hash] in E.
  destruct (r_tx_hash r) as [|b h]; [done|]. cbn in E. injection E as E.
  pose proof (byte_cases (fun b => negb (byte_val (byte_of (Z.lxor (byte_val b) 255)) =? byte_val b))
    ltac:(vm_compute; reflexivity) b) as Hb. cbn beta in Hb.
  by rewrite E, Z.eqb_refl in Hb.
Qed.

(** What a command adds to the log: the receipt it handed out, as published. *)
Definition logged self (reply : Reply) (ext : list SignedReceipt) : Prop :=
  match reply with
  | ReplyReceipt (Ok signed) => exists published, ext = [published] /\
      Receipt_sign (s_receipt signed) (w_key self) = Ok signed /\
      published_as (w_equivocation self) signed published
  | _ => ext = []
  end.

Lemma writer_inv_broadcast log self : writer_inv log self -> broadcast self = self.
Proof.
  intros []. destruct self. unfold broadcast. cbn in *. subst. cbn. by rewrite app_nil_r.
Qed.

Lemma plain_receipt_wf log self now tx_sig wire_bytes recent_blockhash :
  writer_inv log self -> command_wf now (CmdStamp tx_sig wire_bytes recent_blockhash) ->
  Z.of_nat (length log) + 1 < 2 ^ 64 -> Receipt_wf (plain_receipt now tx_sig wire_bytes recent_blockhash self).
Proof.
  intros [] (Hslot & Hmicros & Hsig & Hbh) Hlen. unfold Receipt_wf, plain_receipt. cbn_receipt.
  split_conj; try done.
  - unfold is_u64. lia.
  - apply length_sha256.
  - rewrite wi_prev0. by eapply length_link_at.
Qed.

Lemma handle_stamp_inv log self now tx_sig wire_bytes recent_blockhash r self' :
  writer_inv log self -> command_wf now (CmdStamp tx_sig wire_bytes recent_blockhash) ->
  Z.of_nat (length log) + 1 < 2 ^ 64 -> healthy (ReplyReceipt r) ->
  handle_stamp now tx_sig wire_bytes recent_blockhash self = (r, self') ->
  same_config self self' /\
  exists ext, writer_inv (log ++ ext) self' /\ logged self (ReplyReceipt r) ext.
Proof.
  intros Hi Hcmd Hlen Hh. unfold handle_stamp.
  destruct (stamp _ _ _ _ _) as [r1 self1] eqn:Hst. intros [= -> <-].
  apply stamp_cases in Hst as [(e & -> & ->)|
    (signed & published & ledger & Hs & Hsp & Has & [(e & -> & _)|(-> & Hw & ->)])]; [|by destruct (Hh e)|].
  - split; [done|]. exists []. rewrite app_nil_r. by rewrite (writer_inv_broadcast _ _ Hi).
  - split; [done|]. exists [published]. pose proof Hs as [_ Es]%Receipt_sign_Ok.
    assert (Receipt_wf (s_receipt signed)) as Hwf.
    { rewrite Es. by eapply plain_receipt_wf. }
    assert (s_receipt published = tamper (s_receipt signed) \/ published = signed) as Hor.
    { unfold published_as in Has. destruct (w_equivocation self && _); auto. }
    split.
    + assert (advance (set_ledger self ledger) published =
        advance (set_pending (set_ledger self ledger) (w_pending self)) published) as -> by done.
      assert (Receipt_wf (s_receipt published)) by (destruct Hor as [->| ->]; [by apply tamper_wf|done]).
      apply (writer_inv_advance _ self); try done; try (by eexists).
      * destruct Hor as [->| ->]; by rewrite Es.
      * destruct Hor as [->| ->]; by rewrite Es.
      * destruct Hor as [->| ->]; by rewrite Es.
      * intros. apply promised_app. by apply (wi_pending _ _ Hi).
      * apply (wi_bound _ _ Hi).
    + exists published. split_conj; try done. by rewrite Es in Hs |- *.
Qed.

Lemma handle_commit_inv log self now tx_hash committer r self' :
  writer_inv log self -> command_wf now (CmdCommit tx_hash committer) ->
  Z.of_nat (length log) + 1 < 2 ^ 64 -> healthy (ReplyReceipt r) ->
  handle_commit now tx_hash committer self = (r, self') ->
  same_config self self' /\
  exists ext, writer_inv (log ++ ext) self' /\ logged self (ReplyReceipt r) ext.
Proof.
  intros Hi (Hslot & Hmicros & Hh & Hc) Hlen Hhe. unfold handle_commit.
  destruct (commit _ _ _ _) as [r1 self1] eqn:Hst. intros [= -> <-].
  apply commit_cases in Hst as [(e & -> & _ & ->)|[(e & ledger & -> & _)|
    (signed & ledger & -> & Hout & Hs & Hw & ->)]]; [|by destruct (Hhe e)|].
  - split; [done|]. exists []. rewrite app_nil_r. by rewrite (writer_inv_broadcast _ _ Hi).
  - split; [done|]. exists [signed]. pose proof Hs as [_ Es]%Receipt_sign_Ok.
    assert (Receipt_wf (s_receipt signed)) as Hwf.
    { rewrite Es. destruct Hi. unfold Receipt_wf, commit_ticket. cbn_receipt. split_conj; try done.
      - unfold is_u64. lia.
      - rewrite wi_prev0. by eapply length_link_at. }
    split.
    + apply (writer_inv_advance _ self); try done; try (by eexists); try (by rewrite Es).
      * by rewrite Es in Hs |- *.
      * unfold PendingCommits_record. intros h e [[<- <-]|[_ He]]%lookup_insert_Some.
        -- unfold promised. cbn. destruct Hi. split_conj; [lia|done|]. exists signed.
           rewrite wi_seq0, Nat2Z.id, list_lookup_middle by done. by rewrite Es.
        -- apply promised_app. by apply (wi_pending _ _ Hi).
      * intros c. etransitivity; [apply outstanding_for_record|].
        pose proof (wi_bound _ _ Hi c). case_decide; [subst; lia|lia].
    + exists signed. split_conj; try done; [by rewrite Es in Hs |- *|].
      unfold published_as. rewrite Es. cbn. by rewrite andb_false_r.
Qed.

Lemma run_command_inv log self now command reply self' :
  writer_inv log self -> command_wf now command -> Z.of_nat (length log) + 1 < 2 ^ 64 ->
  healthy reply -> run_command now command self = (reply, self') ->
  same_config self self' /\ exists ext, writer_inv (log ++ ext) self' /\ logged self reply ext.
Proof.
  intros Hi Hwf Hlen Hh. destruct command; cbn [run_command].
  - destruct (handle_stamp _ _ _ _ _) eqn:E. intros [= <- <-]. by eapply handle_stamp_inv.
  - destruct (handle_commit _ _ _ _) eqn:E. intros [= <- <-]. by eapply handle_commit_inv.
  - destruct (handle_reveal _ _ _) eqn:E. intros [= <- <-].
    destruct (handle_reveal_inv _ _ _ _ _ _ Hi E). split; [done|]. exists []. by rewrite app_nil_r.
  - intros [= <- <-]. split; [apply handle_outcome_config|]. exists []. rewrite app_nil_r.
    split; [by apply handle_outcome_inv|done].
  - intros [= <- <-]. destruct (handle_sweep_inv log self now Hi). split; [done|]. exists [].
    by rewrite app_nil_r.
Qed.

Lemma logged_length self reply ext : logged self reply ext -> (length ext <= 1)%nat.
Proof.
  destruct reply as [[]| |]; cbn; try (intros ->; cbn; lia). intros (? & -> & _). cbn. lia.
Qed.

(** ** Whole runs *)

Definition commands_wf (commands : list (Instant * WriterCommand)) : Prop :=
  Forall (fun c => command_wf c.1 c.2) commands.

(** Everything the log gained over a run, and every receipt handed out with its published copy. *)
Lemma run_inv commands : forall log self replies self',
  writer_inv log self -> commands_wf commands ->
  Z.of_nat (length log) + Z.of_nat (length commands) < 2 ^ 64 ->
  Forall healthy replies -> ReceiptWriter_run commands self = (replies, self') ->
  same_config self self' /\ exists ext, writer_inv (log ++ ext) self' /\
    forall signed, ReplyReceipt (Ok signed) ∈ replies ->
      Receipt_sign (s_receipt signed) (w_key self) = Ok signed /\
      exists published, published ∈ ext /\ published_as (w_equivocation self) signed published.
Proof.
  induction commands as [|[now command] commands IH]; intros log self replies self' Hi Hwf Hlen Hh; cbn.
  { intros [= <- <-]. split; [done|]. exists []. rewrite app_nil_r. split; [done|].
    by intros signed ?%elem_of_nil. }
  destruct (run_command now command self) as [reply self1] eqn:Hc.
  destruct (ReceiptWriter_run commands self1) as [replies1 self2] eqn:Hr. intros [= <- <-].
  apply Forall_cons in Hwf as [Hwf1 Hwf2]. apply Forall_cons in Hh as [Hh1 Hh2]. cbn in Hlen.
  destruct (run_command_inv _ _ _ _ _ _ Hi Hwf1 ltac:(lia) Hh1 Hc) as (Hcfg & ext & Hi1 & Hlog).
  pose proof (logged_length _ _ _ Hlog) as Hext.
  destruct (IH _ _ _ _ Hi1 Hwf2 ltac:(rewrite length_app; lia) Hh2 Hr) as (Hcfg' & ext' & Hi2 & Hall).
  destruct Hcfg as (Hk & Hid & Heq & Hdl). rewrite Hk, Heq in Hall.
  split; [by eapply same_config_trans|]. exists (ext ++ ext'). rewrite app_assoc. split; [done|].
  intros signed [<-|Hin]%elem_of_cons.
  - destruct Hlog as (published & -> & Hs & Has). split; [done|]. exists published.
    split; [by left|done].
  - destruct (Hall _ Hin) as (Hs & published & Hp & Has). split; [done|]. exists published.
    split; [|done]. apply elem_of_app. by right.
Qed.

(** ** Positions no commitment of the table names *)

Record orphan (seq : Z) (value : bytes) self : Prop := {
  or_u64 : is_u64 seq;
  or_seq : seq < w_seq self;
  or_pending : forall h e, w_pending self !! h = Some e -> e.1 <> seq;
  or_row : row (w_ledger self) seq = Some value;
}.

Lemma set_receipt_outcome_other d r d' seq outcome seq' :
  is_u64 seq -> is_u64 seq' -> seq' <> seq ->
  set_receipt_outcome seq outcome d = (r, d') -> row d' seq' = row d seq'.
Proof.
  intros Hs Hs' Hne H. unfold row.
  destruct (set_receipt_outcome_holds _ _ _ _ _ H) as [->|(b & receipt' & _ & _ & Hh)]; [done|].
  rewrite Hh. by apply overlay_row_other.
Qed.

Lemma orphan_outcome seq value self seq' outcome :
  is_u64 seq' -> seq' <> seq -> orphan seq value self -> orphan seq value (handle_outcome seq' outcome self).
Proof.
  intros Hu Hne []. unfold handle_outcome. destruct (set_receipt_outcome _ _ _) as [r d] eqn:H.
  split; cbn; try done. rewrite <-or_row0. exact (set_receipt_outcome_other _ _ _ _ _ _ Hu or_u65 (not_eq_sym Hne) H).
Qed.

(** The positions a commitment names are sequence numbers of the log. *)
Lemma promised_u64 log h e : Z.of_nat (length log) < 2 ^ 64 -> promised log h e -> is_u64 e.1.
Proof.
  intros Hlen (H0 & _ & s & Hl%lookup_lt_Some & _). unfold is_u64. lia.
Qed.

Lemma orphan_sweep log seq value self now :
  writer_inv log self -> Z.of_nat (length log) < 2 ^ 64 ->
  orphan seq value self -> orphan seq value (handle_sweep now self).
Proof.
  intros Hi Hlen [Hu Hs Hp Hr]. unfold handle_sweep, PendingCommits_expire.
  set (stale := map fst _). pose proof (remove_all_subseteq (w_pending self) stale) as Hsub.
  pose proof (remove_all_elem (w_pending self) stale) as Hel.
  destruct (remove_all _ _) as [expired pending]. cbn [fst snd] in *.
  assert (forall e, e ∈ expired -> is_u64 e.1 /\ e.1 <> seq) as Hexp.
  { intros e (h & _ & Hl)%Hel. split; [|by eapply Hp].
    eapply promised_u64; [done|]. by apply (wi_pending _ _ Hi). }
  assert (orphan seq value (set_pending self pending)) as Ho.
  { split; cbn; try done. intros h e Hl. eapply Hp. by eapply lookup_weaken. }
  revert Ho. generalize (set_pending self pending). clear Hel. induction expired as [|e expired IH]; [done|].
  intros self1 Ho1. cbn. apply IH; [intros; apply Hexp; by right|].
  destruct (Hexp e ltac:(by left)). by apply orphan_outcome.
Qed.

Lemma orphan_reveal seq value self h tx_sig r self' :
  orphan seq value self -> handle_reveal h tx_sig self = (r, self') ->
  orphan seq value self' /\ forall commit, r <> Some (seq, commit).
Proof.
  intros [Hu Hs Hp Hr]. unfold handle_reveal, PendingCommits_claim.
  destruct (w_pending self !! h) as [e|] eqn:Hl; [|intros [= <- <-]; by split].
  destruct (index_receipt_signature _ _ _) as [u d] eqn:Hx. intros [= <- <-]. split.
  - split; cbn; try done.
    + intros h' e' [_ He']%lookup_delete_Some. by eapply Hp.
    + rewrite <-Hr. unfold row.
      destruct (index_receipt_signature_holds _ _ _ _ _ Hx) as [->|Hh]; [done|]. by rewrite Hh, overlay_sig_row.
  - intros commit [= ->]. exact (Hp _ _ Hl eq_refl).
Qed.

Lemma orphan_step log seq value self now command reply self' :
  writer_inv log self -> Z.of_nat (length log) + 1 < 2 ^ 64 -> orphan seq value self -> healthy reply ->
  command_wf now command -> (forall outcome, command <> CmdRecordOutcome seq outcome) ->
  run_command now command self = (reply, self') ->
  orphan seq value self' /\ forall commit, reply <> ReplyReveal (Some (seq, commit)).
Proof.
  intros Hi Hlen Ho Hh Hwf Hno. pose proof Ho as [Hu Hs Hp Hr]. pose proof (wi_seq _ _ Hi) as Hseq.
  assert (wrap64 (w_seq self + 1) = w_seq self + 1) as Hwrap by (apply wrap64_small; unfold is_u64; lia).
  destruct command as [tx_sig wire bh|h c|h tx_sig|seq' outcome|]; cbn [run_command].
  - unfold handle_stamp. destruct (stamp _ _ _ _ _) as [r1 self1] eqn:Hst. intros [= <- <-]. split; [|done].
    apply stamp_cases in Hst as [(e & -> & ->)|(signed & published & d & _ & _ & _ & [(e & -> & _)|(-> & Hw & ->)])];
      [by rewrite (writer_inv_broadcast _ _ Hi)|by destruct (Hh e)|].
    split; cbn; try done; [lia|]. rewrite <-Hr. unfold row.
    rewrite (write_receipt_Ok _ _ _ _ _ _ _ Hw), written_row. apply overlay_row_other; unfold is_u64 in *; lia.
  - unfold handle_commit. destruct (commit _ _ _ _) as [r1 self1] eqn:Hst. intros [= <- <-]. split; [|done].
    apply commit_cases in Hst as [(e & -> & _ & ->)|[(e & d & -> & _)|(signed & d & -> & _ & _ & Hw & ->)]];
      [by rewrite (writer_inv_broadcast _ _ Hi)|by destruct (Hh e)|].
    split; cbn; try done; [lia| |].
    + unfold PendingCommits_record. intros h' e [[_ <-]|[_ He]]%lookup_insert_Some; [cbn; lia|by eapply Hp].
    + rewrite <-Hr. unfold row.
      rewrite (write_receipt_Ok _ _ _ _ _ _ _ Hw), written_row. apply overlay_row_other; unfold is_u64 in *; lia.
  - destruct (handle_reveal _ _ _) as [r1 self1] eqn:Hst. intros [= <- <-].
    destruct (orphan_reveal _ _ _ _ _ _ _ Ho Hst) as [Ho' Hne]. split; [done|]. intros commit [= ->]. by eapply Hne.
  - intros [= <- <-]. split; [|done]. destruct Hwf as (_ & _ & Hu').
    apply orphan_outcome; [done| |done]. intros ->. by eapply Hno.
  - intros [= <- <-]. split; [|done]. apply (orphan_sweep log); [done|lia|done].
Qed.

Lemma orphan_run commands : forall log seq value self replies self',
  writer_inv log self -> Z.of_nat (length log) + Z.of_nat (length commands) < 2 ^ 64 ->
  orphan seq value self -> Forall healthy replies -> commands_wf commands ->
  (forall now outcome, (now, CmdRecordOutcome seq outcome) ∉ commands) ->
  ReceiptWriter_run commands self = (replies, self') ->
  orphan seq value self' /\ forall commit, ReplyReveal (Some (seq, commit)) ∉ replies.
Proof.
  induction commands as [|[now command] commands IH]; intros log seq value self replies self' Hi Hlen Ho Hh Hwf Hno;
    cbn [ReceiptWriter_run].
  { intros [= <- <-]. split; [done|]. intros commit ?%elem_of_nil. done. }
  destruct (run_command now command self) as [reply self1] eqn:Hc.
  destruct (ReceiptWriter_run commands self1) as [replies1 self2] eqn:Hr. intros [= <- <-].
  apply Forall_cons in Hwf as [Hwf1 Hwf2]. apply Forall_cons in Hh as [Hh1 Hh2]. cbn [length] in Hlen.
  destruct (run_command_inv _ _ _ _ _ _ Hi Hwf1 ltac:(lia) Hh1 Hc) as (_ & ext & Hi1 & Hlog).
  pose proof (logged_length _ _ _ Hlog) as Hext.
  assert (forall outcome, command <> CmdRecordOutcome seq outcome) as Hno1.
  { intros outcome ->. eapply Hno. by left. }
  assert (forall now outcome, (now, CmdRecordOutcome seq outcome) ∉ commands) as Hno2.
  { intros now' outcome Hin. eapply Hno. by right. }
  destruct (orphan_step _ _ _ _ _ _ _ _ Hi ltac:(lia) Ho Hh1 Hwf1 Hno1 Hc) as [Ho1 Hne1].
  destruct (IH _ _ _ _ _ _ Hi1 ltac:(rewrite length_app; lia) Ho1 Hh2 Hwf2 Hno2 Hr) as [Ho2 Hne2].
  split; [done|]. intros commit [E|Hin]%elem_of_cons; [by eapply Hne1|by eapply Hne2].
Qed.

(** A second commitment to one hash leaves the first position to nobody. *)
Lemma recommit_orphans log self self1 self2 now1 now2 h c1 c2 ticket1 ticket2 :
  writer_inv log self -> Z.of_nat (length log) + 2 < 2 ^ 64 ->
  handle_commit now1 h c1 self = (Ok ticket1, self1) -> handle_commit now2 h c2 self1 = (Ok ticket2, self2) ->
  orphan (r_seq (s_receipt ticket1)) (Outcome_as_u8 Pending :: SignedReceipt_to_bytes ticket1) self2.
Proof.
  intros Hi Hlen H1 H2. pose proof (wi_seq _ _ Hi) as Hseq. unfold handle_commit in H1, H2.
  destruct (commit now1 _ _ _) as [r1 self1'] eqn:S1. injection H1 as -> <-.
  apply commit_cases in S1 as [(? & [=] & _)|[(? & ? & [=] & _)|(s1 & d1 & [= <-] & _ & Hs1 & Hw1 & ->)]].
  destruct (commit now2 _ _ _) as [r2 self2'] eqn:S2. injection H2 as -> <-.
  apply commit_cases in S2 as [(? & [=] & _)|[(? & ? & [=] & _)|(s2 & d2 & [= <-] & _ & _ & Hw2 & ->)]].
  apply Receipt_sign_Ok in Hs1 as [_ E1].
  assert (r_seq (s_receipt ticket1) = w_seq self) as Hr by (by rewrite E1).
  cbn [broadcast advance set_pending set_ledger w_seq w_ledger w_pending] in *. rewrite Hr.
  assert (wrap64 (w_seq self + 1) = w_seq self + 1) as Hwrap by (apply wrap64_small; unfold is_u64; lia).
  rewrite Hwrap in *. split; cbn [broadcast advance set_pending set_ledger w_seq w_ledger w_pending].
  - unfold is_u64. lia.
  - rewrite wrap64_small by (unfold is_u64; lia). lia.
  - intros h' e. unfold PendingCommits_record.
    intros [[_ <-]|[Hne [[Heq _]|[_ He]]%lookup_insert_Some]]%lookup_insert_Some; [cbn; lia|done|].
    destruct (wi_pending _ _ Hi _ _ He) as (H0 & _ & s & Hl%lookup_lt_Some & _). lia.
  - unfold row. rewrite (write_receipt_Ok _ _ _ _ _ _ _ Hw2), written_row, overlay_row_other
      by (unfold is_u64; lia).
    rewrite (write_receipt_Ok _ _ _ _ _ _ _ Hw1), written_row. apply overlay_hit.
Qed.

Lemma length_mint_log_id key nanos minted : length (mint_log_id key nanos minted) = LEN_LOG_ID.
Proof. apply length_sha256. Qed.

Lemma writer_inv_new ledger key nanos minted equivocation deadline :
  0 <= dl_max_outstanding deadline ->
  writer_inv [] (ReceiptWriter_new ledger key nanos minted equivocation deadline).
Proof.
  intros Hd. split; cbn; try done. apply length_mint_log_id.
Qed.
End writer.
