(* ===== verification/Promises.v ===== *)
(** * What becomes of a promised position

    The table of open commitments seen from outside: which command changes which entry, so that over
    a whole run each position is handed out at most once, for the contents it was promised for, and is
    handed out when those contents are revealed in time and were not committed again. *)
From S2P Require Import Prelude Constants Crypto Receipt Columns Rocks Store ReceiptLog Pending Writer WriterLog.

Section promises.
Context `{C : Crypto} `{!CryptoLaws C} `{R : Rocks} `{!RocksLaws R}.
Implicit Types (self : ReceiptWriter) (log : list SignedReceipt) (h : bytes).

(** The entry of [h] after a command that was answered with [reply]. *)
Definition entry_after (now : Instant) (command : WriterCommand) (reply : Reply) self h : option (Z * PendingCommit) :=
  match command, reply with
  | CmdCommit h' committer, ReplyReceipt (Ok _) =>
      if decide (h' = h) then Some (w_seq self, MkPending h committer (i_slot now)) else w_pending self !! h
  | CmdReveal h' _, _ => if decide (h' = h) then None else w_pending self !! h
  | CmdSweep, _ =>
      match w_pending self !! h with
      | Some e =>
          if decide (pc_committed_at_slot e.2 < saturating_sub (i_slot now) (dl_slots (w_deadline self)))
          then None else Some e
      | None => None
      end
  | _, _ => w_pending self !! h
  end.

Lemma outcomes_pending entries self :
  w_pending (foldl (fun self (e : Z * PendingCommit) => handle_outcome e.1 Expired self) self entries) = w_pending self /\
  w_deadline (foldl (fun self (e : Z * PendingCommit) => handle_outcome e.1 Expired self) self entries) = w_deadline self /\
  w_seq (foldl (fun self (e : Z * PendingCommit) => handle_outcome e.1 Expired self) self entries) = w_seq self.
Proof.
  revert self. induction entries as [|e entries IH]; intros self; [done|]. cbn [foldl].
  destruct (IH (handle_outcome e.1 Expired self)) as (-> & -> & ->). unfold handle_outcome.
  by destruct (set_receipt_outcome _ _ _).
Qed.

(** A command changes the table as [entry_after] says and keeps the deadline; a commitment takes the
    next number, and no other entry has it afterwards. *)
Lemma run_command_entries now command self reply self' :
  run_command now command self = (reply, self') ->
  (forall h, w_pending self' !! h = entry_after now command reply self h) /\
  w_deadline self' = w_deadline self /\
  (w_seq self' = w_seq self \/ w_seq self' = wrap64 (w_seq self + 1)) /\
  (forall h committer signed, command = CmdCommit h committer -> reply = ReplyReceipt (Ok signed) ->
     r_seq (s_receipt signed) = w_seq self /\ w_seq self' = wrap64 (w_seq self + 1)) /\
  (forall h tx_sig, command = CmdReveal h tx_sig -> reply = ReplyReveal (w_pending self !! h)).
Proof.
  destruct command as [tx_sig wire bh|h c|h tx_sig|seq outcome|]; cbn [run_command entry_after].
  - unfold handle_stamp. destruct (stamp _ _ _ _ _) as [r self1] eqn:Hst. intros [= <- <-].
    apply stamp_cases in Hst as [(e & -> & ->)|(signed & published & d & _ & _ & _ & [(e & -> & _ & ->)|(-> & _ & ->)])];
      split_conj; auto; done.
  - unfold handle_commit. destruct (commit _ _ _ _) as [r self1] eqn:Hst. intros [= <- <-].
    apply commit_cases in Hst as [(e & -> & _ & ->)|[(e & d & -> & ->)|(signed & d & -> & _ & Hs & _ & ->)]];
      [split_conj; auto; done..|].
    apply Receipt_sign_Ok in Hs as [_ Es]. split_conj; [|done|by right| |done].
    + intros h'. cbn [broadcast advance set_pending set_ledger w_pending PendingCommits_record].
      unfold PendingCommits_record, PendingCommits. case_decide as Hh; [subst h'; by rewrite lookup_insert_eq|by rewrite lookup_insert_ne].
    + intros h' c' signed' _ [= <-]. by rewrite Es.
  - unfold handle_reveal, PendingCommits_claim. destruct (w_pending self !! h) as [e|] eqn:Hl.
    + destruct (index_receipt_signature _ _ _) as [u d]. intros [= <- <-]. split_conj; [|done|by left|done|].
      * intros h'. cbn [set_ledger set_pending w_pending]. unfold PendingCommits. case_decide; [subst; by rewrite lookup_delete_eq|by rewrite lookup_delete_ne].
      * intros ? ? [= <- <-]. by rewrite Hl.
    + intros [= <- <-]. split_conj; [|done|by left|done|intros ? ? [= <- <-]; by rewrite Hl].
      intros h'. case_decide; by subst.
  - intros [= <- <-]. unfold handle_outcome. destruct (set_receipt_outcome _ _ _). split_conj; auto; done.
  - unfold handle_sweep. set (cutoff := saturating_sub _ _).
    pose proof (proj2 (expire_spec (w_pending self) cutoff)) as Hexp.
    destruct (PendingCommits_expire (w_pending self) cutoff) as [expired pending]. intros [= <- <-].
    destruct (outcomes_pending expired (set_pending self pending)) as (-> & -> & ->).
    split_conj; [|done|by left|done|done]. intros h. exact (Hexp h).
Qed.

(** ** At most once *)

(** A position that no open commitment has, and that was given out. *)
Definition spent (seq : Z) self : Prop :=
  seq < w_seq self /\ forall h e, w_pending self !! h = Some e -> e.1 <> seq.

Lemma entry_after_cases now command reply self h e :
  entry_after now command reply self h = Some e -> w_pending self !! h = Some e \/ e.1 = w_seq self.
Proof. unfold entry_after. repeat case_match; repeat case_decide; intros; simplify_eq; auto. Qed.

Lemma spent_step log seq now command self reply self' :
  writer_inv log self -> Z.of_nat (length log) + 1 < 2 ^ 64 -> spent seq self ->
  run_command now command self = (reply, self') ->
  spent seq self' /\ forall commit, reply <> ReplyReveal (Some (seq, commit)).
Proof.
  intros Hi Hlen [Hs Hp] Hrun. pose proof (wi_seq _ _ Hi) as Hseq.
  destruct (run_command_entries _ _ _ _ _ Hrun) as (He & _ & Hnext & _ & Hrev). split.
  - split.
    + destruct Hnext as [->| ->]; [done|]. rewrite wrap64_small by (unfold is_u64; lia). lia.
    + intros h e. rewrite He. intros [Hl|Hl]%entry_after_cases; [by eapply Hp|lia].
  - intros commit ->. destruct command; cbn [run_command] in Hrun;
      try (by repeat case_match; simplify_eq).
    destruct (w_pending self !! tx_hash) as [e|] eqn:Hl; specialize (Hrev _ _ eq_refl); rewrite Hl in Hrev; [|done].
    injection Hrev as <-. by apply (Hp _ _ Hl).
Qed.

(** The entries of a writer's table name different positions. *)
Lemma reveal_spends log now h tx_sig self seq commit self' :
  writer_inv log self -> run_command now (CmdReveal h tx_sig) self = (ReplyReveal (Some (seq, commit)), self') ->
  w_pending self !! h = Some (seq, commit) /\ spent seq self'.
Proof.
  intros Hi Hrun. destruct (run_command_entries _ _ _ _ _ Hrun) as (He & _ & Hnext & _ & Hrev).
  specialize (Hrev _ _ eq_refl). injection Hrev as Hl. symmetry in Hl. split; [done|].
  destruct (wi_pending _ _ Hi _ _ Hl) as (H0 & _ & s & Hs & _ & Hh & _). cbn [fst] in *.
  assert (w_seq self' = w_seq self) as Hsame.
  { cbn [run_command] in Hrun. unfold handle_reveal, PendingCommits_claim in Hrun. rewrite Hl in Hrun.
    destruct (index_receipt_signature _ _ _). by injection Hrun as <-. }
  split; [rewrite Hsame, (wi_seq _ _ Hi); apply lookup_lt_Some in Hs; lia|].
  intros h' e. rewrite He. cbn [entry_after]. case_decide as Hne; [done|]. intros Hl' Heq.
  destruct (wi_pending _ _ Hi _ _ Hl') as (_ & _ & s' & Hs' & _ & Hh' & _). rewrite Heq in Hs'. congruence.
Qed.

Lemma spent_run commands : forall log seq self replies self',
  writer_inv log self -> commands_wf commands -> Z.of_nat (length log) + Z.of_nat (length commands) < 2 ^ 64 ->
  Forall healthy replies -> spent seq self -> ReceiptWriter_run commands self = (replies, self') ->
  forall commit, ReplyReveal (Some (seq, commit)) ∉ replies.
Proof.
  induction commands as [|[now command] commands IH]; intros log seq self replies self' Hi Hwf Hlen Hh Hs; cbn [ReceiptWriter_run].
  { intros [= <- <-] commit ?%elem_of_nil. done. }
  destruct (run_command now command self) as [reply self1] eqn:Hc.
  destruct (ReceiptWriter_run commands self1) as [replies1 self2] eqn:Hr. intros [= <- <-].
  apply Forall_cons in Hwf as [Hwf1 Hwf2], Hh as [Hh1 Hh2]. cbn [length] in Hlen.
  destruct (run_command_inv _ _ _ _ _ _ Hi Hwf1 ltac:(lia) Hh1 Hc) as (_ & ext & Hi1 & Hlog).
  pose proof (logged_length _ _ _ Hlog) as Hext.
  destruct (spent_step _ _ _ _ _ _ _ Hi ltac:(lia) Hs Hc) as [Hs1 Hne].
  intros commit [E|Hin]%elem_of_cons; [by apply (Hne commit)|].
  by eapply (IH _ _ _ _ _ Hi1 Hwf2 ltac:(rewrite length_app; lia) Hh2 Hs1 Hr).
Qed.

(** Only a reveal is answered with a position. *)
Lemma reveal_only now command self r self' :
  run_command now command self = (ReplyReveal r, self') -> exists h tx_sig, command = CmdReveal h tx_sig.
Proof. destruct command; cbn [run_command]; repeat case_match; intros; simplify_eq; eauto. Qed.

(** Over a run, the positions handed out are different, and each is that of a ticket for the contents
    revealed. *)
Lemma reveals_run commands : forall log self replies self',
  writer_inv log self -> commands_wf commands -> Z.of_nat (length log) + Z.of_nat (length commands) < 2 ^ 64 ->
  Forall healthy replies -> ReceiptWriter_run commands self = (replies, self') ->
  (forall i now h tx_sig e, commands !! i = Some (now, CmdReveal h tx_sig) ->
     replies !! i = Some (ReplyReveal (Some e)) -> promised (w_events self') h e) /\
  (forall i j seq c c', replies !! i = Some (ReplyReveal (Some (seq, c))) ->
     replies !! j = Some (ReplyReveal (Some (seq, c'))) -> i = j).
Proof.
  induction commands as [|[now command] commands IH]; intros log self replies self' Hi Hwf Hlen Hh; cbn [ReceiptWriter_run].
  { intros [= <- <-]. done. }
  destruct (run_command now command self) as [reply self1] eqn:Hc.
  destruct (ReceiptWriter_run commands self1) as [replies1 self2] eqn:Hr. intros [= <- <-].
  apply Forall_cons in Hwf as [Hwf1 Hwf2], Hh as [Hh1 Hh2]. cbn [length] in Hlen.
  destruct (run_command_inv _ _ _ _ _ _ Hi Hwf1 ltac:(lia) Hh1 Hc) as (_ & ext & Hi1 & Hlog).
  pose proof (logged_length _ _ _ Hlog) as Hext.
  destruct (run_inv _ _ _ _ _ Hi1 Hwf2 ltac:(rewrite length_app; lia) Hh2 Hr) as (_ & ext' & Hi2 & _).
  destruct (IH _ _ _ _ Hi1 Hwf2 ltac:(rewrite length_app; lia) Hh2 Hr) as [Hfor Hdiff].
  assert (forall seq c, reply = ReplyReveal (Some (seq, c)) -> forall c', ReplyReveal (Some (seq, c')) ∉ replies1) as Hspent.
  { intros seq c -> c'. destruct (reveal_only _ _ _ _ _ Hc) as (h & tx_sig & ->).
    destruct (reveal_spends _ _ _ _ _ _ _ _ Hi Hc) as [_ Hs].
    by eapply (spent_run _ _ _ _ _ _ Hi1 Hwf2 ltac:(rewrite length_app; lia) Hh2 Hs Hr). }
  split.
  - intros [|i] now' h tx_sig [seq c]; cbn; [|apply Hfor]. intros [= -> ->] [= ->].
    destruct (reveal_spends _ _ _ _ _ _ _ _ Hi Hc) as [Hl _]. rewrite (wi_events _ _ Hi2), <-app_assoc.
    by apply promised_app, (wi_pending _ _ Hi).
  - intros [|i] [|j] seq c c'; cbn; [done| | |].
    + intros [= ->] Hj%list_elem_of_lookup_2. by destruct (Hspent seq c eq_refl c').
    + intros Hi'%list_elem_of_lookup_2 [= ->]. by destruct (Hspent seq c' eq_refl c).
    + intros H1 H2. f_equal. by eapply Hdiff.
Qed.

(** ** In time, it is given *)

(** A command that leaves the commitment to [h] made at [slot] open. *)
Definition leaves_open (deadline : RevealDeadline) h (slot : Z) (now : Instant) (command : WriterCommand) : Prop :=
  match command with
  | CmdCommit h' _ | CmdReveal h' _ => h' <> h
  | CmdSweep => saturating_sub (i_slot now) (dl_slots deadline) <= slot
  | _ => True
  end.

Lemma open_run commands : forall self replies self' j now h tx_sig e,
  ReceiptWriter_run commands self = (replies, self') -> w_pending self !! h = Some e ->
  commands !! j = Some (now, CmdReveal h tx_sig) ->
  (forall k now' command, (k < j)%nat -> commands !! k = Some (now', command) ->
     leaves_open (w_deadline self) h (pc_committed_at_slot e.2) now' command) ->
  replies !! j = Some (ReplyReveal (Some e)).
Proof.
  induction commands as [|[now0 command] commands IH]; intros self replies self' j now h tx_sig e; [done|].
  cbn [ReceiptWriter_run]. destruct (run_command now0 command self) as [reply self1] eqn:Hc.
  destruct (ReceiptWriter_run commands self1) as [replies1 self2] eqn:Hr. intros [= <- <-] Hl.
  destruct (run_command_entries _ _ _ _ _ Hc) as (He & Hd & _ & _ & Hrev).
  destruct j as [|j]; cbn; [intros [= -> ->] _; by rewrite (Hrev _ _ eq_refl), Hl|].
  intros Hj Hopen. apply (IH self1 replies1 self2 j now h tx_sig e Hr); [|done|].
  - rewrite He. specialize (Hopen 0%nat now0 command ltac:(lia) eq_refl).
    unfold entry_after. destruct command; cbn in Hopen; rewrite ?Hl, ?decide_False by (done || lia); try done.
    by repeat case_match.
  - intros k now' command' Hk Hck. rewrite Hd. by apply (Hopen (S k) now' command'); [lia|].
Qed.

Lemma promise_kept commands : forall self replies self' i j now now' h committer ticket tx_sig,
  ReceiptWriter_run commands self = (replies, self') -> (i < j)%nat ->
  commands !! i = Some (now, CmdCommit h committer) -> replies !! i = Some (ReplyReceipt (Ok ticket)) ->
  commands !! j = Some (now', CmdReveal h tx_sig) ->
  (forall k now_k command, (i < k < j)%nat -> commands !! k = Some (now_k, command) ->
     leaves_open (w_deadline self) h (i_slot now) now_k command) ->
  replies !! j = Some (ReplyReveal (Some (r_seq (s_receipt ticket), MkPending h committer (i_slot now)))).
Proof.
  induction commands as [|[now0 command] commands IH]; intros self replies self' i j now now' h committer ticket tx_sig; [done|].
  cbn [ReceiptWriter_run]. destruct (run_command now0 command self) as [reply self1] eqn:Hc.
  destruct (ReceiptWriter_run commands self1) as [replies1 self2] eqn:Hr. intros [= <- <-] Hlt.
  destruct (run_command_entries _ _ _ _ _ Hc) as (He & Hd & _ & Hcom & _).
  destruct j as [|j]; [lia|]. destruct i as [|i]; cbn.
  - intros [= -> ->] [= ->] Hj Hopen. destruct (Hcom _ _ _ eq_refl eq_refl) as [Eseq _].
    apply (open_run commands self1 replies1 self2 j now' h tx_sig _ Hr); [|done|].
    + rewrite He. cbn [entry_after]. by rewrite decide_True, Eseq.
    + intros k now_k command Hk Hck. rewrite Hd. apply (Hopen (S k)); [lia|done].
  - intros Hi Hri Hj Hopen. apply (IH self1 replies1 self2 i j now now' h committer ticket tx_sig Hr); try done; [lia|].
    intros k now_k command' Hk Hck. rewrite Hd. apply (Hopen (S k)); [lia|done].
Qed.
End promises.
