(* ===== verification/WriterProperties.v ===== *)
(** * What the receipt writer promises

    The properties of the writer over whole runs, and two ways its promises fail. *)
From S2P Require Import Prelude Constants Crypto Receipt Evidence Columns Rocks Store ReceiptLog Pending Writer WriterLog Promises.

(** ** The log *)

(** C5: what a writer publishes is one chained log.  Whatever commands a fresh writer handles,
    in whatever order and at whatever times, as long as no write to disk fails: what it broadcast
    is numbered from zero without gaps under its one log id, every entry is valid, signed by its
    key and carries the hash of the entry before it, and every entry is stored under its
    number.  This holds also of the log an equivocating writer publishes. *)
Theorem writer_log_is_chain `{C : Crypto} `{!CryptoLaws C} `{R : Rocks} `{!RocksLaws R}
    (ledger : rocks) (key : SigningKey) (nanos minted : Z) (equivocation : bool)
    (deadline : RevealDeadline) (commands : list (Instant * WriterCommand)) (replies : list Reply)
    (self : ReceiptWriter)
    (Hd : 0 <= dl_max_outstanding deadline) (Hwf : commands_wf commands)
    (Hlen : Z.of_nat (length commands) < 2 ^ 64)
    (Hrun : ReceiptWriter_run commands
              (ReceiptWriter_new ledger key nanos minted equivocation deadline) = (replies, self))
    (Hh : Forall healthy replies) :
  let log := w_events self in
  chained (verifying_key key) (mint_log_id key nanos minted) log /\
  w_seq self = Z.of_nat (length log) /\
  (forall i s, log !! i = Some s -> stored (w_ledger self) (Z.of_nat i) (SignedReceipt_to_bytes s)).
Proof.
  destruct (run_inv commands [] _ _ _ (writer_inv_new ledger key nanos minted equivocation deadline Hd)
    Hwf Hlen Hh Hrun) as ((Hk & Hid & _) & log & Hi & _).
  cbn [app ReceiptWriter_new w_key w_log_id] in Hk, Hid, Hi. cbn zeta. rewrite (wi_events _ _ Hi).
  split_conj; [|apply (wi_seq _ _ Hi)|apply (wi_stored _ _ Hi)].
  rewrite <-Hid, <-Hk. apply (wi_chain _ _ Hi).
Qed.

#[local] Existing Instance toy_crypto.
#[local] Existing Instance toy_rocks.

(** A day in the life: a stamp, a commitment, its reveal, an outcome, a second stamp, a sweep. *)
Definition toy_wire1 : bytes := [x11; x22].
Definition toy_wire2 : bytes := [x33; x44; x55].
Definition toy_commands : list (Instant * WriterCommand) :=
  [(MkInstant 10 1000, CmdStamp (fill 64 x09) toy_wire1 (fill 32 x02));
   (MkInstant 10 1001, CmdCommit (toy_hash toy_wire2) (fill 32 x21));
   (MkInstant 11 1002, CmdReveal (toy_hash toy_wire2) (fill 64 x0a));
   (MkInstant 11 1003, CmdRecordOutcome 0 Accepted);
   (MkInstant 12 1004, CmdStamp (fill 64 x0b) toy_wire2 (fill 32 x03));
   (MkInstant 500 1005, CmdSweep)].

Definition toy_writer (equivocation : bool) : ReceiptWriter :=
  ReceiptWriter_new toy_disk (fill 32 x41) 77 0 equivocation RevealDeadline_default.
Definition toy_run (equivocation : bool) : list Reply * ReceiptWriter :=
  ReceiptWriter_run toy_commands (toy_writer equivocation).

Lemma toy_runs equivocation :
  ReceiptWriter_run toy_commands (toy_writer equivocation)
    = ((toy_run equivocation).1, (toy_run equivocation).2).
Proof. unfold toy_run. by destruct (ReceiptWriter_run _ _). Qed.

(** Whether a reply is not a failing disk's. *)
Definition healthy_b (reply : Reply) : bool :=
  match reply with ReplyReceipt (Err (Storage _)) => false | _ => true end.

Lemma healthy_check replies : forallb healthy_b replies = true -> Forall healthy replies.
Proof.
  intros H. apply Forall_forall. intros reply Hin e ->. rewrite forallb_forall in H.
  by apply list_elem_of_In, H in Hin.
Qed.

Lemma toy_commands_wf : commands_wf toy_commands.
Proof. repeat constructor; eval_done. Qed.

Lemma toy_healthy equivocation : Forall healthy (toy_run equivocation).1.
Proof. apply healthy_check. destruct equivocation; vm_compute; reflexivity. Qed.

Lemma writer_log_is_chain_witness :
  length (w_events (toy_run true).2) = 3%nat /\
  chained (toy_key (fill 32 x41)) (mint_log_id (fill 32 x41 : SigningKey) 77 0) (w_events (toy_run true).2).
Proof.
  split; [vm_compute; reflexivity|].
  apply (writer_log_is_chain (C := toy_crypto) (R := toy_rocks) toy_disk (fill 32 x41) 77 0 true RevealDeadline_default toy_commands
    (toy_run true).1 (toy_run true).2).
  - eval_done.
  - apply toy_commands_wf.
  - eval_done.
  - exact (toy_runs true).
  - apply toy_healthy.
Defined.

(** C8: an honest writer never contradicts itself, as long as no write to disk fails.  When the
    equivocation attack is off and no command is answered with a storage error, every receipt a
    client was handed is an entry of the published log; so any two receipts the node
    ever let out, to clients or to the public, that name one position are one and the same. *)
Theorem honest_writer_never_equivocates `{C : Crypto} `{!CryptoLaws C} `{R : Rocks} `{!RocksLaws R}
    (ledger : rocks) (key : SigningKey) (nanos minted : Z)
    (deadline : RevealDeadline) (commands : list (Instant * WriterCommand)) (replies : list Reply)
    (self : ReceiptWriter)
    (Hd : 0 <= dl_max_outstanding deadline) (Hwf : commands_wf commands)
    (Hlen : Z.of_nat (length commands) < 2 ^ 64)
    (Hrun : ReceiptWriter_run commands (ReceiptWriter_new ledger key nanos minted false deadline)
              = (replies, self))
    (Hh : Forall healthy replies) :
  (forall signed, ReplyReceipt (Ok signed) ∈ replies -> signed ∈ w_events self) /\
  (forall s1 s2,
    (ReplyReceipt (Ok s1) ∈ replies \/ s1 ∈ w_events self) ->
    (ReplyReceipt (Ok s2) ∈ replies \/ s2 ∈ w_events self) ->
    r_seq (s_receipt s1) = r_seq (s_receipt s2) -> s1 = s2).
Proof.
  destruct (run_inv commands [] _ _ _ (writer_inv_new ledger key nanos minted false deadline Hd)
    Hwf Hlen Hh Hrun) as (_ & log & Hi & Hall).
  change ([] ++ log) with log in Hi.
  assert (forall signed, ReplyReceipt (Ok signed) ∈ replies -> signed ∈ w_events self) as Hin.
  { intros signed Hs. destruct (Hall _ Hs) as (_ & published & Hp & Has). cbn in Has, Hp.
    rewrite (wi_events _ _ Hi). by rewrite <-Has. }
  split; [done|]. intros s1 s2 H1 H2. apply (chained_unique _ _ log _ _ (wi_chain _ _ Hi)).
  - rewrite <-(wi_events _ _ Hi). naive_solver.
  - rewrite <-(wi_events _ _ Hi). naive_solver.
Qed.

Definition first_receipt (replies : list Reply) : SignedReceipt :=
  match replies with ReplyReceipt (Ok s) :: _ => s | _ => MkSigned sample_receipt [] end.

Lemma honest_writer_never_equivocates_witness :
  ReplyReceipt (Ok (first_receipt (toy_run false).1)) ∈ (toy_run false).1 /\
  first_receipt (toy_run false).1 ∈ w_events (toy_run false).2.
Proof.
  assert (ReplyReceipt (Ok (first_receipt (toy_run false).1)) ∈ (toy_run false).1) as Hin
    by (vm_compute; left).
  split; [exact Hin|].
  apply (honest_writer_never_equivocates (C := toy_crypto) (R := toy_rocks) toy_disk (fill 32 x41) 77 0 RevealDeadline_default toy_commands
    (toy_run false).1 (toy_run false).2); [eval_done|apply toy_commands_wf|eval_done
    |exact (toy_runs false)|apply toy_healthy|exact Hin].
Defined.

(** an equivocating writer convicts itself.  Under the equivocation attack, every
    receipt handed to a client for a transaction stands against an entry of the published log:
    both are valid and signed by the node's key, both name the same position of the same log, and
    the program's contradiction check accepts the pair. *)
Theorem equivocating_writer_contradicts_itself `{C : Crypto} `{!CryptoLaws C} `{R : Rocks} `{!RocksLaws R}
    (ledger : rocks) (key : SigningKey) (nanos minted : Z)
    (deadline : RevealDeadline) (commands : list (Instant * WriterCommand)) (replies : list Reply)
    (self : ReceiptWriter) (signed : SignedReceipt)
    (Hd : 0 <= dl_max_outstanding deadline) (Hwf : commands_wf commands)
    (Hlen : Z.of_nat (length commands) < 2 ^ 64)
    (Hrun : ReceiptWriter_run commands (ReceiptWriter_new ledger key nanos minted true deadline)
              = (replies, self))
    (Hh : Forall healthy replies)
    (Hs : ReplyReceipt (Ok signed) ∈ replies) (Hm : r_mode (s_receipt signed) = Plain) :
  exists published, published ∈ w_events self /\
    SignedReceipt_verify signed (verifying_key key) = Ok tt /\
    SignedReceipt_verify published (verifying_key key) = Ok tt /\
    exists e, Equivocation_check (SignedReceipt_message signed) (SignedReceipt_message published) = Ok e.
Proof.
  destruct (run_inv commands [] _ _ _ (writer_inv_new ledger key nanos minted true deadline Hd)
    Hwf Hlen Hh Hrun) as ((Hk & _) & log & Hi & Hall).
  change ([] ++ log) with log in Hi. destruct (Hall _ Hs) as (Hsig & published & Hp & Has).
  cbn [ReceiptWriter_new w_key w_equivocation] in Hsig, Has, Hk.
  unfold published_as in Has. rewrite bool_decide_true in Has by done. cbn in Has.
  apply list_elem_of_lookup in Hp as [i Hp]. destruct (wi_chain _ _ Hi _ _ Hp) as [[Wp _] Hv _ _ _].
  rewrite Hk in Hv. exists published.
  assert (Receipt_wf (s_receipt signed)) as Ws by (apply tamper_wf; by rewrite <-Has).
  split_conj.
  - rewrite (wi_events _ _ Hi). by eapply list_elem_of_lookup_2.
  - by eapply Receipt_sign_verifies.
  - done.
  - eexists. apply Equivocation_check_receipts; [done|done|]. rewrite Has. split_conj; try done.
    intros E. by apply (tamper_ne _ Ws).
Qed.

Lemma equivocating_writer_contradicts_itself_witness :
  exists published, published ∈ w_events (toy_run true).2 /\
    exists e, Equivocation_check (SignedReceipt_message (first_receipt (toy_run true).1))
      (SignedReceipt_message published) = Ok e.
Proof.
  destruct (equivocating_writer_contradicts_itself (C := toy_crypto) (R := toy_rocks) toy_disk
    (fill 32 x41) 77 0 RevealDeadline_default toy_commands (toy_run true).1 (toy_run true).2
    (first_receipt (toy_run true).1)) as (published & Hp & _ & _ & He).
  - eval_done.
  - apply toy_commands_wf.
  - eval_done.
  - exact (toy_runs true).
  - apply toy_healthy.
  - vm_compute. left.
  - vm_compute. reflexivity.
  - exists published. split; [exact Hp|exact He].
Defined.

(** C34: a failing disk makes an honest writer contradict itself.  The row of a receipt is
    written before its signature index.  When the second write fails, the client gets an error
    and the sequence number is not spent, but the row, signed and readable by anybody, stays;
    the next stamp signs another receipt for the same position, and the program's check accepts
    the two as a contradiction. *)
Theorem half_written_receipt_contradicts `{C : Crypto} `{!CryptoLaws C} `{R : Rocks} `{!RocksLaws R}
    (log : list SignedReceipt) (self self1 self2 : ReceiptWriter) (now1 now2 : Instant)
    (tx_sig1 wire1 bh1 tx_sig2 wire2 bh2 : bytes) (e : LedgerError) (signed2 : SignedReceipt)
    (Hi : writer_inv log self) (Hlen : Z.of_nat (length log) + 1 < 2 ^ 64)
    (Honest : w_equivocation self = false)
    (W1 : command_wf now1 (CmdStamp tx_sig1 wire1 bh1)) (W2 : command_wf now2 (CmdStamp tx_sig2 wire2 bh2))
    (H1 : handle_stamp now1 tx_sig1 wire1 bh1 self = (Err (Storage e), self1))
    (Hrow : row (w_ledger self1) (w_seq self) <> row (w_ledger self) (w_seq self))
    (H2 : handle_stamp now2 tx_sig2 wire2 bh2 self1 = (Ok signed2, self2))
    (Hne : tx_sig1 <> tx_sig2) :
  exists signed1,
    row (w_ledger self1) (w_seq self) = Some (Outcome_as_u8 Pending :: SignedReceipt_to_bytes signed1) /\
    SignedReceipt_verify signed1 (verifying_key (w_key self)) = Ok tt /\
    SignedReceipt_verify signed2 (verifying_key (w_key self)) = Ok tt /\
    exists ev, Equivocation_check (SignedReceipt_message signed1) (SignedReceipt_message signed2) = Ok ev.
Proof.
  unfold handle_stamp in H1, H2.
  destruct (stamp now1 _ _ _ _) as [r1 self1'] eqn:S1. injection H1 as -> <-.
  apply stamp_cases in S1 as [(? & [=] & _)|(signed1 & p1 & ledger & Hs1 & _ & Has1 & [(e' & [= <-] & Hw & ->)|([=] & _)])].
  destruct (stamp now2 _ _ _ _) as [r2 self2'] eqn:S2. injection H2 as -> <-.
  apply stamp_cases in S2 as [(? & [=] & _)|(s2 & p2 & ledger2 & Hs2 & _ & _ & [(? & [=] & _)|([= <-] & _)])].
  unfold published_as in Has1. rewrite Honest in Has1. cbn in Has1. subst p1.
  cbn [broadcast set_ledger w_ledger w_seq w_key] in *.
  destruct (write_receipt_Err _ _ _ _ _ _ _ Hw) as [Heq|[_ Hh]].
  { destruct Hrow. unfold row. by rewrite Heq. }
  pose proof Hs1 as [_ E1]%Receipt_sign_Ok. pose proof Hs2 as [_ E2]%Receipt_sign_Ok.
  exists signed1. split_conj.
  - unfold row. rewrite Hh. apply overlay_hit.
  - by eapply Receipt_sign_verifies.
  - by eapply Receipt_sign_verifies.
  - eexists. unfold SignedReceipt_message. apply Equivocation_check_receipts; rewrite ?E1, ?E2; cbn [s_receipt].
    + by eapply plain_receipt_wf.
    + by apply (plain_receipt_wf log self).
    + split_conj; try done. by intros [=].
Qed.

(** The second write, and only it, fails. *)
Definition failing_writer : ReceiptWriter :=
  ReceiptWriter_new (MkToyDb toy_empty [false; true] 0) (fill 32 x41) 77 0 false RevealDeadline_default.
Definition failed_stamp : result StampError SignedReceipt * ReceiptWriter :=
  handle_stamp (MkInstant 10 1000) (fill 64 x09) toy_wire1 (fill 32 x02) failing_writer.
Definition retried_stamp : result StampError SignedReceipt * ReceiptWriter :=
  handle_stamp (MkInstant 11 1001) (fill 64 x0b) toy_wire2 (fill 32 x03) failed_stamp.2.

Lemma half_written_receipt_contradicts_witness :
  exists signed1 signed2,
    row (w_ledger failed_stamp.2) 0 = Some (Outcome_as_u8 Pending :: SignedReceipt_to_bytes signed1) /\
    retried_stamp.1 = Ok signed2 /\
    exists ev, Equivocation_check (SignedReceipt_message signed1) (SignedReceipt_message signed2) = Ok ev.
Proof.
  assert (exists signed2, retried_stamp.1 = Ok signed2) as [signed2 H2].
  { destruct retried_stamp.1 eqn:E; [eauto|exfalso..]; vm_compute in E; discriminate E. }
  assert (exists self1, failed_stamp = (Err (Storage RocksDb), self1)) as [self1 H1].
  { unfold failed_stamp. destruct (handle_stamp _ _ _ _ failing_writer) as [r self1] eqn:E. exists self1.
    assert (r = Err (Storage RocksDb)) as ->; [|done].
    rewrite <-(f_equal fst E : _ = r). vm_compute. reflexivity. }
  destruct (half_written_receipt_contradicts (C := toy_crypto) (R := toy_rocks) [] failing_writer self1 retried_stamp.2
    (MkInstant 10 1000) (MkInstant 11 1001) (fill 64 x09) toy_wire1 (fill 32 x02) (fill 64 x0b) toy_wire2
    (fill 32 x03) RocksDb signed2) as (signed1 & Hrow & _ & _ & Hev).
  - apply writer_inv_new. eval_done.
  - eval_done.
  - reflexivity.
  - split_conj; eval_done.
  - split_conj; eval_done.
  - exact H1.
  - rewrite <-(f_equal snd H1 : failed_stamp.2 = self1). vm_compute. discriminate.
  - rewrite <-(f_equal snd H1 : failed_stamp.2 = self1). fold retried_stamp.
    rewrite <-H2. unfold retried_stamp. by destruct (handle_stamp _ _ _ _ failed_stamp.2).
  - eval_done.
  - exists signed1, signed2. rewrite (f_equal snd H1 : failed_stamp.2 = self1).
    split; [exact Hrow|]. split; [exact H2|exact Hev].
Defined.

(** ** Positions promised blind *)

(** C31: a promised position is given to what it was promised for, once and in time.  In any run of
    a fresh writer in which no command is answered with a storage error: a reveal is answered only with a position whose
    ticket, in the published log, is a commitment to exactly these contents, by the committer and at
    the slot it names; no position is handed out by two reveals of the run; a reveal that follows a
    commitment to the same contents is answered with that commitment's position, provided that in
    between the contents were neither committed nor revealed again and no sweep came later than the
    deadline; and every committer's open positions stay within the configured maximum. *)
Theorem promised_positions `{C : Crypto} `{!CryptoLaws C} `{R : Rocks} `{!RocksLaws R}
    (ledger : rocks) (key : SigningKey) (nanos minted : Z) (equivocation : bool)
    (deadline : RevealDeadline) (commands : list (Instant * WriterCommand)) (replies : list Reply)
    (self : ReceiptWriter)
    (Hd : 0 <= dl_max_outstanding deadline) (Hwf : commands_wf commands)
    (Hlen : Z.of_nat (length commands) < 2 ^ 64)
    (Hrun : ReceiptWriter_run commands
              (ReceiptWriter_new ledger key nanos minted equivocation deadline) = (replies, self))
    (Hh : Forall healthy replies) :
  (forall i now h tx_sig seq commit, commands !! i = Some (now, CmdReveal h tx_sig) ->
    replies !! i = Some (ReplyReveal (Some (seq, commit))) ->
    exists ticket, w_events self !! Z.to_nat seq = Some ticket /\ r_mode (s_receipt ticket) = Commit /\
      r_tx_hash (s_receipt ticket) = h /\ r_committer (s_receipt ticket) = pc_committer commit /\
      r_ingress_slot (s_receipt ticket) = pc_committed_at_slot commit) /\
  (forall i j seq c c', replies !! i = Some (ReplyReveal (Some (seq, c))) ->
    replies !! j = Some (ReplyReveal (Some (seq, c'))) -> i = j) /\
  (forall i j now now' h committer ticket tx_sig, (i < j)%nat ->
    commands !! i = Some (now, CmdCommit h committer) -> replies !! i = Some (ReplyReceipt (Ok ticket)) ->
    commands !! j = Some (now', CmdReveal h tx_sig) ->
    (forall k now_k command, (i < k < j)%nat -> commands !! k = Some (now_k, command) ->
       leaves_open deadline h (i_slot now) now_k command) ->
    replies !! j = Some (ReplyReveal (Some (r_seq (s_receipt ticket), MkPending h committer (i_slot now))))) /\
  (forall c, outstanding_for (w_pending self) c <= dl_max_outstanding deadline).
Proof.
  pose proof (writer_inv_new ledger key nanos minted equivocation deadline Hd) as Hi0.
  destruct (run_inv commands [] _ _ _ Hi0 Hwf Hlen Hh Hrun) as ((_ & _ & _ & Hdl) & log & Hi & _).
  change ([] ++ log) with log in Hi. cbn in Hdl.
  destruct (reveals_run commands [] _ _ _ Hi0 Hwf Hlen Hh Hrun) as [Hfor Honce].
  split_conj; [|exact Honce| |rewrite <-Hdl; apply (wi_bound _ _ Hi)].
  - intros i now h tx_sig seq commit Hc Hr. destruct (Hfor i now h tx_sig (seq, commit) Hc Hr) as (_ & _ & H). exact H.
  - exact (fun i j now now' h committer ticket tx_sig => promise_kept commands _ _ _ i j now now' h committer ticket tx_sig Hrun).
Qed.

Lemma promised_positions_witness :
  exists ticket, w_events (toy_run false).2 !! 1%nat = Some ticket /\
    r_tx_hash (s_receipt ticket) = toy_hash toy_wire2 /\
    (toy_run false).1 !! 2%nat = Some (ReplyReveal (Some (1, MkPending (toy_hash toy_wire2) (fill 32 x21) 10))) /\
    forall j c, (toy_run false).1 !! j = Some (ReplyReveal (Some (1, c))) -> 2%nat = j.
Proof.
  destruct (promised_positions (C := toy_crypto) (R := toy_rocks) toy_disk (fill 32 x41) 77 0 false
    RevealDeadline_default toy_commands (toy_run false).1 (toy_run false).2) as (Hfor & Honce & Hkept & _).
  - eval_done.
  - apply toy_commands_wf.
  - eval_done.
  - apply (toy_runs false).
  - apply (toy_healthy false).
  - assert (exists t, (toy_run false).1 !! 1%nat = Some (ReplyReceipt (Ok t)) /\ r_seq (s_receipt t) = 1) as (t & Ht & Hs).
    { eexists. split; vm_compute; reflexivity. }
    assert ((toy_run false).1 !! 2%nat = Some (ReplyReveal (Some (1, MkPending (toy_hash toy_wire2) (fill 32 x21) 10)))) as H2.
    { rewrite <-Hs. apply (Hkept 1%nat 2%nat (MkInstant 10 1001) (MkInstant 11 1002) (toy_hash toy_wire2)
        (fill 32 x21) t (fill 64 x0a)); [lia|reflexivity|exact Ht|reflexivity|intros k ? ? ?; lia]. }
    destruct (Hfor 2%nat (MkInstant 11 1002) (toy_hash toy_wire2) (fill 64 x0a) 1 _ eq_refl H2)
      as (ticket & Hl & _ & Hh & _).
    exists ticket. split; [exact Hl|]. split; [exact Hh|]. split; [exact H2|].
    intros j c. apply (Honce _ _ _ _ _ H2).
Defined.

(** Committing the same contents twice loses the first position.  The table is keyed by the
    contents' hash, so a second commitment to one hash displaces the first: from then on, whatever
    commands follow, no reveal is ever answered with the first position and no sweep expires it;
    its row stays pending for good, although its ticket stands in the log. *)
Theorem recommitted_position_lost `{C : Crypto} `{!CryptoLaws C} `{R : Rocks} `{!RocksLaws R}
    (log : list SignedReceipt) (self self1 self2 self3 : ReceiptWriter) (now1 now2 : Instant)
    (h c1 c2 : bytes) (ticket1 ticket2 : SignedReceipt) (commands : list (Instant * WriterCommand))
    (replies : list Reply)
    (Hi : writer_inv log self) (Hlen : Z.of_nat (length log) + 2 + Z.of_nat (length commands) < 2 ^ 64)
    (W1 : command_wf now1 (CmdCommit h c1)) (W2 : command_wf now2 (CmdCommit h c2))
    (H1 : handle_commit now1 h c1 self = (Ok ticket1, self1))
    (H2 : handle_commit now2 h c2 self1 = (Ok ticket2, self2))
    (Hwf : commands_wf commands)
    (Hno : forall now outcome, (now, CmdRecordOutcome (r_seq (s_receipt ticket1)) outcome) ∉ commands)
    (Hrun : ReceiptWriter_run commands self2 = (replies, self3)) (Hh : Forall healthy replies) :
  (forall commit, ReplyReveal (Some (r_seq (s_receipt ticket1), commit)) ∉ replies) /\
  row (w_ledger self3) (r_seq (s_receipt ticket1)) =
    Some (Outcome_as_u8 Pending :: SignedReceipt_to_bytes ticket1).
Proof.
  destruct (handle_commit_inv _ _ _ _ _ _ _ Hi W1 ltac:(lia) (healthy_ok _) H1) as (_ & ext1 & Hi1 & E1).
  destruct E1 as (t1 & -> & _).
  destruct (handle_commit_inv _ _ _ _ _ _ _ Hi1 W2 ltac:(rewrite length_app; cbn; lia) (healthy_ok _) H2)
    as (_ & ext2 & Hi2 & E2). destruct E2 as (t2 & -> & _).
  assert (orphan (r_seq (s_receipt ticket1)) (Outcome_as_u8 Pending :: SignedReceipt_to_bytes ticket1) self2) as Ho
    by (eapply (recommit_orphans log self self1 self2); eauto; lia).
  destruct (orphan_run commands _ _ _ _ _ _ Hi2 ltac:(rewrite !length_app; cbn; lia) Ho Hh Hwf Hno Hrun)
    as [[] Hne]. done.
Qed.

Definition toy_recommit : list (Instant * WriterCommand) :=
  [(MkInstant 12 1002, CmdReveal (toy_hash toy_wire2) (fill 64 x0a)); (MkInstant 900 1003, CmdSweep);
   (MkInstant 901 1004, CmdReveal (toy_hash toy_wire2) (fill 64 x0a))].
Definition toy_commit1 := handle_commit (MkInstant 10 1000) (toy_hash toy_wire2) (fill 32 x21) (toy_writer false).
Definition toy_commit2 := handle_commit (MkInstant 11 1001) (toy_hash toy_wire2) (fill 32 x22) toy_commit1.2.
Definition toy_after := ReceiptWriter_run toy_recommit toy_commit2.2.

Lemma recommitted_position_lost_witness :
  exists ticket1, toy_commit1.1 = Ok ticket1 /\
    row (w_ledger toy_after.2) (r_seq (s_receipt ticket1)) =
      Some (Outcome_as_u8 Pending :: SignedReceipt_to_bytes ticket1).
Proof.
  assert (exists t self1, toy_commit1 = (Ok t, self1)) as (t1 & self1 & H1).
  { destruct toy_commit1 as [[t|e|] self1] eqn:E; [by exists t, self1|exfalso..];
      apply (f_equal fst) in E; vm_compute in E; discriminate E. }
  assert (exists t self2, toy_commit2 = (Ok t, self2)) as (t2 & self2 & H2).
  { destruct toy_commit2 as [[t|e|] self2] eqn:E; [by exists t, self2|exfalso..];
      apply (f_equal fst) in E; vm_compute in E; discriminate E. }
  exists t1. split; [by rewrite H1|].
  refine (proj2 (recommitted_position_lost (C := toy_crypto) (R := toy_rocks) [] (toy_writer false) self1 self2
    toy_after.2 (MkInstant 10 1000) (MkInstant 11 1001) (toy_hash toy_wire2) (fill 32 x21) (fill 32 x22) t1 t2
    toy_recommit toy_after.1 _ _ _ _ H1 _ _ _ _ _)).
  - apply writer_inv_new. eval_done.
  - eval_done.
  - split_conj; eval_done.
  - split_conj; eval_done.
  - rewrite <-H2. unfold toy_commit2. by rewrite H1.
  - repeat constructor; eval_done.
  - intros now outcome Hin. unfold toy_recommit in Hin. rewrite !elem_of_cons, elem_of_nil in Hin.
    destruct Hin as [Hin|[Hin|[Hin|[]]]]; apply (f_equal snd) in Hin; discriminate Hin.
  - unfold toy_after. rewrite H2. exact (surjective_pairing (ReceiptWriter_run toy_recommit self2)).
  - apply healthy_check. vm_compute. reflexivity.
Defined.
