(* ===== verification/Wire.v ===== *)
(** * What travels between the node, its clients and the watchtower

    serde_json, base64, bs58, bincode and the Solana transaction types are third-party crates:
    their functions are the fields of the classes below, and what the sources rely on of them is
    stated in the classes of laws.  [toy_wire] is an executable instance. *)
From stdpp Require Export strings.
From S2P Require Import Prelude Crypto.

#[global] Open Scope Z_scope.

(** ** serde_json, base64, bs58 *)

Class Json : Type := {
  (** [serde_json::Value] *)
  Value : Type;
  value_get : Value -> string -> option Value;
  value_pointer : Value -> string -> option Value;
  as_str : Value -> option string;
  as_u64 : Value -> option Z;
  as_array : Value -> option (list Value);
  is_null : Value -> bool;
  value_to_string : Value -> string;
  (** What [Serialize] and [json!] make of a value of the program. *)
  VNull : Value;
  VBool : bool -> Value;
  VString : string -> Value;
  VNumber : Z -> Value;
  VArray : list Value -> Value;
  VObject : list (string * Value) -> Value;
  (** [BASE64_STANDARD] and [bs58]. *)
  base64_encode : bytes -> string;
  base64_decode : string -> option bytes;
  bs58_encode : bytes -> string;
  bs58_decode : string -> option bytes;
}.

(** The field of a serialized object. *)
Fixpoint field {V} (k : string) (fields : list (string * V)) : option V :=
  match fields with
  | [] => None
  | (k', v) :: fields => if String.eqb k k' then Some v else field k fields
  end.

Class JsonLaws (J : Json) : Prop := {
  value_get_object k fields : NoDup (map fst fields) -> value_get (VObject fields) k = field k fields;
  as_str_string s : as_str (VString s) = Some s;
  as_u64_number n : is_u64 n -> as_u64 (VNumber n) = Some n;
  as_array_array l : as_array (VArray l) = Some l;
  is_null_null : is_null VNull = true;
  is_null_object fields : is_null (VObject fields) = false;
  base64_decode_encode b : base64_decode (base64_encode b) = Some b;
  bs58_decode_encode b : bs58_decode (bs58_encode b) = Some b;
}.

(** ** Solana transactions *)

(** [TransactionError]: the variants the sources name, and whatever else sanitizing or
    executing a transaction answers. *)
Inductive TransactionError : Type :=
| AlreadyProcessed
| ClusterMaintenance
| CommitCancelled
| UnbalancedTransaction
| OtherTransactionError (code : Z).

#[global] Instance TransactionError_eq_dec : EqDecision TransactionError.
Proof. solve_decision. Defined.

(** What the handlers and the scheduler read of a [SanitizedTransaction]: its first signature, the
    account keys with whether the message may write them, its recent block hash. *)
Record SanitizedTransaction : Type := MkSanitized {
  sz_signature : bytes;
  sz_accounts : list (bytes * bool);
  sz_recent_blockhash : bytes;
}.

Class Solana : Type := {
  VersionedTransaction : Type;
  (** [bincode::deserialize] *)
  bincode_deserialize : bytes -> option VersionedTransaction;
  tx_signatures : VersionedTransaction -> list bytes;
  static_account_keys : VersionedTransaction -> list bytes;
  (** [message.is_maybe_writable(index, None)] *)
  is_maybe_writable : VersionedTransaction -> nat -> bool;
  message_recent_blockhash : VersionedTransaction -> bytes;
  (** Whether the message is a v0 one with address table lookups. *)
  has_address_table_lookups : VersionedTransaction -> bool;
  (** [program_id_index] of each instruction. *)
  program_id_indexes : VersionedTransaction -> list Z;
  (** [SanitizeableTransaction::sanitize(true)] *)
  tx_sanitize : VersionedTransaction -> result TransactionError SanitizedTransaction;
  (** [SanitizeableTransaction::sanitize(false)] *)
  tx_sanitize_unverified : VersionedTransaction -> result TransactionError SanitizedTransaction;
  (** [bincode::serialize(&transaction.to_versioned_transaction())] *)
  serialize_sanitized : SanitizedTransaction -> option bytes;
  (** [VerifyingKey::from_bytes(key).is_ok()] and [key.verify(message, signature).is_ok()]. *)
  valid_verifying_key : bytes -> bool;
  ed25519_verify : bytes -> bytes -> bytes -> bool;
}.

(** Sanitizing a transaction without lookups keeps its signature, its block hash and, with no
    reserved accounts configured, the role each account key has in the message. *)
Class SolanaLaws (S : Solana) : Prop := {
  sanitize_signature t s : tx_sanitize t = Ok s -> head (tx_signatures t) = Some (sz_signature s);
  sanitize_blockhash t s : tx_sanitize t = Ok s -> message_recent_blockhash t = sz_recent_blockhash s;
  sanitize_total t : tx_sanitize t <> Panic;
  sanitize_unverified_signature t s : tx_sanitize_unverified t = Ok s -> head (tx_signatures t) = Some (sz_signature s);
  sanitize_unverified_total t : tx_sanitize_unverified t <> Panic;
  sanitize_accounts t s : tx_sanitize t = Ok s -> has_address_table_lookups t = false ->
    sz_accounts s = imap (fun index key => (key, is_maybe_writable t index)) (static_account_keys t);
  length_signatures t : Forall (fun s => length s = 64%nat) (tx_signatures t);
  length_blockhash t : length (message_recent_blockhash t) = 32%nat;
}.

(** ** An executable instance *)

#[local] Unset Elimination Schemes.
Inductive toy_value : Type :=
| TNull
| TBool (b : bool)
| TString (s : string)
| TNumber (n : Z)
| TArray (l : list toy_value)
| TObject (fields : list (string * toy_value)).
#[local] Set Elimination Schemes.

Definition toy_get (v : toy_value) (k : string) : option toy_value :=
  match v with TObject fields => field k fields | _ => None end.

(** Only the one pointer the sources follow. *)
Definition toy_pointer (v : toy_value) (p : string) : option toy_value :=
  if decide (p = "/transaction/0"%string)
  then match toy_get v "transaction" with Some (TArray l) => l !! 0%nat | _ => None end
  else None.

Definition toy_json : Json := {|
  Value := toy_value;
  value_get := toy_get;
  value_pointer := toy_pointer;
  as_str v := match v with TString s => Some s | _ => None end;
  as_u64 v := match v with TNumber n => Some n | _ => None end;
  as_array v := match v with TArray l => Some l | _ => None end;
  is_null v := match v with TNull => true | _ => false end;
  value_to_string _ := "value"%string;
  VNull := TNull;
  VBool := TBool;
  VString := TString;
  VNumber := TNumber;
  VArray := TArray;
  VObject := TObject;
  base64_encode := String.string_of_list_byte;
  base64_decode s := Some (String.list_byte_of_string s);
  bs58_encode := String.string_of_list_byte;
  bs58_decode s := Some (String.list_byte_of_string s);
|}.

#[global] Instance toy_json_laws : JsonLaws toy_json.
Proof.
  split; try done; intros b; exact (f_equal Some (String.list_byte_of_string_of_list_byte b)).
Qed.

Definition pad (n : nat) (b : bytes) : bytes := take n (b ++ zeros n).

Lemma length_pad n b : length (pad n b) = n.
Proof. unfold pad. rewrite length_take, length_app, length_zeros. lia. Qed.

(** A toy transaction: a signature, a block hash, a writable payer, and anything after that. *)
Definition toy_solana `{C : Crypto} : Solana := {|
  VersionedTransaction := bytes;
  bincode_deserialize b := if decide (128 <= length b)%nat then Some (take 128 b) else None;
  tx_signatures t := [pad 64 t];
  static_account_keys t := [slice t 96 128];
  is_maybe_writable _ _ := true;
  message_recent_blockhash t := pad 32 (slice t 64 96);
  has_address_table_lookups _ := false;
  program_id_indexes _ := [];
  tx_sanitize t := Ok {| sz_signature := pad 64 t; sz_accounts := [(slice t 96 128, true)];
                         sz_recent_blockhash := pad 32 (slice t 64 96) |};
  tx_sanitize_unverified t := Ok {| sz_signature := pad 64 t; sz_accounts := [(slice t 96 128, true)];
                                    sz_recent_blockhash := pad 32 (slice t 64 96) |};
  serialize_sanitized s := Some (sz_signature s ++ sz_recent_blockhash s ++ concat (map fst (sz_accounts s)));
  valid_verifying_key k := bool_decide (length k = 32%nat);
  ed25519_verify := ed25519_verify_strict;
|}.

#[global] Instance toy_solana_laws `{C : Crypto} : SolanaLaws toy_solana.
Proof.
  split.
  - by intros t s [= <-].
  - by intros t s [= <-].
  - done.
  - by intros t s [= <-].
  - done.
  - by intros t s [= <-].
  - intros t. apply Forall_singleton, length_pad.
  - intros t. apply length_pad.
Qed.
