(* ===== verification/Watchtower.v ===== *)
(** * What the watchtower reasons from: crates/watchtower

    The operator being watched, the observations, the indexes built from receipts and blocks, and
    the faults with the check that re-derives each of them.  The detectors themselves are in
    LogScan.v, BlockScan.v and Withholding.v. *)
From S2P Require Import Prelude Constants Crypto Receipt.

(** ** undetermined.rs *)

Inductive Undetermined : Type :=
| SequenceGap (after before : Z)
| MissingOrigin (lowest : Z)
| UnverifiableReceipt (seq : Z)
| ForeignLogReceipt (seq : Z)
| UnverifiableBlock (slot : Z)
| MissingReceipt (slot : Z)
| WithdrawnReceipt (slot : Z)
| UnknownBlockhash (seq : Z)
| NotYetExecuted (seq : Z)
| OperatorIssuedPair (slot : Z).

#[global] Instance Undetermined_eq_dec : EqDecision Undetermined.
Proof. solve_decision. Defined.

(** ** rejected.rs *)

Inductive Rejected : Type := ForeignLog | Unverifiable.

#[global] Instance Rejected_eq_dec : EqDecision Rejected.
Proof. solve_decision. Defined.

Definition Rejected_undetermined (self : Rejected) (seq : Z) : Undetermined :=
  match self with
  | ForeignLog => ForeignLogReceipt seq
  | Unverifiable => UnverifiableReceipt seq
  end.

(** ** operator.rs *)

Record Operator : Type := MkOperator { op_key : bytes; op_log_id : bytes }.

(** ** observed_transaction.rs, conflict.rs *)

Record ObservedTransaction : Type := MkObserved {
  o_signature : bytes;
  o_tx_hash : bytes;
  o_fee_payer : bytes;
  o_writable : list bytes;
  o_readonly : list bytes;
  o_wire_bytes : bytes;
}.

#[global] Instance ObservedTransaction_eq_dec : EqDecision ObservedTransaction.
Proof. solve_decision. Defined.

Definition is_issued_by (self : ObservedTransaction) (identity : bytes) : bool :=
  bool_decide (o_fee_payer self = identity).

Definition touches (txn : ObservedTransaction) (written : list bytes) : bool :=
  existsb (fun key => bool_decide (key ∈ o_writable txn) || bool_decide (key ∈ o_readonly txn)) written.

Definition conflicts (a b : ObservedTransaction) : bool :=
  touches a (o_writable b) || touches b (o_writable a).

(** ** observed_block.rs, order.rs *)

Record ObservedBlock : Type := MkBlock {
  b_slot : Z;
  b_previous_blockhash : bytes;
  b_blockhash : bytes;
  b_transactions : list ObservedTransaction;
}.

Inductive Order : Type := AsReported | Reversed | UnverifiableOrder.

(** ** execution.rs *)

Record Execution : Type := MkExecution { e_slot : Z; e_index : Z }.

#[global] Instance Execution_eq_dec : EqDecision Execution.
Proof. solve_decision. Defined.

Record ExecutionIndex : Type := MkExecutionIndex {
  x_by_signature : gmap bytes Execution;
  x_by_hash : gmap bytes Execution;
}.

Definition ExecutionIndex_default : ExecutionIndex := MkExecutionIndex ∅ ∅.

Definition ExecutionIndex_record (self : ExecutionIndex) (signature tx_hash : bytes)
    (execution : Execution) : ExecutionIndex :=
  {| x_by_signature := <[signature := execution]> (x_by_signature self);
     x_by_hash := <[tx_hash := execution]> (x_by_hash self) |}.

Definition ExecutionIndex_find (self : ExecutionIndex) (receipt : SignedReceipt) : option Execution :=
  match r_mode (s_receipt receipt) with
  | Commit => x_by_hash self !! r_tx_hash (s_receipt receipt)
  | Plain | Retract => x_by_signature self !! r_tx_sig (s_receipt receipt)
  | Reveal => None
  end.

Definition ExecutionIndex_len (self : ExecutionIndex) : nat := size (x_by_signature self).
Definition ExecutionIndex_is_empty (self : ExecutionIndex) : bool :=
  bool_decide (x_by_signature self = ∅).

(** ** blockhash_slots.rs *)

Record BlockhashSlots : Type := MkSlots {
  bs_slots : gmap bytes Z;
  bs_order : list bytes;
  bs_capacity : nat;
}.

Definition BlockhashSlots_DEFAULT_CAPACITY : nat := 2048.

Definition BlockhashSlots_new (capacity : nat) : BlockhashSlots :=
  MkSlots ∅ [] (Nat.max capacity 1).

(** The eviction loop: [pop_front] and [remove] while the queue is longer than [capacity]. *)
Fixpoint evict (capacity : nat) (slots : gmap bytes Z) (order : list bytes) : gmap bytes Z * list bytes :=
  match order with
  | evicted :: order' =>
      if decide (capacity < length order)%nat
      then evict capacity (delete evicted slots) order'
      else (slots, order)
  | [] => (slots, order)
  end.

Definition BlockhashSlots_record (self : BlockhashSlots) (blockhash : bytes) (slot : Z) : BlockhashSlots :=
  let slots := <[blockhash := slot]> (bs_slots self) in
  match bs_slots self !! blockhash with
  | Some _ => MkSlots slots (bs_order self) (bs_capacity self)
  | None =>
      let '(slots, order) := evict (bs_capacity self) slots (bs_order self ++ [blockhash]) in
      MkSlots slots order (bs_capacity self)
  end.

Definition BlockhashSlots_slot_of (self : BlockhashSlots) (blockhash : bytes) : option Z :=
  bs_slots self !! blockhash.

Definition BlockhashSlots_len (self : BlockhashSlots) : nat := size (bs_slots self).
Definition BlockhashSlots_is_empty (self : BlockhashSlots) : bool := bool_decide (bs_slots self = ∅).
Definition BlockhashSlots_default : BlockhashSlots :=
  BlockhashSlots_new BlockhashSlots_DEFAULT_CAPACITY.

(** ** fault.rs, reordered_transaction.rs *)

Record ReorderedTransaction : Type := MkReordered {
  rt_receipt : SignedReceipt;
  rt_wire_bytes : bytes;
  rt_index : Z;
}.

#[global] Instance ReorderedTransaction_eq_dec : EqDecision ReorderedTransaction.
Proof. solve_decision. Defined.

Inductive Fault : Type :=
| FaultEquivocation (seq : Z) (a b : SignedReceipt)
| FaultBrokenChain (seq : Z) (receipt predecessor : SignedReceipt)
| FaultBadOrigin (receipt : SignedReceipt)
| FaultUnticketed (slot index : Z) (signature wire_bytes : bytes)
| FaultWithheld (receipt : SignedReceipt) (execution : Execution) (held : Z)
| FaultWithdrawnButExecuted (receipt withdrawal : SignedReceipt) (execution : Execution)
    (previous_blockhash blockhash : bytes) (executed : list bytes)
| FaultAbsent (receipt : SignedReceipt) (head waited : Z)
| FaultNotRevealed (receipt : SignedReceipt) (head waited : Z)
| FaultImpossibleIngress (receipt : SignedReceipt) (blockhash_slot max_blockhash_age : Z)
| FaultReorder (slot : Z) (previous_blockhash blockhash : bytes) (executed : list bytes)
    (jumped delayed : ReorderedTransaction).

#[global] Instance Fault_eq_dec : EqDecision Fault.
Proof. solve_decision. Defined.

Inductive FaultError : Type :=
| NotSigned (seq : Z)
| MixedLogs
| NotContradictory
| NotAdjacent (a b : Z)
| ChainIntact
| OriginIntact
| NotAWithdrawal
| WithdrawalNamesAnotherReceipt
| WithdrawalPrecedesReceipt
| ReceiptDoesNotBindTransaction
| OrderNotReproduced
| NotAtClaimedIndex
| OrderRespected
| DeliveredInTime
| IngressPossible.

#[global] Instance FaultError_eq_dec : EqDecision FaultError.
Proof. solve_decision. Defined.

Definition Fault_seq (self : Fault) : Z :=
  match self with
  | FaultEquivocation seq _ _ | FaultBrokenChain seq _ _ => seq
  | FaultBadOrigin receipt => r_seq (s_receipt receipt)
  | FaultUnticketed _ _ _ _ => U64_MAX
  | FaultWithheld receipt _ _
  | FaultAbsent receipt _ _
  | FaultNotRevealed receipt _ _
  | FaultWithdrawnButExecuted receipt _ _ _ _ _
  | FaultImpossibleIngress receipt _ _ => r_seq (s_receipt receipt)
  | FaultReorder _ _ _ _ jumped _ => r_seq (s_receipt (rt_receipt jumped))
  end.

(** ** verdict.rs, scan.rs *)

Inductive Verdict : Type :=
| VerdictFault (fault : Fault)
| Clean
| CannotDetermine (reason : Undetermined).

Definition is_fault (self : Verdict) : bool :=
  match self with VerdictFault _ => true | _ => false end.

Record Scan : Type := MkScan {
  sc_faults : list Fault;
  sc_undetermined : list Undetermined;
  sc_examined : nat;
}.

Definition Scan_default : Scan := MkScan [] [] 0.

Definition Scan_record (self : Scan) (verdict : Verdict) : Scan :=
  let examined := S (sc_examined self) in
  match verdict with
  | VerdictFault fault => MkScan (sc_faults self ++ [fault]) (sc_undetermined self) examined
  | CannotDetermine reason => MkScan (sc_faults self) (sc_undetermined self ++ [reason]) examined
  | Clean => MkScan (sc_faults self) (sc_undetermined self) examined
  end.

Definition Scan_is_clean (self : Scan) : bool :=
  bool_decide (sc_faults self = []) && bool_decide (sc_undetermined self = []).

(** [Withdrawals::by_withdrawn_hash]. *)
Definition Withdrawals : Type := gmap bytes SignedReceipt.

(** ** Checks that need the cryptography *)

Section crypto.
Context `{C : Crypto}.

Definition Operator_accepts (self : Operator) (signed : SignedReceipt) : result Rejected unit :=
  _ ← ensure (bool_decide (r_log_id (s_receipt signed) = op_log_id self)) ForeignLog;
  ensure (negb (is_err (SignedReceipt_verify signed (op_key self)))) Unverifiable.

Definition fold (previous : bytes) (signatures : list bytes) : bytes :=
  blake3 (previous ++ concat signatures).

Definition Order_derive (block : ObservedBlock) : Order :=
  let forward := o_signature <$> b_transactions block in
  if decide (fold (b_previous_blockhash block) forward = b_blockhash block) then AsReported
  else if decide (fold (b_previous_blockhash block) (reverse forward) = b_blockhash block) then Reversed
  else UnverifiableOrder.

Definition executed_order (block : ObservedBlock) : option (list ObservedTransaction) :=
  match Order_derive block with
  | AsReported => Some (b_transactions block)
  | Reversed => Some (reverse (b_transactions block))
  | UnverifiableOrder => None
  end.

(** *** withdrawals.rs *)

Definition Withdrawals_step (operator : Operator) (withdrawals : Withdrawals) (signed : SignedReceipt)
    : Withdrawals :=
  if bool_decide (r_mode (s_receipt signed) <> Retract) || is_err (Operator_accepts operator signed)
  then withdrawals
  else <[r_tx_hash (s_receipt signed) := signed]> withdrawals.

Definition Withdrawals_build (receipts : list SignedReceipt) (operator : Operator) : Withdrawals :=
  foldl (Withdrawals_step operator) ∅ receipts.

Definition Withdrawals_of (self : Withdrawals) (receipt : SignedReceipt) : option SignedReceipt :=
  self !! receipt_hash receipt.

Definition Withdrawals_len (self : Withdrawals) : nat := size self.
Definition Withdrawals_is_empty (self : Withdrawals) : bool := bool_decide (self = ∅).

(** *** receipt_index.rs *)

Record ReceiptIndex : Type := MkIndex {
  ri_by_signature : gmap bytes SignedReceipt;
  ri_by_hash : gmap bytes SignedReceipt;
  ri_withdrawn : Withdrawals;
}.

Definition ReceiptIndex_step (operator : Operator) (index : ReceiptIndex) (signed : SignedReceipt)
    : ReceiptIndex :=
  if is_err (Operator_accepts operator signed) then index
  else
    match r_mode (s_receipt signed) with
    | Commit =>
        MkIndex (ri_by_signature index) (<[r_tx_hash (s_receipt signed) := signed]> (ri_by_hash index))
          (ri_withdrawn index)
    | Plain =>
        MkIndex (<[r_tx_sig (s_receipt signed) := signed]> (ri_by_signature index)) (ri_by_hash index)
          (ri_withdrawn index)
    | Retract => index
    | Reveal => index
    end.

Definition ReceiptIndex_build (receipts : list SignedReceipt) (operator : Operator) : ReceiptIndex :=
  foldl (ReceiptIndex_step operator) (MkIndex ∅ ∅ (Withdrawals_build receipts operator)) receipts.

Definition ReceiptIndex_find (self : ReceiptIndex) (txn : ObservedTransaction) : option SignedReceipt :=
  match ri_by_signature self !! o_signature txn with
  | Some receipt => Some receipt
  | None => ri_by_hash self !! o_tx_hash txn
  end.

Definition ReceiptIndex_withdrawal (self : ReceiptIndex) (receipt : SignedReceipt)
    : option SignedReceipt :=
  Withdrawals_of (ri_withdrawn self) receipt.

Definition ReceiptIndex_is_empty (self : ReceiptIndex) : bool :=
  bool_decide (ri_by_signature self = ∅) && bool_decide (ri_by_hash self = ∅).

(** *** Re-deriving a fault *)

Definition signed_by (receipt : SignedReceipt) (operator : bytes) : result FaultError unit :=
  map_err (fun _ => NotSigned (r_seq (s_receipt receipt))) (SignedReceipt_verify receipt operator).

Definition same_log (a b : SignedReceipt) : result FaultError unit :=
  ensure (bool_decide (r_log_id (s_receipt a) = r_log_id (s_receipt b))) MixedLogs.

Definition ReorderedTransaction_verify (self : ReorderedTransaction) (operator : bytes)
    : result FaultError unit :=
  _ ← map_err (fun _ => NotSigned (r_seq (s_receipt (rt_receipt self))))
        (SignedReceipt_verify (rt_receipt self) operator);
  ensure (bool_decide (tx_hash (rt_wire_bytes self) = r_tx_hash (s_receipt (rt_receipt self))))
    ReceiptDoesNotBindTransaction.

(** [executed.get(index as usize).filter(|s| s == tx_sig).ok_or(NotAtClaimedIndex)]. *)
Definition found_at (executed : list bytes) (index : Z) (tx_sig : bytes) : result FaultError unit :=
  ensure (bool_decide (executed !! Z.to_nat index = Some tx_sig)) NotAtClaimedIndex.

Definition at_index (executed : list bytes) (txn : ReorderedTransaction) : result FaultError unit :=
  found_at executed (rt_index txn) (r_tx_sig (s_receipt (rt_receipt txn))).

Definition Fault_verify (self : Fault) (operator : bytes) : result FaultError unit :=
  match self with
  | FaultEquivocation seq a b =>
      _ ← signed_by a operator;
      _ ← signed_by b operator;
      _ ← same_log a b;
      _ ← ensure (bool_decide (r_seq (s_receipt a) = seq) && bool_decide (r_seq (s_receipt b) = seq))
            (NotAdjacent (r_seq (s_receipt a)) (r_seq (s_receipt b)));
      ensure (bool_decide (a <> b)) NotContradictory
  | FaultBrokenChain seq receipt predecessor =>
      _ ← signed_by receipt operator;
      _ ← signed_by predecessor operator;
      _ ← same_log receipt predecessor;
      _ ← ensure (bool_decide (r_seq (s_receipt receipt) = seq) &&
                  bool_decide (wrap64 (r_seq (s_receipt predecessor) + 1) = seq))
            (NotAdjacent (r_seq (s_receipt predecessor)) (r_seq (s_receipt receipt)));
      ensure (bool_decide (r_prev_receipt_hash (s_receipt receipt) <> receipt_hash predecessor))
        ChainIntact
  | FaultBadOrigin receipt =>
      _ ← signed_by receipt operator;
      ensure (negb (bool_decide (r_seq (s_receipt receipt) = 0) &&
                    bool_decide (r_prev_receipt_hash (s_receipt receipt) = GENESIS_PREV_HASH)))
        OriginIntact
  | FaultWithheld receipt execution held =>
      _ ← signed_by receipt operator;
      ensure (negb ((e_slot execution <? r_ingress_slot (s_receipt receipt)) ||
                    bool_decide (e_slot execution - r_ingress_slot (s_receipt receipt) <> held)))
        DeliveredInTime
  | FaultWithdrawnButExecuted receipt withdrawal execution previous_blockhash blockhash executed =>
      _ ← signed_by receipt operator;
      _ ← signed_by withdrawal operator;
      _ ← same_log receipt withdrawal;
      _ ← ensure (bool_decide (r_mode (s_receipt withdrawal) = Retract)) NotAWithdrawal;
      _ ← ensure (bool_decide (r_tx_hash (s_receipt withdrawal) = receipt_hash receipt))
            WithdrawalNamesAnotherReceipt;
      _ ← ensure (negb (r_seq (s_receipt withdrawal) <=? r_seq (s_receipt receipt)))
            WithdrawalPrecedesReceipt;
      _ ← ensure (bool_decide (fold previous_blockhash executed = blockhash)) OrderNotReproduced;
      found_at executed (e_index execution) (r_tx_sig (s_receipt receipt))
  | FaultAbsent receipt _ _ | FaultNotRevealed receipt _ _ => signed_by receipt operator
  | FaultImpossibleIngress receipt blockhash_slot max_blockhash_age =>
      _ ← signed_by receipt operator;
      let ingress := r_ingress_slot (s_receipt receipt) in
      ensure ((ingress <? blockhash_slot) ||
              (max_blockhash_age <? saturating_sub ingress blockhash_slot)) IngressPossible
  | FaultUnticketed _ _ _ _ => Ok tt
  | FaultReorder _ previous_blockhash blockhash executed jumped delayed =>
      _ ← ReorderedTransaction_verify jumped operator;
      _ ← ReorderedTransaction_verify delayed operator;
      _ ← same_log (rt_receipt jumped) (rt_receipt delayed);
      _ ← ensure (bool_decide (fold previous_blockhash executed = blockhash)) OrderNotReproduced;
      _ ← at_index executed jumped;
      _ ← at_index executed delayed;
      _ ← ensure (negb (rt_index delayed <=? rt_index jumped)) OrderRespected;
      ensure (negb (r_seq (s_receipt (rt_receipt jumped)) <=? r_seq (s_receipt (rt_receipt delayed))))
        OrderRespected
  end.
End crypto.

(** ** Lemmas on acceptance *)

(** The statements the operator made about this log. *)
Definition accepted `{C : Crypto} (operator : Operator) (signed : SignedReceipt) : Prop :=
  r_log_id (s_receipt signed) = op_log_id operator /\
  SignedReceipt_verify signed (op_key operator) = Ok tt.

Section accepts.
Context `{C : Crypto}.
Implicit Types (operator : Operator) (signed : SignedReceipt).

#[global] Instance accepted_dec operator signed : Decision (accepted operator signed).
Proof. unfold accepted. apply _. Defined.

Lemma SignedReceipt_verify_no_panic signed key : SignedReceipt_verify signed key <> Panic.
Proof.
  unfold SignedReceipt_verify. pose proof (Receipt_validate_no_panic (s_receipt signed)).
  destruct (Receipt_validate _); try done. res_run. by destruct (ed25519_verify_strict _ _ _).
Qed.

Lemma Operator_accepts_spec operator signed :
  Operator_accepts operator signed =
    if decide (r_log_id (s_receipt signed) = op_log_id operator) then
      if decide (SignedReceipt_verify signed (op_key operator) = Ok tt) then Ok tt else Err Unverifiable
    else Err ForeignLog.
Proof.
  unfold Operator_accepts. destruct (decide (r_log_id _ = _)) as [E|E].
  - rewrite bool_decide_true by done. res_run.
    pose proof (SignedReceipt_verify_no_panic signed (op_key operator)).
    by destruct (SignedReceipt_verify _ _) as [[]| |]; repeat case_decide.
  - by rewrite bool_decide_false by done.
Qed.

Lemma Operator_accepts_Ok operator signed :
  accepted operator signed -> Operator_accepts operator signed = Ok tt.
Proof. intros [E1 E2]. rewrite Operator_accepts_spec. by rewrite !decide_True. Qed.

Lemma Operator_accepts_is_err operator signed :
  is_err (Operator_accepts operator signed) = negb (bool_decide (accepted operator signed)).
Proof.
  rewrite Operator_accepts_spec. case_bool_decide as Ha.
  - destruct Ha. by rewrite !decide_True.
  - repeat case_decide; try done. by destruct Ha.
Qed.
End accepts.

(** ** A scan as the list of its verdicts *)

Definition fault_of (verdict : Verdict) : option Fault :=
  match verdict with VerdictFault fault => Some fault | _ => None end.
Definition reason_of (verdict : Verdict) : option Undetermined :=
  match verdict with CannotDetermine reason => Some reason | _ => None end.

Definition scan_of (verdicts : list Verdict) : Scan := foldl Scan_record Scan_default verdicts.

Lemma foldl_record scan verdicts :
  foldl Scan_record scan verdicts =
    MkScan (sc_faults scan ++ omap fault_of verdicts)
      (sc_undetermined scan ++ omap reason_of verdicts) (sc_examined scan + length verdicts).
Proof.
  revert scan. induction verdicts as [|v vs IH]; intros scan; cbn.
  - rewrite !app_nil_r, Nat.add_0_r. by destruct scan.
  - rewrite IH. destruct v; cbn; rewrite <-?app_assoc; f_equal; lia.
Qed.

Lemma scan_of_faults verdicts f : f ∈ sc_faults (scan_of verdicts) <-> VerdictFault f ∈ verdicts.
Proof.
  unfold scan_of. rewrite foldl_record. cbn. rewrite list_elem_of_omap. split.
  - intros ([] & Hv & E); naive_solver.
  - intros Hv. by exists (VerdictFault f).
Qed.

Lemma scan_of_undetermined verdicts u :
  u ∈ sc_undetermined (scan_of verdicts) <-> CannotDetermine u ∈ verdicts.
Proof.
  unfold scan_of. rewrite foldl_record. cbn. rewrite list_elem_of_omap. split.
  - intros ([] & Hv & E); naive_solver.
  - intros Hv. by exists (CannotDetermine u).
Qed.

Lemma scan_of_clean verdicts : Scan_is_clean (scan_of verdicts) = true <-> Forall (eq Clean) verdicts.
Proof.
  unfold Scan_is_clean. rewrite andb_true_iff, !bool_decide_eq_true, Forall_forall. split.
  - intros [Hf Hu] [f| |u] Hv; [|done|].
    + apply scan_of_faults in Hv. rewrite Hf in Hv. by apply not_elem_of_nil in Hv.
    + apply scan_of_undetermined in Hv. rewrite Hu in Hv. by apply not_elem_of_nil in Hv.
  - intros Hall. split; apply elem_of_nil_inv; intros x Hx.
    + apply scan_of_faults, Hall in Hx. done.
    + apply scan_of_undetermined, Hall in Hx. done.
Qed.

Lemma scan_of_no_faults verdicts :
  (forall v, v ∈ verdicts -> is_fault v = false) -> sc_faults (scan_of verdicts) = [].
Proof. intros Hall. apply elem_of_nil_inv. intros f Hf%scan_of_faults%Hall. done. Qed.
