(* ===== verification/LogScan.v ===== *)
(** * The receipt-log scan: crates/watchtower/src/equivocation.rs

    [scan_receipts] sorts what it was given, sets aside what the operator did not say about this
    log, and looks for contradictions, broken links and bad origins in the rest.  Indexing and
    slicing can panic in Rust, so the scan returns a [result] without an error of its own. *)
From S2P Require Import Prelude Constants Crypto Receipt ReceiptLog Watchtower.

Definition seq_of (signed : SignedReceipt) : Z := r_seq (s_receipt signed).

Section scan.
Context `{C : Crypto}.
Implicit Types (operator : Operator) (receipts group : list SignedReceipt).

Definition check_belongs_here (signed : SignedReceipt) operator : Verdict :=
  match Operator_accepts operator signed with
  | Ok _ => Clean
  | Err reason => CannotDetermine (Rejected_undetermined reason (seq_of signed))
  | Panic => Clean
  end.

Definition check_one_statement_per_sequence (seq : Z) group : may_panic Verdict :=
  first ← expect (group !! 0%nat);
  match list_find (fun signed => signed <> first) group with
  | Some (_, other) => Ok (VerdictFault (FaultEquivocation seq first other))
  | None => Ok Clean
  end.

Definition check_origin (first : SignedReceipt) : Verdict :=
  if decide (seq_of first <> 0) then CannotDetermine (MissingOrigin (seq_of first))
  else if decide (r_prev_receipt_hash (s_receipt first) <> GENESIS_PREV_HASH)
  then VerdictFault (FaultBadOrigin first)
  else Clean.

Definition check_link (predecessor receipt : SignedReceipt) : Verdict :=
  if decide (wrap64 (seq_of predecessor + 1) <> seq_of receipt)
  then CannotDetermine (SequenceGap (seq_of predecessor) (seq_of receipt))
  else if decide (r_prev_receipt_hash (s_receipt receipt) <> receipt_hash predecessor)
  then VerdictFault (FaultBrokenChain (seq_of receipt) receipt predecessor)
  else Clean.

(** The loop over [ordered]: every entry is judged, the clean ones are kept. *)
Definition attribute operator (acc : Scan * list SignedReceipt) (signed : SignedReceipt)
    : Scan * list SignedReceipt :=
  let '(scan, attributable) := acc in
  let verdict := check_belongs_here signed operator in
  (Scan_record scan verdict,
   match verdict with Clean => attributable ++ [signed] | _ => attributable end).

(** The loop over [position]; every iteration advances, so [fuel] more than the number of
    entries left is enough, and running out of it is not a behaviour of the program. *)
Fixpoint statements (fuel : nat) (attributable : list SignedReceipt) (position : nat)
    (scan : Scan) (distinct : list SignedReceipt) : may_panic (Scan * list SignedReceipt) :=
  match fuel with
  | O => Panic
  | S fuel =>
      if decide (position < length attributable)%nat then
        at_position ← expect (attributable !! position);
        let seq := seq_of at_position in
        let end_ :=
          match list_find (fun signed => seq_of signed <> seq) (drop position attributable) with
          | Some (offset, _) => (position + offset)%nat
          | None => length attributable
          end in
        let group := take (end_ - position) (drop position attributable) in
        verdict ← check_one_statement_per_sequence seq group;
        first ← expect (group !! 0%nat);
        statements fuel attributable end_ (Scan_record scan verdict) (distinct ++ [first])
      else Ok (scan, distinct)
  end.

(** [distinct.windows(2)]. *)
Definition windows2 {A} (l : list A) : list (A * A) := zip l (tail l).

Definition by_seq (a b : SignedReceipt) : bool := seq_of a <=? seq_of b.

Definition scan_receipts receipts operator : may_panic Scan :=
  let ordered := sort_by by_seq receipts in
  let '(scan, attributable) := foldl (attribute operator) (Scan_default, []) ordered in
  '(scan, distinct) ← statements (S (length attributable)) attributable 0 scan [];
  let scan := match distinct with first :: _ => Scan_record scan (check_origin first) | [] => scan end in
  Ok (foldl (fun scan pair => Scan_record scan (check_link pair.1 pair.2)) scan (windows2 distinct)).
End scan.

(** ** Runs of one sequence number *)

Section runs.
Context {A : Type} (key : A -> Z).
Implicit Types (l : list A).

(** The maximal runs of entries with one key, each as its first entry and the rest. *)
Fixpoint runs l : list (A * list A) :=
  match l with
  | [] => []
  | x :: l' =>
      match runs l' with
      | (y, g) :: rs => if decide (key x = key y) then (x, y :: g) :: rs else (x, []) :: (y, g) :: rs
      | [] => [(x, [])]
      end
  end.

Definition flat (run : A * list A) : list A := run.1 :: run.2.

Lemma runs_flat l : concat (flat <$> runs l) = l.
Proof.
  induction l as [|x l IH]; [done|]. simpl. rewrite <-IH at 2.
  destruct (runs l) as [|[y g] rs]; [done|]. by case_decide.
Qed.

Lemma runs_same l x g : (x, g) ∈ runs l -> Forall (fun y => key y = key x) g.
Proof.
  revert x g. induction l as [|z l IH]; intros x g; simpl; [by intros ?%not_elem_of_nil|].
  destruct (runs l) as [|[y h] rs]; [by intros [= -> ->]%list_elem_of_singleton|].
  case_decide as E; intros [E'|Hin]%elem_of_cons; simplify_eq; try done; [|apply IH; by right|by apply IH].
  constructor; [done|]. eapply Forall_impl; [apply (IH y h); left|]. cbn. congruence.
Qed.

Lemma runs_head x l : exists g rs, runs (x :: l) = (x, g) :: rs.
Proof. simpl. destruct (runs l) as [|[y g] rs]; [eauto|]. case_decide; eauto. Qed.

(** The first run ends where the key first changes. *)
Lemma runs_span x l c :
  key x = c ->
  runs (x :: l) =
    match list_find (fun y => key y <> c) l with
    | Some (k, _) => (x, take k l) :: runs (drop k l)
    | None => [(x, l)]
    end.
Proof.
  intros <-. revert x. induction l as [|y l IH]; intros x; [done|].
  destruct (decide (key y = key x)) as [E|E].
  - specialize (IH y). rewrite E in IH. cbn [list_find]. rewrite decide_False by naive_solver.
    cbn [runs] in IH |- *. rewrite IH.
    destruct (list_find _ l) as [[k z]|]; cbn; by rewrite decide_True.
  - cbn [list_find]. rewrite decide_True by done.
    destruct (runs_head y l) as (g & rs & Hr).
    change (runs (drop 0 (y :: l))) with (runs (y :: l)). rewrite Hr.
    change (runs (x :: y :: l)) with
      (match runs (y :: l) with
       | (y, g) :: rs => if decide (key x = key y) then (x, y :: g) :: rs else (x, []) :: (y, g) :: rs
       | [] => [(x, [])]
       end).
    rewrite Hr. rewrite decide_False by congruence. done.
Qed.

Lemma runs_elem l y : y ∈ l -> exists x g, (x, g) ∈ runs l /\ y ∈ x :: g.
Proof.
  intros Hy. rewrite <-(runs_flat l) in Hy. apply list_elem_of_In, in_concat in Hy as (r & Hr & Hy).
  apply list_elem_of_In, list_elem_of_fmap in Hr as ([x g] & -> & Hr).
  exists x, g. split; [done|]. by apply list_elem_of_In.
Qed.

Lemma elem_runs l x g y : (x, g) ∈ runs l -> y ∈ x :: g -> y ∈ l.
Proof.
  intros Hr Hy. rewrite <-(runs_flat l). apply list_elem_of_In, in_concat. exists (x :: g).
  split; apply list_elem_of_In; [|done]. apply list_elem_of_fmap. by exists (x, g).
Qed.

Lemma runs_sorted l :
  StronglySorted (fun a b => key a <= key b) l ->
  StronglySorted (fun a b => key a < key b) (runs l).*1.
Proof.
  induction 1 as [|x l Hs IH Hx]; [constructor|]. cbn [runs].
  destruct (runs l) as [|[y g] rs] eqn:Hr; [repeat constructor|].
  assert (key x <= key y) as Hxy.
  { rewrite Forall_forall in Hx. apply Hx, (elem_runs l y g y); [rewrite Hr|]; left. }
  cbn in IH. apply StronglySorted_inv in IH as [IH Hy].
  case_decide as E; cbn; [|constructor; [by constructor|constructor; [lia|]]].
  - constructor; [done|]. eapply Forall_impl; [exact Hy|]. cbn. lia.
  - eapply Forall_impl; [exact Hy|]. cbn. lia.
Qed.

(** Entries with one key are in one run. *)
Lemma runs_together l x g y :
  StronglySorted (fun a b => key a <= key b) l -> (x, g) ∈ runs l -> y ∈ l -> key y = key x ->
  y ∈ x :: g.
Proof.
  intros Hs Hr (x' & g' & Hr' & Hy)%runs_elem E.
  assert (key x' = key x) as Ek.
  { rewrite <-E. apply elem_of_cons in Hy as [->|Hy]; [done|]. symmetry.
    pose proof (runs_same _ _ _ Hr') as Hsame. rewrite Forall_forall in Hsame. auto. }
  apply list_elem_of_lookup in Hr as [i Hi], Hr' as [j Hj].
  assert (i = j) as ->; [|congruence].
  pose proof (runs_sorted l Hs) as Hsort.
  destruct (Nat.lt_trichotomy i j) as [Hlt|[|Hlt]]; [|done|]; exfalso.
  - assert (key x < key x'); [|lia].
    apply (StronglySorted_lookup (fun a b => key a < key b) (runs l).*1 i j); [exact Hsort|rewrite list_lookup_fmap, ?Hi, ?Hj; reflexivity..|done].
  - assert (key x' < key x); [|lia].
    apply (StronglySorted_lookup (fun a b => key a < key b) (runs l).*1 j i); [exact Hsort|rewrite list_lookup_fmap, ?Hi, ?Hj; reflexivity..|done].
Qed.

(** A run is what the list holds under its key, in the list's order. *)
Lemma runs_filter l x g :
  StronglySorted (fun a b => key a <= key b) l -> (x, g) ∈ runs l -> filter (fun y => key y = key x) l = x :: g.
Proof.
  intros Hs Hr. pose proof (runs_same _ _ _ Hr) as Hsame. pose proof (runs_sorted l Hs) as Hsort.
  pose proof (runs_flat l) as Hflat.
  assert (forall rs, (forall r, r ∈ rs -> r ∈ runs l /\ key r.1 <> key x) ->
    filter (fun y => key y = key x) (concat (flat <$> rs)) = []) as Hnone.
  { induction rs as [|[y h] rs IH]; intros Hrs; [done|]. cbn [fmap list_fmap concat]. rewrite filter_app, IH, app_nil_r.
    - destruct (Hrs (y, h)) as [Hin Hne]; [by left|]. pose proof (runs_same _ _ _ Hin) as Hh.
      apply filter_none. constructor; [done|]. eapply Forall_impl; [exact Hh|]. cbn in *. congruence.
    - intros r Hin. apply Hrs. by right. }
  apply list_elem_of_split in Hr as (rs1 & rs2 & E). rewrite E in Hsort, Hflat, Hnone. rewrite fmap_app in Hsort. rewrite fmap_app in Hflat.
  cbn [fmap list_fmap fst] in Hsort, Hflat. rewrite concat_app in Hflat. cbn [concat] in Hflat.
  apply StronglySorted_split in Hsort as [Hlt Hgt].
  rewrite <-Hflat, !filter_app, !Hnone, app_nil_r; cbn [app].
  - rewrite filter_all; [done|]. by constructor.
  - intros r Hin. split; [apply elem_of_app; right; by right|]. rewrite Forall_forall in Hgt.
    pose proof (Hgt r.1 (list_elem_of_fmap_2 _ _ _ Hin)). cbn in *. lia.
  - intros r Hin. split; [apply elem_of_app; by left|].
    rewrite Forall_forall in Hlt. pose proof (Hlt r.1 (list_elem_of_fmap_2 _ _ _ Hin)). cbn in *. lia.
Qed.
End runs.

(** ** The scan as a list of verdicts *)

Section verdicts.
Context `{C : Crypto}.
Implicit Types (operator : Operator) (receipts group : list SignedReceipt).

(** What the operator said about this log, in sequence order. *)
Definition attributable operator receipts : list SignedReceipt :=
  filter (accepted operator) (sort_by by_seq receipts).

Definition distinct operator receipts : list SignedReceipt :=
  (runs seq_of (attributable operator receipts)).*1.

Definition run_verdict (run : SignedReceipt * list SignedReceipt) : Verdict :=
  match list_find (fun signed => signed <> run.1) run.2 with
  | Some (_, other) => VerdictFault (FaultEquivocation (seq_of run.1) run.1 other)
  | None => Clean
  end.

Definition log_verdicts receipts operator : list Verdict :=
  ((fun signed => check_belongs_here signed operator) <$> sort_by by_seq receipts) ++
  (run_verdict <$> runs seq_of (attributable operator receipts)) ++
  (check_origin <$> option_list (head (distinct operator receipts))) ++
  ((fun pair => check_link pair.1 pair.2) <$> windows2 (distinct operator receipts)).

Lemma check_belongs_here_spec signed operator :
  check_belongs_here signed operator =
    if decide (accepted operator signed) then Clean
    else CannotDetermine (if decide (r_log_id (s_receipt signed) = op_log_id operator)
                          then UnverifiableReceipt (seq_of signed)
                          else ForeignLogReceipt (seq_of signed)).
Proof.
  unfold check_belongs_here. rewrite Operator_accepts_spec. unfold accepted.
  repeat case_decide; naive_solver.
Qed.

Lemma attribute_spec operator receipts scan kept :
  foldl (attribute operator) (scan, kept) receipts =
    (foldl Scan_record scan ((fun signed => check_belongs_here signed operator) <$> receipts),
     kept ++ filter (accepted operator) receipts).
Proof.
  revert scan kept. induction receipts as [|r rs IH]; intros scan kept; [by rewrite app_nil_r|].
  cbn [foldl fmap list_fmap attribute]. rewrite IH, check_belongs_here_spec, filter_cons.
  case_decide; [by rewrite <-app_assoc|done].
Qed.

Lemma group_verdict seq x g :
  seq = seq_of x -> check_one_statement_per_sequence seq (x :: g) = Ok (run_verdict (x, g)).
Proof.
  intros ->. unfold check_one_statement_per_sequence, run_verdict. cbn.
  rewrite decide_False by naive_solver. by destruct (list_find _ g) as [[]|].
Qed.

Lemma statements_spec fuel receipts position scan firsts :
  (length receipts - position < fuel)%nat ->
  statements fuel receipts position scan firsts =
    Ok (foldl Scan_record scan (run_verdict <$> runs seq_of (drop position receipts)),
        firsts ++ (runs seq_of (drop position receipts)).*1).
Proof.
  revert position scan firsts. induction fuel as [|fuel IH]; intros position scan firsts Hf; [lia|].
  cbn [statements]. case_decide as Hp; [|by rewrite drop_ge, app_nil_r by lia].
  destruct (lookup_lt_is_Some_2 _ _ Hp) as [x Hx]. rewrite Hx. res_run.
  rewrite (drop_S _ _ _ Hx). cbn [list_find]. rewrite decide_False by naive_solver.
  rewrite (runs_span seq_of x _ (seq_of x)) by done.
  assert (length (drop (S position) receipts) = (length receipts - S position)%nat) as Hlen
    by apply length_drop.
  destruct (list_find _ (drop (S position) receipts)) as [[k y]|] eqn:Hfind; cbn [fmap option_fmap option_map prod_map fst snd].
  - apply list_find_Some in Hfind as (Hk%lookup_lt_Some & _).
    replace (position + S k - position)%nat with (S k) by lia. cbn [take].
    rewrite group_verdict by done. res_run. cbn [lookup list_lookup]. res_run.
    rewrite IH by lia. rewrite drop_drop, <-app_assoc. replace (S position + k)%nat with (position + S k)%nat by lia. done.
  - replace (length receipts - position)%nat with (S (length receipts - S position)) by lia. cbn [take].
    rewrite take_ge by lia. rewrite group_verdict by done. res_run. cbn [lookup list_lookup]. res_run.
    rewrite IH by lia. rewrite (drop_ge receipts (length receipts)) by lia. by rewrite app_nil_r.
Qed.

Lemma scan_receipts_verdicts receipts operator :
  scan_receipts receipts operator = Ok (scan_of (log_verdicts receipts operator)).
Proof.
  unfold scan_receipts. rewrite attribute_spec, app_nil_l. cbv beta iota zeta.
  change (filter _ (sort_by _ _)) with (attributable operator receipts).
  rewrite statements_spec by lia. rewrite drop_0. cbv [mbind result_bind]. cbn [app].
  change ((runs seq_of (attributable operator receipts)).*1) with (distinct operator receipts).
  unfold scan_of, log_verdicts. rewrite !foldl_app. rewrite (foldl_fmap _ _ (windows2 _)). f_equal. f_equal.
  by destruct (distinct operator receipts).
Qed.
End verdicts.

(** ** What a verdict of the scan rests on *)

Lemma elem_of_windows2 {A} (l : list A) a b :
  (a, b) ∈ windows2 l <-> exists i, l !! i = Some a /\ l !! S i = Some b.
Proof.
  unfold windows2. rewrite list_elem_of_lookup. split.
  - intros [i (a' & b' & [= -> ->] & Ha & Hb)%lookup_zip_with_Some]. exists i. by rewrite <-lookup_tail.
  - intros (i & Ha & Hb). exists i. apply lookup_zip_with_Some. exists a, b.
    by rewrite lookup_tail.
Qed.

Section detection.
Context `{C : Crypto}.
Implicit Types (operator : Operator) (receipts : list SignedReceipt).

Lemma attributable_elem operator receipts s :
  s ∈ attributable operator receipts <-> accepted operator s /\ s ∈ receipts.
Proof. unfold attributable. by rewrite list_elem_of_filter, sort_by_perm. Qed.

Lemma attributable_sorted operator receipts :
  StronglySorted (fun a b => seq_of a <= seq_of b) (attributable operator receipts).
Proof.
  assert (StronglySorted (fun a b => seq_of a <= seq_of b) (sort_by by_seq receipts)) as Hs.
  { eapply StronglySorted_impl; [|apply (sort_by_sorted by_seq)]; unfold by_seq; intros; lia. }
  unfold attributable. induction Hs as [|x l Hs IH Hx]; [constructor|].
  rewrite filter_cons. case_decide; [|done]. constructor; [done|].
  rewrite Forall_forall in Hx |- *. intros y [_ Hy]%list_elem_of_filter. auto.
Qed.

Lemma distinct_sorted operator receipts :
  StronglySorted (fun a b => seq_of a < seq_of b) (distinct operator receipts).
Proof. apply runs_sorted, attributable_sorted. Qed.

Lemma distinct_elem operator receipts s :
  s ∈ distinct operator receipts -> accepted operator s /\ s ∈ receipts.
Proof.
  intros ([x g] & -> & Hr)%list_elem_of_fmap. apply attributable_elem.
  apply (elem_runs seq_of _ x g); [done|left].
Qed.

Lemma distinct_covers operator receipts s :
  accepted operator s -> s ∈ receipts ->
  exists first, first ∈ distinct operator receipts /\ seq_of first = seq_of s.
Proof.
  intros Ha Hs. destruct (runs_elem seq_of (attributable operator receipts) s) as (x & g & Hr & Hin).
  { by apply attributable_elem. }
  exists x. split; [apply list_elem_of_fmap; by exists (x, g)|].
  apply elem_of_cons in Hin as [->|Hin]; [done|]. symmetry.
  pose proof (runs_same _ _ _ _ Hr) as Hsame. rewrite Forall_forall in Hsame. auto.
Qed.

Lemma log_verdicts_elem receipts operator v :
  v ∈ log_verdicts receipts operator <->
  (exists s, s ∈ receipts /\ v = check_belongs_here s operator) \/
  (exists x g, (x, g) ∈ runs seq_of (attributable operator receipts) /\ v = run_verdict (x, g)) \/
  (exists first, distinct operator receipts !! 0%nat = Some first /\ v = check_origin first) \/
  (exists i a b, distinct operator receipts !! i = Some a /\
     distinct operator receipts !! S i = Some b /\ v = check_link a b).
Proof.
  unfold log_verdicts. rewrite !elem_of_app, !list_elem_of_fmap. setoid_rewrite sort_by_perm.
  split; (intros [H|[H|[H|H]]]; [left|right; left|right; right; left|right; right; right]).
  - naive_solver.
  - destruct H as ([x g] & -> & H). by exists x, g.
  - destruct H as (x & -> & H). exists x. split; [|done]. rewrite <-head_lookup.
    destruct (head _); cbn in H; [by apply list_elem_of_singleton in H as ->|by apply not_elem_of_nil in H].
  - destruct H as ([a b] & -> & (i & ? & ?)%elem_of_windows2). by exists i, a, b.
  - naive_solver.
  - destruct H as (x & g & H & ->). by exists (x, g).
  - destruct H as (x & H & ->). exists x. split; [done|]. rewrite head_lookup, H. left.
  - destruct H as (i & a & b & Ha & Hb & ->). exists (a, b). split; [done|].
    apply elem_of_windows2. by exists i.
Qed.

(** Every accusation of the scan, with what it rests on. *)
Lemma log_fault receipts operator f :
  Forall SignedReceipt_wf receipts -> VerdictFault f ∈ log_verdicts receipts operator ->
  (exists a b, f = FaultEquivocation (seq_of a) a b /\ a ∈ attributable operator receipts /\
     b ∈ attributable operator receipts /\ seq_of b = seq_of a /\ b <> a) \/
  (exists r, f = FaultBadOrigin r /\ r ∈ attributable operator receipts /\ seq_of r = 0 /\
     r_prev_receipt_hash (s_receipt r) <> GENESIS_PREV_HASH) \/
  (exists p r, f = FaultBrokenChain (seq_of r) r p /\ r ∈ attributable operator receipts /\
     p ∈ attributable operator receipts /\ seq_of r = seq_of p + 1 /\
     r_prev_receipt_hash (s_receipt r) <> receipt_hash p).
Proof.
  intros Hwf [(s & Hs & E)|[(x & g & Hr & E)|[(r & Hr & E)|(i & a & b & Ha & Hb & E)]]]%log_verdicts_elem.
  - rewrite check_belongs_here_spec in E. by case_decide.
  - left. unfold run_verdict in E. cbn in E. destruct (list_find _ g) as [[j y]|] eqn:Hf; [|done].
    apply list_find_Some in Hf as (Hy & Hne & _). apply list_elem_of_lookup_2 in Hy.
    injection E as ->. exists x, y. pose proof (runs_same _ _ _ _ Hr) as Hsame.
    rewrite Forall_forall in Hsame.
    split_conj; [done|eapply elem_runs; [done|left]|eapply elem_runs; [done|by right]|auto|done].
  - right; left. unfold check_origin in E. apply list_elem_of_lookup_2, distinct_elem in Hr.
    repeat case_decide; try done. injection E as ->. exists r. rewrite attributable_elem. split_conj; naive_solver lia.
  - right; right. unfold check_link in E.
    assert (seq_of a < seq_of b) as Hlt.
    { eapply (StronglySorted_lookup (fun a b => seq_of a < seq_of b));
        [apply (distinct_sorted operator receipts)|done..|lia]. }
    apply list_elem_of_lookup_2, distinct_elem in Ha, Hb.
    repeat case_decide; try done. injection E as ->. exists a, b. rewrite !attributable_elem.
    rewrite Forall_forall in Hwf. destruct (Hwf b) as [(_ & Hub & _) _]; [naive_solver|].
    destruct (Hwf a) as [(_ & Hua & _) _]; [naive_solver|]. unfold seq_of in *.
    rewrite wrap64_small in * by (unfold is_u64 in *; lia). split_conj; naive_solver.
Qed.

(** A contradiction among what the operator said is reported at its position. *)
Lemma equivocation_reported receipts operator a b :
  accepted operator a -> accepted operator b -> a ∈ receipts -> b ∈ receipts ->
  seq_of a = seq_of b -> a <> b ->
  exists c d, VerdictFault (FaultEquivocation (seq_of a) c d) ∈ log_verdicts receipts operator.
Proof.
  intros Ha Hb Hina Hinb Eseq Hne.
  destruct (runs_elem seq_of (attributable operator receipts) a) as (x & g & Hr & Hag);
    [by apply attributable_elem|].
  pose proof (runs_same _ _ _ _ Hr) as Hsame. rewrite Forall_forall in Hsame.
  assert (seq_of a = seq_of x) as Ex by (apply elem_of_cons in Hag as [->|Hag]; auto).
  assert (b ∈ x :: g) as Hbg.
  { apply (runs_together seq_of (attributable operator receipts));
      [apply attributable_sorted|done|by apply attributable_elem|congruence]. }
  destruct (list_find (fun s => s <> x) g) as [[j y]|] eqn:Hf.
  - exists x, y. apply log_verdicts_elem. right; left. exists x, g. split; [done|].
    unfold run_verdict. cbn. by rewrite Hf, Ex.
  - apply list_find_None in Hf. rewrite Forall_forall in Hf.
    assert (forall s, s ∈ x :: g -> s = x) as Hall.
    { intros s [->|Hs]%elem_of_cons; [done|]. apply dec_stable, Hf, Hs. }
    destruct Hne. by rewrite (Hall a), (Hall b).
Qed.
End detection.

(** ** Honest logs *)

Section honest.
Context `{C : Crypto}.
Implicit Types (operator : Operator) (receipts log : list SignedReceipt).

(** No part of a chained log is accused. *)
Lemma chained_no_fault log receipts operator f :
  chained (op_key operator) (op_log_id operator) log -> Forall SignedReceipt_wf receipts ->
  (forall s, s ∈ receipts -> accepted operator s -> s ∈ log) ->
  VerdictFault f ∉ log_verdicts receipts operator.
Proof.
  intros Hc Hwf Hown Hf.
  destruct (log_fault _ _ _ Hwf Hf)
    as [(a & b & -> & Ha & Hb & E & Hne)|[(r & -> & Hr & E & Hne)|(p & r & -> & Hr & Hp & E & Hne)]];
    rewrite ?attributable_elem in *.
  - destruct Hne. apply (chained_unique _ _ log _ _ Hc); naive_solver.
  - destruct Hne. assert (r ∈ log) as [i Hi]%list_elem_of_lookup by naive_solver.
    pose proof (Hc _ _ Hi) as []. unfold seq_of in E. assert (i = 0%nat) as -> by lia. done.
  - destruct Hne. assert (r ∈ log) as [i Hi]%list_elem_of_lookup by naive_solver.
    assert (p ∈ log) as [j Hj]%list_elem_of_lookup by naive_solver.
    pose proof (Hc _ _ Hi) as [_ _ _ Ei El]. pose proof (Hc _ _ Hj) as [_ _ _ Ej _].
    unfold seq_of in E. assert (i = S j) as -> by lia. rewrite El. cbn. by rewrite Hj.
Qed.

Lemma chained_accepted log operator s :
  chained (op_key operator) (op_log_id operator) log -> s ∈ log -> accepted operator s.
Proof. intros Hc [i Hi]%list_elem_of_lookup. by destruct (Hc _ _ Hi). Qed.

(** A whole chained log leaves nothing undetermined. *)
Lemma chained_determined log receipts operator u :
  chained (op_key operator) (op_log_id operator) log -> (forall s, s ∈ receipts <-> s ∈ log) ->
  CannotDetermine u ∉ log_verdicts receipts operator.
Proof.
  intros Hc Hset Hu.
  assert (forall i s, log !! i = Some s ->
    exists s', s' ∈ distinct operator receipts /\ seq_of s' = Z.of_nat i) as Hcov.
  { intros i s Hi. destruct (distinct_covers operator receipts s) as (s' & Hs' & E);
      [by eapply chained_accepted, list_elem_of_lookup_2|by eapply Hset, list_elem_of_lookup_2|].
    exists s'. split; [done|]. rewrite E. apply (Hc _ _ Hi). }
  assert (forall i s, distinct operator receipts !! i = Some s ->
    exists j, log !! j = Some s /\ seq_of s = Z.of_nat j) as Hin.
  { intros i s [_ [j Hj]%Hset%list_elem_of_lookup]%list_elem_of_lookup_2%distinct_elem.
    exists j. split; [done|]. apply (Hc _ _ Hj). }
  apply log_verdicts_elem in Hu
    as [(s & Hs & E)|[(x & g & Hr & E)|[(r & Hr & E)|(i & a & b & Ha & Hb & E)]]].
  - rewrite check_belongs_here_spec, decide_True in E; [done|].
    apply (chained_accepted log); [done|]. by apply Hset.
  - unfold run_verdict in E. by destruct (list_find _ _) as [[]|].
  - destruct (Hin _ _ Hr) as (j & Hj & Ej). destruct (lookup_lt_is_Some_2 log 0) as [s Hs].
    { apply lookup_lt_Some in Hj. lia. }
    destruct (Hcov _ _ Hs) as (s' & [i Hi]%list_elem_of_lookup & Es').
    assert (seq_of r = 0) as Er.
    { destruct i as [|i]; [rewrite Hr in Hi; by injection Hi as ->|].
      pose proof (StronglySorted_lookup _ _ _ _ _ _ (distinct_sorted operator receipts) Hr Hi ltac:(lia)) as H.
      cbn in H. lia. }
    unfold check_origin in E. rewrite Er in E. by repeat case_decide.
  - destruct (Hin _ _ Ha) as (j & Hj & Ej), (Hin _ _ Hb) as (k & Hk & Ek).
    pose proof (StronglySorted_lookup _ _ _ _ _ _ (distinct_sorted operator receipts) Ha Hb ltac:(lia)) as Hlt.
    cbn in Hlt. pose proof (lookup_lt_Some _ _ _ Hk) as Hlen.
    destruct (lookup_lt_is_Some_2 log (S j)) as [s Hs]; [lia|].
    destruct (Hcov _ _ Hs) as (s' & Hs' & Es').
    pose proof (StronglySorted_between seq_of _ _ _ _ _ (distinct_sorted operator receipts) Ha Hb Hs').
    assert (k = S j) as -> by lia. pose proof (Hc _ _ Hk) as [[(_ & Hu & _) _] _ _ _ _].
    unfold check_link in E. unfold seq_of in *. unfold is_u64 in Hu.
    rewrite wrap64_small in E by (unfold is_u64; lia).
    rewrite decide_False in E by lia. by case_decide.
Qed.

(** A clean scan has read a chained log. *)
Lemma clean_chained receipts operator :
  Forall SignedReceipt_wf receipts -> Forall (eq Clean) (log_verdicts receipts operator) ->
  chained (op_key operator) (op_log_id operator) (distinct operator receipts) /\
  forall s, s ∈ receipts <-> s ∈ distinct operator receipts.
Proof.
  intros Hwf Hclean. rewrite Forall_forall in Hclean. rewrite Forall_forall in Hwf.
  assert (forall s, s ∈ receipts -> accepted operator s) as Hacc.
  { intros s Hs. destruct (decide (accepted operator s)) as [|Hn]; [done|exfalso].
    assert (Clean = check_belongs_here s operator) as E.
    { apply Hclean, log_verdicts_elem. left. by exists s. }
    by rewrite check_belongs_here_spec, decide_False in E. }
  set (l := distinct operator receipts).
  assert (forall s, s ∈ l -> s ∈ receipts) as Hsub by (intros s Hs; by eapply distinct_elem).
  assert (forall i s, l !! i = Some s ->
    seq_of s = Z.of_nat i /\ r_prev_receipt_hash (s_receipt s) = link_at l i) as Hpos.
  { induction i as [|i IH]; intros s Hs.
    - assert (Clean = check_origin s) as E.
      { apply Hclean, log_verdicts_elem. right; right; left. by exists s. }
      unfold check_origin in E. by repeat case_decide; try done; split; apply dec_stable.
    - destruct (lookup_lt_is_Some_2 l i) as [p Hp]; [apply lookup_lt_Some in Hs; lia|].
      assert (Clean = check_link p s) as E.
      { apply Hclean, log_verdicts_elem. right; right; right. by exists i, p, s. }
      destruct (IH _ Hp) as [Ep _].
      pose proof (StronglySorted_lookup _ _ _ _ _ _ (distinct_sorted operator receipts) Hp Hs ltac:(lia)) as Hlt.
      destruct (Hwf s) as [(_ & Hu & _) _]; [by eapply Hsub, list_elem_of_lookup_2|].
      unfold check_link in E. unfold seq_of in *. unfold is_u64 in Hu. cbn in Hlt.
      rewrite wrap64_small in E by (unfold is_u64; lia). cbn. rewrite Hp. cbn.
      destruct (decide (r_seq (s_receipt p) + 1 <> r_seq (s_receipt s))); [done|].
      case_decide; [done|]. split; [lia|done]. }
  split.
  - intros i s Hs. destruct (Hpos _ _ Hs). pose proof (list_elem_of_lookup_2 _ _ _ Hs) as Hin.
    destruct (Hacc s) as [Hlog Hv]; [auto|]. split; auto.
  - intros s. split; [|auto]. intros Hs.
    destruct (runs_elem seq_of (attributable operator receipts) s) as (x & g & Hr & Hin);
      [apply attributable_elem; auto|].
    assert (s = x) as ->; [|apply list_elem_of_fmap; by exists (x, g)].
    apply elem_of_cons in Hin as [->|Hin]; [done|].
    assert (Clean = run_verdict (x, g)) as E.
    { apply Hclean, log_verdicts_elem. right; left. by exists x, g. }
    unfold run_verdict in E. cbn in E. destruct (list_find _ g) as [[]|] eqn:Hf; [done|].
    apply list_find_None in Hf. rewrite Forall_forall in Hf. apply dec_stable. auto.
Qed.
End honest.

(** The receipts a fault carries. *)
Definition fault_receipts (f : Fault) : list SignedReceipt :=
  match f with
  | FaultEquivocation _ a b => [a; b]
  | FaultBrokenChain _ receipt predecessor => [receipt; predecessor]
  | FaultBadOrigin receipt => [receipt]
  | FaultUnticketed _ _ _ _ => []
  | FaultWithheld receipt _ _ | FaultAbsent receipt _ _ | FaultNotRevealed receipt _ _
  | FaultImpossibleIngress receipt _ _ => [receipt]
  | FaultWithdrawnButExecuted receipt withdrawal _ _ _ _ => [receipt; withdrawal]
  | FaultReorder _ _ _ _ jumped delayed => [rt_receipt jumped; rt_receipt delayed]
  end.

Lemma signed_by_accepted `{C : Crypto} operator signed :
  accepted operator signed -> signed_by signed (op_key operator) = Ok tt.
Proof. intros [_ Hv]. unfold signed_by. by rewrite Hv. Qed.

Lemma same_log_accepted `{C : Crypto} operator a b :
  accepted operator a -> accepted operator b -> same_log a b = Ok tt.
Proof. intros [Ea _] [Eb _]. unfold same_log. by rewrite bool_decide_true by congruence. Qed.
