(* ===== verification/BlockScan.v ===== *)
(** * The block scan: crates/watchtower/src/reorder.rs

    [scan_block] recovers the order in which a block's transactions ran and checks it against the
    receipts the operator issued. *)
From S2P Require Import Prelude Constants Crypto Receipt ReceiptLog Watchtower LogScan.

(** [iter().enumerate()]. *)
Definition enumerate {A} (l : list A) : list (nat * A) := imap pair l.

(** [index as u32]. *)
Definition as_u32 (n : nat) : Z := wrap32 (Z.of_nat n).

(** A [for] loop whose body may panic. *)
Fixpoint for_each {A B} (body : B -> A -> may_panic B) (state : B) (l : list A) : may_panic B :=
  match l with
  | [] => Ok state
  | x :: l' => state ← body state x; for_each body state l'
  end.

Section scan.
Context `{C : Crypto}.
Implicit Types (block : ObservedBlock) (receipts : ReceiptIndex) (operator : Operator) (identity : bytes).

Definition check_ticket_is_live block (index : Z) (txn : ObservedTransaction)
    (executed : list ObservedTransaction) receipts : Verdict :=
  match ReceiptIndex_find receipts txn with
  | None => VerdictFault (FaultUnticketed (b_slot block) index (o_signature txn) (o_wire_bytes txn))
  | Some receipt =>
      match ReceiptIndex_withdrawal receipts receipt with
      | None => Clean
      | Some withdrawal =>
          VerdictFault (FaultWithdrawnButExecuted receipt withdrawal
            {| e_slot := b_slot block; e_index := index |}
            (b_previous_blockhash block) (b_blockhash block) (o_signature <$> executed))
      end
  end.

Definition check_pair block (first_index : Z) (first : ObservedTransaction) (second_index : Z)
    (second : ObservedTransaction) receipts operator identity : may_panic Verdict :=
  if negb (conflicts first second) then Ok Clean
  else
    match ReceiptIndex_find receipts first, ReceiptIndex_find receipts second with
    | Some first_receipt, Some second_receipt =>
        if is_err (Operator_accepts operator first_receipt) ||
           is_err (Operator_accepts operator second_receipt)
        then Ok (CannotDetermine (MissingReceipt (b_slot block)))
        else if bool_decide (is_Some (ReceiptIndex_withdrawal receipts first_receipt)) ||
                bool_decide (is_Some (ReceiptIndex_withdrawal receipts second_receipt))
        then Ok (CannotDetermine (WithdrawnReceipt (b_slot block)))
        else if seq_of first_receipt <? seq_of second_receipt then Ok Clean
        else if is_issued_by first identity || is_issued_by second identity
        then Ok (CannotDetermine (OperatorIssuedPair (b_slot block)))
        else
          executed ← expect (executed_order block);
          Ok (VerdictFault (FaultReorder (b_slot block) (b_previous_blockhash block) (b_blockhash block)
                (o_signature <$> executed)
                {| rt_receipt := first_receipt; rt_wire_bytes := o_wire_bytes first;
                   rt_index := first_index |}
                {| rt_receipt := second_receipt; rt_wire_bytes := o_wire_bytes second;
                   rt_index := second_index |}))
    | _, _ => Ok (CannotDetermine (MissingReceipt (b_slot block)))
    end.

Definition scan_block block receipts operator identity : may_panic Scan :=
  match executed_order block with
  | None => Ok (Scan_record Scan_default (CannotDetermine (UnverifiableBlock (b_slot block))))
  | Some executed =>
      let scan :=
        foldl (fun scan '(index, txn) =>
          Scan_record scan (check_ticket_is_live block (as_u32 index) txn executed receipts))
          Scan_default (enumerate executed) in
      for_each (fun scan '(earlier, first) =>
        for_each (fun scan '(later, second) =>
          verdict ← check_pair block (as_u32 earlier) first (as_u32 later) second
                      receipts operator identity;
          Ok (Scan_record scan verdict))
          scan (drop (S earlier) (enumerate executed)))
        scan (enumerate executed)
  end.
End scan.

(** ** The indexes *)

(** Which receipts can stand behind a transaction. *)
Definition covers (signed : SignedReceipt) (txn : ObservedTransaction) : Prop :=
  (r_mode (s_receipt signed) = Plain /\ r_tx_sig (s_receipt signed) = o_signature txn) \/
  (r_mode (s_receipt signed) = Commit /\ r_tx_hash (s_receipt signed) = o_tx_hash txn).

(** A map filled by inserting, in order, the entries that satisfy [P]. *)
Section filled.
Context {K V : Type} `{Countable K} (P : V -> Prop) `{!forall v, Decision (P v)} (key : V -> K).

Definition fill_step (m : gmap K V) (v : V) : gmap K V := if decide (P v) then <[key v := v]> m else m.

Lemma filled_Some l k v : foldl fill_step ∅ l !! k = Some v -> v ∈ l /\ P v /\ key v = k.
Proof.
  induction l as [|x l IH] using rev_ind; [done|]. rewrite foldl_app. cbn [foldl]. unfold fill_step at 1.
  rewrite elem_of_app, list_elem_of_singleton.
  case_decide; [intros [[<- <-]|[_ Hv]]%lookup_insert_Some|intros Hv];
    [by split_conj; [right|..]|destruct (IH Hv) as (? & ? & ?); by split_conj; [left|..]..].
Qed.

Lemma filled_is_Some l v : v ∈ l -> P v -> is_Some (foldl fill_step ∅ l !! key v).
Proof.
  intros Hv HP. induction l as [|x l IH] using rev_ind; [by apply not_elem_of_nil in Hv|].
  rewrite foldl_app. cbn [foldl]. unfold fill_step at 1.
  apply elem_of_app in Hv as [Hv|Hv]; [|apply list_elem_of_singleton in Hv as ->].
  - case_decide; [|by apply IH]. destruct (decide (key x = key v)) as [->|].
    + rewrite lookup_insert_eq. eauto.
    + rewrite lookup_insert_ne by done. by apply IH.
  - rewrite decide_True by done. rewrite lookup_insert_eq. eauto.
Qed.
End filled.

Section indexes.
Context `{C : Crypto}.
Implicit Types (operator : Operator) (receipts : list SignedReceipt) (txn : ObservedTransaction).

(** The receipts of one mode that the operator made about this log. *)
Definition accepted_in (mode : Mode) operator (signed : SignedReceipt) : Prop :=
  r_mode (s_receipt signed) = mode /\ accepted operator signed.

#[global] Instance accepted_in_dec mode operator signed : Decision (accepted_in mode operator signed).
Proof. unfold accepted_in. apply _. Defined.

Definition filled_by (mode : Mode) (key : Receipt -> bytes) operator receipts : gmap bytes SignedReceipt :=
  foldl (fill_step (accepted_in mode operator) (fun s => key (s_receipt s))) ∅ receipts.

Lemma Withdrawals_build_filled receipts operator :
  Withdrawals_build receipts operator = filled_by Retract r_tx_hash operator receipts.
Proof.
  unfold Withdrawals_build, filled_by, Withdrawals. generalize (∅ : gmap bytes SignedReceipt).
  induction receipts as [|r rs IH]; intros m; [done|]. cbn [foldl]. rewrite <-IH. f_equal.
  unfold Withdrawals_step, fill_step, accepted_in, Withdrawals. rewrite Operator_accepts_is_err.
  repeat case_bool_decide; case_decide; naive_solver.
Qed.

Lemma ReceiptIndex_build_filled receipts operator :
  ReceiptIndex_build receipts operator =
    MkIndex (filled_by Plain r_tx_sig operator receipts) (filled_by Commit r_tx_hash operator receipts)
      (filled_by Retract r_tx_hash operator receipts).
Proof.
  unfold ReceiptIndex_build. rewrite Withdrawals_build_filled.
  generalize (filled_by Retract r_tx_hash operator receipts) as w. intros w. unfold filled_by.
  generalize (∅ : gmap bytes SignedReceipt) at 2 4 as h.
  generalize (∅ : gmap bytes SignedReceipt) as g.
  induction receipts as [|r rs IH]; intros g h; [done|]. cbn [foldl].
  assert (forall mode (key : _ -> bytes) m, ~ accepted_in mode operator r ->
    fill_step (accepted_in mode operator) key m r = m) as Hskip.
  { intros. unfold fill_step. by rewrite decide_False. }
  assert (forall mode (key : _ -> bytes) m, accepted_in mode operator r ->
    fill_step (accepted_in mode operator) key m r = <[key r := r]> m) as Htake.
  { intros. unfold fill_step. by rewrite decide_True. }
  unfold ReceiptIndex_step at 2. rewrite Operator_accepts_is_err.
  case_bool_decide as Ha; cbn [negb].
  - destruct (r_mode (s_receipt r)) eqn:Hm; cbn [ri_by_signature ri_by_hash ri_withdrawn]; rewrite IH;
      first [rewrite (Htake Plain) by (by split)|rewrite (Hskip Plain) by (intros [? ?]; congruence)];
      first [rewrite (Htake Commit) by (by split)|rewrite (Hskip Commit) by (intros [? ?]; congruence)];
      done.
  - rewrite IH, !Hskip by (by intros [_ ?]). done.
Qed.

(** What the retractions among [receipts] take back. *)
Lemma Withdrawals_build_Some receipts operator signed withdrawal :
  Withdrawals_of (Withdrawals_build receipts operator) signed = Some withdrawal ->
  withdrawal ∈ receipts /\ accepted_in Retract operator withdrawal /\
  r_tx_hash (s_receipt withdrawal) = receipt_hash signed.
Proof.
  rewrite Withdrawals_build_filled.
  apply (filled_Some (accepted_in Retract operator) (fun s => r_tx_hash (s_receipt s))).
Qed.

Lemma Withdrawals_build_None receipts operator signed :
  Withdrawals_of (Withdrawals_build receipts operator) signed = None <->
  forall r, r ∈ receipts -> accepted_in Retract operator r -> r_tx_hash (s_receipt r) <> receipt_hash signed.
Proof.
  split.
  - rewrite Withdrawals_build_filled. intros E r Hr Ha Hh. apply eq_None_not_Some in E. apply E.
    unfold Withdrawals_of. rewrite <-Hh.
    by apply (filled_is_Some (accepted_in Retract operator) (fun s => r_tx_hash (s_receipt s))).
  - intros Hall. destruct (Withdrawals_of _ _) as [w|] eqn:E; [|done].
    apply Withdrawals_build_Some in E as (Hw & Ha & Hh). by destruct (Hall w).
Qed.

Lemma ReceiptIndex_find_Some receipts operator txn signed :
  ReceiptIndex_find (ReceiptIndex_build receipts operator) txn = Some signed ->
  signed ∈ receipts /\ accepted operator signed /\ covers signed txn.
Proof.
  rewrite ReceiptIndex_build_filled. unfold ReceiptIndex_find, covers. cbn.
  destruct (filled_by Plain _ _ _ !! _) eqn:E.
  - intros [= ->]. apply (filled_Some (accepted_in Plain operator) (fun s => r_tx_sig (s_receipt s))) in E
      as (? & [? ?] & ?).
    split_conj; auto.
  - intros (? & [? ?] & ?)%(filled_Some (accepted_in Commit operator) (fun s => r_tx_hash (s_receipt s))).
    split_conj; auto.
Qed.

(** A transaction has no ticket exactly when nothing the operator said covers it. *)
Lemma ReceiptIndex_find_None receipts operator txn :
  ReceiptIndex_find (ReceiptIndex_build receipts operator) txn = None <->
  forall s, s ∈ receipts -> accepted operator s -> ~ covers s txn.
Proof.
  split.
  - rewrite ReceiptIndex_build_filled. unfold ReceiptIndex_find. cbn.
    destruct (filled_by Plain _ _ _ !! _) eqn:E; [done|]. intros E' s Is Ha [[Hm Ek]|[Hm Ek]].
    + eapply eq_None_not_Some; [exact E|]. rewrite <-Ek.
      by apply (filled_is_Some (accepted_in Plain operator) (fun s => r_tx_sig (s_receipt s))).
    + eapply eq_None_not_Some; [exact E'|]. rewrite <-Ek.
      by apply (filled_is_Some (accepted_in Commit operator) (fun s => r_tx_hash (s_receipt s))).
  - intros Hall. destruct (ReceiptIndex_find _ _) as [s|] eqn:E; [|done].
    apply ReceiptIndex_find_Some in E as (Is & Ha & Hc). by destruct (Hall s Is Ha).
Qed.

Lemma ReceiptIndex_withdrawal_build receipts operator signed :
  ReceiptIndex_withdrawal (ReceiptIndex_build receipts operator) signed =
    Withdrawals_of (Withdrawals_build receipts operator) signed.
Proof. by rewrite ReceiptIndex_build_filled, Withdrawals_build_filled. Qed.
End indexes.

(** ** The scan as a list of verdicts *)

Lemma enumerate_elem {A} (l : list A) i x : (i, x) ∈ enumerate l <-> l !! i = Some x.
Proof.
  unfold enumerate. rewrite list_elem_of_lookup. setoid_rewrite list_lookup_imap_Some.
  split; [intros (k & y & Hy & [= -> ->]); done|naive_solver].
Qed.

Lemma drop_enumerate_elem {A} (l : list A) n i x :
  (i, x) ∈ drop n (enumerate l) <-> (n <= i)%nat /\ l !! i = Some x.
Proof.
  unfold enumerate. rewrite list_elem_of_lookup. setoid_rewrite lookup_drop.
  setoid_rewrite list_lookup_imap_Some. split.
  - intros (k & y & Hy & [= -> ->]). split; [lia|done].
  - intros [Hle Hx]. exists (i - n)%nat, x. by replace (n + (i - n))%nat with i by lia.
Qed.

Lemma for_each_ok {A B} (body : B -> A -> may_panic B) (step : B -> A -> B) l state :
  (forall state x, x ∈ l -> body state x = Ok (step state x)) ->
  for_each body state l = Ok (foldl step state l).
Proof.
  revert state. induction l as [|x l IH]; intros state Hb; [done|]. cbn.
  rewrite Hb by left. res_run. apply IH. intros. apply Hb. by right.
Qed.

Definition pairs {A} (l : list A) : list ((nat * A) * (nat * A)) :=
  first ← enumerate l; pair first <$> drop (S first.1) (enumerate l).

Lemma pairs_elem {A} (l : list A) i a j b :
  ((i, a), (j, b)) ∈ pairs l <-> l !! i = Some a /\ l !! j = Some b /\ (i < j)%nat.
Proof.
  unfold pairs. rewrite list_elem_of_bind. split.
  - intros ([k c] & ([k' c'] & [= -> -> -> ->] & [? ?]%drop_enumerate_elem)%list_elem_of_fmap & Hk).
    apply enumerate_elem in Hk. split_conj; [done..|cbn in *; lia].
  - intros (Hi & Hj & Hlt). exists (i, a). split; [|by apply enumerate_elem].
    apply list_elem_of_fmap. exists (j, b). split; [done|]. apply drop_enumerate_elem. cbn. split; [lia|done].
Qed.

Lemma foldl_bind_pairs {A B} (step : B -> (nat * A) * (nat * A) -> B) (l : list A) state :
  foldl step state (pairs l) =
    foldl (fun state first => foldl (fun state second => step state (first, second)) state
      (drop (S first.1) (enumerate l))) state (enumerate l).
Proof.
  unfold pairs. set (tail_of := fun i => drop (S i) (enumerate l)).
  change (foldl step state (enumerate l ≫= fun first => pair first <$> tail_of first.1) =
    foldl (fun state first => foldl (fun state second => step state (first, second)) state
      (tail_of first.1)) state (enumerate l)).
  clearbody tail_of. revert state. induction (enumerate l) as [|x firsts IH]; intros state; [done|].
  cbn. rewrite foldl_app, IH. f_equal. apply foldl_fmap.
Qed.

Section verdicts.
Context `{C : Crypto}.
Implicit Types (block : ObservedBlock) (index : ReceiptIndex) (operator : Operator) (identity : bytes).

Definition pair_verdict block index operator identity
    (pair : (nat * ObservedTransaction) * (nat * ObservedTransaction)) : Verdict :=
  match check_pair block (as_u32 pair.1.1) pair.1.2 (as_u32 pair.2.1) pair.2.2 index operator identity with
  | Ok verdict => verdict
  | _ => Clean
  end.

Definition block_verdicts block executed index operator identity : list Verdict :=
  ((fun entry => check_ticket_is_live block (as_u32 entry.1) entry.2 executed index)
     <$> enumerate executed) ++
  (pair_verdict block index operator identity <$> pairs executed).

(** Once the order is derived, no pair panics. *)
Lemma check_pair_ok block executed i a j b index operator identity :
  executed_order block = Some executed ->
  check_pair block i a j b index operator identity <> Panic.
Proof. intros E. unfold check_pair. rewrite E. repeat case_match; done. Qed.

Lemma scan_block_verdicts block executed index operator identity :
  executed_order block = Some executed ->
  scan_block block index operator identity =
    Ok (scan_of (block_verdicts block executed index operator identity)).
Proof.
  intros E. unfold scan_block, scan_of, block_verdicts. rewrite E, foldl_app, foldl_fmap, foldl_fmap.
  rewrite foldl_bind_pairs. set (scan := foldl _ Scan_default _). set (scan' := foldl _ Scan_default _).
  assert (scan = scan') as <-.
  { subst scan scan'. generalize Scan_default. induction (enumerate executed) as [|[i t] l IH]; intros s; [done|].
    cbn. apply IH. }
  apply for_each_ok. intros s [i a] _. apply for_each_ok. intros s' [j b] _. unfold pair_verdict. cbn.
  pose proof (check_pair_ok block executed (as_u32 i) a (as_u32 j) b index operator identity E).
  by destruct (check_pair _ _ _ _ _ _ _ _) as [?|[]|].
Qed.

Lemma scan_block_unverifiable block index operator identity :
  executed_order block = None ->
  scan_block block index operator identity =
    Ok (scan_of [CannotDetermine (UnverifiableBlock (b_slot block))]).
Proof. intros E. unfold scan_block. by rewrite E. Qed.

Definition live index (txn : ObservedTransaction) (signed : SignedReceipt) : Prop :=
  ReceiptIndex_find index txn = Some signed /\ ReceiptIndex_withdrawal index signed = None.

(** The pairs that are accused of a reorder, and the accusation. *)
Lemma check_pair_fault block executed i a j b receipts operator identity f :
  let index := ReceiptIndex_build receipts operator in
  executed_order block = Some executed ->
  check_pair block i a j b index operator identity = Ok (VerdictFault f) <->
  conflicts a b = true /\ is_issued_by a identity = false /\ is_issued_by b identity = false /\
  exists ra rb, live index a ra /\ live index b rb /\ seq_of rb <= seq_of ra /\
    f = FaultReorder (b_slot block) (b_previous_blockhash block) (b_blockhash block)
          (o_signature <$> executed) (MkReordered ra (o_wire_bytes a) i) (MkReordered rb (o_wire_bytes b) j).
Proof.
  cbv zeta. intros E. unfold check_pair, live. rewrite E. set (index := ReceiptIndex_build _ _).
  destruct (conflicts a b); cbn [negb]; [|split; [done|intros (? & _); done]].
  destruct (ReceiptIndex_find index a) as [ra|] eqn:Ea; [|split; [done|naive_solver]].
  destruct (ReceiptIndex_find index b) as [rb|] eqn:Eb; [|split; [done|naive_solver]].
  apply ReceiptIndex_find_Some in Ea as (_ & Aa & _), Eb as (_ & Ab & _).
  rewrite !Operator_accepts_is_err, !bool_decide_true by done. cbn [negb orb].
  destruct (ReceiptIndex_withdrawal index ra) eqn:Wa; cbn; [split; [done|naive_solver]|].
  destruct (ReceiptIndex_withdrawal index rb) eqn:Wb; cbn; [split; [done|naive_solver]|].
  destruct (Z.ltb_spec (seq_of ra) (seq_of rb)); [split; [done|naive_solver lia]|].
  destruct (is_issued_by a identity), (is_issued_by b identity); cbn; try (split; [done|naive_solver]).
  split.
  - intros [= <-]. split_conj; [done..|]. exists ra, rb. split_conj; done.
  - intros (_ & _ & _ & ra' & rb' & [[= <-] _] & [[= <-] _] & _ & ->). done.
Qed.
End verdicts.
