(* ===== verification/Client.v ===== *)
(** * How the watchtower reads a node: crates/watchtower/src/parse.rs, client.rs

    The JSON a node answers with is parsed into receipts and blocks.  The transport of a request is
    a function from the request to the node's answer. *)
From S2P Require Import Prelude Constants Crypto Receipt Watchtower BlockScan Wire.

(** ** parse.rs *)

Inductive ParseError : Type :=
| Missing (field : string)
| Malformed (field : string)
| BadBase58 (field : string)
| BadBase64 (field : string)
| BadTransaction
| BadReceipt.

#[global] Instance ParseError_eq_dec : EqDecision ParseError.
Proof. solve_decision. Defined.

(** ** client.rs *)

Inductive ClientError : Type :=
| Transport (error : string)
| Rpc (error : string)
| Parse (error : ParseError)
| BadIdentity (identity : string).

#[global] Instance ClientError_eq_dec : EqDecision ClientError.
Proof. solve_decision. Defined.

Section client.
Context `{C : Crypto} `{J : Json} `{S : Solana}.
Local Open Scope string_scope.

Definition receipt_entry (value : Value) : result ParseError SignedReceipt :=
  encoded ← ok_or (value_get value "receipt" ≫= as_str) (Missing "receipt");
  bytes ← ok_or (base64_decode encoded) (BadBase64 "receipt");
  map_err (fun _ => BadReceipt) (SignedReceipt_from_bytes bytes).

Definition hash_field (value : Value) (field : string) : result ParseError bytes :=
  encoded ← ok_or (value_get value field ≫= as_str) (Missing field);
  bytes ← ok_or (bs58_decode encoded) (BadBase58 field);
  ok_or (try_into_array 32 bytes) (Malformed field).

(** One turn of the loop that sorts the account keys. *)
Definition sort_key (txn : VersionedTransaction) (sorted : list bytes * list bytes) (entry : nat * bytes)
    : list bytes * list bytes :=
  let '(writable, readonly) := sorted in
  let '(index, key) := entry in
  if is_maybe_writable txn index then ((writable ++ [key])%list, readonly) else (writable, (readonly ++ [key])%list).

Definition observe (wire_bytes : bytes) : result ParseError ObservedTransaction :=
  txn ← ok_or (bincode_deserialize wire_bytes) BadTransaction;
  first ← ok_or (head (tx_signatures txn)) (Malformed "signatures");
  signature ← ok_or (try_into_array 64 first) (Malformed "signatures");
  let keys := static_account_keys txn in
  fee_payer ← ok_or (head keys) (Malformed "accountKeys");
  let '(writable, readonly) := foldl (sort_key txn) ([], []) (enumerate keys) in
  Ok {| o_signature := signature; o_tx_hash := tx_hash wire_bytes; o_fee_payer := fee_payer;
        o_writable := writable; o_readonly := readonly; o_wire_bytes := wire_bytes |}.

Definition transaction (value : Value) : result ParseError ObservedTransaction :=
  encoded ← ok_or (value_pointer value "/transaction/0" ≫= as_str) (Missing "transaction");
  wire_bytes ← ok_or (base64_decode encoded) (BadBase64 "transaction");
  observe wire_bytes.

Definition block (slot : Z) (value : Value) : result ParseError ObservedBlock :=
  previous_blockhash ← hash_field value "previousBlockhash";
  blockhash ← hash_field value "blockhash";
  entries ← ok_or (value_get value "transactions" ≫= as_array) (Missing "transactions");
  transactions ← mapM transaction entries;
  Ok {| b_slot := slot; b_previous_blockhash := previous_blockhash; b_blockhash := blockhash;
        b_transactions := transactions |}.

(** A [Client] is where its requests go. *)
Definition Client : Type := Value -> result string Value.

Definition call (self : Client) (method : string) (params : Value) : result ClientError Value :=
  let request := VObject [("jsonrpc", VString "2.0"); ("id", VNumber 1); ("method", VString method);
                          ("params", params)] in
  response ← map_err Transport (self request);
  match value_get response "error" with
  | Some error => Err (Rpc (value_to_string error))
  | None => ok_or (value_get response "result") (Parse (Missing "result"))
  end.

Definition Client_operator (self : Client) : result ClientError bytes :=
  answer ← call self "getIdentity" (VArray []);
  identity ← ok_or (value_get answer "identity" ≫= as_str) (Parse (Missing "identity"));
  bytes ← ok_or (bs58_decode identity ≫= try_into_array 32) (BadIdentity identity);
  _ ← ensure (valid_verifying_key bytes) (BadIdentity identity);
  Ok bytes.

Definition Client_slot (self : Client) : result ClientError Z :=
  answer ← call self "getSlot" (VArray []);
  ok_or (as_u64 answer) (Parse (Malformed "slot")).

Definition Client_receipts (self : Client) (from_seq limit : Z) : result ClientError (list SignedReceipt) :=
  result ← call self "getReceipts" (VArray [VNumber from_seq; VNumber limit]);
  entries ← ok_or (as_array result) (Parse (Malformed "receipts"));
  mapM (fun entry => map_err Parse (receipt_entry entry)) entries.

Definition block_config : Value :=
  VObject [("encoding", VString "base64"); ("transactionDetails", VString "full"); ("rewards", VBool false);
           ("maxSupportedTransactionVersion", VNumber 0)].

Definition Client_block (self : Client) (slot : Z) : result ClientError (option ObservedBlock) :=
  result ← call self "getBlock" (VArray [VNumber slot; block_config]);
  if is_null result then Ok None
  else
    parsed ← map_err Parse (block slot result);
    Ok (Some parsed).
End client.
