(* ===== verification/ToyLog.v ===== *)
(** * Two logs on which the watchtower's witnesses are evaluated

    The log a writer publishes for the commands of [toy_commands] when it is honest, and what it
    publishes and hands out when it equivocates. *)
From S2P Require Import Prelude Constants Crypto Receipt Columns Rocks Store ReceiptLog Pending Writer WriterLog WriterProperties Watchtower.

#[local] Existing Instance toy_crypto.
#[local] Existing Instance toy_rocks.

Definition toy_operator : Operator :=
  Eval vm_compute in MkOperator (toy_key (fill 32 x41)) (mint_log_id (fill 32 x41 : SigningKey) 77 0).

Definition toy_log : list SignedReceipt := Eval vm_compute in w_events (toy_run false).2.

(** The published log of the equivocating writer and the receipts its clients hold. *)
Definition toy_evil_log : list SignedReceipt := Eval vm_compute in w_events (toy_run true).2.
Definition toy_held : list SignedReceipt :=
  Eval vm_compute in
    omap (fun reply => match reply with ReplyReceipt (Ok s) => Some s | _ => None end) (toy_run true).1.

(** What a fresh writer publishes is chained, stated on the evaluated log. *)
Lemma toy_run_chained equivocation :
  chained (op_key toy_operator) (op_log_id toy_operator) (w_events (toy_run equivocation).2).
Proof.
  destruct (run_inv (C := toy_crypto) (R := toy_rocks) toy_commands [] _ _ _
    (writer_inv_new (C := toy_crypto) (R := toy_rocks) toy_disk (fill 32 x41) 77 0 equivocation RevealDeadline_default ltac:(eval_done))
    toy_commands_wf ltac:(eval_done) (toy_healthy equivocation) (toy_runs equivocation))
    as ((Hk & Hid & _) & log & Hi & _).
  rewrite (wi_events _ _ Hi). pose proof (wi_chain _ _ Hi) as Hc. rewrite Hk, Hid in Hc.
  exact Hc.
Qed.

Lemma toy_log_chained : chained (op_key toy_operator) (op_log_id toy_operator) toy_log.
Proof. assert (w_events (toy_run false).2 = toy_log) as <- by (vm_compute; reflexivity).
  apply toy_run_chained.
Qed.
