(* ===== verification/LogScanProperties.v ===== *)
(** * What the receipt-log scan guarantees

    Soundness, exact detection of equivocation, and what a clean scan means. *)
From S2P Require Import Prelude Constants Crypto Receipt Evidence ReceiptLog Columns Rocks Store Writer WriterLog WriterProperties Watchtower LogScan ToyLog.

(** What a fault of this scan says of the receipts it carries: two different receipts at one number;
    an entry numbered zero that does not start the chain; an entry that does not carry the hash of
    the entry numbered just before it. *)
Definition breach `{C : Crypto} (fault : Fault) : Prop :=
  match fault with
  | FaultEquivocation seq a b => r_seq (s_receipt a) = seq /\ r_seq (s_receipt b) = seq /\ a <> b
  | FaultBadOrigin r => r_seq (s_receipt r) = 0 /\ r_prev_receipt_hash (s_receipt r) <> GENESIS_PREV_HASH
  | FaultBrokenChain seq r p =>
      r_seq (s_receipt r) = seq /\ seq = r_seq (s_receipt p) + 1 /\
      r_prev_receipt_hash (s_receipt r) <> receipt_hash p
  | _ => False
  end.

(** C23: the receipt-log scan accuses on evidence, and sees every double entry.  On any receipts, in
    any order, repeated, forged or foreign, the scan finishes without a panic.  Every fault it
    reports is a breach of the log's rules by the receipts it carries: two different receipts at one
    number, an entry numbered zero that does not start the chain, or an entry that does not carry
    the hash of the entry numbered just before it; each of these receipts is one the scan was given
    and the operator signed for this log, and the fault re-derives from itself alone under the
    operator's key.  And whenever two of the receipts given are different, signed for this log and
    of one number, an equivocation is reported at that number.  Receipts are compared with their
    signatures: two signatures of one message count as two receipts. *)
Theorem receipt_scan_sound `{C : Crypto} (receipts : list SignedReceipt) (operator : Operator)
    (Hwf : Forall SignedReceipt_wf receipts) :
  exists scan, scan_receipts receipts operator = Ok scan /\
    (forall fault, fault ∈ sc_faults scan ->
      breach fault /\ Fault_verify fault (op_key operator) = Ok tt /\
      forall s, s ∈ fault_receipts fault -> s ∈ receipts /\ accepted operator s) /\
    (forall a b, a ∈ receipts -> b ∈ receipts -> accepted operator a -> accepted operator b ->
      r_seq (s_receipt a) = r_seq (s_receipt b) -> a <> b ->
      exists c d, FaultEquivocation (r_seq (s_receipt a)) c d ∈ sc_faults scan).
Proof.
  eexists. split; [apply scan_receipts_verdicts|]. split; last first.
  { intros a b Ha Hb Aa Ab E Hne. setoid_rewrite scan_of_faults. by eapply equivocation_reported. }
  intros fault Hf%scan_of_faults.
  destruct (log_fault _ _ _ Hwf Hf) as [(a & b & -> & Ha & Hb & E & Hne)|[(r & -> & Hr & E & Hne)|(p & r & -> & Hr & Hp & E & Hne)]].
  - apply attributable_elem in Ha as [Aa Ia], Hb as [Ab Ib]. split; [cbn; unfold seq_of in *; split_conj; congruence|]. split.
    + cbn. rewrite !(signed_by_accepted operator), (same_log_accepted operator) by done. res_run.
      unfold seq_of in *. by rewrite E, !bool_decide_true by done.
    + intros s. cbn. rewrite !elem_of_cons, elem_of_nil. naive_solver.
  - apply attributable_elem in Hr as [Ar Ir]. split; [cbn; unfold seq_of in *; split_conj; done|]. split.
    + cbn. rewrite (signed_by_accepted operator) by done. res_run. unfold seq_of in *.
      by rewrite (bool_decide_false (_ = GENESIS_PREV_HASH)), andb_false_r.
    + intros s. cbn. rewrite !elem_of_cons, elem_of_nil. naive_solver.
  - apply attributable_elem in Hr as [Ar Ir], Hp as [Ap Ip]. split; [cbn; unfold seq_of in *; split_conj; congruence|]. split.
    + cbn. rewrite !(signed_by_accepted operator), (same_log_accepted operator) by done. res_run.
      rewrite Forall_forall in Hwf. destruct (Hwf r Ir) as [(_ & Hu & _) _].
      destruct (Hwf p Ip) as [(_ & Hu' & _) _]. unfold seq_of in *. unfold is_u64 in *.
      rewrite wrap64_small by (unfold is_u64; lia). rewrite (bool_decide_true (_ = r_seq _)), (bool_decide_true (_ + 1 = _)) by lia. res_run.
      by rewrite bool_decide_true.
    + intros s. cbn. rewrite !elem_of_cons, elem_of_nil. naive_solver.
Qed.

#[local] Existing Instance toy_crypto.

(** What a watchtower holding the clients' receipts reads from an equivocating node. *)
Definition toy_combined : list SignedReceipt := toy_evil_log ++ toy_held.

Definition toy_scan : Scan :=
  Eval vm_compute in
    match scan_receipts (C := toy_crypto) toy_combined toy_operator with
    | Ok scan => scan | _ => Scan_default
    end.

Lemma toy_scanned : scan_receipts (C := toy_crypto) toy_combined toy_operator = Ok toy_scan.
Proof. vm_compute. reflexivity. Qed.

Lemma toy_combined_wf : Forall SignedReceipt_wf toy_combined.
Proof. eval_done. Qed.

Lemma receipt_scan_sound_witness :
  exists scan fault, scan_receipts (C := toy_crypto) toy_combined toy_operator = Ok scan /\
    fault ∈ sc_faults scan /\ breach (C := toy_crypto) fault /\
    Fault_verify (C := toy_crypto) fault (op_key toy_operator) = Ok tt.
Proof.
  destruct (receipt_scan_sound (C := toy_crypto) toy_combined toy_operator toy_combined_wf)
    as (scan & E & Hf & _).
  assert (scan = toy_scan) as -> by (rewrite toy_scanned in E; by injection E).
  destruct (sc_faults toy_scan) as [|fault faults] eqn:Hfaults; [discriminate Hfaults|].
  destruct (Hf fault) as (Hb & Hv & _); [left|].
  exists toy_scan, fault. rewrite Hfaults.
  split; [exact E|split; [left|split; [exact Hb|exact Hv]]].
Defined.

(** Equivocation is detected exactly.  The scan reports an equivocation at a sequence number if
    and only if, among the receipts it was given, the operator made two different signed statements
    for that number of this log. *)
Theorem equivocation_detected_iff `{C : Crypto} (receipts : list SignedReceipt) (operator : Operator)
    (seq : Z) (scan : Scan)
    (Hwf : Forall SignedReceipt_wf receipts) (Hscan : scan_receipts receipts operator = Ok scan) :
  (exists a b, FaultEquivocation seq a b ∈ sc_faults scan) <->
  (exists a b, a ∈ receipts /\ b ∈ receipts /\ accepted operator a /\ accepted operator b /\
     r_seq (s_receipt a) = seq /\ r_seq (s_receipt b) = seq /\ a <> b).
Proof.
  rewrite scan_receipts_verdicts in Hscan. injection Hscan as <-. setoid_rewrite scan_of_faults. split.
  - intros (a & b & Hf). destruct (log_fault _ _ _ Hwf Hf) as [(a' & b' & E & Ha & Hb & Es & Hne)|H];
      [|naive_solver].
    injection E as -> -> ->. apply attributable_elem in Ha as [], Hb as []. exists a', b'.
    split_conj; auto.
  - intros (a & b & Ha & Hb & Aa & Ab & <- & E & Hne).
    by apply (equivocation_reported receipts operator a b).
Qed.

Lemma equivocation_detected_iff_witness :
  exists a b, FaultEquivocation 2 a b ∈ sc_faults toy_scan.
Proof.
  apply (equivocation_detected_iff (C := toy_crypto) toy_combined toy_operator 2 toy_scan
    toy_combined_wf toy_scanned).
  exists (nth 2 toy_evil_log (MkSigned sample_receipt [])), (nth 2 toy_held (MkSigned sample_receipt [])).
  split_conj; eval_done.
Defined.

(** An honest log is never accused.  Let the operator's statements be those of one chained log.
    Whatever part of it reaches the watchtower, in whatever order, repeated, and mixed with whatever
    else the operator did not sign for this log, the scan reports no fault. *)
Theorem honest_log_never_accused `{C : Crypto} (log receipts : list SignedReceipt) (operator : Operator)
    (scan : Scan)
    (Hc : chained (op_key operator) (op_log_id operator) log)
    (Hwf : Forall SignedReceipt_wf receipts)
    (Hown : forall s, s ∈ receipts -> accepted operator s -> s ∈ log)
    (Hscan : scan_receipts receipts operator = Ok scan) :
  sc_faults scan = [].
Proof.
  rewrite scan_receipts_verdicts in Hscan. injection Hscan as <-. apply elem_of_nil_inv.
  intros f Hf%scan_of_faults.
  by apply (chained_no_fault log receipts operator f).
Qed.

(** A forgery, the honest log without its second entry, and the honest log again, backwards. *)
Definition toy_forged : SignedReceipt := MkSigned sample_receipt (fill 64 x07).
Definition toy_mixed : list SignedReceipt := toy_forged :: delete 1%nat toy_log ++ reverse toy_log.

Lemma honest_log_never_accused_witness :
  exists scan, scan_receipts (C := toy_crypto) toy_mixed toy_operator = Ok scan /\ sc_faults scan = [].
Proof.
  eexists. split; [apply scan_receipts_verdicts|].
  apply (honest_log_never_accused (C := toy_crypto) toy_log toy_mixed toy_operator).
  - apply toy_log_chained.
  - eval_done.
  - intros s [->|[Hs|Hs]%elem_of_app]%elem_of_cons Ha.
    + exfalso. revert Ha. apply (bool_decide_unpack (~ accepted (C := toy_crypto) toy_operator toy_forged)).
      vm_compute. exact I.
    + revert Hs. clear Ha. revert s. apply Forall_forall. eval_done.
    + by apply elem_of_reverse.
  - apply scan_receipts_verdicts.
Defined.

(** C24: a clean scan is a whole, unbroken log.  The scan of some receipts finds nothing and leaves
    nothing undetermined exactly when the receipts are, up to order and repetition, one log of the
    operator: numbered from zero without gaps, all signed, every entry carrying the hash of the
    entry before it. *)
Theorem clean_scan_iff_chain `{C : Crypto} (receipts : list SignedReceipt) (operator : Operator)
    (scan : Scan)
    (Hwf : Forall SignedReceipt_wf receipts) (Hscan : scan_receipts receipts operator = Ok scan) :
  Scan_is_clean scan = true <->
  exists log, chained (op_key operator) (op_log_id operator) log /\ forall s, s ∈ receipts <-> s ∈ log.
Proof.
  rewrite scan_receipts_verdicts in Hscan. injection Hscan as <-. rewrite scan_of_clean. split.
  - intros Hclean. exists (distinct operator receipts). by apply clean_chained.
  - intros (log & Hc & Hset). apply Forall_forall. intros [f| |u] Hv; [exfalso|done|exfalso].
    + apply (chained_no_fault log receipts operator f); naive_solver.
    + by apply (chained_determined log receipts operator u).
Qed.

Lemma clean_scan_iff_chain_witness :
  exists scan, scan_receipts (C := toy_crypto) (reverse toy_log) toy_operator = Ok scan /\
    Scan_is_clean scan = true.
Proof.
  eexists. split; [apply scan_receipts_verdicts|].
  apply (clean_scan_iff_chain (C := toy_crypto) (reverse toy_log) toy_operator _ ltac:(eval_done)
    (scan_receipts_verdicts _ _)).
  exists toy_log. split; [apply toy_log_chained|]. intros s. apply elem_of_reverse.
Defined.

(** A re-signed copy hides a contradiction.  Statements are told apart with their signatures.
    When the first two the operator made for a position are one receipt signed twice, they are what
    the scan reports there, whatever else the operator signed for that position; and the program
    does not take them for a contradiction. *)
Theorem resigned_copy_hides_contradiction `{C : Crypto} (receipts rest : list SignedReceipt) (operator : Operator)
    (scan : Scan) (x x' : SignedReceipt)
    (Hwf : Forall SignedReceipt_wf receipts) (Hscan : scan_receipts receipts operator = Ok scan)
    (Hgroup : filter (fun s => accepted operator s /\ seq_of s = seq_of x) receipts = x :: x' :: rest)
    (Hsame : s_receipt x = s_receipt x') (Hne : x <> x') :
  (forall a b, FaultEquivocation (seq_of x) a b ∈ sc_faults scan <-> a = x /\ b = x') /\
  is_ok (Equivocation_check (SignedReceipt_message x) (SignedReceipt_message x')) = false.
Proof.
  rewrite scan_receipts_verdicts in Hscan. injection Hscan as <-. split.
  - assert (filter (fun s => seq_of s = seq_of x) (attributable operator receipts) = x :: x' :: rest) as Hf.
    { rewrite <-Hgroup. unfold attributable. rewrite list_filter_filter.
      rewrite (filter_sort_by by_seq) by (unfold by_seq; intros ? ? [? _] [? _]; apply Z.leb_le; lia).
      apply list_filter_iff. naive_solver. }
    assert (x ∈ attributable operator receipts) as Hx.
    { eapply (list_elem_of_filter (fun s => seq_of s = seq_of x)). rewrite Hf. by left. }
    destruct (runs_elem seq_of _ _ Hx) as (y & g & Hr & Hxg).
    pose proof (runs_same _ _ _ _ Hr) as Hkeys. rewrite Forall_forall in Hkeys.
    assert (seq_of x = seq_of y) as Exy by (apply elem_of_cons in Hxg as [->|Hxg]; auto).
    pose proof (runs_filter seq_of _ _ _ (attributable_sorted operator receipts) Hr) as Hrun.
    rewrite <-Exy, Hf in Hrun. injection Hrun as <- <-.
    assert (run_verdict (x, x' :: rest) = VerdictFault (FaultEquivocation (seq_of x) x x')) as Ev.
    { unfold run_verdict. cbn. by rewrite decide_True by congruence. }
    intros a b. rewrite scan_of_faults. split.
    + intros [(s & _ & E)|[(z & h & Hz & E)|[(s & _ & E)|(i & s & s' & _ & _ & E)]]]%log_verdicts_elem.
      * rewrite check_belongs_here_spec in E. by case_decide.
      * assert ((z, h) = (x, x' :: rest)) as [= -> ->].
        { unfold run_verdict in E. cbn in E. destruct (list_find _ h) as [[j w]|]; [|done]. injection E as Es _ _.
          pose proof (runs_filter seq_of _ _ _ (attributable_sorted operator receipts) Hz) as Hz'.
          rewrite <-Es, Hf in Hz'. congruence. }
        rewrite Ev in E. by injection E.
      * unfold check_origin in E. by repeat case_decide.
      * unfold check_link in E. by repeat case_decide.
    + intros [-> ->]. apply log_verdicts_elem. right; left. exists x, (x' :: rest). by split.
  - destruct (Equivocation_check _ _) as [e| |] eqn:E; [|done..]. exfalso.
    apply Equivocation_check_Ok in E as (_ & _ & _ & _ & Hm & _). unfold SignedReceipt_message in Hm. congruence.
Qed.

(** Toy keys under which every message has two signatures, as it has many under ed25519. *)
Definition resigning : Crypto := {|
  sha256 := toy_hash;
  blake3 m := toy_hash (x42 :: m);
  SigningKey := bytes;
  verifying_key := toy_key;
  ed25519_sign := toy_sign;
  ed25519_verify_strict key m s := bool_decide (s = toy_sign key m \/ s = reverse (toy_sign key m));
|}.

#[local] Instance resigning_laws : CryptoLaws resigning.
Proof.
  split.
  - exact (length_sha256 (C := toy_crypto)).
  - exact (length_blake3 (C := toy_crypto)).
  - exact (length_verifying_key (C := toy_crypto)).
  - exact (length_sign (C := toy_crypto)).
  - intros k m. apply bool_decide_eq_true. left. cbn [ed25519_sign verifying_key resigning].
    unfold toy_sign. by rewrite toy_key_idemp.
Qed.

(** The published statement of position two, signed again, and the one handed to a client. *)
Definition toy_published : SignedReceipt := nth 2 toy_evil_log (MkSigned sample_receipt []).
Definition toy_resigned : SignedReceipt := MkSigned (s_receipt toy_published) (reverse (s_signature toy_published)).
Definition toy_handed : SignedReceipt := nth 2 toy_held (MkSigned sample_receipt []).

Lemma resigned_copy_hides_contradiction_witness :
  s_receipt toy_published <> s_receipt toy_handed /\
  accepted (C := resigning) toy_operator toy_published /\ accepted (C := resigning) toy_operator toy_handed /\
  exists scan, scan_receipts (C := resigning) [toy_published; toy_resigned; toy_handed] toy_operator = Ok scan /\
    forall a b, FaultEquivocation 2 a b ∈ sc_faults scan <-> a = toy_published /\ b = toy_resigned.
Proof.
  split; [eval_done|]. split; [eval_done|]. split; [eval_done|].
  eexists. split; [apply scan_receipts_verdicts|].
  apply (resigned_copy_hides_contradiction (C := resigning) [toy_published; toy_resigned; toy_handed] [toy_handed]
    toy_operator _ toy_published toy_resigned ltac:(eval_done) (scan_receipts_verdicts _ _) ltac:(vm_compute; reflexivity)
    eq_refl ltac:(eval_done)).
Defined.
