(* ===== verification/BlockScanProperties.v ===== *)
(** * What the block scan guarantees

    The recovered order, what a block without faults is, and which of the scan's accusations
    re-derive. *)
From S2P Require Import Prelude Constants Crypto Receipt ReceiptLog Columns Rocks Store Writer WriterLog WriterProperties Watchtower LogScan BlockScan ToyLog.

Definition blake3_collision `{Crypto} (x y : bytes) : Prop := x <> y /\ blake3 x = blake3 y.

(** The signatures of a list of transactions, each of its 64 bytes. *)
Definition signatures_wf (transactions : list ObservedTransaction) : Prop :=
  Forall (fun txn => length (o_signature txn) = LEN_TX_SIG) transactions.

#[global] Instance signatures_wf_dec transactions : Decision (signatures_wf transactions).
Proof. unfold signatures_wf. apply _. Defined.

(** Signatures of one length concatenate injectively. *)
Lemma concat_signatures_inj l1 l2 :
  signatures_wf l1 -> signatures_wf l2 ->
  concat (o_signature <$> l1) = concat (o_signature <$> l2) -> o_signature <$> l1 = o_signature <$> l2.
Proof.
  intros W1. revert l2. induction W1 as [|t1 l1 H1 W1 IH]; intros l2 W2; destruct W2 as [|t2 l2 H2 W2];
    cbn; [done|..].
  - intros E%(f_equal length). rewrite length_app, H2 in E. done.
  - intros E%(f_equal length). rewrite length_app, H1 in E. done.
  - intros [-> E]%app_inj_1; [|congruence]. f_equal. by apply IH.
Qed.

Lemma executed_order_fold `{C : Crypto} block executed :
  executed_order block = Some executed ->
  fold (b_previous_blockhash block) (o_signature <$> executed) = b_blockhash block /\
  (executed = b_transactions block \/ executed = reverse (b_transactions block)).
Proof.
  unfold executed_order, Order_derive. repeat case_decide; intros [= <-]; [auto|].
  rewrite fmap_reverse. auto.
Qed.

(** The recovered order is the order of execution.  Let a block's hash be the hash chain over the
    transactions in the order the scheduler dispatched them.  Whatever listing of the block the
    watchtower is given, if it recovers an order from it, that order is the dispatched one, unless
    two different inputs with one blake3 hash are in hand; and from the listing in dispatch order,
    or in the reverse order in which getBlock returns it, it always recovers one. *)
Theorem executed_order_recovered `{C : Crypto} (slot : Z) (previous : bytes)
    (dispatched : list ObservedTransaction) (Hd : signatures_wf dispatched) :
  let block reported :=
    MkBlock slot previous (fold previous (o_signature <$> dispatched)) reported in
  (forall reported executed, signatures_wf reported -> executed_order (block reported) = Some executed ->
     o_signature <$> executed = o_signature <$> dispatched \/
     blake3_collision (previous ++ concat (o_signature <$> executed))
       (previous ++ concat (o_signature <$> dispatched))) /\
  is_Some (executed_order (block dispatched)) /\ is_Some (executed_order (block (reverse dispatched))).
Proof.
  cbv zeta. split_conj.
  - intros reported executed Hr E. apply executed_order_fold in E as [E Hrep].
    cbn [b_transactions b_previous_blockhash b_blockhash] in E, Hrep.
    assert (signatures_wf executed) as He.
    { destruct Hrep as [->| ->]; [done|]. unfold signatures_wf. by rewrite Forall_reverse. }
    destruct (decide (o_signature <$> executed = o_signature <$> dispatched)) as [|Hne]; [by left|right].
    split; [|exact E]. intros Happ%app_inv_head. by apply Hne, concat_signatures_inj.
  - unfold executed_order, Order_derive. cbn. rewrite decide_True by done. eauto.
  - unfold executed_order, Order_derive. cbn [b_transactions b_previous_blockhash b_blockhash].
    case_decide; [eauto|]. rewrite fmap_reverse, reverse_involutive, decide_True by done. eauto.
Qed.

Section exact.
Context `{C : Crypto}.
Implicit Types (receipts : list SignedReceipt) (operator : Operator).

(** A receipt names the signature of the transaction it covers exactly when it is a plain one:
    a commitment ticket was signed before there was a signature. *)
Lemma covers_signature operator signed txn :
  accepted operator signed -> covers signed txn -> o_signature txn <> ZERO_SIG ->
  r_tx_sig (s_receipt signed) = o_signature txn <-> r_mode (s_receipt signed) = Plain.
Proof.
  intros [_ [Hv _]%SignedReceipt_verify_Ok] Hc Hz. unfold Receipt_validate in Hv.
  destruct Hc as [[Hm E]|[Hm E]]; rewrite Hm in *; [done|]. res_inv. split; [congruence|done].
Qed.

Lemma found_at_position (executed : list ObservedTransaction) i txn tx_sig :
  Z.of_nat (length executed) < 2 ^ 32 -> executed !! i = Some txn ->
  found_at (o_signature <$> executed) (as_u32 i) tx_sig = Ok tt <-> tx_sig = o_signature txn.
Proof.
  intros Hlen Hi. unfold found_at, as_u32, wrap32. pose proof (lookup_lt_Some _ _ _ Hi).
  rewrite Z.mod_small by lia. rewrite Nat2Z.id, list_lookup_fmap, Hi, ensure_Ok, bool_decide_eq_true. cbn.
  naive_solver.
Qed.

Lemma as_u32_lt (i j n : nat) : Z.of_nat n < 2 ^ 32 -> (i < n)%nat -> (j < n)%nat -> as_u32 i < as_u32 j <-> (i < j)%nat.
Proof. intros. unfold as_u32, wrap32. rewrite !Z.mod_small by lia. lia. Qed.

Lemma block_verdicts_fault block executed index operator identity f :
  VerdictFault f ∈ block_verdicts block executed index operator identity <->
  (exists i txn, executed !! i = Some txn /\
     check_ticket_is_live block (as_u32 i) txn executed index = VerdictFault f) \/
  (exists i j a b, executed !! i = Some a /\ executed !! j = Some b /\ (i < j)%nat /\
     check_pair block (as_u32 i) a (as_u32 j) b index operator identity = Ok (VerdictFault f)).
Proof.
  unfold block_verdicts. rewrite elem_of_app, !list_elem_of_fmap. split.
  - intros [([i txn] & E & Hi%enumerate_elem)|([[i a] [j b]] & E & (Hi & Hj & Hlt)%pairs_elem)].
    + left. by exists i, txn.
    + right. exists i, j, a, b. split_conj; try done. unfold pair_verdict in E. cbn in E.
      destruct (check_pair _ _ _ _ _ _ _ _); by simplify_eq.
  - intros [(i & txn & Hi & E)|(i & j & a & b & Hi & Hj & Hlt & E)].
    + left. exists (i, txn). by rewrite enumerate_elem.
    + right. exists ((i, a), (j, b)). rewrite pairs_elem. split; [|done]. unfold pair_verdict. cbn. by rewrite E.
Qed.

Lemma ticket_clean block i txn executed index :
  (forall f, check_ticket_is_live block i txn executed index <> VerdictFault f) <->
  exists signed, live index txn signed.
Proof.
  unfold check_ticket_is_live, live.
  destruct (ReceiptIndex_find index txn) as [signed|]; [|split; [by intros H; destruct (H _ eq_refl)|naive_solver]].
  destruct (ReceiptIndex_withdrawal index signed) eqn:E.
  - split; [by intros H; destruct (H _ eq_refl)|naive_solver].
  - split; [eauto|done].
Qed.
End exact.

(** When a block whose order is recovered is found clean. *)
Lemma scan_block_clean `{C : Crypto} (block : ObservedBlock) (executed : list ObservedTransaction)
    (receipts : list SignedReceipt) (operator : Operator) (identity : bytes)
    (Horder : executed_order block = Some executed) :
  let index := ReceiptIndex_build receipts operator in
  exists scan, scan_block block index operator identity = Ok scan /\
    (sc_faults scan = [] <->
      (forall txn, txn ∈ executed -> exists signed, live index txn signed) /\
      (forall i j a b ra rb, (i < j)%nat -> executed !! i = Some a -> executed !! j = Some b ->
         conflicts a b = true -> is_issued_by a identity = false -> is_issued_by b identity = false ->
         ReceiptIndex_find index a = Some ra -> ReceiptIndex_find index b = Some rb ->
         r_seq (s_receipt ra) < r_seq (s_receipt rb))).
Proof.
  cbv zeta. eexists. split; [by apply scan_block_verdicts|]. split.
  - intros Hnone.
    assert (forall f, VerdictFault f ∉ block_verdicts block executed (ReceiptIndex_build receipts operator) operator identity) as Hno.
    { intros f Hf%scan_of_faults. rewrite Hnone in Hf. by apply not_elem_of_nil in Hf. }
    assert (forall txn, txn ∈ executed -> exists signed, live (ReceiptIndex_build receipts operator) txn signed) as Hlive.
    { intros txn [i Hi]%list_elem_of_lookup. apply (ticket_clean block (as_u32 i) txn executed). intros f E.
      apply (Hno f), block_verdicts_fault. left. by exists i, txn. }
    split; [done|]. intros i j a b ra rb Hlt Hi Hj Hc Ia Ib Ea Eb.
    destruct (Z.lt_ge_cases (r_seq (s_receipt ra)) (r_seq (s_receipt rb))) as [|Hge]; [done|exfalso].
    destruct (Hlive a) as (ra' & Ea' & Wa); [by eapply list_elem_of_lookup_2|].
    destruct (Hlive b) as (rb' & Eb' & Wb); [by eapply list_elem_of_lookup_2|].
    rewrite Ea in Ea'. rewrite Eb in Eb'. injection Ea' as <-. injection Eb' as <-.
    eapply Hno, block_verdicts_fault. right. exists i, j, a, b. split_conj; [done..|].
    apply (check_pair_fault block executed); [done|]. split_conj; [done..|].
    exists ra, rb. split_conj; by try reflexivity.
  - intros [Hlive Hpairs]. apply elem_of_nil_inv.
    intros f [(i & txn & Hi & E)|(i & j & a & b & Hi & Hj & Hlt & E)]%scan_of_faults%block_verdicts_fault.
    + revert E. apply (ticket_clean block (as_u32 i) txn executed). eapply Hlive, list_elem_of_lookup_2, Hi.
    + apply (check_pair_fault block executed) in E
        as (Hc & Ia & Ib & ra & rb & [Ea _] & [Eb _] & Hle & _); [|done].
      pose proof (Hpairs i j a b ra rb Hlt Hi Hj Hc Ia Ib Ea Eb). unfold seq_of in Hle. lia.
Qed.

(** The faults of a block, each with everything it says. *)
Section faults.
Context `{C : Crypto} (block : ObservedBlock) (executed : list ObservedTransaction)
  (receipts : list SignedReceipt) (operator : Operator) (identity : bytes).

Abbreviation index := (ReceiptIndex_build receipts operator).

(** The transaction at [i] ran without a ticket, or on one that was withdrawn. *)
Definition ticket_fault (i : nat) (txn : ObservedTransaction) (f : Fault) : Prop :=
  ((forall s, s ∈ receipts -> accepted operator s -> ~ covers s txn) /\
   f = FaultUnticketed (b_slot block) (as_u32 i) (o_signature txn) (o_wire_bytes txn)) \/
  exists r w, ReceiptIndex_find index txn = Some r /\ ReceiptIndex_withdrawal index r = Some w /\
    f = FaultWithdrawnButExecuted r w (MkExecution (b_slot block) (as_u32 i))
          (b_previous_blockhash block) (b_blockhash block) (o_signature <$> executed).

(** [a] ran at [i], before [b] at [j], against the order of their tickets. *)
Definition order_fault (i : nat) (a : ObservedTransaction) (j : nat) (b : ObservedTransaction) (f : Fault) : Prop :=
  conflicts a b = true /\ is_issued_by a identity = false /\ is_issued_by b identity = false /\
  exists ra rb, live index a ra /\ live index b rb /\ seq_of rb <= seq_of ra /\
    f = FaultReorder (b_slot block) (b_previous_blockhash block) (b_blockhash block) (o_signature <$> executed)
          (MkReordered ra (o_wire_bytes a) (as_u32 i)) (MkReordered rb (o_wire_bytes b) (as_u32 j)).

Lemma ticket_fault_spec i txn f :
  check_ticket_is_live block (as_u32 i) txn executed index = VerdictFault f <-> ticket_fault i txn f.
Proof.
  unfold check_ticket_is_live, ticket_fault. rewrite <-ReceiptIndex_find_None.
  destruct (ReceiptIndex_find index txn) as [r|]; [|naive_solver].
  destruct (ReceiptIndex_withdrawal index r) as [w|] eqn:E; naive_solver.
Qed.

Lemma order_fault_spec i a j b f :
  executed_order block = Some executed ->
  check_pair block (as_u32 i) a (as_u32 j) b index operator identity = Ok (VerdictFault f) <-> order_fault i a j b f.
Proof. intros Horder. by apply check_pair_fault. Qed.

Lemma scan_block_faults :
  executed_order block = Some executed ->
  exists scan, scan_block block index operator identity = Ok scan /\
    forall f, f ∈ sc_faults scan <->
      (exists i txn, executed !! i = Some txn /\ ticket_fault i txn f) \/
      (exists i j a b, (i < j)%nat /\ executed !! i = Some a /\ executed !! j = Some b /\ order_fault i a j b f).
Proof.
  intros Horder. eexists. split; [by apply scan_block_verdicts|]. intros f.
  rewrite scan_of_faults, block_verdicts_fault. setoid_rewrite ticket_fault_spec.
  apply or_iff_compat_l. split; intros (i & j & a & b & H1 & H2 & H3 & H4); exists i, j, a, b; split_conj; try done;
    by apply order_fault_spec.
Qed.
End faults.

(** C26: the block scan is exact.  On a block whose order is recovered the scan finishes without a
    panic, and what it reports is exactly this.  For each executed transaction that no receipt of the
    operator covers, that it ran without a ticket; for each whose ticket was withdrawn, that it ran
    all the same; and for each two that conflict, were neither issued by the operator, hold tickets
    that were not withdrawn, and ran against the order of those tickets, that the first jumped ahead
    of the second: each with its slot, positions, receipts and bytes.  So it reports nothing exactly
    when every executed transaction holds a live ticket and any two that conflict and were not issued
    by the operator ran in the order of their tickets. *)
Theorem block_scan_exact `{C : Crypto} (block : ObservedBlock) (executed : list ObservedTransaction)
    (receipts : list SignedReceipt) (operator : Operator) (identity : bytes)
    (Horder : executed_order block = Some executed) :
  let index := ReceiptIndex_build receipts operator in
  exists scan, scan_block block index operator identity = Ok scan /\
    (forall f, f ∈ sc_faults scan <->
      (exists i txn, executed !! i = Some txn /\ ticket_fault block executed receipts operator i txn f) \/
      (exists i j a b, (i < j)%nat /\ executed !! i = Some a /\ executed !! j = Some b /\
         order_fault block executed receipts operator identity i a j b f)) /\
    (sc_faults scan = [] <->
      (forall txn, txn ∈ executed -> exists signed, live index txn signed) /\
      (forall i j a b ra rb, (i < j)%nat -> executed !! i = Some a -> executed !! j = Some b ->
         conflicts a b = true -> is_issued_by a identity = false -> is_issued_by b identity = false ->
         ReceiptIndex_find index a = Some ra -> ReceiptIndex_find index b = Some rb ->
         r_seq (s_receipt ra) < r_seq (s_receipt rb))).
Proof.
  destruct (scan_block_faults block executed receipts operator identity Horder) as (scan & E & Hf).
  destruct (scan_block_clean block executed receipts operator identity Horder) as (scan' & E' & Hclean).
  exists scan. split_conj; [done..|]. assert (scan = scan') as -> by congruence. exact Hclean.
Qed.

#[local] Existing Instance toy_crypto.

(** The two stamped transactions of [toy_log] and the one revealed for its commitment; all write
    one account. *)
Definition toy_txn (signature : byte) (wire : bytes) : ObservedTransaction :=
  MkObserved (fill 64 signature) (toy_hash wire) (fill 32 x60) [fill 32 x60; fill 32 x70] [] wire.
Definition toy_first : ObservedTransaction := toy_txn x09 toy_wire1.
Definition toy_second : ObservedTransaction := toy_txn x0b toy_wire2.
Definition toy_revealed : ObservedTransaction := toy_txn x0a toy_wire2.

(** A block in which [dispatched] ran, listed the way getBlock lists it. *)
Definition toy_block (dispatched : list ObservedTransaction) : ObservedBlock :=
  MkBlock 14 (fill 32 x02) (fold (C := toy_crypto) (fill 32 x02) (o_signature <$> dispatched))
    (reverse dispatched).

Lemma toy_block_order dispatched :
  dispatched = [toy_first; toy_second] \/ dispatched = [toy_second; toy_first] \/
  dispatched = [toy_revealed; toy_first] ->
  executed_order (C := toy_crypto) (toy_block dispatched) = Some dispatched.
Proof. intros [->|[->| ->]]; vm_compute; reflexivity. Qed.

Lemma executed_order_recovered_witness :
  signatures_wf [toy_first; toy_second] /\
  is_Some (executed_order (C := toy_crypto)
    (MkBlock 14 (fill 32 x02) (fold (C := toy_crypto) (fill 32 x02) (o_signature <$> [toy_first; toy_second]))
       (reverse [toy_first; toy_second]))).
Proof.
  assert (signatures_wf [toy_first; toy_second]) as Hwf by eval_done. split; [exact Hwf|].
  apply (executed_order_recovered (C := toy_crypto) 14 (fill 32 x02) [toy_first; toy_second] Hwf).
Defined.

(** The block that ran the second transaction before the first is accused. *)
Lemma block_scan_exact_witness :
  exists scan, scan_block (C := toy_crypto) (toy_block [toy_second; toy_first])
    (ReceiptIndex_build (C := toy_crypto) toy_log toy_operator) toy_operator (fill 32 x41) = Ok scan /\
    sc_faults scan <> [].
Proof.
  destruct (block_scan_exact (C := toy_crypto) (toy_block [toy_second; toy_first]) [toy_second; toy_first]
    toy_log toy_operator (fill 32 x41) (toy_block_order [toy_second; toy_first] ltac:(tauto))) as (scan & E & _ & Hiff).
  exists scan. split; [exact E|]. intros Hnone. apply Hiff in Hnone as [_ Hpairs].
  assert (2 < 0) as Habs; [|discriminate Habs].
  eapply (Hpairs 0%nat 1%nat toy_second toy_first (nth 2 toy_log (MkSigned sample_receipt []))
    (nth 0 toy_log (MkSigned sample_receipt [])) ltac:(lia)); vm_compute; reflexivity.
Defined.

(** What it takes for an accusation of the block scan to re-derive. *)
Definition re_derivable `{C : Crypto} (f : Fault) : Prop :=
  match f with
  | FaultWithdrawnButExecuted receipt withdrawal _ _ _ _ =>
      r_mode (s_receipt receipt) = Plain /\ r_seq (s_receipt receipt) < r_seq (s_receipt withdrawal)
  | FaultReorder _ _ _ _ jumped delayed =>
      r_mode (s_receipt (rt_receipt jumped)) = Plain /\
      r_mode (s_receipt (rt_receipt delayed)) = Plain /\
      tx_hash (rt_wire_bytes jumped) = r_tx_hash (s_receipt (rt_receipt jumped)) /\
      tx_hash (rt_wire_bytes delayed) = r_tx_hash (s_receipt (rt_receipt delayed)) /\
      r_seq (s_receipt (rt_receipt jumped)) <> r_seq (s_receipt (rt_receipt delayed))
  | _ => True
  end.

Lemma bind_unit_Ok {E} (r r' : result E unit) : (_ ← r; r') = Ok tt <-> r = Ok tt /\ r' = Ok tt.
Proof. destruct r as [[]| |]; cbv [mbind result_bind]; naive_solver. Qed.

(** When the evidence of a block fault re-derives. *)
Lemma block_evidence_iff `{C : Crypto} (block : ObservedBlock)
    (executed : list ObservedTransaction) (receipts : list SignedReceipt) (operator : Operator)
    (identity : bytes) (scan : Scan) (f : Fault)
    (Horder : executed_order block = Some executed)
    (Hlen : Z.of_nat (length executed) < 2 ^ 32)
    (Hsig : forall txn, txn ∈ executed -> o_signature txn <> ZERO_SIG)
    (Hscan : scan_block block (ReceiptIndex_build receipts operator) operator identity = Ok scan)
    (Hf : f ∈ sc_faults scan) :
  Fault_verify f (op_key operator) = Ok tt <-> re_derivable f.
Proof.
  rewrite (scan_block_verdicts _ executed) in Hscan by done. injection Hscan as <-.
  apply scan_of_faults, block_verdicts_fault in Hf as [(i & txn & Hi & E)|(i & j & a & b & Hi & Hj & Hlt & E)].
  - unfold check_ticket_is_live in E. destruct (ReceiptIndex_find _ _) as [signed|] eqn:Hfind; [|by injection E as <-].
    destruct (ReceiptIndex_withdrawal _ _) as [w|] eqn:Hw; [|done]. injection E as <-.
    apply ReceiptIndex_find_Some in Hfind as (_ & Ha & Hc).
    rewrite ReceiptIndex_withdrawal_build in Hw. apply Withdrawals_build_Some in Hw as (_ & [Hm Hwa] & Hwh).
    apply executed_order_fold in Horder as [Hfold _].
    cbn [Fault_verify re_derivable e_index]. rewrite !(signed_by_accepted operator), (same_log_accepted operator) by done. res_run.
    rewrite !bind_unit_Ok, !ensure_Ok, !bool_decide_eq_true, negb_true_iff, Z.leb_gt.
    rewrite (found_at_position executed i txn) by done.
    rewrite <-(covers_signature operator signed txn) by eauto using list_elem_of_lookup_2.
    naive_solver.
  - apply (check_pair_fault block executed) in E
      as (Hcf & Ia & Ib & ra & rb & [Ea _] & [Eb _] & Hle & ->); [|done].
    apply ReceiptIndex_find_Some in Ea as (_ & Aa & Ca), Eb as (_ & Ab & Cb).
    apply executed_order_fold in Horder as [Hfold _].
    assert (as_u32 i < as_u32 j).
    { apply (as_u32_lt i j (length executed)); eauto using lookup_lt_Some. }
    cbn [Fault_verify re_derivable]. unfold ReorderedTransaction_verify, at_index. cbn [rt_receipt rt_wire_bytes rt_index].
    destruct (Aa) as [_ Va], (Ab) as [_ Vb]. rewrite Va, Vb, (same_log_accepted operator) by done. res_run.
    rewrite !bind_unit_Ok, !ensure_Ok, !bool_decide_eq_true, !negb_true_iff, !Z.leb_gt.
    rewrite (found_at_position executed i a), (found_at_position executed j b) by done.
    rewrite <-(covers_signature operator ra a), <-(covers_signature operator rb b) by eauto using list_elem_of_lookup_2.
    unfold seq_of in Hle. naive_solver lia.
Qed.

(** C38: which accusations of the block scan re-derive.  A fault found in a block verifies under the
    operator's key exactly when it is about plain receipts whose digests are those of the executed
    bytes and whose sequence numbers differ; for a withdrawn transaction, when its receipt is plain
    and the withdrawal comes later in the log.  In particular an accusation that rests on a
    commitment ticket never verifies, although a ticket is a promise of order like any other: the
    check looks in the block for the signature the ticket could not name. *)
Theorem block_evidence_verifies_iff `{C : Crypto} (block : ObservedBlock)
    (executed : list ObservedTransaction) (receipts : list SignedReceipt) (operator : Operator)
    (identity : bytes) (scan : Scan) (f : Fault)
    (Horder : executed_order block = Some executed)
    (Hlen : Z.of_nat (length executed) < 2 ^ 32)
    (Hsig : forall txn, txn ∈ executed -> o_signature txn <> ZERO_SIG)
    (Hscan : scan_block block (ReceiptIndex_build receipts operator) operator identity = Ok scan)
    (Hf : f ∈ sc_faults scan) :
  Fault_verify f (op_key operator) = Ok tt <-> re_derivable f.
Proof. by eapply block_evidence_iff. Qed.

(** A transaction run ahead of an earlier one on the strength of a commitment ticket. *)
Definition toy_ticket_fault : Fault :=
  FaultReorder 14 (fill 32 x02)
    (fold (C := toy_crypto) (fill 32 x02) (o_signature <$> [toy_revealed; toy_first]))
    (o_signature <$> [toy_revealed; toy_first])
    (MkReordered (nth 1 toy_log (MkSigned sample_receipt [])) toy_wire2 0)
    (MkReordered (nth 0 toy_log (MkSigned sample_receipt [])) toy_wire1 1).

Lemma block_evidence_verifies_iff_witness :
  exists scan, scan_block (C := toy_crypto) (toy_block [toy_revealed; toy_first])
    (ReceiptIndex_build (C := toy_crypto) toy_log toy_operator) toy_operator (fill 32 x41) = Ok scan /\
    toy_ticket_fault ∈ sc_faults scan /\
    Fault_verify (C := toy_crypto) toy_ticket_fault (op_key toy_operator) <> Ok tt.
Proof.
  assert (executed_order (C := toy_crypto) (toy_block [toy_revealed; toy_first])
    = Some [toy_revealed; toy_first]) as Horder by (apply toy_block_order; tauto).
  eexists. split; [exact (scan_block_verdicts _ _ _ _ _ Horder)|].
  match goal with |- ?f ∈ ?l /\ _ => assert (f ∈ l) as Hin end.
  { apply list_elem_of_In. vm_compute. left. reflexivity. }
  split; [exact Hin|]. intros Hv.
  pose proof (block_evidence_verifies_iff (C := toy_crypto) (toy_block [toy_revealed; toy_first])
    [toy_revealed; toy_first] toy_log toy_operator (fill 32 x41) _ toy_ticket_fault Horder
    ltac:(eval_done) ltac:(apply Forall_forall; eval_done) (scan_block_verdicts _ _ _ _ _ Horder) Hin)
    as Hiff.
  apply Hiff in Hv as [Hm _]. discriminate Hm.
Defined.
