(* ===== verification/Withholding.v ===== *)
(** * The delivery scan: crates/watchtower/src/withholding.rs, blockhash_slots.rs

    [scan_withholding] looks for transactions the operator sequenced and then sat on, and for
    receipts whose own fields contradict each other; [BlockhashSlots] is the bounded memory of
    block hashes it places receipts with. *)
From S2P Require Import Prelude Constants Crypto Receipt ReceiptLog Columns Rocks Store Writer WriterLog WriterProperties Watchtower LogScan BlockScan ToyLog.

Record Patience : Type := MkPatience {
  p_held_slots : Z;
  p_absent_slots : Z;
  p_reveal_slots : Z;
  p_max_blockhash_age : Z;
}.

Definition Patience_default : Patience := MkPatience 32 64 150 1200.

(** The argument is [MB_REVEAL_DEADLINE_SLOTS], trimmed and parsed. *)
Definition Patience_from_env (reveal_deadline_slots : option Z) : Patience :=
  MkPatience (p_held_slots Patience_default) (p_absent_slots Patience_default)
    (default (p_reveal_slots Patience_default) reveal_deadline_slots)
    (p_max_blockhash_age Patience_default).

Section scan.
Context `{C : Crypto}.
Implicit Types (receipt : SignedReceipt) (executed : ExecutionIndex) (blockhashes : BlockhashSlots).

Definition check_ingress_is_possible receipt blockhashes (patience : Patience) : Verdict :=
  if decide (r_mode (s_receipt receipt) = Commit) then Clean
  else
    match BlockhashSlots_slot_of blockhashes (r_recent_blockhash (s_receipt receipt)) with
    | None => CannotDetermine (UnknownBlockhash (seq_of receipt))
    | Some blockhash_slot =>
        let ingress := r_ingress_slot (s_receipt receipt) in
        let impossible := (ingress <? blockhash_slot) ||
          (p_max_blockhash_age patience <? saturating_sub ingress blockhash_slot) in
        if impossible
        then VerdictFault (FaultImpossibleIngress receipt blockhash_slot (p_max_blockhash_age patience))
        else Clean
    end.

Definition check_delivery receipt executed (head : Z) (patience : Patience) : Verdict :=
  let ingress := r_ingress_slot (s_receipt receipt) in
  match ExecutionIndex_find executed receipt with
  | None =>
      let waited := saturating_sub head ingress in
      if decide (r_mode (s_receipt receipt) = Commit) then
        if p_reveal_slots patience <? waited
        then VerdictFault (FaultNotRevealed receipt head waited)
        else CannotDetermine (NotYetExecuted (seq_of receipt))
      else if p_absent_slots patience <? waited
      then VerdictFault (FaultAbsent receipt head waited)
      else CannotDetermine (NotYetExecuted (seq_of receipt))
  | Some execution =>
      let held := saturating_sub (e_slot execution) ingress in
      if (ingress <=? e_slot execution) && (p_held_slots patience <? held)
      then VerdictFault (FaultWithheld receipt execution held)
      else Clean
  end.

Definition withholding_step executed blockhashes (head : Z) (patience : Patience) (operator : Operator)
    (withdrawn : Withdrawals) (scan : Scan) receipt : Scan :=
  if is_err (Operator_accepts operator receipt) then scan
  else if decide (r_mode (s_receipt receipt) = Retract) then scan
  else
    let scan := Scan_record scan (check_ingress_is_possible receipt blockhashes patience) in
    match Withdrawals_of withdrawn receipt with
    | Some _ => scan
    | None => Scan_record scan (check_delivery receipt executed head patience)
    end.

Definition scan_withholding (receipts : list SignedReceipt) executed blockhashes (head : Z)
    (patience : Patience) (operator : Operator) : Scan :=
  let withdrawn := Withdrawals_build receipts operator in
  foldl (withholding_step executed blockhashes head patience operator withdrawn) Scan_default receipts.

(** ** The scan as a list of verdicts *)

Definition delivery_verdicts executed blockhashes (head : Z) (patience : Patience) (operator : Operator) (withdrawn : Withdrawals)
    receipt : list Verdict :=
  if decide (accepted operator receipt /\ r_mode (s_receipt receipt) <> Retract) then
    check_ingress_is_possible receipt blockhashes patience ::
    match Withdrawals_of withdrawn receipt with
    | Some _ => []
    | None => [check_delivery receipt executed head patience]
    end
  else [].

Lemma scan_withholding_verdicts receipts executed blockhashes head patience operator :
  scan_withholding receipts executed blockhashes head patience operator =
    scan_of (receipts ≫= delivery_verdicts executed blockhashes head patience operator
                           (Withdrawals_build receipts operator)).
Proof.
  unfold scan_withholding, scan_of. generalize (Withdrawals_build receipts operator) as w. intros w.
  generalize Scan_default. induction receipts as [|r rs IH]; intros scan; [done|].
  cbn [foldl mbind list_bind]. rewrite foldl_app, IH. f_equal.
  unfold withholding_step, delivery_verdicts. rewrite Operator_accepts_is_err.
  case_bool_decide; repeat case_decide; try naive_solver.
  cbn. by destruct (Withdrawals_of w r).
Qed.

(** What makes the delivery of a receipt a fault. *)
Definition undelivered receipt executed (head : Z) (patience : Patience) (f : Fault) : Prop :=
  let ingress := r_ingress_slot (s_receipt receipt) in
  match ExecutionIndex_find executed receipt with
  | Some execution =>
      ingress <= e_slot execution /\ p_held_slots patience < e_slot execution - ingress /\
      f = FaultWithheld receipt execution (e_slot execution - ingress)
  | None =>
      let waited := saturating_sub head ingress in
      (r_mode (s_receipt receipt) = Commit /\ p_reveal_slots patience < waited /\
         f = FaultNotRevealed receipt head waited) \/
      (r_mode (s_receipt receipt) <> Commit /\ p_absent_slots patience < waited /\
         f = FaultAbsent receipt head waited)
  end.

(** What makes the arrival a receipt claims impossible. *)
Definition misdated receipt blockhashes (patience : Patience) (f : Fault) : Prop :=
  r_mode (s_receipt receipt) <> Commit /\
  exists slot, BlockhashSlots_slot_of blockhashes (r_recent_blockhash (s_receipt receipt)) = Some slot /\
    (r_ingress_slot (s_receipt receipt) < slot \/
     p_max_blockhash_age patience < saturating_sub (r_ingress_slot (s_receipt receipt)) slot) /\
    f = FaultImpossibleIngress receipt slot (p_max_blockhash_age patience).

Lemma check_delivery_fault receipt executed head patience f :
  check_delivery receipt executed head patience = VerdictFault f <->
  undelivered receipt executed head patience f.
Proof.
  unfold check_delivery, undelivered, saturating_sub. destruct (ExecutionIndex_find _ _) as [e|].
  - destruct (Z.leb_spec (r_ingress_slot (s_receipt receipt)) (e_slot e)) as [Hle|]; cbn [andb].
    + replace (Z.max 0 (e_slot e - r_ingress_slot (s_receipt receipt)))
        with (e_slot e - r_ingress_slot (s_receipt receipt)) by lia.
      destruct (Z.ltb_spec (p_held_slots patience) (e_slot e - r_ingress_slot (s_receipt receipt)));
        [naive_solver|split; [done|lia]].
    + split; [done|lia].
  - case_decide; case_match eqn:E; rewrite ?Z.ltb_lt, ?Z.ltb_ge in E; naive_solver lia.
Qed.

Lemma check_ingress_fault receipt blockhashes patience f :
  check_ingress_is_possible receipt blockhashes patience = VerdictFault f <->
  misdated receipt blockhashes patience f.
Proof.
  unfold check_ingress_is_possible, misdated. case_decide; [split; [done|naive_solver]|].
  destruct (BlockhashSlots_slot_of _ _) as [slot|]; [|split; [done|naive_solver]].
  case_match eqn:E; rewrite ?orb_true_iff, ?orb_false_iff, ?Z.ltb_lt, ?Z.ltb_ge in E; [naive_solver|].
  split; [done|]. intros (_ & s & [= <-] & Hor & _). lia.
Qed.
End scan.

(** ** The window of block hashes *)

Lemma NoDup_snoc {A} (l : list A) x : NoDup l -> x ∉ l -> NoDup (l ++ [x]).
Proof.
  intros Hl Hx. apply NoDup_app. split_conj; [done| |apply NoDup_singleton].
  intros y Hy E%list_elem_of_singleton. by subst.
Qed.

Section window.
Implicit Types (self : BlockhashSlots).

(** The queue lists what the map holds, once, and is no longer than the capacity. *)
Record window_inv self : Prop := {
  wn_nodup : NoDup (bs_order self);
  wn_dom : forall h, is_Some (bs_slots self !! h) <-> h ∈ bs_order self;
  wn_bound : (length (bs_order self) <= bs_capacity self)%nat;
  wn_capacity : (1 <= bs_capacity self)%nat;
}.

Lemma window_inv_new capacity : window_inv (BlockhashSlots_new capacity).
Proof.
  split; cbn; [constructor| |lia..]. intros h. rewrite elem_of_nil. split; [by intros [? ?]|done].
Qed.

Lemma evict_full capacity slots h order :
  length order = capacity -> evict capacity slots (h :: order) = (delete h slots, order).
Proof.
  intros Hlen. cbn. rewrite decide_True by (cbn; lia). destruct order; cbn; [done|].
  rewrite decide_False by (cbn in *; lia). done.
Qed.

Lemma evict_room capacity slots order :
  (length order <= capacity)%nat -> evict capacity slots order = (slots, order).
Proof. intros Hlen. destruct order; cbn; [done|]. rewrite decide_False by (cbn in *; lia). done. Qed.

(** Recording a hash that is already known only updates its slot; a new one goes to the back, and
    the oldest leaves when there is no room. *)
Lemma BlockhashSlots_record_spec self h slot :
  window_inv self ->
  BlockhashSlots_record self h slot =
    match bs_slots self !! h with
    | Some _ => MkSlots (<[h := slot]> (bs_slots self)) (bs_order self) (bs_capacity self)
    | None =>
        if decide (length (bs_order self) < bs_capacity self)%nat
        then MkSlots (<[h := slot]> (bs_slots self)) (bs_order self ++ [h]) (bs_capacity self)
        else MkSlots (delete (hd h (bs_order self)) (<[h := slot]> (bs_slots self)))
               (tail (bs_order self) ++ [h]) (bs_capacity self)
    end.
Proof.
  intros [_ _ Hb Hc]. unfold BlockhashSlots_record. destruct (bs_slots self !! h); [done|].
  case_decide as Hroom.
  - rewrite evict_room; [done|]. rewrite length_app. cbn. lia.
  - destruct (bs_order self) as [|x order] eqn:Ho; cbn [length] in *; [lia|].
    change ((x :: order) ++ [h]) with (x :: (order ++ [h])).
    rewrite evict_full by (rewrite length_app; cbn; lia). done.
Qed.

Lemma window_inv_record self h slot : window_inv self -> window_inv (BlockhashSlots_record self h slot).
Proof.
  intros Hi. rewrite BlockhashSlots_record_spec by done. destruct Hi as [Hn Hd Hb Hc].
  destruct (bs_slots self !! h) eqn:E.
  - split; cbn; [done| |done..]. intros k. rewrite <-Hd.
    destruct (decide (k = h)) as [->|]; [rewrite lookup_insert_eq, E; naive_solver|by rewrite lookup_insert_ne].
  - assert (h ∉ bs_order self) as Hh by (rewrite <-Hd, E; by intros [? ?]).
    case_decide.
    + split; cbn; [apply NoDup_snoc; [done..]| |rewrite length_app; cbn; lia|done].
      intros k. rewrite elem_of_app, list_elem_of_singleton, <-Hd.
      destruct (decide (k = h)) as [->|]; [rewrite lookup_insert_eq; naive_solver|rewrite lookup_insert_ne; naive_solver].
    + destruct (bs_order self) as [|x order]; cbn in *; [lia|].
      apply NoDup_cons in Hn as [Hx Hn]. apply not_elem_of_cons in Hh as [Hhx Hh].
      split; cbn; [apply NoDup_snoc; [done..]| |rewrite length_app; cbn; lia|done].
      intros k. rewrite elem_of_app, list_elem_of_singleton.
      destruct (decide (k = x)) as [->|].
      { rewrite lookup_delete_eq. split; [by intros [? ?]|naive_solver]. }
      rewrite lookup_delete_ne by done. specialize (Hd k). rewrite elem_of_cons in Hd.
      destruct (decide (k = h)) as [->|]; [rewrite lookup_insert_eq; naive_solver|rewrite lookup_insert_ne; naive_solver].
Qed.

(** The hashes and slots of a stretch of blocks, recorded one after the other. *)
Definition record_all self (blocks : list (bytes * Z)) : BlockhashSlots :=
  foldl (fun self block => BlockhashSlots_record self block.1 block.2) self blocks.

Lemma window_inv_record_all self blocks : window_inv self -> window_inv (record_all self blocks).
Proof.
  revert self. induction blocks as [|b blocks IH]; intros self Hi; [done|].
  cbn. by apply IH, window_inv_record.
Qed.

Lemma record_capacity self h slot : bs_capacity (BlockhashSlots_record self h slot) = bs_capacity self.
Proof. unfold BlockhashSlots_record. by repeat case_match. Qed.

Lemma record_all_capacity self blocks : bs_capacity (record_all self blocks) = bs_capacity self.
Proof.
  revert self. induction blocks as [|b blocks IH]; intros self; [done|].
  cbn. rewrite IH. apply record_capacity.
Qed.

Lemma window_size self : window_inv self -> BlockhashSlots_len self = length (bs_order self).
Proof.
  intros [Hn Hd _ _]. unfold BlockhashSlots_len. rewrite <-size_dom, <-(size_list_to_set (C := gset bytes)) by done.
  f_equal. apply set_eq. intros h. rewrite elem_of_dom, elem_of_list_to_set. apply Hd.
Qed.

(** On hashes that do not repeat, the window holds the most recent ones. *)
Lemma window_recent capacity blocks :
  NoDup blocks.*1 ->
  let self := record_all (BlockhashSlots_new capacity) blocks in
  let recent := drop (length blocks - Nat.max capacity 1) blocks in
  bs_order self = recent.*1 /\ forall h s, bs_slots self !! h = Some s <-> (h, s) ∈ recent.
Proof.
  cbv zeta. set (c := Nat.max capacity 1). induction blocks as [|[h slot] blocks IH] using rev_ind; intros Hnd.
  { split; [done|]. intros h s. cbn. rewrite drop_nil. split; [done|]. by intros ?%not_elem_of_nil. }
  rewrite fmap_app in Hnd. apply NoDup_app in Hnd as (Hnd & Hnew & _).
  assert (h ∉ blocks.*1) as Hh by (intros Hin; apply (Hnew h Hin); left).
  destruct (IH Hnd) as [Ho Hs].
  pose proof (window_inv_record_all _ blocks (window_inv_new capacity)) as Hi.
  pose proof (record_all_capacity (BlockhashSlots_new capacity) blocks) as Hc. cbn in Hc. change (Nat.max capacity 1) with c in Hc.
  unfold record_all in *. rewrite foldl_app. cbn [foldl fst snd]. rewrite BlockhashSlots_record_spec by done.
  set (self := foldl _ _ blocks) in *. set (recent := drop (length blocks - c) blocks) in *.
  assert (forall b, b ∈ recent -> b ∈ blocks) as Hsub.
  { intros b Hb. subst recent. rewrite <-(take_drop (length blocks - c) blocks). apply elem_of_app. by right. }
  assert (forall s, (h, s) ∉ recent) as Hnot.
  { intros s Hb. apply Hh, list_elem_of_fmap. exists (h, s). auto. }
  assert (bs_slots self !! h = None) as ->.
  { apply eq_None_not_Some. intros [s Hin%Hs]. by eapply Hnot. }
  assert (length recent = Nat.min (length blocks) c) as Hlen by (subst recent; rewrite length_drop; lia).
  rewrite Ho, Hc, length_fmap, Hlen, length_app. cbn [length].
  assert (1 <= c)%nat by (subst c; lia).
  case_decide as Hroom; cbn [bs_order bs_slots].
  - replace (drop (length blocks + 1 - c) (blocks ++ [(h, slot)])) with (recent ++ [(h, slot)]).
    2: { subst recent. replace (length blocks - c)%nat with 0%nat by lia. by replace (length blocks + 1 - c)%nat with 0%nat by lia. }
    split; [by rewrite fmap_app|]. intros k s. rewrite elem_of_app, list_elem_of_singleton, lookup_insert_Some, Hs.
    naive_solver.
  - assert (drop (length blocks - c) blocks = recent) as Hrec by done. clearbody recent.
    destruct recent as [|[x sx] recent']; [cbn in Hlen; lia|].
    replace (drop (length blocks + 1 - c) (blocks ++ [(h, slot)])) with (recent' ++ [(h, slot)]).
    2: { rewrite drop_app_le by lia. replace (length blocks + 1 - c)%nat with (1 + (length blocks - c))%nat by lia.
         rewrite Nat.add_comm, <-drop_drop, Hrec. done. }
    split; [by rewrite fmap_app|]. intros k s. cbn [hd fmap list_fmap fst].
    assert (x ∉ recent'.*1) as Hx.
    { destruct Hi as [Hn _ _ _]. rewrite Ho in Hn. by apply NoDup_cons in Hn as [? _]. }
    assert (x <> h) as Hxh by (intros ->; eapply Hnot; left).
    rewrite elem_of_app, list_elem_of_singleton, lookup_delete_Some, lookup_insert_Some, Hs, elem_of_cons.
    split; [naive_solver|]. intros [Hin|[= -> ->]]; [|naive_solver]. split.
    + intros <-. apply Hx, list_elem_of_fmap. by exists (x, s).
    + right. split; [|by right]. intros <-. by eapply Hnot; right.
Qed.
End window.

(** ** Properties *)

(** C27: the delivery scan is exact.  It accuses exactly on a receipt the operator signed for this
    log, other than a retraction: because it claims an arrival before its block hash existed or
    after the node would have refused it; or, unless a retraction took it back, because its
    transaction ran more than the allowed number of slots after the arrival, or has not run although
    its grace period, counted to the newest slot seen, is over.  Every such fault re-derives under
    the operator's key. *)
Theorem delivery_scan_exact `{C : Crypto} (receipts : list SignedReceipt) (executed : ExecutionIndex)
    (blockhashes : BlockhashSlots) (head : Z) (patience : Patience) (operator : Operator) (f : Fault) :
  (f ∈ sc_faults (scan_withholding receipts executed blockhashes head patience operator) <->
   exists r, r ∈ receipts /\ accepted operator r /\ r_mode (s_receipt r) <> Retract /\
     (misdated r blockhashes patience f \/
      (undelivered r executed head patience f /\
       forall w, w ∈ receipts -> accepted_in Retract operator w ->
         r_tx_hash (s_receipt w) <> receipt_hash r))) /\
  (f ∈ sc_faults (scan_withholding receipts executed blockhashes head patience operator) ->
   Fault_verify f (op_key operator) = Ok tt).
Proof.
  rewrite scan_withholding_verdicts, scan_of_faults, list_elem_of_bind. unfold delivery_verdicts.
  assert (forall r, VerdictFault f ∈ delivery_verdicts executed blockhashes head patience operator
      (Withdrawals_build receipts operator) r <->
    accepted operator r /\ r_mode (s_receipt r) <> Retract /\
    (misdated r blockhashes patience f \/
     (undelivered r executed head patience f /\
      Withdrawals_of (Withdrawals_build receipts operator) r = None))) as Hr.
  { intros r. unfold delivery_verdicts. rewrite <-check_ingress_fault, <-check_delivery_fault.
    case_decide as Hd; [|rewrite elem_of_nil; tauto]. rewrite elem_of_cons.
    destruct (Withdrawals_of _ r); rewrite ?elem_of_nil, ?list_elem_of_singleton; naive_solver. }
  split.
  - setoid_rewrite <-Withdrawals_build_None. setoid_rewrite Hr. naive_solver.
  - intros (r & (Ha & _ & [Hm|[Hu _]])%Hr & _).
    + destruct Hm as (_ & slot & _ & Hlate & ->). cbn. rewrite (signed_by_accepted operator) by done. res_run.
      apply ensure_Ok, orb_true_iff. rewrite !Z.ltb_lt. done.
    + unfold undelivered in Hu. destruct (ExecutionIndex_find executed r) as [e|].
      * destruct Hu as (Hle & Hheld & ->). cbn. rewrite (signed_by_accepted operator) by done. res_run.
        apply ensure_Ok, negb_true_iff, orb_false_iff. rewrite Z.ltb_ge, bool_decide_eq_false. split; [lia|naive_solver].
      * destruct Hu as [(_ & _ & ->)|(_ & _ & ->)]; by apply signed_by_accepted.
Qed.

(** the memory of block hashes is a bounded window.  Whatever is recorded, it never holds more
    hashes than its capacity; and as long as hashes do not repeat it answers for exactly the most
    recent ones, as many as the capacity, each with its slot. *)
Theorem blockhash_window (capacity : nat) (blocks : list (bytes * Z)) :
  let self := record_all (BlockhashSlots_new capacity) blocks in
  (BlockhashSlots_len self <= Nat.max capacity 1)%nat /\
  (NoDup blocks.*1 ->
   forall h s, BlockhashSlots_slot_of self h = Some s <->
     (h, s) ∈ drop (length blocks - Nat.max capacity 1) blocks).
Proof.
  cbv zeta. pose proof (window_inv_record_all _ blocks (window_inv_new capacity)) as Hi. split.
  - rewrite window_size by done. pose proof (wn_bound _ Hi) as Hb.
    by rewrite record_all_capacity in Hb.
  - intros Hnd h s. by apply window_recent.
Qed.
