(* ===== verification/Watch.v ===== *)
(** * The watchtower's main loop: crates/watchtower/src/main.rs, court.rs

    One turn of the loop is a function from what the node answers to the watchtower's next state: its
    counters, its indexes, what it printed, and the transactions it sent to the court. *)
From S2P Require Import Prelude Constants Crypto Receipt Accounts Runtime Evidence Processor Court Wire Watchtower LogScan BlockScan Client Withholding.

Definition RECEIPT_PAGE : Z := 1000.

(** ** Counters *)

Record Totals : Type := MkTotals {
  t_faults : nat;
  t_undetermined : gmap string nat;
  t_blocks_with_transactions : nat;
  t_transactions : nat;
  t_order : gmap string nat;
}.

Definition Totals_default : Totals := MkTotals 0 ∅ 0 0 ∅.

Definition undetermined_count (self : Totals) : nat := map_fold (fun _ count sum => (count + sum)%nat) 0%nat (t_undetermined self).

(** [*map.entry(key).or_default() += 1] *)
Definition count_entry (key : string) (m : gmap string nat) : gmap string nat :=
  <[key := S (default 0%nat (m !! key))]> m.

Definition reason (undetermined : Undetermined) : string :=
  match undetermined with
  | SequenceGap _ _ => "sequence gap"
  | MissingOrigin _ => "log does not start at zero"
  | ForeignLogReceipt _ => "receipt from another run of the log"
  | UnverifiableReceipt _ => "receipt not signed by the operator"
  | UnverifiableBlock _ => "block hash not reproduced"
  | MissingReceipt _ => "receipt missing for a pair"
  | WithdrawnReceipt _ => "receipt withdrawn for a pair"
  | OperatorIssuedPair _ => "operator-issued pair"
  | UnknownBlockhash _ => "blockhash outside the window"
  | NotYetExecuted _ => "not yet executed"
  end%string.

(** Which fields two receipts for one position disagree on. *)
Definition disagreements (a b : SignedReceipt) : list string :=
  let '(a, b) := (s_receipt a, s_receipt b) in
  let differ {A} `{EqDecision A} (x y : A) (name : string) : list string := if decide (x = y) then [] else [name] in
  let fields :=
    differ (r_tx_sig a) (r_tx_sig b) "tx_sig"%string ++ differ (r_tx_hash a) (r_tx_hash b) "tx_hash"%string ++
    differ (r_recent_blockhash a) (r_recent_blockhash b) "recent_blockhash"%string ++
    differ (r_prev_receipt_hash a) (r_prev_receipt_hash b) "prev_receipt_hash"%string ++
    differ (r_ingress_slot a) (r_ingress_slot b) "ingress_slot"%string ++
    differ (r_t_ingress_micros a) (r_t_ingress_micros b) "t_ingress_micros"%string ++
    differ (r_committer a) (r_committer b) "committer"%string in
  match fields with [] => ["nothing (identical)"%string] | _ => fields end.

(** ** State *)

(** The heading of a report. *)
Inductive Heading : Type := ReceiptLogHeading | SlotHeading (slot : Z) | DeliveryHeading.

(** A printed fault, with whether its evidence verified. *)
Record Printed : Type := MkPrinted { pr_heading : Heading; pr_fault : Fault; pr_verified : bool }.

Section watch.
Context `{C : Crypto} `{R : Runtime} `{J : Json} `{S : Solana}.

(** *** court.rs *)

(** [Court], without the connection it sends through. *)
Record CourtHandle : Type := MkCourt { ct_payer : bytes; ct_addresses : Addresses }.

(** The transactions a fault leads to; whether the chain took them is only printed. Finding an
    address panics when there is none. *)
Definition convict (self : CourtHandle) (fault : Fault) (operator : Operator)
    : may_panic (list (list SolInstruction)) :=
  match fault with
  | FaultEquivocation _ a b =>
      instructions ← expect (court_prove_equivocation (ct_addresses self) (ct_payer self) (op_key operator) a b);
      Ok [instructions]
  | _ => Ok []
  end.

Record WatchState : Type := MkWatch {
  ws_resolved : option Operator;
  ws_next_slot : Z;
  ws_totals : Totals;
  ws_blockhashes : BlockhashSlots;
  ws_executed : ExecutionIndex;
  ws_printed : list Printed;
  ws_submitted : list (list SolInstruction);
}.

Definition WatchState_new : WatchState :=
  MkWatch None 1 Totals_default BlockhashSlots_default ExecutionIndex_default [] [].

Implicit Types (state : WatchState) (operator : Operator) (court : option CourtHandle).

Definition with_resolved state operator : WatchState :=
  MkWatch (Some operator) (ws_next_slot state) (ws_totals state) (ws_blockhashes state) (ws_executed state)
    (ws_printed state) (ws_submitted state).
Definition with_next_slot state (slot : Z) : WatchState :=
  MkWatch (ws_resolved state) slot (ws_totals state) (ws_blockhashes state) (ws_executed state)
    (ws_printed state) (ws_submitted state).
Definition with_totals state (totals : Totals) : WatchState :=
  MkWatch (ws_resolved state) (ws_next_slot state) totals (ws_blockhashes state) (ws_executed state)
    (ws_printed state) (ws_submitted state).
Definition with_indexes state (blockhashes : BlockhashSlots) (executed : ExecutionIndex) : WatchState :=
  MkWatch (ws_resolved state) (ws_next_slot state) (ws_totals state) blockhashes executed
    (ws_printed state) (ws_submitted state).
Definition with_output state (printed : list Printed) (submitted : list (list SolInstruction)) : WatchState :=
  MkWatch (ws_resolved state) (ws_next_slot state) (ws_totals state) (ws_blockhashes state) (ws_executed state)
    (ws_printed state ++ printed) (ws_submitted state ++ submitted).

(** *** What a turn does *)

(** An answer of the node or a panic may stop a turn; what was printed or sent before it stays. *)
Definition watching (A : Type) : Type := WatchState -> result ClientError A * WatchState.

#[global] Instance watching_ret : MRet watching := fun A a state => (Ok a, state).
#[global] Instance watching_bind : MBind watching := fun A B k m state =>
  match m state with
  | (Ok a, state) => k a state
  | (Err e, state) => (Err e, state)
  | (Panic, state) => (Panic, state)
  end.

Definition lift {A} (r : result ClientError A) : watching A := fun state => (r, state).
Definition gets {A} (f : WatchState -> A) : watching A := fun state => (Ok (f state), state).
Definition modify (f : WatchState -> WatchState) : watching unit := fun state => (Ok tt, f state).

(** A panic in a computation with errors. *)
Definition or_panic {A} (r : may_panic A) : watching A :=
  lift (match r with Ok a => Ok a | _ => Panic end).

Fixpoint watch_each {A} (f : A -> watching unit) (l : list A) : watching unit :=
  match l with [] => mret tt | x :: l => _ ← f x; watch_each f l end.

(** *** report *)

Definition count_fault state : WatchState :=
  let totals := ws_totals state in
  with_totals state (MkTotals (t_faults totals + 1) (t_undetermined totals)
    (t_blocks_with_transactions totals) (t_transactions totals) (t_order totals)).

Definition count_undetermined (undetermined : list Undetermined) state : WatchState :=
  let totals := ws_totals state in
  with_totals state (MkTotals (t_faults totals)
    (foldl (fun m u => count_entry (reason u) m) (t_undetermined totals) undetermined)
    (t_blocks_with_transactions totals) (t_transactions totals) (t_order totals)).

Definition report_fault (heading : Heading) operator court (fault : Fault) : watching unit :=
  _ ← modify count_fault;
  let verified := is_ok (Fault_verify fault (op_key operator)) in
  _ ← modify (fun state => with_output state [MkPrinted heading fault verified] []);
  match court with
  | Some court =>
      if verified then
        submitted ← or_panic (convict court fault operator);
        modify (fun state => with_output state [] submitted)
      else mret tt
  | None => mret tt
  end.

Definition report (heading : Heading) (scan : Scan) operator court : watching unit :=
  _ ← modify (count_undetermined (sc_undetermined scan));
  watch_each (report_fault heading operator court) (sc_faults scan).

(** *** One block *)

Definition order_name (order : Order) : string :=
  match order with
  | AsReported => "as reported"
  | Reversed => "reversed"
  | UnverifiableOrder => "unverifiable"
  end%string.

Definition record_executed (slot : Z) (executed : ExecutionIndex) (entry : nat * ObservedTransaction) : ExecutionIndex :=
  ExecutionIndex_record executed (o_signature entry.2) (o_tx_hash entry.2)
    {| e_slot := slot; e_index := as_u32 entry.1 |}.

Definition note_block state (block : ObservedBlock) : WatchState :=
  let blockhashes := BlockhashSlots_record (ws_blockhashes state) (b_blockhash block) (b_slot block) in
  let executed :=
    match executed_order block with
    | Some order => foldl (record_executed (b_slot block)) (ws_executed state) (enumerate order)
    | None => ws_executed state
    end in
  let state := with_indexes state blockhashes executed in
  match b_transactions block with
  | [] => state
  | transactions =>
      let totals := ws_totals state in
      with_totals state (MkTotals (t_faults totals) (t_undetermined totals)
        (t_blocks_with_transactions totals + 1) (t_transactions totals + length transactions)
        (count_entry (order_name (Order_derive block)) (t_order totals)))
  end.

Definition watch_slot (client : Client) (index : ReceiptIndex) operator (identity : bytes) court (next_slot : Z)
    : watching unit :=
  found ← lift (Client_block client next_slot);
  _ ← match found with
      | Some block =>
          _ ← modify (fun state => note_block state block);
          scan ← or_panic (scan_block block index operator identity);
          report (SlotHeading next_slot) scan operator court
      | None => mret tt
      end;
  modify (fun state => with_next_slot state (wrap64 (next_slot + 1))).

(** [while next_slot < head { .. }], for at most [fuel] turns; whether the loop ended. *)
Fixpoint watch_slots (fuel : nat) (client : Client) (index : ReceiptIndex) operator (identity : bytes) court (head : Z)
    : watching bool :=
  next_slot ← gets ws_next_slot;
  if next_slot <? head then
    match fuel with
    | O => mret false
    | Datatypes.S fuel =>
        _ ← watch_slot client index operator identity court next_slot;
        watch_slots fuel client index operator identity court head
    end
  else mret true.

(** *** One turn of the loop *)

(** Which run of the log to follow. *)
Definition adopt (key : bytes) (log_id : option bytes) (receipts : list SignedReceipt) : Operator :=
  MkOperator key (default (zeros 32)
    (match log_id with Some log_id => Some log_id | None => r_log_id ∘ s_receipt <$> head receipts end)).

Record WatchConfig : Type := MkWatchConfig {
  wc_key : bytes;
  wc_held : list SignedReceipt;
  wc_log_id : option bytes;
  wc_court : option CourtHandle;
  wc_patience : Patience;
}.

(** Whether the turn ended within [fuel] turns of its inner loop. *)
Definition watch_round (fuel : nat) (config : WatchConfig) (client : Client) : watching bool :=
  receipts ← lift (Client_receipts client 0 RECEIPT_PAGE);
  resolved ← gets ws_resolved;
  let operator := match resolved with
                  | Some operator => operator
                  | None => adopt (wc_key config) (wc_log_id config) receipts
                  end in
  _ ← modify (fun state => with_resolved state operator);
  let index := ReceiptIndex_build receipts operator in
  let combined := receipts ++ wc_held config in
  scan ← or_panic (scan_receipts combined operator);
  _ ← report ReceiptLogHeading scan operator (wc_court config);
  head ← lift (Client_slot client);
  ended ← watch_slots fuel client index operator (wc_key config) (wc_court config) head;
  if ended : bool then
    scan ← gets (fun state => scan_withholding receipts (ws_executed state) (ws_blockhashes state)
                                (saturating_sub (ws_next_slot state) 1) (wc_patience config) operator);
    _ ← report DeliveryHeading scan operator (wc_court config);
    mret true
  else mret false.

Fixpoint watch_rounds (fuel : nat) (config : WatchConfig) (clients : list Client) : watching bool :=
  match clients with
  | [] => mret true
  | client :: clients =>
      ended ← watch_round fuel config client;
      if ended : bool then watch_rounds fuel config clients else mret false
  end.

(** The node as it answers at each turn; the identity is asked for once, before the first. *)
Definition watch (fuel : nat) (first : Client) (clients : list Client) (once : bool) (held : list SignedReceipt)
    (log_id : option bytes) (court : option CourtHandle) (patience : Patience) : result ClientError bool * WatchState :=
  (key ← lift (Client_operator first);
   watch_rounds fuel (MkWatchConfig key held log_id court patience) (if once then take 1 clients else clients))
  WatchState_new.

(** *** Command line *)

(** [bs58::decode(value).onto(&mut log_id)], which must fill 32 bytes; else the process exits. *)
Definition decode_log_id (value : string) : option bytes := bs58_decode value ≫= try_into_array 32.

(** Receipts a client was handed, from the strings of its file. *)
Definition load_client_receipts (encoded : list string) : result unit (list SignedReceipt) :=
  mapM (fun entry =>
    bytes ← ok_or (base64_decode entry) tt;
    map_err (fun _ => tt) (SignedReceipt_from_bytes bytes)) encoded.
End watch.
