(* ===== verification/WatchInv.v ===== *)
(** * What a turn of the watchtower's loop leaves behind

    The transactions a computation of the loop sends, whether or not it then fails, and the slots
    its inner loop reads. *)
From S2P Require Import Prelude Constants Crypto Receipt Accounts Runtime Evidence Processor Court ReceiptLog Wire Watchtower LogScan BlockScan Client Withholding Watch.

Section watch_inv.
Context `{C : Crypto} `{R : Runtime} `{J : Json} `{S : Solana}.
Implicit Types (state : WatchState) (operator : Operator) (court : option CourtHandle) (receipts : list SignedReceipt).

(** ** What is sent *)

(** Whatever [m] sends satisfies [P], and what was sent before stays sent. *)
Definition emits {A} (P : list SolInstruction -> Prop) (m : watching A) : Prop :=
  forall state, exists sent, ws_submitted (m state).2 = ws_submitted state ++ sent /\ Forall P sent.

Lemma emits_ret {A} P (a : A) : emits P (mret a).
Proof. intros state. exists []. by rewrite app_nil_r. Qed.

Lemma emits_lift {A} P (r : result ClientError A) : emits P (lift r).
Proof. intros state. exists []. by rewrite app_nil_r. Qed.

Lemma emits_gets {A} P (f : WatchState -> A) : emits P (gets f).
Proof. intros state. exists []. by rewrite app_nil_r. Qed.

Lemma emits_modify P f : (forall state, ws_submitted (f state) = ws_submitted state) -> emits P (modify f).
Proof. intros Hf state. exists []. by rewrite app_nil_r; cbn. Qed.

Lemma emits_send P printed sent : Forall P sent -> emits P (modify (fun state => with_output state printed sent)).
Proof. intros HP state. by exists sent. Qed.

Lemma emits_bind {A B} P (m : watching A) (k : A -> watching B) :
  emits P m -> (forall a, emits P (k a)) -> emits P (m ≫= k).
Proof.
  intros Hm Hk state. destruct (Hm state) as (sent & Es & HP). unfold mbind, watching_bind.
  destruct (m state) as [[a|e|] state1]; cbn [snd] in *; [|by exists sent..].
  destruct (Hk a state1) as (sent' & Es' & HP'). exists (sent ++ sent').
  rewrite Es', Es, <-app_assoc. split; [done|]. by apply Forall_app.
Qed.

Lemma emits_each {A} P (f : A -> watching unit) l : (forall x, x ∈ l -> emits P (f x)) -> emits P (watch_each f l).
Proof.
  induction l as [|x l IH]; intros Hf; cbn [watch_each]; [apply emits_ret|].
  apply emits_bind; [apply Hf; by left|intros _]. apply IH. intros y Hy. apply Hf. by right.
Qed.

Lemma emits_weaken {A} (P Q : list SolInstruction -> Prop) (m : watching A) :
  (forall ixs, P ixs -> Q ixs) -> emits P m -> emits Q m.
Proof. intros HPQ Hm state. destruct (Hm state) as (sent & E & HP). exists sent. eauto using Forall_impl. Qed.

(** The transactions the court sends for the verified evidence among [faults]. *)
Definition evidence_for operator (faults : list Fault) (ixs : list SolInstruction) : Prop :=
  exists seq a b addresses accuser, FaultEquivocation seq a b ∈ faults /\
    Fault_verify (FaultEquivocation seq a b) (op_key operator) = Ok tt /\
    court_prove_equivocation addresses accuser (op_key operator) a b = Some ixs.

Lemma convict_sends (court : CourtHandle) fault operator sent :
  convict court fault operator = Ok sent -> Fault_verify fault (op_key operator) = Ok tt ->
  Forall (evidence_for operator [fault]) sent.
Proof.
  intros Hc Hv. destruct fault as [seq a b| | | | | | | | |]; try (injection Hc as <-; constructor).
  cbn [convict] in Hc. destruct (court_prove_equivocation _ _ _ a b) as [ixs|] eqn:E; [|done].
  injection Hc as <-. apply Forall_singleton. exists seq, a, b, (ct_addresses court), (ct_payer court).
  split; [by left|done].
Qed.

Lemma report_fault_emits heading operator court fault :
  emits (evidence_for operator [fault]) (report_fault heading operator court fault).
Proof.
  unfold report_fault. apply emits_bind; [by apply emits_modify|intros _].
  apply emits_bind; [by apply emits_send|intros _].
  destruct court as [court|]; [|apply emits_ret].
  destruct (Fault_verify fault _) as [[]| |] eqn:Hv; cbn [is_ok]; try apply emits_ret.
  destruct (convict court fault operator) as [sent| |] eqn:Hc; try apply (emits_lift _ Panic).
  change (emits (evidence_for operator [fault]) (modify (fun state => with_output state [] sent))).
  by eapply emits_send, convict_sends.
Qed.

Lemma report_emits heading scan operator court :
  emits (evidence_for operator (sc_faults scan)) (report heading scan operator court).
Proof.
  unfold report. apply emits_bind; [by apply emits_modify|intros _].
  apply emits_each. intros fault Hf. eapply emits_weaken; [|apply report_fault_emits].
  intros ixs (seq & a & b & addresses & accuser & Hin%list_elem_of_singleton & H).
  subst fault. by exists seq, a, b, addresses, accuser.
Qed.

(** ** What a block or the delivery check leads to *)

(** Only the receipt log contradicts itself: no other scan sends anything. *)
Definition silent (faults : list Fault) : Prop := forall seq a b, FaultEquivocation seq a b ∉ faults.

Lemma report_silent heading scan operator court P :
  silent (sc_faults scan) -> emits P (report heading scan operator court).
Proof.
  intros Hs. eapply emits_weaken; [|apply report_emits].
  intros ixs (seq & a & b & _ & _ & Hf & _). by destruct (Hs seq a b).
Qed.

Lemma scan_block_silent block index operator identity :
  exists scan, scan_block block index operator identity = Ok scan /\ silent (sc_faults scan).
Proof.
  destruct (executed_order block) as [executed|] eqn:E.
  - eexists. split; [by apply scan_block_verdicts|]. intros seq a b.
    rewrite scan_of_faults. unfold block_verdicts. rewrite elem_of_app, !list_elem_of_fmap.
    intros [(entry & H & _)|(pair & H & _)]; revert H.
    + unfold check_ticket_is_live. by repeat case_match.
    + unfold pair_verdict, check_pair. rewrite E. intros H. repeat case_match; simplify_eq.
  - eexists. split; [by apply scan_block_unverifiable|]. intros seq a b [H|H]%scan_of_faults%elem_of_cons; [done|].
    by apply not_elem_of_nil in H.
Qed.

Lemma scan_withholding_silent receipts executed blockhashes head patience operator :
  silent (sc_faults (scan_withholding receipts executed blockhashes head patience operator)).
Proof.
  intros seq a b. rewrite scan_withholding_verdicts, scan_of_faults, list_elem_of_bind. intros (r & Hv & _).
  revert Hv. unfold delivery_verdicts. case_decide; [|by intros ?%not_elem_of_nil].
  rewrite elem_of_cons. intros [Hv|Hv].
  - symmetry in Hv. apply check_ingress_fault in Hv. unfold misdated in Hv. naive_solver.
  - destruct (Withdrawals_of _ r); [by apply not_elem_of_nil in Hv|]. apply list_elem_of_singleton in Hv. symmetry in Hv.
    apply check_delivery_fault in Hv. unfold undelivered in Hv. destruct (ExecutionIndex_find executed r); naive_solver.
Qed.

Lemma watch_slot_emits P client index operator identity court slot :
  emits P (watch_slot client index operator identity court slot).
Proof.
  unfold watch_slot. apply emits_bind; [apply emits_lift|intros [block|]].
  - apply emits_bind; [|intros _; by apply emits_modify].
    apply emits_bind; [apply emits_modify|intros _].
    { intros state. unfold note_block. by destruct (b_transactions block). }
    destruct (scan_block_silent block index operator identity) as (scan & -> & Hs).
    change (emits P (report (SlotHeading slot) scan operator court)). by apply report_silent.
  - apply emits_bind; [apply emits_ret|intros _; by apply emits_modify].
Qed.

Lemma watch_slots_emits P fuel client index operator identity court head :
  emits P (watch_slots fuel client index operator identity court head).
Proof.
  induction fuel as [|fuel IH]; cbn [watch_slots]; (apply emits_bind; [apply emits_gets|intros next_slot]);
    destruct (next_slot <? head); try apply emits_ret.
  apply emits_bind; [apply watch_slot_emits|by intros _].
Qed.

(** ** The receipt log *)

(** The operator followed in a turn that reads [receipts]. *)
Definition followed (config : WatchConfig) state receipts : Operator :=
  default (adopt (wc_key config) (wc_log_id config) receipts) (ws_resolved state).

Definition log_scan (config : WatchConfig) state receipts : Scan :=
  scan_of (log_verdicts (receipts ++ wc_held config) (followed config state receipts)).

(** What comes after the receipt log in a turn. *)
Definition after_log (fuel : nat) (config : WatchConfig) (client : Client) receipts operator : watching bool :=
  head ← lift (Client_slot client);
  ended ← watch_slots fuel client (ReceiptIndex_build receipts operator) operator (wc_key config) (wc_court config) head;
  if ended : bool then
    scan ← gets (fun state => scan_withholding receipts (ws_executed state) (ws_blockhashes state)
                                (saturating_sub (ws_next_slot state) 1) (wc_patience config) operator);
    _ ← report DeliveryHeading scan operator (wc_court config);
    mret true
  else mret false.

Lemma watch_round_log fuel config client state receipts :
  Client_receipts client 0 RECEIPT_PAGE = Ok receipts ->
  let operator := followed config state receipts in
  watch_round fuel config client state =
    (_ ← report ReceiptLogHeading (log_scan config state receipts) operator (wc_court config);
     after_log fuel config client receipts operator) (with_resolved state operator).
Proof.
  intros Hr. cbv zeta. unfold watch_round. rewrite Hr. unfold log_scan, followed, or_panic.
  cbv beta iota delta [mbind watching_bind lift gets modify].
  destruct (ws_resolved state) as [operator|]; cbn [default from_option id]; by rewrite scan_receipts_verdicts.
Qed.

Lemma after_log_emits P fuel config client receipts operator : emits P (after_log fuel config client receipts operator).
Proof.
  unfold after_log. apply emits_bind; [apply emits_lift|intros head].
  apply emits_bind; [apply watch_slots_emits|intros [|]]; [|apply emits_ret].
  intros state. unfold mbind at 1, watching_bind at 1, gets at 1.
  apply emits_bind; [|intros _; apply emits_ret]. apply report_silent, scan_withholding_silent.
Qed.

Lemma emitted {A} P (m : watching A) state ixs :
  emits P m -> ixs ∈ ws_submitted state -> ixs ∈ ws_submitted (m state).2.
Proof. intros Hm Hin. destruct (Hm state) as (sent & -> & _). apply elem_of_app. by left. Qed.

(** The court's address is found for every contradiction among [faults]. *)
Definition addressable (court : CourtHandle) operator (faults : list Fault) : Prop :=
  forall seq a b, FaultEquivocation seq a b ∈ faults ->
    is_Some (court_prove_equivocation (ct_addresses court) (ct_payer court) (op_key operator) a b).

Lemma report_fault_sends heading operator (court : CourtHandle) fault state :
  addressable court operator [fault] ->
  exists state', report_fault heading operator (Some court) fault state = (Ok tt, state') /\
    forall seq a b ixs, fault = FaultEquivocation seq a b -> Fault_verify fault (op_key operator) = Ok tt ->
      court_prove_equivocation (ct_addresses court) (ct_payer court) (op_key operator) a b = Some ixs ->
      ixs ∈ ws_submitted state'.
Proof.
  intros Ha. unfold report_fault. cbv beta iota delta [mbind watching_bind lift gets modify or_panic].
  destruct (Fault_verify fault (op_key operator)) as [[]| |] eqn:Hv; cbn [is_ok]; [|eexists; by split..].
  assert (exists sent, convict court fault operator = Ok sent) as [sent E].
  { destruct fault as [seq a b| | | | | | | | |]; try (by eexists).
    destruct (Ha seq a b) as [ixs E]; [by left|]. eexists. cbn [convict]. by rewrite E. }
  rewrite E. eexists. split; [done|]. intros seq a b ixs -> _ E'. cbn [convict] in E. rewrite E' in E.
  injection E as <-. cbn. apply elem_of_app. right. by left.
Qed.

Lemma report_sends heading operator (court : CourtHandle) scan state :
  addressable court operator (sc_faults scan) ->
  exists state', report heading scan operator (Some court) state = (Ok tt, state') /\
    forall seq a b ixs, FaultEquivocation seq a b ∈ sc_faults scan ->
      Fault_verify (FaultEquivocation seq a b) (op_key operator) = Ok tt ->
      court_prove_equivocation (ct_addresses court) (ct_payer court) (op_key operator) a b = Some ixs ->
      ixs ∈ ws_submitted state'.
Proof.
  unfold report. unfold mbind at 1, watching_bind at 1, modify at 1.
  generalize (count_undetermined (sc_undetermined scan) state). clear state.
  induction (sc_faults scan) as [|fault faults IH]; intros state Ha.
  { exists state. split; [done|]. by intros seq a b ixs ?%not_elem_of_nil. }
  cbn [watch_each]. unfold mbind, watching_bind.
  destruct (report_fault_sends heading operator court fault state) as (state1 & -> & Hs1).
  { intros seq a b Hin%list_elem_of_singleton. apply (Ha seq). subst fault. by left. }
  destruct (IH state1) as (state2 & E2 & Hs2). { intros seq a b Hin. apply (Ha seq). by right. }
  rewrite E2. exists state2. split; [done|]. intros seq a b ixs [Hin|Hin]%elem_of_cons Hv E; [|by eapply Hs2].
  pose proof (emitted (fun _ => True) (watch_each (report_fault heading operator (Some court)) faults) state1 ixs) as Hkeep.
  rewrite E2 in Hkeep. apply Hkeep.
  - apply emits_each. intros f _. eapply emits_weaken; [|apply report_fault_emits]. done.
  - apply (Hs1 seq a b); subst fault; done.
Qed.

(** A contradiction the receipt scan reports, with what it rests on. *)
Lemma contradiction_reported receipts operator seq a b :
  Forall SignedReceipt_wf receipts ->
  VerdictFault (FaultEquivocation seq a b) ∈ log_verdicts receipts operator ->
  a ∈ receipts /\ b ∈ receipts /\ accepted operator a /\ accepted operator b /\
  seq_of a = seq /\ seq_of b = seq /\ a <> b /\
  Fault_verify (FaultEquivocation seq a b) (op_key operator) = Ok tt.
Proof.
  intros Hwf Hf. destruct (log_fault _ _ _ Hwf Hf) as [(x & y & [= -> -> ->] & Ha & Hb & E & Hne)|H]; [|naive_solver].
  apply attributable_elem in Ha as [Aa Ia], Hb as [Ab Ib]. split_conj; auto. cbn.
  rewrite !(signed_by_accepted operator), (same_log_accepted operator) by done. res_run.
  unfold seq_of in *. by rewrite E, !bool_decide_true by auto.
Qed.

Lemma court_address addresses accuser key a b ck :
  Addresses_conviction addresses (SignedReceipt_message a) (SignedReceipt_message b) = Some ck ->
  exists ixs, court_prove_equivocation addresses accuser key a b = Some ixs.
Proof. intros E. unfold court_prove_equivocation. rewrite E. by eexists. Qed.

(** Whatever comes after it in the turn, the evidence found in the log was sent. *)
Lemma watch_round_sends fuel config client state receipts (court : CourtHandle) seq a b ixs :
  let operator := followed config state receipts in
  Client_receipts client 0 RECEIPT_PAGE = Ok receipts -> wc_court config = Some court ->
  addressable court operator (sc_faults (log_scan config state receipts)) ->
  VerdictFault (FaultEquivocation seq a b) ∈ log_verdicts (receipts ++ wc_held config) operator ->
  Fault_verify (FaultEquivocation seq a b) (op_key operator) = Ok tt ->
  court_prove_equivocation (ct_addresses court) (ct_payer court) (op_key operator) a b = Some ixs ->
  ixs ∈ ws_submitted (watch_round fuel config client state).2.
Proof.
  cbv zeta. intros Hr Hc Ha Hf%scan_of_faults Hv E. rewrite (watch_round_log _ _ _ _ _ Hr), Hc.
  unfold mbind, watching_bind. destruct (report_sends ReceiptLogHeading (followed config state receipts) court
    (log_scan config state receipts) (with_resolved state (followed config state receipts)) Ha) as (state1 & -> & Hs).
  apply (emitted (fun _ => True)); [apply after_log_emits|]. by eapply Hs.
Qed.

(** ** The slots *)

Lemma watch_slot_next client index operator identity court slot state state' :
  watch_slot client index operator identity court slot state = (Ok tt, state') ->
  ws_next_slot state' = wrap64 (slot + 1).
Proof.
  unfold watch_slot. cbv beta iota delta [mbind watching_bind lift modify].
  destruct (Client_block client slot) as [[block|]| |]; intros H; repeat case_match; by simplify_eq.
Qed.

Lemma watch_slots_done fuel client index operator identity court head state :
  head <= ws_next_slot state -> watch_slots fuel client index operator identity court head state = (Ok true, state).
Proof.
  intros Hle. destruct fuel; cbn [watch_slots]; cbv beta iota delta [mbind watching_bind gets];
    by destruct (Z.ltb_spec (ws_next_slot state) head); [lia|].
Qed.

Lemma watch_slots_more fuel client index operator identity court head state :
  ws_next_slot state < head ->
  watch_slots (Datatypes.S fuel) client index operator identity court head state =
    (_ ← watch_slot client index operator identity court (ws_next_slot state);
     watch_slots fuel client index operator identity court head) state.
Proof.
  intros Hlt. cbn [watch_slots]. unfold mbind at 1, watching_bind at 1, gets at 1.
  by destruct (Z.ltb_spec (ws_next_slot state) head); [|lia].
Qed.

(** The loop over the slots is a walk over the list of them. *)
Lemma watch_slots_each fuel client index operator identity court head state :
  is_u64 (ws_next_slot state) -> is_u64 head -> (Z.to_nat (head - ws_next_slot state) <= fuel)%nat ->
  watch_slots fuel client index operator identity court head state =
    (_ ← watch_each (watch_slot client index operator identity court)
           (seqZ (ws_next_slot state) (head - ws_next_slot state));
     mret true) state /\
  forall state', watch_slots fuel client index operator identity court head state = (Ok true, state') ->
    ws_next_slot state' = Z.max (ws_next_slot state) head.
Proof.
  revert state. induction fuel as [|fuel IH]; intros state Hn Hh Hfuel;
    destruct (Z.lt_ge_cases (ws_next_slot state) head) as [Hlt|Hge]; try lia.
  1, 3: rewrite seqZ_nil, watch_slots_done by lia; split; [done|]; intros state' [= <-]; lia.
  rewrite seqZ_cons, watch_slots_more by lia. cbn [watch_each]. unfold mbind, watching_bind.
  destruct (watch_slot _ _ _ _ _ _ state) as [[[]| |] state1] eqn:E1; [|done..].
  apply watch_slot_next in E1. rewrite wrap64_small in E1 by (unfold is_u64 in *; lia).
  destruct (IH state1) as [-> Hnext]; [unfold is_u64 in *; lia..|].
  rewrite E1. replace (Z.pred (head - ws_next_slot state)) with (head - (ws_next_slot state + 1)) by lia.
  split; [done|]. intros state' E. rewrite (Hnext state'); [lia|]. by rewrite <-E, E1.
Qed.

(** ** What stays *)

(** [m] leaves [f] of the state as it was. *)
Definition keeps {A B} (f : WatchState -> B) (m : watching A) : Prop := forall state, f (m state).2 = f state.

Lemma keeps_bind {A B D} (f : WatchState -> D) (m : watching A) (k : A -> watching B) :
  keeps f m -> (forall a, keeps f (k a)) -> keeps f (m ≫= k).
Proof.
  intros Hm Hk state. specialize (Hm state). unfold mbind, watching_bind.
  destruct (m state) as [[a|e|] state1]; cbn [snd] in *; [|done..]. by rewrite (Hk a state1).
Qed.

Lemma keeps_each {A B} (f : WatchState -> B) (body : A -> watching unit) l :
  (forall x, keeps f (body x)) -> keeps f (watch_each body l).
Proof. intros Hb. induction l; cbn [watch_each]; [done|]. by apply keeps_bind. Qed.

Lemma report_keeps {B} (f : WatchState -> B) heading scan operator court :
  (forall state totals, f (with_totals state totals) = f state) ->
  (forall state printed sent, f (with_output state printed sent) = f state) ->
  keeps f (report heading scan operator court).
Proof.
  intros Ht Ho. unfold report. apply keeps_bind; [intros state; apply Ht|intros _].
  apply keeps_each. intros fault. unfold report_fault. apply keeps_bind; [intros state; apply Ht|intros _].
  apply keeps_bind; [intros state; apply Ho|intros _].
  destruct court as [court|]; [|done]. destruct (is_ok _); [|done].
  apply keeps_bind; [done|intros sent state]. apply Ho.
Qed.

Lemma report_next_slot heading scan operator court : keeps ws_next_slot (report heading scan operator court).
Proof. by apply report_keeps. Qed.
Lemma report_resolved heading scan operator court : keeps ws_resolved (report heading scan operator court).
Proof. by apply report_keeps. Qed.

Lemma watch_slot_resolved client index operator identity court slot :
  keeps ws_resolved (watch_slot client index operator identity court slot).
Proof.
  unfold watch_slot. apply keeps_bind; [done|intros [block|]]; (apply keeps_bind; [|done]); [|done].
  apply keeps_bind; [intros state; unfold modify, note_block; by destruct (b_transactions block)|intros _].
  apply keeps_bind; [done|intros scan]. apply report_resolved.
Qed.

Lemma watch_slots_resolved fuel client index operator identity court head :
  keeps ws_resolved (watch_slots fuel client index operator identity court head).
Proof.
  induction fuel as [|fuel IH]; cbn [watch_slots]; (apply keeps_bind; [done|intros slot]); destruct (slot <? head);
    try done. apply keeps_bind; [apply watch_slot_resolved|done].
Qed.

Lemma after_log_resolved fuel config client receipts operator :
  keeps ws_resolved (after_log fuel config client receipts operator).
Proof.
  unfold after_log. apply keeps_bind; [done|intros head].
  apply keeps_bind; [apply watch_slots_resolved|intros [|]]; [|done].
  apply keeps_bind; [done|intros scan]. apply keeps_bind; [apply report_resolved|done].
Qed.

(** ** The end of a turn *)

(** [fuel] is enough for a turn from [next]. *)
Definition enough (fuel : nat) (client : Client) (next : Z) : Prop :=
  is_u64 next /\ forall head, Client_slot client = Ok head -> is_u64 head /\ (Z.to_nat (head - next) <= fuel)%nat.

(** A turn that began at [next] ended at the head, or was stopped. *)
Definition ended_at (client : Client) (next : Z) (out : result ClientError bool * WatchState) : Prop :=
  match out with
  | (Ok true, state') => exists head, Client_slot client = Ok head /\ ws_next_slot state' = Z.max next head
  | (Ok false, _) => False
  | _ => True
  end.

Lemma after_log_ends fuel config client receipts operator state :
  enough fuel client (ws_next_slot state) ->
  ended_at client (ws_next_slot state) (after_log fuel config client receipts operator state).
Proof.
  intros [Hn Hf]. unfold after_log. cbv beta iota delta [mbind watching_bind lift gets].
  destruct (Client_slot client) as [head| |] eqn:Eh; [|done..]. destruct (Hf head eq_refl) as [Wh Hfuel].
  destruct (watch_slots_each fuel client (ReceiptIndex_build receipts operator) operator (wc_key config)
    (wc_court config) head state Hn Wh Hfuel) as [Ew Hmax].
  destruct (watch_slots _ _ _ _ _ _ _ state) as [[[]| |] state1]; [|exfalso|done..].
  - match goal with |- context [report ?h ?s ?o ?c state1] =>
      pose proof (report_next_slot h s o c state1) as Hk; destruct (report h s o c state1) as [[[]| |] state2] end; try done.
    exists head. split; [done|]. cbn [snd] in Hk. rewrite Hk. by apply Hmax.
  - unfold mbind, watching_bind in Ew. by repeat case_match.
Qed.

Lemma watch_round_ends fuel config client state :
  enough fuel client (ws_next_slot state) ->
  ended_at client (ws_next_slot state) (watch_round fuel config client state).
Proof.
  intros Hf. destruct (Client_receipts client 0 RECEIPT_PAGE) as [receipts| |] eqn:Er;
    [|unfold watch_round, mbind, watching_bind; by rewrite Er..].
  rewrite (watch_round_log _ _ _ _ _ Er). unfold mbind, watching_bind.
  match goal with |- context [report ?h ?s ?o ?c ?st] =>
    pose proof (report_next_slot h s o c st) as Hk; destruct (report h s o c st) as [[[]| |] state1] end; try done.
  cbn [snd] in Hk. change (ws_next_slot (with_resolved _ _)) with (ws_next_slot state) in Hk. rewrite <-Hk in *.
  by apply after_log_ends.
Qed.

(** ** What the node serves is well-formed *)

Lemma mapM_Forall {E A B} (P : B -> Prop) (f : A -> result E B) l l' :
  mapM f l = Ok l' -> (forall a b, f a = Ok b -> P b) -> Forall P l'.
Proof.
  intros H Hf. revert l' H. induction l as [|a l IH]; intros l' H; cbn [mapM] in H; [injection H as <-; constructor|].
  res_inv. injection H as <-. constructor; eauto.
Qed.

Lemma Client_receipts_wf client from limit receipts :
  Client_receipts client from limit = Ok receipts -> Forall SignedReceipt_wf receipts.
Proof.
  unfold Client_receipts. intros H. res_inv. eapply mapM_Forall; [done|]. cbn beta. intros entry signed Hs.
  unfold receipt_entry in Hs. destruct (_ ← ok_or _ _; _) as [s| |] eqn:E in Hs; cbn in Hs; simplify_eq.
  res_inv. destruct (SignedReceipt_from_bytes _) eqn:Hb; cbn in *; simplify_eq.
  by apply SignedReceipt_from_bytes_Ok in Hb as (_ & ? & _).
Qed.

(** ** An honest operator *)

(** A turn that follows an operator whose statements are those of one chained log sends nothing. *)
Lemma watch_round_honest fuel config client state log :
  let operator := MkOperator (wc_key config) (default (zeros 32) (wc_log_id config)) in
  wc_log_id config <> None -> (ws_resolved state = None \/ ws_resolved state = Some operator) ->
  chained (op_key operator) (op_log_id operator) log -> Forall SignedReceipt_wf (wc_held config) ->
  (forall s, s ∈ wc_held config -> accepted operator s -> s ∈ log) ->
  (forall page, Client_receipts client 0 RECEIPT_PAGE = Ok page -> forall s, s ∈ page -> accepted operator s -> s ∈ log) ->
  let state' := (watch_round fuel config client state).2 in
  ws_submitted state' = ws_submitted state /\ (ws_resolved state' = None \/ ws_resolved state' = Some operator).
Proof.
  cbv zeta. set (operator := MkOperator _ _). intros Hid Hres Hc Hheld Hown Hpage.
  destruct (Client_receipts client 0 RECEIPT_PAGE) as [receipts| |] eqn:Er;
    [|unfold watch_round, mbind, watching_bind; rewrite Er; by split..].
  rewrite (watch_round_log _ _ _ _ _ Er).
  assert (followed config state receipts = operator) as Ef.
  { unfold followed. destruct Hres as [-> | ->]; [|done]. unfold operator, adopt. cbn. by destruct (wc_log_id config). }
  assert (silent (sc_faults (log_scan config state receipts))) as Hs.
  { intros seq a b Hf%scan_of_faults. rewrite Ef in Hf. revert Hf. apply (chained_no_fault log); [done| |].
    - apply Forall_app; eauto using Client_receipts_wf.
    - intros s [Hin|Hin]%elem_of_app; eauto. }
  rewrite Ef. split.
  - assert (emits (fun _ => False) (_ ← report ReceiptLogHeading (log_scan config state receipts) operator (wc_court config);
      after_log fuel config client receipts operator)) as He.
    { apply emits_bind; [by apply report_silent|intros _; apply after_log_emits]. }
    destruct (He (with_resolved state operator)) as ([|ixs sent] & E & HP); [|by inversion HP].
    by rewrite E, app_nil_r.
  - right. rewrite (keeps_bind ws_resolved); [done|apply report_resolved|intros _; apply after_log_resolved].
Qed.
End watch_inv.
