(* ===== verification/WatchProperties.v ===== *)
(** * The watchtower takes a contradiction to the court, and nothing else

    The main loop composed with the scans it runs and with the program its transactions reach. *)
From S2P Require Import Prelude Constants Crypto Receipt Accounts Runtime Evidence Processor Solvency Court Conviction ToyChain ReceiptLog Wire Watchtower LogScan BlockScan Client ToyLog Withholding Watch WatchInv.

(** C28: a turn of the loop ends.  With as many turns of its inner loop as there are slots below the
    head the node reports, a turn never runs out of them: it stops only at an answer it cannot use or
    a panic, and otherwise leaves the next slot at the head; and the inner loop is the walk over the
    slots from the next one up to the head, each read once and in order. *)
Theorem watch_round_terminates `{C : Crypto} `{R : Runtime} `{J : Json} `{S : Solana}
    (fuel : nat) (config : WatchConfig) (client : Client) (state : WatchState)
    (Hfuel : enough fuel client (ws_next_slot state)) :
  ended_at client (ws_next_slot state) (watch_round fuel config client state) /\
  forall index operator court head, Client_slot client = Ok head ->
    watch_slots fuel client index operator (wc_key config) court head state =
      (_ ← watch_each (watch_slot client index operator (wc_key config) court)
             (seqZ (ws_next_slot state) (head - ws_next_slot state));
       mret true) state.
Proof.
  split; [by apply watch_round_ends|]. intros index operator court head Eh.
  destruct Hfuel as [Hn Hf]. destruct (Hf head Eh). by apply watch_slots_each.
Qed.

(** C2: a contradiction the watchtower is shown ends in a conviction.  Let the page of receipts the
    node serves and the receipts the watchtower holds contain two statements of the operator for one
    position that differ, and no re-signed copy of a statement there.  Then, whatever else the node
    answers, the turn sends the court's transaction for two contradictory receipts; and on every
    ledger a chain can reach where the operator's registration did not wrap around and its bond
    stands, the conviction's address is untouched, the accuser can pay its rent, and neither the
    incinerator nor the conviction would overflow with the bond, that transaction convicts the
    operator. *)
Theorem equivocation_convicted `{C : Crypto} `{!CryptoLaws C} `{R : Runtime} `{!RuntimeLaws R} `{J : Json} `{S : Solana}
    (fuel : nat) (config : WatchConfig) (client : Client) (state : WatchState) (receipts : list SignedReceipt)
    (court : CourtHandle) (a b : SignedReceipt)
    (Hpage : Client_receipts client 0 RECEIPT_PAGE = Ok receipts)
    (Hheld : Forall SignedReceipt_wf (wc_held config)) (Hcourt : wc_court config = Some court)
    (Ha : a ∈ receipts ++ wc_held config) (Hb : b ∈ receipts ++ wc_held config)
    (Aa : accepted (followed config state receipts) a) (Ab : accepted (followed config state receipts) b)
    (Hseq : seq_of a = seq_of b) (Hdiff : s_receipt a <> s_receipt b)
    (Hone : forall x y, x ∈ receipts ++ wc_held config -> y ∈ receipts ++ wc_held config ->
       accepted (followed config state receipts) x -> accepted (followed config state receipts) y ->
       seq_of x = seq_of a -> s_receipt x = s_receipt y -> x = y)
    (Haddress : forall x y, x ∈ receipts ++ wc_held config -> y ∈ receipts ++ wc_held config ->
       is_Some (Addresses_conviction (ct_addresses court) (SignedReceipt_message x) (SignedReceipt_message y))) :
  let key := op_key (followed config state receipts) in
  let oi := ad_operator (ct_addresses court) in
  let program_id := ad_program (ct_addresses court) in
  let accuser := ct_payer court in
  exists x y ixs ck, x ∈ receipts ++ wc_held config /\ y ∈ receipts ++ wc_held config /\
    Addresses_conviction (ct_addresses court) (SignedReceipt_message x) (SignedReceipt_message y) = Some ck /\
    ixs ∈ ws_submitted (watch_round fuel config client state).2 /\
    forall sound L0 L acc ctx slot,
      program_id <> system_program_id -> length oi = 32%nat ->
      genesis program_id L0 -> rtc (chain_step program_id sound) L0 L -> sound oi ->
      owner_at L oi = program_id -> OperatorAccount_read (data_at L oi) = Ok acc ->
      o_signing_key acc = key -> 0 < o_bond acc ->
      runs_at ctx slot (map load_ix ixs) 1 -> is_u64 slot ->
      account_at L ck = empty_account -> can_pay L (MkInfo accuser true) (rent CONVICTION_LEN) ->
      accuser <> ck -> incinerator_id <> oi -> incinerator_id <> ck -> incinerator_id <> accuser ->
      lamports_at L incinerator_id + o_bond acc < 2 ^ 64 -> rent CONVICTION_LEN + o_bond acc < 2 ^ 64 ->
      exists ix0 ix1 L', ixs = [ix0; ix1] /\ ix_program_id ix0 = ed25519_program_id /\
        precompile_accepts (ix_data ix0) 0 /\
        process ctx program_id (infos_of ix1) (ix_data ix1) L = Ok (tt, L') /\ convicted L L' acc oi ck.
Proof.
  cbv zeta. set (operator := followed config state receipts) in *. set (combined := receipts ++ wc_held config) in *.
  assert (Forall SignedReceipt_wf combined) as Hwf by (apply Forall_app; eauto using Client_receipts_wf).
  destruct (equivocation_reported combined operator a b) as (x & y & Hf); [by auto..|intros ->; done|].
  destruct (contradiction_reported combined operator (seq_of a) x y Hwf Hf) as (Hx & Hy & Ax & Ay & Ex & Ey & Hne & Hv).
  destruct (Haddress x y Hx Hy) as [ck Hck].
  destruct (court_address (ct_addresses court) (ct_payer court) (op_key operator) x y ck Hck) as [ixs Hixs].
  exists x, y, ixs, ck. split_conj; [done..| |].
  - apply (watch_round_sends fuel config client state receipts court (seq_of a) x y ixs Hpage Hcourt); [|done..].
    intros q x' y' Hf'%scan_of_faults. destruct (contradiction_reported combined operator q x' y' Hwf Hf') as (Hx' & Hy' & _).
    destruct (Haddress x' y' Hx' Hy') as [ck' Hck']. destruct (court_address (ct_addresses court) (ct_payer court) (op_key operator) x' y' ck' Hck'); eauto.
  - intros sound L0 L acc ctx slot Hns Hlen Hg Hr Hsound Ho Hacc Hkey Hpos Hruns Wslot Hempty Hpay Hn1 Hn2 Hn3 Hn4 Hfit1 Hfit2.
    pose proof (chain_solvent _ _ Hns _ _ Hg Hr) as Hsol. rewrite <-Hkey in Hixs.
    rewrite Forall_forall in Hwf. destruct Ax as [Lx Vx], Ay as [Ly Vy]. rewrite <-Hkey in Vx, Vy.
    apply (court_convicts (ad_program (ct_addresses court)) sound (ct_addresses court) L (ct_payer court) acc x y ixs ctx slot ck);
      try done; [by apply Hwf..|congruence|unfold seq_of in *; congruence|].
    intros E. apply Hne, Hone; try done; by split; rewrite <-?Hkey.
Qed.

#[local] Existing Instance toy_crypto.
#[local] Existing Instance toy_runtime.
#[local] Existing Instance toy_json.

(** A node at slot four that serves no receipts and no blocks. *)
Definition toy_idle_node : Client := fun request =>
  Ok (TObject [("result"%string,
    match toy_get request "method" with
    | Some (TString "getReceipts") => TArray []
    | Some (TString "getSlot") => TNumber 4
    | _ => TNull
    end)]).

(** A watchtower holding the two receipts of [ToyChain]. *)
Definition toy_watch : WatchConfig :=
  MkWatchConfig toy_signing [toy_receipt_a; toy_receipt_b] (Some (fill 32 x07))
    (Some (MkCourt toy_accuser toy_addresses)) Patience_default.

Lemma watch_round_terminates_witness :
  ended_at toy_idle_node 1 (watch_round (S := toy_solana) 3 toy_watch toy_idle_node WatchState_new).
Proof.
  refine (proj1 (watch_round_terminates (S := toy_solana) 3 toy_watch toy_idle_node WatchState_new _)).
  split; [by vm_compute|]. intros head E. assert (head = 4) as -> by (vm_compute in E; congruence).
  split; [by vm_compute|]. vm_compute. lia.
Defined.

Lemma equivocation_convicted_witness :
  exists ixs, ixs ∈ ws_submitted (watch_round (S := toy_solana) 3 toy_watch toy_idle_node WatchState_new).2.
Proof.
  destruct (equivocation_convicted (S := toy_solana) 3 toy_watch toy_idle_node WatchState_new []
    (MkCourt toy_accuser toy_addresses) toy_receipt_a toy_receipt_b eq_refl ltac:(eval_done) eq_refl
    ltac:(eval_done) ltac:(eval_done) ltac:(eval_done) ltac:(eval_done) eq_refl ltac:(eval_done))
    as (x & y & ixs & ck & _ & _ & _ & Hin & _).
  - intros x y [->|[->|[]%not_elem_of_nil]%elem_of_cons]%elem_of_cons [->|[->|[]%not_elem_of_nil]%elem_of_cons]%elem_of_cons _ _ _ E;
      [done| | |done]; exfalso; revert E; eval_done.
  - intros x y [->|[->|[]%not_elem_of_nil]%elem_of_cons]%elem_of_cons [->|[->|[]%not_elem_of_nil]%elem_of_cons]%elem_of_cons;
      eval_done.
  - by exists ixs.
Defined.

(** C25: an honest operator is never taken to court.  Let the statements of the operator that the node
    serves or the watchtower holds be those of one chained log, whose id the watchtower was given.
    Whatever else the node answers, turn after turn, and however the watchtower's run ends, it sends
    no transaction. *)
Theorem honest_operator_not_sued `{C : Crypto} `{R : Runtime} `{J : Json} `{S : Solana}
    (fuel : nat) (first : Client) (clients : list Client) (once : bool) (held log : list SignedReceipt)
    (key log_id : bytes) (court : option CourtHandle) (patience : Patience)
    (Hkey : Client_operator first = Ok key) (Hlog : chained key log_id log)
    (Hwf : Forall SignedReceipt_wf held)
    (Hheld : forall s, s ∈ held -> accepted (MkOperator key log_id) s -> s ∈ log)
    (Hpages : forall client page, client ∈ clients -> Client_receipts client 0 RECEIPT_PAGE = Ok page ->
       forall s, s ∈ page -> accepted (MkOperator key log_id) s -> s ∈ log) :
  ws_submitted (watch fuel first clients once held (Some log_id) court patience).2 = [].
Proof.
  unfold watch, mbind, watching_bind, lift. rewrite Hkey.
  set (config := MkWatchConfig _ _ _ _ _).
  assert (forall client, client ∈ (if once then take 1 clients else clients) -> client ∈ clients) as Hsub.
  { intros client. destruct once; [|done]. intros Hin. rewrite <-(take_drop 1 clients). apply elem_of_app. by left. }
  assert (forall l state, (forall client, client ∈ l -> client ∈ clients) -> ws_submitted state = [] ->
    (ws_resolved state = None \/ ws_resolved state = Some (MkOperator key log_id)) ->
    ws_submitted (watch_rounds fuel config l state).2 = []) as Hrounds.
  { induction l as [|client l IH]; intros state Hl Hs Hres; [done|]. cbn [watch_rounds]. unfold mbind, watching_bind.
    destruct (watch_round_honest fuel config client state log) as [Hs' Hres']; try done.
    { intros page. apply Hpages, Hl. by left. }
    destruct (watch_round fuel config client state) as [[[]| |] state1]; cbn [snd] in *; [|by cbn; congruence|congruence..].
    apply IH; [|congruence|done]. intros c Hin. apply Hl. by right. }
  apply Hrounds; auto.
Qed.

(** A node that serves the first two receipts of [toy_log]. *)
Definition toy_honest_node : Client := fun request =>
  Ok (TObject [("result"%string,
    match toy_get request "method" with
    | Some (TString "getIdentity") =>
        TObject [("identity"%string, TString (String.string_of_list_byte (op_key toy_operator)))]
    | Some (TString "getReceipts") =>
        TArray (map (fun s => TObject [("receipt"%string, TString (String.string_of_list_byte (SignedReceipt_to_bytes s)))])
                  (take 2 toy_log))
    | Some (TString "getSlot") => TNumber 4
    | _ => TNull
    end)]).

Lemma honest_operator_not_sued_witness :
  ws_submitted (watch (S := toy_solana) 3 toy_honest_node [toy_honest_node; toy_honest_node] false (drop 1 toy_log)
    (Some (op_log_id toy_operator)) (Some (MkCourt toy_accuser toy_addresses)) Patience_default).2 = [].
Proof.
  apply (honest_operator_not_sued (S := toy_solana) 3 toy_honest_node [toy_honest_node; toy_honest_node] false
    (drop 1 toy_log) toy_log (op_key toy_operator) (op_log_id toy_operator)); [vm_compute; reflexivity| | | |].
  - apply toy_log_chained.
  - eval_done.
  - intros s Hin _. rewrite <-(take_drop 1 toy_log). apply elem_of_app. by right.
  - intros client page Hc Hp s Hs _.
    assert (client = toy_honest_node) as -> by (repeat (apply elem_of_cons in Hc as [->|Hc]; [done|]); by apply not_elem_of_nil in Hc).
    assert (page = take 2 toy_log) as -> by (vm_compute in Hp; injection Hp as <-; vm_compute; reflexivity).
    rewrite <-(take_drop 2 toy_log). apply elem_of_app. by left.
Defined.
