(* ===== verification/Locks.v ===== *)
(** * Account locks and executor coordination: magicblock-processor/src/scheduler

    locks.rs and coordinator.rs: the bitmask lock of one account, and the coordinator that hands
    transactions to executors only when all their accounts can be locked.  An executor is its
    number; the [Vec] of ready executors is a list whose head is the end it pops from.  Indexing a
    [Vec] out of range panics. *)
From S2P Require Import Prelude.

(** ** The transactions the scheduler handles (magicblock-core/src/link/transactions.rs) *)

Record ReplayPosition : Type := MkReplay { rp_slot : Z; rp_index : Z; rp_persist : bool }.

(** Of the channel an execution's result is sent on: whether there is one. *)
Inductive TransactionProcessingMode : Type :=
| Simulation
| ModeExecution (tx : bool)
| Replay (position : ReplayPosition).

Definition executes (mode : TransactionProcessingMode) : bool :=
  match mode with ModeExecution _ => true | _ => false end.

(** [pt_accounts] are the account keys of the message in order, each with whether the message may
    write it. *)
Record ProcessableTransaction : Type := MkProcessable {
  pt_signature : bytes;
  pt_accounts : list (bytes * bool);
  pt_mode : TransactionProcessingMode;
  pt_encoded : option bytes;
}.

(** ** locks.rs *)

Abbreviation ExecutorId := nat.

Definition MAX_SVM_EXECUTORS : nat := 63.
Definition WRITE_BIT : Z := Z.shiftl 1 (Z.of_nat MAX_SVM_EXECUTORS).

(** [u64::trailing_zeros]. *)
Definition trailing_zeros (state : Z) : nat :=
  if decide (state = 0) then 64%nat else Z.to_nat (Z.log2 (Z.land state (- state))).

Definition executor_bit (executor : ExecutorId) : Z := Z.shiftl 1 (Z.of_nat executor).

(** [!x] on u64. *)
Definition not64 (z : Z) : Z := Z.lxor U64_MAX z.

Definition AccountLock_write (state : Z) (executor : ExecutorId) : result ExecutorId Z :=
  if decide (state <> 0) then Err (trailing_zeros state)
  else Ok (Z.lor WRITE_BIT (executor_bit executor)).

Definition AccountLock_read (state : Z) (executor : ExecutorId) : result ExecutorId Z :=
  if decide (Z.land state WRITE_BIT <> 0) then Err (trailing_zeros state)
  else Ok (Z.lor state (executor_bit executor)).

Definition AccountLock_unlock (state : Z) (executor : ExecutorId) : Z :=
  Z.land state (not64 (Z.lor WRITE_BIT (executor_bit executor))).

(** ** coordinator.rs *)

Definition BLOCKED_TXN_MULTIPLIER : Z := 2.

Record TransactionWithId : Type := MkWithId { ti_id : Z; ti_txn : ProcessableTransaction }.

Record PrimaryMode : Type := MkPrimary { pm_blocked_txn_count : Z; pm_max_blocked_txn : Z }.
Record ReplicaMode : Type := MkReplica { rm_pending : option Z }.

Inductive CoordinationMode : Type :=
| StartingUp (r : ReplicaMode)
| Primary (p : PrimaryMode)
| Replica (r : ReplicaMode).

Definition CoordinationMode_is_ready (self : CoordinationMode) : bool :=
  match self with
  | StartingUp m => bool_decide (rm_pending m = None)
  | Primary m => pm_blocked_txn_count m <? pm_max_blocked_txn m
  | Replica m => bool_decide (rm_pending m = None)
  end.

(** Each [BinaryHeap] is the list of its elements in the order it pops them: by ascending id. *)
Record ExecutionCoordinator : Type := MkCoordinator {
  c_blocked_transactions : list (list TransactionWithId);
  c_ready_executors : list ExecutorId;
  c_acquired_locks : list (list bytes);
  c_locks : gmap bytes Z;
  c_mode : CoordinationMode;
}.

Definition set_blocked self blocked : ExecutionCoordinator :=
  MkCoordinator blocked (c_ready_executors self) (c_acquired_locks self) (c_locks self) (c_mode self).
Definition set_ready self ready : ExecutionCoordinator :=
  MkCoordinator (c_blocked_transactions self) ready (c_acquired_locks self) (c_locks self) (c_mode self).
Definition set_locked self acquired locks : ExecutionCoordinator :=
  MkCoordinator (c_blocked_transactions self) (c_ready_executors self) acquired locks (c_mode self).
Definition set_mode self mode : ExecutionCoordinator :=
  MkCoordinator (c_blocked_transactions self) (c_ready_executors self) (c_acquired_locks self)
    (c_locks self) mode.

Definition ExecutionCoordinator_new (count : nat) : ExecutionCoordinator :=
  MkCoordinator (replicate count []) (reverse (seq 0 count)) (replicate count []) ∅
    (StartingUp (MkReplica None)).

Definition coordinator_is_ready self : bool :=
  negb (bool_decide (c_ready_executors self = [])) && CoordinationMode_is_ready (c_mode self).

Definition get_ready_executor self : option ExecutorId * ExecutionCoordinator :=
  match c_ready_executors self with
  | executor :: ready => (Some executor, set_ready self ready)
  | [] => (None, self)
  end.

Definition release_executor self (executor : ExecutorId) : ExecutionCoordinator :=
  set_ready self (executor :: c_ready_executors self).

(** A lock taken out of the registry is a reference to its entry, which is never removed. *)
Definition unlock_accounts self (executor : ExecutorId) : may_panic ExecutionCoordinator :=
  held ← expect (c_acquired_locks self !! executor);
  Ok (set_locked self (<[executor := []]> (c_acquired_locks self))
        (foldl (fun locks key => alter (fun state => AccountLock_unlock state executor) key locks)
           (c_locks self) held)).

(** The loop of [try_acquire_locks] over the accounts that are left. *)
Fixpoint acquire_each self (executor : ExecutorId) (accounts : list (bytes * bool))
    : may_panic (result ExecutorId unit * ExecutionCoordinator) :=
  match accounts with
  | [] => Ok (Ok tt, self)
  | (acc, writable) :: accounts =>
      let lock := default 0 (c_locks self !! acc) in
      let self := set_locked self (c_acquired_locks self) (<[acc := lock]> (c_locks self)) in
      match (if writable then AccountLock_write lock executor else AccountLock_read lock executor) with
      | Ok lock =>
          held ← expect (c_acquired_locks self !! executor);
          acquire_each
            (set_locked self (<[executor := held ++ [acc]]> (c_acquired_locks self))
               (<[acc := lock]> (c_locks self)))
            executor accounts
      | Err blocker => self ← unlock_accounts self executor; Ok (Err blocker, self)
      | Panic => Panic
      end
  end.

Definition try_acquire_locks self (executor : ExecutorId) (txn : ProcessableTransaction)
    : may_panic (result ExecutorId unit * ExecutionCoordinator) :=
  acquire_each self executor (pt_accounts txn).

(** [BinaryHeap::push] under the reversed order of the ids. *)
Definition heap_push (heap : list TransactionWithId) (txn : TransactionWithId) : list TransactionWithId :=
  insert_by (fun a b => ti_id a <=? ti_id b) txn heap.

Definition queue_mode (mode : CoordinationMode) (id : Z) : CoordinationMode :=
  match mode with
  | StartingUp _ => StartingUp (MkReplica (Some id))
  | Replica _ => Replica (MkReplica (Some id))
  | Primary p => Primary (MkPrimary (pm_blocked_txn_count p + 1) (pm_max_blocked_txn p))
  end.

Definition queue_transaction self (blocker : ExecutorId) (txn : TransactionWithId)
    : may_panic ExecutionCoordinator :=
  let self := set_mode self (queue_mode (c_mode self) (ti_id txn)) in
  heap ← expect (c_blocked_transactions self !! blocker);
  Ok (set_blocked self (<[blocker := heap_push heap txn]> (c_blocked_transactions self))).

Definition dequeue_mode (mode : CoordinationMode) (popped : option Z) : CoordinationMode :=
  match mode with
  | StartingUp r => if decide (rm_pending r = popped) then StartingUp (MkReplica None) else mode
  | Replica r => if decide (rm_pending r = popped) then Replica (MkReplica None) else mode
  | Primary p =>
      Primary (MkPrimary (saturating_sub (pm_blocked_txn_count p) (match popped with Some _ => 1 | None => 0 end))
                 (pm_max_blocked_txn p))
  end.

Definition next_blocked_transaction self (executor : ExecutorId)
    : may_panic (option TransactionWithId * ExecutionCoordinator) :=
  heap ← expect (c_blocked_transactions self !! executor);
  let txn := head heap in
  let self := set_blocked self (<[executor := tail heap]> (c_blocked_transactions self)) in
  Ok (txn, set_mode self (dequeue_mode (c_mode self) (ti_id <$> txn))).

Definition try_schedule self (executor : ExecutorId) (txn : TransactionWithId)
    : may_panic (result ExecutorId ProcessableTransaction * ExecutionCoordinator) :=
  '(acquired, self) ← try_acquire_locks self executor (ti_txn txn);
  match acquired with
  | Ok _ => Ok (Ok (ti_txn txn), self)
  | Err blocker =>
      let self := release_executor self executor in
      self ← queue_transaction self blocker txn;
      Ok (Err blocker, self)
  | Panic => Panic
  end.

Definition switch_to_primary_mode self : ExecutionCoordinator :=
  match c_mode self with
  | Primary _ => self
  | _ =>
      set_mode self (Primary (MkPrimary 0
        (Z.of_nat (length (c_blocked_transactions self)) * BLOCKED_TXN_MULTIPLIER)))
  end.

Definition switch_to_replica_mode self : ExecutionCoordinator :=
  match c_mode self with
  | Replica _ => self
  | Primary _ => set_mode self (Replica (MkReplica None))
  | StartingUp r => set_mode self (Replica (MkReplica (rm_pending r)))
  end.

Definition is_transaction_allowed self (mode : TransactionProcessingMode) : bool :=
  match c_mode self, mode with
  | Primary _, Replay _ => false
  | StartingUp _, ModeExecution _ => false
  | Replica _, ModeExecution _ => false
  | _, _ => true
  end.

Definition is_primary self : bool := match c_mode self with Primary _ => true | _ => false end.

Definition is_idle self : bool :=
  bool_decide (length (c_ready_executors self) = length (c_blocked_transactions self)).

(** ** Bits *)

Lemma executor_bit_spec e i :
  0 <= i -> Z.testbit (executor_bit e) i = bool_decide (i = Z.of_nat e).
Proof.
  intros Hi. unfold executor_bit. rewrite Z.shiftl_1_l. case_bool_decide as E.
  - subst. apply Z.pow2_bits_true. lia.
  - apply Z.pow2_bits_false. lia.
Qed.

Lemma land_opp_even a : Z.land (2 * a) (- (2 * a)) = 2 * Z.land a (- a).
Proof.
  replace (- (2 * a)) with (2 * - a) by lia. rewrite <-!(Z.mul_comm _ 2).
  change 2 with (2 ^ 1). by rewrite <-!Z.shiftl_mul_pow2, Z.shiftl_land by lia.
Qed.

Lemma land_opp_odd a : Z.land (2 * a + 1) (- (2 * a + 1)) = 1.
Proof.
  replace (- (2 * a + 1)) with (2 * Z.lnot a + 1) by (unfold Z.lnot; lia).
  apply Z.bits_inj'. intros i Hi. rewrite Z.land_spec.
  destruct (decide (i = 0)) as [->|]; [by rewrite !Z.testbit_odd_0|].
  replace i with (Z.succ (i - 1)) by lia. rewrite !Z.testbit_odd_succ, Z.lnot_spec by lia.
  rewrite andb_negb_r. symmetry. apply (Z.pow2_bits_false 0). lia.
Qed.

(** The lowest set bit. *)
Lemma lowest_bit p :
  let s := Zpos p in let low := Z.land s (- s) in
  0 < low /\ Z.testbit s (Z.log2 low) = true /\
  forall j, 0 <= j < Z.log2 low -> Z.testbit s j = false.
Proof.
  cbv zeta. induction p as [p IH|p IH|].
  - rewrite Pos2Z.inj_xI, land_opp_odd. split_conj; [lia|by rewrite Z.testbit_odd_0|].
    change (Z.log2 1) with 0. lia.
  - rewrite Pos2Z.inj_xO, land_opp_even. destruct IH as (Hpos & Hbit & Hlow).
    rewrite Z.log2_double by done. pose proof (Z.log2_nonneg (Z.land (Z.pos p) (- Z.pos p))).
    split_conj; [lia|by rewrite Z.testbit_even_succ by lia|].
    intros j Hj. destruct (decide (j = 0)) as [->|]; [apply Z.testbit_even_0|].
    replace j with (Z.succ (j - 1)) by lia. rewrite Z.testbit_even_succ by lia. apply Hlow. lia.
  - split_conj; [done|done|]. change (Z.log2 (Z.land 1 (- (1)))) with 0. lia.
Qed.

Lemma trailing_zeros_spec s :
  0 < s -> Z.testbit s (Z.of_nat (trailing_zeros s)) = true /\
  forall e, (e < trailing_zeros s)%nat -> Z.testbit s (Z.of_nat e) = false.
Proof.
  intros Hs. unfold trailing_zeros. rewrite decide_False by lia. destruct s as [|p|p]; [lia| |lia].
  destruct (lowest_bit p) as (_ & Hbit & Hlow).
  rewrite Z2Nat.id by apply Z.log2_nonneg. split; [done|]. intros e He. apply Hlow. lia.
Qed.

(** ** The lock invariant

    [holders] says what each executor holds: account keys, each with whether it is held for
    writing. *)

Definition lock_of (self : ExecutionCoordinator) (key : bytes) : Z := default 0 (c_locks self !! key).

Record lock_inv (self : ExecutionCoordinator) (holders : list (list (bytes * bool))) : Prop := {
  li_executors : (length holders <= MAX_SVM_EXECUTORS)%nat;
  li_blocked : length (c_blocked_transactions self) = length holders;
  li_acquired : c_acquired_locks self = (fun h => h.*1) <$> holders;
  li_nodup : forall e h, holders !! e = Some h -> NoDup h.*1;
  li_range : forall k, 0 <= lock_of self k < 2 ^ 64;
  (** The executor bits of a lock are the executors that hold it. *)
  li_bit : forall k e, (e < MAX_SVM_EXECUTORS)%nat ->
    Z.testbit (lock_of self k) (Z.of_nat e) = true <-> exists h, holders !! e = Some h /\ k ∈ h.*1;
  (** The write bit is set when one of them holds it for writing. *)
  li_write : forall k,
    Z.testbit (lock_of self k) 63 = true <-> exists e h, holders !! e = Some h /\ (k, true) ∈ h;
  (** A lock held for writing has one holder. *)
  li_exclusive : forall k e e' h h', holders !! e = Some h -> holders !! e' = Some h' ->
    (k, true) ∈ h -> k ∈ h'.*1 -> e = e';
}.

(** Two lists of accounts conflict on a key that one of them writes. *)
Definition accounts_conflict (a b : list (bytes * bool)) : Prop :=
  exists k w w', (k, w) ∈ a /\ (k, w') ∈ b /\ (w = true \/ w' = true).

Lemma elem_of_fst {A B} (l : list (A * B)) k : k ∈ l.*1 <-> exists v, (k, v) ∈ l.
Proof.
  rewrite list_elem_of_fmap. split; [intros ([k' v] & -> & H); by exists v|intros (v & H); by exists (k, v)].
Qed.

Lemma testbit_nonzero s i : Z.testbit s i = true -> s <> 0.
Proof. intros H ->. by rewrite Z.bits_0 in H. Qed.

Lemma testbit_high s i : 0 <= s < 2 ^ 64 -> 64 <= i -> Z.testbit s i = false.
Proof.
  intros Hs Hi. destruct (decide (s = 0)) as [->|]; [apply Z.bits_0|].
  apply Z.bits_above_log2; [lia|]. assert (Z.log2 s < 64); [|lia]. apply Z.log2_lt_pow2; lia.
Qed.

Lemma land_write_bit s : 0 <= s -> Z.land s WRITE_BIT <> 0 <-> Z.testbit s 63 = true.
Proof.
  intros Hs. unfold WRITE_BIT. change (Z.shiftl 1 (Z.of_nat MAX_SVM_EXECUTORS)) with (executor_bit 63).
  split.
  - intros Hne. destruct (Z.testbit s 63) eqn:E; [done|]. destruct Hne. apply Z.bits_inj'. intros i Hi.
    rewrite Z.land_spec, Z.bits_0, executor_bit_spec by done. case_bool_decide; [subst|by rewrite andb_false_r].
    change (Z.of_nat 63) with 63. by rewrite E.
  - intros E. apply (testbit_nonzero _ 63). rewrite Z.land_spec, executor_bit_spec, E by lia.
    by rewrite bool_decide_true.
Qed.

Lemma lor_range a b : 0 <= a < 2 ^ 64 -> 0 <= b < 2 ^ 64 -> 0 <= Z.lor a b < 2 ^ 64.
Proof.
  intros Ha Hb. split; [apply Z.lor_nonneg; lia|].
  destruct (decide (Z.lor a b = 0)) as [->|]; [lia|].
  apply Z.log2_lt_pow2; [pose proof (proj2 (Z.lor_nonneg a b)); lia|].
  rewrite Z.log2_lor by lia.
  assert (forall z, 0 <= z < 2 ^ 64 -> Z.log2 z < 64) as Hlog.
  { intros z Hz. destruct (decide (z = 0)) as [->|]; [done|]. apply Z.log2_lt_pow2; lia. }
  pose proof (Hlog a Ha). pose proof (Hlog b Hb). lia.
Qed.

Lemma executor_bit_range e : (e <= 63)%nat -> 0 <= executor_bit e < 2 ^ 64.
Proof.
  intros He. unfold executor_bit. rewrite Z.shiftl_1_l. split; [apply Z.pow_nonneg; lia|].
  apply Z.pow_lt_mono_r; lia.
Qed.

Lemma unlock_bits s e i :
  0 <= s < 2 ^ 64 -> 0 <= i ->
  Z.testbit (AccountLock_unlock s e) i =
    Z.testbit s i && negb (bool_decide (i = 63)) && negb (bool_decide (i = Z.of_nat e)).
Proof.
  intros Hs Hi. unfold AccountLock_unlock, not64, WRITE_BIT.
  change (Z.shiftl 1 (Z.of_nat MAX_SVM_EXECUTORS)) with (executor_bit 63).
  rewrite Z.land_spec, Z.lxor_spec, Z.lor_spec, !executor_bit_spec by done.
  change U64_MAX with (Z.ones 64). rewrite Z.testbit_ones_nonneg by lia.
  change (Z.of_nat 63) with 63.
  destruct (Z.ltb_spec i 64).
  - by repeat case_bool_decide; destruct (Z.testbit s i).
  - rewrite (testbit_high s) by lia. done.
Qed.

Lemma unlock_range s e : 0 <= s < 2 ^ 64 -> 0 <= AccountLock_unlock s e < 2 ^ 64.
Proof.
  intros Hs. unfold AccountLock_unlock.
  assert (0 <= Z.land s (not64 (Z.lor WRITE_BIT (executor_bit e)))) as H0 by (apply Z.land_nonneg; lia).
  split; [done|]. set (m := not64 _) in *. destruct (decide (Z.land s m = 0)) as [->|]; [lia|].
  apply Z.log2_lt_pow2; [lia|]. destruct (Z.lt_ge_cases (Z.log2 (Z.land s m)) 64) as [|Hge]; [done|exfalso].
  pose proof (Z.bit_log2 (Z.land s m) ltac:(lia)) as Hb. rewrite Z.land_spec, (testbit_high s) in Hb by lia. done.
Qed.
