(* ===== verification/LockInv.v ===== *)
(** * The coordinator keeps the locks

    Every operation of the coordinator preserves the lock invariant, succeeds or fails exactly by
    whether the transaction conflicts with what the executors hold, and never panics. *)
From S2P Require Import Prelude Locks.

Section inv.
Implicit Types (self : ExecutionCoordinator) (holders : list (list (bytes * bool))).

Lemma lock_of_insert self acquired k s k' :
  lock_of (set_locked self acquired (<[k := s]> (c_locks self))) k' =
    if decide (k = k') then s else lock_of self k'.
Proof.
  unfold lock_of. cbn. case_decide; subst; [by rewrite lookup_insert_eq|by rewrite lookup_insert_ne].
Qed.

Lemma holders_insert_Some holders e g e' h :
  (e < length holders)%nat ->
  <[e := g]> holders !! e' = Some h <-> (e' = e /\ h = g) \/ (e' <> e /\ holders !! e' = Some h).
Proof.
  intros He. destruct (decide (e' = e)) as [->|].
  - rewrite list_lookup_insert_eq by done. naive_solver.
  - rewrite list_lookup_insert_ne by done. naive_solver.
Qed.

(** Taking one more lock, whatever the operation that set its bits. *)
Lemma lock_inv_grant self holders e h k w s :
  lock_inv self holders -> holders !! e = Some h -> k ∉ h.*1 ->
  0 <= s < 2 ^ 64 ->
  (forall e', (e' < MAX_SVM_EXECUTORS)%nat ->
     Z.testbit s (Z.of_nat e') = Z.testbit (lock_of self k) (Z.of_nat e') || bool_decide (e' = e)) ->
  Z.testbit s 63 = Z.testbit (lock_of self k) 63 || w ->
  (forall e' h' w', holders !! e' = Some h' -> (k, w') ∈ h' -> w = false /\ w' = false) ->
  lock_inv (set_locked self (<[e := h.*1 ++ [k]]> (c_acquired_locks self)) (<[k := s]> (c_locks self)))
    (<[e := h ++ [(k, w)]]> holders).
Proof.
  intros [Hn Hbl Hacq Hnd Hr Hbit Hw Hx] He Hk Hs Hsbit Hsw Hfree.
  pose proof (lookup_lt_Some _ _ _ He) as Hlt.
  assert (forall k' v, (k', v) ∈ h ++ [(k, w)] <-> (k', v) ∈ h \/ (k' = k /\ v = w)) as Hin.
  { intros. rewrite elem_of_app, list_elem_of_singleton. naive_solver. }
  assert (forall k', k' ∈ (h ++ [(k, w)]).*1 <-> k' ∈ h.*1 \/ k' = k) as Hin1.
  { intros. rewrite fmap_app, elem_of_app. cbn. by rewrite list_elem_of_singleton. }
  split.
  - by rewrite length_insert.
  - cbn. by rewrite length_insert.
  - cbn. rewrite Hacq, list_fmap_insert, fmap_app. done.
  - intros e' h'. rewrite holders_insert_Some by done. intros [[-> ->]|[_ H]]; [|eauto].
    rewrite fmap_app. apply NoDup_app. split_conj; [eauto| |apply NoDup_singleton].
    intros x Hx' E%list_elem_of_singleton. by subst.
  - intros k'. rewrite lock_of_insert. by case_decide.
  - intros k' e' He'. rewrite lock_of_insert. setoid_rewrite holders_insert_Some; [|done].
    destruct (decide (k = k')) as [<-|Hne].
    + rewrite Hsbit, orb_true_iff, bool_decide_eq_true, Hbit by done. split.
      * intros [(h' & Hh' & Hk')| ->]; [|exists (h ++ [(k, w)]); rewrite Hin1; naive_solver].
        destruct (decide (e' = e)) as [->|]; [congruence|]. exists h'. naive_solver.
      * intros (h' & [[-> ->]|[Hne Hh']] & Hk'); [naive_solver|]. left. by exists h'.
    + rewrite Hbit by done. split.
      * intros (h' & Hh' & Hk'). destruct (decide (e' = e)) as [->|]; [|exists h'; naive_solver].
        rewrite He in Hh'. injection Hh' as <-. exists (h ++ [(k, w)]). rewrite Hin1. naive_solver.
      * intros (h' & [[-> ->]|[Hne' Hh']] & Hk'); [|naive_solver].
        exists h. split; [done|]. apply Hin1 in Hk' as [?|?]; congruence.
  - intros k'. rewrite lock_of_insert. setoid_rewrite holders_insert_Some; [|done].
    destruct (decide (k = k')) as [<-|Hne].
    + rewrite Hsw, orb_true_iff, Hw. split.
      * intros [(e' & h' & Hh' & Hk')| ->]; [by destruct (Hfree _ _ _ Hh' Hk')|].
        exists e, (h ++ [(k, true)]). rewrite elem_of_app, list_elem_of_singleton. naive_solver.
      * intros (e' & h' & [[-> ->]|[Hne Hh']] & Hk'); [|left; by exists e', h'].
        apply Hin in Hk' as [Hk'|[_ ->]]; [left; by exists e, h|by right].
    + rewrite Hw. split.
      * intros (e' & h' & Hh' & Hk'). destruct (decide (e' = e)) as [->|]; [|exists e', h'; naive_solver].
        rewrite He in Hh'. injection Hh' as <-. exists e, (h ++ [(k, w)]). rewrite Hin. naive_solver.
      * intros (e' & h' & [[-> ->]|[Hne' Hh']] & Hk'); [|naive_solver].
        exists e, h. split; [done|]. apply Hin in Hk' as [?|[? _]]; [done|congruence].
  - intros k' e1 e2 h1 h2. rewrite !holders_insert_Some by done.
    intros [[-> ->]|[Hne1 H1]] [[-> ->]|[Hne2 H2]]; [done|..].
    + rewrite Hin. intros [Hk1|[-> <-]] Hk2; [by eapply Hx|].
      apply elem_of_fst in Hk2 as [w' Hk2]. by destruct (Hfree _ _ _ H2 Hk2).
    + rewrite Hin1. intros Hk1 [Hk2| ->]; [by eapply Hx|]. by destruct (Hfree _ _ _ H1 Hk1).
    + eauto.
Qed.

(** Releasing every lock of an executor. *)
Lemma unlock_each (locks : gmap bytes Z) executor (held : list bytes) k :
  NoDup held ->
  default 0 (foldl (fun locks key => alter (fun state => AccountLock_unlock state executor) key locks)
    locks held !! k) =
  if decide (k ∈ held) then AccountLock_unlock (default 0 (locks !! k)) executor else default 0 (locks !! k).
Proof.
  intros Hnd. revert locks. induction Hnd as [|x held Hx Hnd IH]; intros locks.
  { cbn. by rewrite decide_False by apply not_elem_of_nil. }
  cbn [foldl]. rewrite IH. destruct (decide (x = k)) as [->|Hne].
  - rewrite decide_False, decide_True by (done || left). rewrite lookup_alter_eq.
    by destruct (locks !! k).
  - rewrite lookup_alter_ne by done. destruct (decide (k ∈ held)) as [Hin|Hout].
    + by rewrite decide_True by (by right).
    + rewrite decide_False; [done|]. by intros [->|?]%elem_of_cons.
Qed.

Lemma unlock_accounts_inv self holders e h :
  lock_inv self holders -> holders !! e = Some h ->
  exists self', unlock_accounts self e = Ok self' /\ lock_inv self' (<[e := []]> holders) /\
    c_blocked_transactions self' = c_blocked_transactions self /\
    c_ready_executors self' = c_ready_executors self /\ c_mode self' = c_mode self.
Proof.
  intros [Hn Hbl Hacq Hnd Hr Hbit Hw Hx] He. pose proof (lookup_lt_Some _ _ _ He) as Hlt.
  unfold unlock_accounts. rewrite Hacq, list_lookup_fmap, He. cbn [fmap option_fmap option_map]. res_run.
  eexists. split; [done|]. split; [|done].
  assert (forall k, lock_of (set_locked self (<[e := []]> ((fun h => h.*1) <$> holders))
    (foldl (fun locks key => alter (fun state => AccountLock_unlock state e) key locks)
      (c_locks self) h.*1)) k =
    if decide (k ∈ h.*1) then AccountLock_unlock (lock_of self k) e else lock_of self k) as Hlock.
  { intros k. apply unlock_each. eauto. }
  assert (forall k e' h', k ∈ h.*1 -> holders !! e' = Some h' -> (k, true) ∈ h' -> e' = e) as Hown.
  { intros k e' h' Hk He' Hk'. symmetry. by eapply (Hx k e' e h' h) in He as ->. }
  split.
  - by rewrite length_insert.
  - cbn. by rewrite length_insert.
  - cbn. by rewrite list_fmap_insert.
  - intros e' h'. rewrite holders_insert_Some by done. intros [[-> ->]|[_ H]]; [constructor|eauto].
  - intros k. rewrite Hlock. case_decide; [|done]. by apply unlock_range.
  - intros k e' He'. rewrite Hlock. setoid_rewrite holders_insert_Some; [|done]. case_decide as Hk.
    + rewrite unlock_bits by (done || lia). rewrite !andb_true_iff, !negb_true_iff, !bool_decide_eq_false, Hbit by done.
      split; [|intros (h' & [[-> ->]|[Hne Hh']] & Hk')].
      * intros [[(h' & Hh' & Hk') _] Hne]. exists h'. split; [right|done]. split; [lia|done].
      * by apply not_elem_of_nil in Hk'.
      * split_conj; [by exists h'|unfold MAX_SVM_EXECUTORS in *; lia|lia].
    + rewrite Hbit by done. split.
      * intros (h' & Hh' & Hk'). exists h'. split; [right|done]. split; [|done]. intros ->. congruence.
      * intros (h' & [[-> ->]|[Hne Hh']] & Hk'); [by apply not_elem_of_nil in Hk'|by exists h'].
  - intros k. rewrite Hlock. setoid_rewrite holders_insert_Some; [|done]. case_decide as Hk.
    + rewrite unlock_bits by (done || lia). rewrite bool_decide_true by done. rewrite andb_false_r. split; [done|].
      intros (e' & h' & [[-> ->]|[Hne Hh']] & Hk'); [by apply not_elem_of_nil in Hk'|]. destruct Hne. eauto.
    + rewrite Hw. split.
      * intros (e' & h' & Hh' & Hk'). exists e', h'. split; [right|done]. split; [|done]. intros ->.
        rewrite He in Hh'. injection Hh' as <-. apply Hk, elem_of_fst. by exists true.
      * intros (e' & h' & [[-> ->]|[Hne Hh']] & Hk'); [by apply not_elem_of_nil in Hk'|by exists e', h'].
  - intros k e1 e2 h1 h2. rewrite !holders_insert_Some by done.
    intros [[-> ->]|[Hne1 H1]] [[-> ->]|[Hne2 H2]] Hk1 Hk2;
      [done|by apply not_elem_of_nil in Hk1|by apply not_elem_of_nil in Hk2|eauto].
Qed.

(** A refused lock names an executor that holds it in conflict. *)
Lemma blocked_by_holder self holders e h k (w : bool) b :
  lock_inv self holders -> holders !! e = Some h -> k ∉ h.*1 ->
  (if w then AccountLock_write (lock_of self k) e else AccountLock_read (lock_of self k) e) = Err b ->
  b <> e /\ exists hb w', holders !! b = Some hb /\ (k, w') ∈ hb /\ (w = true \/ w' = true).
Proof.
  intros Hi He Hk Hb. pose proof (li_range _ _ Hi k) as Hr.
  assert (0 < lock_of self k /\ b = trailing_zeros (lock_of self k) /\
    (w = true \/ Z.testbit (lock_of self k) 63 = true)) as (Hpos & -> & Hwhy).
  { destruct w; unfold AccountLock_write, AccountLock_read in Hb; case_decide as Hd; try done;
      injection Hb as <-; split_conj; auto; [lia|..|right; by apply land_write_bit; lia].
    apply land_write_bit, testbit_nonzero in Hd; lia. }
  destruct (trailing_zeros_spec _ Hpos) as [Hbit Hlow]. set (b := trailing_zeros _) in *.
  assert (exists e' h', holders !! e' = Some h' /\ k ∈ h'.*1 /\
    (Z.testbit (lock_of self k) 63 = true -> (k, true) ∈ h')) as (e' & h' & Hh' & Hk' & Hw').
  { destruct (decide (Z.testbit (lock_of self k) 63 = true)) as [Hw|Hw].
    - apply (li_write _ _ Hi) in Hw as (e' & h' & Hh' & Hk'). exists e', h'. split_conj; try done.
      apply elem_of_fst. by exists true.
    - assert (b < MAX_SVM_EXECUTORS)%nat as Hlt.
      { destruct (decide (b < MAX_SVM_EXECUTORS)%nat) as [|Hge]; [done|].
        destruct (decide (Z.of_nat b = 63)) as [E|]; [congruence|].
        rewrite testbit_high in Hbit; [done|done|unfold MAX_SVM_EXECUTORS in *; lia]. }
      apply (li_bit _ _ Hi) in Hbit as (h' & Hh' & Hk'); [|done]. by exists b, h'. }
  assert (e' < MAX_SVM_EXECUTORS)%nat as He'.
  { apply lookup_lt_Some in Hh'. pose proof (li_executors _ _ Hi). lia. }
  assert (Z.testbit (lock_of self k) (Z.of_nat e') = true) as Hbit' by (apply (li_bit _ _ Hi); eauto).
  assert (b < MAX_SVM_EXECUTORS)%nat as Hlt.
  { destruct (decide (b <= e')%nat); [lia|]. rewrite Hlow in Hbit' by lia. done. }
  apply (li_bit _ _ Hi) in Hbit as (hb & Hhb & Hkb); [|done].
  split; [intros ->; congruence|]. apply elem_of_fst in Hkb as [w' Hkb]. exists hb, w'.
  split_conj; [done..|]. destruct Hwhy as [|Hwbit]; [by left|right].
  assert (e' = b) as -> by (eapply (li_exclusive _ _ Hi k); eauto; apply elem_of_fst; eauto).
  rewrite Hhb in Hh'. injection Hh' as <-. specialize (Hw' Hwbit).
  pose proof (li_nodup _ _ Hi _ _ Hhb) as Hnd.
  apply list_elem_of_lookup in Hkb as [i Hi1], Hw' as [j Hj].
  assert (i = j) as ->; [|congruence].
  apply (NoDup_lookup _ _ _ k Hnd); by rewrite list_lookup_fmap, ?Hi1, ?Hj.
Qed.

(** What a granted lock does to the bits. *)
Lemma granted_bits s e (w : bool) s' :
  0 <= s < 2 ^ 64 -> (e < MAX_SVM_EXECUTORS)%nat ->
  (if w then AccountLock_write s e else AccountLock_read s e) = Ok s' ->
  0 <= s' < 2 ^ 64 /\
  (forall e', (e' < MAX_SVM_EXECUTORS)%nat ->
     Z.testbit s' (Z.of_nat e') = Z.testbit s (Z.of_nat e') || bool_decide (e' = e)) /\
  Z.testbit s' 63 = Z.testbit s 63 || w /\ (if w then s = 0 else Z.testbit s 63 = false).
Proof.
  unfold MAX_SVM_EXECUTORS. intros Hs He. destruct w.
  - unfold AccountLock_write. case_decide as Hz; [done|]. intros [= <-].
    assert (s = 0) as -> by lia. unfold WRITE_BIT.
    change (Z.shiftl 1 (Z.of_nat MAX_SVM_EXECUTORS)) with (executor_bit 63).
    split; [|split; [|split; [|done]]].
    + apply lor_range; apply executor_bit_range; lia.
    + intros e' He'. rewrite Z.lor_spec, !executor_bit_spec, Z.bits_0 by lia.
      rewrite (bool_decide_false (Z.of_nat e' = Z.of_nat 63)) by lia. cbn. apply bool_decide_ext. lia.
    + rewrite Z.lor_spec, executor_bit_spec, Z.bits_0 by lia. by rewrite bool_decide_true.
  - unfold AccountLock_read. case_decide as Hz; [done|]. intros [= <-].
    assert (Z.testbit s 63 = false) as H63.
    { apply not_true_is_false. rewrite <-land_write_bit by lia. lia. }
    split; [|split; [|split; [|done]]].
    + apply lor_range; [done|]. apply executor_bit_range. lia.
    + intros e' He'. rewrite Z.lor_spec, executor_bit_spec by lia. f_equal. apply bool_decide_ext. lia.
    + rewrite Z.lor_spec, executor_bit_spec by lia. by rewrite bool_decide_false by lia.
Qed.

(** Registering a lock that is not yet in the registry changes no lock. *)
Lemma lock_inv_entry self holders k :
  lock_inv self holders ->
  lock_inv (set_locked self (c_acquired_locks self) (<[k := lock_of self k]> (c_locks self))) holders.
Proof.
  intros [Hn Hbl Hacq Hnd Hr Hbit Hw Hx].
  assert (forall k', lock_of (set_locked self (c_acquired_locks self) (<[k := lock_of self k]> (c_locks self))) k'
    = lock_of self k') as Hl by (intros k'; rewrite lock_of_insert; by case_decide; subst).
  split; try done; setoid_rewrite Hl; done.
Qed.

Definition same_queues self self' : Prop :=
  c_blocked_transactions self' = c_blocked_transactions self /\
  c_ready_executors self' = c_ready_executors self /\ c_mode self' = c_mode self.

(** An idle executor asking for the locks of a transaction gets them all, or gives back what it
    got and learns who holds one of them in conflict. *)
Lemma acquire_each_spec accounts : forall self holders e h,
  lock_inv self holders -> holders !! e = Some h -> NoDup (h ++ accounts).*1 ->
  exists r self', acquire_each self e accounts = Ok (r, self') /\ same_queues self self' /\
    match r with
    | Ok _ => lock_inv self' (<[e := h ++ accounts]> holders)
    | Err b =>
        lock_inv self' (<[e := []]> holders) /\ b <> e /\
        exists hb, holders !! b = Some hb /\ accounts_conflict accounts hb
    | Panic => False
    end.
Proof.
  induction accounts as [|[k w] accounts IH]; intros self holders e h Hi He Hnd.
  { exists (Ok tt), self. split; [done|]. split; [done|]. by rewrite app_nil_r, list_insert_id. }
  pose proof (lookup_lt_Some _ _ _ He) as Hlt. pose proof (li_executors _ _ Hi) as Hn.
  assert (k ∉ h.*1) as Hk.
  { rewrite fmap_app in Hnd. apply NoDup_app in Hnd as (_ & Hnd & _). intros Hin.
    apply (Hnd k Hin). left. }
  cbn [acquire_each]. change (default 0 (c_locks self !! k)) with (lock_of self k).
  destruct (if w then AccountLock_write (lock_of self k) e else AccountLock_read (lock_of self k) e)
    as [s|b|] eqn:Hl.
  - destruct (granted_bits _ _ _ _ (li_range _ _ Hi k) (Nat.lt_le_trans _ _ _ Hlt Hn) Hl) as (Hs & Hsb & Hsw & Hfree).
    cbn [set_locked c_acquired_locks c_locks c_blocked_transactions c_ready_executors c_mode].
    rewrite (li_acquired _ _ Hi), list_lookup_fmap, He. cbn [fmap option_fmap option_map]. res_run.
    rewrite insert_insert_eq, <-(li_acquired _ _ Hi).
    assert (lock_inv (set_locked self (<[e := h.*1 ++ [k]]> (c_acquired_locks self))
      (<[k := s]> (c_locks self))) (<[e := h ++ [(k, w)]]> holders)) as Hi'.
    { apply lock_inv_grant; try done. intros e' h' w' Hh' Hk'.
      assert (e' < MAX_SVM_EXECUTORS)%nat by (apply lookup_lt_Some in Hh'; lia).
      assert (Z.testbit (lock_of self k) (Z.of_nat e') = true) as Hbit.
      { apply (li_bit _ _ Hi); [done|]. exists h'. split; [done|]. apply elem_of_fst. eauto. }
      destruct w; [rewrite Hfree, Z.bits_0 in Hbit; done|]. split; [done|]. destruct w'; [|done].
      rewrite <-not_true_iff_false, (li_write _ _ Hi) in Hfree. destruct Hfree. eauto. }
    destruct (IH _ _ e (h ++ [(k, w)]) Hi') as (r & self' & E & Hq & Hr);
      [by rewrite list_lookup_insert_eq|by rewrite <-app_assoc|].
    exists r, self'. split; [exact E|]. split; [done|]. destruct r as [u|b|]; [|destruct Hr as (Hr & Hb & Hc)|done].
    + by rewrite <-app_assoc, list_insert_insert_eq in Hr.
    + rewrite list_insert_insert_eq in Hr. split_conj; [done..|].
      destruct Hc as (hb & Hhb & k' & w1 & w2 & H1 & H2 & H3).
      rewrite list_lookup_insert_ne in Hhb by done. exists hb. split; [done|].
      exists k', w1, w2. split_conj; [by right|done..].
  - destruct (unlock_accounts_inv _ _ e h (lock_inv_entry _ _ k Hi) He) as (self' & E & Hi' & Hq).
    rewrite E. res_run. exists (Err b), self'. split; [done|]. split; [exact Hq|].
    destruct (blocked_by_holder _ _ _ _ _ _ _ Hi He Hk Hl) as (Hb & hb & w' & Hhb & Hkb & Hw).
    split_conj; [done..|]. exists hb. split; [done|]. exists k, w, w'. split_conj; [left|done..].
  - destruct w; unfold AccountLock_write, AccountLock_read in Hl; by case_decide.
Qed.
End inv.
