(* ===== verification/Scheduler.v ===== *)
(** * The transaction scheduler: magicblock-processor/src/scheduler/mod.rs

    The event loop as a state machine: the state is the record [TransactionScheduler], an event is
    what one branch of the [select!] receives, [handle_event] is the branch.  An executor is a channel of
    capacity one with a worker behind it; here it is the transaction it was sent and has not
    finished.  The ledger and the accounts database answer only whether a block was written. *)
From S2P Require Import Prelude Crypto Locks.

Record IndexedTransaction : Type := MkIndexed {
  it_slot : Z;
  it_index : Z;
  it_txn : ProcessableTransaction;
}.

(** [LatestBlockInner]: the clock of a block is that of the slot after it. *)
Record LatestBlock : Type := MkLatest {
  lb_slot : Z;
  lb_blockhash : bytes;
  lb_clock_slot : Z;
  lb_timestamp : Z;
}.

Definition LatestBlock_new (slot : Z) (blockhash : bytes) (timestamp : Z) : LatestBlock :=
  MkLatest slot blockhash (wrap64 (slot + 1)) timestamp.

(** What goes to the replication sink. *)
Inductive Message : Type :=
| MsgTransaction (index slot : Z) (payload : bytes)
| MsgBlock (slot : Z) (hash : bytes) (timestamp : Z).

Record TransactionScheduler : Type := MkScheduler {
  s_coordinator : ExecutionCoordinator;
  (** The static counter of [next_transaction_id]. *)
  s_next_id : Z;
  (** What each executor was sent and has not reported finished. *)
  s_executors : list (option IndexedTransaction);
  (** Everything that was sent to executors, in order. *)
  s_dispatched : list IndexedTransaction;
  (** The updates of the blake3 hasher since its last reset. *)
  s_hasher : list bytes;
  s_is_initial_replica_block : bool;
  s_superblock_size : Z;
  s_slot : Z;
  s_index : Z;
  (** [None] when no replication sink is attached; else what was sent to it. *)
  s_replication : option (list Message);
  (** The blocks the ledger took, and the slot of the accounts database. *)
  s_blocks : list LatestBlock;
  s_accountsdb_slot : Z;
}.

Section setters.
Implicit Types (self : TransactionScheduler).

Definition with_coordinator self c : TransactionScheduler :=
  MkScheduler c (s_next_id self) (s_executors self) (s_dispatched self) (s_hasher self)
    (s_is_initial_replica_block self) (s_superblock_size self) (s_slot self) (s_index self)
    (s_replication self) (s_blocks self) (s_accountsdb_slot self).
Definition with_next_id self id : TransactionScheduler :=
  MkScheduler (s_coordinator self) id (s_executors self) (s_dispatched self) (s_hasher self)
    (s_is_initial_replica_block self) (s_superblock_size self) (s_slot self) (s_index self)
    (s_replication self) (s_blocks self) (s_accountsdb_slot self).
Definition with_sent self executors dispatched : TransactionScheduler :=
  MkScheduler (s_coordinator self) (s_next_id self) executors dispatched (s_hasher self)
    (s_is_initial_replica_block self) (s_superblock_size self) (s_slot self) (s_index self)
    (s_replication self) (s_blocks self) (s_accountsdb_slot self).
Definition with_clock self hasher slot index : TransactionScheduler :=
  MkScheduler (s_coordinator self) (s_next_id self) (s_executors self) (s_dispatched self) hasher
    (s_is_initial_replica_block self) (s_superblock_size self) slot index
    (s_replication self) (s_blocks self) (s_accountsdb_slot self).
Definition with_initial self initial : TransactionScheduler :=
  MkScheduler (s_coordinator self) (s_next_id self) (s_executors self) (s_dispatched self)
    (s_hasher self) initial (s_superblock_size self) (s_slot self) (s_index self)
    (s_replication self) (s_blocks self) (s_accountsdb_slot self).
Definition with_replication self replication : TransactionScheduler :=
  MkScheduler (s_coordinator self) (s_next_id self) (s_executors self) (s_dispatched self)
    (s_hasher self) (s_is_initial_replica_block self) (s_superblock_size self) (s_slot self)
    (s_index self) replication (s_blocks self) (s_accountsdb_slot self).
Definition with_storage self blocks slot : TransactionScheduler :=
  MkScheduler (s_coordinator self) (s_next_id self) (s_executors self) (s_dispatched self)
    (s_hasher self) (s_is_initial_replica_block self) (s_superblock_size self) (s_slot self)
    (s_index self) (s_replication self) blocks slot.
End setters.

Section scheduler.
Context `{C : Crypto}.
Implicit Types (self : TransactionScheduler).

Definition HASH_DEFAULT : bytes := zeros 32.

(** The ledger's latest hash, else the newest of the SlotHashes account, else the default hash. *)
Definition initial_blockhash (ledger_hash : bytes) (snapshot_hash : option bytes) : bytes :=
  if decide (ledger_hash <> HASH_DEFAULT) then ledger_hash else default HASH_DEFAULT snapshot_hash.

Definition TransactionScheduler_new (executors : Z) (ledger_hash : bytes) (snapshot_hash : option bytes)
    (accountsdb_slot superblock_size : Z) (replicated : bool) : TransactionScheduler :=
  let count := Z.to_nat (Z.max 1 (Z.min executors (Z.of_nat MAX_SVM_EXECUTORS))) in
  {| s_coordinator := ExecutionCoordinator_new count;
     s_next_id := 0;
     s_executors := replicate count None;
     s_dispatched := [];
     s_hasher := [initial_blockhash ledger_hash snapshot_hash];
     s_is_initial_replica_block := true;
     s_superblock_size := superblock_size;
     s_slot := wrap64 (accountsdb_slot + 1);
     s_index := 0;
     s_replication := if replicated then Some [] else None;
     s_blocks := [];
     s_accountsdb_slot := accountsdb_slot |}.

Definition hasher_finalize self : bytes := blake3 (concat (s_hasher self)).

Definition is_replicating self : bool :=
  bool_decide (is_Some (s_replication self)) && is_primary (s_coordinator self).

Definition send_replication self (msg : Message) : TransactionScheduler :=
  with_replication self ((fun sent => sent ++ [msg]) <$> s_replication self).

(** The slot and the index of a dispatched transaction; only an execution advances the index. *)
Definition assign_position self (mode : TransactionProcessingMode) : bool * (Z * Z) * TransactionScheduler :=
  match mode with
  | Replay ctx => (false, (rp_slot ctx, rp_index ctx), self)
  | Simulation => (false, (s_slot self, 0), self)
  | ModeExecution _ =>
      (true, (s_slot self, s_index self),
       with_clock self (s_hasher self) (s_slot self) (wrap32 (s_index self + 1)))
  end.

(** What [schedule_transaction] does once the locks are taken. *)
Definition dispatch self (executor : ExecutorId) (txn : ProcessableTransaction)
    : may_panic TransactionScheduler :=
  let '(is_execution, (slot, index), self) := assign_position self (pt_mode txn) in
  let self :=
    match pt_mode txn with
    | Simulation => self
    | _ => with_clock self (s_hasher self ++ [pt_signature txn]) (s_slot self) (s_index self)
    end in
  let msg :=
    if is_execution && is_replicating self
    then MsgTransaction index slot <$> pt_encoded txn else None in
  let txn := MkIndexed slot index txn in
  channel ← expect (s_executors self !! executor);
  match channel with
  | None =>
      let self := with_sent self (<[executor := Some txn]> (s_executors self))
                    (s_dispatched self ++ [txn]) in
      Ok (match msg with Some msg => send_replication self msg | None => self end)
  | Some _ => Ok self
  end.

Definition schedule_transaction self (executor : ExecutorId) (txn : TransactionWithId)
    : may_panic (option ExecutorId * TransactionScheduler) :=
  '(scheduled, c) ← try_schedule (s_coordinator self) executor txn;
  let self := with_coordinator self c in
  match scheduled with
  | Err blocker => Ok (Some blocker, self)
  | Panic => Panic
  | Ok txn => self ← dispatch self executor txn; Ok (None, self)
  end.

Definition handle_new_transaction self (txn : ProcessableTransaction) : may_panic TransactionScheduler :=
  if negb (is_transaction_allowed (s_coordinator self) (pt_mode txn)) then Ok self
  else
    let '(executor, c) := get_ready_executor (s_coordinator self) in
    let self := with_coordinator self c in
    executor ← expect executor;
    let id := s_next_id self in
    let self := with_next_id self (wrap64 (id + 1)) in
    '(_, self) ← schedule_transaction self executor (MkWithId id txn);
    Ok self.

(** Every iteration takes one transaction off the blocker's queue, and one that goes back to it
    ends the loop; so fuel for the transactions of the queue and one more is enough. *)
Fixpoint reschedule_blocked (fuel : nat) self (blocker : ExecutorId) (executor : option ExecutorId)
    : may_panic TransactionScheduler :=
  match executor with
  | None => Ok self
  | Some exec =>
      match fuel with
      | O => Panic
      | S fuel =>
          '(txn, c) ← next_blocked_transaction (s_coordinator self) blocker;
          let self := with_coordinator self c in
          match txn with
          | None => Ok (with_coordinator self (release_executor (s_coordinator self) exec))
          | Some txn =>
              '(blocked, self) ← schedule_transaction self exec txn;
              if decide (blocked = Some blocker) then Ok self
              else
                let '(executor, c) := get_ready_executor (s_coordinator self) in
                reschedule_blocked fuel (with_coordinator self c) blocker executor
          end
      end
  end.

Definition reschedule_blocked_transactions self (blocker : ExecutorId) : may_panic TransactionScheduler :=
  let queue := default [] (c_blocked_transactions (s_coordinator self) !! blocker) in
  reschedule_blocked (S (length queue)) self blocker (Some blocker).

Definition handle_ready_executor self (executor : ExecutorId) : may_panic TransactionScheduler :=
  c ← unlock_accounts (s_coordinator self) executor;
  reschedule_blocked_transactions (with_coordinator self c) executor.

(** [update_sysvars]: the part of it that is scheduler state. *)
Definition update_sysvars self (block : LatestBlock) : TransactionScheduler :=
  with_clock self [lb_blockhash block] (lb_clock_slot block) 0.

Definition prepare_block_as_primary self (timestamp : Z) : LatestBlock * TransactionScheduler :=
  let block := LatestBlock_new (s_slot self) (hasher_finalize self) timestamp in
  (block,
   if is_replicating self
   then send_replication self (MsgBlock (lb_slot block) (lb_blockhash block) (lb_timestamp block))
   else self).

(** [written] is whether [Ledger::write_block] succeeded. *)
Definition finalize_block self (block : LatestBlock) (written : bool) : TransactionScheduler :=
  let block_written := if is_primary (s_coordinator self) then written else true in
  let blocks := if is_primary (s_coordinator self) && written then s_blocks self ++ [block] else s_blocks self in
  with_storage self blocks (if block_written then lb_slot block else s_accountsdb_slot self).

Definition transition_to_new_slot self (timestamp : Z) (written : bool) : TransactionScheduler :=
  let '(block, self) := prepare_block_as_primary self timestamp in
  let self := finalize_block self block written in
  update_sysvars self block.

(** [is_initial] is taken; a mismatch is reported and changes nothing. *)
Definition verify_block_as_replica self : TransactionScheduler := with_initial self false.

(** The error is that of the caller's acknowledgement. *)
Definition apply_replayed_block self (slot : Z) (hash : bytes) (timestamp : Z) (written : bool)
    : bool * TransactionScheduler :=
  if is_primary (s_coordinator self) then (false, self)
  else
    let block := LatestBlock_new slot hash timestamp in
    if negb written then (false, self)
    else
      let self := with_storage self (s_blocks self ++ [block]) (s_accountsdb_slot self) in
      let self := verify_block_as_replica self in
      let self := with_storage self (s_blocks self) (lb_slot block) in
      (true, update_sysvars self block).

(** [resync_from_ledger] with what it reads of the ledger and the accounts database. *)
Definition resync_from_ledger self (ledger_hash : bytes) (snapshot_hash : option bytes) (latest_slot : Z)
    : TransactionScheduler :=
  with_clock self [initial_blockhash ledger_hash snapshot_hash]
    (wrap64 (Z.max (s_accountsdb_slot self) latest_slot + 1)) 0.

Definition reconstruct_inprogress_hasher self (signatures : list bytes) : TransactionScheduler :=
  with_clock self (s_hasher self ++ signatures) (s_slot self) (s_index self).

(** ** The event loop *)

Inductive Event : Type :=
(** A transaction comes off the command queue. *)
| EvTransaction (txn : ProcessableTransaction)
(** A worker reports that it has finished. *)
| EvReady (executor : ExecutorId)
(** The slot ticker fires. *)
| EvTick (timestamp : Z) (written : bool)
(** The mode is switched; to replica with what is read of the ledger. *)
| EvPrimary
| EvReplica (ledger_hash : bytes) (snapshot_hash : option bytes) (latest_slot : Z) (signatures : list bytes)
(** A replicated block, or a drain barrier, comes off the command queue. *)
| EvBlock (slot : Z) (hash : bytes) (timestamp : Z) (written : bool)
| EvDrain.

(** When the loop takes an event: a transaction when the coordinator is ready; a block or a drain
    when it is idle; a report only from a worker that has something to finish.  At the boundary of a
    superblock the tick is taken when the reports of all workers are in. *)
Definition event_enabled self (event : Event) : bool :=
  match event with
  | EvTransaction _ => coordinator_is_ready (s_coordinator self)
  | EvReady executor =>
      match s_executors self !! executor with Some (Some _) => true | _ => false end
  | EvTick _ _ =>
      negb (is_primary (s_coordinator self)) ||
      negb (s_slot self mod s_superblock_size self =? 0) || is_idle (s_coordinator self)
  | EvPrimary | EvReplica _ _ _ _ => true
  | EvBlock _ _ _ _ | EvDrain => is_idle (s_coordinator self)
  end.

Definition handle_event self (event : Event) : may_panic TransactionScheduler :=
  match event with
  | EvTransaction txn => handle_new_transaction self txn
  | EvReady executor =>
      handle_ready_executor
        (with_sent self (<[executor := None]> (s_executors self)) (s_dispatched self)) executor
  | EvTick timestamp written =>
      Ok (if is_primary (s_coordinator self) then transition_to_new_slot self timestamp written else self)
  | EvPrimary => Ok (with_coordinator self (switch_to_primary_mode (s_coordinator self)))
  | EvReplica ledger_hash snapshot_hash latest_slot signatures =>
      let self := with_coordinator self (switch_to_replica_mode (s_coordinator self)) in
      let self := resync_from_ledger self ledger_hash snapshot_hash latest_slot in
      let self := reconstruct_inprogress_hasher self signatures in
      Ok (with_initial self true)
  | EvBlock slot hash timestamp written => Ok (apply_replayed_block self slot hash timestamp written).2
  | EvDrain => Ok self
  end.

(** One step of the loop, and the runs of it. *)
Definition sched_step self (event : Event) (self' : TransactionScheduler) : Prop :=
  event_enabled self event = true /\ handle_event self event = Ok self'.

Inductive sched_steps : TransactionScheduler -> list Event -> TransactionScheduler -> Prop :=
| sched_nil self : sched_steps self [] self
| sched_snoc self events self' event self'' :
    sched_steps self events self' -> sched_step self' event self'' -> sched_steps self (events ++ [event]) self''.
End scheduler.
