(* ===== verification/SchedulerInv.v ===== *)
(** * The scheduler's invariant

    Between two events every executor is either ready and holds nothing, or runs one transaction
    and holds exactly its accounts; and a transaction waits only behind an executor that runs. *)
From S2P Require Import Prelude Crypto Locks LockInv Scheduler.

(** Sanitized messages name no account twice. *)
Definition txn_wf (txn : ProcessableTransaction) : Prop := NoDup (pt_accounts txn).*1.

Definition running (slot : option IndexedTransaction) : list (bytes * bool) :=
  match slot with Some t => pt_accounts (it_txn t) | None => [] end.

(** [hand] is an executor that has been taken from the pool and not been given work yet; [drain] is
    an executor whose queue is being emptied. *)
Record sched_mid (hand drain : option ExecutorId) (self : TransactionScheduler) : Prop := {
  sm_locks : lock_inv (s_coordinator self) (running <$> s_executors self);
  sm_pool : NoDup (c_ready_executors (s_coordinator self));
  sm_hand : forall e, hand = Some e -> e ∉ c_ready_executors (s_coordinator self);
  sm_ready : forall e, s_executors self !! e = Some None <->
    e ∈ c_ready_executors (s_coordinator self) \/ hand = Some e;
  sm_waiting : forall e queue, c_blocked_transactions (s_coordinator self) !! e = Some queue ->
    queue <> [] -> (exists t, s_executors self !! e = Some (Some t)) \/ drain = Some e;
  sm_wf : forall e queue t, c_blocked_transactions (s_coordinator self) !! e = Some queue ->
    t ∈ queue -> txn_wf (ti_txn t);
}.

Definition sched_inv (self : TransactionScheduler) : Prop :=
  sched_mid None None self /\ (1 <= length (s_executors self))%nat.

Section inv.
Context `{C : Crypto}.
Implicit Types (self : TransactionScheduler).

Lemma running_insert self e t :
  running <$> <[e := t]> (s_executors self) = <[e := running t]> (running <$> s_executors self).
Proof. apply list_fmap_insert. Qed.

Lemma heap_push_elem heap txn t : t ∈ heap_push heap txn <-> t = txn \/ t ∈ heap.
Proof. unfold heap_push. by rewrite insert_by_perm, elem_of_cons. Qed.

Lemma heap_push_nonempty heap txn : heap_push heap txn <> [].
Proof.
  intros E. assert (txn ∈ heap_push heap txn) as H by (apply heap_push_elem; by left).
  rewrite E in H. by apply not_elem_of_nil in H.
Qed.

(** The state of a scheduler that has just sent [txn] to [executor]. *)
Record dispatched_to self (executor : ExecutorId) (txn : ProcessableTransaction) self' : Prop := {
  dt_sent : exists t, it_txn t = txn /\ s_dispatched self' = s_dispatched self ++ [t] /\
    s_executors self' = <[executor := Some t]> (s_executors self) /\
    (executes (pt_mode txn) = true -> it_slot t = s_slot self /\ it_index t = s_index self);
  dt_hasher : s_hasher self' = s_hasher self ++
    match pt_mode txn with Simulation => [] | _ => [pt_signature txn] end;
  dt_slot : s_slot self' = s_slot self;
  dt_index : s_index self' =
    match pt_mode txn with ModeExecution _ => wrap32 (s_index self + 1) | _ => s_index self end;
  dt_blocks : s_blocks self' = s_blocks self;
}.

Lemma dispatch_spec self exec txn :
  s_executors self !! exec = Some None ->
  exists self', dispatch self exec txn = Ok self' /\ s_coordinator self' = s_coordinator self /\
    dispatched_to self exec txn self'.
Proof.
  intros He. unfold dispatch, assign_position, send_replication.
  destruct (pt_mode txn) eqn:Hm; cbn [s_executors with_clock]; rewrite He; res_run.
  all: eexists; split; [reflexivity|]; repeat case_match; (split; [done|]).
  all: split; cbn; rewrite ?Hm, ?app_nil_r; try done.
  all: eexists (MkIndexed _ _ txn); split_conj; done.
Qed.

(** The signatures a dispatched transaction feeds the hasher. *)
Definition hashed (t : IndexedTransaction) : list bytes :=
  match pt_mode (it_txn t) with Simulation => [] | _ => [pt_signature (it_txn t)] end.

Definition is_execution (t : IndexedTransaction) : Prop := executes (pt_mode (it_txn t)) = true.

#[global] Instance is_execution_dec t : Decision (is_execution t).
Proof. unfold is_execution. apply _. Defined.

(** What happened between two states of one slot: [sent] went to the executors, in order, each
    execution at the next index of the slot. *)
Record progress self (sent : list IndexedTransaction) self' : Prop := {
  pg_sent : s_dispatched self' = s_dispatched self ++ sent;
  pg_hasher : s_hasher self' = s_hasher self ++ (sent ≫= hashed);
  pg_slot : s_slot self' = s_slot self;
  pg_blocks : s_blocks self' = s_blocks self;
  pg_index : wrap32 (s_index self') = wrap32 (s_index self + Z.of_nat (length (filter is_execution sent)));
  pg_position : forall i t, filter is_execution sent !! i = Some t ->
    it_slot t = s_slot self /\ wrap32 (it_index t) = wrap32 (s_index self + Z.of_nat i);
  pg_u32 : is_u32 (s_index self) ->
    is_u32 (s_index self') /\ Forall (fun t => is_execution t -> is_u32 (it_index t)) sent;
}.

Lemma progress_refl self self' :
  s_dispatched self' = s_dispatched self -> s_hasher self' = s_hasher self ->
  s_slot self' = s_slot self -> s_blocks self' = s_blocks self -> s_index self' = s_index self ->
  progress self [] self'.
Proof.
  intros Hd Hh Hs Hb Hi. split; cbn; rewrite ?app_nil_r; try done; [by rewrite Hi, Z.add_0_r|].
  rewrite Hi. by split; [|constructor].
Qed.

Lemma wrap32_add a b c d : wrap32 a = wrap32 b -> c + b = d -> wrap32 (a + c) = wrap32 d.
Proof. unfold wrap32. intros E <-. rewrite Zplus_mod, E, <-Zplus_mod. f_equal. lia. Qed.

Lemma progress_trans self1 self2 self3 sent1 sent2 :
  progress self1 sent1 self2 -> progress self2 sent2 self3 -> progress self1 (sent1 ++ sent2) self3.
Proof.
  intros [P1 P2 P3 P4 P5 P6 P7] [Q1 Q2 Q3 Q4 Q5 Q6 Q7]. split; try congruence.
  - by rewrite Q1, P1, <-app_assoc.
  - by rewrite Q2, P2, bind_app, <-app_assoc.
  - rewrite Q5, filter_app, length_app. apply (wrap32_add _ _ _ _ P5). lia.
  - intros i t. rewrite filter_app. intros [Hi|[Hlen Hi]]%lookup_app_Some; [eauto|].
    destruct (Q6 _ _ Hi) as [-> ->]. split; [done|]. apply (wrap32_add _ _ _ _ P5). lia.
  - intros [Hu2 Hf1]%P7. apply Q7 in Hu2 as [Hu3 Hf2]. split; [done|]. by apply Forall_app.
Qed.

(** Scheduling a transaction on an executor in hand: it is dispatched, or it goes to the queue of an
    executor that runs a transaction it conflicts with. *)
Lemma schedule_transaction_spec self exec txn drain :
  sched_mid (Some exec) drain self -> txn_wf (ti_txn txn) ->
  exists r self', schedule_transaction self exec txn = Ok (r, self') /\ sched_mid None drain self' /\
    match r with
    | None =>
        dispatched_to self exec (ti_txn txn) self' /\
        c_blocked_transactions (s_coordinator self') = c_blocked_transactions (s_coordinator self) /\
        c_ready_executors (s_coordinator self') = c_ready_executors (s_coordinator self)
    | Some b =>
        s_executors self' = s_executors self /\ progress self [] self' /\
        (exists t, s_executors self !! b = Some (Some t) /\
           accounts_conflict (pt_accounts (ti_txn txn)) (pt_accounts (it_txn t))) /\
        (forall e, e <> b -> c_blocked_transactions (s_coordinator self') !! e =
           c_blocked_transactions (s_coordinator self) !! e) /\
        c_ready_executors (s_coordinator self') = exec :: c_ready_executors (s_coordinator self)
    end.
Proof.
  intros [Hl Hp Hh Hr Hw Hwf] Htxn.
  assert (s_executors self !! exec = Some None) as He by (apply Hr; by right).
  destruct (acquire_each_spec (pt_accounts (ti_txn txn)) _ _ exec [] Hl) as (r & c & E & (Hq1 & Hq2 & Hq3) & Hcase);
    [by rewrite list_lookup_fmap, He|done|].
  unfold schedule_transaction, try_schedule, try_acquire_locks. rewrite E. cbn [app] in Hcase.
  cbv [mbind result_bind]. destruct r as [u|b|]; [| |done].
  - destruct (dispatch_spec (with_coordinator self c) exec (ti_txn txn) He) as (self' & Ed & Hc & Hd).
    cbn in Hc. rewrite Ed. exists None, self'. split; [done|].
    destruct Hd as [(t & Ht & Hdis & Hex & Hpos) Hha Hsl Hix Hbl]. cbn in Hdis, Hex, Hpos, Hha, Hsl, Hix, Hbl.
    split; [|split_conj; [split; [by exists t|done..]|by rewrite Hc|by rewrite Hc]].
    split; rewrite ?Hc, ?Hq1, ?Hq2, ?Hex; [| |done| | |done].
    + by rewrite running_insert; cbn [running]; rewrite Ht.
    + done.
    + intros e. rewrite <-Hq2 in *. destruct (decide (e = exec)) as [->|Hne].
      * rewrite list_lookup_insert_eq by (by eapply lookup_lt_Some). split; [done|].
        intros [Hin|?]; [|done]. by apply Hh in Hin.
      * rewrite list_lookup_insert_ne by done. rewrite Hr. naive_solver.
    + intros e queue Hqueue Hne. destruct (Hw e queue Hqueue Hne) as [(t' & Ht')|Hdr]; [|by right].
      left. exists t'. rewrite list_lookup_insert_ne; [done|]. intros ->. congruence.
  - destruct Hcase as (Hl' & Hb & hb & Hhb & Hcf). rewrite list_lookup_fmap in Hhb.
    destruct (s_executors self !! b) as [[t|]|] eqn:Hrun; cbn in Hhb; [|injection Hhb as <-|done].
    2: { destruct Hcf as (? & ? & ? & _ & []%not_elem_of_nil & _). }
    injection Hhb as <-.
    assert (is_Some (c_blocked_transactions (s_coordinator self) !! b)) as [queue Hqb].
    { apply lookup_lt_is_Some. rewrite (li_blocked _ _ Hl), length_fmap. by eapply lookup_lt_Some. }
    unfold queue_transaction. cbn [set_mode release_executor set_ready c_blocked_transactions].
    rewrite Hq1, Hqb. res_run. eexists (Some b), _. split; [done|]. cbn [s_executors with_coordinator].
    rewrite list_insert_id in Hl' by (by rewrite list_lookup_fmap, He).
    split; [|split_conj; [done|by apply progress_refl|by exists t|intros e Hne; cbn; by rewrite list_lookup_insert_ne
      |cbn; by rewrite Hq2]].
    split; cbn; rewrite ?Hq2.
    + destruct Hl' as [L1 L2 L3 L4 L5 L6 L7 L8]. split; try done. cbn. by rewrite length_insert, <-Hq1.
    + constructor; [by apply Hh|done].
    + done.
    + intros e. rewrite Hr, elem_of_cons. naive_solver.
    + intros e queue' Hqueue' Hne. destruct (decide (e = b)) as [->|Hneb]; [left; by exists t|].
      rewrite list_lookup_insert_ne in Hqueue' by done. eauto.
    + intros e queue' t' Hqueue' Ht'. destruct (decide (e = b)) as [->|Hneb].
      * rewrite list_lookup_insert_eq in Hqueue' by (by eapply lookup_lt_Some). injection Hqueue' as <-.
        apply heap_push_elem in Ht' as [->|Ht']; eauto.
      * rewrite list_lookup_insert_ne in Hqueue' by done. eauto.
Qed.

Lemma dispatched_progress self exec txn self' :
  dispatched_to self exec txn self' -> exists t, it_txn t = txn /\ progress self [t] self'.
Proof.
  intros [(t & Ht & Hd & _ & Hpos) Hh Hs Hi Hb]. exists t. split; [done|]. subst txn. split; try done.
  - rewrite Hh. cbn. by rewrite app_nil_r.
  - rewrite Hi, filter_cons, filter_nil. case_decide as Hx; unfold is_execution in Hx.
    + destruct (pt_mode (it_txn t)); [done| |done]. unfold wrap32. by rewrite Z.mod_mod.
    + rewrite Z.add_0_r. by destruct (pt_mode (it_txn t)).
  - rewrite filter_cons, filter_nil. case_decide as He; [|done]. intros i t'.
    rewrite list_lookup_singleton_Some. intros [-> <-]. destruct (Hpos He) as [-> ->].
    by rewrite Z.add_0_r.
  - intros Hu. split.
    + rewrite Hi. destruct (pt_mode (it_txn t)); [done|apply wrap32_range|done].
    + apply Forall_singleton. intros He. by destruct (Hpos He) as [_ ->].
Qed.

Lemma get_ready_spec self drain :
  sched_mid None drain self ->
  let r := get_ready_executor (s_coordinator self) in
  match r.1 with
  | Some e => sched_mid (Some e) drain (with_coordinator self r.2)
  | None => r.2 = s_coordinator self /\ c_ready_executors (s_coordinator self) = []
  end /\
  c_blocked_transactions r.2 = c_blocked_transactions (s_coordinator self).
Proof.
  intros [Hl Hp Hh Hr Hw Hwf]. unfold get_ready_executor.
  destruct (c_ready_executors (s_coordinator self)) as [|e ready] eqn:Hready; [done|]. cbn. split; [|done].
  apply NoDup_cons in Hp as [Hnot Hp]. split; cbn; try done.
  - destruct Hl as [L1 L2 L3 L4 L5 L6 L7 L8]. by split.
  - by intros e' [= <-].
  - intros e'. rewrite Hr, elem_of_cons. naive_solver.
Qed.

(** With no executor ready nobody waits on an idle one. *)
Lemma drained_inv self drain :
  sched_mid None drain self -> c_ready_executors (s_coordinator self) = [] -> sched_mid None None self.
Proof.
  intros [Hl Hp Hh Hr Hw Hwf] Hready. split; try done. intros e queue Hq Hne. left.
  assert (is_Some (s_executors self !! e)) as [[t|] Ht].
  { apply lookup_lt_is_Some. apply lookup_lt_Some in Hq. pose proof (li_blocked _ _ Hl) as E.
    rewrite length_fmap in E. lia. }
  - by exists t.
  - apply Hr in Ht. rewrite Hready in Ht. destruct Ht as [[]%not_elem_of_nil|?]. done.
Qed.

Lemma reschedule_blocked_spec fuel : forall self blocker hand queue,
  sched_mid hand (Some blocker) self ->
  (hand = None -> c_ready_executors (s_coordinator self) = []) ->
  c_blocked_transactions (s_coordinator self) !! blocker = Some queue -> (length queue < fuel)%nat ->
  exists self' sent, reschedule_blocked fuel self blocker hand = Ok self' /\ sched_mid None None self' /\
    length (s_executors self') = length (s_executors self) /\ progress self sent self'.
Proof.
  induction fuel as [|fuel IH]; intros self blocker hand queue Hm Hhand Hq Hf; [lia|].
  destruct hand as [exec|]; [|eexists self, []; split; [done|]; split_conj;
    [by eapply drained_inv, Hhand|done|by apply progress_refl]].
  cbn [reschedule_blocked]. unfold next_blocked_transaction. rewrite Hq. res_run. cbv [mbind result_bind].
  destruct queue as [|txn queue]; cbn [head tail].
  - eexists _, []. split; [done|]. split_conj; [|done|by apply progress_refl].
    destruct Hm as [Hl Hp Hh Hr Hw Hwf]. split; cbn.
    + destruct Hl as [L1 L2 L3 L4 L5 L6 L7 L8]. split; try done. cbn. by rewrite length_insert.
    + constructor; [by apply Hh|done].
    + done.
    + intros e. rewrite Hr, elem_of_cons. naive_solver.
    + rewrite list_insert_id by done. intros e q Hq' Hne.
      destruct (Hw e q Hq' Hne) as [?|[= <-]]; [by left|]. rewrite Hq in Hq'. by injection Hq' as <-.
    + by rewrite list_insert_id.
  - set (self1 := with_coordinator self _).
    assert (sched_mid (Some exec) (Some blocker) self1 /\ txn_wf (ti_txn txn)) as [Hm1 Hwt].
    { destruct Hm as [Hl Hp Hh Hr Hw Hwf]. split; [|eapply Hwf; [exact Hq|left]]. split; cbn; try done.
      - destruct Hl as [L1 L2 L3 L4 L5 L6 L7 L8]. split; try done. cbn. by rewrite length_insert.
      - intros e q. destruct (decide (e = blocker)) as [->|]; [by right|]. rewrite list_lookup_insert_ne by done. apply Hw.
      - intros e q t. destruct (decide (e = blocker)) as [->|]; [|rewrite list_lookup_insert_ne by done; apply Hwf].
        rewrite list_lookup_insert_eq by (by eapply lookup_lt_Some). intros [= <-] Ht.
        eapply Hwf; [exact Hq|by right]. }
    assert (c_blocked_transactions (s_coordinator self1) !! blocker = Some queue) as Hq1.
    { cbn. apply list_lookup_insert_eq. by eapply lookup_lt_Some. }
    destruct (schedule_transaction_spec _ _ _ _ Hm1 Hwt) as (r & self2 & Es & Hm2 & Hcase). rewrite Es.
    assert (exists sent, progress self1 sent self2 /\ length (s_executors self2) = length (s_executors self) /\
      (r <> Some blocker -> c_blocked_transactions (s_coordinator self2) !! blocker = Some queue))
      as (sent & Hpg & Hlen & Hq2).
    { destruct r as [b|].
      - destruct Hcase as (He & Hpg & _ & Hother & _). exists []. rewrite He. split_conj; [done..|].
        intros Hne. rewrite <-Hq1. apply Hother. congruence.
      - destruct Hcase as (Hd & Hbq & _). destruct (dispatched_progress _ _ _ _ Hd) as (t & _ & Ht).
        exists [t]. split_conj; [done| |by rewrite Hbq]. destruct Hd as [(t' & _ & _ & -> & _) _ _ _ _].
        by rewrite length_insert. }
    assert (progress self sent self2) as Hpg'.
    { apply (progress_trans self self1 self2 []); [by apply progress_refl|done]. }
    case_decide as Hr.
    { eexists self2, sent. split; [done|]. split_conj; [|done..]. subst r.
      destruct Hcase as (He & _ & (t & Ht & _) & _). destruct Hm2 as [Hl Hp Hh Hrd Hw Hwf].
      split; try done. intros e q Hqe Hne. destruct (Hw e q Hqe Hne) as [?|[= <-]]; [by left|].
      left. exists t. by rewrite He. }
    destruct (get_ready_spec _ _ Hm2) as [Hg Hgb].
    destruct (get_ready_executor (s_coordinator self2)) as [e c]. cbn [fst snd] in Hg, Hgb.
    assert (sched_mid e (Some blocker) (with_coordinator self2 c) /\
      (e = None -> c_ready_executors c = [])) as [Hm3 Hhand3].
    { destruct e as [e|]; [done|]. destruct Hg as [-> Hg]. split; [|done].
      destruct Hm2 as [Hl Hp Hh Hrd Hw Hwf]. by split. }
    destruct (IH (with_coordinator self2 c) blocker e queue Hm3 Hhand3) as (self3 & sent3 & E3 & Hm' & Hlen3 & Hpg3);
      [cbn; rewrite Hgb; by apply Hq2|cbn in Hf; lia|].
    exists self3, (sent ++ sent3). split_conj; [exact E3|done|cbn in Hlen3; congruence|].
    eapply progress_trans; [exact Hpg'|].
    apply (progress_trans _ (with_coordinator self2 c) _ []); [by apply progress_refl|done].
Qed.

(** The invariant is about the locks, the queues, the pool and the executors only. *)
Lemma sched_mid_same hand drain self self' :
  s_executors self' = s_executors self ->
  c_blocked_transactions (s_coordinator self') = c_blocked_transactions (s_coordinator self) ->
  c_ready_executors (s_coordinator self') = c_ready_executors (s_coordinator self) ->
  c_acquired_locks (s_coordinator self') = c_acquired_locks (s_coordinator self) ->
  c_locks (s_coordinator self') = c_locks (s_coordinator self) ->
  sched_mid hand drain self -> sched_mid hand drain self'.
Proof.
  intros E1 E2 E3 E4 E5 [Hl Hp Hh Hr Hw Hwf]. split; rewrite ?E1, ?E2, ?E3; try done.
  destruct Hl as [L1 L2 L3 L4 L5 L6 L7 L8]. unfold lock_of in *.
  split; unfold lock_of; rewrite ?E2, ?E4, ?E5; try done; intros k; rewrite E5; auto.
Qed.

Definition event_wf (event : Event) : Prop :=
  match event with EvTransaction txn => txn_wf txn | _ => True end.

Lemma handle_new_transaction_spec self txn :
  sched_inv self -> txn_wf txn -> coordinator_is_ready (s_coordinator self) = true ->
  exists self' sent, handle_new_transaction self txn = Ok self' /\ sched_inv self' /\
    length (s_executors self') = length (s_executors self) /\ progress self sent self' /\
    ((exists e t, it_txn t = txn /\ sent = [t] /\ s_executors self !! e = Some None /\
        s_executors self' = <[e := Some t]> (s_executors self)) \/
     (sent = [] /\ s_executors self' = s_executors self /\
      (is_transaction_allowed (s_coordinator self) (pt_mode txn) = true ->
       exists e t, s_executors self !! e = Some (Some t) /\
         accounts_conflict (pt_accounts txn) (pt_accounts (it_txn t))))).
Proof.
  intros [Hm Hn] Hwf Hready. unfold handle_new_transaction.
  destruct (is_transaction_allowed _ _); cbn [negb];
    [|exists self, []; split_conj; [done..|by apply progress_refl|by right]].
  destruct (get_ready_spec _ _ Hm) as [Hg Hgb].
  destruct (get_ready_executor (s_coordinator self)) as [[e|] c]; cbn [fst snd] in Hg, Hgb.
  - res_run. set (self1 := with_next_id _ _).
    assert (sched_mid (Some e) None self1) as Hm1 by (by apply (sched_mid_same _ _ (with_coordinator self c))).
    destruct (schedule_transaction_spec self1 e (MkWithId (s_next_id self) txn) None Hm1 Hwf)
      as (r & self2 & E & Hm2 & Hcase).
    cbn [s_next_id with_coordinator]. rewrite E. cbv [mbind result_bind].
    destruct r as [b|].
    + destruct Hcase as (He & Hpg & (t & Ht & Hcf) & _). exists self2, [].
      split_conj; [done|split; [done|by rewrite He]|by rewrite He| |right; split_conj; [done..|intros _; by exists b, t]].
      apply (progress_trans self self1 self2 []); [by apply progress_refl|done].
    + destruct Hcase as (Hd & _). destruct (dispatched_progress _ _ _ _ Hd) as (t & Htt & Ht).
      destruct Hd as [(t' & Ht' & Hd' & He & _) _ _ _ _].
      assert (t' = t) as ->.
      { pose proof (pg_sent _ _ _ Ht) as Hs. rewrite Hd' in Hs. by apply app_inj_2 in Hs as [_ [= ->]]. }
      assert (s_executors self !! e = Some None) as Hfree by (apply (sm_ready _ _ _ Hm1); by right).
      assert (length (s_executors self2) = length (s_executors self)) as Hl by (by rewrite He, length_insert).
      exists self2, [t]. split_conj; [done|split; [done|lia]|done| |left; by exists e, t].
      apply (progress_trans self self1 self2 []); [by apply progress_refl|done].
  - exfalso. destruct Hg as [_ Hg]. unfold coordinator_is_ready in Hready. rewrite Hg in Hready. done.
Qed.

(** What runs on two executors does not conflict. *)
Lemma running_exclusive self e e' t t' :
  sched_inv self -> s_executors self !! e = Some (Some t) -> s_executors self !! e' = Some (Some t') ->
  e <> e' -> ~ accounts_conflict (pt_accounts (it_txn t)) (pt_accounts (it_txn t')).
Proof.
  intros [[Hl _ _ _ _ _] _] Ht Ht' Hne (k & w & w' & Hk & Hk' & Hw).
  assert ((running <$> s_executors self) !! e = Some (pt_accounts (it_txn t))) as H1
    by (by rewrite list_lookup_fmap, Ht).
  assert ((running <$> s_executors self) !! e' = Some (pt_accounts (it_txn t'))) as H2
    by (by rewrite list_lookup_fmap, Ht').
  destruct Hw as [-> | ->]; apply Hne.
  - apply (li_exclusive _ _ Hl k e e' _ _ H1 H2 Hk). apply elem_of_fst. eauto.
  - symmetry. apply (li_exclusive _ _ Hl k e' e _ _ H2 H1 Hk'). apply elem_of_fst. eauto.
Qed.

(** So a transaction that conflicts with one that runs is not dispatched when it arrives. *)
Lemma conflicting_waits self txn self' e t :
  sched_inv self -> txn_wf txn -> coordinator_is_ready (s_coordinator self) = true ->
  handle_new_transaction self txn = Ok self' -> s_executors self !! e = Some (Some t) ->
  accounts_conflict (pt_accounts txn) (pt_accounts (it_txn t)) ->
  progress self [] self' /\ s_executors self' = s_executors self /\ sched_inv self'.
Proof.
  intros Hi Hwf Hready Hh Ht Hcf.
  destruct (handle_new_transaction_spec self txn Hi Hwf Hready) as (self1 & sent & E & Hi1 & _ & Hpg & Hcase).
  rewrite E in Hh. injection Hh as ->. destruct Hcase as [(e' & t' & Htt & -> & Hfree & Hex)|(-> & Hex & _)]; [|done].
  exfalso. assert (e' <> e) as Hne by congruence.
  apply (running_exclusive self' e' e t' t Hi1); [|by rewrite Hex, list_lookup_insert_ne|done|by rewrite Htt].
  rewrite Hex, list_lookup_insert_eq; [done|by eapply lookup_lt_Some].
Qed.

Lemma handle_ready_spec self executor t :
  sched_inv self -> s_executors self !! executor = Some (Some t) ->
  exists self' sent,
    handle_ready_executor (with_sent self (<[executor := None]> (s_executors self)) (s_dispatched self))
      executor = Ok self' /\ sched_inv self' /\
    length (s_executors self') = length (s_executors self) /\ progress self sent self'.
Proof.
  intros [Hm Hn] Ht. destruct Hm as [Hl Hp Hh Hr Hw Hwf].
  destruct (unlock_accounts_inv _ _ executor (running (Some t)) Hl) as (c & E & Hl' & Hb & Hrd & Hmode);
    [by rewrite list_lookup_fmap, Ht|].
  unfold handle_ready_executor. cbn [s_coordinator with_sent]. rewrite E. res_run.
  set (self1 := with_coordinator _ c).
  assert (sched_mid (Some executor) (Some executor) self1) as Hm1.
  { split; cbn; rewrite ?Hb, ?Hrd; try done.
    - by rewrite running_insert.
    - intros e [= <-] Hin. assert (s_executors self !! executor = Some None) as E' by (apply Hr; by left). congruence.
    - intros e. destruct (decide (e = executor)) as [->|].
      + rewrite list_lookup_insert_eq by (by eapply lookup_lt_Some). naive_solver.
      + rewrite list_lookup_insert_ne by done. rewrite Hr. naive_solver.
    - intros e q Hq Hne. destruct (decide (e = executor)) as [->|]; [by right|].
      rewrite list_lookup_insert_ne by done. destruct (Hw e q Hq Hne) as [?|?]; [by left|done]. }
  assert (is_Some (c_blocked_transactions (s_coordinator self1) !! executor)) as [queue Hq].
  { apply lookup_lt_is_Some. cbn. rewrite Hb, (li_blocked _ _ Hl), length_fmap. by eapply lookup_lt_Some. }
  unfold reschedule_blocked_transactions. rewrite Hq. cbn [default].
  destruct (reschedule_blocked_spec (S (length queue)) self1 executor (Some executor) queue Hm1)
    as (self' & sent & E' & Hm' & Hlen & Hpg); [done|done|lia|].
  cbn in Hlen. rewrite length_insert in Hlen.
  exists self', sent. split_conj; [exact E'|split; [done|lia]|done|].
  apply (progress_trans self self1 self' []); [by apply progress_refl|done].
Qed.

(** Every event the loop takes is handled without a panic and keeps the invariant. *)
Lemma handle_event_inv self event :
  sched_inv self -> event_wf event -> event_enabled self event = true ->
  exists self', handle_event self event = Ok self' /\ sched_inv self'.
Proof.
  intros Hi Hwf Hen. destruct event; cbn [handle_event event_enabled] in *.
  - destruct (handle_new_transaction_spec self txn Hi Hwf Hen) as (self' & sent & E & Hi' & _). eauto.
  - destruct (s_executors self !! executor) as [[t|]|] eqn:Ht; try done.
    destruct (handle_ready_spec self executor t Hi Ht) as (self' & _ & E & Hi' & _). eauto.
  - eexists. split; [done|]. destruct (is_primary _) eqn:Hpr; [|done]. destruct Hi as [Hm Hn].
    unfold transition_to_new_slot, prepare_block_as_primary. destruct (is_replicating self);
      (split; [by eapply sched_mid_same, Hm|done]).
  - eexists. split; [done|]. destruct Hi as [Hm Hn]. unfold switch_to_primary_mode.
    split; [|done]. eapply sched_mid_same, Hm; try done; by destruct (c_mode (s_coordinator self)).
  - eexists. split; [done|]. destruct Hi as [Hm Hn]. unfold switch_to_replica_mode.
    split; [|done]. eapply sched_mid_same, Hm; try done; cbn; by destruct (c_mode (s_coordinator self)).
  - eexists. split; [done|]. destruct Hi as [Hm Hn]. unfold apply_replayed_block.
    destruct (is_primary _), written; (split; [by eapply sched_mid_same, Hm|done]).
  - eauto.
Qed.

Lemma sched_inv_new executors ledger_hash snapshot_hash accountsdb_slot superblock_size replicated :
  sched_inv (TransactionScheduler_new executors ledger_hash snapshot_hash accountsdb_slot
    superblock_size replicated).
Proof.
  unfold TransactionScheduler_new. set (count := Z.to_nat _).
  assert (1 <= count <= MAX_SVM_EXECUTORS)%nat as [Hlo Hhi] by (subst count; unfold MAX_SVM_EXECUTORS; lia).
  assert (forall e h, (running <$> replicate count None) !! e = Some h -> h = []) as Hnone.
  { intros e h. rewrite fmap_replicate. by intros [? _]%lookup_replicate. }
  split; cbn; [|by rewrite length_replicate]. split; cbn.
  - split; cbn; rewrite ?length_fmap, ?length_replicate; try done.
    + by rewrite !fmap_replicate.
    + intros e h ->%Hnone. constructor.
    + intros k e He. rewrite Z.bits_0. split; [done|]. intros (h & ->%Hnone & []%not_elem_of_nil).
    + intros k. split; [done|]. intros (e & h & ->%Hnone & []%not_elem_of_nil).
    + intros k e e' h h' ->%Hnone _ []%not_elem_of_nil.
  - rewrite reverse_Permutation. apply NoDup_seq.
  - done.
  - intros e. rewrite lookup_replicate, elem_of_reverse, elem_of_seq. naive_solver lia.
  - intros e q [-> _]%lookup_replicate. done.
  - intros e q t [-> _]%lookup_replicate []%not_elem_of_nil.
Qed.

Lemma sched_steps_inv self events self' :
  sched_steps self events self' -> Forall event_wf events -> sched_inv self -> sched_inv self'.
Proof.
  induction 1 as [self|self events self' event self'' Hs IH [Hen Hh]]; intros Hwf Hi; [done|].
  apply Forall_app in Hwf as [Hwf Hw]. rewrite Forall_singleton in Hw.
  destruct (handle_event_inv self' event (IH Hwf Hi) Hw Hen) as (s & E & Hi'). congruence.
Qed.
End inv.
