(* ===== verification/SchedulerProperties.v ===== *)
(** * What the scheduler guarantees

    Mutual exclusion, no lost wake-ups, the streaming block hash, and how far the order of
    arrival is kept. *)
From S2P Require Import Prelude Constants Crypto Locks LockInv Scheduler SchedulerInv Watchtower.

(** The scheduler of a node that has just started, after some events. *)
Definition reached `{C : Crypto} (executors : Z) (ledger_hash : bytes) (accountsdb_slot : Z)
    (superblock_size : Z) (events : list Event) (self : TransactionScheduler) : Prop :=
  Forall event_wf events /\ exists snapshot_hash replicated,
    sched_steps (TransactionScheduler_new executors ledger_hash snapshot_hash accountsdb_slot superblock_size replicated)
      events self.

Lemma reached_inv `{C : Crypto} executors ledger_hash accountsdb_slot superblock_size events self :
  reached executors ledger_hash accountsdb_slot superblock_size events self -> sched_inv self.
Proof. intros (Hwf & snapshot_hash & replicated & Hs). eapply sched_steps_inv; [exact Hs|done|apply sched_inv_new]. Qed.

(** ** A schedule to evaluate *)

Section run_events.
Context `{C : Crypto}.

(** The loop on a list of events; an event that is not enabled ends the evaluation. *)
Fixpoint run_events (self : TransactionScheduler) (events : list Event) : may_panic TransactionScheduler :=
  match events with
  | [] => Ok self
  | event :: events =>
      if event_enabled self event then self ← handle_event self event; run_events self events else Panic
  end.

Lemma sched_steps_cons self event self1 events self2 :
  sched_step self event self1 -> sched_steps self1 events self2 -> sched_steps self (event :: events) self2.
Proof.
  intros Hs. induction 1 as [self1|self1 events self2 event' self3 Hss IH Hs'].
  - by apply (sched_snoc self [] self); [constructor|].
  - rewrite app_comm_cons. eapply sched_snoc; [by apply IH|done].
Qed.

Lemma sched_steps_app self events self1 events' self2 :
  sched_steps self events self1 -> sched_steps self1 events' self2 -> sched_steps self (events ++ events') self2.
Proof.
  intros Hs. induction 1 as [self1|self1 events' self2 event self3 Hss IH Hs']; [by rewrite app_nil_r|].
  rewrite app_assoc. eapply sched_snoc; [by apply IH|done].
Qed.

Lemma run_events_steps self events self' : run_events self events = Ok self' -> sched_steps self events self'.
Proof.
  revert self. induction events as [|event events IH]; intros self; cbn.
  - intros [= ->]. constructor.
  - destruct (event_enabled self event) eqn:Hen; [|done]. intros (self1 & E & Hrun)%bind_Ok.
    eapply sched_steps_cons; [by split|by apply IH].
Qed.
End run_events.

#[local] Existing Instance toy_crypto.

Definition toy_x : bytes := fill 32 x71.
Definition toy_y : bytes := fill 32 x72.

(** Three client transactions: the first holds x, the second needs x and y, the third only y. *)
Definition toy_processable (signature : byte) (keys : list bytes) : ProcessableTransaction :=
  MkProcessable (fill 64 signature) (( fun key => (key, true)) <$> keys) (ModeExecution false) None.
Definition toy_holder : ProcessableTransaction := toy_processable x51 [toy_x].
Definition toy_blocked : ProcessableTransaction := toy_processable x52 [toy_x; toy_y].
Definition toy_overtaker : ProcessableTransaction := toy_processable x53 [toy_y].

Definition toy_start : TransactionScheduler :=
  TransactionScheduler_new 3 (fill 32 x02) None 12 0 false.

(** All three arrive; then the workers of the first and of the third finish. *)
Definition toy_arrivals : list Event :=
  [EvTransaction toy_holder; EvTransaction toy_blocked; EvTransaction toy_overtaker].
Definition toy_slot_events : list Event := toy_arrivals ++ [EvReady 2; EvReady 1].

Definition toy_state (events : list Event) : TransactionScheduler :=
  match run_events (C := toy_crypto) toy_start events with Ok self => self | _ => toy_start end.

Definition toy_arrived : TransactionScheduler :=
  Eval vm_compute in toy_state (EvPrimary :: toy_arrivals).
Definition toy_primary : TransactionScheduler := Eval vm_compute in toy_state [EvPrimary].

Lemma toy_arrived_reached :
  reached (C := toy_crypto) 3 (fill 32 x02) 12 0 (EvPrimary :: toy_arrivals) toy_arrived.
Proof.
  split; [repeat constructor; eval_done|]. exists None, false. apply run_events_steps. vm_compute. reflexivity.
Qed.

Lemma toy_primary_reached : reached (C := toy_crypto) 3 (fill 32 x02) 12 0 [EvPrimary] toy_primary.
Proof. split; [by repeat constructor|]. exists None, false. apply run_events_steps. vm_compute. reflexivity. Qed.

(** C11: no two transactions that conflict run at once.  In every state the scheduler can reach,
    whatever transactions arrive and in whatever order the workers finish, no account that one
    running transaction writes is touched by another; and whatever event the loop takes next is
    handled without a panic. *)
Theorem scheduler_mutual_exclusion `{C : Crypto} (executors : Z) (ledger_hash : bytes)
    (accountsdb_slot superblock_size : Z) (events : list Event) (self : TransactionScheduler)
    (Hr : reached executors ledger_hash accountsdb_slot superblock_size events self) :
  (forall e e' t t', s_executors self !! e = Some (Some t) -> s_executors self !! e' = Some (Some t') ->
     e <> e' -> ~ accounts_conflict (pt_accounts (it_txn t)) (pt_accounts (it_txn t'))) /\
  (forall event, event_wf event -> event_enabled self event = true -> handle_event self event <> Panic).
Proof.
  pose proof (reached_inv _ _ _ _ _ _ Hr) as Hi. split.
  - intros e e' t t'. by apply running_exclusive.
  - intros event Hwf Hen. destruct (handle_event_inv self event Hi Hwf Hen) as (self' & E & _). by rewrite E.
Qed.

Lemma scheduler_mutual_exclusion_witness :
  exists t t', s_executors toy_arrived !! 2%nat = Some (Some t) /\
    s_executors toy_arrived !! 1%nat = Some (Some t') /\
    ~ accounts_conflict (pt_accounts (it_txn t)) (pt_accounts (it_txn t')).
Proof.
  eexists _, _. split; [reflexivity|]. split; [reflexivity|].
  apply (proj1 (scheduler_mutual_exclusion (C := toy_crypto) 3 (fill 32 x02) 12 0 (EvPrimary :: toy_arrivals)
    toy_arrived toy_arrived_reached) 2%nat 1%nat); [reflexivity|reflexivity|lia].
Defined.

(** A pool as large as the number of executors holds them all. *)
Lemma all_ready (l : list nat) n x :
  NoDup l -> length l = n -> (forall y, y ∈ l -> (y < n)%nat) -> (x < n)%nat -> x ∈ l.
Proof.
  intros Hnd Hlen Hlt Hx. assert (l ≡ₚ seq 0 n) as ->; [|apply elem_of_seq; lia].
  apply submseteq_length_Permutation; [|rewrite length_seq; lia].
  apply NoDup_submseteq; [done|]. intros y Hy. apply elem_of_seq. specialize (Hlt y Hy). lia.
Qed.

(** C12: no transaction waits for nothing.  In every state the scheduler can reach a waiting
    transaction is in the queue of an executor that is running one, whose report will make the
    scheduler try again; so when the scheduler is idle nothing waits.  And when it is ready, a new
    transaction waits only if it conflicts with one that runs. *)
Theorem no_lost_wakeup `{C : Crypto} (executors : Z) (ledger_hash : bytes)
    (accountsdb_slot superblock_size : Z) (events : list Event) (self : TransactionScheduler)
    (Hr : reached executors ledger_hash accountsdb_slot superblock_size events self) :
  (forall e queue t, c_blocked_transactions (s_coordinator self) !! e = Some queue -> t ∈ queue ->
     exists running, s_executors self !! e = Some (Some running)) /\
  (is_idle (s_coordinator self) = true ->
   forall e queue, c_blocked_transactions (s_coordinator self) !! e = Some queue -> queue = []) /\
  (forall txn, txn_wf txn -> coordinator_is_ready (s_coordinator self) = true ->
     is_transaction_allowed (s_coordinator self) (pt_mode txn) = true ->
     (forall e t, s_executors self !! e = Some (Some t) ->
        ~ accounts_conflict (pt_accounts txn) (pt_accounts (it_txn t))) ->
     exists self' t, handle_event self (EvTransaction txn) = Ok self' /\ it_txn t = txn /\
       s_dispatched self' = s_dispatched self ++ [t]).
Proof.
  pose proof (reached_inv _ _ _ _ _ _ Hr) as Hi. split_conj.
  - intros e queue t Hq Ht. destruct Hi as [[_ _ _ _ Hw _] _].
    destruct (Hw e queue Hq) as [?|?]; [by intros ->; apply not_elem_of_nil in Ht|done|done].
  - intros Hidle e queue Hq. destruct queue as [|t queue]; [done|exfalso].
    destruct Hi as [[Hl Hp _ Hrd Hw _] _].
    destruct (Hw e (t :: queue) Hq ltac:(done)) as [(r & He)|?]; [|done].
    unfold is_idle in Hidle. apply bool_decide_eq_true in Hidle.
    rewrite (li_blocked _ _ Hl), length_fmap in Hidle.
    assert (e ∈ c_ready_executors (s_coordinator self)) as Hin.
    { eapply all_ready; [exact Hp|exact Hidle| |by eapply lookup_lt_Some].
      intros x Hx. assert (s_executors self !! x = Some None) as E by (apply Hrd; by left).
      by eapply lookup_lt_Some. }
    assert (s_executors self !! e = Some None) by (apply Hrd; by left). congruence.
  - intros txn Hwf Hready Hal Hfree.
    destruct (handle_new_transaction_spec self txn Hi Hwf Hready) as (self' & sent & E & _ & _ & Hpg & Hcase).
    destruct Hcase as [(e & t & Ht & -> & _)|(_ & _ & (e & t & Ht & Hcf)%(fun H => H Hal))]; [|by destruct (Hfree e t Ht)].
    exists self', t. split_conj; [done..|]. by destruct Hpg.
Qed.

Lemma no_lost_wakeup_witness :
  exists queue t, c_blocked_transactions (s_coordinator toy_arrived) !! 2%nat = Some queue /\ t ∈ queue /\
    exists running, s_executors toy_arrived !! 2%nat = Some (Some running).
Proof.
  eexists _, _. split; [reflexivity|]. split; [left|].
  eapply (proj1 (no_lost_wakeup (C := toy_crypto) 3 (fill 32 x02) 12 0 (EvPrimary :: toy_arrivals)
    toy_arrived toy_arrived_reached) 2%nat); [reflexivity|left].
Defined.

(** The events of a slot under way. *)
Definition within_slot (event : Event) : Prop :=
  match event with EvTransaction _ | EvReady _ => True | _ => False end.

Lemma sched_steps_progress `{C : Crypto} self events self' :
  sched_steps self events self' -> Forall event_wf events -> Forall within_slot events ->
  sched_inv self -> exists sent, progress self sent self' /\
    sched_inv self'.
Proof.
  induction 1 as [self|self events self1 event self2 Hs IH [Hen Hh]]; intros Hwf Hin Hi.
  { exists []. split; [by apply progress_refl|done]. }
  apply Forall_app in Hwf as [Hwf Hw], Hin as [Hin Hv]. rewrite Forall_singleton in Hw. rewrite Forall_singleton in Hv.
  destruct (IH Hwf Hin Hi) as (sent & Hpg & Hi1).
  destruct event; try done; cbn [handle_event event_enabled] in *.
  - destruct (handle_new_transaction_spec self1 txn Hi1 Hw Hen) as (s & sent' & E & Hi2 & _ & Hpg' & _).
    rewrite E in Hh. injection Hh as ->. exists (sent ++ sent'). split; [by eapply progress_trans|done].
  - destruct (s_executors self1 !! executor) as [[t|]|] eqn:Ht; try done.
    destruct (handle_ready_spec self1 executor t Hi1 Ht) as (s & sent' & E & Hi2 & _ & Hpg').
    rewrite E in Hh. injection Hh as ->. exists (sent ++ sent'). split; [by eapply progress_trans|done].
Qed.

Lemma transition_clock `{C : Crypto} self timestamp written :
  is_primary (s_coordinator self) = true ->
  let self' := transition_to_new_slot self timestamp written in
  let block := LatestBlock_new (s_slot self) (hasher_finalize self) timestamp in
  s_hasher self' = [hasher_finalize self] /\ s_slot self' = wrap64 (s_slot self + 1) /\ s_index self' = 0 /\
  s_blocks self' = s_blocks self ++ (if written then [block] else []) /\
  s_coordinator self' = s_coordinator self /\ s_executors self' = s_executors self.
Proof.
  intros Hp. cbv zeta. unfold transition_to_new_slot, prepare_block_as_primary, finalize_block.
  destruct (is_replicating self); cbn; rewrite Hp; destruct written; cbn; rewrite ?app_nil_r; done.
Qed.

Lemma transition_dispatched `{C : Crypto} self timestamp written :
  s_dispatched (transition_to_new_slot self timestamp written) = s_dispatched self.
Proof. unfold transition_to_new_slot, prepare_block_as_primary. by destruct (is_replicating self). Qed.

Lemma transition_inv `{C : Crypto} self timestamp written :
  sched_inv self -> is_primary (s_coordinator self) = true -> sched_inv (transition_to_new_slot self timestamp written).
Proof.
  intros [Hm Hn] Hp. destruct (transition_clock self timestamp written Hp) as (_ & _ & _ & _ & Hc & He).
  split; [|by rewrite He]. by apply (sched_mid_same _ _ self); rewrite ?Hc.
Qed.

(** What one slot of a primary sends, and the block it ends with. *)
Lemma slot_sent `{C : Crypto} (executors : Z) (ledger_hash : bytes)
    (accountsdb_slot superblock_size : Z) (events slot_events : list Event)
    (self0 self2 : TransactionScheduler) (timestamp1 timestamp2 : Z) (written1 : bool)
    (Hr : reached executors ledger_hash accountsdb_slot superblock_size events self0)
    (Hp : is_primary (s_coordinator self0) = true) (Hwf : Forall event_wf slot_events)
    (Hslot : Forall within_slot slot_events)
    (Hrun : sched_steps (transition_to_new_slot self0 timestamp1 written1) slot_events self2)
    (Hp2 : is_primary (s_coordinator self2) = true) :
  exists sent block,
    s_dispatched self2 = s_dispatched self0 ++ sent /\
    last (s_blocks (transition_to_new_slot self2 timestamp2 true)) = Some block /\
    lb_slot block = wrap64 (s_slot self0 + 1) /\
    lb_blockhash block = fold (hasher_finalize self0) (sent ≫= hashed) /\
    forall i t, filter is_execution sent !! i = Some t ->
      it_slot t = lb_slot block /\ it_index t = wrap32 (Z.of_nat i).
Proof.
  pose proof (transition_inv self0 timestamp1 written1 (reached_inv _ _ _ _ _ _ Hr) Hp) as Hinv1.
  destruct (transition_clock self0 timestamp1 written1 Hp) as (Hh1 & Hs1 & Hi1 & Hb1 & Hc1 & He1).
  set (self1 := transition_to_new_slot self0 timestamp1 written1) in *.
  destruct (sched_steps_progress _ _ _ Hrun Hwf Hslot Hinv1) as (sent & [P1 P2 P3 P4 P5 P6 P7] & _).
  destruct (transition_clock self2 timestamp2 true Hp2) as (_ & _ & _ & Hb2 & _ & _).
  exists sent, (LatestBlock_new (s_slot self2) (hasher_finalize self2) timestamp2).
  assert (s_dispatched self1 = s_dispatched self0) as Hd by apply transition_dispatched.
  split_conj.
  - by rewrite P1, Hd.
  - rewrite Hb2. apply last_snoc.
  - cbn. congruence.
  - cbn. unfold hasher_finalize at 1. rewrite P2, Hh1. done.
  - intros i t Hi. destruct (P6 i t Hi) as [E1 E2]. split; [cbn; congruence|]. rewrite Hi1 in *.
    destruct (P7 ltac:(eval_done)) as [_ Hu]. rewrite Forall_forall in Hu.
    apply list_elem_of_lookup_2, list_elem_of_filter in Hi as [He Ht]. specialize (Hu _ Ht He).
    by rewrite (wrap32_small _ Hu) in E2.
Qed.

(** The hash of a block is the fold the watchtower re-derives.  Between two ticks of a primary,
    let transactions arrive and workers finish in any order: the block written at the second tick
    carries the number of the slot and the hash chain, from the hash of the block before, over the
    signatures of what was sent to the executors in between, in the order in which it was sent; and
    the executions among it are numbered from zero in that order. *)
Theorem slot_blockhash_is_fold `{C : Crypto} (executors : Z) (ledger_hash : bytes)
    (accountsdb_slot superblock_size : Z) (events slot_events : list Event)
    (self0 self2 : TransactionScheduler) (timestamp1 timestamp2 : Z) (written1 : bool)
    (Hr : reached executors ledger_hash accountsdb_slot superblock_size events self0)
    (Hp : is_primary (s_coordinator self0) = true) (Hwf : Forall event_wf slot_events)
    (Hslot : Forall within_slot slot_events)
    (Hrun : sched_steps (transition_to_new_slot self0 timestamp1 written1) slot_events self2)
    (Hp2 : is_primary (s_coordinator self2) = true) :
  exists sent block,
    s_dispatched self2 = s_dispatched self0 ++ sent /\
    last (s_blocks (transition_to_new_slot self2 timestamp2 true)) = Some block /\
    lb_slot block = wrap64 (s_slot self0 + 1) /\
    lb_blockhash block = fold (hasher_finalize self0) (sent ≫= hashed) /\
    forall i t, filter is_execution sent !! i = Some t ->
      it_slot t = lb_slot block /\ it_index t = wrap32 (Z.of_nat i).
Proof. by apply (slot_sent executors ledger_hash accountsdb_slot superblock_size events slot_events self0 self2 timestamp1 timestamp2 written1). Qed.

Definition toy_slot_end : TransactionScheduler :=
  Eval vm_compute in
    match run_events (C := toy_crypto) (transition_to_new_slot (C := toy_crypto) toy_primary 1700 true)
            toy_slot_events with
    | Ok self => self | _ => toy_start
    end.

Lemma slot_blockhash_is_fold_witness :
  (pt_signature ∘ it_txn) <$> s_dispatched toy_slot_end = [fill 64 x51; fill 64 x53; fill 64 x52] /\
  exists block, last (s_blocks (transition_to_new_slot (C := toy_crypto) toy_slot_end 1701 true)) = Some block /\
    lb_slot block = 14 /\
    lb_blockhash block = fold (C := toy_crypto) (hasher_finalize (C := toy_crypto) toy_primary)
      [fill 64 x51; fill 64 x53; fill 64 x52].
Proof.
  split; [reflexivity|].
  destruct (slot_blockhash_is_fold (C := toy_crypto) 3 (fill 32 x02) 12 0 [EvPrimary] toy_slot_events
    toy_primary toy_slot_end 1700 1701 true) as (sent & block & Hsent & Hlast & Hslot & Hhash & _).
  - exact toy_primary_reached.
  - reflexivity.
  - repeat constructor; eval_done.
  - repeat constructor.
  - apply run_events_steps. vm_compute. reflexivity.
  - reflexivity.
  - exists block. split; [exact Hlast|]. split; [exact Hslot|]. rewrite Hhash.
    change (s_dispatched toy_primary) with (@nil IndexedTransaction) in Hsent. cbn [app] in Hsent.
    rewrite <-Hsent. reflexivity.
Defined.
