(* ===== verification/Ledger.v ===== *)
(** * The ledger: magicblock-ledger/src/store/api.rs

    Blocks, transactions and their statuses as the ledger stores and serves them.  A [Ledger] is an
    open database with the state the process keeps beside it: the cached entry counts, the lowest
    slot that was cleaned up, the latest block.  A read is a function of the ledger; a call that
    changes it returns its answer with the ledger after it, also when it fails.  The values are
    encoded by bincode and prost, third-party crates: [LedgerCodec] has their functions, and
    [LedgerCodecLaws] what the ledger relies on. *)
From S2P Require Import Prelude Crypto Wire Columns Rocks Locks Scheduler.

(** ** What is stored *)

(** meta.rs *)
Record PerfSample : Type := MkPerfSample {
  num_transactions : Z;
  num_slots : Z;
  sample_period_secs : Z;
  num_non_vote_transactions : Z;
}.

Class LedgerCodec `{S : Solana} : Type := {
  (** [solana_transaction_status::TransactionStatusMeta] and the status in it. *)
  TransactionStatusMeta : Type;
  meta_status : TransactionStatusMeta -> result TransactionError unit;
  (** [solana_storage_proto::generated::TransactionStatusMeta]. *)
  GeneratedMeta : Type;
  generated_from : TransactionStatusMeta -> GeneratedMeta;
  generated_err_is_none : GeneratedMeta -> bool;
  generated_try_into : GeneratedMeta -> option TransactionStatusMeta;
  protobuf_encode : GeneratedMeta -> bytes;
  protobuf_decode : bytes -> option GeneratedMeta;
  (** bincode of the types of the columns. *)
  serialize_timestamp : Z -> bytes;
  deserialize_timestamp : bytes -> option Z;
  serialize_hash : bytes -> bytes;
  deserialize_hash : bytes -> option bytes;
  serialize_signature : bytes -> bytes;
  deserialize_signature : bytes -> option bytes;
  serialize_address_meta : bool -> bytes;
  serialize_memo : string -> bytes;
  deserialize_memo : bytes -> option string;
  serialize_perf_sample : PerfSample -> bytes;
  deserialize_perf_sample : bytes -> option PerfSample;
  (** [VersionedTransaction::into_legacy_transaction] and [verify_and_hash_message().is_ok()]. *)
  into_legacy_transaction : VersionedTransaction -> option VersionedTransaction;
  verify_and_hash_message : VersionedTransaction -> bool;
}.

(** A status read back has the result that was stored; hashes and signatures are stored as they are. *)
Class LedgerCodecLaws `{S : Solana} (L : LedgerCodec) : Prop := {
  protobuf_decode_encode g : protobuf_decode (protobuf_encode g) = Some g;
  generated_roundtrip m : exists m', generated_try_into (generated_from m) = Some m' /\ meta_status m' = meta_status m;
  generated_err m : generated_err_is_none (generated_from m) = is_ok (meta_status m);
  timestamp_roundtrip t : deserialize_timestamp (serialize_timestamp t) = Some t;
  serialize_hash_raw h : length h = 32%nat -> serialize_hash h = h /\ deserialize_hash h = Some h;
  serialize_signature_raw s : length s = 64%nat -> serialize_signature s = s /\ deserialize_signature s = Some s;
}.

(** [solana_transaction_status::VersionedConfirmedBlock]; the hashes are printed. *)
Record VersionedConfirmedBlock `{L : LedgerCodec} : Type := MkConfirmedBlock {
  cb_previous_blockhash : string;
  cb_blockhash : string;
  cb_parent_slot : Z;
  cb_transactions : list (VersionedTransaction * TransactionStatusMeta);
  cb_block_time : option Z;
  cb_block_height : option Z;
}.

(** [Hash::to_string] and [Hash::from_str]. *)
Definition Hash_to_string `{J : Json} (hash : bytes) : string := bs58_encode hash.
Definition Hash_from_str `{J : Json} (s : string) : option bytes := bs58_decode s ≫= try_into_array 32.

(** ** The state *)

Definition DIRTY_COUNT : Z := -1.

Record Ledger `{R : Rocks} : Type := MkLedger {
  l_db : rocks;
  (** [entry_counter] of each column. *)
  l_entry_counter : column -> Z;
  l_transaction_successful_status_count : Z;
  l_transaction_failed_status_count : Z;
  l_lowest_cleanup_slot : Z;
  (** [Rocks::oldest_slot]. *)
  l_oldest_slot : Z;
  (** [LatestBlock]: its value, and what was sent to its subscribers. *)
  l_latest_block : LatestBlock;
  l_block_updates : list LatestBlock;
}.

Section setters.
Context `{R : Rocks}.
Implicit Types (self : Ledger).

Definition with_db self d : Ledger :=
  MkLedger _ d (l_entry_counter self) (l_transaction_successful_status_count self)
    (l_transaction_failed_status_count self) (l_lowest_cleanup_slot self) (l_oldest_slot self)
    (l_latest_block self) (l_block_updates self).
Definition with_counter self (c : column) (n : Z) : Ledger :=
  MkLedger _ (l_db self) (fun c' => if decide (c' = c) then n else l_entry_counter self c')
    (l_transaction_successful_status_count self) (l_transaction_failed_status_count self)
    (l_lowest_cleanup_slot self) (l_oldest_slot self) (l_latest_block self) (l_block_updates self).
Definition with_status_counts self (successful failed : Z) : Ledger :=
  MkLedger _ (l_db self) (l_entry_counter self) successful failed
    (l_lowest_cleanup_slot self) (l_oldest_slot self) (l_latest_block self) (l_block_updates self).
Definition with_cleanup self (lowest oldest : Z) : Ledger :=
  MkLedger _ (l_db self) (l_entry_counter self) (l_transaction_successful_status_count self)
    (l_transaction_failed_status_count self) lowest oldest (l_latest_block self) (l_block_updates self).

(** [LatestBlock::store] *)
Definition LatestBlock_store self (block : LatestBlock) : Ledger :=
  MkLedger _ (l_db self) (l_entry_counter self) (l_transaction_successful_status_count self)
    (l_transaction_failed_status_count self) (l_lowest_cleanup_slot self) (l_oldest_slot self)
    block (l_block_updates self ++ [block]).
End setters.

(** A call on the ledger. *)
Definition ledger_io `{R : Rocks} (A : Type) : Type := Ledger -> result LedgerError A * Ledger.

#[global] Instance ledger_io_ret `{R : Rocks} : MRet ledger_io := fun A a self => (Ok a, self).
#[global] Instance ledger_io_bind `{R : Rocks} : MBind ledger_io := fun A B f m self =>
  match m self with
  | (Ok a, self) => f a self
  | (Err e, self) => (Err e, self)
  | (Panic, self) => (Panic, self)
  end.

Section combinators.
Context `{R : Rocks}.

Definition on_db {A} (m : io A) : ledger_io A := fun self =>
  let '(answer, d) := m (l_db self) in (answer, with_db self d).
Definition reads {A} (f : Ledger -> result LedgerError A) : ledger_io A := fun self => (f self, self).
Definition updates (f : Ledger -> Ledger) : ledger_io unit := fun self => (Ok tt, f self).

Fixpoint for_each {A} (f : A -> ledger_io unit) (l : list A) : ledger_io unit :=
  match l with
  | [] => mret tt
  | x :: l => _ ← f x; for_each f l
  end.
End combinators.

(** ** The cached entry counts (ledger_column.rs) *)

(** The loops of the source end when no other thread moved the counter in between. *)
Definition try_increase_entry_counter (counter by_ : Z) : Z :=
  if decide (counter = DIRTY_COUNT) then counter else wrap_i64 (counter + wrap_i64 by_).

Definition try_decrease_entry_counter (counter by_ : Z) : Z :=
  if decide (counter = DIRTY_COUNT) then counter
  else
    let new := wrap_i64 (counter - wrap_i64 by_) in
    if 0 <=? new then new else DIRTY_COUNT.

Section counters.
Context `{R : Rocks}.
Implicit Types (self : Ledger).

Definition increase_counter (c : column) (by_ : Z) : ledger_io unit :=
  updates (fun self => with_counter self c (try_increase_entry_counter (l_entry_counter self c) by_)).
Definition decrease_counter (c : column) (by_ : Z) : ledger_io unit :=
  updates (fun self => with_counter self c (try_decrease_entry_counter (l_entry_counter self c) by_)).

Definition is_sequential_cf (c : column) : bool :=
  match c with Blocktime | Blockhash | PerfSamples => true | _ => false end.

(** [LastKey - FirstKey + 1] *)
Definition get_column_count_sequential_column c `{Column c} (d : rocks) : result LedgerError Z :=
  last_key ← next_item (column_iter c d IterEnd);
  start_key ← next_item (column_iter c d IterStart);
  match start_key, last_key with
  | Some (start_key, _), Some (last_key, _) => Ok (wrap64 (slot_of c last_key - slot_of c start_key + 1))
  | _, _ => Ok 0
  end.

Definition get_column_count_complex_column (c : column) (d : rocks) : result LedgerError Z := estimate_num_keys d c.

Definition init_column_count_cache c `{Column c} : ledger_io unit :=
  count ← reads (fun self => if is_sequential_cf c then get_column_count_sequential_column c (l_db self)
                             else get_column_count_complex_column c (l_db self));
  updates (fun self => if decide (l_entry_counter self c = DIRTY_COUNT) then with_counter self c (wrap_i64 count)
                       else self).

Definition count_column_using_cache c `{Column c} : ledger_io Z :=
  cached ← reads (fun self => Ok (l_entry_counter self c));
  if decide (cached <> DIRTY_COUNT) then mret cached
  else
    _ ← init_column_count_cache c;
    reads (fun self => Ok (l_entry_counter self c)).
End counters.

Section ledger.
Context `{S : Solana} `{L : !LedgerCodec} `{J : Json} `{R : Rocks}.
Implicit Types (self : Ledger) (slot : Z).

(** ** The iterators the ledger uses *)

Definition blockhash_iter (d : rocks) (mode : IteratorMode Z) : list (result LedgerError (Z * bytes)) :=
  column_iter (H := Blockhash_column) Blockhash d mode.
Definition slot_signatures_iter (d : rocks) (mode : IteratorMode (Z * Z)) : list (result LedgerError (Z * Z * bytes)) :=
  column_iter (H := SlotSignatures_column) SlotSignatures d mode.
Definition slot_signatures_current (d : rocks) (mode : IteratorMode (Z * Z)) : list (result LedgerError (Z * Z * bytes)) :=
  iter_current_index_filtered (H := SlotSignatures_column) SlotSignatures d mode.
Definition address_signatures_current (d : rocks) (mode : IteratorMode (bytes * Z * Z * bytes))
    : list (result LedgerError (bytes * Z * Z * bytes * bytes)) :=
  iter_current_index_filtered (H := AddressSignatures_column) AddressSignatures d mode.
Definition transaction_status_current (d : rocks) (mode : IteratorMode (bytes * Z)) : list (result LedgerError (bytes * Z * bytes)) :=
  iter_current_index_filtered (H := TransactionStatus_column) TransactionStatus d mode.
Definition transaction_current (d : rocks) (mode : IteratorMode (bytes * Z)) : list (result LedgerError (bytes * Z * bytes)) :=
  iter_current_index_filtered (H := Transaction_column) Transaction d mode.

(** ** The lowest cleanup slot *)

(** What the two functions answer while they hold the lock. *)
Definition check_lowest_cleanup_slot self slot : result LedgerError unit :=
  if (0 <? l_lowest_cleanup_slot self) && (slot <=? l_lowest_cleanup_slot self) then Err SlotCleanedUp else Ok tt.

Definition ensure_lowest_cleanup_slot self : result LedgerError Z :=
  expect (checked_add (l_lowest_cleanup_slot self) 1).

Definition get_lowest_slot self : result LedgerError (option Z) :=
  first ← next_item (blockhash_iter (l_db self) IterStart);
  Ok (match first with Some (slot, _) => Some slot | None => None end).

Definition get_lowest_cleanup_slot self : Z := l_lowest_cleanup_slot self.

Definition set_lowest_cleanup_slot slot self : Ledger :=
  let new_lowest_cleanup_slot := Z.max (l_lowest_cleanup_slot self) slot in
  if decide (new_lowest_cleanup_slot = 0) then with_cleanup self new_lowest_cleanup_slot new_lowest_cleanup_slot
  else with_cleanup self new_lowest_cleanup_slot (wrap64 (new_lowest_cleanup_slot + 1)).

Definition initialize_lowest_cleanup_slot : ledger_io unit :=
  lowest ← reads get_lowest_slot;
  let lowest_cleanup_slot :=
    match lowest with
    | Some lowest_slot => if 0 <? lowest_slot then lowest_slot - 1 else 0
    | None => 0
    end in
  updates (set_lowest_cleanup_slot lowest_cleanup_slot).

(** ** Block time and block hash *)

Definition get_block_time self slot : result LedgerError (option Z) :=
  _ ← check_lowest_cleanup_slot self slot;
  read_typed Blocktime deserialize_timestamp Serialize (l_db self) slot.

Definition get_block_hash self slot : result LedgerError (option bytes) :=
  _ ← check_lowest_cleanup_slot self slot;
  read_typed Blockhash deserialize_hash Serialize (l_db self) slot.

Definition count_block_times : ledger_io Z := count_column_using_cache Blocktime.
Definition count_blockhashes : ledger_io Z := count_column_using_cache Blockhash.

Definition get_max_blockhash self : result LedgerError (Z * bytes) :=
  found ← next_item (blockhash_iter (l_db self) IterEnd);
  let '(slot, hash_vec) := default (0, zeros 32) found in
  hash ← expect (try_into_array 32 hash_vec);
  Ok (slot, hash).

(** ** Positions of transactions *)

Definition get_highest_transaction_index_for_slot self slot : result LedgerError (option Z) :=
  found ← next_item (slot_signatures_iter (l_db self) (IterFrom (slot, U32_MAX) Reverse));
  match found with
  | Some ((tx_slot, tx_index), _) => if decide (tx_slot = slot) then Ok (Some tx_index) else Ok None
  | None => Ok None
  end.

Definition get_last_persisted_transaction_position self : result LedgerError (option (Z * Z)) :=
  found ← next_item (slot_signatures_iter (l_db self) IterEnd);
  Ok (match found with Some (position, _) => Some position | None => None end).

Definition get_latest_transaction_position self : result LedgerError (option (Z * Z)) :=
  '(latest_slot, _) ← get_max_blockhash self;
  index ← get_highest_transaction_index_for_slot self latest_slot;
  match index with
  | Some index => Ok (Some (latest_slot, index))
  | None => get_last_persisted_transaction_position self
  end.

(** The loops over the signatures of a slot: they stop at the first item of another slot. *)
Fixpoint signatures_of slot (items : list (result LedgerError (Z * Z * bytes))) : result LedgerError (list bytes) :=
  match items with
  | [] => Ok []
  | item :: items =>
      '((tx_slot, _), tx_signature) ← item;
      if decide (tx_slot <> slot) then Ok []
      else
        signature ← ok_or (try_into_array 64 tx_signature) TryFromSliceError;
        signatures ← signatures_of slot items;
        Ok (signature :: signatures)
  end.

Definition get_transaction_signatures_for_slot self slot : result LedgerError (list bytes) :=
  signatures_of slot (slot_signatures_iter (l_db self) (IterFrom (slot, 0) Forward)).

(** ** Transactions and their statuses *)

Definition read_transaction self (index : bytes * Z) : result LedgerError (option VersionedTransaction) :=
  _ ← ensure_lowest_cleanup_slot self;
  found ← read_bytes Transaction (l_db self) index;
  match found with
  | Some bytes => tx ← ok_or (bincode_deserialize bytes) Serialize; Ok (Some tx)
  | None => Ok None
  end.

Definition get_protobuf_status self (index : bytes * Z) : result LedgerError (option GeneratedMeta) :=
  read_typed TransactionStatus protobuf_decode ProtobufDecodeError (l_db self) index.

Definition read_transaction_status self (index : bytes * Z) : result LedgerError (option TransactionStatusMeta) :=
  _ ← ensure_lowest_cleanup_slot self;
  found ← get_protobuf_status self index;
  Ok (found ≫= generated_try_into).

(** The loop of [get_transaction_status] over the keys of the column. *)
Fixpoint find_status self (signature : bytes) (min_slot : Z) (items : list (result LedgerError (bytes * Z * bytes)))
    : result LedgerError (option (Z * TransactionStatusMeta)) :=
  match items with
  | [] => Ok None
  | item :: items =>
      '((stat_signature, slot), _) ← item;
      if bool_decide (stat_signature = signature) && (slot <=? min_slot) then
        found ← get_protobuf_status self (signature, slot);
        match found with
        | Some status => status ← expect (generated_try_into status); Ok (Some (slot, status))
        | None => Ok None
        end
      else if decide (stat_signature <> signature) then Ok None
      else find_status self signature min_slot items
  end.

Definition get_transaction_status self (signature : bytes) (min_slot : Z)
    : result LedgerError (option (Z * TransactionStatusMeta)) :=
  lowest_available_slot ← ensure_lowest_cleanup_slot self;
  find_status self signature min_slot
    (transaction_status_current (l_db self) (IterFrom (signature, lowest_available_slot) Forward)).

Definition write_address_signatures (slot index : Z) (signature : bytes) (writeable : bool) (addresses : list bytes)
    : ledger_io unit :=
  for_each (fun address =>
    _ ← on_db (put_bytes AddressSignatures (address, slot, index, signature) (serialize_address_meta writeable));
    increase_counter AddressSignatures 1) addresses.

Definition write_transaction_status slot (index : Z) (signature : bytes) (writable_keys readonly_keys : list bytes)
    (status : TransactionStatusMeta) : ledger_io unit :=
  let status := generated_from status in
  _ ← write_address_signatures slot index signature true writable_keys;
  _ ← write_address_signatures slot index signature false readonly_keys;
  _ ← on_db (put_bytes SlotSignatures (slot, index) (serialize_signature signature));
  _ ← increase_counter SlotSignatures 1;
  _ ← on_db (put_bytes TransactionStatus (signature, slot) (protobuf_encode status));
  _ ← increase_counter TransactionStatus 1;
  updates (fun self =>
    if generated_err_is_none status
    then with_status_counts self (try_increase_entry_counter (l_transaction_successful_status_count self) 1)
           (l_transaction_failed_status_count self)
    else with_status_counts self (l_transaction_successful_status_count self)
           (try_increase_entry_counter (l_transaction_failed_status_count self) 1)).

Definition write_transaction (signature : bytes) slot (index : Z) (writable_keys readonly_keys : list bytes)
    (encoded_transaction : bytes) (status : TransactionStatusMeta) : ledger_io unit :=
  _ ← write_transaction_status slot index signature writable_keys readonly_keys status;
  _ ← on_db (put_bytes Transaction (signature, slot) encoded_transaction);
  increase_counter Transaction 1.

(** ** Blocks *)

Definition write_block (block : LatestBlock) : ledger_io unit :=
  _ ← on_db (fun d => write_cf d
        [(Blocktime, column_key Blocktime (Column := Blocktime_column) (lb_slot block), serialize_timestamp (lb_timestamp block));
         (Blockhash, column_key Blockhash (Column := Blockhash_column) (lb_slot block), serialize_hash (lb_blockhash block))]);
  _ ← increase_counter Blocktime 1;
  _ ← increase_counter Blockhash 1;
  updates (fun self => LatestBlock_store self block).

(** A transaction of a block with its status. *)
Definition block_transaction self slot (tx_signature : bytes)
    : result LedgerError (VersionedTransaction * TransactionStatusMeta) :=
  found ← read_transaction self (tx_signature, slot);
  transaction ← ok_or found TransactionNotFound;
  found ← get_protobuf_status self (tx_signature, slot);
  meta ← ok_or found TransactionStatusMetaNotFound;
  meta ← ok_or (generated_try_into meta) TransactionConversionError;
  Ok (transaction, meta).

Definition get_block self slot : result LedgerError (option VersionedConfirmedBlock) :=
  blockhash ← get_block_hash self slot;
  block_time ← get_block_time self slot;
  match block_time, blockhash with
  | Some _, Some blockhash =>
      let previous_slot := saturating_sub slot 1 in
      previous_blockhash ← get_block_hash self previous_slot;
      _ ← check_lowest_cleanup_slot self slot;
      signatures ← signatures_of slot (slot_signatures_current (l_db self) (IterFrom (slot, U32_MAX) Reverse));
      transactions ← mapM (block_transaction self slot) signatures;
      Ok (Some {| cb_previous_blockhash := Hash_to_string (default (zeros 32) previous_blockhash);
                  cb_blockhash := Hash_to_string blockhash;
                  cb_parent_slot := previous_slot;
                  cb_transactions := transactions;
                  cb_block_time := block_time;
                  cb_block_height := Some slot |})
  | _, _ => Ok None
  end.

Definition count_slot_signatures : ledger_io Z := count_column_using_cache SlotSignatures.

(** ** Single transactions *)

Inductive TransactionWithStatusMeta : Type :=
| MissingMetadata (transaction : VersionedTransaction)
| Complete (transaction : VersionedTransaction) (meta : TransactionStatusMeta).

Record ConfirmedTransactionWithStatusMeta : Type := MkConfirmedTransaction {
  ct_slot : Z;
  ct_block_time : option Z;
  ct_tx_with_meta : TransactionWithStatusMeta;
}.

Definition get_confirmed_transaction self (signature : bytes) (highest_confirmed_slot : Z)
    : result LedgerError (option (Z * option VersionedTransaction * option TransactionStatusMeta)) :=
  slot_and_meta ← get_transaction_status self signature highest_confirmed_slot;
  match slot_and_meta with
  | Some (slot, meta) =>
      transaction ← read_transaction self (signature, slot);
      Ok (Some (slot, transaction, Some meta))
  | None =>
      found ← next_item (transaction_current (l_db self) (IterFrom (signature, highest_confirmed_slot) Forward));
      match found with
      | Some ((tx_signature, slot), _) =>
          if (slot <=? highest_confirmed_slot) && bool_decide (tx_signature = signature) then
            transaction ← read_transaction self (tx_signature, slot);
            match transaction with
            | Some tx => Ok (Some (slot, Some tx, None))
            | None => Ok None
            end
          else Ok None
      | None => Ok None
      end
  end.

Definition get_complete_transaction self (signature : bytes) (highest_confirmed_slot : Z)
    : result LedgerError (option ConfirmedTransactionWithStatusMeta) :=
  confirmed ← get_confirmed_transaction self signature highest_confirmed_slot;
  match confirmed with
  | Some (slot, transaction, meta) =>
      block_time ← get_block_time self slot;
      match transaction, meta with
      | Some transaction, Some meta => Ok (Some (MkConfirmedTransaction slot block_time (Complete transaction meta)))
      | Some transaction, None =>
          legacy_tx ← ok_or (into_legacy_transaction transaction) TransactionConversionError;
          Ok (Some (MkConfirmedTransaction slot block_time (MissingMetadata legacy_tx)))
      | None, _ => Ok None
      end
  | None => Ok None
  end.

Definition verify_transaction_signature self (signature : bytes) : result LedgerError (option bool) :=
  found ← get_transaction_status self signature U64_MAX;
  match found with
  | Some (slot, _) =>
      transaction ← read_transaction self (signature, slot);
      Ok (option_map verify_and_hash_message transaction)
  | None => Ok None
  end.

Definition count_transactions : ledger_io Z := count_column_using_cache Transaction.

(** ** Memos, samples and counts *)

Definition read_transaction_memos self (signature : bytes) slot : result LedgerError (option string) :=
  read_typed TransactionMemos deserialize_memo Serialize (l_db self) (signature, slot).

(** The counter moves also when the write failed. *)
Definition write_transaction_memos (signature : bytes) slot (memos : string) : ledger_io unit := fun self =>
  let '(res, self) := on_db (put_bytes TransactionMemos (signature, slot) (serialize_memo memos)) self in
  let '(_, self) := increase_counter TransactionMemos 1 self in
  (res, self).

Definition count_transaction_memos : ledger_io Z := count_column_using_cache TransactionMemos.

Definition perf_samples_iter (d : rocks) (mode : IteratorMode Z) : list (result LedgerError (Z * bytes)) :=
  column_iter (H := PerfSamples_column) PerfSamples d mode.

Definition get_recent_perf_samples self (num : nat) : result LedgerError (list (Z * PerfSample)) :=
  mapM (fun item => '(slot, data) ← item; sample ← ok_or (deserialize_perf_sample data) Serialize; Ok (slot, sample))
    (take num (perf_samples_iter (l_db self) IterEnd)).

Definition write_perf_sample (index : Z) (perf_sample : PerfSample) : ledger_io unit :=
  _ ← on_db (put_bytes PerfSamples index (serialize_perf_sample perf_sample));
  increase_counter PerfSamples 1.

Definition count_perf_samples : ledger_io Z := count_column_using_cache PerfSamples.

Definition read_slot_signature self (index : Z * Z) : result LedgerError (option bytes) :=
  read_typed SlotSignatures deserialize_signature Serialize (l_db self) index.

Definition transaction_status_protobuf (d : rocks) (mode : IteratorMode (bytes * Z))
    : list (result LedgerError (bytes * Z * GeneratedMeta)) :=
  iter_decoded (H := TransactionStatus_column) TransactionStatus protobuf_decode ProtobufDecodeError d mode.

Definition iter_transaction_statuses self (iterator_mode : option (IteratorMode (bytes * Z))) (success : bool)
    : result LedgerError (list (result LedgerError (Z * bytes * GeneratedMeta))) :=
  _ ← ensure_lowest_cleanup_slot self;
  Ok (omap (fun res => match res with
                   | Ok ((signature, slot), status) =>
                       if Bool.eqb (generated_err_is_none status) success then Some (Ok (slot, signature, status)) else None
                   | Err err => Some (Err err)
                   | Panic => Some Panic
                   end) (transaction_status_protobuf (l_db self) (default IterStart iterator_mode))).

Definition count_transaction_status : ledger_io Z := count_column_using_cache TransactionStatus.

Definition count_outcome_transaction_status self (success : bool) : result LedgerError Z :=
  statuses ← iter_transaction_statuses self (Some IterStart) success;
  found ← mapM id statuses;
  Ok (Z.of_nat (length found)).

Definition count_transaction_successful_status : ledger_io Z :=
  counter ← reads (fun self => Ok (l_entry_counter self TransactionStatus));
  if decide (counter = DIRTY_COUNT) then
    count ← reads (fun self => count_outcome_transaction_status self true);
    _ ← updates (fun self => with_status_counts self count (l_transaction_failed_status_count self));
    mret count
  else reads (fun self => Ok (l_transaction_successful_status_count self)).

Definition count_transaction_failed_status : ledger_io Z :=
  counter ← reads (fun self => Ok (l_transaction_failed_status_count self));
  if decide (counter = DIRTY_COUNT) then
    count ← reads (fun self => count_outcome_transaction_status self false);
    _ ← updates (fun self => with_status_counts self (l_transaction_successful_status_count self) count);
    mret count
  else reads (fun self => Ok (l_transaction_failed_status_count self)).

(** ** Signatures of an address *)

Record ConfirmedTransactionStatusWithSignature : Type := MkStatusInfo {
  si_slot : Z;
  si_signature : bytes;
  si_block_time : option Z;
  si_err : option TransactionError;
  si_memo : option string;
}.

Record SignatureInfosForAddress : Type := MkSignatureInfos {
  si_infos : list ConfirmedTransactionStatusWithSignature;
  si_found_upper : bool;
  si_found_lower : bool;
}.

(** Whether a limit was found, whether its slot counts, where to start below it, its slot. *)
Definition determine_upper self (highest_slot : Z) (upper_limit_signature : option bytes)
    : result LedgerError (bool * bool * Z * Z) :=
  match upper_limit_signature with
  | Some sig =>
      res ← get_transaction_status self sig U64_MAX;
      match res with
      | Some (slot, _) =>
          let start := saturating_sub slot 1 in
          let include_slot := slot <=? highest_slot in
          let start := Z.min start highest_slot in
          Ok (true, include_slot, start, slot)
      | None => Ok (false, false, highest_slot, 0)
      end
  | None => Ok (false, false, highest_slot, 0)
  end.

Definition determine_lower self (highest_slot : Z) (lower_limit_signature : option bytes)
    : result LedgerError (bool * bool * Z) :=
  match lower_limit_signature with
  | Some sig =>
      res ← get_transaction_status self sig U64_MAX;
      match res with
      | Some (slot, _) => Ok (true, slot <=? highest_slot, slot)
      | None => Ok (false, false, 0)
      end
  | None => Ok (false, false, 0)
  end.

(** The index of a signature in its slot. *)
Fixpoint find_index slot (signature : bytes) (items : list (result LedgerError (Z * Z * bytes)))
    : result LedgerError (option Z) :=
  match items with
  | [] => Ok None
  | item :: items =>
      '((tx_slot, tx_idx), tx_signature) ← item;
      if decide (tx_slot <> slot) then Ok None
      else
        tx_signature ← ok_or (try_into_array 64 tx_signature) TryFromSliceError;
        if decide (tx_signature = signature) then Ok (Some tx_idx) else find_index slot signature items
  end.

Definition transaction_index_in_slot self slot (signature : bytes) : result LedgerError (option Z) :=
  find_index slot signature (slot_signatures_current (l_db self) (IterFrom (slot, U32_MAX) Reverse)).

(** The three loops that collect the matching signatures, newest first. *)
Fixpoint match_upper (pubkey : bytes) (upper_slot : Z) (upper_signature : bytes) (limit : nat)
    (matching : list (Z * bytes)) (items : list (result LedgerError (bytes * Z * Z * bytes * bytes)))
    : result LedgerError (list (Z * bytes)) :=
  match items with
  | [] => Ok matching
  | item :: items =>
      '((address, tx_slot, _, signature), _) ← item;
      if decide (signature = upper_signature) then match_upper pubkey upper_slot upper_signature limit matching items
      else if decide (limit <= length matching)%nat then Ok matching
      else if decide (address <> pubkey) then Ok matching
      else if decide (tx_slot <> upper_slot) then Ok matching
      else match_upper pubkey upper_slot upper_signature limit (matching ++ [(tx_slot, signature)]) items
  end.

Fixpoint match_between (pubkey : bytes) (newest_slot lower_slot lowest_available_slot : Z) (limit : nat)
    (matching : list (Z * bytes)) (items : list (result LedgerError (bytes * Z * Z * bytes * bytes)))
    : result LedgerError (list (Z * bytes)) :=
  match items with
  | [] => Ok matching
  | item :: items =>
      '((address, tx_slot, _, signature), _) ← item;
      if tx_slot <? lowest_available_slot then Ok matching
      else if decide (limit <= length matching)%nat then Ok matching
      else if decide (address <> pubkey) then Ok matching
      else if tx_slot <=? lower_slot then Ok matching
      else if newest_slot <? tx_slot
           then match_between pubkey newest_slot lower_slot lowest_available_slot limit matching items
      else match_between pubkey newest_slot lower_slot lowest_available_slot limit (matching ++ [(tx_slot, signature)]) items
  end.

Fixpoint match_lower (pubkey : bytes) (lower_slot index lowest_available_slot : Z) (limit : nat)
    (matching : list (Z * bytes)) (items : list (result LedgerError (bytes * Z * Z * bytes * bytes)))
    : result LedgerError (list (Z * bytes)) :=
  match items with
  | [] => Ok matching
  | item :: items =>
      '((address, tx_slot, tx_idx, signature), _) ← item;
      if tx_slot <? lowest_available_slot then Ok matching
      else if decide (limit <= length matching)%nat then Ok matching
      else if tx_slot <? lower_slot then Ok matching
      else if decide (address <> pubkey) then Ok matching
      else if tx_idx <=? index then Ok matching
      else match_lower pubkey lower_slot index lowest_available_slot limit (matching ++ [(tx_slot, signature)]) items
  end.

(** Step 3: all matching (slot, signature) pairs. *)
Definition matching_signatures self (pubkey : bytes) (upper_limit_signature lower_limit_signature : option bytes)
    (limit : nat) (upper : bool * bool * Z * Z) (lower : bool * bool * Z) : result LedgerError (list (Z * bytes)) :=
  let '(found_upper, include_upper, newest_slot, upper_slot) := upper in
  let '(found_lower, include_lower, lower_slot) := lower in
  lowest_available_slot ← ensure_lowest_cleanup_slot self;
  matching ←
    (if found_upper && include_upper && (lowest_available_slot <=? upper_slot) then
       upper_signature ← expect upper_limit_signature;
       transaction_index ← transaction_index_in_slot self upper_slot upper_signature;
       match transaction_index with
       | Some index =>
           match_upper pubkey upper_slot upper_signature limit []
             (address_signatures_current (l_db self) (IterFrom (pubkey, upper_slot, index, upper_signature) Reverse))
       | None => Ok []
       end
     else Ok []);
  matching ←
    (if lower_slot <? newest_slot then
       match_between pubkey newest_slot lower_slot lowest_available_slot limit matching
         (address_signatures_current (l_db self) (IterFrom (pubkey, newest_slot, U32_MAX, SIGNATURE_DEFAULT) Reverse))
     else Ok matching);
  if found_lower && include_lower && (lowest_available_slot <=? lower_slot) then
    lower_signature ← expect lower_limit_signature;
    transaction_index ← transaction_index_in_slot self lower_slot lower_signature;
    match transaction_index with
    | Some index =>
        match_lower pubkey lower_slot index lowest_available_slot limit matching
          (address_signatures_current (l_db self) (IterFrom (pubkey, lower_slot, U32_MAX, SIGNATURE_DEFAULT) Reverse))
    | None => Ok matching
    end
  else Ok matching.

(** Step 4: the block time of each slot, read once. *)
Fixpoint resolve_blocktimes self (blocktimes : gmap Z Z) (matching : list (Z * bytes)) : result LedgerError (gmap Z Z) :=
  match matching with
  | [] => Ok blocktimes
  | (slot, _) :: matching =>
      if bool_decide (is_Some (blocktimes !! slot)) then resolve_blocktimes self blocktimes matching
      else
        found ← get_block_time self slot;
        resolve_blocktimes self (match found with Some blocktime => <[slot := blocktime]> blocktimes | None => blocktimes end)
          matching
  end.

(** Step 5 *)
Definition status_info self (blocktimes : gmap Z Z) (entry : Z * bytes)
    : result LedgerError ConfirmedTransactionStatusWithSignature :=
  let '(slot, signature) := entry in
  found ← read_transaction_status self (signature, slot);
  let status := match found with
                | Some meta => match meta_status meta with Err error => Some error | _ => None end
                | None => None
                end in
  memo ← read_transaction_memos self signature slot;
  Ok (MkStatusInfo slot signature (blocktimes !! slot) status memo).

Definition get_confirmed_signatures_for_address self (pubkey : bytes) (highest_slot : Z)
    (upper_limit_signature lower_limit_signature : option bytes) (limit : nat) : result LedgerError SignatureInfosForAddress :=
  upper ← determine_upper self highest_slot upper_limit_signature;
  lower ← determine_lower self highest_slot lower_limit_signature;
  matching ← matching_signatures self pubkey upper_limit_signature lower_limit_signature limit upper lower;
  blocktimes ← resolve_blocktimes self ∅ matching;
  infos ← mapM (status_info self blocktimes) matching;
  Ok (MkSignatureInfos infos upper.1.1.1 lower.1.1).

Definition count_address_signatures : ledger_io Z := count_column_using_cache AddressSignatures.

(** ** Opening, flushing, deleting *)

Definition LatestBlockInner_default : LatestBlock := MkLatest 0 (zeros 32) 0 0.

(** [do_open] on a database that could be opened. *)
Definition Ledger_open (d : rocks) : result LedgerError Ledger :=
  let ledger := MkLedger _ d (fun _ => DIRTY_COUNT) DIRTY_COUNT DIRTY_COUNT 0 0 LatestBlockInner_default [] in
  '(slot, blockhash) ← get_max_blockhash ledger;
  time ← get_block_time ledger slot;
  let block := LatestBlock_new slot blockhash (default 0 time) in
  let ledger := LatestBlock_store ledger block in
  let '(initialized, ledger) := initialize_lowest_cleanup_slot ledger in
  _ ← initialized;
  Ok ledger.

Definition storage_size self : result LedgerError Z := dir_size (l_db self).

Definition ledger_delete_range_cf c `{Column c} (from upto : Index c) : ledger_io unit := on_db (delete_range c from upto).

(** All columns but those of the receipts. *)
Definition ledger_flush : ledger_io unit :=
  on_db (fun d => flush_cfs d [TransactionStatus; AddressSignatures; SlotSignatures; Blocktime; Blockhash; Transaction;
                               TransactionMemos; PerfSamples]).

Definition latest_blockhash self : bytes := lb_blockhash (l_latest_block self).
End ledger.
