(* ===== verification/LedgerInv.v ===== *)
(** * What ledger calls do to the columns

    The entries a call on the ledger may change, whether or not it succeeds; what a complete write of
    a transaction or of a block leaves in the columns; what an iterator over the signatures of a
    slot lists. *)
From S2P Require Import Prelude Crypto Wire Columns Rocks Locks Scheduler Ledger.

(** ** Calls that change only some entries *)

Section frames.
Context `{R : Rocks} `{!RocksLaws R}.
Implicit Types (self : Ledger).

(** Whatever [m] answers, the ledger after it is related to the one before. *)
Definition ensures {A} (P : Ledger -> Ledger -> Prop) (m : ledger_io A) : Prop :=
  forall self r self', m self = (r, self') -> P self self'.

Lemma ensures_ret {A} P `{!Reflexive P} (a : A) : ensures P (mret a).
Proof. by intros self r self' [= <- <-]. Qed.

Lemma ensures_reads {A} P `{!Reflexive P} (f : Ledger -> result LedgerError A) : ensures P (reads f).
Proof. by intros self r self' [= <- <-]. Qed.

Lemma ensures_updates (P : Ledger -> Ledger -> Prop) f : (forall self, P self (f self)) -> ensures P (updates f).
Proof. by intros Hf self r self' [= <- <-]. Qed.

Lemma ensures_bind {A B} P `{!Transitive P} (m : ledger_io A) (k : A -> ledger_io B) :
  ensures P m -> (forall a, ensures P (k a)) -> ensures P (m ≫= k).
Proof.
  intros Hm Hk self r self'. unfold mbind, ledger_io_bind.
  destruct (m self) as [[a|e|] self1] eqn:E; [|intros [= <- <-]; by eapply Hm..].
  intros Hr. etrans; [by eapply Hm|by eapply Hk].
Qed.

Lemma ensures_for_each {A} P `{!Reflexive P} `{!Transitive P} (f : A -> ledger_io unit) l :
  (forall x, x ∈ l -> ensures P (f x)) -> ensures P (for_each f l).
Proof.
  induction l as [|x l IH]; intros Hf; cbn [for_each]; [by apply ensures_ret|].
  apply ensures_bind; [done|apply Hf; by left|intros _]. apply IH. intros y Hy. apply Hf. by right.
Qed.

Lemma ensures_weaken {A} (P Q : Ledger -> Ledger -> Prop) (m : ledger_io A) :
  (forall self self', P self self' -> Q self self') -> ensures P m -> ensures Q m.
Proof. intros HPQ Hm self r self' H. by eapply HPQ, Hm. Qed.

Lemma ensures_if {A} P (b : bool) (m m' : ledger_io A) : ensures P m -> ensures P m' -> ensures P (if b then m else m').
Proof. by destruct b. Qed.

(** What was cleaned up is the same. *)
Definition same_cleanup self self' : Prop :=
  l_lowest_cleanup_slot self' = l_lowest_cleanup_slot self /\ l_oldest_slot self' = l_oldest_slot self.

(** Every entry is as before, or [P] holds of its new value. *)
Definition alters (P : column -> bytes -> option bytes -> Prop) self self' : Prop :=
  forall c k, holds (l_db self') c k = holds (l_db self) c k \/ P c k (holds (l_db self') c k).

Definition changes (P : column -> bytes -> option bytes -> Prop) self self' : Prop :=
  alters P self self' /\ same_cleanup self self'.

#[global] Instance same_cleanup_refl : Reflexive same_cleanup.
Proof. by intros self. Qed.
#[global] Instance same_cleanup_trans : Transitive same_cleanup.
Proof. intros x y z [? ?] [? ?]. unfold same_cleanup. by split_conj; etrans. Qed.
#[global] Instance changes_refl P : Reflexive (changes P).
Proof. intros self. split; [by left|done]. Qed.
#[global] Instance changes_trans P : Transitive (changes P).
Proof.
  intros x y z [Hx Px] [Hy Py]. split; [|by etrans]. intros c k.
  destruct (Hy c k) as [->|]; [apply Hx|by right].
Qed.

Lemma changes_weaken (P Q : column -> bytes -> option bytes -> Prop) self self' :
  (forall c k v, P c k v -> Q c k v) -> changes P self self' -> changes Q self self'.
Proof. intros HPQ [H Hc]. split; [|done]. intros c k. destruct (H c k); auto. Qed.

Lemma alters_frame P self self' c k : alters P self self' -> (forall v, ~ P c k v) ->
  holds (l_db self') c k = holds (l_db self) c k.
Proof. intros H Hn. by destruct (H c k) as [|?%Hn]. Qed.

Lemma changes_same P self self' : l_db self' = l_db self -> same_cleanup self self' -> changes P self self'.
Proof. intros E Hc. split; [|done]. intros c k. rewrite E. by left. Qed.

Lemma changes_counter P c n self : changes P self (with_counter self c n).
Proof. by apply changes_same. Qed.

Lemma ensures_increase P c n : ensures (changes P) (increase_counter c n).
Proof. apply ensures_updates. intros self. apply changes_counter. Qed.

Lemma ensures_decrease P c n : ensures (changes P) (decrease_counter c n).
Proof. apply ensures_updates. intros self. apply changes_counter. Qed.

Lemma put_changes c `{Column c} P (i : Index c) v :
  P c (column_key c i) (Some v) -> ensures (changes P) (on_db (put_bytes c i v)).
Proof.
  intros HP self r self'. unfold on_db, put_bytes.
  destruct (put_cf (l_db self) c (column_key c i) v) as [r1 d] eqn:E. intros [= <- <-].
  split; [|done]. intros c' k'. cbn [with_db l_db]. destruct r1 as [u|e|].
  - rewrite (put_cf_overlay _ _ _ _ _ _ E). unfold overlay. case_decide as Hk; [|by left].
    pose proof (f_equal fst Hk) as Hc. apply (f_equal snd) in Hk. cbn in Hc, Hk. subst. by right.
  - rewrite (put_cf_failed _ _ _ _ _ _ E). by left.
  - by apply put_cf_total in E.
Qed.

(** ** Calls that succeed *)

Lemma ledger_bind_Ok {A B} (m : ledger_io A) (k : A -> ledger_io B) self b self' :
  (m ≫= k) self = (Ok b, self') <-> exists a self1, m self = (Ok a, self1) /\ k a self1 = (Ok b, self').
Proof. unfold mbind, ledger_io_bind. destruct (m self) as [[a|e|] self1]; naive_solver. Qed.

Lemma put_Ok c `{Column c} (i : Index c) v self u self' :
  on_db (put_bytes c i v) self = (Ok u, self') ->
  (forall c' k, holds (l_db self') c' k = overlay (holds (l_db self)) c (column_key c i) v c' k) /\
  same_cleanup self self'.
Proof.
  unfold on_db, put_bytes. destruct (put_cf (l_db self) c (column_key c i) v) as [r1 d] eqn:E. intros [= -> <-].
  split; [|done]. intros c' k. apply (put_cf_overlay _ _ _ _ _ _ E).
Qed.
End frames.

(** Splits the conclusion that a sequence of calls [ensures] something. *)
Ltac ensures_step :=
  first [ apply ensures_bind; [apply _| |intros ?]
        | apply ensures_for_each; [apply _..|intros ? ?]
        | apply put_changes
        | apply ensures_increase | apply ensures_decrease
        | apply ensures_ret; apply _ | apply ensures_reads; apply _ ].

(** ** Writing a transaction *)

Section writes.
Context `{S : Solana} `{L : !LedgerCodec} `{!LedgerCodecLaws L} `{R : Rocks} `{!RocksLaws R}.
Implicit Types (self : Ledger) (slot : Z).

(** The entries a write of a transaction alters. *)
Definition of_transaction (signature : bytes) slot (index : Z) (c : column) (k : bytes) (v : option bytes) : Prop :=
  c = AddressSignatures \/
  c = SlotSignatures /\ k = SlotSignatures_key (slot, index) /\ v = Some (serialize_signature signature) \/
  c = TransactionStatus /\ k = TransactionStatus_key (signature, slot) \/
  c = Transaction /\ k = TransactionStatus_key (signature, slot).

Lemma write_transaction_changes signature slot index writable readonly encoded status :
  ensures (changes (of_transaction signature slot index))
    (write_transaction signature slot index writable readonly encoded status).
Proof.
  unfold write_transaction, write_transaction_status, write_address_signatures.
  repeat ensures_step; try (unfold of_transaction; naive_solver).
  apply ensures_updates. intros self. by apply changes_same; destruct (generated_err_is_none _).
Qed.

Lemma increase_counter_Ok c n self u self' :
  increase_counter c n self = (Ok u, self') -> l_db self' = l_db self.
Proof. by intros [= _ <-]. Qed.

(** What a complete write of a transaction leaves. *)
Lemma write_transaction_Ok signature slot index writable readonly encoded status self u self' :
  write_transaction signature slot index writable readonly encoded status self = (Ok u, self') ->
  holds (l_db self') SlotSignatures (SlotSignatures_key (slot, index)) = Some (serialize_signature signature) /\
  holds (l_db self') TransactionStatus (TransactionStatus_key (signature, slot))
    = Some (protobuf_encode (generated_from status)) /\
  holds (l_db self') Transaction (TransactionStatus_key (signature, slot)) = Some encoded.
Proof.
  unfold write_transaction. intros ([] & self1 & Hst & H)%ledger_bind_Ok.
  apply ledger_bind_Ok in H as (u2 & self2 & [H2 _]%put_Ok & H%increase_counter_Ok). rewrite H.
  unfold write_transaction_status in Hst. cbv zeta in Hst.
  apply ledger_bind_Ok in Hst as (_ & selfa & _ & Hst).
  apply ledger_bind_Ok in Hst as (_ & selfb & _ & Hst).
  apply ledger_bind_Ok in Hst as (u3 & selfc & [Hc _]%put_Ok & Hst).
  apply ledger_bind_Ok in Hst as (u4 & selfd & Hd%increase_counter_Ok & Hst).
  apply ledger_bind_Ok in Hst as (u5 & selfe & [He _]%put_Ok & Hst).
  apply ledger_bind_Ok in Hst as (u6 & selff & Hf%increase_counter_Ok & Hst).
  assert (l_db self1 = l_db selff) as E by (injection Hst as <-; by destruct (generated_err_is_none _)).
  split_conj; rewrite H2; [rewrite overlay_column by done..|by rewrite overlay_hit];
    rewrite E, Hf, He; [rewrite overlay_column by done|by rewrite overlay_hit].
  rewrite Hd, Hc. apply overlay_hit.
Qed.

(** The entries a write of a block alters: none, or both. *)
Definition of_block slot (c : column) (k : bytes) (_ : option bytes) : Prop :=
  (c = Blocktime \/ c = Blockhash) /\ k = SlotColumn_key slot.

Lemma write_block_Ok block self u self' : write_block block self = (Ok u, self') ->
  holds (l_db self') Blocktime (SlotColumn_key (lb_slot block)) = Some (serialize_timestamp (lb_timestamp block)) /\
  holds (l_db self') Blockhash (SlotColumn_key (lb_slot block)) = Some (serialize_hash (lb_blockhash block)) /\
  l_latest_block self' = block /\ l_block_updates self' = l_block_updates self ++ [block] /\
  l_lowest_cleanup_slot self' = l_lowest_cleanup_slot self /\ l_oldest_slot self' = l_oldest_slot self.
Proof.
  unfold write_block. intros (u1 & self1 & H1 & H)%ledger_bind_Ok.
  apply ledger_bind_Ok in H as (u2 & self2 & [= _ <-] & H). apply ledger_bind_Ok in H as (u3 & self3 & [= _ <-] & [= _ <-]).
  unfold on_db in H1. destruct (write_cf _ _) as [r d] eqn:E. injection H1 as -> <-. destruct u1.
  pose proof (fun c k => write_cf_holds _ _ _ c k E) as Hh. cbn [foldl column_key Blocktime_column Blockhash_column] in Hh.
  cbn. split_conj; try done.
  - by rewrite Hh, decide_False, decide_True by congruence.
  - by rewrite Hh, decide_True.
Qed.

Lemma write_block_changes block : ensures (changes (of_block (lb_slot block))) (write_block block).
Proof.
  unfold write_block. apply ensures_bind; [apply _| |intros ?]; cycle 1.
  { repeat ensures_step. apply ensures_updates. intros self. by apply changes_same. }
  intros self r self'. unfold on_db. destruct (write_cf _ _) as [[[]|e|] d] eqn:E; intros [= <- <-]; (split; [|done]);
    intros c k; cbn [with_db l_db].
  - rewrite (write_cf_holds _ _ _ _ _ E). cbn [foldl column_key Blocktime_column Blockhash_column].
    assert (forall c', (c, k) = (c', SlotColumn_key (lb_slot block)) -> c = c' /\ k = SlotColumn_key (lb_slot block)) as Hk.
    { intros c' H. split; [by apply (f_equal fst) in H|by apply (f_equal snd) in H]. }
    unfold of_block. destruct (decide ((c, k) = (Blockhash, _))) as [H|_]; [apply Hk in H as []; auto|].
    destruct (decide ((c, k) = (Blocktime, _))) as [H|_]; [apply Hk in H as []; auto|by left].
  - rewrite (write_cf_failed _ _ _ _ E). by left.
  - by apply write_cf_total in E.
Qed.

(** A block that could not be written left nothing. *)
Lemma write_block_Err block self e self' : write_block block self = (Err e, self') ->
  holds (l_db self') = holds (l_db self) /\ same_cleanup self self'.
Proof.
  unfold write_block, mbind, ledger_io_bind, on_db. destruct (write_cf _ _) as [[[]|e1|] d] eqn:E; [done| |done].
  intros [= <- <-]. split; [by apply write_cf_failed in E|done].
Qed.
End writes.

(** ** The signatures of a slot *)

Section listing.
Context `{R : Rocks} `{!RocksLaws R}.
Implicit Types (d : rocks) (slot i : Z).

(** The signature stored at a position. *)
Definition position d slot i : option bytes := holds d SlotSignatures (SlotSignatures_key (slot, i)).

(** Every stored signature has its length. *)
Definition signatures_sized d : Prop := forall k v, holds d SlotSignatures k = Some v -> length v = 64%nat.

(** [entries] are the positions of a slot and their signatures, in an order of the positions. *)
Definition lists d slot (before : Z -> Z -> Prop) (entries : list (Z * bytes)) : Prop :=
  StronglySorted (fun a b : Z * bytes => before a.1 b.1) entries /\
  forall i s, (i, s) ∈ entries <-> is_u32 i /\ position d slot i = Some s.

(** Once the loop has left the slot it has seen all of it. *)
Lemma signatures_of_filter slot (l : list (Z * Z * bytes)) :
  StronglySorted (fun x y => x.1.1 <> slot -> y.1.1 <> slot) l -> Forall (fun x => length x.2 = 64%nat) l ->
  signatures_of slot (map Ok l) = Ok (snd <$> filter (fun x : Z * Z * bytes => x.1.1 = slot) l).
Proof.
  induction 1 as [|[[s i] v] l Hs IH Hx]; intros Hl; [done|]. apply Forall_cons in Hl as [Hv Hl].
  cbn [map signatures_of]. rewrite bind_of_ok. rewrite filter_cons. cbn [fst snd] in *. destruct (decide (s = slot)) as [->|Hne].
  - rewrite decide_False by auto. rewrite try_into_array_in by done. cbn [ok_or]. by rewrite bind_of_ok, IH.
  - rewrite decide_True by done. rewrite filter_none; [done|].
    eapply Forall_impl; [exact Hx|]. cbn. auto.
Qed.

Lemma SlotSignatures_try_current_total k : SlotSignatures_try_current_index k <> Panic.
Proof.
  unfold SlotSignatures_try_current_index, check_len, SLOT_SIGNATURES_INDEX_LEN.
  destruct (bool_decide (length k = 12%nat)) eqn:Hl; [|done]. apply bool_decide_eq_true in Hl. cbn [ensure].
  unfold read_be. rewrite bind_of_ok, index_range_in by lia. rewrite !bind_of_ok, index_range_in by lia. done.
Qed.

Definition current_entry (kv : bytes * bytes) : option (Z * Z * bytes) :=
  match SlotSignatures_try_current_index kv.1 with Ok i => Some (i, kv.2) | _ => None end.

Lemma slot_signatures_current_items d mode items :
  iterator_cf d SlotSignatures (raw_mode (c := SlotSignatures) mode) = map Ok items ->
  slot_signatures_current d mode = map Ok (omap current_entry items).
Proof.
  intros Hi. unfold current_entry, slot_signatures_current, iter_current_index_filtered. rewrite Hi. clear Hi.
  induction items as [|[k v] items IH]; [done|]. cbn [map omap list_omap fst snd].
  change (try_current_index SlotSignatures k) with (SlotSignatures_try_current_index k).
  destruct (SlotSignatures_try_current_index k) as [i|e|] eqn:E; [|done|by apply SlotSignatures_try_current_total in E].
  cbn [map]. by f_equal.
Qed.

Lemma current_entry_Some kv s i v :
  current_entry kv = Some (s, i, v) <-> is_u64 s /\ is_u32 i /\ kv = (SlotSignatures_key (s, i), v).
Proof.
  destruct kv as [k w]. unfold current_entry. cbn [fst snd]. split.
  - destruct (SlotSignatures_try_current_index k) as [[s' i']|e|] eqn:E; [|done..]. intros [= <- <- <-].
    by apply SlotSignatures_try_current_Ok in E as (? & ? & ->).
  - intros (Hs & Hi & [= -> ->]). by rewrite SlotSignatures_try_current_key.
Qed.

(** The positions of a slot, found by an iterator that starts at one end of it. *)
Lemma entries_listed d slot mode items (before : Z -> Z -> Prop) :
  iterator_cf d SlotSignatures mode = map Ok items -> is_u64 slot ->
  (forall i, is_u32 i -> in_mode mode (SlotSignatures_key (slot, i)) = true) ->
  (forall s i s' i' v v', is_u64 s -> is_u64 s' -> is_u32 i -> is_u32 i' ->
     in_mode mode (SlotSignatures_key (s, i)) = true -> in_mode mode (SlotSignatures_key (s', i')) = true ->
     visits_before mode (SlotSignatures_key (s, i), v) (SlotSignatures_key (s', i'), v') ->
     (s <> slot -> s' <> slot) /\ (s = slot -> s' = slot -> before i i')) ->
  let found := omap current_entry items in
  StronglySorted (fun x y : Z * Z * bytes => x.1.1 <> slot -> y.1.1 <> slot) found /\
  lists d slot before ((fun x : Z * Z * bytes => (x.1.2, x.2)) <$> filter (fun x : Z * Z * bytes => x.1.1 = slot) found).
Proof.
  intros Hi Hslot Hin Hord found. pose proof (iterator_cf_ordered _ _ _ _ Hi) as Hs.
  assert (StronglySorted (fun x y : Z * Z * bytes =>
    (x.1.1 <> slot -> y.1.1 <> slot) /\ (x.1.1 = slot -> y.1.1 = slot -> before x.1.2 y.1.2)) found) as Hf.
  { eapply omap_sorted, Hs. intros x y [[s i] v] [[s' i'] v'] Hx Hy Hv (Hs1 & Hi1 & ->)%current_entry_Some
      (Hs2 & Hi2 & ->)%current_entry_Some. cbn [fst snd].
    apply (iterator_cf_holds _ _ _ _ _ _ Hi) in Hx as [_ Hx], Hy as [_ Hy].
    by eapply (Hord s i s' i' v v'). }
  split; [eapply StronglySorted_impl; [|exact Hf]; by intros x y []|]. split.
  - assert (StronglySorted (fun x y : Z * Z * bytes => before x.1.2 y.1.2) (filter (fun x : Z * Z * bytes => x.1.1 = slot) found)) as Hg.
    { clear -Hf. induction Hf as [|x l Hl IH Hx]; [constructor|]. rewrite filter_cons. case_decide; [|done].
      constructor; [done|]. apply Forall_forall. intros y [Ey Hy]%list_elem_of_filter. rewrite Forall_forall in Hx.
      by apply Hx. }
    induction Hg as [|x l Hl IH Hx]; cbn; constructor; [done|]. by apply Forall_fmap.
  - intros i s. unfold position. rewrite list_elem_of_fmap. split.
    + intros ([[s' i'] v] & [= -> ->] & [E Hy]%list_elem_of_filter). cbn in E. subst s'.
      apply list_elem_of_omap in Hy as (kv & Hkv & (_ & ? & ->)%current_entry_Some).
      apply (iterator_cf_holds _ _ _ _ _ _ Hi) in Hkv as [? _]. done.
    + intros [Hi32 Hh]. exists (slot, i, s). split; [done|]. apply list_elem_of_filter. split; [done|].
      apply list_elem_of_omap. exists (SlotSignatures_key (slot, i), s).
      split; [apply (iterator_cf_holds _ _ _ _ _ _ Hi); auto|by apply current_entry_Some].
Qed.

Lemma entries_sized d mode items : iterator_cf d SlotSignatures mode = map Ok items -> signatures_sized d ->
  Forall (fun x : Z * Z * bytes => length x.2 = 64%nat) (omap current_entry items).
Proof.
  intros Hi Hz. apply Forall_forall. intros [[s i] v] (kv & Hkv & (_ & _ & ->)%current_entry_Some)%list_elem_of_omap.
  apply (iterator_cf_holds _ _ _ _ _ _ Hi) in Hkv as [Hv _]. by eapply Hz.
Qed.

Lemma fmap_entries (l : list (Z * Z * bytes)) : snd <$> ((fun x : Z * Z * bytes => (x.1.2, x.2)) <$> l) = snd <$> l.
Proof. rewrite <-list_fmap_compose. by apply list_fmap_ext. Qed.

Lemma listed_descending d slot : iterable d -> is_u64 slot -> signatures_sized d ->
  exists entries, lists d slot (fun i j => j < i) entries /\
    signatures_of slot (slot_signatures_current d (IterFrom (slot, U32_MAX) Reverse)) = Ok (snd <$> entries).
Proof.
  intros Hit Hslot Hz. destruct (Hit SlotSignatures (IterFrom (SlotSignatures_key (slot, U32_MAX)) Reverse)) as [items Hi].
  assert (is_u32 U32_MAX) as Hmax by eval_done.
  destruct (entries_listed d slot _ items (fun i j => j < i) Hi Hslot) as [Hs Hl].
  - intros i Hi32. cbn. apply SlotSignatures_key_le; try done. unfold is_u32, U32_MAX in *. lia.
  - intros s i s' i' v v' Hs Hs' Hi1 Hi2 Hm Hm' [Hv Hne]. cbn in Hm, Hm', Hv, Hne.
    apply SlotSignatures_key_le in Hm, Hm', Hv; try done.
    assert (s <> s' \/ i <> i') by (destruct (decide (s = s')) as [->|]; [right; by intros ->|by left]). lia.
  - eexists. split; [exact Hl|]. erewrite slot_signatures_current_items by exact Hi.
    rewrite fmap_entries. apply signatures_of_filter; [exact Hs|by eapply entries_sized].
Qed.

(** Every key of the column is in the current format. *)
Definition slots_keyed d : Prop := forall k v, holds d SlotSignatures k = Some v -> length k = 12%nat.

Lemma current_key k : length k = 12%nat -> exists s i, is_u64 s /\ is_u32 i /\ k = SlotSignatures_key (s, i).
Proof.
  intros Hk. pose proof (SlotSignatures_try_current_total k) as Ht.
  destruct (SlotSignatures_try_current_index k) as [[s i]|e|] eqn:E; [|exfalso|done].
  - apply SlotSignatures_try_current_Ok in E. eauto.
  - clear Ht. revert E. unfold SlotSignatures_try_current_index. rewrite check_len_in by done. rewrite bind_of_ok.
    unfold read_be. rewrite index_range_in by lia. rewrite !bind_of_ok, index_range_in by lia. done.
Qed.

Lemma slot_signatures_iter_items d mode items :
  iterator_cf d SlotSignatures (raw_mode (c := SlotSignatures) mode) = map Ok items -> slots_keyed d ->
  slot_signatures_iter d mode = map Ok (omap current_entry items).
Proof.
  intros Hi Hk. assert (Forall (fun kv : bytes * bytes => length kv.1 = 12%nat) items) as Hall.
  { apply Forall_forall. intros [k v] [Hv _]%(iterator_cf_holds _ _ _ _ _ _ Hi). by eapply Hk. }
  unfold slot_signatures_iter, column_iter. rewrite Hi. clear Hi.
  induction Hall as [|[k v] items Hl Hall IH]; [done|]. cbn [map omap list_omap fst].
  cbn [fst] in Hl. apply current_key in Hl as (s & i & Hs & Hi & ->).
  pose proof (column_index_key (c := SlotSignatures) (s, i) (conj Hs Hi)) as E. cbn [column_key SlotSignatures_column] in E.
  rewrite E. cbn [rethrow]. rewrite bind_of_ok. unfold current_entry at 1. cbn [fst snd].
  rewrite SlotSignatures_try_current_key by done. cbn [map]. by f_equal.
Qed.

Lemma listed_ascending d slot : iterable d -> is_u64 slot -> signatures_sized d -> slots_keyed d ->
  exists entries, lists d slot Z.lt entries /\
    signatures_of slot (slot_signatures_iter d (IterFrom (slot, 0) Forward)) = Ok (snd <$> entries).
Proof.
  intros Hit Hslot Hz Hk. destruct (Hit SlotSignatures (IterFrom (SlotSignatures_key (slot, 0)) Forward)) as [items Hi].
  assert (is_u32 0) as H0 by eval_done.
  destruct (entries_listed d slot _ items Z.lt Hi Hslot) as [Hs Hl].
  - intros i Hi32. cbn. apply SlotSignatures_key_le; try done. unfold is_u32 in *. lia.
  - intros s i s' i' v v' Hs Hs' Hi1 Hi2 Hm Hm' [Hv Hne]. cbn in Hm, Hm', Hv, Hne.
    apply SlotSignatures_key_le in Hm, Hm', Hv; try done.
    assert (s <> s' \/ i <> i') by (destruct (decide (s = s')) as [->|]; [right; by intros ->|by left]). lia.
  - eexists. split; [exact Hl|]. erewrite slot_signatures_iter_items by done.
    rewrite fmap_entries. apply signatures_of_filter; [exact Hs|by eapply entries_sized].
Qed.

Lemma lists_reverse d slot (before : Z -> Z -> Prop) entries :
  lists d slot before entries -> lists d slot (fun i j => before j i) (reverse entries).
Proof. intros [Hs Hl]. split; [by apply StronglySorted_reverse|]. intros i s. by rewrite elem_of_reverse. Qed.

(** There is one such list. *)
Lemma lists_unique d d' slot entries entries' :
  (forall i, is_u32 i -> position d' slot i = position d slot i) ->
  lists d slot Z.lt entries -> lists d' slot Z.lt entries' -> entries = entries'.
Proof.
  intros Hd [Hs Hl] [Hs' Hl']. apply (StronglySorted_ext fst); [done..|].
  intros [i s]. rewrite Hl, Hl'. split; intros [Hi H]; (split; [done|]); by rewrite ?Hd in * by done.
Qed.

Lemma lists_unique_descending d d' slot entries entries' :
  (forall i, is_u32 i -> position d' slot i = position d slot i) ->
  lists d slot (fun i j => j < i) entries -> lists d' slot (fun i j => j < i) entries' -> entries = entries'.
Proof.
  intros Hd H H'. apply lists_reverse in H, H'. apply (inj reverse). by eapply lists_unique.
Qed.
End listing.
