(* ===== verification/Truncator.v ===== *)
(** * Truncation of the ledger: magicblock-ledger/src/ledger_truncator.rs, database/compaction_filter.rs

    The worker that removes old slots when the ledger grows over its size, and the compaction filter
    that lets RocksDB drop what was removed.  A tick of the worker is a call on the ledger; what
    the cancellation token answers when it is asked is an argument. *)
From S2P Require Import Prelude Crypto Wire Columns Rocks Locks Scheduler Ledger.

(** ** compaction_filter.rs *)

Definition PurgedSlotFilter_filter c `{Column c} (oldest_slot : Z) (key : bytes) : may_panic CompactionDecision :=
  if keep_all_on_compaction c then Ok Keep
  else
    index ← column_index c key;
    let slot_in_key := slot_of c index in
    if slot_in_key <? oldest_slot then Ok Remove else Ok Keep.

Section compaction.
Context `{R : Rocks}.

(** [compact_slot_range_cf]: the filter of a compaction copies the oldest slot when it starts. *)
Definition compact_slot_range_cf c `{Column c} (from upto : option (Index c)) : ledger_io unit := fun self =>
  match compact_range (PurgedSlotFilter_filter c (l_oldest_slot self)) c from upto (l_db self) with
  | Ok d => (Ok tt, with_db self d)
  | _ => (Panic, self)
  end.
End compaction.

(** ** ledger_truncator.rs *)

Definition PERCENTAGE_TO_TRUNCATE : Z := 10.
Definition FILLED_PERCENTAGE_LIMIT : Z := 100 - PERCENTAGE_TO_TRUNCATE.

(** What the cancellation token answers: before compacting, and after each column. *)
Record CancellationToken : Type := MkToken { tk_start : bool; tk_after : column -> bool }.

(** Division panics on zero. *)
Definition checked_div {E} (a b : Z) : result E Z := if decide (b = 0) then Panic else Ok (a / b).

(** An error that is logged and passed over. *)
Definition logged `{R : Rocks} (m : ledger_io unit) : ledger_io unit := fun self =>
  match m self with
  | (Err _, self) => (Ok tt, self)
  | answer => answer
  end.

Section truncator.
Context `{R : Rocks}.
Implicit Types (self : Ledger) (token : CancellationToken).

Definition delete_slots (from_slot to_slot : Z) : ledger_io unit :=
  let start := from_slot in
  let end_ := wrap64 (to_slot + 1) in
  _ ← ledger_delete_range_cf Blockhash start end_;
  _ ← decrease_counter Blockhash (wrap64 (end_ - start));
  _ ← ledger_delete_range_cf Blocktime start end_;
  _ ← decrease_counter Blocktime (wrap64 (end_ - start));
  _ ← ledger_delete_range_cf PerfSamples start end_;
  _ ← decrease_counter PerfSamples (wrap64 (end_ - start));
  _ ← ledger_delete_range_cf SlotSignatures (from_slot, 0) (wrap64 (to_slot + 1), 0);
  updates (fun self =>
    foldl (fun self c => with_counter self c DIRTY_COUNT) self
      [SlotSignatures; TransactionStatus; AddressSignatures; Transaction; TransactionMemos]).

(** [compact_cf_or_return!], one column after the other until the token is cancelled. *)
Fixpoint compact_each token (steps : list (column * ledger_io unit)) : ledger_io unit :=
  match steps with
  | [] => mret tt
  | (c, step) :: steps =>
      _ ← step;
      if tk_after token c then mret tt else compact_each token steps
  end.

Definition compact_slot_range (from_slot to_slot : Z) token : ledger_io unit :=
  if to_slot <? from_slot then mret tt
  else if tk_start token then mret tt
  else
    let start := from_slot in
    let end_ := wrap64 (to_slot + 1) in
    compact_each token
      [(Blocktime, compact_slot_range_cf Blocktime (Some start) (Some end_));
       (Blockhash, compact_slot_range_cf Blockhash (Some start) (Some end_));
       (PerfSamples, compact_slot_range_cf PerfSamples (Some start) (Some end_));
       (SlotSignatures, compact_slot_range_cf SlotSignatures (Some (from_slot, 0)) (Some (wrap64 (to_slot + 1), 0)));
       (TransactionStatus, compact_slot_range_cf TransactionStatus None None);
       (Transaction, compact_slot_range_cf Transaction None None);
       (TransactionMemos, compact_slot_range_cf TransactionMemos None None);
       (AddressSignatures, compact_slot_range_cf AddressSignatures None None)].

Definition truncate_slot_range (from_slot to_slot : Z) token : ledger_io unit :=
  if to_slot <? from_slot then mret tt
  else
    _ ← updates (set_lowest_cleanup_slot to_slot);
    _ ← logged (delete_slots from_slot to_slot);
    _ ← logged ledger_flush;
    compact_slot_range from_slot to_slot token.

(** An error reading the latest block hash leaves no range. *)
Definition available_truncation_range self : result LedgerError (option (Z * Z)) :=
  let lowest_cleanup_slot := get_lowest_cleanup_slot self in
  match get_max_blockhash self with
  | Ok (highest_cleanup_slot, _) =>
      let next_from_slot := if decide (lowest_cleanup_slot = 0) then 0 else wrap64 (lowest_cleanup_slot + 1) in
      Ok (Some (next_from_slot, highest_cleanup_slot))
  | Err _ => Ok None
  | Panic => Panic
  end.

Definition estimate_truncation_range (current_ledger_size : Z) : ledger_io (option (Z * Z)) :=
  range ← reads available_truncation_range;
  match range with
  | None => mret None
  | Some (from_slot, to_slot) =>
      num_slots ← count_blockhashes;
      if decide (num_slots = 0) then mret None
      else
        slot_size ← reads (fun _ => checked_div current_ledger_size (wrap64 num_slots));
        let size_to_truncate := wrap64 (current_ledger_size / 100 * PERCENTAGE_TO_TRUNCATE) in
        num_slots_to_truncate ← reads (fun _ => checked_div size_to_truncate slot_size);
        let to_slot := Z.min (wrap64 (from_slot + num_slots_to_truncate)) to_slot in
        mret (Some (from_slot, to_slot))
  end.

Definition truncate_fat_ledger (ledger_size current_ledger_size : Z) token : ledger_io unit :=
  let desired_size := wrap64 (ledger_size / 100 * FILLED_PERCENTAGE_LIMIT) in
  let excess := wrap64 (current_ledger_size - desired_size) in
  highest ← reads get_max_blockhash;
  let highest_slot := fst highest in
  lowest ← reads get_lowest_slot;
  let lowest_slot := default 0 lowest in
  if decide (lowest_slot = highest_slot) then mret tt
  else
    let num_slots := wrap64 (highest_slot - lowest_slot + 1) in
    slot_size ← reads (fun _ => checked_div current_ledger_size num_slots);
    num_slots_to_truncate ← reads (fun _ => checked_div excess slot_size);
    let truncate_to_slot := wrap64 (lowest_slot + num_slots_to_truncate - 1) in
    _ ← updates (set_lowest_cleanup_slot truncate_to_slot);
    _ ← delete_slots 0 truncate_to_slot;
    _ ← logged ledger_flush;
    compact_slot_range 0 truncate_to_slot token.

Definition truncate (ledger_size current_ledger_size : Z) token : ledger_io unit :=
  if ledger_size <? current_ledger_size then truncate_fat_ledger ledger_size current_ledger_size token
  else
    range ← estimate_truncation_range current_ledger_size;
    match range with
    | Some (from_slot, to_slot) => truncate_slot_range from_slot to_slot token
    | None => mret tt
    end.

(** One tick of [run]. *)
Definition truncator_tick (ledger_size : Z) token : ledger_io unit := fun self =>
  match storage_size self with
  | Ok current_size =>
      if current_size <? wrap64 (ledger_size / 100 * FILLED_PERCENTAGE_LIMIT) then (Ok tt, self)
      else logged (truncate ledger_size current_size token) self
  | Err _ => (Ok tt, self)
  | Panic => (Panic, self)
  end.
End truncator.

(** ** The service around the worker *)

Inductive ServiceState : Type := Created | Running | Stopped.

(** [start] and [stop]; [stop] cancels the token of the worker it stops. *)
Definition LedgerTruncator_start (state : ServiceState) : ServiceState :=
  match state with Created => Running | _ => state end.
Definition LedgerTruncator_stop (state : ServiceState) : bool * ServiceState :=
  match state with Running => (true, Stopped) | _ => (false, state) end.
(** Whether [join] waits for the worker. *)
Definition LedgerTruncator_join (state : ServiceState) : bool :=
  let state := match state with Running => (LedgerTruncator_stop state).2 | _ => state end in
  match state with Stopped => true | _ => false end.
