(* ===== verification/TruncatorInv.v ===== *)
(** * What upkeep of the ledger leaves alone

    Ticks of the truncator and compactions by RocksDB itself remove entries of slots that were
    cleaned up, and nothing else. *)
From S2P Require Import Prelude Crypto Wire Columns Rocks Locks Scheduler Ledger LedgerInv Truncator.

Section upkeep.
Context `{R : Rocks} `{!RocksLaws R}.
Implicit Types (self : Ledger) (slot low : Z) (token : CancellationToken).

(** The bound of the compaction filter follows the lowest cleanup slot. *)
Definition cleaned self : Prop :=
  is_u64 (l_lowest_cleanup_slot self) /\ l_oldest_slot self <= l_lowest_cleanup_slot self + 1.

(** An entry upkeep may remove: of a column it cleans up, of a slot up to [low]. *)
Definition prunable low (c : column) (k : bytes) : Prop :=
  @keep_all_on_compaction c (any_column c) = false /\
  forall i, @index_wf c (any_column c) (any_lawful c) i -> k = @column_key c (any_column c) i ->
    @slot_of c (any_column c) i <= low.

Lemma prunable_weaken low low' c k : low <= low' -> prunable low c k -> prunable low' c k.
Proof. intros Hl [Hk H]. split; [done|]. intros i Hi E. specialize (H i Hi E). lia. Qed.

(** Upkeep: nothing changes but that entries of cleaned up slots are removed. *)
Definition pruned self self' : Prop :=
  cleaned self' /\ l_lowest_cleanup_slot self <= l_lowest_cleanup_slot self' /\
  forall c k, holds (l_db self') c k = holds (l_db self) c k \/
    holds (l_db self') c k = None /\ prunable (l_lowest_cleanup_slot self') c k.

(** What a call does once the slots up to [low] count as cleaned up. *)
Definition prunes low self self' : Prop :=
  cleaned self -> low <= l_lowest_cleanup_slot self -> pruned self self'.

Lemma pruned_refl self : cleaned self -> pruned self self.
Proof. intros Hc. refine (conj _ (conj _ _)); [done|lia|by left]. Qed.

Lemma pruned_trans self1 self2 self3 : pruned self1 self2 -> pruned self2 self3 -> pruned self1 self3.
Proof.
  intros (_ & H12 & P12) (Hc & H23 & P23). refine (conj _ (conj _ _)); [done|lia|]. intros c k.
  destruct (P23 c k) as [->|]; [|by right]. destruct (P12 c k) as [|[Hn Hp]]; [by left|right].
  split; [done|by eapply prunable_weaken].
Qed.

#[global] Instance prunes_refl low : Reflexive (prunes low).
Proof. intros self Hc _. by apply pruned_refl. Qed.
#[global] Instance prunes_trans low : Transitive (prunes low).
Proof.
  intros x y z Hxy Hyz Hc Hl. specialize (Hxy Hc Hl). eapply pruned_trans; [done|].
  destruct Hxy as (Hc' & Hl' & _). apply Hyz; [done|lia].
Qed.

Lemma prunes_same low self self' : l_db self' = l_db self -> same_cleanup self self' -> prunes low self self'.
Proof.
  intros Hd [El Eo] Hc Hl. unfold pruned, cleaned. rewrite Hd, El, Eo. refine (conj Hc (conj _ _)); [lia|by left].
Qed.

Lemma ensures_logged P m : ensures P m -> ensures P (logged m).
Proof.
  intros Hm self r self'. unfold logged. destruct (m self) as [[u|e|] self1] eqn:E; intros [= <- <-]; by eapply Hm.
Qed.

Lemma prunes_decrease low c n : ensures (prunes low) (decrease_counter c n).
Proof. apply ensures_updates. intros self. by apply prunes_same. Qed.

(** ** Deleting a range *)

Lemma delete_range_prunes low c `{C : Column c} (from upto : Index c) :
  (forall k, bytes_le (column_key c from) k = true -> bytes_le (column_key c upto) k = false -> prunable low c k) ->
  ensures (prunes low) (ledger_delete_range_cf c from upto).
Proof.
  intros Hp self r self'. unfold ledger_delete_range_cf, on_db, delete_range.
  destruct (delete_range_cf _ _ _ _) as [r1 d] eqn:E. intros [= <- <-] Hc Hl.
  refine (conj _ (conj _ _)); [done|cbn; lia|]. cbn [with_db l_db l_lowest_cleanup_slot]. intros c' k. destruct r1 as [[]|e|].
  - rewrite (delete_range_cf_holds _ _ _ _ _ _ _ E). case_decide as H; [|by left]. destruct H as (-> & Hf & Hu).
    right. split; [done|]. by eapply prunable_weaken, Hp.
  - rewrite (delete_range_cf_failed _ _ _ _ _ _ E). by left.
  - by apply delete_range_cf_total in E.
Qed.

Lemma wrap64_below z : 0 <= z -> wrap64 z <= z.
Proof. intros. unfold wrap64. apply Z.mod_le; lia. Qed.

Lemma slot_range_prunable to_slot k : is_u64 to_slot ->
  bytes_le (SlotColumn_key (wrap64 (to_slot + 1))) k = false ->
  forall slot, is_u64 slot -> k = SlotColumn_key slot -> slot <= to_slot.
Proof.
  intros Ht Hu slot Hs ->. pose proof (wrap64_below (to_slot + 1) ltac:(unfold is_u64 in *; lia)).
  destruct (Z.le_gt_cases slot to_slot) as [|Hlt]; [done|]. exfalso. rewrite !SlotColumn_keyE in Hu.
  apply not_true_iff_false in Hu. apply Hu, be_bytes_le; [apply wrap64_range|done|lia].
Qed.

Lemma delete_slots_prunes from_slot to_slot : is_u64 to_slot -> ensures (prunes to_slot) (delete_slots from_slot to_slot).
Proof.
  intros Ht. unfold delete_slots. cbv zeta.
  do 3 (apply ensures_bind; [apply _| |intros _; apply ensures_bind; [apply _|apply prunes_decrease|intros _]];
    [apply delete_range_prunes; intros k _ Hu; split; [done|]; by apply slot_range_prunable|]).
  apply ensures_bind; [apply _| |intros _].
  - apply delete_range_prunes. intros k _ Hu. split; [done|]. intros [slot i] [Hs Hi] ->. cbn in Hs, Hi, Hu |- *.
    destruct (Z.le_gt_cases slot to_slot) as [|Hlt]; [done|]. exfalso. apply not_true_iff_false in Hu. apply Hu.
    pose proof (wrap64_below (to_slot + 1) ltac:(unfold is_u64 in *; lia)).
    apply SlotSignatures_key_le; [apply wrap64_range|done|eval_done|done|]. unfold is_u32 in Hi. lia.
  - apply ensures_updates. intros self. by apply prunes_same.
Qed.

Lemma flush_prunes low : ensures (prunes low) ledger_flush.
Proof.
  intros self r self'. unfold ledger_flush, on_db. destruct (flush_cfs _ _) as [r1 d] eqn:E. intros [= <- <-] Hc Hl.
  refine (conj _ (conj _ _)); [done|cbn; lia|]. cbn [with_db l_db]. rewrite (flush_cfs_holds _ _ _ _ E). by left.
Qed.

(** ** Compacting *)

Lemma filter_prunable c low oldest k : oldest <= low + 1 ->
  @PurgedSlotFilter_filter c (any_column c) oldest k = Ok Remove -> prunable low c k.
Proof.
  intros Ho. unfold PurgedSlotFilter_filter. destruct (keep_all_on_compaction c) eqn:Hk; [done|].
  intros (i & Hi & Hr)%bind_Ok. split; [done|]. intros j Hj ->.
  rewrite (@column_index_key c (any_column c) (any_lawful c) j Hj) in Hi. injection Hi as ->.
  destruct (_ <? _) eqn:E in Hr; [|done]. lia.
Qed.

(** A compaction of any range that RocksDB starts by itself, with the filter of the column. *)
Definition background_compaction (c : column) (from upto : option bytes) : ledger_io unit := fun self =>
  match compact_range_cf (l_db self) (@PurgedSlotFilter_filter c (any_column c) (l_oldest_slot self)) c from upto with
  | Ok d => (Ok tt, with_db self d)
  | _ => (Panic, self)
  end.

Lemma background_prunes low c from upto : ensures (prunes low) (background_compaction c from upto).
Proof.
  intros self r self'. unfold background_compaction. destruct (compact_range_cf _ _ _ _ _) as [d|[]|] eqn:E;
    intros [= <- <-]; [|by apply prunes_refl].
  intros [Hu Ho] Hl. refine (conj _ (conj _ _)); [done|cbn; lia|]. cbn [with_db l_db l_lowest_cleanup_slot]. intros c' k.
  destruct (compact_range_cf_holds _ _ _ _ _ _ c' k E) as [|(-> & Hf & Hn)]; [by left|right].
  split; [done|]. by eapply filter_prunable.
Qed.

Lemma compact_each_prunes low token steps :
  Forall (fun step => ensures (prunes low) step.2) steps -> ensures (prunes low) (compact_each token steps).
Proof.
  induction 1 as [|[c step] steps Hs _ IH]; cbn [compact_each]; [apply ensures_ret; apply _|].
  apply ensures_bind; [apply _|done|intros _]. apply ensures_if; [apply ensures_ret; apply _|done].
Qed.

Lemma compact_slot_range_prunes low from_slot to_slot token :
  ensures (prunes low) (compact_slot_range from_slot to_slot token).
Proof.
  unfold compact_slot_range. do 2 (apply ensures_if; [apply ensures_ret; apply _|]). apply compact_each_prunes.
  repeat apply Forall_cons_2; try apply Forall_nil_2; cbn [snd]; apply background_prunes.
Qed.

(** ** Truncating *)

Lemma set_lowest_pruned to_slot self : is_u64 to_slot -> cleaned self ->
  pruned self (set_lowest_cleanup_slot to_slot self) /\
  to_slot <= l_lowest_cleanup_slot (set_lowest_cleanup_slot to_slot self).
Proof.
  intros Ht [Hu Ho]. unfold set_lowest_cleanup_slot. cbv zeta. set (n := Z.max _ _).
  assert (is_u64 n) as Hn by (unfold n, is_u64 in *; lia).
  pose proof (wrap64_below (n + 1) ltac:(unfold is_u64 in *; lia)).
  case_decide; (split; [refine (conj (conj _ _) (conj _ _)); cbn; [done|lia|lia|by left]|cbn; lia]).
Qed.

(** Setting the cleanup slot first makes the rest of a truncation upkeep. *)
Lemma truncation_prunes to_slot (m : ledger_io unit) : is_u64 to_slot -> ensures (prunes to_slot) m ->
  ensures (prunes 0) (_ ← updates (set_lowest_cleanup_slot to_slot); m).
Proof.
  intros Ht Hm self r self' Hrun Hc _. cbn in Hrun.
  destruct (set_lowest_pruned to_slot self Ht Hc) as [Hp Hl]. eapply pruned_trans; [exact Hp|].
  apply (Hm _ _ _ Hrun); [by destruct Hp|done].
Qed.

Lemma truncate_slot_range_prunes from_slot to_slot token : is_u64 to_slot ->
  ensures (prunes 0) (truncate_slot_range from_slot to_slot token).
Proof.
  intros Ht. unfold truncate_slot_range. apply ensures_if; [apply ensures_ret; apply _|].
  apply truncation_prunes; [done|].
  apply ensures_bind; [apply _|by apply ensures_logged, delete_slots_prunes|intros _].
  apply ensures_bind; [apply _|apply ensures_logged, flush_prunes|intros _]. apply compact_slot_range_prunes.
Qed.

Lemma truncate_fat_ledger_prunes size current token : ensures (prunes 0) (truncate_fat_ledger size current token).
Proof.
  unfold truncate_fat_ledger. cbv zeta. do 2 (apply ensures_bind; [apply _|apply ensures_reads; apply _|intros ?]).
  case_decide; [apply ensures_ret; apply _|].
  do 2 (apply ensures_bind; [apply _|apply ensures_reads; apply _|intros ?]).
  apply truncation_prunes; [apply wrap64_range|].
  apply ensures_bind; [apply _|apply delete_slots_prunes, wrap64_range|intros _].
  apply ensures_bind; [apply _|apply ensures_logged, flush_prunes|intros _]. apply compact_slot_range_prunes.
Qed.

Lemma SlotColumn_index_Ok k slot : SlotColumn_index k = Ok slot -> is_u64 slot.
Proof. unfold SlotColumn_index. intros [Hl ->]%read_be_Ok. apply be_val_u64. rewrite length_slice; lia. Qed.

Lemma get_max_blockhash_u64 self slot hash : get_max_blockhash self = Ok (slot, hash) -> is_u64 slot.
Proof.
  unfold get_max_blockhash. intros (found & Hf & H)%bind_Ok.
  assert (is_u64 (default (0, zeros 32) found).1) as Hs.
  { unfold blockhash_iter, column_iter in Hf. destruct (iterator_cf _ _ _) as [|[[k v]|e|] items]; cbn [map next_item] in Hf.
    - injection Hf as <-. eval_done.
    - apply bind_Ok in Hf as (a & (i & Hi & [= <-])%bind_Ok & [= <-]). cbn.
      destruct (column_index Blockhash k) as [j|[]|] eqn:E; [|done]. injection Hi as <-. by eapply SlotColumn_index_Ok.
    - done.
    - done. }
  destruct (default _ found). by apply bind_Ok in H as (h & _ & [= <- <-]).
Qed.

Lemma count_prunes low c `{Column c} : ensures (prunes low) (count_column_using_cache c).
Proof.
  unfold count_column_using_cache. apply ensures_bind; [apply _|apply ensures_reads; apply _|intros n].
  case_decide; [apply ensures_ret; apply _|].
  apply ensures_bind; [apply _| |intros ?; apply ensures_reads; apply _].
  unfold init_column_count_cache. apply ensures_bind; [apply _|apply ensures_reads; apply _|intros ?].
  apply ensures_updates. intros self. case_decide; by apply prunes_same.
Qed.

Lemma estimate_prunes low current : ensures (prunes low) (estimate_truncation_range current).
Proof.
  unfold estimate_truncation_range. apply ensures_bind; [apply _|apply ensures_reads; apply _|intros [[from to]|]];
    [|apply ensures_ret; apply _].
  apply ensures_bind; [apply _|apply count_prunes|intros n]. case_decide; [apply ensures_ret; apply _|].
  do 2 (apply ensures_bind; [apply _|apply ensures_reads; apply _|intros ?]). apply ensures_ret; apply _.
Qed.

Lemma estimate_u64 current self from_slot to_slot self' :
  estimate_truncation_range current self = (Ok (Some (from_slot, to_slot)), self') -> is_u64 to_slot.
Proof.
  unfold estimate_truncation_range. intros ([[from to]|] & self1 & [= Hr <-] & H)%ledger_bind_Ok; [|done].
  assert (is_u64 to) as Hto.
  { unfold available_truncation_range in Hr. destruct (get_max_blockhash self) as [[s h]|e|] eqn:E; [|done..].
    injection Hr as _ <-. by eapply get_max_blockhash_u64. }
  apply ledger_bind_Ok in H as (n & self2 & _ & H). case_decide; [done|].
  apply ledger_bind_Ok in H as (size & self3 & _ & H). apply ledger_bind_Ok in H as (m & self4 & _ & [= _ <- _]).
  pose proof (wrap64_range (from + m)). unfold is_u64 in *. lia.
Qed.

Lemma truncate_prunes size current token : ensures (prunes 0) (truncate size current token).
Proof.
  unfold truncate. apply ensures_if; [apply truncate_fat_ledger_prunes|]. intros self r self'.
  unfold mbind, ledger_io_bind. destruct (estimate_truncation_range current self) as [[range|e|] self1] eqn:E; cycle 1.
  { intros [= <- <-]. by eapply estimate_prunes. }
  { intros [= <- <-]. by eapply estimate_prunes. }
  intros Hrun. transitivity self1; [by eapply estimate_prunes|]. destruct range as [[from to]|].
  - apply estimate_u64 in E. by eapply truncate_slot_range_prunes.
  - injection Hrun as <- <-. apply prunes_refl.
Qed.

(** A tick of the truncator is upkeep, whatever it meets. *)
Lemma truncator_tick_prunes size token : ensures (prunes 0) (truncator_tick size token).
Proof.
  intros self r self'. unfold truncator_tick. destruct (storage_size self); [|intros [= <- <-]; apply prunes_refl..].
  destruct (_ <? _); [intros [= <- <-]; apply prunes_refl|]. apply ensures_logged, truncate_prunes.
Qed.
End upkeep.
