(* ===== verification/Blocks.v ===== *)
(** * What was written is what a block lists

    Runs of calls on the ledger, writes by whatever threads and upkeep among them in whatever order,
    and the block the ledger serves after them. *)
From S2P Require Import Prelude Crypto Wire Columns Rocks Store Locks Scheduler Ledger LedgerInv Truncator TruncatorInv.

(** ** Reading a block *)

Section served.
Context `{S : Solana} `{L : !LedgerCodec} `{!LedgerCodecLaws L} `{J : Json} `{R : Rocks} `{!RocksLaws R}.
Implicit Types (self : Ledger) (slot : Z) (d : rocks).

(** A slot that was not cleaned up. *)
Definition available self slot : Prop := l_lowest_cleanup_slot self = 0 \/ l_lowest_cleanup_slot self < slot.

Lemma check_available self slot : 0 <= l_lowest_cleanup_slot self -> available self slot ->
  check_lowest_cleanup_slot self slot = Ok tt.
Proof. intros H0 Ha. unfold check_lowest_cleanup_slot, available in *. by destruct (_ && _) eqn:E; [lia|]. Qed.

Lemma check_cleaned self slot : 0 < l_lowest_cleanup_slot self -> slot <= l_lowest_cleanup_slot self ->
  check_lowest_cleanup_slot self slot = Err SlotCleanedUp.
Proof. intros H0 Hs. unfold check_lowest_cleanup_slot. by destruct (_ && _) eqn:E; [|lia]. Qed.

(** The process can still clean up. *)
Definition in_bounds self : Prop := 0 <= l_lowest_cleanup_slot self < U64_MAX.

Lemma ensure_in_bounds self : in_bounds self ->
  ensure_lowest_cleanup_slot self = Ok (l_lowest_cleanup_slot self + 1).
Proof.
  unfold in_bounds, U64_MAX. intros Hb. unfold ensure_lowest_cleanup_slot, checked_add. by rewrite decide_True by lia.
Qed.

(** A transaction of a slot with its status, as the columns hold them. *)
Definition stored d slot (signature : bytes) (entry : VersionedTransaction * TransactionStatusMeta) : Prop :=
  exists encoded g,
    holds d Transaction (TransactionStatus_key (signature, slot)) = Some encoded /\
    bincode_deserialize encoded = Some entry.1 /\
    holds d TransactionStatus (TransactionStatus_key (signature, slot)) = Some (protobuf_encode g) /\
    generated_try_into g = Some entry.2.

Lemma block_transaction_stored self slot signature entry :
  readable (l_db self) -> in_bounds self -> stored (l_db self) slot signature entry ->
  block_transaction self slot signature = Ok entry.
Proof.
  intros Hr Hb (encoded & g & Ht & Hd & Hs & Hg). unfold block_transaction, read_transaction.
  rewrite ensure_in_bounds, bind_of_ok by done. unfold read_bytes. rewrite readable_get by done.
  rewrite bind_of_ok. cbn [column_key Transaction_column]. rewrite Ht, Hd. cbn [ok_or]. rewrite !bind_of_ok.
  cbn [ok_or]. rewrite bind_of_ok. unfold get_protobuf_status. rewrite read_typed_run by done.
  cbn [column_key TransactionStatus_column]. rewrite Hs, protobuf_decode_encode. cbn [ok_or]. rewrite !bind_of_ok. cbn [ok_or].
  rewrite bind_of_ok, Hg. cbn [ok_or]. rewrite bind_of_ok. by destruct entry.
Qed.

(** The hash of a block, with the default hash where there is none. *)
Definition hash_at d slot (hash : bytes) : Prop :=
  length hash = 32%nat /\
  (holds d Blockhash (SlotColumn_key slot) = Some (serialize_hash hash) \/
   holds d Blockhash (SlotColumn_key slot) = None /\ hash = zeros 32).

Lemma get_block_hash_at self slot hash :
  readable (l_db self) -> in_bounds self -> available self slot -> hash_at (l_db self) slot hash ->
  exists found, get_block_hash self slot = Ok found /\ default (zeros 32) found = hash.
Proof.
  intros Hr [Hb _] Ha [Hl Hh]. unfold get_block_hash. rewrite check_available, bind_of_ok by done.
  rewrite read_typed_run by done. cbn [column_key Blockhash_column]. destruct Hh as [->|[-> ->]]; [|by exists None].
  destruct (serialize_hash_raw hash Hl) as [-> ->]. by exists (Some hash).
Qed.

Lemma get_block_hash_Some self slot hash :
  readable (l_db self) -> in_bounds self -> available self slot -> length hash = 32%nat ->
  holds (l_db self) Blockhash (SlotColumn_key slot) = Some (serialize_hash hash) ->
  get_block_hash self slot = Ok (Some hash).
Proof.
  intros Hr [Hb _] Ha Hl Hh. unfold get_block_hash. rewrite check_available, bind_of_ok by done.
  rewrite read_typed_run by done. cbn [column_key Blockhash_column]. rewrite Hh.
  by destruct (serialize_hash_raw hash Hl) as [-> ->].
Qed.

Lemma get_block_time_Some self slot time :
  readable (l_db self) -> in_bounds self -> available self slot ->
  holds (l_db self) Blocktime (SlotColumn_key slot) = Some (serialize_timestamp time) ->
  get_block_time self slot = Ok (Some time).
Proof.
  intros Hr [Hb _] Ha Hh. unfold get_block_time. rewrite check_available, bind_of_ok by done.
  rewrite read_typed_run by done. cbn [column_key Blocktime_column]. by rewrite Hh, timestamp_roundtrip.
Qed.

Lemma mapM_Forall2 {E A B} (f : A -> result E B) l k : Forall2 (fun x y => f x = Ok y) l k -> mapM f l = Ok k.
Proof.
  induction 1 as [|x y l k Hf _ IH]; [done|]. cbn [mapM]. by rewrite Hf, bind_of_ok, IH.
Qed.

Lemma get_block_listed self slot hash previous time entries transactions :
  readable (l_db self) -> iterable (l_db self) -> signatures_sized (l_db self) -> in_bounds self -> is_u64 slot ->
  available self slot -> available self (saturating_sub slot 1) ->
  length hash = 32%nat -> holds (l_db self) Blockhash (SlotColumn_key slot) = Some (serialize_hash hash) ->
  hash_at (l_db self) (saturating_sub slot 1) previous ->
  holds (l_db self) Blocktime (SlotColumn_key slot) = Some (serialize_timestamp time) ->
  lists (l_db self) slot (fun i j => j < i) entries ->
  Forall2 (fun e t => stored (l_db self) slot e.2 t) entries transactions ->
  get_block self slot = Ok (Some {|
    cb_previous_blockhash := Hash_to_string previous; cb_blockhash := Hash_to_string hash;
    cb_parent_slot := saturating_sub slot 1; cb_transactions := transactions; cb_block_time := Some time;
    cb_block_height := Some slot |}).
Proof.
  intros Hr Hi Hz Hb Hslot Ha Hap Hl Hh Hp Ht He Hs. unfold get_block.
  rewrite (get_block_hash_Some self slot hash), (get_block_time_Some self slot time), !bind_of_ok by done.
  destruct (get_block_hash_at self _ previous Hr Hb Hap Hp) as (found & -> & Hf). rewrite bind_of_ok.
  rewrite check_available, bind_of_ok by (done || apply Hb).
  destruct (listed_descending (l_db self) slot Hi Hslot Hz) as (entries' & He' & ->). rewrite bind_of_ok.
  rewrite (lists_unique_descending _ _ _ _ _ (fun _ _ => eq_refl) He' He).
  rewrite (mapM_Forall2 _ _ transactions), bind_of_ok; [by rewrite Hf|].
  apply Forall2_fmap_l. eapply Forall2_impl; [exact Hs|]. intros e t Hst. by apply block_transaction_stored.
Qed.
End served.

(** ** Runs of writes *)

Section history.
Context `{S : Solana} `{L : !LedgerCodec} `{!LedgerCodecLaws L} `{J : Json} `{R : Rocks} `{!RocksLaws R}.
Implicit Types (self : Ledger) (slot : Z) (d : rocks).

(** A transaction as an executor records it. *)
Record Entry : Type := MkEntryOf {
  tx_signature : bytes;
  tx_slot : Z;
  tx_index : Z;
  tx_writable : list bytes;
  tx_readonly : list bytes;
  tx_encoded : bytes;
  tx_status : TransactionStatusMeta;
}.

Inductive LedgerOp : Type :=
| OpTransaction (entry : Entry)
| OpBlock (block : LatestBlock)
| OpMemos (signature : bytes) (slot : Z) (memos : string)
| OpPerfSample (index : Z) (sample : PerfSample)
| OpReceipt (seq : Z) (signature : option bytes) (outcome : byte) (receipt : bytes)
| OpTick (ledger_size : Z) (token : CancellationToken)
| OpCompact (c : column) (from upto : option bytes).

Definition run_op (op : LedgerOp) : ledger_io unit :=
  match op with
  | OpTransaction e =>
      write_transaction (tx_signature e) (tx_slot e) (tx_index e) (tx_writable e) (tx_readonly e) (tx_encoded e) (tx_status e)
  | OpBlock block => write_block block
  | OpMemos signature slot memos => write_transaction_memos signature slot memos
  | OpPerfSample index sample => write_perf_sample index sample
  | OpReceipt seq signature outcome receipt => on_db (write_receipt seq signature outcome receipt)
  | OpTick ledger_size token => truncator_tick ledger_size token
  | OpCompact c from upto => background_compaction c from upto
  end.

(** Every call is made, whatever became of those before it. *)
Fixpoint run_ops (ops : list LedgerOp) self : list (result LedgerError unit) * Ledger :=
  match ops with
  | [] => ([], self)
  | op :: ops =>
      let '(r, self) := run_op op self in
      let '(rs, self) := run_ops ops self in (r :: rs, self)
  end.

(** What a call may change that ends with the lowest cleanup slot [low]. *)
Definition op_changes (low : Z) (op : LedgerOp) (c : column) (k : bytes) (v : option bytes) : Prop :=
  match op with
  | OpTransaction e => of_transaction (tx_signature e) (tx_slot e) (tx_index e) c k v
  | OpBlock block => of_block (lb_slot block) c k v
  | OpMemos _ _ _ => c = TransactionMemos
  | OpPerfSample _ _ => c = PerfSamples
  | OpReceipt _ _ _ _ => c = ReceiptBySeq \/ c = ReceiptBySig
  | OpTick _ _ | OpCompact _ _ _ => v = None /\ prunable low c k
  end.

Definition op_effect (op : LedgerOp) self self' : Prop :=
  cleaned self' /\ l_lowest_cleanup_slot self <= l_lowest_cleanup_slot self' /\
  alters (op_changes (l_lowest_cleanup_slot self') op) self self'.

Lemma write_receipt_changes seq signature outcome receipt :
  ensures (changes (fun c _ _ => c = ReceiptBySeq \/ c = ReceiptBySig)) (on_db (write_receipt seq signature outcome receipt)).
Proof.
  intros self r self'. unfold on_db. destruct (write_receipt _ _ _ _ _) as [r1 d] eqn:E. intros [= <- <-].
  split; [|done]. intros c k. cbn [with_db l_db].
  destruct (decide (c = ReceiptBySeq)) as [->|Hn1]; [by right; left|].
  destruct (decide (c = ReceiptBySig)) as [->|Hn2]; [by right; right|]. left.
  assert (forall s, written (holds (l_db self)) seq s outcome receipt c k = holds (l_db self) c k) as Hw.
  { intros [s|]; unfold written; by rewrite ?overlay_column. }
  destruct r1 as [u|e|].
  - by rewrite (write_receipt_Ok _ _ _ _ _ _ _ E), Hw.
  - apply write_receipt_Err in E as [->|[_ H]]; [done|]. by rewrite H, Hw.
  - by apply write_receipt_no_panic in E.
Qed.

Lemma write_effect op self r self' : (forall low low', op_changes low op = op_changes low' op) ->
  ensures (changes (op_changes 0 op)) (run_op op) -> run_op op self = (r, self') -> cleaned self -> op_effect op self self'.
Proof.
  intros Hop Hm Hrun Hc. destruct (Hm _ _ _ Hrun) as [Ht [El Eo]].
  refine (conj _ (conj _ _)); [unfold cleaned; by rewrite El, Eo|lia|]. by rewrite (Hop _ 0).
Qed.

Lemma pruned_effect op self self' : (forall low, op_changes low op = fun c k v => v = None /\ prunable low c k) ->
  pruned self self' -> op_effect op self self'.
Proof.
  intros Hop (Hc & Hl & Hp). refine (conj Hc (conj Hl _)). rewrite Hop. intros c k. destruct (Hp c k); auto.
Qed.

Lemma run_op_effect op self r self' : run_op op self = (r, self') -> cleaned self -> op_effect op self self'.
Proof.
  intros Hrun Hc. pose proof Hc as [Hlow _]. 
  destruct op; try (refine (write_effect _ self r self' _ _ Hrun Hc); [done|]).
  - apply write_transaction_changes.
  - apply write_block_changes.
  - clear self r self' Hrun Hc Hlow. intros self r self'. cbn [run_op op_changes]. unfold write_transaction_memos.
    destruct (on_db _ self) as [r1 self1] eqn:E. apply (put_changes TransactionMemos (fun c _ _ => c = TransactionMemos)) in E;
      [|done]. intros [= <- <-]. etrans; [exact E|]. apply changes_counter.
  - cbn [run_op op_changes]. unfold write_perf_sample. repeat ensures_step; done.
  - apply write_receipt_changes.
  - apply pruned_effect; [done|]. apply (truncator_tick_prunes _ _ _ _ _ Hrun); [done|apply Hlow].
  - apply pruned_effect; [done|]. apply (background_prunes 0 _ _ _ _ _ _ Hrun); [done|apply Hlow].
Qed.

Definition entry_wf (e : Entry) : Prop := length (tx_signature e) = 64%nat /\ is_u64 (tx_slot e) /\ is_u32 (tx_index e).

Definition op_wf (op : LedgerOp) : Prop :=
  match op with
  | OpTransaction e => entry_wf e
  | OpBlock block => is_u64 (lb_slot block)
  | _ => True
  end.

(** The transactions recorded for a slot, and the blocks. *)
Definition slot_entries slot (ops : list LedgerOp) : list Entry :=
  omap (fun op => match op with
                  | OpTransaction e => if decide (tx_slot e = slot) then Some e else None
                  | _ => None
                  end) ops.

Definition slot_blocks slot (ops : list LedgerOp) : list LatestBlock :=
  omap (fun op => match op with
                  | OpBlock block => if decide (lb_slot block = slot) then Some block else None
                  | _ => None
                  end) ops.

Definition on_slot slot (op : LedgerOp) : Prop :=
  match op with
  | OpTransaction e => tx_slot e = slot
  | OpBlock block => lb_slot block = slot
  | _ => False
  end.

(** The columns hold of a slot exactly the transactions recorded so far. *)
Record slot_state d slot (recorded : list Entry) : Prop := {
  ss_position i s : is_u32 i ->
    position d slot i = Some s <-> exists e, e ∈ recorded /\ tx_index e = i /\ tx_signature e = s;
  ss_transaction e : e ∈ recorded ->
    holds d Transaction (TransactionStatus_key (tx_signature e, slot)) = Some (tx_encoded e);
  ss_status e : e ∈ recorded ->
    holds d TransactionStatus (TransactionStatus_key (tx_signature e, slot))
      = Some (protobuf_encode (generated_from (tx_status e)));
}.

Lemma slot_state_frame self self' slot recorded P :
  alters P self self' -> Forall entry_wf recorded ->
  (forall i v, is_u32 i -> ~ P SlotSignatures (SlotSignatures_key (slot, i)) v) ->
  (forall s v, length s = 64%nat ->
     ~ P Transaction (TransactionStatus_key (s, slot)) v /\ ~ P TransactionStatus (TransactionStatus_key (s, slot)) v) ->
  slot_state (l_db self) slot recorded -> slot_state (l_db self') slot recorded.
Proof.
  intros Hf Hwf Hp Ht [H1 H2 H3]. rewrite Forall_forall in Hwf. split.
  - intros i s Hi. unfold position in *. rewrite (alters_frame _ _ _ _ _ Hf) by auto. by apply H1.
  - intros e He. rewrite (alters_frame _ _ _ _ _ Hf); [auto|]. intros v. by apply Ht, Hwf.
  - intros e He. rewrite (alters_frame _ _ _ _ _ Hf); [auto|]. intros v. by apply Ht, Hwf.
Qed.

(** Upkeep leaves what is above the lowest cleanup slot. *)
Lemma not_prunable low c (i : @Index c (any_column c)) :
  @index_wf c (any_column c) (any_lawful c) i -> low < @slot_of c (any_column c) i ->
  ~ prunable low c (@column_key c (any_column c) i).
Proof. intros Hi Hl [_ Hp]. specialize (Hp i Hi eq_refl). lia. Qed.

(** A call that is not about the slot leaves it as it is. *)
Lemma slot_state_other op self r self' slot recorded :
  run_op op self = (r, self') -> op_wf op -> is_u64 slot -> Forall entry_wf recorded ->
  cleaned self -> l_lowest_cleanup_slot self' < slot ->
  (forall e, op = OpTransaction e -> tx_slot e <> slot) ->
  slot_state (l_db self) slot recorded -> slot_state (l_db self') slot recorded.
Proof.
  intros Hrun Hwf Hs Hall Hc Hlow Hne. destruct (run_op_effect _ _ _ _ Hrun Hc) as (_ & _ & Hf).
  apply (slot_state_frame _ _ _ _ _ Hf Hall).
  - intros i v Hi. destruct op as [e| | | | | |]; cbn; unfold of_transaction, of_block; [|naive_solver..| |].
    2, 3: intros [_ Hp]; by eapply (not_prunable _ SlotSignatures (slot, i)) in Hp.
    destruct Hwf as (_ & Hu & Hi'). intros [?|[(_ & E & _)|[[? _]|[? _]]]]; [done| |done..].
    apply SlotSignatures_key_inj in E as [? _]; try done. by apply (Hne e).
  - intros s v Hl. destruct op as [e| | | | | |]; cbn; unfold of_transaction, of_block; [|naive_solver..| |].
    2, 3: split; intros [_ Hp];
      [by eapply (not_prunable _ Transaction (s, slot)) in Hp|by eapply (not_prunable _ TransactionStatus (s, slot)) in Hp].
    destruct Hwf as (Hg & Hu & _).
    split; (intros [?|[[? _]|[[? E]|[? E]]]]; try done);
      apply TransactionStatus_key_inj in E as [_ ?]; try done; by apply (Hne e).
Qed.

(** A complete record of a new transaction of the slot adds it. *)
Lemma slot_state_recorded e self u self' recorded :
  run_op (OpTransaction e) self = (Ok u, self') -> entry_wf e -> Forall entry_wf recorded ->
  cleaned self -> tx_index e ∉ tx_index <$> recorded -> tx_signature e ∉ tx_signature <$> recorded ->
  slot_state (l_db self) (tx_slot e) recorded -> slot_state (l_db self') (tx_slot e) (recorded ++ [e]).
Proof.
  intros Hrun (Hg & Hs & Hi) Hall Hc Hni Hng [H1 H2 H3]. destruct (run_op_effect _ _ _ _ Hrun Hc) as (_ & _ & Hf).
  apply write_transaction_Ok in Hrun as (Hp & Ht & Hx). rewrite Forall_forall in Hall.
  assert (serialize_signature (tx_signature e) = tx_signature e) as Eg by apply (serialize_signature_raw _ Hg).
  assert (forall e', e' ∈ recorded -> TransactionStatus_key (tx_signature e', tx_slot e)
    <> TransactionStatus_key (tx_signature e, tx_slot e)) as Hk.
  { intros e' He' E. apply TransactionStatus_key_inj in E as [E _]; [|by apply Hall|done..].
    apply Hng. rewrite <-E. by apply list_elem_of_fmap_2. }
  split.
  - intros i s Hi'. setoid_rewrite elem_of_app. setoid_rewrite list_elem_of_singleton. unfold position.
    destruct (decide (i = tx_index e)) as [->|Hne].
    + rewrite Hp, Eg. split; [intros [= <-]; eauto|]. intros (e' & [He'| ->] & E & <-); [|done].
      exfalso. apply Hni. rewrite <-E. by apply list_elem_of_fmap_2.
    + rewrite (alters_frame _ _ _ _ _ Hf); cycle 1.
      { intros v. cbn. unfold of_transaction. intros [?|[(_ & E & _)|[[? _]|[? _]]]]; [done| |done..].
        by apply SlotSignatures_key_inj in E as [_ ?]. }
      unfold position in H1. rewrite H1 by done. naive_solver.
  - intros e' [He'| ->%list_elem_of_singleton]%elem_of_app; [|done]. rewrite (alters_frame _ _ _ _ _ Hf); [auto|].
    intros v. cbn. unfold of_transaction. specialize (Hk _ He'). naive_solver.
  - intros e' [He'| ->%list_elem_of_singleton]%elem_of_app; [|done]. rewrite (alters_frame _ _ _ _ _ Hf); [auto|].
    intros v. cbn. unfold of_transaction. specialize (Hk _ He'). naive_solver.
Qed.

(** What holds of the positions of any ledger the calls have written. *)
Definition positions_wf d : Prop := signatures_sized d /\ slots_keyed d.

Lemma run_op_positions op self r self' : run_op op self = (r, self') -> op_wf op -> cleaned self ->
  positions_wf (l_db self) -> positions_wf (l_db self').
Proof.
  intros Hrun Hwf Hcl [Hz Hk]. destruct (run_op_effect _ _ _ _ Hrun Hcl) as (_ & _ & H).
  assert (forall k, holds (l_db self') SlotSignatures k = holds (l_db self) SlotSignatures k \/
    holds (l_db self') SlotSignatures k = None \/
    length k = 12%nat /\ exists v, holds (l_db self') SlotSignatures k = Some v /\ length v = 64%nat) as Hc.
  { intros k. destruct (H SlotSignatures k) as [|Hp]; [by left|]. right.
    destruct op as [e| | | | | |]; cbn in Hp; unfold of_transaction, of_block in Hp; [|naive_solver..|by left; apply Hp|by left; apply Hp].
    right. destruct Hwf as (Hg & _). destruct Hp as [?|[(_ & -> & ->)|[[? _]|[? _]]]]; [done| |done..].
    split; [apply length_SlotSignatures_key|]. exists (tx_signature e).
    by rewrite (proj1 (serialize_signature_raw _ Hg)). }
  split; intros k v Hv; destruct (Hc k) as [E|[E|(Hl & v' & E & Hv')]]; rewrite E in Hv;
    [by eapply Hz|done|congruence|by eapply Hk|done|done].
Qed.

Lemma run_ops_positions ops self rs self' : run_ops ops self = (rs, self') -> Forall op_wf ops ->
  cleaned self -> positions_wf (l_db self) -> positions_wf (l_db self').
Proof.
  revert self rs. induction ops as [|op ops IH]; intros self rs; cbn [run_ops]; [by intros [= <- <-]|].
  destruct (run_op op self) as [r self1] eqn:E1, (run_ops ops self1) as [rs1 self2] eqn:E2. intros [= <- <-].
  intros [Hop Hops]%Forall_cons Hc Hp. apply (IH _ _ E2 Hops); [by eapply run_op_effect|by eapply run_op_positions].
Qed.

Lemma run_ops_cleaned ops self rs self' : run_ops ops self = (rs, self') -> cleaned self ->
  cleaned self' /\ l_lowest_cleanup_slot self <= l_lowest_cleanup_slot self'.
Proof.
  revert self rs. induction ops as [|op ops IH]; intros self rs; cbn [run_ops]; [intros [= <- <-]; split; [done|lia]|].
  destruct (run_op op self) as [r self1] eqn:E1, (run_ops ops self1) as [rs1 self2] eqn:E2. intros [= <- <-] Hc.
  destruct (run_op_effect _ _ _ _ E1 Hc) as (Hc1 & Hl1 & _). destruct (IH _ _ E2 Hc1). split; [done|lia].
Qed.

(** The calls about a slot succeeded. *)
Definition slot_succeeds slot (ops : list LedgerOp) (rs : list (result LedgerError unit)) : Prop :=
  Forall2 (fun op r => on_slot slot op -> r = Ok tt) ops rs.

Lemma op_about slot (op : LedgerOp) :
  (exists e, op = OpTransaction e /\ tx_slot e = slot) \/ forall e, op = OpTransaction e -> tx_slot e <> slot.
Proof. destruct op as [e| | | | | |]; [destruct (decide (tx_slot e = slot))|..]; naive_solver. Qed.

Lemma run_ops_state ops self rs self' slot recorded :
  run_ops ops self = (rs, self') -> Forall op_wf ops -> is_u64 slot -> Forall entry_wf recorded ->
  slot_succeeds slot ops rs -> cleaned self -> l_lowest_cleanup_slot self' < slot ->
  NoDup (tx_index <$> recorded ++ slot_entries slot ops) -> NoDup (tx_signature <$> recorded ++ slot_entries slot ops) ->
  slot_state (l_db self) slot recorded -> slot_state (l_db self') slot (recorded ++ slot_entries slot ops).
Proof.
  revert self rs recorded. induction ops as [|op ops IH]; intros self rs recorded; cbn [run_ops].
  { intros [= <- <-] _ _ _ _ _ _ _ _. by rewrite app_nil_r. }
  destruct (run_op op self) as [r self1] eqn:E1, (run_ops ops self1) as [rs1 self2] eqn:E2. intros [= <- <-].
  intros [Hop Hops]%Forall_cons Hs Hall [Hr Hrs]%Forall2_cons Hcl Hlow Hni Hng Hst.
  destruct (run_op_effect _ _ _ _ E1 Hcl) as (Hcl1 & _ & _). destruct (run_ops_cleaned _ _ _ _ E2 Hcl1) as [_ Hmono].
  destruct (op_about slot op) as [(e & -> & <-)|Hne].
  - assert (slot_entries (tx_slot e) (OpTransaction e :: ops) = e :: slot_entries (tx_slot e) ops) as Ee.
    { unfold slot_entries. cbn [omap list_omap]. by rewrite decide_True. }
    assert (recorded ++ e :: slot_entries (tx_slot e) ops = (recorded ++ [e]) ++ slot_entries (tx_slot e) ops) as Ea
      by (by rewrite <-app_assoc).
    rewrite Ee, Ea in Hni. rewrite Ee, Ea in Hng. rewrite Ee, Ea.
    apply (IH self1 rs1); try done.
    + apply Forall_app. split; [done|by apply Forall_singleton].
    + rewrite !fmap_app in Hni. rewrite !fmap_app in Hng. rewrite Hr in E1 by done. apply NoDup_app in Hni as (Hni & _ & _), Hng as (Hng & _ & _).
      apply NoDup_app in Hni as (_ & Hni & _), Hng as (_ & Hng & _).
      eapply slot_state_recorded; try done.
      * intros H. apply (Hni _ H). cbn. by left.
      * intros H. apply (Hng _ H). cbn. by left.
  - assert (slot_entries slot (op :: ops) = slot_entries slot ops) as Ee.
    { unfold slot_entries. cbn [omap list_omap]. destruct op; try done. by rewrite decide_False by eauto. }
    rewrite Ee in *. apply (IH self1 rs1); try done. eapply slot_state_other; try done. lia.
Qed.

(** The block of a slot. *)
Definition block_state d (block : LatestBlock) : Prop :=
  holds d Blocktime (SlotColumn_key (lb_slot block)) = Some (serialize_timestamp (lb_timestamp block)) /\
  holds d Blockhash (SlotColumn_key (lb_slot block)) = Some (serialize_hash (lb_blockhash block)).

Lemma block_entry_other op self r self' slot c : run_op op self = (r, self') -> op_wf op -> is_u64 slot ->
  cleaned self -> l_lowest_cleanup_slot self' < slot ->
  c = Blocktime \/ c = Blockhash -> (forall b, op = OpBlock b -> lb_slot b <> slot) ->
  holds (l_db self') c (SlotColumn_key slot) = holds (l_db self) c (SlotColumn_key slot).
Proof.
  intros Hrun Hwf Hs Hcl Hlow Hc Hne. destruct (run_op_effect _ _ _ _ Hrun Hcl) as (_ & _ & Hf).
  apply (alters_frame _ _ _ _ _ Hf). intros v.
  destruct op as [e|b| | | | |]; cbn; unfold of_transaction, of_block; [naive_solver| |naive_solver..| |].
  2, 3: intros [_ Hp]; destruct Hc as [-> | ->];
    [by eapply (not_prunable _ Blocktime slot) in Hp|by eapply (not_prunable _ Blockhash slot) in Hp].
  intros [_ E]. apply SlotColumn_key_inj in E as ->; [|done..]. by apply (Hne b).
Qed.

Lemma run_ops_block_kept ops self rs self' slot c :
  run_ops ops self = (rs, self') -> Forall op_wf ops -> is_u64 slot ->
  cleaned self -> l_lowest_cleanup_slot self' < slot -> c = Blocktime \/ c = Blockhash ->
  slot_blocks slot ops = [] -> holds (l_db self') c (SlotColumn_key slot) = holds (l_db self) c (SlotColumn_key slot).
Proof.
  revert self rs. induction ops as [|op ops IH]; intros self rs; cbn [run_ops]; [by intros [= <- <-]|].
  destruct (run_op op self) as [r self1] eqn:E1, (run_ops ops self1) as [rs1 self2] eqn:E2. intros [= <- <-].
  intros [Hop Hops]%Forall_cons Hs Hcl Hlow Hc Hn. unfold slot_blocks in Hn. cbn [omap list_omap] in Hn.
  destruct (run_op_effect _ _ _ _ E1 Hcl) as (Hcl1 & _ & _). destruct (run_ops_cleaned _ _ _ _ E2 Hcl1) as [_ Hmono].
  rewrite (IH _ _ E2); [|done..|].
  - eapply block_entry_other; try done; [lia|]. intros b ->. by case_decide.
  - destruct op; try done. by case_decide.
Qed.

Lemma run_ops_block ops self rs self' slot block :
  run_ops ops self = (rs, self') -> Forall op_wf ops -> is_u64 slot -> slot_succeeds slot ops rs ->
  cleaned self -> l_lowest_cleanup_slot self' < slot ->
  slot_blocks slot ops = [block] -> lb_slot block = slot /\ block_state (l_db self') block.
Proof.
  revert self rs. induction ops as [|op ops IH]; intros self rs; cbn [run_ops]; [done|].
  destruct (run_op op self) as [r self1] eqn:E1, (run_ops ops self1) as [rs1 self2] eqn:E2. intros [= <- <-].
  intros [Hop Hops]%Forall_cons Hs [Hr Hrs]%Forall2_cons Hcl Hlow Hb.
  destruct (run_op_effect _ _ _ _ E1 Hcl) as (Hcl1 & _ & _).
  assert ((op = OpBlock block /\ lb_slot block = slot /\ slot_blocks slot ops = []) \/ slot_blocks slot ops = [block])
    as [(-> & Hl & Hn)|Hb'].
  { unfold slot_blocks in *. destruct op as [|b| | | | |]; cbn [omap list_omap] in Hb; try by right.
    case_decide; [|by right]. injection Hb as -> Hn. by left. }
  - split; [done|]. rewrite Hr in E1 by done. apply write_block_Ok in E1 as (Ht & Hh & _).
    unfold block_state. rewrite Hl in *. by split; rewrite (run_ops_block_kept _ _ _ _ _ _ E2) by auto.
  - by eapply IH.
Qed.

(** ** The block served for a slot *)

(** A transaction as it is served. *)
Definition serves (e : Entry) (entry : VersionedTransaction * TransactionStatusMeta) : Prop :=
  bincode_deserialize (tx_encoded e) = Some entry.1 /\ meta_status entry.2 = meta_status (tx_status e).

(** The entries of a slot in the order of their indexes. *)
Definition in_index_order (sent : list Entry) : Prop := StronglySorted (fun a b => tx_index a < tx_index b) sent.

Lemma in_index_order_NoDup sent : in_index_order sent -> NoDup (tx_index <$> sent).
Proof.
  induction 1 as [|e sent Hs IH He]; cbn; constructor; [|done].
  intros (e' & E & He')%list_elem_of_fmap. rewrite Forall_forall in He. specialize (He _ He'). lia.
Qed.

Lemma slot_state_lists d slot recorded sent :
  slot_state d slot recorded -> recorded ≡ₚ sent -> in_index_order sent -> Forall entry_wf sent ->
  lists d slot Z.lt ((fun e => (tx_index e, tx_signature e)) <$> sent).
Proof.
  intros [Hp _ _] Hperm Hs Hwf. split.
  - by eapply StronglySorted_map, Hs.
  - intros i s. rewrite list_elem_of_fmap. rewrite Forall_forall in Hwf. split.
    + intros (e & [= -> ->] & He). assert (is_u32 (tx_index e)) by (by apply Hwf). split; [done|].
      apply Hp; [done|]. exists e. by rewrite Hperm.
    + intros [Hi (e & He & <- & <-)%Hp]; [|done]. exists e. by rewrite <-Hperm.
Qed.

(** The calls wrote a slot: its transactions, each at its own index, and its block, among any other
    calls and in any order. *)
Record slot_written slot (ops : list LedgerOp) self (rs : list (result LedgerError unit)) self' (sent : list Entry)
    (block : LatestBlock) : Prop := {
  sw_run : run_ops ops self = (rs, self');
  sw_wf : Forall op_wf ops;
  sw_slot : is_u64 slot;
  sw_succeeds : slot_succeeds slot ops rs;
  sw_sent : slot_entries slot ops ≡ₚ sent;
  sw_order : in_index_order sent;
  sw_signatures : NoDup (tx_signature <$> sent);
  sw_block : slot_blocks slot ops = [block];
  sw_hash : length (lb_blockhash block) = 32%nat;
  sw_positions : positions_wf (l_db self);
  sw_cleaned : cleaned self;
  sw_kept : l_lowest_cleanup_slot self' < slot;
  sw_fresh i : is_u32 i -> position (l_db self) slot i = None;
}.

Lemma slot_entries_wf slot ops : Forall op_wf ops -> Forall entry_wf (slot_entries slot ops).
Proof.
  intros Hwf. apply Forall_forall. intros e (op & Hop & He)%list_elem_of_omap. rewrite Forall_forall in Hwf.
  specialize (Hwf _ Hop). destruct op; try done. case_decide; [|done]. by injection He as ->.
Qed.

Lemma slot_written_state slot ops self rs self' sent block : slot_written slot ops self rs self' sent block ->
  slot_state (l_db self') slot sent /\ Forall entry_wf sent.
Proof.
  intros [Hrun Hwf Hs Hok Hsent Hord Hsig _ _ _ Hcl Hlow Hf].
  assert (Forall entry_wf sent) as Hall by (rewrite <-Hsent; by apply slot_entries_wf).
  split; [|done].
  assert (slot_state (l_db self') slot (slot_entries slot ops)) as [H1 H2 H3].
  { apply (run_ops_state ops self rs self' slot []); try done.
    - cbn [app]. rewrite Hsent. by apply in_index_order_NoDup.
    - cbn [app]. by rewrite Hsent.
    - split; [|by intros e ?%not_elem_of_nil..]. intros i s Hi. rewrite Hf by done. split; [done|].
      by intros (e & ?%not_elem_of_nil & _). }
  split.
  - intros i s Hi. rewrite H1 by done. by setoid_rewrite Hsent.
  - intros e He. apply H2. by rewrite Hsent.
  - intros e He. apply H3. by rewrite Hsent.
Qed.

Lemma stored_served d slot sent e : slot_state d slot sent -> e ∈ sent -> is_Some (bincode_deserialize (tx_encoded e)) ->
  exists entry, serves e entry /\ stored d slot (tx_signature e) entry.
Proof.
  intros [_ H2 H3] He [tx Htx]. destruct (generated_roundtrip (tx_status e)) as (m & Hm & Es).
  exists (tx, m). split; [done|]. exists (tx_encoded e), (generated_from (tx_status e)). auto.
Qed.

Lemma slot_served slot ops self rs self' sent block previous :
  slot_written slot ops self rs self' sent block ->
  Forall (fun e => is_Some (bincode_deserialize (tx_encoded e))) sent ->
  readable (l_db self') -> iterable (l_db self') -> available self' (saturating_sub slot 1) ->
  hash_at (l_db self') (saturating_sub slot 1) previous ->
  get_transaction_signatures_for_slot self' slot = Ok (tx_signature <$> sent) /\
  exists transactions, Forall2 serves (reverse sent) transactions /\
    get_block self' slot = Ok (Some {|
      cb_previous_blockhash := Hash_to_string previous; cb_blockhash := Hash_to_string (lb_blockhash block);
      cb_parent_slot := saturating_sub slot 1; cb_transactions := transactions; cb_block_time := Some (lb_timestamp block);
      cb_block_height := Some slot |}).
Proof.
  intros Hw Hde Hr Hi Hap Hp. destruct (slot_written_state _ _ _ _ _ _ _ Hw) as [Hst Hall].
  destruct Hw as [Hrun Hwf Hs Hok Hsent Hord Hsig Hblk Hlen Hpos Hcl Hlow Hf].
  destruct (run_ops_positions _ _ _ _ Hrun Hwf Hcl Hpos) as [Hz Hk].
  destruct (run_ops_cleaned _ _ _ _ Hrun Hcl) as [[Hu _] _].
  pose proof (slot_state_lists _ _ _ sent Hst (Permutation_refl _) Hord Hall) as Hlists.
  destruct (run_ops_block _ _ _ _ _ _ Hrun Hwf Hs Hok Hcl Hlow Hblk) as [<- [Htime Hhash]]. split.
  - unfold get_transaction_signatures_for_slot. destruct (listed_ascending _ _ Hi Hs Hz Hk) as (entries & He & ->).
    rewrite (lists_unique _ _ _ _ _ (fun _ _ => eq_refl) He Hlists). f_equal. rewrite <-list_fmap_compose. done.
  - apply lists_reverse in Hlists. rewrite <-fmap_reverse in Hlists.
    assert (exists transactions, Forall2 (fun e t => serves e t /\ stored (l_db self') (lb_slot block) (tx_signature e) t)
      (reverse sent) transactions) as [transactions Ht].
    { apply Forall_choice. apply Forall_forall. intros e He. rewrite elem_of_reverse in He. rewrite Forall_forall in Hde.
      exact (stored_served _ _ sent e Hst He (Hde _ He)). }
    exists transactions. split; [eapply Forall2_impl; [exact Ht|]; by intros ?? []|].
    eapply get_block_listed; try done.
    + unfold in_bounds, is_u64, U64_MAX in *. lia.
    + by right.
    + apply Forall2_fmap_l. eapply Forall2_impl; [exact Ht|]. by intros ?? [].
Qed.
End history.
