(* ===== verification/Executor.v ===== *)
(** * The executors: magicblock-processor/src/executor

    What an executor does with the commands it receives: the block history it moves between slots
    with, and, for a transaction, what is committed, recorded, notified and answered.  The SVM, the
    accounts database and the thread-local stash are called, not modelled: their answers for one
    transaction are the record [Answers].  [Svm] has the types of theirs the code handles. *)
From S2P Require Import Prelude Crypto Wire Columns Rocks Locks Scheduler Ledger.

(** ** What the SVM returns *)

Class Svm `{L : LedgerCodec} : Type := {
  AccountSharedData : Type;
  acc_privileged : AccountSharedData -> bool;
  acc_is_dirty : AccountSharedData -> bool;
  acc_confined : AccountSharedData -> bool;
  acc_lamports_changed : AccountSharedData -> bool;
  (** Return data, inner instructions and loaded addresses, which are only passed on. *)
  ReturnData : Type;
  InnerInstructions : Type;
  LoadedAddresses : Type;
  LoadedAddresses_default : LoadedAddresses;
  ScheduledTask : Type;
  (** A [TransactionStatusMeta] with these fields and the defaults for the others: the fee, the units
      consumed, the status, the balances before and after, the logs, the loaded addresses, the return
      data, the inner instructions. *)
  meta_new : Z -> option Z -> result TransactionError unit -> list Z -> list Z -> option (list string) ->
    LoadedAddresses -> option ReturnData -> option InnerInstructions -> TransactionStatusMeta;
}.

Class SvmLaws `{L : LedgerCodec} (V : Svm) : Prop := {
  meta_new_status fee units status pre post logs loaded returned inner :
    meta_status (meta_new fee units status pre post logs loaded returned inner) = status;
}.

Section processed.
Context `{V : Svm}.

(** [RollbackAccounts::FeePayerOnly], and any other. *)
Inductive RollbackAccounts : Type :=
| FeePayerOnly (account : AccountSharedData)
| OtherRollback.

Record ExecutedTransaction : Type := MkExecuted {
  ex_status : result TransactionError unit;
  ex_log_messages : option (list string);
  ex_executed_units : Z;
  ex_return_data : option ReturnData;
  ex_inner_instructions : option InnerInstructions;
  ex_total_fee : Z;
  ex_accounts : list (bytes * AccountSharedData);
  ex_rollback_accounts : RollbackAccounts;
}.

Record FeesOnlyTransaction : Type := MkFeesOnly {
  fo_load_error : TransactionError;
  fo_total_fee : Z;
  fo_rollback_accounts : RollbackAccounts;
}.

Inductive ProcessedTransaction : Type :=
| Executed (executed : ExecutedTransaction)
| FeesOnly (fees_only : FeesOnlyTransaction).

Definition processed_status (processed : ProcessedTransaction) : result TransactionError unit :=
  match processed with
  | Executed executed => ex_status executed
  | FeesOnly fees_only => Err (fo_load_error fees_only)
  end.

(** What the code around an executor answers for one transaction. *)
Record Answers : Type := MkAnswers {
  (** [process_compute_budget_instructions]. *)
  an_compute_budget : result TransactionError unit;
  (** [load_and_execute_sanitized_transactions]: the result and the balances it collected. *)
  an_output : result TransactionError ProcessedTransaction;
  an_balances : option (list (list Z) * list (list Z));
  (** [AccountsDb::insert_batch]. *)
  an_insert_batch : result string unit;
  (** The tasks in the thread-local stash. *)
  an_tasks : list ScheduledTask;
  (** [bincode::serialize] of the versioned transaction, and its loaded addresses. *)
  an_serialized : option bytes;
  an_loaded_addresses : LoadedAddresses;
}.

(** [link::transactions::TransactionStatus] *)
Record StatusUpdate : Type := MkStatusUpdate {
  su_slot : Z;
  su_index : Z;
  su_txn : ProcessableTransaction;
  su_meta : TransactionStatusMeta;
}.

(** [AccountWithSlot]: the slot, the account, and the signature of the transaction that caused it. *)
Record AccountUpdate : Type := MkAccountUpdate {
  au_slot : Z;
  au_pubkey : bytes;
  au_account : AccountSharedData;
  au_transaction : bytes;
}.

(** [TransactionSimulationResult] *)
Record SimulationResult : Type := MkSimulation {
  sr_result : result TransactionError unit;
  sr_units_consumed : Z;
  sr_logs : option (list string);
  sr_post_simulation_accounts : list (bytes * AccountSharedData);
  sr_return_data : option ReturnData;
  sr_inner_instructions : option InnerInstructions;
}.
End processed.

(** ** What an executor keeps, and what it does to the rest *)

Definition BLOCK_HISTORY_SIZE : nat := 32.

Record TransactionExecutor : Type := MkExecutor {
  e_block_history : gmap Z LatestBlock;
  (** [environment.blockhash] and [processor.slot]. *)
  e_blockhash : bytes;
  e_slot : Z;
}.

Record Effects `{V : Svm} `{R : Rocks} : Type := MkEffects {
  fx_ledger : Ledger;
  (** The batches handed to the accounts database. *)
  fx_batches : list (list (bytes * AccountSharedData));
  fx_account_updates : list AccountUpdate;
  fx_status_updates : list StatusUpdate;
  fx_tasks : list ScheduledTask;
  (** What was sent to the caller of an execution, and of a simulation. *)
  fx_replies : list (result TransactionError unit);
  fx_simulations : list SimulationResult;
  (** The failed ledger writes, which are logged. *)
  fx_failures : list (result LedgerError unit);
}.

Section setters.
Context `{V : Svm} `{R : Rocks}.
Implicit Types (fx : Effects).

Definition fx_with_ledger fx ledger : Effects :=
  MkEffects _ _ _ _ ledger (fx_batches fx) (fx_account_updates fx) (fx_status_updates fx) (fx_tasks fx) (fx_replies fx)
    (fx_simulations fx) (fx_failures fx).
Definition fx_with_batch fx batch : Effects :=
  MkEffects _ _ _ _ (fx_ledger fx) (fx_batches fx ++ [batch]) (fx_account_updates fx) (fx_status_updates fx) (fx_tasks fx)
    (fx_replies fx) (fx_simulations fx) (fx_failures fx).
Definition fx_with_updates fx updates : Effects :=
  MkEffects _ _ _ _ (fx_ledger fx) (fx_batches fx) (fx_account_updates fx ++ updates) (fx_status_updates fx) (fx_tasks fx)
    (fx_replies fx) (fx_simulations fx) (fx_failures fx).
Definition fx_with_status fx status : Effects :=
  MkEffects _ _ _ _ (fx_ledger fx) (fx_batches fx) (fx_account_updates fx) (fx_status_updates fx ++ [status]) (fx_tasks fx)
    (fx_replies fx) (fx_simulations fx) (fx_failures fx).
Definition fx_with_tasks fx tasks : Effects :=
  MkEffects _ _ _ _ (fx_ledger fx) (fx_batches fx) (fx_account_updates fx) (fx_status_updates fx) (fx_tasks fx ++ tasks)
    (fx_replies fx) (fx_simulations fx) (fx_failures fx).
Definition fx_with_reply fx reply : Effects :=
  MkEffects _ _ _ _ (fx_ledger fx) (fx_batches fx) (fx_account_updates fx) (fx_status_updates fx) (fx_tasks fx)
    (fx_replies fx ++ [reply]) (fx_simulations fx) (fx_failures fx).
Definition fx_with_simulation fx simulation : Effects :=
  MkEffects _ _ _ _ (fx_ledger fx) (fx_batches fx) (fx_account_updates fx) (fx_status_updates fx) (fx_tasks fx)
    (fx_replies fx) (fx_simulations fx ++ [simulation]) (fx_failures fx).
Definition fx_with_failure fx failure : Effects :=
  MkEffects _ _ _ _ (fx_ledger fx) (fx_batches fx) (fx_account_updates fx) (fx_status_updates fx) (fx_tasks fx)
    (fx_replies fx) (fx_simulations fx) (fx_failures fx ++ [failure]).
End setters.

(** ** mod.rs: the block history *)

Section history.
Implicit Types (self : TransactionExecutor) (block : LatestBlock).

(** The lowest key of a [BTreeMap]. *)
Definition first_key (m : gmap Z LatestBlock) : option Z :=
  match map_to_list m with
  | [] => None
  | (k, _) :: rest => Some (foldr (fun kv low => Z.min kv.1 low) k rest)
  end.

Definition pop_first (m : gmap Z LatestBlock) : gmap Z LatestBlock :=
  match first_key m with
  | Some k => delete k m
  | None => m
  end.

(** [while len >= BLOCK_HISTORY_SIZE { pop_first }]: each turn takes one entry, so as many turns as
    there are entries are enough. *)
Fixpoint pop_while_full (turns : nat) (m : gmap Z LatestBlock) : gmap Z LatestBlock :=
  match turns with
  | O => m
  | Datatypes.S turns => if (BLOCK_HISTORY_SIZE <=? size m)%nat then pop_while_full turns (pop_first m) else m
  end.

Definition register_new_block self block : TransactionExecutor :=
  let history := pop_while_full (size (e_block_history self)) (e_block_history self) in
  MkExecutor (<[lb_slot block := block]> history) (e_blockhash self) (e_slot self).

Definition apply_block self block : TransactionExecutor :=
  let slot := lb_clock_slot block in
  let self := register_new_block self block in
  MkExecutor (e_block_history self) (lb_blockhash block) slot.

(** A slot whose block before it is not known is left where it is. *)
Definition transition_to_slot self (slot : Z) : TransactionExecutor :=
  let prev_slot := saturating_sub slot 1 in
  match e_block_history self !! prev_slot with
  | None => self
  | Some block => MkExecutor (e_block_history self) (lb_blockhash block) slot
  end.

Definition TransactionExecutor_new (accountsdb_slot : Z) (blockhash : bytes) (initial_block : LatestBlock)
    : TransactionExecutor :=
  MkExecutor {[lb_slot initial_block := initial_block]} blockhash accountsdb_slot.

(** ForkGraph::relationship *)
Inductive BlockRelation : Type := Ancestor | Equal | Descendant.
Definition relationship (a b : Z) : BlockRelation :=
  match a ?= b with Lt => Ancestor | Gt => Descendant | Eq => Equal end.
End history.

(** ** processing.rs *)

Section processing.
Context `{V : Svm} `{J : Json} `{R : Rocks}.
Implicit Types (self : TransactionExecutor) (fx : Effects) (txn : IndexedTransaction) (answers : Answers).

(** The first confined account whose lamports changed. *)
Definition violated_account (accounts : list (bytes * AccountSharedData)) : option bytes :=
  fst <$> List.find (fun pa => acc_confined pa.2 && acc_lamports_changed pa.2) accounts.

Definition verify_account_states (processed : ProcessedTransaction) : ProcessedTransaction :=
  match processed with
  | FeesOnly _ => processed
  | Executed executed =>
      match ex_accounts executed with
      | [] => processed
      | (_, fee_payer_acc) :: _ =>
          if acc_privileged fee_payer_acc then processed
          else
            let logs := default [] (ex_log_messages executed) in
            let '(status, logs) :=
              match violated_account (ex_accounts executed) with
              | Some pubkey =>
                  (Err UnbalancedTransaction,
                   logs ++ [("Confined account " ++ bs58_encode pubkey ++ " has been illegally modified")%string])
              | None => (ex_status executed, logs)
              end in
            Executed {|
              ex_status := status; ex_log_messages := Some logs; ex_executed_units := ex_executed_units executed;
              ex_return_data := ex_return_data executed; ex_inner_instructions := ex_inner_instructions executed;
              ex_total_fee := ex_total_fee executed; ex_accounts := ex_accounts executed;
              ex_rollback_accounts := ex_rollback_accounts executed |}
      end
  end.

Definition process answers : result TransactionError ProcessedTransaction * option (list (list Z) * list (list Z)) :=
  match an_compute_budget answers with
  | Ok _ =>
      (match an_output answers with
       | Ok processed => Ok (verify_account_states processed)
       | failed => failed
       end, an_balances answers)
  | Err err => (Err err, None)
  | Panic => (Panic, None)
  end.

(** [transaction] is the causing transaction, for the subscribers, in execution mode. *)
Definition insert_and_notify self answers (accounts : list (bytes * AccountSharedData)) (transaction : option bytes)
    (privileged : bool) fx : result string unit * Effects :=
  let to_commit := filter (fun pa => privileged || acc_is_dirty pa.2 = true) accounts in
  match an_insert_batch answers with
  | Ok _ =>
      let fx := fx_with_batch fx to_commit in
      (Ok tt, match transaction with
              | None => fx
              | Some signature => fx_with_updates fx (map (fun pa => 
                  {| au_slot := e_slot self; au_pubkey := pa.1; au_account := pa.2; au_transaction := signature |}) accounts)
              end)
  | failed => (failed, fx)
  end.

Definition commit_accounts self answers (fee_payer : bytes) (processed : ProcessedTransaction)
    (transaction : option bytes) fx : result string unit * Effects :=
  let rollback accounts :=
    match accounts with
    | FeePayerOnly account => insert_and_notify self answers [(fee_payer, account)] transaction false fx
    | OtherRollback => (Ok tt, fx)
    end in
  match processed with
  | Executed executed =>
      if is_ok (ex_status executed) then
        let accounts := ex_accounts executed in
        let privileged := match accounts with (_, acc) :: _ => acc_privileged acc | [] => false end in
        insert_and_notify self answers accounts transaction privileged fx
      else rollback (ex_rollback_accounts executed)
  | FeesOnly fees_only => rollback (fo_rollback_accounts fees_only)
  end.

(** [transaction_balances]; the last vector of each. *)
Definition transaction_balances txn (balances : option (list (list Z) * list (list Z))) : list Z * list Z :=
  let count := length (pt_accounts (it_txn txn)) in
  match balances with
  | None => (replicate count 0, replicate count 0)
  | Some (pre, post) => (default (replicate count 0) (last pre), default (replicate count 0) (last post))
  end.

(** [SanitizedTransaction::get_account_locks_unchecked] *)
Definition writable_keys txn : list bytes := fst <$> filter (fun a : bytes * bool => a.2 = true) (pt_accounts (it_txn txn)).
Definition readonly_keys txn : list bytes := fst <$> filter (fun a : bytes * bool => a.2 = false) (pt_accounts (it_txn txn)).

Definition write_to_ledger answers txn (meta : TransactionStatusMeta) fx : result LedgerError unit * Effects :=
  let signature := pt_signature (it_txn txn) in
  let encoded := match pt_encoded (it_txn txn) with Some bytes => Some bytes | None => an_serialized answers end in
  match encoded with
  | None => (Err Serialize, fx_with_failure fx (Err Serialize))
  | Some encoded =>
      let '(result, ledger) :=
        write_transaction signature (it_slot txn) (it_index txn) (writable_keys txn) (readonly_keys txn) encoded meta
          (fx_ledger fx) in
      let fx := fx_with_ledger fx ledger in
      match result with
      | Ok _ => (Ok tt, fx_with_status fx ({|
          su_slot := it_slot txn; su_index := it_index txn; su_txn := it_txn txn; su_meta := meta |}))
      | failed => (failed, fx_with_failure fx failed)
      end
  end.

Definition processed_meta answers txn (processed : ProcessedTransaction) (balances : option (list (list Z) * list (list Z)))
    : TransactionStatusMeta :=
  let '(pre_balances, post_balances) := transaction_balances txn balances in
  match processed with
  | Executed executed =>
      meta_new (ex_total_fee executed) (Some (ex_executed_units executed)) (ex_status executed) pre_balances post_balances
        (ex_log_messages executed) (an_loaded_addresses answers) (ex_return_data executed) (ex_inner_instructions executed)
  | FeesOnly fees_only =>
      meta_new (fo_total_fee fees_only) None (Err (fo_load_error fees_only)) pre_balances post_balances None
        (an_loaded_addresses answers) None None
  end.

Definition record_transaction answers txn (processed : ProcessedTransaction) (balances : option (list (list Z) * list (list Z))) fx
    : result LedgerError unit * Effects :=
  write_to_ledger answers txn (processed_meta answers txn processed balances) fx.

Definition failure_meta txn (status : result TransactionError unit) (logs : option (list string)) : TransactionStatusMeta :=
  let count := length (pt_accounts (it_txn txn)) in
  meta_new 0 None status (replicate count 0) (replicate count 0) logs LoadedAddresses_default None None.

Definition record_failure answers txn (status : result TransactionError unit) (logs : option (list string)) fx : Effects :=
  (write_to_ledger answers txn (failure_meta txn status logs) fx).2.

(** The sender of a reply, if there is one, is in the mode of the transaction. *)
Definition reply txn (status : result TransactionError unit) fx : Effects :=
  match pt_mode (it_txn txn) with
  | ModeExecution true => fx_with_reply fx status
  | _ => fx
  end.

Definition handle_failure answers txn (err : TransactionError) (logs : option (list string)) fx : Effects :=
  let fx := reply txn (Err err) fx in
  record_failure answers txn (Err err) logs fx.

Definition execute self answers txn (persist : option bool) fx : may_panic Effects :=
  let '(result, balances) := process answers in
  match result with
  | Panic => Panic
  | Err err => Ok (handle_failure answers txn err None fx)
  | Ok processed =>
      let notify := match persist with None => true | Some _ => false end in
      fee_payer ← expect (head (pt_accounts (it_txn txn)));
      let transaction := if notify then Some (pt_signature (it_txn txn)) else None in
      let '(committed, fx) := commit_accounts self answers fee_payer.1 processed transaction fx in
      match committed with
      | Panic => Panic
      | Err err => Ok (handle_failure answers txn CommitCancelled (Some [err]) fx)
      | Ok _ =>
          let status := processed_status processed in
          let fx := if is_ok status && notify then fx_with_tasks fx (an_tasks answers) else fx in
          let fx := if default true persist then (record_transaction answers txn processed balances fx).2 else fx in
          Ok (reply txn status fx)
      end
  end.

Definition simulate answers (number_of_accounts : nat) fx : may_panic Effects :=
  match (process answers).1 with
  | Panic => Panic
  | Ok processed =>
      let status := processed_status processed in
      Ok (fx_with_simulation fx
        match processed with
        | Executed executed =>
            {| sr_result := status; sr_units_consumed := ex_executed_units executed; sr_logs := ex_log_messages executed;
               sr_post_simulation_accounts := take number_of_accounts (ex_accounts executed);
               sr_return_data := ex_return_data executed; sr_inner_instructions := ex_inner_instructions executed |}
        | FeesOnly _ =>
            {| sr_result := status; sr_units_consumed := 0; sr_logs := None; sr_post_simulation_accounts := [];
               sr_return_data := None; sr_inner_instructions := None |}
        end)
  | Err error => Ok (fx_with_simulation fx {|
      sr_result := Err error; sr_units_consumed := 0; sr_logs := None; sr_post_simulation_accounts := [];
      sr_return_data := None; sr_inner_instructions := None |})
  end.

(** ** mod.rs: the loop *)

(** A command for an executor: a transaction with the answers it will get, or a block. *)
Inductive ExecutorCommand : Type :=
| CmdTransaction (txn : IndexedTransaction) (answers : Answers)
| CmdBlock (block : LatestBlock).

Inductive ExecutorEvent : Type :=
(** A block from the subscription. *)
| ExBlockUpdate (block : LatestBlock)
(** The subscription lagged behind. *)
| ExLagged
| ExCommand (command : ExecutorCommand).

Definition executor_event (event : ExecutorEvent) self fx : may_panic (TransactionExecutor * Effects) :=
  match event with
  | ExBlockUpdate block => Ok (register_new_block self block, fx)
  | ExLagged => Ok (register_new_block self (l_latest_block (fx_ledger fx)), fx)
  | ExCommand (CmdBlock block) => Ok (apply_block self block, fx)
  | ExCommand (CmdTransaction txn answers) =>
      let self := if decide (it_slot txn <> e_slot self) then transition_to_slot self (it_slot txn) else self in
      fx ← match pt_mode (it_txn txn) with
           | ModeExecution _ => execute self answers txn None fx
           | Simulation => simulate answers (length (pt_accounts (it_txn txn))) fx
           | Replay ctx => execute self answers txn (Some (rp_persist ctx)) fx
           end;
      Ok (self, fx)
  end.
End processing.
