(* ===== verification/ExecutorInv.v ===== *)
(** * What executors do to the ledger

    An executed transaction is recorded by one ledger write with the status its caller is told; what
    reaches the accounts database; the block history. *)
From S2P Require Import Prelude Crypto Wire Columns Rocks Store Locks Scheduler Ledger LedgerInv Truncator TruncatorInv Blocks Executor.

Section records.
Context `{S : Solana} `{L : !LedgerCodec} `{V : !Svm} `{!SvmLaws V} `{J : Json} `{R : Rocks}.
Implicit Types (self : TransactionExecutor) (fx : Effects) (txn : IndexedTransaction) (answers : Answers) (e : Entry).

(** The bytes of a transaction: those it came with, else what serializing it gives. *)
Definition encoding answers txn : option bytes :=
  match pt_encoded (it_txn txn) with Some bytes => Some bytes | None => an_serialized answers end.

(** The record of a transaction. *)
Definition records answers txn e : Prop :=
  tx_signature e = pt_signature (it_txn txn) /\ tx_slot e = it_slot txn /\ tx_index e = it_index txn /\
  encoding answers txn = Some (tx_encoded e).

Definition entry_of txn (encoded : bytes) (meta : TransactionStatusMeta) : Entry :=
  {| tx_signature := pt_signature (it_txn txn); tx_slot := it_slot txn; tx_index := it_index txn;
     tx_writable := writable_keys txn; tx_readonly := readonly_keys txn; tx_encoded := encoded; tx_status := meta |}.

Definition status_of txn (meta : TransactionStatusMeta) : StatusUpdate :=
  {| su_slot := it_slot txn; su_index := it_index txn; su_txn := it_txn txn; su_meta := meta |}.

(** One write, when the transaction can be serialized, and a status update when it succeeds. *)
Lemma write_to_ledger_run answers txn meta fx encoded : encoding answers txn = Some encoded ->
  let e := entry_of txn encoded meta in
  let '(r, ledger) := run_op (OpTransaction e) (fx_ledger fx) in
  let fx' := (write_to_ledger answers txn meta fx).2 in
  records answers txn e /\ fx_ledger fx' = ledger /\ fx_replies fx' = fx_replies fx /\ fx_batches fx' = fx_batches fx /\
  fx_status_updates fx' = fx_status_updates fx ++ (if is_ok r then [status_of txn meta] else []) /\
  fx_failures fx' = fx_failures fx ++ (if is_ok r then [] else [r]).
Proof.
  intros He e. unfold write_to_ledger. change (match pt_encoded (it_txn txn) with Some bytes => _ | None => _ end)
    with (encoding answers txn). rewrite He. cbn [run_op e entry_of tx_signature tx_slot tx_index tx_writable tx_readonly
      tx_encoded tx_status].
  destruct (write_transaction _ _ _ _ _ _ _ (fx_ledger fx)) as [[u|err|] ledger]; cbn; rewrite ?app_nil_r; done.
Qed.

Lemma processed_meta_status answers txn processed balances :
  meta_status (processed_meta answers txn processed balances) = processed_status processed.
Proof.
  unfold processed_meta. destruct (transaction_balances txn balances). destruct processed; apply meta_new_status.
Qed.

Lemma reply_ledger txn status fx :
  fx_ledger (reply txn status fx) = fx_ledger fx /\ fx_batches (reply txn status fx) = fx_batches fx /\
  fx_status_updates (reply txn status fx) = fx_status_updates fx /\ fx_failures (reply txn status fx) = fx_failures fx.
Proof. unfold reply. by destruct (pt_mode _) as [|[]|]. Qed.

Lemma insert_and_notify_ledger self answers accounts transaction privileged fx r fx' :
  insert_and_notify self answers accounts transaction privileged fx = (r, fx') ->
  fx_ledger fx' = fx_ledger fx /\ fx_replies fx' = fx_replies fx /\ fx_status_updates fx' = fx_status_updates fx /\
  fx_failures fx' = fx_failures fx.
Proof. unfold insert_and_notify. destruct (an_insert_batch answers); intros [= <- <-]; [by destruct transaction|done|done]. Qed.

Lemma commit_accounts_ledger self answers fee_payer processed transaction fx r fx' :
  commit_accounts self answers fee_payer processed transaction fx = (r, fx') ->
  fx_ledger fx' = fx_ledger fx /\ fx_replies fx' = fx_replies fx /\ fx_status_updates fx' = fx_status_updates fx /\
  fx_failures fx' = fx_failures fx.
Proof.
  unfold commit_accounts. destruct processed as [executed|fees_only].
  - destruct (is_ok (ex_status executed)); [apply insert_and_notify_ledger|].
    destruct (ex_rollback_accounts executed); [apply insert_and_notify_ledger|by intros [= <- <-]].
  - destruct (fo_rollback_accounts fees_only); [apply insert_and_notify_ledger|by intros [= <- <-]].
Qed.

(** A transaction was recorded once, as [status], and its caller told this status. *)
Definition recorded answers txn (status : result TransactionError unit) fx fx' : Prop :=
  exists e r, records answers txn e /\ meta_status (tx_status e) = status /\ run_op (OpTransaction e) (fx_ledger fx) = (r, fx_ledger fx') /\
    fx_replies fx' = fx_replies fx ++
      (match pt_mode (it_txn txn) with ModeExecution true => [status] | _ => [] end) /\
    fx_status_updates fx' = fx_status_updates fx ++ (if is_ok r then [status_of txn (tx_status e)] else []) /\
    fx_failures fx' = fx_failures fx ++ (if is_ok r then [] else [r]).

Lemma handle_failure_recorded answers txn err logs fx encoded : encoding answers txn = Some encoded ->
  recorded answers txn (Err err) fx (handle_failure answers txn err logs fx).
Proof.
  intros He. unfold handle_failure, record_failure.
  destruct (reply_ledger txn (Err err) fx) as (El & _ & Es & Ef). set (fx1 := reply txn (Err err) fx) in *.
  pose proof (write_to_ledger_run answers txn (failure_meta txn (Err err) logs) fx1 encoded He) as H. cbv zeta in H.
  destruct (run_op _ (fx_ledger fx1)) as [r ledger] eqn:Erun in H. destruct H as (Hr & Hl & Hp & _ & Hs & Hf).
  eexists _, r. split_conj; [exact Hr|apply meta_new_status|by rewrite <-El, Hl|rewrite Hp|by rewrite Hs, Es|by rewrite Hf, Ef].
  unfold fx1, reply. destruct (pt_mode _) as [|[]|]; cbn; rewrite ?app_nil_r; done.
Qed.

Lemma execute_recorded self answers txn persist fx fx' encoded :
  execute self answers txn persist fx = Ok fx' -> encoding answers txn = Some encoded -> persist <> Some false ->
  exists status, recorded answers txn status fx fx'.
Proof.
  intros Hrun He Hp. unfold execute in Hrun. destruct (process answers) as [[processed|err|] balances]; [|by injection Hrun as <-; eexists; eapply handle_failure_recorded|done].
  apply bind_Ok in Hrun as (fee_payer & _ & Hrun).
  destruct (commit_accounts _ _ _ _ _ _) as [committed fx1] eqn:Ec.
  apply commit_accounts_ledger in Ec as (El & Er & Es & Ef). destruct committed as [u|err|]; [| |done].
  - assert (default true persist = true) as Ed by (by destruct persist as [[]|]). rewrite Ed in Hrun. injection Hrun as <-.
    set (fx2 := if _ && _ then _ else fx1).
    assert (fx_ledger fx2 = fx_ledger fx1 /\ fx_replies fx2 = fx_replies fx1 /\ fx_status_updates fx2 = fx_status_updates fx1 /\
      fx_failures fx2 = fx_failures fx1) as (El2 & Er2 & Es2 & Ef2) by (unfold fx2; by destruct (_ && _)).
    unfold record_transaction.
    pose proof (write_to_ledger_run answers txn (processed_meta answers txn processed balances) fx2 encoded He) as H.
    cbv zeta in H. destruct (run_op _ (fx_ledger fx2)) as [r ledger] eqn:Erun in H. destruct H as (Hr & Hl & Hp' & _ & Hs & Hf).
    destruct (reply_ledger txn (processed_status processed) (write_to_ledger answers txn
      (processed_meta answers txn processed balances) fx2).2) as (El3 & _ & Es3 & Ef3).
    exists (processed_status processed). eexists _, r.
    split_conj; [exact Hr|apply processed_meta_status|by rewrite El3, Hl, <-El, <-El2| |by rewrite Es3, Hs, Es2, Es|by rewrite Ef3, Hf, Ef2, Ef].
    unfold reply. destruct (pt_mode _) as [|[]|]; cbn; rewrite ?app_nil_r; by rewrite Hp', Er2, Er.
  - injection Hrun as <-. destruct (handle_failure_recorded answers txn CommitCancelled (Some [err]) fx1 encoded He)
      as (e & r & Hr & Hm & Hl & Hp' & Hs & Hf). exists (Err CommitCancelled), e, r. by rewrite <-El, <-Er, <-Es, <-Ef.
Qed.
End records.

(** ** What is committed *)

Section commits.
Context `{S : Solana} `{L : !LedgerCodec} `{V : !Svm} `{J : Json} `{R : Rocks}.
Implicit Types (self : TransactionExecutor) (fx : Effects) (txn : IndexedTransaction) (answers : Answers).

(** A batch of the accounts of a transaction that succeeded; or of nothing but its fee payer. *)
Definition success_batch answers (batch : list (bytes * AccountSharedData)) : Prop :=
  exists executed, (process answers).1 = Ok (Executed executed) /\ is_ok (ex_status executed) = true /\
    batch ⊆ ex_accounts executed /\
    match ex_accounts executed with
    | [] => True
    | (_, fee_payer_acc) :: _ =>
        acc_privileged fee_payer_acc = true \/
        Forall (fun pa => acc_confined pa.2 && acc_lamports_changed pa.2 = false) (ex_accounts executed)
    end.

Definition fee_payer_batch txn (batch : list (bytes * AccountSharedData)) : Prop :=
  Forall (fun pa => Some pa.1 = fst <$> head (pt_accounts (it_txn txn))) batch.

(** A transaction whose fee payer is not privileged does not succeed if it changed the lamports of a
    confined account. *)
Lemma verified_confined processed executed payer acc rest :
  verify_account_states processed = Executed executed -> is_ok (ex_status executed) = true ->
  ex_accounts executed = (payer, acc) :: rest -> acc_privileged acc = false ->
  Forall (fun pa => acc_confined pa.2 && acc_lamports_changed pa.2 = false) (ex_accounts executed).
Proof.
  unfold verify_account_states. destruct processed as [ex|fo]; [|done]. destruct (ex_accounts ex) as [|[k a] l] eqn:Ea.
  { intros [= <-]. by rewrite Ea. }
  destruct (acc_privileged a) eqn:Hpr.
  { intros [= <-] _. rewrite Ea. intros [= -> -> ->]. by rewrite Hpr. }
  destruct (violated_account _) as [pubkey|] eqn:Ev; intros [= <-]; cbn [ex_status ex_accounts]; [done|].
  intros _ _ _. unfold violated_account in Ev. destruct (List.find _ _) as [pa|] eqn:Ef; [done|].
  apply Forall_forall. intros pa Hpa. apply list_elem_of_In in Hpa. by apply (List.find_none _ _ Ef) in Hpa.
Qed.

Lemma insert_and_notify_batches self answers accounts transaction privileged fx r fx' :
  insert_and_notify self answers accounts transaction privileged fx = (r, fx') ->
  fx_batches fx' = fx_batches fx \/ exists batch, fx_batches fx' = fx_batches fx ++ [batch] /\ batch ⊆ accounts.
Proof.
  unfold insert_and_notify. destruct (an_insert_batch answers); intros [= <- <-]; [|by left|by left].
  right. eexists. split; [by destruct transaction|]. intros x Hx%list_elem_of_filter. apply Hx.
Qed.

Lemma commit_accounts_batches self answers fee_payer processed balances transaction fx r fx' txn :
  process answers = (Ok processed, balances) -> Some fee_payer = fst <$> head (pt_accounts (it_txn txn)) ->
  commit_accounts self answers fee_payer processed transaction fx = (r, fx') ->
  fx_batches fx' = fx_batches fx \/
  exists batch, fx_batches fx' = fx_batches fx ++ [batch] /\ (success_batch answers batch \/ fee_payer_batch txn batch).
Proof.
  intros Hpr Hf. assert (forall account, insert_and_notify self answers [(fee_payer, account)] transaction false fx = (r, fx') ->
    fx_batches fx' = fx_batches fx \/
    exists batch, fx_batches fx' = fx_batches fx ++ [batch] /\ (success_batch answers batch \/ fee_payer_batch txn batch)) as Hroll.
  { intros account [|(batch & E & Hb)]%insert_and_notify_batches; [by left|right]. exists batch. split; [done|right].
    apply Forall_forall. intros pa Hpa%Hb%list_elem_of_singleton. by subst pa. }
  unfold commit_accounts. destruct processed as [executed|fees_only].
  - destruct (is_ok (ex_status executed)) eqn:Eok.
    + intros [|(batch & E & Hb)]%insert_and_notify_batches; [by left|right]. exists batch. split; [done|left].
      exists executed. rewrite Hpr. split_conj; [done..|]. destruct (ex_accounts executed) as [|[k a] l] eqn:Ea; [done|].
      destruct (acc_privileged a) eqn:Hpv; [by left|right]. rewrite <-Ea. unfold process in Hpr.
      destruct (an_compute_budget answers); [|done..]. destruct (an_output answers) as [out| |]; [|done..].
      injection Hpr as Hv _. by eapply verified_confined.
    + destruct (ex_rollback_accounts executed); [apply Hroll|]. intros [= <- <-]. by left.
  - destruct (fo_rollback_accounts fees_only); [apply Hroll|]. intros [= <- <-]. by left.
Qed.

Lemma write_to_ledger_batches answers txn meta fx : fx_batches (write_to_ledger answers txn meta fx).2 = fx_batches fx.
Proof.
  unfold write_to_ledger. destruct (match pt_encoded _ with Some _ => _ | None => _ end); [|done].
  by destruct (write_transaction _ _ _ _ _ _ _ _) as [[] ledger].
Qed.

Lemma reply_batches txn status fx : fx_batches (reply txn status fx) = fx_batches fx.
Proof. unfold reply. by destruct (pt_mode _) as [|[]|]. Qed.

Lemma handle_failure_batches answers txn err logs fx : fx_batches (handle_failure answers txn err logs fx) = fx_batches fx.
Proof. unfold handle_failure, record_failure. by rewrite write_to_ledger_batches, reply_batches. Qed.

Lemma execute_batches self answers txn persist fx fx' : execute self answers txn persist fx = Ok fx' ->
  fx_batches fx' = fx_batches fx \/
  exists batch, fx_batches fx' = fx_batches fx ++ [batch] /\ (success_batch answers batch \/ fee_payer_batch txn batch).
Proof.
  unfold execute. destruct (process answers) as [[processed|err|] balances] eqn:Hpr; cycle 1; [|done|].
  { intros [= <-]. left. apply handle_failure_batches. }
  intros ([payer w] & Hf & Hrun)%bind_Ok. destruct (commit_accounts _ _ _ _ _ _) as [committed fx1] eqn:Ec.
  assert (Some payer = fst <$> head (pt_accounts (it_txn txn))) as Hpay.
  { destruct (head (pt_accounts (it_txn txn))); [|done]. by injection Hf as ->. }
  pose proof (commit_accounts_batches _ _ _ _ balances _ _ _ _ txn Hpr Hpay Ec) as Hb. destruct committed as [u|err|]; [| |done].
  - injection Hrun as <-. rewrite reply_batches. unfold record_transaction.
    destruct (default true persist); [rewrite write_to_ledger_batches|]; by destruct (_ && _).
  - injection Hrun as <-. by rewrite handle_failure_batches.
Qed.
End commits.

(** ** Replays that are not to be recorded *)

Section replays.
Context `{S : Solana} `{L : !LedgerCodec} `{V : !Svm} `{!SvmLaws V} `{J : Json} `{R : Rocks}.
Implicit Types (self : TransactionExecutor) (fx : Effects) (txn : IndexedTransaction) (answers : Answers).

(** One that processes and commits leaves no trace but its accounts. *)
Lemma replay_quiet self answers txn position fx fx' :
  execute self answers txn (Some false) fx = Ok fx' -> pt_mode (it_txn txn) = Replay position ->
  is_ok (process answers).1 = true -> an_insert_batch answers = Ok tt ->
  fx_ledger fx' = fx_ledger fx /\ fx_status_updates fx' = fx_status_updates fx /\
  fx_account_updates fx' = fx_account_updates fx /\ fx_replies fx' = fx_replies fx /\ fx_tasks fx' = fx_tasks fx.
Proof.
  unfold execute. intros Hrun Hm Hok Hi. destruct (process answers) as [[processed|err|] balances]; [|done..].
  apply bind_Ok in Hrun as (fee_payer & _ & Hrun). rewrite andb_false_r in Hrun. cbn [default] in Hrun.
  unfold reply in Hrun. rewrite Hm in Hrun.
  destruct (commit_accounts _ _ _ _ _ _) as [committed fx1] eqn:Ec.
  assert (committed = Ok tt /\ fx_ledger fx1 = fx_ledger fx /\ fx_status_updates fx1 = fx_status_updates fx /\
    fx_account_updates fx1 = fx_account_updates fx /\ fx_replies fx1 = fx_replies fx /\ fx_tasks fx1 = fx_tasks fx)
    as (-> & ? & ? & ? & ? & ?).
  { unfold commit_accounts, insert_and_notify in Ec. rewrite Hi in Ec.
    destruct processed as [executed|fees_only]; [destruct (is_ok _); [|destruct (ex_rollback_accounts _)]|
      destruct (fo_rollback_accounts _)]; by injection Ec as <- <-. }
  by injection Hrun as <-.
Qed.

(** A replay fails with [err]: it is not processed, or what it changed is not committed. *)
Definition replay_fails self answers txn fx (err : TransactionError) : Prop :=
  (process answers).1 = Err err \/
  err = CommitCancelled /\
  exists processed payer message, (process answers).1 = Ok processed /\ head (pt_accounts (it_txn txn)) = Some payer /\
    (commit_accounts self answers payer.1 processed None fx).1 = Err message.

(** One that fails is recorded in the ledger like any other. *)
Lemma failed_replay_recorded self answers txn fx fx' err encoded :
  execute self answers txn (Some false) fx = Ok fx' -> replay_fails self answers txn fx err ->
  encoding answers txn = Some encoded -> recorded answers txn (Err err) fx fx'.
Proof.
  unfold execute. intros Hrun [Hp|(-> & processed & payer & message & Hp & Hh & Hc)] He;
    destruct (process answers) as [[processed'|err'|] balances]; try done; cbn in Hp; simplify_eq.
  - by eapply handle_failure_recorded.
  - rewrite Hh in Hrun. cbn in Hrun. destruct (commit_accounts _ _ _ _ _ _) as [committed fx1] eqn:Ec.
    cbn in Hc. subst committed. injection Hrun as <-. apply commit_accounts_ledger in Ec as (El & Er & Es & Ef).
    destruct (handle_failure_recorded answers txn CommitCancelled (Some [message]) fx1 encoded He)
      as (e & r & Hr & Hm & Hl & Hp' & Hs & Hf). exists e, r. by rewrite <-El, <-Er, <-Es, <-Ef.
Qed.
End replays.

(** ** The block history *)

Section history.
Implicit Types (m : gmap Z LatestBlock) (self : TransactionExecutor).

Lemma first_key_elem m k : first_key m = Some k -> is_Some (m !! k).
Proof.
  unfold first_key. destruct (map_to_list m) as [|[k0 b0] l] eqn:E; [done|]. intros [= <-].
  assert (forall l', (forall x, x ∈ l' -> x ∈ map_to_list m) ->
    exists b, (foldr (fun kv low => Z.min kv.1 low) k0 l', b) ∈ map_to_list m) as H.
  { induction l' as [|[k1 b1] l' IH]; cbn [foldr]; intros Hl; [exists b0; rewrite E; by left|]. cbn [fst].
    destruct (Z.min_dec k1 (foldr (fun kv low => Z.min kv.1 low) k0 l')) as [->| ->]; [exists b1; apply Hl; by left|].
    apply IH. intros x Hx. apply Hl. by right. }
  destruct (H l) as [b Hb]; [intros x Hx; rewrite E; by right|]. exists b. by apply elem_of_map_to_list.
Qed.

Lemma size_pop_first m : (0 < size m)%nat -> size (pop_first m) = (size m - 1)%nat.
Proof.
  intros Hs. unfold pop_first. destruct (first_key m) as [k|] eqn:E.
  - apply first_key_elem in E as [b Hb]. rewrite map_size_delete, Hb. lia.
  - unfold first_key in E. destruct (map_to_list m) as [|[]] eqn:El; [|done].
    apply map_to_list_empty_iff in El as ->. by rewrite map_size_empty in Hs.
Qed.

Lemma size_pop_while_full turns m : (size m <= turns)%nat -> (size (pop_while_full turns m) < BLOCK_HISTORY_SIZE)%nat.
Proof.
  revert m. induction turns as [|turns IH]; intros m Hm; cbn [pop_while_full].
  - unfold BLOCK_HISTORY_SIZE. lia.
  - destruct (Nat.leb_spec BLOCK_HISTORY_SIZE (size m)) as [Hle|Hlt]; [|done].
    apply IH. rewrite size_pop_first; unfold BLOCK_HISTORY_SIZE in Hle; lia.
Qed.

(** The history never exceeds its size, and has the block that was registered last. *)
Lemma register_new_block_history self block :
  (size (e_block_history (register_new_block self block)) <= BLOCK_HISTORY_SIZE)%nat /\
  e_block_history (register_new_block self block) !! lb_slot block = Some block.
Proof.
  unfold register_new_block. cbn [e_block_history].
  pose proof (size_pop_while_full _ (e_block_history self) (le_n _)) as Hs. split; [|apply lookup_insert_eq].
  rewrite map_size_insert. destruct (_ !! _); unfold id; lia.
Qed.
End history.
