(* ===== verification/Node.v ===== *)
(** * The executors and the ledger together

    Any number of executors take their events in any order, among calls on the ledger by the rest of
    the node: the scheduler writing blocks, the receipt writer, the truncator, RocksDB.  What that
    does to the ledger is a run of ledger calls, one record for each executed transaction. *)
From S2P Require Import Prelude Crypto Wire Columns Rocks Store Locks Scheduler SchedulerInv Ledger LedgerInv Truncator TruncatorInv Blocks Executor ExecutorInv.

Section node.
Context `{S : Solana} `{L : !LedgerCodec} `{V : !Svm} `{J : Json} `{R : Rocks}.

Inductive NodeEvent : Type :=
| NodeExecutor (executor : nat) (event : ExecutorEvent)
| NodeLedger (op : LedgerOp).

Record NodeState : Type := MkNodeState { n_executors : list TransactionExecutor; n_effects : Effects }.

Definition node_event (event : NodeEvent) (st : NodeState) : may_panic NodeState :=
  match event with
  | NodeExecutor executor event =>
      self ← expect (n_executors st !! executor);
      '(self, fx) ← executor_event event self (n_effects st);
      Ok (MkNodeState (<[executor := self]> (n_executors st)) fx)
  | NodeLedger op =>
      let '(r, ledger) := run_op op (fx_ledger (n_effects st)) in
      let fx := fx_with_ledger (n_effects st) ledger in
      Ok (MkNodeState (n_executors st) (if is_ok r then fx else fx_with_failure fx r))
  end.

Fixpoint node_run (events : list NodeEvent) (st : NodeState) : may_panic NodeState :=
  match events with
  | [] => Ok st
  | event :: events => st ← node_event event st; node_run events st
  end.

Definition n_ledger (st : NodeState) : Ledger := fx_ledger (n_effects st).
Definition n_failures (st : NodeState) : list (result LedgerError unit) := fx_failures (n_effects st).

(** The transaction of an event, if it is one that may be recorded. *)
Definition command_of (event : NodeEvent) : option (IndexedTransaction * Answers) :=
  match event with
  | NodeExecutor _ (ExCommand (CmdTransaction txn answers)) =>
      match pt_mode (it_txn txn) with Simulation => None | _ => Some (txn, answers) end
  | _ => None
  end.

(** The ledger calls of an event. *)
Definition performs (event : NodeEvent) (ops : list LedgerOp) : Prop :=
  match event, command_of event with
  | NodeLedger op, _ => ops = [op]
  | _, None => ops = []
  | _, Some (txn, answers) =>
      (exists e, ops = [OpTransaction e] /\ records answers txn e) \/
      ops = [] /\ (encoding answers txn = None \/ executes (pt_mode (it_txn txn)) = false)
  end.
End node.

Section refinement.
Context `{S : Solana} `{L : !LedgerCodec} `{V : !Svm} `{!SvmLaws V} `{J : Json} `{R : Rocks}.
Implicit Types (st : NodeState).

Lemma write_to_ledger_unencoded answers txn meta fx : encoding answers txn = None ->
  fx_ledger (write_to_ledger answers txn meta fx).2 = fx_ledger fx.
Proof.
  intros He. unfold write_to_ledger.
  change (match pt_encoded (it_txn txn) with Some bytes => _ | None => _ end) with (encoding answers txn). by rewrite He.
Qed.

Lemma handle_failure_unencoded answers txn err logs fx : encoding answers txn = None ->
  fx_ledger (handle_failure answers txn err logs fx) = fx_ledger fx.
Proof.
  intros He. unfold handle_failure, record_failure. rewrite write_to_ledger_unencoded by done. apply reply_ledger.
Qed.

Lemma write_to_ledger_failures answers txn meta fx : exists extra,
  fx_failures (write_to_ledger answers txn meta fx).2 = fx_failures fx ++ extra.
Proof.
  unfold write_to_ledger. destruct (match pt_encoded _ with Some _ => _ | None => _ end); [|by eexists].
  destruct (write_transaction _ _ _ _ _ _ _ _) as [[] ledger]; [exists []; by rewrite app_nil_r|by eexists..].
Qed.

Lemma handle_failure_failures answers txn err logs fx : exists extra,
  fx_failures (handle_failure answers txn err logs fx) = fx_failures fx ++ extra.
Proof.
  unfold handle_failure, record_failure. destruct (reply_ledger txn (Err err) fx) as (_ & _ & _ & <-).
  apply write_to_ledger_failures.
Qed.

(** What some ledger calls answered shows in the failures. *)
Definition shows (rs : list (result LedgerError unit)) (failures failures' : list (result LedgerError unit)) : Prop :=
  exists extra, failures' = failures ++ extra /\ (extra = [] -> Forall (fun r => r = Ok tt) rs).

Lemma shows_one r failures failures' : failures' = failures ++ (if is_ok r then [] else [r]) -> shows [r] failures failures'.
Proof. intros ->. eexists. split; [done|]. destruct r as [[]| |]; cbn; [|done..]. intros _. by apply Forall_singleton. Qed.

Lemma shows_app rs rs' f f' f'' : shows rs f f' -> shows rs' f' f'' -> shows (rs ++ rs') f f''.
Proof.
  intros (x & -> & Hx) (y & -> & Hy). exists (x ++ y). split; [by rewrite app_assoc|].
  intros [-> ->]%app_nil. apply Forall_app. auto.
Qed.

(** What an execution does to the ledger: one record, or nothing. *)
Lemma execute_ledger self answers txn persist fx fx' : execute self answers txn persist fx = Ok fx' ->
  (exists e r, records answers txn e /\ run_op (OpTransaction e) (fx_ledger fx) = (r, fx_ledger fx') /\
     shows [r] (fx_failures fx) (fx_failures fx')) \/
  fx_ledger fx' = fx_ledger fx /\ shows [] (fx_failures fx) (fx_failures fx') /\
  (encoding answers txn = None \/ persist = Some false).
Proof.
  assert (forall fx1 fx2, fx_ledger fx1 = fx_ledger fx -> fx_failures fx1 = fx_failures fx ->
    (exists status, recorded answers txn status fx1 fx2) ->
    exists e r, records answers txn e /\ run_op (OpTransaction e) (fx_ledger fx) = (r, fx_ledger fx2) /\
      shows [r] (fx_failures fx) (fx_failures fx2)) as Hrec.
  { intros fx1 fx2 El Ef (status & e & r & Hr & _ & Hl & _ & _ & Hf). exists e, r. rewrite El in Hl. rewrite Ef in Hf.
    split_conj; [done..|by apply shows_one]. }
  assert (forall fx2, (exists extra, fx_failures fx2 = fx_failures fx ++ extra) -> shows [] (fx_failures fx) (fx_failures fx2)) as Hsh.
  { intros fx2 [extra E]. by exists extra. }
  intros Hrun. destruct (encoding answers txn) as [encoded|] eqn:He; cycle 1.
  - right. enough (fx_ledger fx' = fx_ledger fx /\ exists extra, fx_failures fx' = fx_failures fx ++ extra) as [E Hx] by auto.
    unfold execute in Hrun. destruct (process answers) as [[processed|err|] balances]; [| |done]; cycle 1.
    { injection Hrun as <-. split; [by apply handle_failure_unencoded|apply handle_failure_failures]. }
    apply bind_Ok in Hrun as (fee_payer & _ & Hrun). destruct (commit_accounts _ _ _ _ _ _) as [committed fx1] eqn:Ec.
    apply commit_accounts_ledger in Ec as (El & _ & _ & Ef). destruct committed as [u|err|]; [| |done]; injection Hrun as <-.
    + set (fxr := if default true persist then _ else _).
      destruct (reply_ledger txn (processed_status processed) fxr) as (-> & _ & _ & ->). unfold fxr. clear fxr.
      set (fx2 := if _ && _ then _ else fx1).
      assert (fx_ledger fx2 = fx_ledger fx /\ fx_failures fx2 = fx_failures fx) as [El2 Ef2]
        by (unfold fx2; by destruct (_ && _)).
      unfold record_transaction. destruct (default true persist); [|split; [done|exists []; by rewrite Ef2, app_nil_r]].
      rewrite write_to_ledger_unencoded, El2, <-Ef2 by done. split; [done|apply write_to_ledger_failures].
    + rewrite handle_failure_unencoded, El, <-Ef by done. split; [done|apply handle_failure_failures].
  - destruct (decide (persist = Some false)) as [->|Hp].
    + unfold execute in Hrun. destruct (process answers) as [[processed|err|] balances]; [| |done]; cycle 1.
      { injection Hrun as <-. left. apply (Hrec fx); [done..|]. by eexists; eapply handle_failure_recorded. }
      apply bind_Ok in Hrun as (fee_payer & _ & Hrun). destruct (commit_accounts _ _ _ _ _ _) as [committed fx1] eqn:Ec.
      apply commit_accounts_ledger in Ec as (El & _ & _ & Ef). destruct committed as [u|err|]; [| |done]; injection Hrun as <-.
      * right. rewrite andb_false_r. destruct (reply_ledger txn (processed_status processed) fx1) as (-> & _ & _ & E).
        split_conj; [done| |by right]. apply Hsh. exists []. by rewrite E, Ef, app_nil_r.
      * left. apply (Hrec fx1); [done..|]. by eexists; eapply handle_failure_recorded.
    + left. apply (Hrec fx); [done..|]. by eapply execute_recorded.
Qed.

Lemma executor_event_ops event i self fx self' fx' : executor_event event self fx = Ok (self', fx') ->
  exists ops rs, performs (NodeExecutor i event) ops /\ run_ops ops (fx_ledger fx) = (rs, fx_ledger fx') /\
    shows rs (fx_failures fx) (fx_failures fx').
Proof.
  assert (forall f : list (result LedgerError unit), shows [] f f) as Hnil by (intros f; exists []; by rewrite app_nil_r).
  destruct event as [block| |[txn answers|block]]; cbn [executor_event]; try (intros [= <- <-]; by exists [], []).
  intros (fx1 & Hrun & [= <- <-])%bind_Ok.
  assert (forall persist self, execute self answers txn persist fx = Ok fx1 ->
    (persist = Some false -> executes (pt_mode (it_txn txn)) = false) ->
    exists ops rs, ((exists e, ops = [OpTransaction e] /\ records answers txn e) \/
      ops = [] /\ (encoding answers txn = None \/ executes (pt_mode (it_txn txn)) = false)) /\
      run_ops ops (fx_ledger fx) = (rs, fx_ledger fx1) /\ shows rs (fx_failures fx) (fx_failures fx1)) as Hex.
  { intros persist self1 Hx Hm. destruct (execute_ledger _ _ _ _ _ _ Hx) as [(e & r & Hr & Ho & Hs)|(El & Hs & Hn)].
    - exists [OpTransaction e], [r]. split; [left; eauto|]. cbn [run_ops]. by rewrite Ho.
    - exists [], []. split; [right; split; [done|naive_solver]|]. by rewrite El. }
  unfold performs, command_of. destruct (pt_mode (it_txn txn)) eqn:Hm.
  - exists [], []. split; [done|]. unfold simulate in Hrun.
    destruct (process answers).1; [injection Hrun as <-|injection Hrun as <-|done]; done.
  - rewrite Hm. by apply (Hex None _ Hrun).
  - rewrite Hm. by apply (Hex _ _ Hrun).
Qed.

Lemma length_run_ops ops self rs self' : run_ops ops self = (rs, self') -> length rs = length ops.
Proof.
  revert self rs. induction ops as [|op ops IH]; intros self rs; cbn [run_ops]; [by intros [= <- <-]|].
  destruct (run_op op self) as [r selfa], (run_ops ops selfa) as [rsa selfb] eqn:E. intros [= <- <-]. cbn. by rewrite (IH _ _ E).
Qed.

Lemma run_ops_app ops ops' self rs self1 rs' self2 :
  run_ops ops self = (rs, self1) -> run_ops ops' self1 = (rs', self2) -> run_ops (ops ++ ops') self = (rs ++ rs', self2).
Proof.
  revert self rs. induction ops as [|op ops IH]; intros self rs; cbn [run_ops app]; [by intros [= <- <-] ->|].
  destruct (run_op op self) as [r selfa], (run_ops ops selfa) as [rsa selfb] eqn:E. intros [= <- <-] H.
  by rewrite (IH _ _ E H).
Qed.

(** A run of the node is a run of ledger calls. *)
Lemma node_run_ops events st st' : node_run events st = Ok st' ->
  exists opss rs, Forall2 performs events opss /\ run_ops (concat opss) (n_ledger st) = (rs, n_ledger st') /\
    shows rs (n_failures st) (n_failures st').
Proof.
  revert st. induction events as [|event events IH]; intros st; cbn [node_run].
  { intros [= <-]. exists [], []. split_conj; [done..|]. exists []. by rewrite app_nil_r. }
  intros (st1 & Hev & Hrun)%bind_Ok. destruct (IH _ Hrun) as (opss & rs & Hp & Hr & Hs).
  assert (exists ops rs1, performs event ops /\ run_ops ops (n_ledger st) = (rs1, n_ledger st1) /\
    shows rs1 (n_failures st) (n_failures st1)) as (ops & rs1 & Hp1 & Hr1 & Hs1).
  { destruct event as [i event|op]; cbn [node_event] in Hev.
    - apply bind_Ok in Hev as (self & _ & Hev). apply bind_Ok in Hev as ([self' fx] & Hx & [= <-]).
      by eapply executor_event_ops.
    - unfold n_ledger, n_failures. destruct (run_op op (fx_ledger (n_effects st))) as [r ledger] eqn:Eop. injection Hev as <-.
      exists [op], [r]. cbn [run_ops]. rewrite Eop. split_conj; [done| |].
      + by destruct (is_ok r).
      + apply shows_one. destruct (is_ok r); [by rewrite app_nil_r|done]. }
  exists (ops :: opss), (rs1 ++ rs). split; [by apply List.Forall2_cons|]. cbn [concat].
  split; [by eapply run_ops_app|by eapply shows_app].
Qed.
End refinement.

(** ** A slot of a node *)

Section slot.
Context `{S : Solana} `{L : !LedgerCodec} `{!LedgerCodecLaws L} `{V : !Svm} `{!SvmLaws V} `{J : Json} `{R : Rocks} `{!RocksLaws R}.
Implicit Types (st : NodeState) (slot : Z) (events : list NodeEvent).

(** What was given to the executors for a slot, other than simulations. *)
Definition executed_in slot events : list IndexedTransaction :=
  filter (fun txn => it_slot txn = slot) (omap (fun event => fst <$> command_of event) events).

Definition node_op (event : NodeEvent) : option LedgerOp :=
  match event with NodeLedger op => Some op | _ => None end.

Definition txn_sized (txn : IndexedTransaction) : Prop :=
  length (pt_signature (it_txn txn)) = 64%nat /\ is_u64 (it_slot txn) /\ is_u32 (it_index txn).

(** Only executors record transactions; what travels has its size. *)
Definition event_sized (event : NodeEvent) : Prop :=
  match event with
  | NodeLedger (OpTransaction _) => False
  | NodeLedger op => op_wf op
  | _ => match command_of event with Some (txn, _) => txn_sized txn | None => True end
  end.

(** The record of a transaction that came with its bytes. *)
Definition recorded_as (txn : IndexedTransaction) (e : Entry) : Prop :=
  tx_signature e = pt_signature (it_txn txn) /\ tx_slot e = it_slot txn /\ tx_index e = it_index txn /\
  pt_encoded (it_txn txn) = Some (tx_encoded e).

Lemma records_recorded answers txn e : records answers txn e -> is_Some (pt_encoded (it_txn txn)) -> recorded_as txn e.
Proof. intros (? & ? & ? & He) [w Hw]. unfold encoding in He. rewrite Hw in He. unfold recorded_as. by rewrite Hw. Qed.

(** The records of a slot are those of what was given to the executors for it. *)
Lemma performed_slot slot events opss :
  Forall2 performs events opss -> Forall event_sized events ->
  Forall (fun txn => is_execution txn /\ is_Some (pt_encoded (it_txn txn))) (executed_in slot events) ->
  Forall op_wf (concat opss) /\ Forall2 recorded_as (executed_in slot events) (slot_entries slot (concat opss)) /\
  slot_blocks slot (concat opss) = slot_blocks slot (omap node_op events).
Proof.
  unfold executed_in. induction 1 as [|event ops events opss Hp _ IH]; [done|]. cbn [omap list_omap].
  intros [Hz Hzs]%Forall_cons Hx. cbn [concat].
  destruct event as [i event|op]; cycle 1.
  { cbn in Hp. subst ops. destruct (IH Hzs Hx) as (IH1 & IH2 & IH3). cbn [node_op app]. split_conj.
    - constructor; [|done]. by destruct op.
    - unfold slot_entries in *. cbn [omap list_omap]. by destruct op.
    - unfold slot_blocks in *. cbn [omap list_omap]. rewrite IH3. done. }
  cbn [node_op]. unfold performs in Hp.
  assert (match command_of (NodeExecutor i event) with Some (txn, _) => txn_sized txn | None => True end) as Hz' by (by destruct event).
  clear Hz. destruct (command_of (NodeExecutor i event)) as [[txn answers]|] eqn:Ec; cbn [fmap option_fmap option_map fst] in Hx |- *; cycle 1.
  { subst ops. by apply IH. }
  rewrite filter_cons in Hx. rewrite filter_cons. destruct (decide (it_slot txn = slot)) as [Hs|Hs].
  - apply Forall_cons in Hx as [[Hex Hen] Hx]. destruct (IH Hzs Hx) as (IH1 & IH2 & IH3).
    destruct Hp as [(e & -> & Hr)|[_ [Hn|Hn]]]; [|by destruct Hen as [w Hw]; unfold encoding in Hn; rewrite Hw in Hn|unfold is_execution in Hex; congruence].
    pose proof (records_recorded _ _ _ Hr Hen) as Hrec. destruct Hr as (E1 & E2 & E3 & _). cbn [app]. split_conj.
    + constructor; [|done]. cbn. unfold entry_wf. by rewrite E1, E2, E3.
    + unfold slot_entries in *. cbn [omap list_omap]. rewrite decide_True by congruence. by apply List.Forall2_cons.
    + exact IH3.
  - destruct (IH Hzs Hx) as (IH1 & IH2 & IH3). destruct Hp as [(e & -> & E1 & E2 & E3 & _)|[-> _]]; [|done].
    cbn [app]. split_conj.
    + constructor; [|done]. cbn. unfold entry_wf. by rewrite E1, E2, E3.
    + unfold slot_entries in *. cbn [omap list_omap]. rewrite decide_False by congruence. done.
    + exact IH3.
Qed.

(** A node ran a slot: the executors were given what was dispatched in it, its block was written, no
    write failed. *)
Record slot_run slot events st st' (dispatched : list IndexedTransaction) (block : LatestBlock) : Prop := {
  sr_run : node_run events st = Ok st';
  sr_failures : n_failures st' = n_failures st;
  sr_sized : Forall event_sized events;
  sr_executed : executed_in slot events ≡ₚ dispatched;
  sr_encoded : Forall (fun txn => is_execution txn /\ is_Some (pt_encoded (it_txn txn))) dispatched;
  sr_signatures : NoDup ((fun txn => pt_signature (it_txn txn)) <$> dispatched);
  sr_block : slot_blocks slot (omap node_op events) = [block];
  sr_slot : is_u64 slot;
  sr_hash : length (lb_blockhash block) = 32%nat;
  sr_positions : positions_wf (l_db (n_ledger st));
  sr_cleaned : cleaned (n_ledger st);
  sr_kept : l_lowest_cleanup_slot (n_ledger st') < slot;
  sr_fresh i : is_u32 i -> position (l_db (n_ledger st)) slot i = None;
}.

Lemma numbered_in_order (sent : list Entry) (from : Z) :
  (forall i e, sent !! i = Some e -> tx_index e = from + Z.of_nat i) -> in_index_order sent.
Proof.
  revert from. induction sent as [|e sent IH]; intros from H; constructor.
  - apply (IH (from + 1)). intros i e' Hi. rewrite (H (Datatypes.S i) e' Hi). lia.
  - apply Forall_forall. intros e' [i Hi]%list_elem_of_lookup. rewrite (H 0%nat e eq_refl), (H (Datatypes.S i) e' Hi). lia.
Qed.

(** Its ledger calls wrote the slot, in the order of dispatch. *)
Lemma slot_run_written slot events st st' dispatched block : slot_run slot events st st' dispatched block ->
  (forall i txn, dispatched !! i = Some txn -> it_index txn = Z.of_nat i) ->
  exists ops rs sent, Forall2 recorded_as dispatched sent /\ slot_written slot ops (n_ledger st) rs (n_ledger st') sent block.
Proof.
  intros [Hrun Hfail Hz Hx He Hsig Hb Hs Hh Hpos Hc Hk Hf] Ho.
  destruct (node_run_ops _ _ _ Hrun) as (opss & rs & Hp & Hr & extra & Hshow & Hok). exists (concat opss), rs.
  destruct (performed_slot slot events opss Hp Hz) as (Hwf & Hrec & Hblk); [by rewrite Hx|].
  destruct (Permutation_Forall2 Hx Hrec) as (sent & Hperm & Hsent). exists sent. split; [done|].
  rewrite Hfail in Hshow. rewrite <-(app_nil_r (n_failures st)) in Hshow at 1. apply app_inv_head in Hshow as <-.
  split; try done.
  - assert (length rs = length (concat opss)) as Hlen by (by eapply length_run_ops).
    specialize (Hok eq_refl). clear -Hok Hlen. revert rs Hok Hlen. induction (concat opss) as [|op ops IH]; intros [|r rs] Hok Hlen;
      [apply List.Forall2_nil|done|done|]. apply Forall_cons in Hok as [Hr Hok]. apply List.Forall2_cons; [done|].
    apply IH; [done|by injection Hlen].
  - apply (numbered_in_order sent 0). intros i e Hi. destruct (Forall2_lookup_r _ _ _ _ _ Hsent Hi) as (t & Ht & _ & _ & E & _).
    rewrite E, (Ho _ _ Ht). lia.
  - assert (tx_signature <$> sent = (fun txn => pt_signature (it_txn txn)) <$> dispatched) as ->; [|done].
    clear -Hsent. induction Hsent as [|t e ts es (E & _) _ IH]; [done|]. cbn. by rewrite E, IH.
  - by rewrite Hblk.
Qed.
End slot.
