(* ===== verification/Replay.v ===== *)
(** * Replaying the ledger: magicblock-ledger/src/blockstore_processor/mod.rs

    At startup the blocks of the ledger are read in order and the transactions that had succeeded
    sent to the scheduler again.  What the scheduler's queue answers to a request is an argument. *)
From S2P Require Import Prelude Crypto Wire Columns Rocks Store Locks Scheduler Ledger LedgerInv Truncator TruncatorInv Blocks.

(** A request of [TransactionSchedulerHandle::replay]. *)
Record ReplayRequest : Type := MkReplayRequest { rq_position : ReplayPosition; rq_txn : SanitizedTransaction }.

Record PreparedBlock `{S : Solana} : Type := MkPrepared {
  pb_slot : Z;
  pb_blockhash : bytes;
  pb_block_time : option Z;
  pb_transactions : list VersionedTransaction;
}.

Section replay.
Context `{S : Solana} `{L : !LedgerCodec} `{J : Json} `{R : Rocks}.
Implicit Types (ledger : Ledger) (sent : list ReplayRequest).

(** Whether the queue takes a request. *)
Variable queued : ReplayRequest -> bool.

Definition successful_transactions (full_process_starting_slot slot : Z) (block : VersionedConfirmedBlock)
    : list VersionedTransaction :=
  if full_process_starting_slot <=? slot
  then map fst (filter (fun tx => is_ok (meta_status tx.2) = true) (cb_transactions block))
  else [].

(** What the loop makes of a block before it runs it. *)
Definition prepare_block (full_process_starting_slot slot : Z) (block : VersionedConfirmedBlock)
    : result LedgerError (PreparedBlock * Z) :=
  _ ← match cb_block_height block with
      | Some block_height => ensure (bool_decide (slot = block_height)) BlockStoreProcessor
      | None => Ok tt
      end;
  let successfull_txs := successful_transactions full_process_starting_slot slot block in
  blockhash ← ok_or (Hash_from_str (cb_blockhash block)) BlockStoreProcessor;
  let prepared := {| pb_slot := slot; pb_blockhash := blockhash; pb_block_time := cb_block_time block;
                     pb_transactions := successfull_txs |} in
  timestamp ← ok_or (pb_block_time prepared) BlockStoreProcessor;
  Ok (prepared, timestamp).

(** One turn of the loop over the transactions; the requests queued so far stay queued. *)
Fixpoint replay_transactions (slot : Z) (txns : list VersionedTransaction) sent
    : result LedgerError unit * list ReplayRequest :=
  match txns with
  | [] => (Ok tt, sent)
  | txn :: txns =>
      match head (tx_signatures txn), tx_sanitize_unverified txn with
      | None, _ | _, Panic => (Panic, sent)
      | _, Err _ => (Err BlockStoreProcessor, sent)
      | Some _, Ok sanitized =>
          let request := MkReplayRequest (MkReplay slot 0 false) sanitized in
          if queued request then replay_transactions slot txns (sent ++ [request])
          else (Err BlockStoreProcessor, sent)
      end
  end.

(** Each turn reads one block, so fuel for the blocks from the first one on and one more is
    enough. *)
Fixpoint replay_blocks (fuel : nat) (full_process_starting_slot slot : Z) ledger sent
    : result LedgerError Z * (Ledger * list ReplayRequest) :=
  match fuel with
  | O => (Panic, (ledger, sent))
  | Datatypes.S fuel =>
      match get_block ledger slot with
      | Panic => (Panic, (ledger, sent))
      | Err _ | Ok None => (Ok (wrap64 (slot + 1)), (ledger, sent))
      | Ok (Some block) =>
          match prepare_block full_process_starting_slot slot block with
          | Panic => (Panic, (ledger, sent))
          | Err e => (Err e, (ledger, sent))
          | Ok (prepared, timestamp) =>
              let ledger := LatestBlock_store ledger (LatestBlock_new (pb_slot prepared) (pb_blockhash prepared) timestamp) in
              match replay_transactions (pb_slot prepared) (reverse (pb_transactions prepared)) sent with
              | (Ok _, sent) => replay_blocks fuel full_process_starting_slot (wrap64 (slot + 1)) ledger sent
              | (Err e, sent) => (Err e, (ledger, sent))
              | (Panic, sent) => (Panic, (ledger, sent))
              end
          end
      end
  end.

(** [drained] is the answer of [wait_for_replay_drain]. *)
Definition process_ledger (fuel : nat) ledger (full_process_starting_slot max_age : Z) (drained : bool)
    : result LedgerError Z * (Ledger * list ReplayRequest) :=
  let requested_blockhash_start := saturating_sub full_process_starting_slot max_age in
  match get_lowest_slot ledger with
  | Err e => (Err e, (ledger, []))
  | Panic => (Panic, (ledger, []))
  | Ok None => (Ok full_process_starting_slot, (ledger, []))
  | Ok (Some lowest_ledger_slot) =>
      let blockhashes_only_starting_slot := Z.max requested_blockhash_start lowest_ledger_slot in
      match replay_blocks fuel full_process_starting_slot blockhashes_only_starting_slot ledger [] with
      | (Ok slot, (ledger, sent)) => (if drained then Ok slot else Err BlockStoreProcessor, (ledger, sent))
      | failed => failed
      end
  end.
End replay.

(** ** A contiguous range of blocks *)

Section contiguous.
Context `{S : Solana} `{L : !LedgerCodec} `{J : Json} `{R : Rocks}.
Implicit Types (ledger : Ledger) (sent : list ReplayRequest) (queued : ReplayRequest -> bool).

(** The requests for the transactions of a slot, in the order in which they ran. *)
Definition requests_of slot (txns : list SanitizedTransaction) : list ReplayRequest :=
  MkReplayRequest (MkReplay slot 0 false) <$> txns.

(** A transaction of a block that can be run again. *)
Definition sanitizes (txn : VersionedTransaction) (s : SanitizedTransaction) : Prop :=
  is_Some (head (tx_signatures txn)) /\ tx_sanitize_unverified txn = Ok s.

(** A block with its hash and time, and what running it sends. *)
Record replayable full slot (block : VersionedConfirmedBlock) (latest : LatestBlock) (txns : list SanitizedTransaction) : Prop := {
  rb_height : cb_block_height block = Some slot;
  rb_hash : Hash_from_str (cb_blockhash block) = Some (lb_blockhash latest);
  rb_time : cb_block_time block = Some (lb_timestamp latest);
  rb_latest : latest = LatestBlock_new slot (lb_blockhash latest) (lb_timestamp latest);
  rb_transactions : Forall2 sanitizes (reverse (successful_transactions full slot block)) txns;
}.

Lemma replay_transactions_sent queued slot txns sanitized sent :
  Forall2 sanitizes txns sanitized -> Forall (fun r => queued r = true) (requests_of slot sanitized) ->
  replay_transactions queued slot txns sent = (Ok tt, sent ++ requests_of slot sanitized).
Proof.
  intros Ht. revert sent. induction Ht as [|txn s txns sanitized [[first Hf] Hs] _ IH]; intros sent Hq.
  { cbn. by rewrite app_nil_r. }
  apply Forall_cons in Hq as [Hq1 Hq]. cbn [replay_transactions]. rewrite Hf, Hs. cbn in Hq1. rewrite Hq1, IH by done.
  cbn. by rewrite <-app_assoc.
Qed.

Lemma prepare_replayable full slot block latest txns : replayable full slot block latest txns ->
  prepare_block full slot block =
    Ok (MkPrepared _ slot (lb_blockhash latest) (Some (lb_timestamp latest)) (successful_transactions full slot block),
        lb_timestamp latest).
Proof.
  intros [Hh Hb Ht _ _]. unfold prepare_block. rewrite Hh, bool_decide_eq_true_2 by done. cbn [ensure].
  rewrite bind_of_ok, Hb. cbn [ok_or]. rewrite bind_of_ok, Ht. done.
Qed.

(** Storing the latest block changes nothing that is read of the columns. *)
Lemma get_block_stored ledger block slot : get_block (LatestBlock_store ledger block) slot = get_block ledger slot.
Proof. done. Qed.

Definition store_all ledger (blocks : list LatestBlock) : Ledger := foldl LatestBlock_store ledger blocks.

(** A range of blocks is replayed up to the first slot that has none, and the loop ends. *)
Lemma replay_blocks_run queued full blocks fuel slot ledger sent :
  (forall i b latest txns, blocks !! i = Some (b, latest, txns) ->
     get_block ledger (slot + Z.of_nat i) = Ok (Some b) /\ replayable full (slot + Z.of_nat i) b latest txns /\
     Forall (fun r => queued r = true) (requests_of (slot + Z.of_nat i) txns)) ->
  (get_block ledger (slot + Z.of_nat (length blocks)) = Ok None \/
   exists e, get_block ledger (slot + Z.of_nat (length blocks)) = Err e) ->
  0 <= slot -> slot + Z.of_nat (length blocks) + 1 < 2 ^ 64 -> (length blocks < fuel)%nat ->
  replay_blocks queued fuel full slot ledger sent =
    (Ok (slot + Z.of_nat (length blocks) + 1),
     (store_all ledger (map (fun x => x.1.2) blocks),
      sent ++ concat (imap (fun i x => requests_of (slot + Z.of_nat i) x.2) blocks))).
Proof.
  revert fuel slot ledger sent. induction blocks as [|[[b latest] txns] blocks IH]; intros [|fuel] slot ledger sent Hb He H0 Hend Hf;
    cbn [length] in *; try lia.
  - cbn [replay_blocks]. replace (slot + Z.of_nat 0) with slot in * by lia.
    rewrite wrap64_small by (unfold is_u64; lia). cbn. rewrite app_nil_r. by destruct He as [->|[e ->]].
  - destruct (Hb 0%nat b latest txns eq_refl) as (Hg & Hr & Hq). replace (slot + Z.of_nat 0) with slot in * by lia.
    cbn [replay_blocks]. rewrite Hg, (prepare_replayable _ _ _ _ _ Hr). cbn [pb_slot pb_blockhash pb_transactions].
    rewrite (replay_transactions_sent _ _ _ txns) by (done || apply Hr). rewrite <-(rb_latest _ _ _ _ _ Hr).
    rewrite wrap64_small by (unfold is_u64; lia). rewrite IH; try lia.
    + rewrite imap_cons. cbn [concat map fst snd store_all foldl]. rewrite <-app_assoc.
      replace (slot + Z.of_nat 0) with slot by lia.
      replace (slot + 1 + Z.of_nat (length blocks) + 1) with (slot + Z.of_nat (Datatypes.S (length blocks)) + 1) by lia.
      do 5 f_equal. apply imap_ext. intros i x _. cbn. f_equal. lia.
    + intros i b' latest' txns' Hi. rewrite get_block_stored. replace (slot + 1 + Z.of_nat i) with (slot + Z.of_nat (Datatypes.S i)) by lia.
      by apply Hb.
    + rewrite get_block_stored. replace (slot + 1 + Z.of_nat (length blocks)) with (slot + Z.of_nat (Datatypes.S (length blocks))) by lia.
      done.
Qed.
End contiguous.
