(* ===== verification/Ingress.v ===== *)
(** * Where transactions enter a node: magicblock-aperture and the scheduler's handle

    The replay cache, the attack rig and the three handlers that take a transaction or a commitment
    from a client, together with the handle internal producers use.  A handler is asynchronous: it is
    written as a program of the small monad [prog], whose calls are the points at which handlers
    touch shared state or wait, and where any other handler may run in between. *)
From S2P Require Import Prelude Constants Crypto Receipt Columns Rocks Store Pending Writer Wire Locks Scheduler.

(** ** aperture/src/error.rs: the code and HTTP status of an error, without its message *)

Record RpcError : Type := MkRpcError { re_code : Z; re_http_status : Z }.

#[global] Instance RpcError_eq_dec : EqDecision RpcError.
Proof. solve_decision. Defined.

Definition TRANSACTION_VERIFICATION : Z := -32003.
Definition INVALID_REQUEST : Z := -32600.
Definition INVALID_PARAMS : Z := -32602.
Definition INTERNAL_ERROR : Z := -32603.
Definition PARSE_ERROR : Z := -32700.

Definition invalid_params : RpcError := MkRpcError INVALID_PARAMS 200.
Definition transaction_verification : RpcError := MkRpcError TRANSACTION_VERIFICATION 200.
Definition invalid_request : RpcError := MkRpcError INVALID_REQUEST 200.
Definition parse_error : RpcError := MkRpcError PARSE_ERROR 200.
Definition internal : RpcError := MkRpcError INTERNAL_ERROR 200.
Definition unavailable : RpcError := MkRpcError INTERNAL_ERROR 503.

(** [From<TransactionError> for RpcError] *)
Definition RpcError_from (value : TransactionError) : RpcError :=
  {| re_code := TRANSACTION_VERIFICATION;
     re_http_status := if decide (value = ClusterMaintenance) then 503 else 200 |}.

(** [some_or_err!] *)
Definition some_or_err {A} (o : option A) : result RpcError A := ok_or o invalid_params.

(** ** aperture/src/state/cache.rs *)

Record ExpiringCache (V : Type) : Type := MkCache {
  ec_index : gmap bytes V;
  (** The queue of keys with the instant each was created. *)
  ec_queue : list (bytes * Z);
  ec_ttl : Z;
}.
Arguments MkCache {V}.
Arguments ec_index {V}.
Arguments ec_queue {V}.
Arguments ec_ttl {V}.

Section cache.
Context {V : Type}.
Implicit Types (self : ExpiringCache V) (now : Z).

Definition ExpiringCache_new (ttl : Z) : ExpiringCache V := MkCache ∅ [] ttl.

Definition expired (ttl now : Z) (record : bytes * Z) : bool := ttl <=? now - record.2.

(** [while let Some(record) = queue.pop_front_if(expired)]. *)
Fixpoint pop_expired (ttl now : Z) (index : gmap bytes V) (queue : list (bytes * Z))
    : gmap bytes V * list (bytes * Z) :=
  match queue with
  | record :: queue' =>
      if expired ttl now record then pop_expired ttl now (delete record.1 index) queue'
      else (index, queue)
  | [] => (index, queue)
  end.

Definition cache_push now self (key : bytes) (value : V) : bool * ExpiringCache V :=
  let '(index, queue) := pop_expired (ec_ttl self) now (ec_index self) (ec_queue self) in
  let is_new := bool_decide (index !! key = None) in
  let queue := if is_new then queue ++ [(key, now)] else queue in
  (is_new, MkCache (<[key := value]> index) queue (ec_ttl self)).

Definition cache_get self (key : bytes) : option V := ec_index self !! key.
Definition cache_contains self (key : bytes) : bool := bool_decide (is_Some (ec_index self !! key)).
End cache.

(** ** aperture/src/state/blocks.rs *)

Record BlocksCache : Type := MkBlocks {
  (** How many slots a block hash is advertised as valid. *)
  bc_block_validity : Z;
  bc_latest : bytes * Z;
  bc_ready : bool;
  bc_cache : ExpiringCache Z;
}.

(** Instants and durations are nanoseconds. *)
Definition seconds (n : Z) : Z := n * 1000000000.
Definition BLOCK_CACHE_TTL : Z := seconds 60.
Definition TRANSACTIONS_CACHE_TTL : Z := seconds 75.

(** [block_validity] is computed from the block time in floating point. *)
Definition BlocksCache_new (block_validity : Z) (latest : bytes * Z) : BlocksCache :=
  MkBlocks block_validity latest false (ExpiringCache_new BLOCK_CACHE_TTL).

Definition set_latest (now : Z) (self : BlocksCache) (latest : LatestBlock) : BlocksCache :=
  {| bc_block_validity := bc_block_validity self;
     bc_latest := (lb_blockhash latest, lb_slot latest);
     bc_ready := true;
     bc_cache := (cache_push now (bc_cache self) (lb_blockhash latest) (lb_slot latest)).2 |}.

Definition blocks_is_ready (self : BlocksCache) : bool := bc_ready self.
Definition block_height (self : BlocksCache) : Z := (bc_latest self).2.
(** The hash, its last valid slot and its slot. *)
Definition get_latest (self : BlocksCache) : bytes * Z * Z :=
  ((bc_latest self).1, wrap64 ((bc_latest self).2 + bc_block_validity self), (bc_latest self).2).

(** ** aperture/src/attack.rs *)

(** [WithEncoded<SanitizedTransaction>] *)
Record Forwardable : Type := MkForwardable { we_txn : SanitizedTransaction; we_encoded : bytes }.

Inductive Attack : Type := NoAttack | ReorderSwap | Withhold.

#[global] Instance Attack_eq_dec : EqDecision Attack.
Proof. solve_decision. Defined.

(** Of a string already trimmed. *)
Definition Attack_parse (raw : string) : option Attack :=
  if decide (raw = "reorder-swap"%string) then Some ReorderSwap
  else if decide (raw = "withhold"%string) then Some Withhold
  else None.

Record AttackRig : Type := MkRig { ar_mode : Attack; ar_held : option Forwardable }.

Definition AttackRig_disabled : AttackRig := MkRig NoAttack None.

(** The argument is [MB_ATTACK], trimmed, when it is set. *)
Definition AttackRig_from_env (raw : option string) : AttackRig :=
  match raw with
  | None => AttackRig_disabled
  | Some raw =>
      match Attack_parse raw with
      | None => AttackRig_disabled
      | Some mode => MkRig mode None
      end
  end.

Definition AttackRig_is_enabled (self : AttackRig) : bool := bool_decide (ar_mode self <> NoAttack).

Definition intercept (self : AttackRig) (transaction : Forwardable) : list Forwardable * AttackRig :=
  match ar_mode self with
  | NoAttack => ([transaction], self)
  | Withhold =>
      match ar_held self with
      | None => ([], MkRig (ar_mode self) (Some transaction))
      | Some _ => ([transaction], MkRig (ar_mode self) None)
      end
  | ReorderSwap =>
      match ar_held self with
      | Some earlier => ([transaction; earlier], MkRig (ar_mode self) None)
      | None => ([], MkRig (ar_mode self) (Some transaction))
      end
  end.

Definition AttackRig_drain (self : AttackRig) : option Forwardable * AttackRig :=
  (ar_held self, MkRig (ar_mode self) None).
