(* ===== verification/Handlers.v ===== *)
(** * The handlers of magicblock-aperture that take transactions

    [sendTransaction], [commitTransaction], [revealTransaction] and the handle internal producers
    schedule through, as programs of the monad [prog]; [Node] is what they share, and [system_step]
    lets any handler in flight make its next call. *)
From S2P Require Import Prelude Constants Crypto Receipt Columns Rocks Store Pending Writer Wire Locks Scheduler Ingress.

(** ** Programs *)

(** The points at which a handler reads or changes shared state, or waits. *)
Inductive Call : Type :=
(** [CoordinationMode::current().needs_onchain_interactions()] and [self.blocks.is_ready()] *)
| NeedsOnchain
| BlocksReady
(** [self.blocks.contains(hash)] *)
| BlocksContains (hash : bytes)
(** [self.transactions.contains(&signature)] and [self.transactions.push(signature, None)] *)
| TransactionsContains (signature : bytes)
| TransactionsPush (signature : bytes)
(** A command sent to the receipt writer. *)
| AskWriter (command : WriterCommand)
(** The account cloner, within its timeout. *)
| EnsureAccounts (txn : SanitizedTransaction)
| Intercept (transaction : Forwardable)
(** A command for the scheduler's channel. *)
| SendToScheduler (txn : ProcessableTransaction)
(** The result channel of a transaction. *)
| AwaitResult (signature : bytes).

(** What comes back: for the writer its reply, for the cloner whether it succeeded, for the channel
    whether it took the command, for a result channel what came down it unless it was dropped. *)
Definition answer_of (call : Call) : Type :=
  match call with
  | AskWriter _ => Reply
  | Intercept _ => list Forwardable
  | AwaitResult _ => option (result TransactionError unit)
  | _ => bool
  end.

Inductive prog (A : Type) : Type :=
| Ret (a : A)
| Vis (call : Call) (rest : answer_of call -> prog A).
Arguments Ret {A} a.
Arguments Vis {A} call rest.

#[global] Instance prog_ret : MRet prog := fun A a => Ret a.
#[global] Instance prog_bind : MBind prog := fun A B f =>
  fix go p := match p with Ret a => f a | Vis call rest => Vis call (fun x => go (rest x)) end.

#[global] Instance prog_fmap : FMap prog := fun A B f p => a ← p; Ret (f a).

Definition ask (call : Call) : prog (answer_of call) := Vis call Ret.

(** The [?] operator. *)
Definition try_bind {E A B} (p : prog (result E A)) (f : A -> prog (result E B)) : prog (result E B) :=
  r ← p; match r with Ok a => f a | Err e => Ret (Err e) | Panic => Ret Panic end.
Notation "x ←? p ; q" := (try_bind p (fun x => q)) (at level 20, p at level 100, q at level 200) : receipts_scope.
Notation "x ←! r ; q" := (try_bind (Ret r) (fun x => q)) (at level 20, r at level 100, q at level 200) : receipts_scope.

(** [UiTransactionEncoding], as far as it is supported. *)
Inductive Encoding : Type := Base58 | Base64 | OtherEncoding.

(** The fields of [RpcSendTransactionConfig] the handlers read. *)
Record SendConfig : Type := MkSendConfig { cfg_skip_preflight : bool; cfg_encoding : option Encoding }.
Definition SendConfig_default : SendConfig := MkSendConfig false None.

(** [request.params()?] *)
Definition request_params {A} (params : option A) : result RpcError A := ok_or params invalid_request.

(** What a handler answers a client with. *)
Inductive Answer : Type :=
| ReceiptedSignature (signature : bytes) (receipt : string)
| CommitTicket (seq : Z) (ticket : string)
| RevealedSignature (signature : bytes) (seq : Z).

Section handlers.
Context `{C : Crypto} `{J : Json} `{S : Solana}.

Definition MAX_RUNTIME_PROGRAM_ID_INDEX_EXCLUSIVE : Z := 1232 / 32.

Definition validate_supported_transaction_shape (transaction : VersionedTransaction) : result RpcError unit :=
  _ ← ensure (negb (has_address_table_lookups transaction)) transaction_verification;
  ensure (forallb (fun program_id_index => negb (MAX_RUNTIME_PROGRAM_ID_INDEX_EXCLUSIVE <=? program_id_index))
            (program_id_indexes transaction)) transaction_verification.

Definition decode_transaction (txn : string) (encoding : Encoding) : result RpcError bytes :=
  match encoding with
  | Base58 => ok_or (bs58_decode txn) parse_error
  | Base64 => ok_or (base64_decode txn) parse_error
  | OtherEncoding => Err invalid_params
  end.

(** As the handlers below call it: signatures are verified, the block hash is kept. *)
Definition prepare_transaction (txn : string) (encoding : Encoding) : prog (result RpcError Forwardable) :=
  encoded ←! decode_transaction txn encoding;
  transaction ←! ok_or (bincode_deserialize encoded) invalid_params;
  _ ←! validate_supported_transaction_shape transaction;
  known ← ask (BlocksContains (message_recent_blockhash transaction));
  _ ←! ensure known transaction_verification;
  txn ←! map_err RpcError_from (tx_sanitize transaction);
  Ret (Ok (MkForwardable txn encoded)).

Definition require_primary_rpc_method : prog (result RpcError unit) :=
  primary ← ask NeedsOnchain;
  _ ←! ensure primary transaction_verification;
  ready ← ask BlocksReady;
  _ ←! ensure ready unavailable;
  Ret (Ok tt).

Definition ensure_transaction_accounts (transaction : SanitizedTransaction) : prog (result RpcError unit) :=
  _ ←? require_primary_rpc_method;
  ok ← ask (EnsureAccounts transaction);
  Ret (ensure ok transaction_verification).

(** [if self.transactions.contains(..) || !self.transactions.push(..)]: reserve the signature. *)
Definition reserve_signature (signature : bytes) : prog (result RpcError unit) :=
  known ← ask (TransactionsContains signature);
  if (known : bool) then Ret (Err (RpcError_from AlreadyProcessed))
  else
    new ← ask (TransactionsPush signature);
    Ret (ensure new (RpcError_from AlreadyProcessed)).

(** *** magicblock-receipts/src/stamper.rs: the handle to the writer *)

Definition stamper_stamp (tx_sig wire_bytes recent_blockhash : bytes) : prog (result StampError SignedReceipt) :=
  reply ← ask (AskWriter (CmdStamp tx_sig wire_bytes recent_blockhash));
  Ret (match reply with ReplyReceipt (Ok r) => Ok r | ReplyReceipt (Err e) => Err e | _ => Err WriterGone end).

Definition stamper_commit (tx_hash committer : bytes) : prog (result StampError SignedReceipt) :=
  reply ← ask (AskWriter (CmdCommit tx_hash committer));
  Ret (match reply with ReplyReceipt (Ok r) => Ok r | ReplyReceipt (Err e) => Err e | _ => Err WriterGone end).

Definition stamper_reveal (tx_hash tx_sig : bytes) : prog (option (Z * PendingCommit)) :=
  reply ← ask (AskWriter (CmdReveal tx_hash tx_sig));
  Ret (match reply with ReplyReveal r => r | _ => None end).

Definition record_outcome (seq : Z) (outcome : Outcome) : prog unit :=
  _ ← ask (AskWriter (CmdRecordOutcome seq outcome));
  Ret tt.

(** *** magicblock-core/src/link/transactions.rs: the handle to the scheduler *)

Definition processable (transaction : SanitizedTransaction) (mode : TransactionProcessingMode)
    (encoded : option bytes) : ProcessableTransaction :=
  {| pt_signature := sz_signature transaction; pt_accounts := sz_accounts transaction;
     pt_mode := mode; pt_encoded := encoded |}.

(** [TransactionSchedulerHandle::stamp], with a stamper installed. *)
Definition handle_stamp_ingress (transaction : SanitizedTransaction) (encoded : option bytes)
    : prog (result TransactionError unit) :=
  wire_bytes ←! (match encoded with
                 | Some bytes => Ok bytes
                 | None => ok_or (serialize_sanitized transaction) (OtherTransactionError 0)
                 end);
  stamped ← stamper_stamp (sz_signature transaction) wire_bytes (sz_recent_blockhash transaction);
  Ret (map_err (fun _ => ClusterMaintenance) ((fun _ => tt) <$> stamped)).

Definition schedule_inner (transaction : SanitizedTransaction) (encoded : option bytes) (stamp : bool)
    : prog (result TransactionError unit) :=
  _ ←? (if stamp then handle_stamp_ingress transaction encoded else Ret (Ok tt));
  sent ← ask (SendToScheduler (processable transaction (ModeExecution false) encoded));
  Ret (ensure sent ClusterMaintenance).

(** [TransactionSchedulerHandle::send] in the execution mode. *)
Definition send_execution (transaction : SanitizedTransaction) (encoded : option bytes) (stamp : bool)
    : prog (result TransactionError unit) :=
  _ ←? (if stamp then handle_stamp_ingress transaction encoded else Ret (Ok tt));
  sent ← ask (SendToScheduler (processable transaction (ModeExecution true) encoded));
  _ ←! ensure sent ClusterMaintenance;
  answer ← ask (AwaitResult (sz_signature transaction));
  Ret (default (Err ClusterMaintenance) answer).

Definition schedule (transaction : SanitizedTransaction) (encoded : option bytes) :=
  schedule_inner transaction encoded true.
Definition schedule_receipted (transaction : Forwardable) : prog (result TransactionError unit) :=
  schedule_inner (we_txn transaction) (Some (we_encoded transaction)) false.
Definition execute (transaction : SanitizedTransaction) (encoded : option bytes) :=
  send_execution transaction encoded true.
Definition execute_receipted (transaction : Forwardable) : prog (result TransactionError unit) :=
  send_execution (we_txn transaction) (Some (we_encoded transaction)) false.
Definition replay (position : ReplayPosition) (transaction : SanitizedTransaction) (encoded : option bytes)
    : prog (result TransactionError unit) :=
  sent ← ask (SendToScheduler (processable transaction (Replay position) encoded));
  Ret (ensure sent ClusterMaintenance).

(** *** send_transaction.rs *)

Definition submit (skip_preflight : bool) (transaction : Forwardable) : prog (result TransactionError unit) :=
  if skip_preflight then schedule_receipted transaction else execute_receipted transaction.

(** [for transaction in self.attack.intercept(transaction) { scheduled = .. }] *)
Fixpoint forward_all (skip_preflight : bool) (transactions : list Forwardable)
    (scheduled : result TransactionError unit) : prog (result TransactionError unit) :=
  match transactions with
  | [] => Ret scheduled
  | transaction :: transactions =>
      scheduled ← submit skip_preflight transaction;
      forward_all skip_preflight transactions scheduled
  end.

Definition outcome_of (scheduled : result TransactionError unit) : Outcome :=
  match scheduled with Err ClusterMaintenance => Rejected | _ => Accepted end.

Definition send_transaction (params : option (option string * option SendConfig))
    : prog (result RpcError Answer) :=
  _ ←? require_primary_rpc_method;
  params ←! request_params params;
  transaction_str ←! some_or_err params.1;
  let config := default SendConfig_default params.2 in
  transaction ←? prepare_transaction transaction_str (default Base58 (cfg_encoding config));
  let signature := sz_signature (we_txn transaction) in
  _ ←? reserve_signature signature;
  stamped ← stamper_stamp signature (we_encoded transaction) (sz_recent_blockhash (we_txn transaction));
  receipt ←! map_err (fun _ => internal) stamped;
  let seq := r_seq (s_receipt receipt) in
  ensured ← ensure_transaction_accounts (we_txn transaction);
  match ensured with
  | Ok _ =>
      transactions ← ask (Intercept transaction);
      scheduled ← forward_all (cfg_skip_preflight config) transactions (Ok tt);
      _ ← record_outcome seq (outcome_of scheduled);
      _ ←! map_err RpcError_from scheduled;
      Ret (Ok (ReceiptedSignature signature (base64_encode (SignedReceipt_to_bytes receipt))))
  | Err err => _ ← record_outcome seq Rejected; Ret (Err err)
  | Panic => Ret Panic
  end.

(** *** commit_transaction.rs *)

Definition decode_hash (encoded : string) : result RpcError bytes :=
  ok_or (base64_decode encoded ≫= try_into_array LEN_HASH) invalid_params.

Definition decode_pubkey (encoded : string) : result RpcError bytes :=
  ok_or (bs58_decode encoded ≫= try_into_array 32) invalid_params.

Definition verify_commitment (tx_hash committer : bytes) (signature : string) : result RpcError unit :=
  raw ← ok_or (base64_decode signature ≫= try_into_array 64) invalid_params;
  _ ← ensure (valid_verifying_key committer) invalid_params;
  ensure (ed25519_verify committer tx_hash raw) transaction_verification.

Definition CommitTicket_new (receipt : SignedReceipt) : Answer :=
  CommitTicket (r_seq (s_receipt receipt)) (base64_encode (SignedReceipt_to_bytes receipt)).

Definition commit_transaction (params : option (option string * option string * option string))
    : prog (result RpcError Answer) :=
  _ ←? require_primary_rpc_method;
  params ←! request_params params;
  hash ←! some_or_err params.1.1;
  committer ←! some_or_err params.1.2;
  signature ←! some_or_err params.2;
  tx_hash ←! decode_hash hash;
  committer ←! decode_pubkey committer;
  _ ←! verify_commitment tx_hash committer signature;
  committed ← stamper_commit tx_hash committer;
  ticket ←! map_err (fun _ => internal) committed;
  Ret (Ok (CommitTicket_new ticket)).

(** *** reveal_transaction.rs *)

Definition reveal_transaction (params : option (option string * option SendConfig))
    : prog (result RpcError Answer) :=
  _ ←? require_primary_rpc_method;
  params ←! request_params params;
  transaction_str ←! some_or_err params.1;
  let config := default SendConfig_default params.2 in
  transaction ←? prepare_transaction transaction_str (default Base58 (cfg_encoding config));
  let signature := sz_signature (we_txn transaction) in
  _ ←? reserve_signature signature;
  let digest := tx_hash (we_encoded transaction) in
  revealed ← stamper_reveal digest signature;
  match revealed with
  | None => Ret (Err invalid_request)
  | Some (seq, _) =>
      ensured ← ensure_transaction_accounts (we_txn transaction);
      match ensured with
      | Ok _ =>
          scheduled ← submit (cfg_skip_preflight config) transaction;
          _ ← record_outcome seq (outcome_of scheduled);
          _ ←! map_err RpcError_from scheduled;
          Ret (Ok (RevealedSignature signature seq))
      | Err err => _ ← record_outcome seq Rejected; Ret (Err err)
      | Panic => Ret Panic
      end
  end.
End handlers.

(** ** What the handlers share *)

(** The results in the transaction cache are not modelled. *)
Record Node `{C : Crypto} `{R : Rocks} : Type := MkNode {
  n_primary : bool;
  n_blocks : BlocksCache;
  n_transactions : ExpiringCache unit;
  n_writer : ReceiptWriter;
  n_rig : AttackRig;
  (** The commands the scheduler's channel took, in order. *)
  n_inbox : list ProcessableTransaction;
  (** The replies of the receipt writer, in order. *)
  n_replies : list Reply;
}.
Arguments MkNode {_ _}.

(** What the surroundings contribute to one call. *)
Record Env : Type := MkEnv {
  (** The slot and wall clock the writer reads, and the monotonic clock of the caches. *)
  env_now : Instant;
  env_monotonic : Z;
  env_ensured : bool;
  env_channel_open : bool;
  env_result : option (result TransactionError unit);
}.

(** A request in flight: a client's, or an internal producer's. *)
Definition Task : Type := prog (result RpcError Answer + result TransactionError unit).

Inductive Request : Type :=
| SendTransaction (params : option (option string * option SendConfig))
| CommitTransaction (params : option (option string * option string * option string))
| RevealTransaction (params : option (option string * option SendConfig))
| Schedule (transaction : SanitizedTransaction) (encoded : option bytes)
| Execute (transaction : SanitizedTransaction) (encoded : option bytes)
| ReplayAt (position : ReplayPosition) (transaction : SanitizedTransaction) (encoded : option bytes).

Section system.
Context `{C : Crypto} `{J : Json} `{S : Solana} `{R : Rocks}.
Implicit Types (node : Node) (env : Env).

Definition with_writer node (writer : ReceiptWriter) (reply : Reply) : Node :=
  MkNode (n_primary node) (n_blocks node) (n_transactions node) writer (n_rig node) (n_inbox node)
    (n_replies node ++ [reply]).
Definition with_transactions node (cache : ExpiringCache unit) : Node :=
  MkNode (n_primary node) (n_blocks node) cache (n_writer node) (n_rig node) (n_inbox node) (n_replies node).
Definition with_blocks node (blocks : BlocksCache) : Node :=
  MkNode (n_primary node) blocks (n_transactions node) (n_writer node) (n_rig node) (n_inbox node) (n_replies node).
Definition with_rig node (rig : AttackRig) : Node :=
  MkNode (n_primary node) (n_blocks node) (n_transactions node) (n_writer node) rig (n_inbox node) (n_replies node).
Definition with_inbox node (inbox : list ProcessableTransaction) : Node :=
  MkNode (n_primary node) (n_blocks node) (n_transactions node) (n_writer node) (n_rig node) inbox (n_replies node).
Definition with_primary node (primary : bool) : Node :=
  MkNode primary (n_blocks node) (n_transactions node) (n_writer node) (n_rig node) (n_inbox node) (n_replies node).

Definition answer env (call : Call) : Node -> answer_of call * Node :=
  match call return Node -> answer_of call * Node with
  | NeedsOnchain => fun node => (n_primary node, node)
  | BlocksReady => fun node => (blocks_is_ready (n_blocks node), node)
  | BlocksContains hash => fun node => (cache_contains (bc_cache (n_blocks node)) hash, node)
  | TransactionsContains signature => fun node => (cache_contains (n_transactions node) signature, node)
  | TransactionsPush signature => fun node =>
      let '(new, cache) := cache_push (env_monotonic env) (n_transactions node) signature tt in
      (new, with_transactions node cache)
  | AskWriter command => fun node =>
      let '(reply, writer) := run_command (env_now env) command (n_writer node) in
      (reply, with_writer node writer reply)
  | EnsureAccounts _ => fun node => (env_ensured env, node)
  | Intercept transaction => fun node =>
      let '(transactions, rig) := intercept (n_rig node) transaction in (transactions, with_rig node rig)
  | SendToScheduler txn => fun node =>
      if env_channel_open env then (true, with_inbox node (n_inbox node ++ [txn])) else (false, node)
  | AwaitResult _ => fun node => (env_result env, node)
  end.

(** A program nobody interrupts, all of whose calls see the same surroundings. *)
Fixpoint run_sync env {A} (p : prog A) node : A * Node :=
  match p with
  | Ret a => (a, node)
  | Vis call rest => let '(x, node) := answer env call node in run_sync env (rest x) node
  end.

Definition start (request : Request) : Task :=
  match request with
  | SendTransaction params => inl <$> send_transaction params
  | CommitTransaction params => inl <$> commit_transaction params
  | RevealTransaction params => inl <$> reveal_transaction params
  | Schedule transaction encoded => inr <$> schedule transaction encoded
  | Execute transaction encoded => inr <$> execute transaction encoded
  | ReplayAt position transaction encoded => inr <$> replay position transaction encoded
  end.

Record System : Type := MkSystem { sy_node : Node; sy_tasks : list Task }.

Inductive SystemEvent : Type :=
(** A request arrives; a request in flight makes its next call. *)
| Arrive (request : Request)
| Resume (id : nat) (env : Env)
(** The periodic sweep of the receipt writer. *)
| SweepTick (now : Instant)
(** The event processor saw a block, or the status of a transaction. *)
| BlockSeen (monotonic : Z) (latest : LatestBlock)
| StatusSeen (monotonic : Z) (signature : bytes)
| ModeSwitched (primary : bool).

Definition system_step (self : System) (event : SystemEvent) : System :=
  let node := sy_node self in
  match event with
  | Arrive request => MkSystem node (sy_tasks self ++ [start request])
  | Resume id env =>
      match sy_tasks self !! id with
      | Some (Vis call rest) =>
          let '(x, node) := answer env call node in MkSystem node (<[id := rest x]> (sy_tasks self))
      | _ => self
      end
  | SweepTick now =>
      let '(reply, writer) := run_command now CmdSweep (n_writer node) in
      MkSystem (with_writer node writer reply) (sy_tasks self)
  | BlockSeen monotonic latest =>
      MkSystem (with_blocks node (set_latest monotonic (n_blocks node) latest)) (sy_tasks self)
  | StatusSeen monotonic signature =>
      MkSystem (with_transactions node (cache_push monotonic (n_transactions node) signature tt).2) (sy_tasks self)
  | ModeSwitched primary => MkSystem (with_primary node primary) (sy_tasks self)
  end.

Definition system_run (self : System) (events : list SystemEvent) : System := foldl system_step self events.
End system.
