(* ===== verification/Serve.v ===== *)
(** * How a node serves its receipt log: magicblock-aperture

    [getReceipts] and [getReceipt] over the ledger's receipt columns, the JSON they answer with, and
    what the watchtower's client makes of it. *)
From S2P Require Import Prelude Constants Crypto Receipt Columns Rocks Store ReceiptLog Pending Writer WriterLog WriterProperties Wire Watchtower Client Locks Scheduler Ingress Handlers.

(** ** receipt_entry.rs *)

Record ReceiptEntry : Type := MkEntry { en_seq : Z; en_outcome : string; en_receipt : string }.

Definition describe (outcome : byte) : string :=
  match Outcome_from_u8 outcome with
  | Some Pending => "pending"
  | Some Accepted => "accepted"
  | Some Constants.Rejected => "rejected"
  | Some Expired => "expired"
  | None => "unknown"
  end%string.

(** ** get_receipts.rs *)

Definition MAX_RECEIPTS_LIMIT : Z := 1000.

Section serve.
Context `{C : Crypto} `{J : Json} `{R : Rocks}.
Implicit Types (d : rocks).
Local Open Scope string_scope.

Definition ReceiptEntry_new (seq : Z) (outcome : byte) (receipt : bytes) : ReceiptEntry :=
  MkEntry seq (describe outcome) (base64_encode receipt).

(** [#[derive(Serialize)]] *)
Definition ReceiptEntry_serialize (self : ReceiptEntry) : Value :=
  VObject [("seq", VNumber (en_seq self)); ("outcome", VString (en_outcome self));
           ("receipt", VString (en_receipt self))].

Definition get_receipts d (params : option (option Z * option Z)) : result RpcError (list ReceiptEntry) :=
  params ← request_params params;
  from_seq ← some_or_err params.1;
  let limit := Z.min (default MAX_RECEIPTS_LIMIT params.2) MAX_RECEIPTS_LIMIT in
  rows ← map_err (fun _ => internal) (mapM id (take (Z.to_nat limit) (iter_receipts d from_seq)));
  Ok (map (fun '(seq, outcome, receipt) => ReceiptEntry_new seq outcome receipt) rows).

Definition get_receipt d (params : option (option bytes)) : result RpcError (option ReceiptEntry) :=
  params ← request_params params;
  signature ← some_or_err params;
  entry ← map_err (fun _ => internal) (fst (read_receipt_by_signature signature d));
  Ok (option_map (fun '(seq, outcome, receipt) => ReceiptEntry_new seq outcome receipt) entry).

(** ** payload.rs *)

Definition encode_no_context (id result : Value) : Value :=
  VObject [("jsonrpc", VString "2.0"); ("result", result); ("id", id)].

(** The message of the error is not modelled. *)
Definition encode_error (id : Value) (error : RpcError) : Value :=
  VObject [("jsonrpc", VString "2.0");
           ("error", VObject [("code", VNumber (re_code error)); ("message", VNull)]); ("id", id)].

(** [parse_params!(request.params()?, u64, u64)] *)
Definition params_u64_u64 (request : Value) : option (option Z * option Z) :=
  params ← value_get request "params" ≫= as_array;
  Some (params !! 0%nat ≫= as_u64, params !! 1%nat ≫= as_u64).

(** [dispatch] of a [getReceipts] request. *)
Definition dispatch_get_receipts d (request : Value) : result string Value :=
  let id := default VNull (value_get request "id") in
  match get_receipts d (params_u64_u64 request) with
  | Ok entries => Ok (encode_no_context id (VArray (map ReceiptEntry_serialize entries)))
  | Err error => Ok (encode_error id error)
  | Panic => Err "connection closed"
  end.

(** ** Reading back a page *)

Context `{!CryptoLaws C} `{!JsonLaws J} `{!RocksLaws R}.
Implicit Types (log : list SignedReceipt).

(** The sequence column holds exactly the log. *)
Definition holds_log d log : Prop :=
  keyed d /\
  (forall i s, log !! i = Some s -> stored d (Z.of_nat i) (SignedReceipt_to_bytes s)) /\
  (forall seq, is_u64 seq -> Z.of_nat (length log) <= seq -> row d seq = None).

Lemma mapM_id_Ok {E A} (l : list A) : mapM (M := result E) id (map Ok l) = Ok l.
Proof. induction l as [|x l IH]; [done|]. cbn [map mapM]. rewrite IH. done. Qed.

Lemma mapM_map_Ok {E A B D} (f : B -> result E D) (g : A -> B) (h : A -> D) l :
  (forall a, a ∈ l -> f (g a) = Ok (h a)) -> mapM f (map g l) = Ok (map h l).
Proof.
  induction l as [|a l IH]; intros H; [done|]. cbn [map mapM]. rewrite H by (by left). rewrite bind_of_ok.
  rewrite IH; [done|]. intros. apply H. by right.
Qed.

Lemma drop_log_sorted log from :
  StronglySorted (fun a b : Z * bytes => a.1 < b.1)
    (imap (fun i s => (from + Z.of_nat i, SignedReceipt_to_bytes s)) log).
Proof.
  revert from. induction log as [|s log IH]; intros from; [constructor|]. rewrite imap_cons. constructor.
  - specialize (IH (from + 1)). erewrite imap_ext; [exact IH|]. intros i x _. cbn. f_equal. lia.
  - apply Forall_forall. intros [seq r] (i & x & E & _)%elem_of_lookup_imap. injection E as -> _. cbn. lia.
Qed.

(** The rows from a sequence number on are the log from there on. *)
Lemma page_rows d log from items :
  holds_log d log -> is_u64 from -> Z.of_nat (length log) <= 2 ^ 64 ->
  iterator_cf d ReceiptBySeq (IterFrom (ReceiptBySeq_key from) Forward) = map Ok items ->
  exists rows, iter_receipts d from = map Ok rows /\
    map (fun row => (row.1.1, row.2)) rows =
      imap (fun i s => (from + Z.of_nat i, SignedReceipt_to_bytes s)) (drop (Z.to_nat from) log).
Proof.
  intros (Hk & Hst & Hend) Hf Hlen Hi. pose proof (rows_ascend _ _ _ Hk Hi) as Hs.
  pose proof (fun seq outcome receipt => elem_of_rows d from items seq outcome receipt Hk Hf Hi) as Hin.
  exists (omap row_of items). split; [by apply iter_receipts_rows|].
  apply (StronglySorted_ext fst).
  - revert Hs. generalize (omap row_of items). induction 1 as [|x l Hs IH Hx]; cbn; constructor; [done|].
    apply Forall_map. eapply Forall_impl; [exact Hx|]. done.
  - apply drop_log_sorted.
  - intros [seq receipt]. rewrite elem_of_lookup_imap. setoid_rewrite lookup_drop. split.
    + intros ([[seq' outcome] receipt'] & [= -> ->] & (Hu & Hle & Hrow)%Hin)%list_elem_of_fmap.
      assert (seq' < Z.of_nat (length log)) as Hlt.
      { apply Z.nle_gt. intros Hge. by rewrite (Hend _ Hu Hge) in Hrow. }
      unfold is_u64 in *. destruct (lookup_lt_is_Some_2 log (Z.to_nat seq')) as [s Hs']; [lia|].
      destruct (Hst _ _ Hs') as [o Ho]. rewrite Z2Nat.id in Ho by lia.
      exists (Z.to_nat (seq' - from)), s. replace (_ + _)%nat with (Z.to_nat seq') by lia.
      rewrite Hrow in Ho. injection Ho as _ ->. split; [f_equal; lia|done].
    + intros (i & s & [= -> ->] & Hl). destruct (Hst _ _ Hl) as [o Ho]. pose proof (lookup_lt_Some _ _ _ Hl).
      apply list_elem_of_fmap. exists (from + Z.of_nat i, o, SignedReceipt_to_bytes s). split; [done|].
      unfold is_u64 in *. apply Hin. split_conj; [lia|lia|lia|].
      by replace (from + Z.of_nat i) with (Z.of_nat (Z.to_nat from + i)) by lia.
Qed.

(** Fields of the objects that travel. *)
Lemma get_field k fields :
  bool_decide (NoDup (map fst fields)) = true -> value_get (VObject fields) k = field k fields.
Proof. intros H%bool_decide_eq_true. by apply value_get_object. Qed.

Lemma served_entry s outcome seq key :
  SignedReceipt_wf s -> SignedReceipt_verify s key = Ok tt ->
  receipt_entry (ReceiptEntry_serialize (ReceiptEntry_new seq outcome (SignedReceipt_to_bytes s))) = Ok s.
Proof.
  intros Hwf [Hv _]%SignedReceipt_verify_Ok. unfold receipt_entry, ReceiptEntry_serialize.
  rewrite get_field by done. cbn. rewrite as_str_string. cbn [ok_or]. rewrite bind_of_ok, base64_decode_encode. cbn [ok_or]. rewrite bind_of_ok.
  by rewrite SignedReceipt_from_to_bytes, Hv.
Qed.

Lemma request_page from limit :
  is_u64 from -> is_u64 limit ->
  params_u64_u64 (VObject [("jsonrpc", VString "2.0"); ("id", VNumber 1); ("method", VString "getReceipts");
                           ("params", VArray [VNumber from; VNumber limit])])
    = Some (Some from, Some limit).
Proof.
  intros Hf Hl. unfold params_u64_u64. rewrite get_field by done. cbn. rewrite as_array_array. cbn.
  by rewrite !as_u64_number.
Qed.

Lemma call_result (self : Client) method params id result :
  self (VObject [("jsonrpc", VString "2.0"); ("id", VNumber 1); ("method", VString method); ("params", params)])
    = Ok (encode_no_context id result) ->
  call self method params = Ok result.
Proof.
  intros H. unfold call. rewrite H. cbn [map_err]. rewrite bind_of_ok. unfold encode_no_context.
  rewrite !get_field by done. done.
Qed.

Lemma client_page d log key log_id from limit items :
  holds_log d log -> chained key log_id log -> is_u64 from -> is_u64 limit -> Z.of_nat (length log) <= 2 ^ 64 ->
  iterator_cf d ReceiptBySeq (IterFrom (ReceiptBySeq_key from) Forward) = map Ok items ->
  Client_receipts (dispatch_get_receipts d) from limit =
    Ok (take (Z.to_nat (Z.min limit MAX_RECEIPTS_LIMIT)) (drop (Z.to_nat from) log)).
Proof.
  intros Hlog Hc Hf Hl Hlen Hi. destruct (page_rows _ _ _ _ Hlog Hf Hlen Hi) as (rows & Hrows & Hmap).
  set (n := Z.to_nat (Z.min limit MAX_RECEIPTS_LIMIT)).
  unfold Client_receipts. erewrite call_result; cycle 1.
  { unfold dispatch_get_receipts. rewrite request_page by done. unfold get_receipts. cbn [request_params ok_or].
    rewrite bind_of_ok. cbn [fst snd some_or_err ok_or]. rewrite bind_of_ok.
    change (Z.to_nat (Z.min (default _ _) _)) with n.
    rewrite Hrows, firstn_map, mapM_id_Ok. cbn [map_err]. rewrite bind_of_ok. done. }
  rewrite bind_of_ok, as_array_array. cbn [ok_or]. rewrite bind_of_ok, map_map.
  assert (exists ss, take n (drop (Z.to_nat from) log) = ss /\
    Forall2 (fun row s => row.2 = SignedReceipt_to_bytes s /\ SignedReceipt_wf s /\
      SignedReceipt_verify s key = Ok tt) (take n rows) ss) as (ss & -> & Hss).
  { eexists. split; [done|]. apply Forall2_take. apply Forall2_same_length_lookup_2.
    - apply (f_equal length) in Hmap. by rewrite length_map, length_imap in Hmap.
    - intros i row s Hr Hs. apply (f_equal (fun l => l !! i)) in Hmap.
      rewrite list_lookup_fmap, list_lookup_imap, Hr, Hs in Hmap. injection Hmap as _ Hb. rewrite lookup_drop in Hs.
      destruct (Hc _ _ Hs). done. }
  clear -Hss JsonLaws0. induction Hss as [|[[seq outcome] receipt] s rows' ss' (E & Hwf & Hv) Hss IH]; [done|].
  cbn [map mapM]. cbn [snd] in E. subst receipt. rewrite (served_entry s outcome seq key) by done.
  cbn [map_err]. rewrite bind_of_ok, IH. done.
Qed.

(** ** The rows of a writer *)

End serve.

(** ** The rows of a writer *)

Section rows.
Context `{C : Crypto} `{!CryptoLaws C} `{R : Rocks} `{!RocksLaws R}.
Implicit Types (self : ReceiptWriter) (d : rocks) (log : list SignedReceipt).

(** Nothing is stored at or after a position. *)
Definition open_from d (seq : Z) : Prop :=
  keyed d /\ forall seq', is_u64 seq' -> seq <= seq' -> row d seq' = None.

Lemma open_from_written d d' seq signature outcome receipt :
  open_from d seq -> is_u64 seq ->
  (forall c k, holds d' c k = written (holds d) seq signature outcome receipt c k) -> open_from d' (seq + 1).
Proof.
  intros [Hk Hr] Hs Hh. split.
  - intros k v. rewrite Hh. unfold written. destruct signature; unfold overlay; repeat case_decide;
      try naive_solver; simplify_eq; intros _; apply length_ReceiptBySeq_key.
  - intros seq' Hs' Hle. unfold row. rewrite Hh, written_row, overlay_row_other by (done || lia).
    apply Hr; [done|lia].
Qed.

Lemma open_from_outcome d r d' seq0 outcome seq :
  set_receipt_outcome seq0 outcome d = (r, d') -> open_from d seq -> open_from d' seq.
Proof.
  intros H [Hk Hr].
  destruct (set_receipt_outcome_holds _ _ _ _ _ H) as [E|(b & receipt & Hrow & _ & Hh)].
  { split; [intros k v; rewrite E; apply Hk|]. intros. unfold row. rewrite E. by apply Hr. }
  split.
  - intros k v. rewrite Hh. unfold overlay. case_decide; [|apply Hk]. simplify_eq. intros _. apply length_ReceiptBySeq_key.
  - intros seq' Hs Hle. unfold row. rewrite Hh. unfold overlay. case_decide as E; [|by apply Hr].
    apply (f_equal snd) in E. cbn in E. unfold row in Hrow. rewrite <-E in Hrow.
    pose proof (Hr _ Hs Hle) as Hn. unfold row in Hn. congruence.
Qed.

Lemma open_from_index d r d' seq0 signature seq :
  index_receipt_signature seq0 signature d = (r, d') -> open_from d seq -> open_from d' seq.
Proof.
  intros H [Hk Hr]. destruct (index_receipt_signature_holds _ _ _ _ _ H) as [E|Hh].
  - split; [intros k v; rewrite E; apply Hk|]. intros. unfold row. rewrite E. by apply Hr.
  - split; [intros k v; rewrite Hh; unfold overlay; rewrite decide_False by congruence; apply Hk|].
    intros. unfold row. rewrite Hh, overlay_sig_row. by apply Hr.
Qed.

Lemma handle_outcome_open self seq0 outcome seq :
  open_from (w_ledger self) seq -> open_from (w_ledger (handle_outcome seq0 outcome self)) seq.
Proof.
  intros H. unfold handle_outcome. destruct (set_receipt_outcome _ _ _) eqn:E. cbn.
  by eapply open_from_outcome.
Qed.

Lemma run_command_open log self now command reply self' :
  writer_inv log self -> Z.of_nat (length log) + 1 < 2 ^ 64 -> healthy reply ->
  run_command now command self = (reply, self') ->
  open_from (w_ledger self) (w_seq self) -> open_from (w_ledger self') (w_seq self').
Proof.
  intros Hi Hlen Hh Hrun Ho. pose proof (wi_seq _ _ Hi) as Hs.
  assert (is_u64 (w_seq self)) as Hu by (unfold is_u64; lia).
  assert (wrap64 (w_seq self + 1) = w_seq self + 1) as Hw by (apply wrap64_small; unfold is_u64; lia).
  destruct command; cbn [run_command] in Hrun.
  - unfold handle_stamp in Hrun. destruct (stamp _ _ _ _ self) as [r1 self1] eqn:Hst. injection Hrun as <- <-.
    apply stamp_cases in Hst as [(e & -> & ->)|
      (signed & published & ledger & _ & _ & _ & [(e & -> & _)|(-> & Hwr & ->)])]; [done|by destruct (Hh e)|].
    cbn. rewrite Hw. by eapply open_from_written, write_receipt_Ok.
  - unfold handle_commit in Hrun. destruct (commit _ _ _ self) as [r1 self1] eqn:Hst. injection Hrun as <- <-.
    apply commit_cases in Hst as [(e & -> & _ & ->)|[(e & ledger & -> & _)|(signed & ledger & -> & _ & _ & Hwr & ->)]];
      [done|by destruct (Hh e)|].
    cbn. rewrite Hw. by eapply open_from_written, write_receipt_Ok.
  - unfold handle_reveal in Hrun. destruct (PendingCommits_claim _ _) as [[claimed|] pending];
      [|injection Hrun as <- <-; done].
    destruct (index_receipt_signature _ _ _) eqn:E. injection Hrun as <- <-. by eapply open_from_index.
  - injection Hrun as <- <-. unfold handle_outcome at 2. destruct (set_receipt_outcome _ _ (w_ledger self)) eqn:E.
    cbn. by apply handle_outcome_open.
  - injection Hrun as <- <-. unfold handle_sweep. destruct (PendingCommits_expire _ _) as [expired pending].
    assert (open_from (w_ledger (set_pending self pending)) (w_seq (set_pending self pending))) as Ho' by done.
    revert Ho'. generalize (set_pending self pending). clear -RocksLaws0. induction expired as [|e expired IH]; [done|].
    intros self Ho. cbn. apply IH. unfold handle_outcome at 2.
    destruct (set_receipt_outcome _ _ (w_ledger self)) eqn:E. cbn. by apply handle_outcome_open.
Qed.

Lemma run_open commands : forall log self replies self',
  writer_inv log self -> commands_wf commands ->
  Z.of_nat (length log) + Z.of_nat (length commands) < 2 ^ 64 ->
  Forall healthy replies -> ReceiptWriter_run commands self = (replies, self') ->
  open_from (w_ledger self) (w_seq self) -> open_from (w_ledger self') (w_seq self').
Proof.
  induction commands as [|[now command] commands IH]; intros log self replies self' Hi Hwf Hlen Hh; cbn.
  { by intros [= <- <-]. }
  destruct (run_command now command self) as [reply self1] eqn:Hc.
  destruct (ReceiptWriter_run commands self1) as [replies1 self2] eqn:Hr. intros [= <- <-] Ho.
  apply Forall_cons in Hwf as [Hwf1 Hwf2]. apply Forall_cons in Hh as [Hh1 Hh2]. cbn in Hlen.
  destruct (run_command_inv _ _ _ _ _ _ Hi Hwf1 ltac:(lia) Hh1 Hc) as (_ & ext & Hi1 & Hlog).
  pose proof (logged_length _ _ _ Hlog).
  eapply IH; [exact Hi1|done|rewrite length_app; lia|done|exact Hr|].
  eapply (run_command_open log); [done|lia|done|exact Hc|done].
Qed.
End rows.
