(* ===== verification/ServeBlock.v ===== *)
(** * How a node serves a block: magicblock-aperture/src/requests/http/get_block.rs

    [getBlock] over the ledger, and what the watchtower's client makes of the answer.  How a block
    becomes JSON is solana_transaction_status's [encode_with_options], in the class
    [BlockEncoding]. *)
From S2P Require Import Prelude Crypto Wire Watchtower Client Columns Rocks Store Locks Scheduler Ledger Ingress Handlers Serve.

(** [UiTransactionEncoding], [TransactionDetails] and [BlockEncodingOptions]; of the first two, the
    variants the sources name. *)
Inductive UiTransactionEncoding : Type := EncodingJson | EncodingBase64 | OtherEncoding (code : Z).
Inductive TransactionDetails : Type := DetailsFull | OtherDetails (code : Z).

Record BlockEncodingOptions : Type := MkBlockOptions {
  bo_transaction_details : TransactionDetails;
  bo_show_rewards : bool;
  bo_max_supported_transaction_version : option Z;
}.

(** [RpcBlockConfig]; its default has no field set. *)
Record RpcBlockConfig : Type := MkBlockConfig {
  bc_encoding : option UiTransactionEncoding;
  bc_transaction_details : option TransactionDetails;
  bc_rewards : option bool;
  bc_max_supported_transaction_version : option Z;
}.
Definition RpcBlockConfig_default : RpcBlockConfig := MkBlockConfig None None None None.

Class BlockEncoding `{L : LedgerCodec} `{J : Json} : Type := {
  (** [json::from_value::<RpcBlockConfig>] *)
  config_from_value : Value -> option RpcBlockConfig;
  (** [bincode::serialize] of a transaction. *)
  bincode_serialize : VersionedTransaction -> bytes;
  (** [encode_with_options], serialized. *)
  encode_with_options : VersionedConfirmedBlock -> UiTransactionEncoding -> BlockEncodingOptions -> option Value;
}.

Class BlockEncodingLaws `{L : LedgerCodec} `{J : Json} (B : BlockEncoding) : Prop := {
  config_from_base64 : config_from_value block_config =
    Some (MkBlockConfig (Some EncodingBase64) (Some DetailsFull) (Some false) (Some 0));
  (** A full block in base64: the transactions in the order of the block, each the first element of a
      pair with the name of the encoding. *)
  encode_base64 b : exists v entries,
    encode_with_options b EncodingBase64 (MkBlockOptions DetailsFull false (Some 0)) = Some v /\ is_null v = false /\
    value_get v "previousBlockhash" = Some (VString (cb_previous_blockhash b)) /\
    value_get v "blockhash" = Some (VString (cb_blockhash b)) /\
    value_get v "transactions" = Some (VArray entries) /\
    Forall2 (fun entry t => value_pointer entry "/transaction/0" = Some (VString (base64_encode (bincode_serialize t.1))))
      entries (cb_transactions b);
}.

Section serve_block.
Context `{C : Crypto} `{J : Json} `{S : Solana} `{L : !LedgerCodec} `{B : !BlockEncoding} `{R : Rocks}.
Implicit Types (self : Ledger).
Local Open Scope string_scope.

Definition rpc_get_block self (params : option (option Z * option RpcBlockConfig)) : result RpcError (option Value) :=
  params ← request_params params;
  let '(slot, config) := params in
  slot ← some_or_err slot;
  let config := default RpcBlockConfig_default config in
  let encoding := default EncodingJson (bc_encoding config) in
  let options := {|
    bo_transaction_details := default DetailsFull (bc_transaction_details config);
    bo_show_rewards := default true (bc_rewards config);
    bo_max_supported_transaction_version := bc_max_supported_transaction_version config |} in
  block ← map_err (fun _ => internal) (get_block self slot);
  Ok (block ≫= fun b => encode_with_options b encoding options).

(** [parse_params!(request.params()?, Slot, RpcBlockConfig)] *)
Definition params_slot_config (request : Value) : option (option Z * option RpcBlockConfig) :=
  params ← value_get request "params" ≫= as_array;
  Some (params !! 0%nat ≫= as_u64, params !! 1%nat ≫= config_from_value).

(** [dispatch] of a [getBlock] request. *)
Definition dispatch_get_block self (request : Value) : result string Value :=
  let id := default VNull (value_get request "id") in
  match rpc_get_block self (params_slot_config request) with
  | Ok encoded => Ok (encode_no_context id (default VNull encoded))
  | Err error => Ok (encode_error id error)
  | Panic => Err "connection closed"
  end.

Context `{!JsonLaws J} `{!BlockEncodingLaws B}.

Lemma block_params slot method : is_u64 slot ->
  params_slot_config (VObject [("jsonrpc", VString "2.0"); ("id", VNumber 1); ("method", VString method);
                               ("params", VArray [VNumber slot; block_config])]) =
  Some (Some slot, Some (MkBlockConfig (Some EncodingBase64) (Some DetailsFull) (Some false) (Some 0))).
Proof.
  intros Hs. unfold params_slot_config. rewrite get_field by done. cbn [field String.eqb Ascii.eqb Bool.eqb].
  cbn. rewrite as_array_array. cbn. rewrite as_u64_number by done. by rewrite config_from_base64.
Qed.

(** A call whose answer is a result. *)
Lemma call_answered (self : Client) method params id result :
  self (VObject [("jsonrpc", VString "2.0"); ("id", VNumber 1); ("method", VString method); ("params", params)])
    = Ok (encode_no_context id result) -> call self method params = Ok result.
Proof.
  intros H. unfold call. rewrite H. cbn [map_err]. rewrite bind_of_ok. unfold encode_no_context. by rewrite !get_field.
Qed.

Lemma hash_field_printed v name hash : value_get v name = Some (VString (Hash_to_string hash)) -> length hash = 32%nat ->
  hash_field v name = Ok hash.
Proof.
  intros Hv Hl. unfold hash_field, Hash_to_string in *. rewrite Hv. cbn. rewrite as_str_string. cbn [ok_or]. rewrite bind_of_ok.
  rewrite bs58_decode_encode. cbn [ok_or]. rewrite bind_of_ok. by rewrite try_into_array_in.
Qed.

Lemma mapM_observed entries (transactions : list (VersionedTransaction * TransactionStatusMeta)) listing :
  Forall2 (fun entry t => value_pointer entry "/transaction/0" = Some (VString (base64_encode (bincode_serialize t.1))))
    entries transactions ->
  Forall2 (fun t o => observe (bincode_serialize t.1) = Ok o) transactions listing ->
  mapM transaction entries = Ok listing.
Proof.
  intros He. revert listing. induction He as [|entry t entries transactions H _ IH]; intros listing Hl.
  { by apply Forall2_nil_inv_l in Hl as ->. }
  apply Forall2_cons_inv_l in Hl as (o & listing' & Ho & Hl & ->). cbn [mapM].
  assert (transaction entry = Ok o) as ->.
  { unfold transaction. rewrite H. cbn. rewrite as_str_string. cbn [ok_or]. by rewrite bind_of_ok, base64_decode_encode. }
  rewrite bind_of_ok. by rewrite (IH _ Hl).
Qed.

(** What the watchtower's client reads of a block is the block of the ledger. *)
Lemma served_block self slot previous hash (b : VersionedConfirmedBlock) listing :
  is_u64 slot -> get_block self slot = Ok (Some b) -> length previous = 32%nat -> length hash = 32%nat ->
  cb_previous_blockhash b = Hash_to_string previous -> cb_blockhash b = Hash_to_string hash ->
  Forall2 (fun t o => observe (bincode_serialize t.1) = Ok o) (cb_transactions b) listing ->
  Client_block (dispatch_get_block self) slot = Ok (Some (MkBlock slot previous hash listing)).
Proof.
  intros Hs Hb Hp Hh Ep Eh Hl. destruct (encode_base64 b) as (v & entries & Ev & Hnull & Hpv & Hhv & Htv & Hall).
  unfold Client_block. rewrite (call_answered _ _ _ (VNumber 1) v); cycle 1.
  { unfold dispatch_get_block. rewrite block_params by done. rewrite get_field by done.
    unfold rpc_get_block, request_params, some_or_err. cbn [ok_or]. rewrite bind_of_ok. cbn [ok_or]. 
    rewrite bind_of_ok, Hb. cbn. by rewrite Ev. }
  rewrite bind_of_ok, Hnull. unfold block. rewrite Ep in Hpv. rewrite Eh in Hhv.
  rewrite (hash_field_printed _ _ _ Hpv Hp), (hash_field_printed _ _ _ Hhv Hh), !bind_of_ok, Htv. cbn [mbind option_bind].
  rewrite as_array_array. cbn [ok_or]. rewrite bind_of_ok. by rewrite (mapM_observed _ _ _ Hall Hl).
Qed.

(** A slot the ledger refuses to read is answered with an error. *)
Lemma refused_block self slot e : is_u64 slot -> get_block self slot = Err e ->
  exists message, Client_block (dispatch_get_block self) slot = Err (Rpc message).
Proof.
  intros Hs Hb. unfold Client_block, call, dispatch_get_block. rewrite block_params by done. rewrite get_field by done.
  unfold rpc_get_block, request_params, some_or_err. cbn [ok_or]. rewrite bind_of_ok. cbn [ok_or]. rewrite bind_of_ok, Hb. cbn. unfold encode_error. rewrite get_field by done. cbn. by eexists.
Qed.
End serve_block.
