(* ===== verification/ToyLedger.v ===== *)
(** * A concrete ledger and executors

    Executable instances of the classes of the ledger, the executors and the block encoder. *)
From S2P Require Import Prelude Crypto Wire Watchtower Client Columns Rocks Store Locks Scheduler Ledger Executor Ingress Handlers Serve ServeBlock.

(** ** Any integer as bytes *)

Fixpoint toy_bits (p : positive) : bytes :=
  match p with
  | xH => []
  | xO p => x00 :: toy_bits p
  | xI p => x01 :: toy_bits p
  end.

Fixpoint toy_unbits (b : bytes) : positive :=
  match b with
  | [] => xH
  | x00 :: b => xO (toy_unbits b)
  | _ :: b => xI (toy_unbits b)
  end.

Definition toy_integer (z : Z) : bytes :=
  match z with
  | Z0 => []
  | Zpos p => x01 :: toy_bits p
  | Zneg p => x02 :: toy_bits p
  end.

Definition toy_uninteger (b : bytes) : Z :=
  match b with
  | [] => 0
  | x01 :: b => Zpos (toy_unbits b)
  | _ :: b => Zneg (toy_unbits b)
  end.

Lemma toy_integer_roundtrip z : toy_uninteger (toy_integer z) = z.
Proof.
  assert (forall p, toy_unbits (toy_bits p) = p) as H by (induction p; cbn; congruence).
  destruct z as [|p|p]; cbn; by rewrite ?H.
Qed.

(** ** The ledger's encodings *)

Definition toy_status (r : result TransactionError unit) : bytes :=
  match r with
  | Ok _ => [x00]
  | Panic => [x01]
  | Err AlreadyProcessed => [x02]
  | Err ClusterMaintenance => [x03]
  | Err CommitCancelled => [x04]
  | Err UnbalancedTransaction => [x05]
  | Err (OtherTransactionError code) => x06 :: toy_integer code
  end.

Definition toy_unstatus (b : bytes) : option (result TransactionError unit) :=
  match b with
  | [x00] => Some (Ok tt)
  | [x01] => Some Panic
  | [x02] => Some (Err AlreadyProcessed)
  | [x03] => Some (Err ClusterMaintenance)
  | [x04] => Some (Err CommitCancelled)
  | [x05] => Some (Err UnbalancedTransaction)
  | x06 :: b => Some (Err (OtherTransactionError (toy_uninteger b)))
  | _ => None
  end.

(** A status is all there is to the metadata of a transaction. *)
Definition toy_codec `{C : Crypto} : LedgerCodec (S := toy_solana) := {|
  TransactionStatusMeta := result TransactionError unit;
  meta_status m := m;
  GeneratedMeta := result TransactionError unit;
  generated_from m := m;
  generated_err_is_none g := is_ok g;
  generated_try_into g := Some g;
  protobuf_encode := toy_status;
  protobuf_decode := toy_unstatus;
  serialize_timestamp := toy_integer;
  deserialize_timestamp b := Some (toy_uninteger b);
  serialize_hash h := h;
  deserialize_hash := try_into_array 32;
  serialize_signature s := s;
  deserialize_signature := try_into_array 64;
  serialize_address_meta writable := [if writable then x01 else x00];
  serialize_memo := String.list_byte_of_string;
  deserialize_memo b := Some (String.string_of_list_byte b);
  serialize_perf_sample s := toy_integer (num_transactions s);
  deserialize_perf_sample b := Some (MkPerfSample (toy_uninteger b) 0 0 0);
  into_legacy_transaction t := Some t;
  verify_and_hash_message _ := true;
|}.

#[global] Instance toy_codec_laws `{C : Crypto} : LedgerCodecLaws toy_codec.
Proof.
  split; cbn.
  - intros [[]|[]|]; cbn; rewrite ?toy_integer_roundtrip; done.
  - intros m. by exists m.
  - done.
  - intros t. by rewrite toy_integer_roundtrip.
  - intros h Hh. by rewrite try_into_array_in.
  - intros s Hs. by rewrite try_into_array_in.
Qed.

(** ** The SVM's types *)

Record toy_account : Type := MkToyAccount {
  ta_privileged : bool; ta_dirty : bool; ta_confined : bool; ta_lamports_changed : bool
}.

Definition toy_svm `{C : Crypto} : @Svm toy_solana toy_codec :=
  @Build_Svm toy_solana toy_codec toy_account ta_privileged ta_dirty ta_confined ta_lamports_changed
    unit unit unit tt unit (fun _ _ status _ _ _ _ _ _ => status).

#[global] Instance toy_svm_laws `{C : Crypto} : SvmLaws toy_svm.
Proof. by split. Qed.

(** ** The block encoder *)

Definition toy_block_config (v : toy_value) : option RpcBlockConfig :=
  match v with
  | TObject [(_, TString "base64"); (_, TString "full"); (_, TBool rewards); (_, TNumber version)]%string =>
      Some (MkBlockConfig (Some EncodingBase64) (Some DetailsFull) (Some rewards) (Some version))
  | _ => None
  end.

Definition toy_encode_block `{C : Crypto} (b : VersionedConfirmedBlock (L := toy_codec)) : toy_value :=
  TObject [("previousBlockhash", TString (cb_previous_blockhash b)); ("blockhash", TString (cb_blockhash b));
           ("transactions", TArray (map (fun t =>
              TObject [("transaction", TArray [TString (String.string_of_list_byte t.1); TString "base64"])])
              (cb_transactions b)))]%string.

Definition toy_block_encoding `{C : Crypto} : @BlockEncoding toy_solana toy_codec toy_json :=
  @Build_BlockEncoding toy_solana toy_codec toy_json toy_block_config (fun t => t)
    (fun b _ _ => Some (toy_encode_block b)).

#[global] Instance toy_block_encoding_laws `{C : Crypto} : BlockEncodingLaws toy_block_encoding.
Proof.
  split; [done|]. intros b. eexists _, _. split; [done|]. repeat (split; [done|]).
  induction (cb_transactions b) as [|t l IH]; [apply List.Forall2_nil|]. cbn [map]. by apply List.Forall2_cons.
Qed.
