(* ===== verification/ServeProperties.v ===== *)
(** * What a reader of the served log gets

    A page of the log round-trips through the RPC layer and the watchtower's client; after a restart
    the stored receipts of the earlier run are overwritten. *)
From S2P Require Import Prelude Constants Crypto Receipt Columns Rocks Store ReceiptLog Pending Writer WriterLog WriterProperties Wire Watchtower Client Locks Scheduler Ingress Handlers Serve.

(** C29: what the node serves is what it published.  Let a writer run any commands on a ledger that
    held no receipts, with no failing disk.  A watchtower that asks the node for [limit] receipts from
    [from] on gets, through the column iterator, the JSON encoding, base64 and its own parser, exactly
    the entries of the published log from that position on, as many as it asked for but at most
    [MAX_RECEIPTS_LIMIT]. *)
Theorem served_page_is_log `{C : Crypto} `{!CryptoLaws C} `{J : Json} `{!JsonLaws J} `{R : Rocks} `{!RocksLaws R}
    (ledger : rocks) (key : SigningKey) (nanos minted : Z) (equivocation : bool)
    (deadline : RevealDeadline) (commands : list (Instant * WriterCommand)) (replies : list Reply)
    (self : ReceiptWriter) (from limit : Z) (items : list (bytes * bytes))
    (Hd : 0 <= dl_max_outstanding deadline) (Hwf : commands_wf commands)
    (Hlen : Z.of_nat (length commands) < 2 ^ 64) (Hempty : open_from ledger 0)
    (Hrun : ReceiptWriter_run commands
              (ReceiptWriter_new ledger key nanos minted equivocation deadline) = (replies, self))
    (Hh : Forall healthy replies) (Hf : is_u64 from) (Hl : is_u64 limit)
    (Hitems : iterator_cf (w_ledger self) ReceiptBySeq (IterFrom (ReceiptBySeq_key from) Forward) = map Ok items) :
  Client_receipts (dispatch_get_receipts (w_ledger self)) from limit =
    Ok (take (Z.to_nat (Z.min limit MAX_RECEIPTS_LIMIT)) (drop (Z.to_nat from) (w_events self))).
Proof.
  destruct (run_inv commands [] _ _ _ (writer_inv_new ledger key nanos minted equivocation deadline Hd)
    Hwf Hlen Hh Hrun) as (_ & log & Hi & _). cbn [app] in Hi.
  pose proof (run_open commands [] _ _ _ (writer_inv_new ledger key nanos minted equivocation deadline Hd)
    Hwf Hlen Hh Hrun Hempty) as [Hk Hopen].
  rewrite (wi_seq _ _ Hi) in Hopen. rewrite (wi_events _ _ Hi).
  destruct (decide (Z.of_nat (length log) <= 2 ^ 64)) as [Hlt|Hge].
  - eapply client_page; [|apply (wi_chain _ _ Hi)|done..|exact Hitems].
    split; [done|split; [apply (wi_stored _ _ Hi)|done]].
  - destruct (lookup_lt_is_Some_2 log (Z.to_nat (2 ^ 64))) as [s Hs]; [lia|].
    destruct (wi_chain _ _ Hi _ _ Hs) as [[(_ & Hu & _) _] _ _ Hseq _]. unfold is_u64 in Hu. lia.
Qed.

#[local] Existing Instance toy_crypto.
#[local] Existing Instance toy_rocks.
#[local] Existing Instance toy_json.

Lemma toy_disk_open : open_from (R := toy_rocks) toy_disk 0.
Proof. split; [by intros k v ?|done]. Qed.

Lemma served_page_is_log_witness :
  Client_receipts (dispatch_get_receipts (w_ledger (toy_run false).2)) 1 5000 =
    Ok (drop 1 (w_events (toy_run false).2)) /\ length (w_events (toy_run false).2) = 3%nat.
Proof.
  split; [|vm_compute; reflexivity].
  transitivity (Ok (E := ClientError) (take 1000 (drop 1 (w_events (toy_run false).2)))); [|vm_compute; reflexivity].
  apply (served_page_is_log (C := toy_crypto) (J := toy_json) (R := toy_rocks) toy_disk (fill 32 x41) 77 0 false
    RevealDeadline_default toy_commands (toy_run false).1 (toy_run false).2 1 5000
    (toy_rows (t_columns (w_ledger (toy_run false).2) ReceiptBySeq) (IterFrom (ReceiptBySeq_key 1) Forward))).
  - eval_done.
  - apply toy_commands_wf.
  - eval_done.
  - apply toy_disk_open.
  - exact (toy_runs false).
  - apply toy_healthy.
  - eval_done.
  - eval_done.
  - reflexivity.
Defined.

(** C35: a restart gives away old receipts' places.  A writer numbers from zero each time it is built,
    and rows are keyed by number alone.  So when a node is restarted on its ledger and stamps a
    first transaction, that row is overwritten: asked for the receipt of the first transaction of the
    earlier run, [getReceipt] answers with the receipt of a different transaction, from a different
    log, and the earlier receipt is stored nowhere in the log. *)
Theorem restart_overwrites_receipts `{C : Crypto} `{!CryptoLaws C} `{J : Json} `{R : Rocks} `{!RocksLaws R}
    (ledger : rocks) (key : SigningKey) (nanos minted nanos' minted' : Z) (deadline : RevealDeadline)
    (now now' : Instant) (sig sig' wire wire' blockhash blockhash' : bytes)
    (first second : SignedReceipt) (self self' : ReceiptWriter)
    (H1 : handle_stamp now sig wire blockhash
            (ReceiptWriter_new ledger key nanos minted false deadline) = (Ok first, self))
    (H2 : handle_stamp now' sig' wire' blockhash'
            (ReceiptWriter_new (w_ledger self) key nanos' minted' false deadline) = (Ok second, self'))
    (Hne : sig <> sig') (Hr : readable (w_ledger self')) :
  r_tx_sig (s_receipt first) = sig /\ r_tx_sig (s_receipt second) = sig' /\
  get_receipt (w_ledger self') (Some (Some sig)) =
    Ok (Some (ReceiptEntry_new 0 OUTCOME_PENDING (SignedReceipt_to_bytes second))) /\
  row (w_ledger self') 0 = Some (OUTCOME_PENDING :: SignedReceipt_to_bytes second).
Proof.
  unfold handle_stamp in H1, H2. destruct (stamp now _ _ _ _) as [r1 w1] eqn:S1.
  destruct (stamp now' _ _ _ _) as [r2 w2] eqn:S2. injection H1 as -> <-. injection H2 as -> <-.
  apply stamp_cases in S1 as [(? & ? & _)|(a & a' & l1 & Sa & _ & Pa & [(? & ? & _)|(E1 & W1 & ->)])]; [done..|].
  apply stamp_cases in S2 as [(? & ? & _)|(b & b' & l2 & Sb & _ & Pb & [(? & ? & _)|(E2 & W2 & ->)])]; [done..|].
  injection E1 as <-. injection E2 as <-. cbn in Pa, Pb. subst a' b'. cbn in W1, W2, Hr |- *.
  apply Receipt_sign_Ok in Sa as [_ ->], Sb as [_ Eb].
  pose proof (write_receipt_Ok _ _ _ _ _ _ _ W1) as H1. pose proof (write_receipt_Ok _ _ _ _ _ _ _ W2) as H2.
  assert (row l2 0 = Some (OUTCOME_PENDING :: SignedReceipt_to_bytes second)) as Hrow.
  { unfold row. rewrite H2, written_row. apply overlay_hit. }
  split_conj; [done|by rewrite Eb| |done].
  unfold get_receipt. cbn [request_params some_or_err ok_or mbind result_bind].
  rewrite (read_receipt_by_signature_row _ _ 0 OUTCOME_PENDING (SignedReceipt_to_bytes second)); try done.
  rewrite H2. unfold written, overlay. rewrite decide_False by congruence. rewrite decide_False by done.
  rewrite H1. unfold written, overlay. by rewrite decide_True.
Qed.

Abbreviation toy_before :=
  (handle_stamp (C := toy_crypto) (R := toy_rocks) (MkInstant 10 1000) (fill 64 x51) [x11] (fill 32 x02)
    (ReceiptWriter_new (C := toy_crypto) (R := toy_rocks) toy_disk (fill 32 x41) 77 0 false RevealDeadline_default)).
Abbreviation toy_after :=
  (handle_stamp (C := toy_crypto) (R := toy_rocks) (MkInstant 20 2000) (fill 64 x52) [x12] (fill 32 x03)
    (ReceiptWriter_new (C := toy_crypto) (R := toy_rocks) (w_ledger toy_before.2) (fill 32 x41) 99 0 false
       RevealDeadline_default)).
Definition toy_ok (r : result StampError SignedReceipt) : SignedReceipt :=
  match r with Ok s => s | _ => MkSigned sample_receipt [] end.

Lemma toy_ok_eq {B} (p : result StampError SignedReceipt * B) : is_ok p.1 = true -> p = (Ok (toy_ok p.1), p.2).
Proof. by destruct p as [[]]. Qed.

Lemma restart_overwrites_receipts_witness :
  get_receipt (w_ledger toy_after.2) (Some (Some (fill 64 x51))) =
    Ok (Some (ReceiptEntry_new 0 OUTCOME_PENDING (SignedReceipt_to_bytes (toy_ok toy_after.1)))).
Proof.
  refine (proj1 (proj2 (proj2 (restart_overwrites_receipts (C := toy_crypto) (J := toy_json) (R := toy_rocks)
    toy_disk (fill 32 x41) 77 0 99 0 RevealDeadline_default (MkInstant 10 1000) (MkInstant 20 2000)
    (fill 64 x51) (fill 64 x52) [x11] [x12] (fill 32 x02) (fill 32 x03)
    (toy_ok toy_before.1) (toy_ok toy_after.1) toy_before.2 toy_after.2
    (toy_ok_eq toy_before _) (toy_ok_eq toy_after _) _ (fun _ _ => eq_refl))))).
  - vm_compute. reflexivity.
  - vm_compute. reflexivity.
  - done.
Defined.
