(* ===== verification/HandlersInv.v ===== *)
(** * Nothing reaches the scheduler without a receipt

    A program logic for handlers over the growing receipt log, and the invariant of the system of
    concurrent handlers that follows from it. *)
From S2P Require Import Prelude Constants Crypto Receipt Columns Rocks Store ReceiptLog Pending Writer WriterLog Wire Locks Scheduler Ingress Handlers.

Section logic.
Context `{C : Crypto}.
Implicit Types (log : list SignedReceipt).

(** A receipt of the log stands behind the transaction: by its signature, or by its contents. *)
Definition receipted log (txn : ProcessableTransaction) : Prop :=
  exists s, s ∈ log /\
    ((r_mode (s_receipt s) = Plain /\ r_tx_sig (s_receipt s) = pt_signature txn /\
      forall wire, pt_encoded txn = Some wire -> r_tx_hash (s_receipt s) = tx_hash wire) \/
     (r_mode (s_receipt s) = Commit /\
      exists wire, pt_encoded txn = Some wire /\ r_tx_hash (s_receipt s) = tx_hash wire)).

Definition forward_receipted log (f : Forwardable) : Prop :=
  receipted log (processable (we_txn f) (ModeExecution false) (Some (we_encoded f))).

(** What a handler has to know before it makes a call, when the log is [log]. *)
Definition required log (call : Call) : Prop :=
  match call with
  | AskWriter command =>
      forall now, is_u64 (i_slot now) -> is_u64 (i_micros now) -> command_wf now command
  | Intercept transaction => forward_receipted log transaction
  | SendToScheduler txn => executes (pt_mode txn) = true -> receipted log txn
  | _ => True
  end.

(** What it may rely on in the answer, when the log is [log] afterwards. *)
Definition answered log (call : Call) : answer_of call -> Prop :=
  match call return answer_of call -> Prop with
  | AskWriter (CmdStamp tx_sig wire_bytes _) => fun reply =>
      forall s, reply = ReplyReceipt (Ok s) ->
        s ∈ log /\ is_u64 (r_seq (s_receipt s)) /\ r_mode (s_receipt s) = Plain /\
        r_tx_sig (s_receipt s) = tx_sig /\ r_tx_hash (s_receipt s) = tx_hash wire_bytes
  | AskWriter (CmdCommit tx_hash committer) => fun reply =>
      forall s, reply = ReplyReceipt (Ok s) ->
        s ∈ log /\ r_mode (s_receipt s) = Commit /\ r_tx_hash (s_receipt s) = tx_hash /\
        r_committer (s_receipt s) = committer
  | AskWriter (CmdReveal tx_hash _) => fun reply =>
      forall seq commit, reply = ReplyReveal (Some (seq, commit)) ->
        is_u64 seq /\ exists s, s ∈ log /\ r_seq (s_receipt s) = seq /\
          r_mode (s_receipt s) = Commit /\ r_tx_hash (s_receipt s) = tx_hash
  | Intercept _ => Forall (forward_receipted log)
  | _ => fun _ => True
  end.

(** From the log [log] on, and whatever other handlers add to it, the program makes only calls it may
    make, and ends in [Q]. *)
Fixpoint wp {A} (p : prog A) log (Q : A -> list SignedReceipt -> Prop) : Prop :=
  match p with
  | Ret a => Q a log
  | Vis call rest => required log call /\
      forall log' x, log `prefix_of` log' -> answered log' call x -> wp (rest x) log' Q
  end.

Lemma elem_of_prefix log log' (s : SignedReceipt) : log `prefix_of` log' -> s ∈ log -> s ∈ log'.
Proof. intros [ext ->] Hs. apply elem_of_app. by left. Qed.

Lemma receipted_prefix log log' txn : log `prefix_of` log' -> receipted log txn -> receipted log' txn.
Proof. intros Hp (s & Hs & H). exists s. split; [by eapply elem_of_prefix|done]. Qed.

Lemma required_prefix log log' (call : Call) :
  log `prefix_of` log' -> required log call -> required log' call.
Proof.
  intros Hp. destruct call; try done; cbn; [by apply receipted_prefix|].
  intros H Hm. eapply receipted_prefix; [done|auto].
Qed.

Lemma wp_prefix {A} (p : prog A) log log' Q :
  (forall a log log', log `prefix_of` log' -> Q a log -> Q a log') ->
  log `prefix_of` log' -> wp p log Q -> wp p log' Q.
Proof.
  intros HQ Hp. destruct p; cbn; [by apply HQ|]. intros [Hr Hk]. split; [by eapply required_prefix|].
  intros log'' x Hp'. apply Hk. by etransitivity.
Qed.

Lemma wp_mono {A} (p : prog A) log Q Q' :
  (forall a log', log `prefix_of` log' -> Q a log' -> Q' a log') -> wp p log Q -> wp p log Q'.
Proof.
  revert log. induction p as [a|call rest IH]; intros log HQ; cbn; [by apply HQ|].
  intros [Hr Hk]. split; [done|]. intros log' x Hp Hx. apply IH; [|by apply Hk].
  intros a log'' Hp' Ha. apply HQ; [by etransitivity|done].
Qed.

Lemma wp_bind {A B} (p : prog A) (f : A -> prog B) log Q :
  wp p log (fun a log' => wp (f a) log' Q) -> wp (p ≫= f) log Q.
Proof.
  revert log. induction p as [a|call rest IH]; intros log; [done|].
  intros [Hr Hk]. split; [done|]. intros log' x Hp Hx. by apply IH, Hk.
Qed.

Lemma wp_ask (call : Call) log Q :
  required log call -> (forall log' x, log `prefix_of` log' -> answered log' call x -> Q x log') ->
  wp (ask call) log Q.
Proof. done. Qed.

Lemma wp_try {E A B} (p : prog (result E A)) (f : A -> prog (result E B)) log Q :
  wp p log (fun r log' => match r with
                          | Ok a => wp (f a) log' Q
                          | Err e => Q (Err e) log'
                          | Panic => Q Panic log'
                          end) ->
  wp (try_bind p f) log Q.
Proof. intros H. apply wp_bind. eapply wp_mono, H. by intros [] log'. Qed.

(** Programs that only read what the invariant does not constrain. *)
Lemma wp_ask_any (call : Call) log Q :
  required log call -> (forall x log', log `prefix_of` log' -> Q x log') -> wp (ask call) log Q.
Proof. intros Hr HQ. apply wp_ask; auto. Qed.
End logic.

Ltac wp_intros := let x := fresh "x" in let log := fresh "log" in let Hp := fresh "Hp" in intros x log Hp.

(** Step through a handler: a call whose answer carries nothing, a test, a branch. *)
Ltac wp_step :=
  match goal with
  | |- wp (try_bind (Ret _) _) _ _ => apply wp_try; cbn [wp]
  | |- wp (try_bind _ _) _ _ => apply wp_try
  | |- wp (mbind _ (ask _)) _ _ => apply wp_bind
  | |- wp (mbind _ _) _ _ => apply wp_bind
  | |- wp (ask NeedsOnchain) _ _ => apply wp_ask_any; [done|wp_intros]
  | |- wp (ask BlocksReady) _ _ => apply wp_ask_any; [done|wp_intros]
  | |- wp (ask (BlocksContains _)) _ _ => apply wp_ask_any; [done|wp_intros]
  | |- wp (ask (TransactionsContains _)) _ _ => apply wp_ask_any; [done|wp_intros]
  | |- wp (ask (TransactionsPush _)) _ _ => apply wp_ask_any; [done|wp_intros]
  | |- wp (ask (EnsureAccounts _)) _ _ => apply wp_ask_any; [done|wp_intros]
  | |- wp (ask (AwaitResult _)) _ _ => apply wp_ask_any; [done|wp_intros]
  | |- wp (Ret _) _ _ => cbn [wp]
  end.

(** ** The handlers *)

Section handlers.
Context `{C : Crypto} `{!CryptoLaws C} `{J : Json} `{S : Solana} `{!SolanaLaws S}.
Implicit Types (log : list SignedReceipt) (txn : SanitizedTransaction).

(** What the Rust types of a sanitized transaction guarantee. *)
Definition sanitized_wf txn : Prop :=
  length (sz_signature txn) = 64%nat /\ length (sz_recent_blockhash txn) = 32%nat.

(** What a client can rely on in an answer: the receipt it names is an entry of the log. *)
Definition answer_ok (answer : result RpcError Answer) log : Prop :=
  match answer with
  | Ok (ReceiptedSignature signature text) => exists s, s ∈ log /\ r_mode (s_receipt s) = Plain /\
      r_tx_sig (s_receipt s) = signature /\ text = base64_encode (SignedReceipt_to_bytes s)
  | Ok (CommitTicket seq text) => exists s, s ∈ log /\ r_mode (s_receipt s) = Commit /\
      r_seq (s_receipt s) = seq /\ text = base64_encode (SignedReceipt_to_bytes s)
  | Ok (RevealedSignature signature seq) => exists s, s ∈ log /\ r_mode (s_receipt s) = Commit /\
      r_seq (s_receipt s) = seq
  | _ => True
  end.

Lemma answer_ok_prefix answer log log' : log `prefix_of` log' -> answer_ok answer log -> answer_ok answer log'.
Proof.
  intros Hp. destruct answer as [[]|e|]; cbn; try done;
    intros (s & Hs & H); exists s; (split; [by eapply elem_of_prefix|done]).
Qed.

Lemma wp_require_primary log Q :
  (forall r log', log `prefix_of` log' -> Q r log') -> wp require_primary_rpc_method log Q.
Proof.
  intros HQ. unfold require_primary_rpc_method. repeat wp_step.
  destruct x; cbn [ensure]; [|by apply HQ]. repeat wp_step. destruct x; cbn [ensure wp]; apply HQ; by etransitivity.
Qed.

Lemma wp_ensure_accounts txn log Q :
  (forall r log', log `prefix_of` log' -> Q r log') -> wp (ensure_transaction_accounts txn) log Q.
Proof.
  intros HQ. unfold ensure_transaction_accounts. wp_step. apply wp_require_primary. intros [] log' Hp; [|by apply HQ..].
  repeat wp_step. apply HQ. by etransitivity.
Qed.

Lemma wp_reserve signature log Q :
  (forall r log', log `prefix_of` log' -> Q r log') -> wp (reserve_signature signature) log Q.
Proof.
  intros HQ. unfold reserve_signature. repeat wp_step. destruct x; [by apply HQ|].
  repeat wp_step. apply HQ. by etransitivity.
Qed.

Lemma wp_prepare text encoding log Q :
  (forall r log', log `prefix_of` log' -> (forall f, r = Ok f -> sanitized_wf (we_txn f)) -> Q r log') ->
  wp (prepare_transaction text encoding) log Q.
Proof.
  intros HQ. unfold prepare_transaction. wp_step.
  destruct (decode_transaction text encoding) as [encoded|e|]; [|by apply HQ..]. wp_step.
  destruct (ok_or (bincode_deserialize encoded) invalid_params) as [t|e|]; [|by apply HQ..]. wp_step.
  destruct (validate_supported_transaction_shape t); [|by apply HQ..]. repeat wp_step.
  destruct x; cbn [ensure]; [|by apply HQ]. repeat wp_step.
  destruct (tx_sanitize t) as [s|e|] eqn:Hs; cbn [map_err]; [|by apply HQ|by apply sanitize_total in Hs].
  apply HQ; [done|]. intros f [= <-]. cbn. split.
  - apply sanitize_signature in Hs. pose proof (length_signatures t) as Hl.
    destruct (tx_signatures t) as [|sig sigs]; [done|]. injection Hs as <-. by apply Forall_cons in Hl as [? _].
  - apply sanitize_blockhash in Hs as <-. apply length_blockhash.
Qed.

Lemma wp_stamp txn wire log Q : sanitized_wf txn ->
  (forall r log', log `prefix_of` log' ->
    (forall s, r = Ok s -> s ∈ log' /\ is_u64 (r_seq (s_receipt s)) /\ r_mode (s_receipt s) = Plain /\
       r_tx_sig (s_receipt s) = sz_signature txn /\ r_tx_hash (s_receipt s) = tx_hash wire) -> r <> Panic -> Q r log') ->
  wp (stamper_stamp (sz_signature txn) wire (sz_recent_blockhash txn)) log Q.
Proof.
  intros [Hs Hb] HQ. unfold stamper_stamp. repeat wp_step. apply wp_ask; [done|].
  intros log' reply Hp Ha. cbn. apply HQ; [done| |].
  - intros s. destruct reply as [[r|e|]| |]; try done. intros [= ->]. by apply Ha.
  - by destruct reply as [[]| |].
Qed.

Lemma wp_record_outcome seq outcome log Q :
  is_u64 seq -> (forall log', log `prefix_of` log' -> Q tt log') -> wp (record_outcome seq outcome) log Q.
Proof. intros Hs HQ. unfold record_outcome. repeat wp_step. apply wp_ask_any; [done|]. intros. by apply HQ. Qed.

Lemma wp_send_to_scheduler t log Q :
  (executes (pt_mode t) = true -> receipted log t) -> (forall b log', log `prefix_of` log' -> Q b log') ->
  wp (ask (SendToScheduler t)) log Q.
Proof. intros Hr HQ. by apply wp_ask_any. Qed.

Lemma wp_submit skip f log Q :
  forward_receipted log f -> (forall r log', log `prefix_of` log' -> Q r log') -> wp (submit skip f) log Q.
Proof.
  intros Hr HQ. destruct skip; cbn [submit];
    unfold schedule_receipted, execute_receipted, schedule_inner, send_execution; wp_step; cbn [wp]; wp_step.
  - apply wp_send_to_scheduler; [done|]. intros b log' Hp. by apply HQ.
  - apply wp_send_to_scheduler; [done|]. intros [] log' Hp; wp_step; cbn [ensure]; [|by apply HQ]. repeat wp_step.
    apply HQ. by etransitivity.
Qed.

Lemma wp_forward_all skip fs : forall scheduled log Q,
  Forall (forward_receipted log) fs -> (forall r log', log `prefix_of` log' -> Q r log') ->
  wp (forward_all skip fs scheduled) log Q.
Proof.
  induction fs as [|f fs IH]; intros scheduled log Q Hfs HQ; cbn [forward_all wp]; [by apply HQ|].
  apply Forall_cons in Hfs as [Hf Hfs]. wp_step. apply wp_submit; [done|]. intros r log' Hp. apply IH.
  - eapply Forall_impl; [exact Hfs|]. intros f'. by apply receipted_prefix.
  - intros r' log'' Hp'. apply HQ. by etransitivity.
Qed.

(** After the contents are placed: submitting, recording the outcome, answering. *)
Lemma wp_conclude {A} (p : prog (result TransactionError unit)) seq (a : A) log Q :
  is_u64 seq -> wp p log (fun _ _ => True) ->
  (forall r log', log `prefix_of` log' -> r = Ok a \/ (forall a', r <> Ok a') -> Q r log') ->
  wp (scheduled ← p; _ ← record_outcome seq (outcome_of scheduled);
      _ ←! map_err RpcError_from scheduled; Ret (Ok a)) log Q.
Proof.
  intros Hs Hp HQ. wp_step. eapply wp_mono, Hp. intros scheduled log' Hlog _. wp_step.
  apply wp_record_outcome; [done|]. intros log'' Hp''. wp_step.
  destruct scheduled; cbn; (apply HQ; [by etransitivity|naive_solver]).
Qed.

Lemma wp_refuse {A} seq (e : RpcError) log (Q : result RpcError A -> _ -> Prop) :
  is_u64 seq -> (forall r log', log `prefix_of` log' -> (forall a, r <> Ok a) -> Q r log') ->
  wp (_ ← record_outcome seq Rejected; Ret (Err e)) log Q.
Proof. intros Hs HQ. wp_step. apply wp_record_outcome; [done|]. intros log' Hp. cbn. by apply HQ. Qed.

Lemma answer_ok_refused (r : result RpcError Answer) log : (forall a, r <> Ok a) -> answer_ok r log.
Proof. destruct r; naive_solver. Qed.

Lemma wp_send_transaction params log : wp (send_transaction params) log answer_ok.
Proof.
  unfold send_transaction. wp_step. apply wp_require_primary. intros [] log0 Hp0; [|done..]. wp_step.
  destruct (request_params params) as [[text config]|e|]; [|done..]. wp_step.
  destruct (some_or_err _) as [text'|e|]; [|done..]. wp_step.
  apply wp_prepare. intros [f|e|] log1 Hp1 Hwf; [|done..]. specialize (Hwf f eq_refl). wp_step.
  apply wp_reserve. intros [] log2 Hp2; [|done..]. wp_step. apply (wp_stamp (we_txn f)); [done|].
  intros [s|e|] log3 Hp3 Hs Hnp; [|done..]. destruct (Hs s eq_refl) as (Hin & Hu & Hmode & Hsig & Hhash).
  wp_step. cbn [map_err]. wp_step. apply wp_ensure_accounts. intros [[]|e|] log4 Hp4; [| |done].
  - wp_step. apply wp_ask.
    + exists s. split; [by eapply elem_of_prefix|]. left. split_conj; [done..|]. by intros wire [= <-].
    + intros log5 fs Hp5 Hfs. apply wp_conclude; [done|by apply wp_forward_all|].
      intros r log6 Hp6 [->|Hr]; [|by apply answer_ok_refused]. exists s.
      split; [|done]. do 3 (eapply elem_of_prefix; [eassumption|]). done.
  - apply wp_refuse; [done|]. intros. by apply answer_ok_refused.
Qed.

Lemma wp_commit_transaction params log : wp (commit_transaction params) log answer_ok.
Proof.
  unfold commit_transaction. wp_step. apply wp_require_primary. intros [] log0 Hp0; [|done..]. wp_step.
  destruct (request_params params) as [[[p1 p2] p3]|e|]; [|done..]. wp_step.
  destruct (some_or_err _) as [hash|e|]; [|done..]. wp_step.
  destruct (some_or_err _) as [text|e|]; [|done..]. wp_step.
  destruct (some_or_err _) as [signature|e|]; [|done..]. wp_step.
  destruct (decode_hash hash) as [h|e|] eqn:Hh; [|done..]. wp_step.
  destruct (decode_pubkey text) as [committer|e|] eqn:Hc; [|done..]. wp_step.
  destruct (verify_commitment h committer signature); [|done..]. unfold stamper_commit. do 2 wp_step.
  unfold decode_hash, decode_pubkey in *.
  apply ok_or_Ok, bind_Some in Hh as (? & _ & Hh), Hc as (? & _ & Hc).
  apply try_into_array_Some in Hh as [Hh <-], Hc as [Hc <-].
  apply wp_ask; [done|]. intros log1 reply Hp1 Ha. wp_step. wp_step.
  destruct reply as [[s|e|]| |]; cbn [map_err]; [|done..]. cbn [wp]. destruct (Ha s eq_refl) as (Hin & Hm & _).
  by exists s.
Qed.

Lemma wp_reveal_transaction params log : wp (reveal_transaction params) log answer_ok.
Proof.
  unfold reveal_transaction. wp_step. apply wp_require_primary. intros [] log0 Hp0; [|done..]. wp_step.
  destruct (request_params params) as [[text config]|e|]; [|done..]. wp_step.
  destruct (some_or_err _) as [text'|e|]; [|done..]. wp_step.
  apply wp_prepare. intros [f|e|] log1 Hp1 Hwf; [|done..]. destruct (Hwf f eq_refl) as [Hsig _]. wp_step.
  apply wp_reserve. intros [] log2 Hp2; [|done..]. unfold stamper_reveal. do 2 wp_step.
  apply wp_ask; [intros now ? ?; split; [done|split; [done|split; [apply length_sha256|done]]]|]. intros log3 reply Hp3 Ha. wp_step.
  destruct reply as [|[[seq commit]|]|]; [done| |done..].
  destruct (Ha seq commit eq_refl) as (Hu & s & Hin & Hseq & Hm & Hhash).
  wp_step. apply wp_ensure_accounts. intros [[]|e|] log4 Hp4; [| |done].
  - assert (s ∈ log4) by (by eapply elem_of_prefix). apply wp_conclude; [done| |].
    + apply wp_submit; [|done]. exists s. split; [done|]. right. split; [done|]. by eexists.
    + intros r log5 Hp5 [->|Hr]; [|by apply answer_ok_refused]. exists s.
      split; [by eapply elem_of_prefix|done].
  - apply wp_refuse; [done|]. intros. by apply answer_ok_refused.
Qed.

(** The handle internal producers use, with a stamper installed. *)
Lemma wp_handle_stamp txn encoded log Q : sanitized_wf txn ->
  (forall r log', log `prefix_of` log' ->
    (r = Ok tt -> receipted log' (processable txn (ModeExecution false) encoded)) -> Q r log') ->
  wp (handle_stamp_ingress txn encoded) log Q.
Proof.
  intros Hwf HQ. unfold handle_stamp_ingress. wp_step.
  assert (forall wire, (forall w, encoded = Some w -> w = wire) ->
    wp (stamped ← stamper_stamp (sz_signature txn) wire (sz_recent_blockhash txn);
        Ret (map_err (fun _ => ClusterMaintenance) ((fun _ => tt) <$> stamped))) log Q) as H.
  { intros wire He. wp_step. apply wp_stamp; [done|]. intros r log' Hp Hs Hn. cbn [wp]. apply HQ; [done|].
    destruct r as [s|e|]; [|done..]. destruct (Hs s eq_refl) as (Hin & _ & Hm & Hsig & Hh). intros _.
    exists s. split; [done|]. left. split_conj; [done..|]. cbn. intros w ->. by rewrite (He w). }
  destruct encoded as [w|]; [apply H; congruence|].
  destruct (serialize_sanitized txn) as [w|]; cbn [ok_or]; [by apply H|by apply HQ].
Qed.

Lemma wp_schedule txn encoded log : sanitized_wf txn -> wp (schedule txn encoded) log (fun _ _ => True).
Proof.
  intros Hwf. unfold schedule, schedule_inner. wp_step. apply wp_handle_stamp; [done|].
  intros [[]|e|] log' Hp Hr; [|done..]. wp_step. by apply wp_send_to_scheduler; [auto|].
Qed.

Lemma wp_execute txn encoded log : sanitized_wf txn -> wp (execute txn encoded) log (fun _ _ => True).
Proof.
  intros Hwf. unfold execute, send_execution. wp_step. apply wp_handle_stamp; [done|].
  intros [[]|e|] log' Hp Hr; [|done..]. wp_step. apply wp_send_to_scheduler; [auto|].
  intros [] log'' Hp'; wp_step; cbn [ensure]; [|done]. repeat wp_step. done.
Qed.

Lemma wp_replay position txn encoded log : wp (replay position txn encoded) log (fun _ _ => True).
Proof. unfold replay. wp_step. by apply wp_send_to_scheduler. Qed.
End handlers.

(** ** The system *)

Section system.
Context `{C : Crypto} `{!CryptoLaws C} `{J : Json} `{S : Solana} `{!SolanaLaws S} `{R : Rocks} `{!RocksLaws R}.
Implicit Types (log : list SignedReceipt) (node : Node) (sys : System).

Definition task_ok (r : result RpcError Answer + result TransactionError unit) log : Prop :=
  match r with inl answer => answer_ok answer log | inr _ => True end.

Record node_inv log node : Prop := {
  ni_writer : writer_inv log (n_writer node);
  ni_honest : w_equivocation (n_writer node) = false;
  ni_rig : forall f, ar_held (n_rig node) = Some f -> forward_receipted log f;
  ni_inbox : Forall (fun t => executes (pt_mode t) = true -> receipted log t) (n_inbox node);
}.

Definition system_inv log sys : Prop :=
  node_inv log (sy_node sys) /\ Forall (fun p => wp p log task_ok) (sy_tasks sys).

Definition instant_wf (now : Instant) : Prop := is_u64 (i_slot now) /\ is_u64 (i_micros now).

Definition event_wf (event : SystemEvent) : Prop :=
  match event with
  | Arrive (Schedule txn _) | Arrive (Execute txn _) => sanitized_wf txn
  | Resume _ env => instant_wf (env_now env)
  | SweepTick now => instant_wf now
  | _ => True
  end.

(** What the writer's reply tells the handler that asked. *)
Lemma run_command_answered log self now command reply self' :
  writer_inv log self -> w_equivocation self = false -> command_wf now command ->
  Z.of_nat (length log) + 1 < 2 ^ 64 -> healthy reply -> run_command now command self = (reply, self') ->
  same_config self self' /\ exists ext, writer_inv (log ++ ext) self' /\ (length ext <= 1)%nat /\
    answered (log ++ ext) (AskWriter command) reply.
Proof.
  intros Hi Heq Hwf Hlen Hh Hrun.
  destruct (run_command_inv _ _ _ _ _ _ Hi Hwf Hlen Hh Hrun) as (Hcfg & ext & Hi' & Hlog).
  split; [done|]. exists ext. split_conj; [done|by eapply logged_length|].
  assert (forall s, reply = ReplyReceipt (Ok s) -> s ∈ log ++ ext) as Hin.
  { intros s ->. destruct Hlog as (published & -> & _ & Has). unfold published_as in Has.
    rewrite Heq in Has. cbn in Has. subst. apply elem_of_app. right. by left. }
  destruct command; cbn [answered run_command] in *; try done.
  - unfold handle_stamp in Hrun. destruct (stamp _ _ _ _ self) as [r1 self1] eqn:Hst. injection Hrun as <- _.
    intros s [= ->]. specialize (Hin s eq_refl).
    apply stamp_cases in Hst as [(? & ? & _)|(signed & published & ledger & Hs & _ & _ & [(? & ? & _)|(E & _)])];
      [done..|]. injection E as ->. apply Receipt_sign_Ok in Hs as [_ Es]. rewrite Es. cbn.
    split; [by rewrite <-Es|]. split; [|done]. rewrite (wi_seq _ _ Hi). unfold is_u64. lia.
  - unfold handle_commit in Hrun. destruct (commit _ _ _ self) as [r1 self1] eqn:Hst. injection Hrun as <- _.
    intros s [= ->]. specialize (Hin s eq_refl).
    apply commit_cases in Hst as [(? & ? & _)|[(? & ? & ? & _)|(signed & ledger & E & _ & Hs & _)]]; [done..|].
    injection E as ->. apply Receipt_sign_Ok in Hs as [_ Es]. rewrite Es. cbn. by rewrite <-Es.
  - unfold handle_reveal, PendingCommits_claim in Hrun.
    destruct (w_pending self !! tx_hash) as [e|] eqn:He; [|injection Hrun as <- _; done].
    destruct (index_receipt_signature _ _ _). injection Hrun as <- _. intros seq commit [= ->].
    destruct (wi_pending _ _ Hi _ _ He) as (H0 & _ & s & Hl & Hm & Hh' & _). cbn in Hl, H0.
    pose proof (lookup_lt_Some _ _ _ Hl). pose proof (entry_seq _ _ _ _ _ (wi_chain _ _ Hi _ _ Hl)) as Hs.
    split; [unfold is_u64; lia|]. exists s. split_conj; [|lia|done..].
    apply elem_of_app. left. by eapply list_elem_of_lookup_2.
Qed.

Lemma with_writer_inv log ext node writer reply :
  node_inv log node -> same_config (n_writer node) writer -> writer_inv (log ++ ext) writer ->
  node_inv (log ++ ext) (with_writer node writer reply).
Proof.
  intros [] (_ & _ & Heq & _) Hw. split; cbn; [done|congruence|..].
  - intros f Hf. eapply receipted_prefix; [by eexists|by apply ni_rig0].
  - eapply Forall_impl; [exact ni_inbox0|]. intros t Ht Hm. eapply receipted_prefix; [by eexists|by apply Ht].
Qed.

Lemma intercept_receipted log rig f fs rig' :
  forward_receipted log f -> (forall g, ar_held rig = Some g -> forward_receipted log g) ->
  intercept rig f = (fs, rig') ->
  Forall (forward_receipted log) fs /\ forall g, ar_held rig' = Some g -> forward_receipted log g.
Proof.
  intros Hf Hg. unfold intercept.
  destruct (ar_mode rig), (ar_held rig) as [g|] eqn:E; intros [= <- <-]; cbn; rewrite ?E; split;
    repeat constructor; naive_solver.
Qed.

(** A call that may be made keeps the invariant, and is answered as promised. *)
Lemma answer_inv log node env (call : Call) x node' :
  node_inv log node -> required log call -> instant_wf (env_now env) ->
  Z.of_nat (length log) + 1 < 2 ^ 64 -> Forall healthy (n_replies node') ->
  answer env call node = (x, node') ->
  exists ext, (length ext <= 1)%nat /\ node_inv (log ++ ext) node' /\ answered (log ++ ext) call x.
Proof.
  intros Hi Hreq [Hslot Hmicros] Hlen Hh.
  assert (forall node', node_inv log node' -> answered log call x ->
    exists ext, (length ext <= 1)%nat /\ node_inv (log ++ ext) node' /\ answered (log ++ ext) call x) as Hsame.
  { intros. exists []. rewrite app_nil_r. split_conj; [cbn; lia|done..]. }
  destruct call; cbn [answer]; intros Hans; try (injection Hans as <- <-; by apply Hsame).
  - destruct (cache_push _ _ _ _) as [new cache]. injection Hans as <- <-. apply Hsame; [|done].
    destruct Hi. by split.
  - destruct (run_command _ _ _) as [reply writer] eqn:Hrun. injection Hans as <- <-. cbn in Hh.
    apply Forall_app in Hh as [_ [Hh _]%Forall_cons].
    destruct (run_command_answered _ _ _ _ _ _ (ni_writer _ _ Hi) (ni_honest _ _ Hi)
      (Hreq _ Hslot Hmicros) Hlen Hh Hrun) as (Hcfg & ext & Hw & Hl & Ha).
    exists ext. split_conj; [done|by eapply with_writer_inv|done].
  - destruct (intercept _ _) as [fs rig] eqn:Hint. injection Hans as <- <-.
    destruct (intercept_receipted _ _ _ _ _ Hreq (ni_rig _ _ Hi) Hint) as [Hfs Hrig].
    apply Hsame; [|done]. destruct Hi. by split.
  - destruct (env_channel_open env); injection Hans as <- <-; apply Hsame; try done.
    destruct Hi. split; cbn; [done..|]. apply Forall_app. split; [done|]. by apply Forall_singleton.
Qed.

Lemma answer_replies node env (call : Call) x node' :
  answer env call node = (x, node') -> n_replies node `prefix_of` n_replies node'.
Proof.
  destruct call; cbn [answer]; intros H; try (by injection H as <- <-).
  - destruct (cache_push _ _ _ _). by injection H as <- <-.
  - destruct (run_command _ _ _). injection H as <- <-. cbn. by eexists.
  - destruct (intercept _ _). by injection H as <- <-.
  - by destruct (env_channel_open env); injection H as <- <-.
Qed.

Lemma tasks_prefix log ext (tasks : list Task) :
  Forall (fun p => wp p log task_ok) tasks -> Forall (fun p => wp p (log ++ ext) task_ok) tasks.
Proof.
  intros H. eapply Forall_impl; [exact H|]. intros p. apply wp_prefix; [|by eexists].
  intros [a|r] l l' Hp; [by apply answer_ok_prefix|done].
Qed.

Lemma wp_start request log :
  event_wf (Arrive request) -> wp (start request) log task_ok.
Proof.
  intros Hwf. destruct request; cbn [start]; apply wp_bind.
  - apply wp_send_transaction.
  - apply wp_commit_transaction.
  - apply wp_reveal_transaction.
  - by apply wp_schedule.
  - by apply wp_execute.
  - by apply wp_replay.
Qed.

Lemma system_step_inv log sys event :
  system_inv log sys -> event_wf event -> Z.of_nat (length log) + 1 < 2 ^ 64 ->
  Forall healthy (n_replies (sy_node (system_step sys event))) ->
  exists ext, (length ext <= 1)%nat /\ system_inv (log ++ ext) (system_step sys event).
Proof.
  intros [Hn Ht] Hwf Hlen Hh.
  assert (forall sys', system_inv log sys' ->
    exists ext, (length ext <= 1)%nat /\ system_inv (log ++ ext) sys') as Hsame.
  { intros. exists []. rewrite app_nil_r. split; [cbn; lia|done]. }
  destruct event; cbn [system_step] in *.
  - apply Hsame. split; [done|]. apply Forall_app. split; [done|]. apply Forall_singleton. by apply wp_start.
  - destruct (sy_tasks sys !! id) as [[a|call rest]|] eqn:Hid; [by apply Hsame| |by apply Hsame].
    destruct (answer env call (sy_node sys)) as [x node'] eqn:Ha.
    pose proof (Forall_lookup_1 _ _ _ _ Ht Hid) as [Hreq Hk].
    destruct (answer_inv _ _ _ _ _ _ Hn Hreq Hwf Hlen Hh Ha) as (ext & Hl & Hn' & Hx).
    exists ext. split; [done|]. split; [done|]. cbn [sy_tasks]. apply Forall_insert.
    + by apply tasks_prefix.
    + apply Hk; [by eexists|done].
  - destruct (run_command now CmdSweep (n_writer (sy_node sys))) as [reply writer] eqn:Hrun.
    cbn in Hh. apply Forall_app in Hh as [_ [Hh _]%Forall_cons]. destruct Hwf as [Hs Hm].
    destruct (run_command_answered log _ now CmdSweep _ _ (ni_writer _ _ Hn) (ni_honest _ _ Hn)
      ltac:(done) Hlen Hh Hrun) as (Hcfg & ext & Hw & Hl & _).
    exists ext. split; [done|]. split; [by eapply with_writer_inv|by apply tasks_prefix].
  - apply Hsame. split; [|done]. destruct Hn. by split.
  - apply Hsame. split; [|done]. destruct Hn. by split.
  - apply Hsame. split; [|done]. destruct Hn. by split.
Qed.

Lemma system_step_replies sys event :
  n_replies (sy_node sys) `prefix_of` n_replies (sy_node (system_step sys event)).
Proof.
  destruct event; cbn [system_step]; try done.
  - destruct (sy_tasks sys !! id) as [[a|call rest]|]; [done| |done].
    destruct (answer env call (sy_node sys)) eqn:Ha. by eapply answer_replies.
  - destruct (run_command _ _ _). cbn. by eexists.
Qed.

Lemma system_run_replies events : forall sys,
  n_replies (sy_node sys) `prefix_of` n_replies (sy_node (system_run sys events)).
Proof.
  induction events as [|event events IH]; intros sys; [done|]. cbn.
  etransitivity; [apply system_step_replies|apply IH].
Qed.

Lemma system_run_inv events : forall log sys,
  system_inv log sys -> Forall event_wf events ->
  Z.of_nat (length log) + Z.of_nat (length events) < 2 ^ 64 ->
  Forall healthy (n_replies (sy_node (system_run sys events))) ->
  exists ext, system_inv (log ++ ext) (system_run sys events).
Proof.
  induction events as [|event events IH]; intros log sys Hi Hwf Hlen Hh.
  { exists []. by rewrite app_nil_r. }
  apply Forall_cons in Hwf as [Hwf1 Hwf]. cbn [length] in Hlen.
  destruct (system_step_inv log sys event Hi Hwf1 ltac:(lia)) as (ext & Hl & Hi').
  { destruct (system_run_replies events (system_step sys event)) as [rest E]. cbn in Hh. unfold system_run in E.
    rewrite E in Hh. by apply Forall_app in Hh as [? _]. }
  destruct (IH _ _ Hi' Hwf) as [ext' Hi'']; [rewrite length_app; lia|done|].
  exists (ext ++ ext'). by rewrite app_assoc.
Qed.

(** A node that has just started, with the attack rig its environment asks for. *)
Definition Node_new (primary : bool) (blocks : BlocksCache) (writer : ReceiptWriter) (rig : option string) : Node :=
  MkNode primary blocks (ExpiringCache_new TRANSACTIONS_CACHE_TTL) writer (AttackRig_from_env rig) [] [].

Lemma system_inv_new primary blocks ledger key nanos minted deadline rig :
  0 <= dl_max_outstanding deadline ->
  system_inv [] (MkSystem (Node_new primary blocks
    (ReceiptWriter_new ledger key nanos minted false deadline) rig) []).
Proof.
  intros Hd. split; [|done]. split; cbn; [by apply writer_inv_new|done| |done].
  intros f. destruct rig as [raw|]; cbn; [|done]. by destruct (Attack_parse raw).
Qed.
End system.
