(* ===== verification/Admission.v ===== *)
(** * A transaction is admitted once

    The replay cache and the cache of block hashes together: [prepare_transaction] refuses a
    transaction whose block hash is no longer cached, [reserve_signature] one whose signature still
    is. *)
From S2P Require Import Prelude Constants Crypto Receipt Columns Rocks Store Pending Writer Wire Locks Scheduler Ingress Handlers.

(** ** The cache *)

Section cache.
Context {V : Type}.
Implicit Types (c : ExpiringCache V) (now : Z) (queue : list (bytes * Z)).

(** The keys are those of the queue, which is in order of creation. *)
Record cache_inv now c : Prop := {
  ci_keys : NoDup (map fst (ec_queue c));
  ci_index : forall k, is_Some (ec_index c !! k) <-> k ∈ map fst (ec_queue c);
  ci_sorted : StronglySorted (fun a b : bytes * Z => a.2 <= b.2) (ec_queue c);
  ci_past : Forall (fun record : bytes * Z => record.2 <= now) (ec_queue c);
}.

Definition fresh (ttl now : Z) queue : list (bytes * Z) :=
  filter (fun record => expired ttl now record = false) queue.

Lemma expired_spec ttl now record : expired ttl now record = true <-> ttl <= now - record.2.
Proof. unfold expired. lia. Qed.

(** In a sorted queue the records at the front are the expired ones. *)
Lemma pop_expired_spec ttl now queue : forall (index : gmap bytes V),
  StronglySorted (fun a b : bytes * Z => a.2 <= b.2) queue -> NoDup (map fst queue) ->
  (forall k, is_Some (index !! k) <-> k ∈ map fst queue) ->
  (pop_expired ttl now index queue).2 = fresh ttl now queue /\
  forall k, is_Some ((pop_expired ttl now index queue).1 !! k) <-> k ∈ map fst (fresh ttl now queue).
Proof.
  unfold fresh. induction queue as [|record queue IH]; intros index Hs Hn Hi; [done|].
  apply StronglySorted_inv in Hs as [Hs Hall]. cbn [map] in Hn. apply NoDup_cons in Hn as [Hr Hn].
  cbn [pop_expired]. destruct (expired ttl now record) eqn:He.
  - rewrite filter_cons_False by congruence. apply IH; [done..|]. intros k.
    destruct (decide (k = record.1)) as [->|Hne].
    + rewrite lookup_delete_eq. split; [by intros []|done].
    + rewrite lookup_delete_ne, Hi by done. cbn [map]. rewrite elem_of_cons. naive_solver.
  - assert (filter (fun record => expired ttl now record = false) (record :: queue) = record :: queue) as ->.
    { rewrite filter_cons_True by done. f_equal. apply filter_all, Forall_forall.
      intros r Hin%(proj1 (Forall_forall _ _) Hall). apply not_true_is_false. rewrite expired_spec.
      apply not_true_iff_false in He. rewrite expired_spec in He. cbn in Hin. lia. }
    done.
Qed.

Lemma cache_push_spec t now c key value b c' :
  cache_inv t c -> t <= now -> cache_push now c key value = (b, c') ->
  cache_inv now c' /\ ec_ttl c' = ec_ttl c /\
  (b = true <-> key ∉ map fst (fresh (ec_ttl c) now (ec_queue c))) /\
  ec_queue c' = fresh (ec_ttl c) now (ec_queue c) ++ (if b then [(key, now)] else []).
Proof.
  intros [Hn Hi Hs Hp] Ht. unfold cache_push.
  destruct (pop_expired_spec (ec_ttl c) now (ec_queue c) (ec_index c) Hs Hn Hi) as [E Hi'].
  destruct (pop_expired _ _ _ _) as [index queue]. cbn [fst snd] in *. subst queue.
  set (queue := fresh _ _ _) in *. intros [= <- <-].
  assert (bool_decide (index !! key = None) = true <-> key ∉ map fst queue) as Hb.
  { rewrite bool_decide_eq_true, <-Hi'. by rewrite eq_None_not_Some. }
  assert (queue `sublist_of` ec_queue c) as Hsub by apply sublist_filter.
  split; [|split; [done|split; [done|destruct (bool_decide _); [done|by rewrite app_nil_r]]]].
  assert (StronglySorted (fun a b : bytes * Z => a.2 <= b.2) queue) as Hs' by (by apply StronglySorted_filter).
  assert (NoDup (map fst queue)) as Hn' by (eapply sublist_NoDup; [exact Hn|]; by apply fmap_sublist).
  assert (Forall (fun record : bytes * Z => record.2 <= now) queue) as Hp'.
  { apply Forall_forall. intros r Hr%list_elem_of_filter. rewrite Forall_forall in Hp. destruct Hr as [_ Hr].
    apply Hp in Hr. lia. }
  destruct (bool_decide _) eqn:Eb; split; cbn [ec_queue ec_index].
  - rewrite map_app. apply NoDup_app. split_conj; [done| |apply NoDup_singleton].
    intros k Hk ->%list_elem_of_singleton. by apply Hb.
  - intros k. rewrite map_app, elem_of_app, <-Hi'. cbn. rewrite list_elem_of_singleton.
    destruct (decide (k = key)) as [->|]; [rewrite lookup_insert_eq; naive_solver|].
    rewrite lookup_insert_ne by done. naive_solver.
  - apply StronglySorted_app_2; [|done|by repeat constructor].
    intros r r' Hr ->%list_elem_of_singleton. rewrite Forall_forall in Hp'. by apply Hp'.
  - apply Forall_app. split; [done|]. apply Forall_singleton. done.
  - done.
  - intros k. rewrite <-Hi'. destruct (decide (k = key)) as [->|]; [|by rewrite lookup_insert_ne].
    rewrite lookup_insert_eq. split; [intros _|eauto]. apply not_eq_None_Some.
    intros E. rewrite E, bool_decide_true in Eb; done.
  - done.
  - done.
Qed.

Lemma cache_inv_new now ttl : cache_inv now (ExpiringCache_new (V := V) ttl).
Proof.
  split; cbn; [constructor| |constructor|constructor]. intros k. rewrite lookup_empty, elem_of_nil.
  split; [by intros []|done].
Qed.
End cache.

(** ** Admission *)

Section admission.
Context `{C : Crypto} `{J : Json} `{S : Solana} `{R : Rocks}.
Implicit Types (node : Node).

(** How [send_transaction] and [reveal_transaction] begin, up to the first wait. *)
Definition take_in (text : string) (encoding : Encoding) : prog (result RpcError Forwardable) :=
  transaction ←? prepare_transaction text encoding;
  _ ←? reserve_signature (sz_signature (we_txn transaction));
  Ret (Ok transaction).

(** What can happen to the two caches. *)
Inductive Arrival : Type :=
| ArBlock (latest : LatestBlock)
| ArStatus (signature : bytes)
| ArSubmit (text : string) (encoding : Encoding).

Definition at_time (now : Z) : Env := MkEnv (MkInstant 0 0) now false false None.

(** The node after an arrival, and the transaction it admitted. *)
Definition arrive node (now : Z) (arrival : Arrival) : option Forwardable * Node :=
  match arrival with
  | ArBlock latest => (None, with_blocks node (set_latest now (n_blocks node) latest))
  | ArStatus signature => (None, with_transactions node (cache_push now (n_transactions node) signature tt).2)
  | ArSubmit text encoding =>
      let '(r, node) := run_sync (at_time now) (take_in text encoding) node in (ok r, node)
  end.

(** Everything admitted over a sequence of arrivals, with when. *)
Fixpoint admissions node (arrivals : list (Z * Arrival)) : list (Forwardable * Z) :=
  match arrivals with
  | [] => []
  | (now, arrival) :: arrivals =>
      let '(admitted, node) := arrive node now arrival in
      option_list ((fun f => (f, now)) <$> admitted) ++ admissions node arrivals
  end.

Lemma run_sync_bind env {A B} (p : prog A) (f : A -> prog B) : forall node,
  run_sync env (p ≫= f) node = let '(a, node) := run_sync env p node in run_sync env (f a) node.
Proof.
  induction p as [a|call rest IH]; intros node; [done|].
  change (Vis call rest ≫= f) with (Vis call (fun x => rest x ≫= f)). cbn.
  destruct (answer env call node) as [x node']. apply IH.
Qed.

Lemma run_sync_try env {E A B} (p : prog (result E A)) (f : A -> prog (result E B)) node :
  run_sync env (try_bind p f) node =
    let '(r, node) := run_sync env p node in
    match r with Ok a => run_sync env (f a) node | Err e => (Err e, node) | Panic => (Panic, node) end.
Proof. unfold try_bind. rewrite run_sync_bind. by destruct (run_sync env p node) as [[] ?]. Qed.

#[local] Ltac run_ask := rewrite run_sync_bind; unfold ask; cbn [run_sync answer].

Lemma run_prepare env text encoding node :
  exists r, run_sync env (prepare_transaction text encoding) node = (r, node) /\
    forall f, r = Ok f -> exists t, tx_sanitize t = Ok (we_txn f) /\
      cache_contains (bc_cache (n_blocks node)) (message_recent_blockhash t) = true.
Proof.
  unfold prepare_transaction. rewrite run_sync_try. cbn [run_sync].
  destruct (decode_transaction text encoding) as [b|e|]; [|by eexists..].
  rewrite run_sync_try. cbn [run_sync]. destruct (ok_or _ _) as [t|e|]; [|by eexists..].
  rewrite run_sync_try. cbn [run_sync]. destruct (validate_supported_transaction_shape t); [|by eexists..].
  run_ask. destruct (cache_contains _ _) eqn:Hc; rewrite run_sync_try; cbn [run_sync ensure];
    [|by eexists]. rewrite run_sync_try. cbn [run_sync].
  destruct (tx_sanitize t) as [s|e|] eqn:Hs; cbn [map_err]; [|by eexists..].
  eexists. split; [done|]. intros f [= <-]. by exists t.
Qed.

(** An admitted transaction names a cached block hash, had no cached signature, and is cached now. *)
Lemma run_taken_in now text encoding node r node' :
  run_sync (at_time now) (take_in text encoding) node = (r, node') ->
  (node' = node /\ forall f, r <> Ok f) \/
  exists f t, tx_sanitize t = Ok (we_txn f) /\
    cache_contains (bc_cache (n_blocks node)) (message_recent_blockhash t) = true /\
    cache_contains (n_transactions node) (sz_signature (we_txn f)) = false /\
    let '(new, cache) := cache_push now (n_transactions node) (sz_signature (we_txn f)) tt in
    node' = with_transactions node cache /\ ((new = true /\ r = Ok f) \/ forall f, r <> Ok f).
Proof.
  unfold take_in. rewrite run_sync_try.
  destruct (run_prepare (at_time now) text encoding node) as (r0 & -> & Hr0).
  destruct r0 as [f|e|]; [|intros [= <- <-]; by left..].
  destruct (Hr0 f eq_refl) as (t & Ht & Hc). unfold reserve_signature.
  rewrite run_sync_try. run_ask.
  destruct (cache_contains (n_transactions node) _) eqn:Hn; [intros [= <- <-]; by left|].
  run_ask. cbn [env_monotonic at_time]. right. exists f, t.
  destruct (cache_push _ _ _ _) as [new cache]. split_conj; [done..| |].
  - by destruct new; injection H as <- <-.
  - destruct new; injection H as <- <-; [by left|by right].
Qed.

(** ** No transaction is admitted twice *)

(** Time does not run backwards, block hashes are new, and each submission comes less than the
    difference of the two lifetimes after a block. *)
Fixpoint paced (now last : Z) (seen : list bytes) (arrivals : list (Z * Arrival)) : Prop :=
  match arrivals with
  | [] => True
  | (t, arrival) :: arrivals => now <= t /\
      match arrival with
      | ArBlock latest => (lb_blockhash latest ∉ seen) /\ paced t t (lb_blockhash latest :: seen) arrivals
      | ArStatus _ => paced t last seen arrivals
      | ArSubmit _ _ => t - last < TRANSACTIONS_CACHE_TTL - BLOCK_CACHE_TTL /\ paced t last seen arrivals
      end
  end.

(** Two transactions that are not the same: a signature is over the block hash too. *)
Definition different (a b : Forwardable * Z) : Prop :=
  sz_signature (we_txn a.1) = sz_signature (we_txn b.1) ->
  sz_recent_blockhash (we_txn a.1) <> sz_recent_blockhash (we_txn b.1).

(** [seen] are the blocks with their time, the last at [last]; [admitted] what was admitted. *)
Record admission_inv (now last : Z) (seen : list (bytes * Z)) (admitted : list (Forwardable * Z)) node : Prop := {
  ai_blocks : cache_inv now (bc_cache (n_blocks node));
  ai_transactions : cache_inv now (n_transactions node);
  ai_block_ttl : ec_ttl (bc_cache (n_blocks node)) = BLOCK_CACHE_TTL;
  ai_transaction_ttl : ec_ttl (n_transactions node) = TRANSACTIONS_CACHE_TTL;
  ai_seen : NoDup (map fst seen);
  ai_queue : forall h g, (h, g) ∈ ec_queue (bc_cache (n_blocks node)) ->
    (h, g) ∈ seen /\ last - g < BLOCK_CACHE_TTL;
  ai_admitted : forall f t, (f, t) ∈ admitted -> t <= now /\
    (exists g, (sz_recent_blockhash (we_txn f), g) ∈ seen /\ g <= t) /\
    ((sz_signature (we_txn f), t) ∈ ec_queue (n_transactions node) \/ TRANSACTIONS_CACHE_TTL <= now - t);
}.

Lemma in_fresh ttl now record queue :
  record ∈ fresh ttl now queue <-> record ∈ queue /\ now - record.2 < ttl.
Proof.
  unfold fresh. rewrite list_elem_of_filter, <-not_true_iff_false, expired_spec. intuition lia.
Qed.

(** A push keeps what has not expired. *)
Lemma kept_after_push {V} t now (c : ExpiringCache V) key value k g :
  cache_inv t c -> t <= now ->
  ((k, g) ∈ ec_queue c \/ ec_ttl c <= t - g) ->
  (k, g) ∈ ec_queue (cache_push now c key value).2 \/ ec_ttl c <= now - g.
Proof.
  intros Hc Ht Hk. destruct (decide (ec_ttl c <= now - g)) as [|Hlt]; [by right|]. left.
  destruct Hk as [Hk|]; [|lia]. destruct (cache_push now c key value) as [b c'] eqn:Hp.
  destruct (cache_push_spec _ _ _ _ _ _ _ Hc Ht Hp) as (_ & _ & _ & Hq). cbn [snd]. rewrite Hq.
  apply elem_of_app. left. apply in_fresh. split; [done|]. cbn. lia.
Qed.

Lemma admission_inv_push now last seen admitted node t signature :
  admission_inv now last seen admitted node -> now <= t ->
  admission_inv t last seen admitted
    (with_transactions node (cache_push t (n_transactions node) signature tt).2).
Proof.
  intros [] Ht. destruct (cache_push t (n_transactions node) signature tt) as [b c'] eqn:Hp.
  destruct (cache_push_spec _ _ _ _ _ _ _ ai_transactions0 Ht Hp) as (Hc & Httl & _ & _).
  split; cbn [n_blocks n_transactions with_transactions snd]; try done; [|congruence|].
  - destruct ai_blocks0. split; try done. eapply Forall_impl; [done|]. cbn. lia.
  - intros f t1 Hin. destruct (ai_admitted0 _ _ Hin) as (Hle & Hg & Hk). split_conj; [lia|done|].
    rewrite <-ai_transaction_ttl0 in *. pose proof (kept_after_push _ t _ signature tt _ _ ai_transactions0 Ht Hk).
    by rewrite Hp in H.
Qed.

Lemma admission_inv_later now last seen admitted node t :
  admission_inv now last seen admitted node -> now <= t -> admission_inv t last seen admitted node.
Proof.
  intros [] Ht. split; try done.
  - destruct ai_blocks0. split; try done. eapply Forall_impl; [done|]. cbn. lia.
  - destruct ai_transactions0. split; try done. eapply Forall_impl; [done|]. cbn. lia.
  - intros f t1 Hin. destruct (ai_admitted0 _ _ Hin) as (Hle & Hg & [Hk|Hk]); split_conj; try done; try lia; auto.
Qed.

Lemma admission_inv_block now last seen admitted node t latest :
  admission_inv now last seen admitted node -> now <= t -> lb_blockhash latest ∉ map fst seen ->
  admission_inv t t ((lb_blockhash latest, t) :: seen) admitted
    (with_blocks node (set_latest t (n_blocks node) latest)).
Proof.
  intros Hi Ht Hnew. pose proof (admission_inv_later _ _ _ _ _ _ Hi Ht) as [_ ? _ ? _ _ Hadm].
  destruct Hi as [Hb _ Httl _ Hseen Hq _].
  destruct (cache_push t (bc_cache (n_blocks node)) (lb_blockhash latest) (lb_slot latest)) as [b c'] eqn:Hp.
  destruct (cache_push_spec _ _ _ _ _ _ _ Hb Ht Hp) as (Hc & Httl' & _ & Hq').
  split; cbn [n_blocks n_transactions with_blocks set_latest bc_cache]; rewrite ?Hp; cbn [snd]; try done.
  - congruence.
  - cbn [map fst]. by constructor.
  - rewrite Hq'. intros h g [Hin|Hin]%elem_of_app.
    + apply in_fresh in Hin as [Hin Hlt]. rewrite <-Httl. split; [right; by apply Hq|done].
    + destruct b; [|by apply elem_of_nil in Hin]. apply list_elem_of_singleton in Hin as [= -> ->].
      split; [by left|]. unfold BLOCK_CACHE_TTL, seconds. lia.
  - intros f t1 Hin. destruct (Hadm _ _ Hin) as (Hle & (g & Hg & Hgt) & Hk). split_conj; [done| |done].
    exists g. split; [by right|done].
Qed.

(** A transaction that was admitted is refused as long as its block hash is known. *)
Lemma admitted_still_cached now last seen admitted node t f t1 h :
  admission_inv now last seen admitted node -> now <= t ->
  t - last < TRANSACTIONS_CACHE_TTL - BLOCK_CACHE_TTL ->
  (f, t1) ∈ admitted -> sz_recent_blockhash (we_txn f) = h ->
  cache_contains (bc_cache (n_blocks node)) h = true ->
  cache_contains (n_transactions node) (sz_signature (we_txn f)) = true.
Proof.
  intros [] Ht Hgap Hin Hh Hc. apply bool_decide_eq_true, (ci_index _ _ ai_blocks0) in Hc.
  apply list_elem_of_fmap in Hc as ([h' g] & -> & Hq). destruct (ai_queue0 _ _ Hq) as [Hs Hlt].
  destruct (ai_admitted0 _ _ Hin) as (Hle & (g' & Hg' & Hgt) & Hk).
  assert (g' = g) as ->.
  { rewrite Hh in Hg'. cbn in Hg'. apply list_elem_of_lookup in Hs as [i Hi], Hg' as [j Hj].
    assert (i = j) as ->; [|congruence].
    eapply (NoDup_lookup (map fst seen)); [done|by rewrite list_lookup_fmap, Hi|by rewrite list_lookup_fmap, Hj]. }
  apply bool_decide_eq_true, (ci_index _ _ ai_transactions0), list_elem_of_fmap.
  exists (sz_signature (we_txn f), t1). split; [done|]. destruct Hk as [|Hk]; [done|].
  cbn in *. unfold TRANSACTIONS_CACHE_TTL, BLOCK_CACHE_TTL, seconds in *. lia.
Qed.

Lemma admission_inv_admitted now last seen admitted node t f cache `{!SolanaLaws S} v :
  admission_inv now last seen admitted node -> now <= t -> tx_sanitize v = Ok (we_txn f) ->
  cache_contains (bc_cache (n_blocks node)) (message_recent_blockhash v) = true ->
  cache_push t (n_transactions node) (sz_signature (we_txn f)) tt = (true, cache) ->
  admission_inv t last seen ((f, t) :: admitted) (with_transactions node cache).
Proof.
  intros Hi Ht Hv Hc Hp. pose proof (admission_inv_push _ _ _ _ _ _ (sz_signature (we_txn f)) Hi Ht) as Hi'.
  rewrite Hp in Hi'. cbn [snd] in Hi'. destruct Hi'. split; try done.
  intros f' t' [[= -> ->]|Hin]%elem_of_cons; [|by apply ai_admitted0]. split_conj; [done| |].
  - rewrite (sanitize_blockhash _ _ Hv) in Hc.
    apply bool_decide_eq_true, (ci_index _ _ (ai_blocks _ _ _ _ _ Hi)), list_elem_of_fmap in Hc as ([h g] & E & Hq).
    cbn in E. subst h. exists g. split; [by apply (ai_queue _ _ _ _ _ Hi)|].
    pose proof (ci_past _ _ (ai_blocks _ _ _ _ _ Hi)) as Hpast. rewrite Forall_forall in Hpast.
    apply Hpast in Hq. cbn in Hq. lia.
  - left. destruct (cache_push_spec _ _ _ _ _ _ _ (ai_transactions _ _ _ _ _ Hi) Ht Hp) as (_ & _ & _ & Hq).
    cbn. rewrite Hq. apply elem_of_app. right. by left.
Qed.

Lemma admissions_different `{!SolanaLaws S} arrivals : forall now last seen admitted node,
  admission_inv now last seen admitted node -> paced now last (map fst seen) arrivals ->
  StronglySorted different (admissions node arrivals) /\
  forall a b, a ∈ admitted -> b ∈ admissions node arrivals -> different a b.
Proof.
  induction arrivals as [|[t arrival] arrivals IH]; intros now last seen admitted node Hi Hp.
  { split; [constructor|]. by intros a b _ ?%elem_of_nil. }
  destruct Hp as [Ht Hp]. cbn [admissions]. destruct arrival as [latest|signature|text encoding]; cbn [arrive].
  - destruct Hp as [Hnew Hp]. eapply (IH t t (_ :: seen)); [exact (admission_inv_block _ _ _ _ _ _ _ Hi Ht Hnew)|done].
  - eapply IH; [exact (admission_inv_push _ _ _ _ _ _ _ Hi Ht)|done].
  - destruct Hp as [Hgap Hp].
    destruct (run_sync (at_time t) (take_in text encoding) node) as [r node'] eqn:Hrun.
    apply run_taken_in in Hrun as [[-> Hr]|(f & v & Hv & Hc & Hn & Hcase)].
    { destruct r; [naive_solver|..]; (eapply IH; [exact (admission_inv_later _ _ _ _ _ _ Hi Ht)|done]). }
    destruct (cache_push t _ _ _) as [new cache] eqn:Hpush. destruct Hcase as [-> [[-> ->]|Hr]].
    + pose proof (admission_inv_admitted _ _ _ _ _ _ _ _ _ Hi Ht Hv Hc Hpush) as Hi'.
      destruct (IH _ _ _ _ _ Hi' Hp) as [Hs Hd]. cbn [ok fmap option_fmap option_map option_list app]. split.
      * constructor; [done|]. apply Forall_forall. intros b Hb. apply Hd; [by left|done].
      * intros a b Ha [->|Hb]%elem_of_cons; [|apply Hd; [by right|done]]. destruct a as [f1 t1].
        intros Hsig Hbh. cbn in Hsig, Hbh. rewrite (sanitize_blockhash _ _ Hv) in Hc.
        pose proof (admitted_still_cached _ _ _ _ _ _ _ _ _ Hi Ht Hgap Ha Hbh Hc) as Hin. congruence.
    + pose proof (admission_inv_push _ _ _ _ _ _ (sz_signature (we_txn f)) Hi Ht) as Hi'.
      rewrite Hpush in Hi'. destruct r; [naive_solver|..]; (eapply IH; [exact Hi'|done]).
Qed.

Lemma admission_inv_new now primary blocks writer rig : bc_cache blocks = ExpiringCache_new BLOCK_CACHE_TTL ->
  admission_inv now now [] [] (MkNode primary blocks (ExpiringCache_new TRANSACTIONS_CACHE_TTL) writer rig [] []).
Proof.
  intros Hb. split; cbn [n_blocks n_transactions]; rewrite ?Hb; try done; try apply cache_inv_new.
  - constructor.
  - by intros h g ?%elem_of_nil.
  - by intros f t ?%elem_of_nil.
Qed.
End admission.
