(* ===== verification/HandlersProperties.v ===== *)
(** * What the ingress path promises

    Over every interleaving of the handlers: nothing reaches the scheduler without a receipt, what a
    client is handed is an entry of the published log, and a transaction is admitted once. *)
From S2P Require Import Prelude Constants Crypto Receipt Columns Rocks Store ReceiptLog Pending Writer WriterLog WriterProperties Wire Locks Scheduler Ingress Handlers HandlersInv Admission.


#[local] Existing Instance toy_crypto.
#[local] Existing Instance toy_rocks.
#[local] Existing Instance toy_json.
#[local] Existing Instance toy_solana.

(** A transaction of the toy instance, with a payer both transactions below share. *)
Definition toy_tx (signature : byte) : bytes := fill 64 signature ++ fill 32 x02 ++ fill 32 x31.
Definition toy_text (signature : byte) : string := base64_encode (toy_tx signature).
Definition toy_request (signature : byte) : Request :=
  SendTransaction (Some (Some (toy_text signature), Some (MkSendConfig true (Some Base64)))).

Definition toy_blocks : BlocksCache := BlocksCache_new 1200 (zeros 32, 0).
Abbreviation toy_node rig :=
  (Node_new (C := toy_crypto) (R := toy_rocks) true toy_blocks
     (ReceiptWriter_new (C := toy_crypto) (R := toy_rocks) toy_disk (fill 32 x41) 77 0 false RevealDeadline_default) rig).

Definition toy_env : Env := MkEnv (MkInstant 10 1000) (seconds 1) true true None.
Definition toy_steps (id n : nat) : list SystemEvent := replicate n (Resume id toy_env).

(** Two requests, one after the other. *)
Definition toy_events : list SystemEvent :=
  [BlockSeen 0 (LatestBlock_new 9 (fill 32 x02) 5); Arrive (toy_request x51)] ++ toy_steps 0 12 ++
  [Arrive (toy_request x52)] ++ toy_steps 1 12.
Abbreviation toy_system := (system_run (MkSystem (toy_node None) []) toy_events).

Lemma toy_events_wf : Forall event_wf toy_events.
Proof. repeat (constructor; [eval_done|]). constructor. Qed.


(** C30: a transaction is admitted once.  Over any sequence of submissions, blocks and status
    updates at a node that has just started, where time does not run backwards, every block hash is
    new, and each submission comes within fifteen seconds of a block: no two admitted
    transactions with one signature name the same block hash.  Since a signature covers the block
    hash, no transaction passes [prepare_transaction] and [reserve_signature] twice.  The fifteen
    seconds are the difference of the two lifetimes: block hashes expire only when a block arrives. *)
Theorem admitted_once `{C : Crypto} `{J : Json} `{S : Solana} `{!SolanaLaws S} `{R : Rocks}
    (now : Z) (primary : bool) (block_validity : Z) (latest : bytes * Z) (writer : ReceiptWriter)
    (rig : option string) (arrivals : list (Z * Arrival))
    (Hp : paced now now [] arrivals) :
  StronglySorted different
    (admissions (Node_new primary (BlocksCache_new block_validity latest) writer rig) arrivals).
Proof.
  exact (proj1 (admissions_different arrivals now now [] [] _
    (admission_inv_new now primary (BlocksCache_new block_validity latest) writer (AttackRig_from_env rig) eq_refl) Hp)).
Qed.

(** A block every so often, and one transaction sent again and again. *)
Definition toy_arrivals : list (Z * Arrival) :=
  [(seconds 1, ArBlock (LatestBlock_new 9 (fill 32 x02) 5));
   (seconds 2, ArSubmit (toy_text x51) Base64); (seconds 3, ArStatus (fill 64 x51));
   (seconds 14, ArSubmit (toy_text x51) Base64);
   (seconds 61, ArBlock (LatestBlock_new 10 (fill 32 x03) 6)); (seconds 62, ArSubmit (toy_text x51) Base64)].

Lemma admitted_once_witness :
  map snd (admissions (toy_node None) toy_arrivals) = [seconds 2] /\
  StronglySorted different (admissions (toy_node None) toy_arrivals).
Proof.
  split; [vm_compute; reflexivity|].
  apply (admitted_once (C := toy_crypto) (J := toy_json) (S := toy_solana) (R := toy_rocks) 0 true 1200
    (zeros 32, 0) _ None toy_arrivals).
  cbn [paced toy_arrivals]. split_conj; eval_done.
Defined.

(** Without blocks the cache of block hashes does not shrink, but that of signatures does. *)
Example stalled_blocks_admit_twice :
  map snd (admissions (toy_node None)
    [(seconds 1, ArBlock (LatestBlock_new 9 (fill 32 x02) 5)); (seconds 2, ArSubmit (toy_text x51) Base64);
     (seconds 80, ArSubmit (toy_text x52) Base64); (seconds 81, ArSubmit (toy_text x51) Base64)])
  = [seconds 2; seconds 80; seconds 81].
Proof. vm_compute. reflexivity. Qed.
