(* ===== verification/EndToEnd.v ===== *)
(** * The components together

    What the validator does to a transaction, seen through what the watchtower observes of it and
    what the program makes of the evidence: the scheduler's locks against the watchtower's notion of
    a conflict, the order of dispatch against the block scan, the writer's log against a conviction. *)
From S2P Require Import Prelude Constants Crypto Receipt Accounts Evidence Runtime Processor Conviction ToyChain ProgramProperties Columns Rocks Store ReceiptLog Pending Writer WriterLog WriterProperties Wire Watchtower LogScan BlockScan Client ToyLog BlockScanProperties Locks LockInv Scheduler SchedulerInv SchedulerProperties Ingress Handlers.

(** ** One transaction on both sides *)

(** The watchtower saw of a transaction what the scheduler was given of it. *)
Record observed_as (t : ProcessableTransaction) (o : ObservedTransaction) : Prop := {
  oa_signature : o_signature o = pt_signature t;
  oa_writable k : k ∈ o_writable o <-> (k, true) ∈ pt_accounts t;
  oa_readonly k : k ∈ o_readonly o <-> (k, false) ∈ pt_accounts t;
}.

Lemma touches_spec o written :
  touches o written = true <-> exists k, k ∈ written /\ (k ∈ o_writable o \/ k ∈ o_readonly o).
Proof.
  unfold touches. rewrite existsb_exists. setoid_rewrite orb_true_iff. setoid_rewrite bool_decide_eq_true.
  by setoid_rewrite <-list_elem_of_In.
Qed.

Lemma observed_conflict t t' o o' :
  observed_as t o -> observed_as t' o' ->
  conflicts o o' = true <-> accounts_conflict (pt_accounts t) (pt_accounts t').
Proof.
  intros [_ W R] [_ W' R']. unfold conflicts, accounts_conflict. rewrite orb_true_iff, !touches_spec.
  setoid_rewrite W. setoid_rewrite R. setoid_rewrite W'. setoid_rewrite R'. split.
  - intros [(k & H' & [H|H])|(k & H & [H'|H'])]; eauto 10.
  - intros (k & [] & [] & H & H' & []); eauto 10; done.
Qed.

Section wire.
Context `{C : Crypto} `{S : Solana} `{!SolanaLaws S}.

Lemma sort_keys txn entries w r :
  foldl (sort_key txn) (w, r) entries =
    (w ++ (filter (fun e : nat * bytes => is_maybe_writable txn e.1 = true) entries).*2,
     r ++ (filter (fun e : nat * bytes => is_maybe_writable txn e.1 = false) entries).*2).
Proof.
  revert w r. induction entries as [|[i k] entries IH]; intros w r; [by rewrite !app_nil_r|].
  cbn [foldl sort_key]. destruct (is_maybe_writable txn i) eqn:E; rewrite IH.
  - rewrite filter_cons_True, filter_cons_False by (cbn; congruence). by rewrite <-app_assoc.
  - rewrite filter_cons_False, filter_cons_True by (cbn; congruence). by rewrite <-app_assoc.
Qed.

Lemma sorted_key txn keys (b : bool) k :
  k ∈ (filter (fun e : nat * bytes => is_maybe_writable txn e.1 = b) (enumerate keys)).*2 <->
  (k, b) ∈ imap (fun index key => (key, is_maybe_writable txn index)) keys.
Proof.
  rewrite list_elem_of_fmap, list_elem_of_lookup. setoid_rewrite list_lookup_imap_Some. split.
  - intros ([i k'] & -> & [Hw Hin]%list_elem_of_filter). apply enumerate_elem in Hin. exists i, k'.
    cbn in *. by rewrite Hw.
  - intros (i & k' & Hk & [= -> ->]). exists (i, k'). split; [done|]. apply list_elem_of_filter.
    split; [done|]. by apply enumerate_elem.
Qed.

(** What [prepare_transaction] makes of wire bytes is what [observe] sees in them. *)
Lemma observe_prepared wire txn sanitized o mode :
  bincode_deserialize wire = Some txn -> validate_supported_transaction_shape txn = Ok tt ->
  tx_sanitize txn = Ok sanitized -> observe wire = Ok o ->
  observed_as (processable sanitized mode (Some wire)) o /\ o_tx_hash o = tx_hash wire /\ o_wire_bytes o = wire.
Proof.
  intros Hd Hshape Hs Ho. unfold observe in Ho. rewrite Hd in Ho. cbn [ok_or] in Ho. rewrite bind_of_ok in Ho.
  pose proof (sanitize_signature _ _ Hs) as Hsig. rewrite Hsig in Ho. cbn [ok_or] in Ho. rewrite bind_of_ok in Ho.
  assert (has_address_table_lookups txn = false) as Hl.
  { unfold validate_supported_transaction_shape in Hshape. by destruct (has_address_table_lookups txn). }
  pose proof (sanitize_accounts _ _ Hs Hl) as Hacc.
  res_inv. rewrite sort_keys in Ho. injection Ho as <-.
  split; [|done]. split; cbn [o_signature o_writable o_readonly processable pt_signature pt_accounts app].
  - by apply try_into_array_Some in H as [_ ->].
  - intros k. by rewrite Hacc, sorted_key.
  - intros k. by rewrite Hacc, sorted_key.
Qed.
End wire.

(** The watchtower and the scheduler agree on conflicts.  Take any two transactions the handlers
    let through and the watchtower could read: they conflict for the watchtower exactly when the
    scheduler's account locks keep them apart. *)
Theorem conflict_agrees_with_locks `{C : Crypto} `{S : Solana} `{!SolanaLaws S}
    (wire wire' : bytes) (txn txn' : VersionedTransaction) (s s' : SanitizedTransaction) (o o' : ObservedTransaction)
    (Hd : bincode_deserialize wire = Some txn) (Hd' : bincode_deserialize wire' = Some txn')
    (Hshape : validate_supported_transaction_shape txn = Ok tt)
    (Hshape' : validate_supported_transaction_shape txn' = Ok tt)
    (Hs : tx_sanitize txn = Ok s) (Hs' : tx_sanitize txn' = Ok s')
    (Ho : observe wire = Ok o) (Ho' : observe wire' = Ok o') :
  conflicts o o' = true <-> accounts_conflict (sz_accounts s) (sz_accounts s').
Proof.
  destruct (observe_prepared wire txn s o (ModeExecution true) Hd Hshape Hs Ho) as [A _].
  destruct (observe_prepared wire' txn' s' o' (ModeExecution true) Hd' Hshape' Hs' Ho') as [A' _].
  exact (observed_conflict _ _ _ _ A A').
Qed.

(** ** A slot *)

(** A list without repetition is its own reverse only when it is too short to tell. *)
Lemma reverse_NoDup {A} (l : list A) : NoDup l -> reverse l = l -> (length l <= 1)%nat.
Proof.
  intros Hn Hr. destruct (decide (length l <= 1)%nat) as [|Hlen]; [done|exfalso].
  destruct (lookup_lt_is_Some_2 l 0) as [x Hx]; [lia|].
  assert (l !! (length l - 1)%nat = Some x) as Hx'.
  { rewrite <-Hr in Hx. rewrite reverse_lookup in Hx by lia. by replace (length l - 1)%nat with (length l - 1)%nat by lia. }
  pose proof (NoDup_lookup l 0 (length l - 1) x Hn Hx Hx'). lia.
Qed.

Lemma reverse_short {A} (l : list A) : (length l <= 1)%nat -> reverse l = l.
Proof. destruct l as [|x [|y l]]; [done..|cbn; lia]. Qed.

Section slot.
Context `{C : Crypto}.
Implicit Types (observed listing : list ObservedTransaction).

(** However getBlock lists the transactions, the order recovered is the one that was hashed. *)
Lemma recovered_order slot previous observed listing :
  signatures_wf observed -> NoDup (o_signature <$> observed) -> (listing = observed \/ listing = reverse observed) ->
  executed_order (MkBlock slot previous (fold previous (o_signature <$> observed)) listing) = Some observed \/
  exists x y, blake3_collision x y.
Proof.
  intros Hwf Hn Hl. set (block := MkBlock _ _ _ _).
  assert (is_Some (executed_order block)) as [executed E].
  { unfold executed_order, Order_derive, block. cbn [b_transactions b_previous_blockhash b_blockhash].
    destruct Hl as [-> | ->]; [rewrite decide_True by done; eauto|].
    case_decide; [eauto|]. rewrite fmap_reverse, reverse_involutive, decide_True by done. eauto. }
  pose proof (executed_order_fold _ _ E) as [Hfold Hor].
  cbn [block b_transactions b_previous_blockhash b_blockhash] in Hfold, Hor.
  assert (executed = observed \/ executed = reverse observed) as [->| ->].
  { destruct Hl as [-> | ->]; rewrite ?reverse_involutive in Hor; naive_solver. }
  { by left. }
  destruct (decide (o_signature <$> reverse observed = o_signature <$> observed)) as [Hs|Hs].
  - left. rewrite E. f_equal. apply reverse_short. rewrite fmap_reverse in Hs.
    rewrite <-(length_fmap o_signature). by apply reverse_NoDup.
  - right. exists (previous ++ concat (o_signature <$> reverse observed)), (previous ++ concat (o_signature <$> observed)).
    split; [|exact Hfold]. intros Happ%app_inv_head. apply Hs, concat_signatures_inj; [|done..].
    unfold signatures_wf. by rewrite Forall_reverse.
Qed.

(** The transactions of a slot that its hash covers. *)
Definition is_hashed (t : ProcessableTransaction) : bool :=
  match pt_mode t with Simulation => false | _ => true end.
Definition covered_by_hash (sent : list IndexedTransaction) : list ProcessableTransaction :=
  filter (fun t => is_hashed t = true) (it_txn <$> sent).

Lemma hashed_covered sent : sent ≫= hashed = pt_signature <$> covered_by_hash sent.
Proof.
  unfold covered_by_hash. induction sent as [|t sent IH]; [done|]. cbn [mbind list_bind fmap list_fmap]. rewrite IH.
  unfold hashed. rewrite filter_cons. unfold is_hashed. destruct (pt_mode (it_txn t)); by case_decide.
Qed.

Lemma observed_signatures ts observed :
  Forall2 observed_as ts observed -> o_signature <$> observed = pt_signature <$> ts.
Proof. induction 1 as [|t o ts os [E _ _] _ IH]; [done|]. cbn. by rewrite E, IH. Qed.

(** The verdict on a slot, in terms of what was dispatched in it. *)
Definition slot_respects (ts : list ProcessableTransaction) observed (index : ReceiptIndex) (identity : bytes) : Prop :=
  (forall o, o ∈ observed -> exists signed, live index o signed) /\
  (forall i j t t' o o' r r', (i < j)%nat -> ts !! i = Some t -> ts !! j = Some t' ->
     observed !! i = Some o -> observed !! j = Some o' ->
     accounts_conflict (pt_accounts t) (pt_accounts t') ->
     is_issued_by o identity = false -> is_issued_by o' identity = false ->
     ReceiptIndex_find index o = Some r -> ReceiptIndex_find index o' = Some r' ->
     r_seq (s_receipt r) < r_seq (s_receipt r')).
End slot.

(** The watchtower judges the order of dispatch.  Between two ticks of a primary, let transactions
    arrive and workers finish in any order.  Given the block written at the second tick, with its
    transactions listed in the order they were sent or in reverse, the watchtower's scan finds no
    fault exactly when every transaction holds a live ticket and any two that the scheduler's locks
    keep apart were dispatched in the order of their tickets, unless two different inputs with one
    blake3 hash are in hand. *)
Lemma dispatch_order_judged `{C : Crypto} (executors : Z) (ledger_hash : bytes)
    (accountsdb_slot superblock_size : Z) (events slot_events : list Event)
    (self0 self2 : TransactionScheduler) (timestamp1 timestamp2 : Z) (written1 : bool)
    (Hr : reached executors ledger_hash accountsdb_slot superblock_size events self0)
    (Hp : is_primary (s_coordinator self0) = true) (Hwf : Forall event_wf slot_events)
    (Hslot : Forall within_slot slot_events)
    (Hrun : sched_steps (transition_to_new_slot self0 timestamp1 written1) slot_events self2)
    (Hp2 : is_primary (s_coordinator self2) = true) :
  exists sent latest,
    s_dispatched self2 = s_dispatched self0 ++ sent /\
    last (s_blocks (transition_to_new_slot self2 timestamp2 true)) = Some latest /\
    forall observed listing receipts operator identity,
      Forall2 observed_as (covered_by_hash sent) observed ->
      signatures_wf observed -> NoDup (o_signature <$> observed) ->
      (listing = observed \/ listing = reverse observed) ->
      let index := ReceiptIndex_build receipts operator in
      (exists x y, blake3_collision x y) \/
      exists scan,
        scan_block (MkBlock (lb_slot latest) (hasher_finalize self0) (lb_blockhash latest) listing) index operator identity
          = Ok scan /\
        (sc_faults scan = [] <-> slot_respects (covered_by_hash sent) observed index identity).
Proof.
  destruct (slot_sent executors ledger_hash accountsdb_slot superblock_size events slot_events self0 self2
    timestamp1 timestamp2 written1 Hr Hp Hwf Hslot Hrun Hp2) as (sent & latest & Hsent & Hlast & _ & Hhash & _).
  exists sent, latest. split_conj; [done..|]. intros observed listing receipts operator identity Hobs Hsw Hn Hl. cbv zeta.
  rewrite Hhash, hashed_covered, <-(observed_signatures _ _ Hobs).
  destruct (recovered_order (lb_slot latest) (hasher_finalize self0) observed listing Hsw Hn Hl) as [Horder|]; [right|by left].
  destruct (scan_block_clean _ _ receipts operator identity Horder) as (scan & Escan & Hiff).
  exists scan. split; [exact Escan|]. rewrite Hiff. unfold slot_respects. apply and_iff_compat_l. split.
  - intros H i j t t' o o' r r' Hlt Ht Ht' Ho Ho' Hc. eapply H; try done.
    destruct (Forall2_lookup_lr _ _ _ _ _ _ Hobs Ht Ho), (Forall2_lookup_lr _ _ _ _ _ _ Hobs Ht' Ho').
    by eapply observed_conflict; [..|exact Hc].
  - intros H i j o o' r r' Hlt Ho Ho' Hc.
    destruct (Forall2_lookup_r _ _ _ _ _ Hobs Ho) as (t & Ht & At), (Forall2_lookup_r _ _ _ _ _ Hobs Ho') as (t' & Ht' & At').
    eapply H; try done. by eapply observed_conflict; [exact At|exact At'|exact Hc].
Qed.

(** ** A ticket overtaken *)

(** A primary's slot in which [blocked] arrives while [holder], which it conflicts with, is running, and
    [overtaker] arrives next, which conflicts with [blocked] and with nothing that runs; [blocked] is
    dispatched later in the slot. *)
Record overtaking `{C : Crypto} (self0 : TransactionScheduler) (timestamp : Z) (written : bool)
    (before after : list Event) (blocked overtaker : ProcessableTransaction) (self2 : TransactionScheduler) : Prop := {
  ot_primary : is_primary (s_coordinator self0) = true;
  ot_before : Forall event_wf before /\ Forall within_slot before;
  ot_after : Forall event_wf after /\ Forall within_slot after;
  ot_wf : txn_wf blocked /\ txn_wf overtaker;
  ot_hashed : is_hashed blocked = true /\ is_hashed overtaker = true;
  ot_conflict : accounts_conflict (pt_accounts overtaker) (pt_accounts blocked);
  ot_run : exists self_b self_c self_d,
    sched_steps (transition_to_new_slot self0 timestamp written) before self_b /\
    sched_step self_b (EvTransaction blocked) self_c /\ sched_step self_c (EvTransaction overtaker) self_d /\
    sched_steps self_d after self2 /\
    (exists e holder, s_executors self_b !! e = Some (Some holder) /\
       accounts_conflict (pt_accounts blocked) (pt_accounts (it_txn holder))) /\
    (forall e t, s_executors self_b !! e = Some (Some t) ->
       ~ accounts_conflict (pt_accounts overtaker) (pt_accounts (it_txn t))) /\
    is_transaction_allowed (s_coordinator self_c) (pt_mode overtaker) = true /\
    blocked ∈ it_txn <$> drop (length (s_dispatched self_d)) (s_dispatched self2);
  ot_still_primary : is_primary (s_coordinator self2) = true;
}.

(** Then the scheduler dispatches [overtaker] first. *)
Lemma overtaking_dispatch `{C : Crypto} self0 timestamp written before after blocked overtaker self2 :
  sched_inv (transition_to_new_slot self0 timestamp written) ->
  overtaking self0 timestamp written before after blocked overtaker self2 ->
  exists events earlier t later, Forall event_wf events /\ Forall within_slot events /\
    sched_steps (transition_to_new_slot self0 timestamp written) events self2 /\
    s_dispatched self2 = s_dispatched (transition_to_new_slot self0 timestamp written) ++ earlier ++ t :: later /\
    it_txn t = overtaker /\ blocked ∈ it_txn <$> later.
Proof.
  intros Hi1 [_ [Wb Sb] [Wa Sa] [Wbl Wov] _ _ (self_b & self_c & self_d & Hb & [Enb Hhb] & [Enc Hhc] & Ha & (e & holder & Hh & Hcf) & Hfree & Hal & Hlate) _].
  destruct (sched_steps_progress _ _ _ Hb Wb Sb Hi1) as (earlier & Hpb & Hib).
  destruct (conflicting_waits _ _ _ _ _ Hib Wbl Enb Hhb Hh Hcf) as (Hpc & Hec & Hic).
  destruct (handle_new_transaction_spec self_c overtaker Hic Wov Enc) as (self_d' & sent & E & Hid & _ & Hpd & Hcase).
  cbn [handle_event] in Hhc. rewrite E in Hhc. injection Hhc as ->.
  destruct Hcase as [(e' & t & Ht & -> & _)|(_ & _ & (e' & t & Ht & Hcf')%(fun H => H Hal))].
  2: { rewrite Hec in Ht. by destruct (Hfree e' t Ht). }
  destruct (sched_steps_progress _ _ _ Ha Wa Sa Hid) as (later & Hpa & _).
  exists (before ++ [EvTransaction blocked] ++ [EvTransaction overtaker] ++ after), earlier, t, later.
  split_conj; [by rewrite !Forall_app, !Forall_singleton|by rewrite !Forall_app, !Forall_singleton| | |done|].
  - rewrite !app_assoc. eapply sched_steps_app; [|exact Ha]. eapply sched_snoc; [eapply sched_snoc; [exact Hb|]|]; by split.
  - rewrite (pg_sent _ _ _ Hpa), (pg_sent _ _ _ Hpd), (pg_sent _ _ _ Hpc), (pg_sent _ _ _ Hpb), app_nil_r, <-!app_assoc. done.
  - by rewrite (pg_sent _ _ _ Hpa), drop_app_length in Hlate.
Qed.


(** ** The writer and the program *)

(** The two messages a slashing instruction convicts on: those the ed25519 instruction before it in the
    transaction was verified for, both under [key]. *)
Definition evidence_of `{R : Runtime} (ctx : Context) (accounts : list AccountInfo) (key m1 m2 : bytes) : Prop :=
  exists sysvar here data, accounts !! 4%nat = Some sysvar /\
    load_current_index_checked ctx (ai_key sysvar) = Ok here /\
    load_instruction_at_checked ctx (here - 1) (ai_key sysvar) = Ok (ed25519_program_id, data) /\
    verified_pairs data (here - 1) = Ok [MkVerified key m1; MkVerified key m2].

Lemma conviction_evidence `{C : Crypto} `{R : Runtime} `{!RuntimeLaws R} ctx program_id accounts L L' :
  precompiled ctx -> prove_equivocation ctx program_id accounts L = Ok (tt, L') ->
  exists oi acc m1 m2, accounts !! 1%nat = Some oi /\ OperatorAccount_read (data_at L (ai_key oi)) = Ok acc /\
    evidence_of ctx accounts (o_signing_key acc) m1 m2 /\ contradiction (o_signing_key acc) m1 m2.
Proof.
  intros Hpre (accuser & oi & ci & burn_to & sysvar & system & acc & e & bump & f & L1 & ? & ? & ? & ? & ? &
    Htake & _ & _ & _ & Hacc & Hev & _)%prove_equivocation_Ok.
  pose proof (load_evidence_sound _ _ _ _ _ Hpre Hev) as Hcon.
  apply load_evidence_Ok in Hev as (_ & here & data & p0 & p1 & Hi & _ & Hd & Hq & K0 & K1 & He).
  apply Equivocation_check_Ok in He as (_ & _ & _ & _ & _ & ->). cbn [e_a e_b] in Hcon.
  assert (forall i, (i < 6)%nat -> accounts !! i = [accuser; oi; ci; burn_to; sysvar; system] !! i) as Hget.
  { intros i Hlt. by rewrite <-Htake, lookup_take_lt. }
  exists oi, acc, (v_message p0), (v_message p1). split_conj; [by rewrite Hget by lia|done| |done].
  exists sysvar, here, data. split_conj; [by rewrite Hget by lia|done|done|].
  rewrite Hq. destruct p0, p1. cbn in *. by subst.
Qed.

(** C3: an honest operator is convicted only by a forgery.  Let a node's writer run any commands with
    the equivocation attack off, on a storage that does not half-fail, and let the slashing instruction
    succeed against an operator account registered for its key.  Then of the two contradictory messages
    the conviction rests on, both with a valid signature of that key, one was neither put in the node's
    log nor handed out in a reply: somebody else made a signature under the node's key. *)
Theorem honest_operator_convicted_by_forgery `{C : Crypto} `{!CryptoLaws C} `{Rk : Rocks} `{!RocksLaws Rk}
    `{R : Runtime} `{!RuntimeLaws R}
    (ledger0 : rocks) (key : SigningKey) (nanos minted : Z) (deadline : RevealDeadline)
    (commands : list (Instant * WriterCommand)) (replies : list Reply) (self : ReceiptWriter)
    (ctx : Context) (program_id : bytes) (accounts : list AccountInfo) (L L' : ledger)
    (Hd : 0 <= dl_max_outstanding deadline) (Hwf : commands_wf commands)
    (Hlen : Z.of_nat (length commands) < 2 ^ 64)
    (Hrun : ReceiptWriter_run commands (ReceiptWriter_new ledger0 key nanos minted false deadline) = (replies, self))
    (Hh : Forall healthy replies)
    (Hpre : precompiled ctx) (Hp : prove_equivocation ctx program_id accounts L = Ok (tt, L'))
    (Hkey : forall oi acc, accounts !! 1%nat = Some oi ->
       OperatorAccount_read (data_at L (ai_key oi)) = Ok acc -> o_signing_key acc = verifying_key key) :
  exists m1 m2, evidence_of ctx accounts (verifying_key key) m1 m2 /\ contradiction (verifying_key key) m1 m2 /\
    exists m, (m = m1 \/ m = m2) /\
      (forall s, s ∈ w_events self -> SignedReceipt_message s <> m) /\
      (forall s, ReplyReceipt (Ok s) ∈ replies -> SignedReceipt_message s <> m).
Proof.
  destruct (run_inv commands [] _ _ _ (writer_inv_new ledger0 key nanos minted false deadline Hd) Hwf Hlen Hh Hrun)
    as (_ & log & Hi & Hall). change ([] ++ log) with log in Hi. pose proof (wi_chain _ _ Hi) as Hc.
  assert (forall s, ReplyReceipt (Ok s) ∈ replies -> s ∈ w_events self) as Hin.
  { intros s Hs. destruct (Hall _ Hs) as (_ & published & Hpub & Has). cbn in Has, Hpub.
    rewrite (wi_events _ _ Hi). by rewrite <-Has. }
  destruct (conviction_evidence _ _ _ _ _ Hpre Hp) as (oi & acc & m1 & m2 & Hoi & Hacc & Hev & Hcon).
  rewrite (Hkey _ _ Hoi Hacc) in Hev, Hcon. exists m1, m2. split_conj; [done..|].
  destruct Hcon as (Hne & _ & _ & _ & Hseq & _).
  assert (forall s, s ∈ w_events self -> le_val (slice (SignedReceipt_message s) OFF_SEQ OFF_TX_SIG) = r_seq (s_receipt s)) as Hbytes.
  { intros s Hs. rewrite (wi_events _ _ Hi) in Hs. apply list_elem_of_lookup in Hs as [i Hs].
    destruct (Hc _ _ Hs) as [[Hw _] _ _ _ _]. by destruct (receipt_offsets _ Hw) as (_ & _ & ? & _). }
  destruct (decide (m1 ∈ SignedReceipt_message <$> w_events self)) as [Ha|Ha].
  - destruct (decide (m2 ∈ SignedReceipt_message <$> w_events self)) as [Hb|Hb].
    + apply list_elem_of_fmap in Ha as (s & Es & Hs), Hb as (s' & Es' & Hs'). exfalso. apply Hne.
      rewrite Es, Es' in *. rewrite !Hbytes in Hseq by done. rewrite (wi_events _ _ Hi) in Hs, Hs'.
      by rewrite (chained_unique _ _ log s s' Hc Hs Hs' Hseq).
    + exists m2. split_conj; [by right|..]; intros s Hs E; apply Hb; rewrite <-E; auto using list_elem_of_fmap_2.
  - exists m1. split_conj; [by left|..]; intros s Hs E; apply Ha; rewrite <-E; auto using list_elem_of_fmap_2.
Qed.

(** ** Witnesses *)

#[local] Existing Instance toy_crypto.
#[local] Existing Instance toy_rocks.
#[local] Existing Instance toy_runtime.

(** Two transactions of one payer. *)
Definition toy_wire_by (signature : byte) : bytes := fill 64 signature ++ fill 32 x02 ++ toy_x.

Lemma conflict_agrees_with_locks_witness :
  exists o o', observe (S := toy_solana) (toy_wire_by x51) = Ok o /\ observe (S := toy_solana) (toy_wire_by x52) = Ok o' /\
    (conflicts o o' = true <-> accounts_conflict [(toy_x, true)] [(toy_x, true)]).
Proof.
  eexists _, _. split; [vm_compute; reflexivity|]. split; [vm_compute; reflexivity|].
  exact (conflict_agrees_with_locks (S := toy_solana) (toy_wire_by x51) (toy_wire_by x52) (toy_wire_by x51) (toy_wire_by x52)
    (MkSanitized (fill 64 x51) [(toy_x, true)] (fill 32 x02)) (MkSanitized (fill 64 x52) [(toy_x, true)] (fill 32 x02)) _ _
    ltac:(vm_compute; reflexivity) ltac:(vm_compute; reflexivity) ltac:(vm_compute; reflexivity) ltac:(vm_compute; reflexivity)
    ltac:(vm_compute; reflexivity) ltac:(vm_compute; reflexivity) ltac:(vm_compute; reflexivity) ltac:(vm_compute; reflexivity)).
Defined.

Lemma toy_operator_read :
  OperatorAccount_read (data_at toy_ledger2 ToyChain.toy_operator) = Ok (toy_account toy_ledger2).
Proof. vm_compute. reflexivity. Qed.

Lemma honest_operator_convicted_by_forgery_witness :
  exists m1 m2, evidence_of toy_ctx1 prove_accounts toy_signing m1 m2 /\
    exists m, (m = m1 \/ m = m2) /\ forall s, s ∈ w_events (toy_run false).2 -> SignedReceipt_message s <> m.
Proof.
  destruct (honest_operator_convicted_by_forgery (C := toy_crypto) (Rk := toy_rocks) (R := toy_runtime) toy_disk (fill 32 x41) 77 0
    RevealDeadline_default toy_commands (toy_run false).1 (toy_run false).2 toy_ctx1 toy_program prove_accounts toy_ledger2 _
    ltac:(eval_done) toy_commands_wf ltac:(eval_done) (toy_runs false) (toy_healthy false) toy_precompiled toy_prove_runs)
    as (m1 & m2 & He & _ & m & Hm & Hev & _).
  { intros oi acc [= <-] Hacc.
    change (ai_key _) with ToyChain.toy_operator in Hacc. rewrite toy_operator_read in Hacc.
    rewrite <-(Ok_inj _ _ Hacc).
    vm_compute. reflexivity. }
  exact (ex_intro _ m1 (ex_intro _ m2 (conj He (ex_intro _ m (conj Hm Hev))))).
Defined.

(** What the watchtower sees of a transaction of [SchedulerProperties]. *)
Definition toy_seen (signature : byte) (keys : list bytes) : ObservedTransaction :=
  MkObserved (fill 64 signature) (toy_hash [signature]) (fill 32 x60) keys [] [signature].

Lemma toy_seen_as signature keys : observed_as (toy_processable signature keys) (toy_seen signature keys).
Proof.
  split; [done|..]; intros k; cbn [toy_seen toy_processable o_writable o_readonly pt_accounts].
  - rewrite list_elem_of_fmap. split; [intros H; by exists k|]. by intros (k' & [= ->] & H).
  - rewrite list_elem_of_fmap. split; [by intros ?%not_elem_of_nil|]. by intros (k' & [=] & H).
Qed.

Definition toy_seen_slot : list ObservedTransaction :=
  [toy_seen x51 [toy_x]; toy_seen x53 [toy_y]; toy_seen x52 [toy_x; toy_y]].

Lemma toy_seen_slot_as : Forall2 observed_as [toy_holder; toy_overtaker; toy_blocked] toy_seen_slot.
Proof. repeat apply List.Forall2_cons; [apply toy_seen_as..|apply List.Forall2_nil]. Qed.
Lemma toy_seen_signatures : signatures_wf toy_seen_slot.
Proof. eval_done. Qed.
Lemma toy_seen_different : NoDup (o_signature <$> toy_seen_slot).
Proof. eval_done. Qed.

(** The receipts of the three, stamped in the order in which they arrive. *)
Definition toy_stamps : list (Instant * WriterCommand) :=
  [(MkInstant 13 1000, CmdStamp (fill 64 x51) [x51] (fill 32 x02));
   (MkInstant 13 1001, CmdStamp (fill 64 x52) [x52] (fill 32 x02));
   (MkInstant 13 1002, CmdStamp (fill 64 x53) [x53] (fill 32 x02))].
Definition toy_tickets : list SignedReceipt :=
  Eval vm_compute in w_events (ReceiptWriter_run toy_stamps (toy_writer false)).2.

(** The block of the slot, as the watchtower reads it from getBlock. *)
Definition toy_overtaken_block : ObservedBlock :=
  Eval vm_compute in
    match last (s_blocks (transition_to_new_slot (C := toy_crypto) toy_slot_end 1701 true)) with
    | Some latest => MkBlock (lb_slot latest) (hasher_finalize (C := toy_crypto) toy_primary) (lb_blockhash latest)
                       (reverse toy_seen_slot)
    | None => MkBlock 0 [] [] []
    end.

(** The run of [SchedulerProperties]: the first holds x, the second waits for it, the third, which needs
    only y, is dispatched before the second. *)
Lemma toy_overtaking :
  overtaking (C := toy_crypto) toy_primary 1700 true [EvTransaction toy_holder] [EvReady 2; EvReady 1]
    toy_blocked toy_overtaker toy_slot_end.
Proof.
  split.
  - reflexivity.
  - split; repeat constructor; eval_done.
  - split; repeat constructor.
  - split; eval_done.
  - done.
  - exists toy_y, true, true. split_conj; [left|right; left|by left].
  - set (at_tick := transition_to_new_slot (C := toy_crypto) toy_primary 1700 true).
    set (go := fun events => match run_events (C := toy_crypto) at_tick events with Ok self => self | _ => toy_start end).
    exists (go [EvTransaction toy_holder]), (go [EvTransaction toy_holder; EvTransaction toy_blocked]), (go toy_arrivals).
    split_conj.
    + apply run_events_steps. vm_compute. reflexivity.
    + split; vm_compute; reflexivity.
    + split; vm_compute; reflexivity.
    + apply run_events_steps. vm_compute. reflexivity.
    + exists 2%nat, (MkIndexed 14 0 toy_holder). split; [vm_compute; reflexivity|].
      exists toy_x, true, true. split_conj; [left|left|by left].
    + assert (s_executors (go [EvTransaction toy_holder]) = [None; None; Some (MkIndexed 14 0 toy_holder)]) as ->
        by (vm_compute; reflexivity).
      intros [|[|[|e]]] t; try done. intros [= <-].
      intros (k & w & w' & Hk%list_elem_of_singleton & Hk'%list_elem_of_singleton & _). injection Hk as -> _. discriminate Hk'.
    + vm_compute. reflexivity.
    + assert (it_txn <$> drop (length (s_dispatched (go toy_arrivals))) (s_dispatched toy_slot_end) = [toy_blocked]) as ->
        by (vm_compute; reflexivity). left.
  - reflexivity.
Qed.

Definition toy_latest : LatestBlock :=
  Eval vm_compute in
    default (MkLatest 0 [] 0 0) (last (s_blocks (transition_to_new_slot (C := toy_crypto) toy_slot_end 1701 true))).
Lemma toy_latest_last :
  last (s_blocks (transition_to_new_slot (C := toy_crypto) toy_slot_end 1701 true)) = Some toy_latest.
Proof. vm_compute. reflexivity. Qed.
Lemma toy_overtaken_block_read :
  MkBlock (lb_slot toy_latest) (hasher_finalize (C := toy_crypto) toy_primary) (lb_blockhash toy_latest)
    (reverse toy_seen_slot) = toy_overtaken_block.
Proof. vm_compute. reflexivity. Qed.
Lemma toy_sent_hashed :
  s_dispatched toy_primary = [] /\ covered_by_hash (s_dispatched toy_slot_end) = [toy_holder; toy_overtaker; toy_blocked].
Proof. vm_compute. done. Qed.

Lemma toy_order (i j : nat) :
  [toy_holder; toy_overtaker; toy_blocked] !! i = Some toy_overtaker ->
  [toy_holder; toy_overtaker; toy_blocked] !! j = Some toy_blocked -> i = 1%nat /\ j = 2%nat.
Proof.
  intros Hi%(f_equal (fmap pt_signature)) Hj%(f_equal (fmap pt_signature)).
  split; [destruct i as [|[|[|i]]]|destruct j as [|[|[|j]]]]; try done; vm_compute in Hi, Hj; (discriminate Hi || discriminate Hj).
Qed.

Definition toy_ticket (i : nat) : SignedReceipt := nth i toy_tickets (MkSigned sample_receipt []).
Lemma toy_live :
  live (ReceiptIndex_build (C := toy_crypto) toy_tickets toy_operator) (toy_seen x52 [toy_x; toy_y]) (toy_ticket 1) /\
  live (C := toy_crypto) (ReceiptIndex_build (C := toy_crypto) toy_tickets toy_operator) (toy_seen x53 [toy_y]) (toy_ticket 2) /\
  seq_of (toy_ticket 1) < seq_of (toy_ticket 2).
Proof. split; [split; vm_compute; reflexivity|]. split; [split; vm_compute; reflexivity|]. vm_compute. reflexivity. Qed.

Definition toy_reorder : Fault :=
  FaultReorder (lb_slot toy_latest) (hasher_finalize (C := toy_crypto) toy_primary) (lb_blockhash toy_latest)
    (o_signature <$> toy_seen_slot) (MkReordered (toy_ticket 2) [x53] (as_u32 1)) (MkReordered (toy_ticket 1) [x52] (as_u32 2)).
Lemma toy_reorder_derivable : re_derivable (C := toy_crypto) toy_reorder.
Proof. unfold toy_reorder, re_derivable. split_conj; (vm_compute; reflexivity) || (vm_compute; discriminate). Qed.
Lemma toy_seen_nonzero o : o ∈ toy_seen_slot -> o_signature o <> ZERO_SIG.
Proof. revert o. apply Forall_forall. eval_done. Qed.

