(* ===== verification/ServedOrder.v ===== *)
(** * From the scheduler to the watchtower

    A slot of a primary, from the transactions its scheduler sends to its executors to the verdict of a
    watchtower that reads the slot through getBlock. *)
From S2P Require Import Prelude Crypto Receipt Wire Watchtower BlockScan Client ToyLog BlockScanProperties Columns Rocks Store Locks LockInv Scheduler SchedulerInv SchedulerProperties Ledger LedgerInv Truncator TruncatorInv Blocks Executor ExecutorInv Node Ingress Handlers Serve ServeBlock ToyLedger EndToEnd.

Section served.
Context `{C : Crypto} `{J : Json} `{!JsonLaws J} `{S : Solana} `{!SolanaLaws S} `{L : !LedgerCodec} `{!LedgerCodecLaws L}
  `{V : !Svm} `{!SvmLaws V} `{B : !BlockEncoding} `{!BlockEncodingLaws B} `{R : Rocks} `{!RocksLaws R}.
Implicit Types (st : NodeState) (t : IndexedTransaction) (o : ObservedTransaction).

(** A transaction as the handlers prepare it from wire bytes that hold nothing else, and what the
    watchtower sees in those bytes. *)
Definition prepared t o : Prop :=
  exists wire txn sanitized tx, bincode_deserialize wire = Some txn /\ bincode_serialize txn = wire /\
    validate_supported_transaction_shape txn = Ok tt /\ tx_sanitize txn = Ok sanitized /\
    it_txn t = processable sanitized (ModeExecution tx) (Some wire) /\ observe wire = Ok o.

Lemma prepared_observed ts observed : Forall2 prepared ts observed -> Forall2 observed_as (it_txn <$> ts) observed.
Proof.
  induction 1 as [|t o ts observed (wire & txn & s & tx & Hd & _ & Hsh & Hs & Et & Ho) _ IH]; cbn; constructor; [|done].
  rewrite Et. by eapply observe_prepared.
Qed.

(** What the ledger serves of a recorded transaction is what was observed. *)
Lemma served_observed t e entry o : prepared t o -> recorded_as t e -> serves e entry ->
  observe (bincode_serialize entry.1) = Ok o.
Proof.
  intros (wire & txn & s & tx & Hd & Hc & _ & _ & Et & Ho) (_ & _ & _ & He) [Hde _]. rewrite Et in He. cbn in He.
  injection He as He. rewrite <-He, Hd in Hde. injection Hde as <-. by rewrite Hc.
Qed.

Lemma served_listing ts sent observed transactions :
  Forall2 prepared ts observed -> Forall2 recorded_as ts sent -> Forall2 serves (reverse sent) transactions ->
  Forall2 (fun entry o => observe (bincode_serialize entry.1) = Ok o) transactions (reverse observed).
Proof.
  intros Hp Hr Hs%Forall2_reverse. rewrite reverse_involutive in Hs. rewrite <-(reverse_involutive transactions).
  apply Forall2_reverse. revert observed Hp Hs. generalize (reverse transactions) as entries. clear transactions.
  induction Hr as [|t e ts sent Hr _ IH]; intros entries observed Hp Hs.
  { apply Forall2_nil_inv_l in Hp as ->. apply Forall2_nil_inv_l in Hs as ->. apply List.Forall2_nil. }
  apply Forall2_cons_inv_l in Hp as (o & observed' & Ho & Hp & ->).
  apply Forall2_cons_inv_l in Hs as (entry & entries' & Hentry & Hs & ->).
  apply List.Forall2_cons; [by eapply served_observed|by apply IH].
Qed.

(** What was sent in a slot without replays, and what its hash covers. *)
Lemma covered_executions sent : Forall (fun t => forall position, pt_mode (it_txn t) <> Replay position) sent ->
  covered_by_hash sent = it_txn <$> filter is_execution sent.
Proof.
  unfold covered_by_hash. induction 1 as [|t sent Ht _ IH]; [done|]. cbn [fmap list_fmap]. rewrite !filter_cons, IH.
  destruct (decide (is_execution t)) as [Hx|Hx], (decide (is_hashed (it_txn t) = true)) as [Hh|Hh]; try done; exfalso;
    unfold is_execution, is_hashed in *; destruct (pt_mode (it_txn t)) as [|tx|position]; try done. by apply (Ht position).
Qed.

Lemma prepared_signatures ts observed : Forall2 prepared ts observed -> signatures_wf observed.
Proof.
  unfold signatures_wf. induction 1 as [|t o ts observed (wire & txn & s & tx & _ & _ & _ & _ & _ & Ho) _ IH]; constructor; [|done].
  unfold observe in Ho. res_inv. destruct (foldl _ _ _). injection Ho as <-. cbn. by apply try_into_array_Some in H1 as [? ->].
Qed.

Lemma prepared_encoded ts observed : Forall2 prepared ts observed ->
  Forall (fun t => is_Some (pt_encoded (it_txn t) ≫= bincode_deserialize)) ts.
Proof.
  induction 1 as [|t o ts observed (wire & txn & s & tx & Hd & _ & _ & _ & Et & _) _ IH]; constructor; [|done].
  rewrite Et. cbn. by rewrite Hd.
Qed.

Lemma recorded_decodes ts sent : Forall2 recorded_as ts sent ->
  Forall (fun t => is_Some (pt_encoded (it_txn t) ≫= bincode_deserialize)) ts ->
  Forall (fun e => is_Some (bincode_deserialize (tx_encoded e))) sent.
Proof.
  induction 1 as [|t e ts sent (_ & _ & _ & He) _ IH]; intros Hd; constructor; apply Forall_cons in Hd as [Hd1 Hd]; [|auto].
  by rewrite He in Hd1.
Qed.
End served.


(** ** A slot with two transactions on one account *)

#[local] Existing Instance toy_crypto.
#[local] Existing Instance toy_json.
#[local] Existing Instance toy_solana.
#[local] Existing Instance toy_codec.
#[local] Existing Instance toy_svm.
#[local] Existing Instance toy_block_encoding.
#[local] Existing Instance toy_rocks.

Definition toy_sanitized (signature : byte) : SanitizedTransaction :=
  MkSanitized (fill 64 signature) [(toy_x, true)] (fill 32 x02).
Definition toy_arriving (signature : byte) : ProcessableTransaction :=
  processable (toy_sanitized signature) (ModeExecution true) (Some (toy_wire_by signature)).

(** The second waits for the first. *)
Definition toy_two_events : list Event := [EvTransaction (toy_arriving x51); EvTransaction (toy_arriving x52); EvReady 2].
Definition toy_two_end : TransactionScheduler :=
  Eval vm_compute in
    match run_events (transition_to_new_slot toy_primary 1700 true) toy_two_events with
    | Ok self => self | _ => toy_start
    end.
Definition toy_two_sent : list IndexedTransaction := [MkIndexed 14 0 (toy_arriving x51); MkIndexed 14 1 (toy_arriving x52)].
Definition toy_two_block : LatestBlock :=
  Eval vm_compute in LatestBlock_new 14 (fold (hasher_finalize toy_primary) [fill 64 x51; fill 64 x52]) 1701.

Definition toy_answers : Answers := {|
  an_compute_budget := Ok tt;
  an_output := Ok (Executed {| ex_status := Ok tt; ex_log_messages := None; ex_executed_units := 100; ex_return_data := None;
    ex_inner_instructions := None; ex_total_fee := 0; ex_accounts := [(toy_x, MkToyAccount false true false false)];
    ex_rollback_accounts := OtherRollback |});
  an_balances := None; an_insert_batch := Ok tt; an_tasks := []; an_serialized := None; an_loaded_addresses := tt |}.

Definition toy_fresh_ledger : Ledger :=
  MkLedger toy_rocks (MkToyDb toy_empty [] 0) (fun _ => DIRTY_COUNT) DIRTY_COUNT DIRTY_COUNT 0 0 LatestBlockInner_default [].
Definition toy_node : NodeState :=
  MkNodeState (replicate 3 (TransactionExecutor_new 12 (fill 32 x02) LatestBlockInner_default))
    (MkEffects _ _ _ _ toy_fresh_ledger [] [] [] [] [] [] []).

(** The block before, the two records, the block, and a tick of the truncator. *)
Definition toy_node_events : list NodeEvent :=
  [NodeLedger (OpBlock (LatestBlock_new 13 (hasher_finalize toy_primary) 1700));
   NodeExecutor 0 (ExCommand (CmdTransaction (MkIndexed 14 1 (toy_arriving x52)) toy_answers));
   NodeExecutor 2 (ExCommand (CmdTransaction (MkIndexed 14 0 (toy_arriving x51)) toy_answers));
   NodeLedger (OpBlock toy_two_block);
   NodeLedger (OpTick 1000 (MkToken false (fun _ => false)))].
Definition toy_node_end : NodeState := match node_run toy_node_events toy_node with Ok st => st | _ => toy_node end.

Lemma toy_node_ran : node_run toy_node_events toy_node = Ok toy_node_end.
Proof.
  assert (is_ok (node_run toy_node_events toy_node) = true) as H by (vm_compute; reflexivity).
  unfold toy_node_end. by destruct (node_run toy_node_events toy_node).
Qed.

Lemma toy_slot_run : slot_run 14 toy_node_events toy_node toy_node_end toy_two_sent toy_two_block.
Proof.
  split.
  - exact toy_node_ran.
  - vm_compute. reflexivity.
  - repeat constructor; eval_done.
  - assert (executed_in 14 toy_node_events = reverse toy_two_sent) as -> by (vm_compute; reflexivity).
    apply reverse_Permutation.
  - repeat constructor; eexists; reflexivity.
  - eval_done.
  - vm_compute. reflexivity.
  - eval_done.
  - reflexivity.
  - assert (forall k, holds (l_db (n_ledger toy_node)) SlotSignatures k = None) as Hn by (intros k; apply lookup_empty).
    split; intros k v Hv; by rewrite Hn in Hv.
  - split; [eval_done|cbn; lia].
  - vm_compute. reflexivity.
  - intros i _. apply lookup_empty.
Qed.

Definition toy_served (signature : byte) : ObservedTransaction :=
  MkObserved (fill 64 signature) (tx_hash (toy_wire_by signature)) toy_x [toy_x] [] (toy_wire_by signature).

Lemma toy_two_prepared : Forall2 prepared toy_two_sent [toy_served x51; toy_served x52].
Proof.
  repeat apply List.Forall2_cons; try apply List.Forall2_nil.
  - exists (toy_wire_by x51), (toy_wire_by x51), (toy_sanitized x51), true. split_conj; vm_compute; reflexivity.
  - exists (toy_wire_by x52), (toy_wire_by x52), (toy_sanitized x52), true. split_conj; vm_compute; reflexivity.
Qed.

