(* ===== verification/LedgerProperties.v ===== *)
(** * What the ledger and the executors promise

    The properties of the ledger, its upkeep, the executors and the replay at startup. *)
From S2P Require Import Prelude Crypto Receipt Wire Watchtower Client Columns Rocks Store Locks Scheduler SchedulerProperties Ledger LedgerInv Truncator TruncatorInv Blocks Executor ExecutorInv Node Replay Ingress Handlers Serve ServeBlock ToyLedger EndToEnd ServedOrder.

(** C7: a block reads back as it was written.  Whatever calls are made on the ledger, writes by any
    threads in any order and ticks of the truncator and compactions among them: once all the
    transactions of a slot and its block were written, each transaction at its own index, and as long
    as the truncator has cleaned up neither the slot nor the slot before it, the signatures of the slot are listed in the order of the
    indexes, and its block has the hashes and the time that were written and exactly those
    transactions, with their statuses, the last first. *)
Theorem written_block_reads_back `{S : Solana} `{L : !LedgerCodec} `{!LedgerCodecLaws L} `{J : Json} `{R : Rocks} `{!RocksLaws R}
    (slot : Z) (ops : list LedgerOp) (self : Ledger) (rs : list (result LedgerError unit)) (self' : Ledger)
    (sent : list Entry) (block : LatestBlock) (previous : bytes)
    (Hw : slot_written slot ops self rs self' sent block)
    (Hd : Forall (fun e => is_Some (bincode_deserialize (tx_encoded e))) sent)
    (Hr : readable (l_db self')) (Hi : iterable (l_db self'))
    (Ha : available self' (saturating_sub slot 1)) (Hp : hash_at (l_db self') (saturating_sub slot 1) previous) :
  get_transaction_signatures_for_slot self' slot = Ok (tx_signature <$> sent) /\
  exists transactions, Forall2 serves (reverse sent) transactions /\
    get_block self' slot = Ok (Some {|
      cb_previous_blockhash := Hash_to_string previous; cb_blockhash := Hash_to_string (lb_blockhash block);
      cb_parent_slot := saturating_sub slot 1; cb_transactions := transactions; cb_block_time := Some (lb_timestamp block);
      cb_block_height := Some slot |}).
Proof. exact (slot_served slot ops self rs self' sent block previous Hw Hd Hr Hi Ha Hp). Qed.

(** ** Receipts outlive everything else *)

Section receipts.
Context `{S : Solana} `{L : !LedgerCodec} `{R : Rocks} `{!RocksLaws R}.
Implicit Types (self : Ledger).

Definition no_receipt (op : LedgerOp) : Prop := match op with OpReceipt _ _ _ _ => False | _ => True end.

Lemma run_op_receipts op self r self' c k : run_op op self = (r, self') -> cleaned self -> no_receipt op ->
  c = ReceiptBySeq \/ c = ReceiptBySig -> holds (l_db self') c k = holds (l_db self) c k.
Proof.
  intros Hrun Hc Hn Hcol. destruct (run_op_effect _ _ _ _ Hrun Hc) as (_ & _ & Ha). apply (alters_frame _ _ _ _ _ Ha).
  intros v. destruct op; cbn in *; unfold of_transaction, of_block, prunable; destruct Hcol as [-> | ->]; naive_solver.
Qed.

Lemma run_ops_receipts ops self rs self' c k : run_ops ops self = (rs, self') -> cleaned self -> Forall no_receipt ops ->
  c = ReceiptBySeq \/ c = ReceiptBySig -> holds (l_db self') c k = holds (l_db self) c k.
Proof.
  intros Hrun Hc Hn Hcol. revert self rs Hrun Hc. induction Hn as [|op ops Hop _ IH]; intros self rs; cbn [run_ops];
    [by intros [= <- <-]|].
  destruct (run_op op self) as [r self1] eqn:E1, (run_ops ops self1) as [rs1 self2] eqn:E2. intros [= <- <-] Hc.
  destruct (run_op_effect _ _ _ _ E1 Hc) as (Hc1 & _ & _). rewrite (IH _ _ E2 Hc1). by eapply run_op_receipts.
Qed.
End receipts.

(** What is read of the receipts depends on nothing else. *)
Lemma receipts_read_same `{C : Crypto} `{J : Json} `{R : Rocks} `{!RocksLaws R} (d d' : rocks) :
  readable d -> readable d' -> iterable d -> iterable d' ->
  (forall c k, c = ReceiptBySeq \/ c = ReceiptBySig -> holds d' c k = holds d c k) ->
  (forall params, get_receipts d' params = get_receipts d params) /\
  (forall params, get_receipt d' params = get_receipt d params).
Proof.
  intros Hr Hr' Hi Hi' Hsame. split; intros params.
  - unfold get_receipts, iter_receipts, column_iter. destruct params as [[from limit]|]; [|done]. cbn. destruct from; [|done]. cbn.
    by rewrite (iterator_same d d') by auto.
  - assert (forall seq, (read_receipt seq d').1 = (read_receipt seq d).1) as Hrow.
    { intros seq. unfold read_receipt, mbind, io_bind. rewrite !get_bytes_run, Hsame by auto.
      destruct (holds d ReceiptBySeq _); [cbn; by destruct (split_receipt _ _)|done]. }
    assert (forall signature, (read_receipt_by_signature signature d').1 = (read_receipt_by_signature signature d).1) as Hsig.
    { intros signature. unfold read_receipt_by_signature, mbind, io_bind. rewrite !get_bytes_run, Hsame by auto.
      destruct (holds d ReceiptBySig _) as [b|]; [|done]. unfold io_of. destruct (try_into_array 8 b) as [array|]; [|done].
      cbn. specialize (Hrow (be_val array)). destruct (read_receipt (be_val array) d') as [r' e'], (read_receipt (be_val array) d) as [r e].
      cbn in Hrow. subst r'. by destruct r. }
    unfold get_receipt. destruct params as [[signature|]|]; [|done|done]. cbn. by rewrite Hsig.
Qed.

(** C16: receipts outlive the ledger they are about.  Whatever transactions, blocks, memos and samples are
    written, however often the truncator runs and RocksDB compacts, and whether or not those calls
    succeed, every getReceipts and every getReceipt is answered as before. *)
Theorem receipts_survive_upkeep `{C : Crypto} `{J : Json} `{S : Solana} `{L : !LedgerCodec} `{R : Rocks} `{!RocksLaws R}
    (ops : list LedgerOp) (self : Ledger) (rs : list (result LedgerError unit)) (self' : Ledger)
    (Hrun : run_ops ops self = (rs, self')) (Hc : cleaned self) (Hn : Forall no_receipt ops)
    (Hr : readable (l_db self)) (Hr' : readable (l_db self')) (Hi : iterable (l_db self)) (Hi' : iterable (l_db self')) :
  (forall params, get_receipts (l_db self') params = get_receipts (l_db self) params) /\
  (forall params, get_receipt (l_db self') params = get_receipt (l_db self) params).
Proof.
  apply receipts_read_same; [done..|]. intros c k Hcol. by eapply run_ops_receipts.
Qed.

(** ** Executions *)

(** C13: an execution is recorded once, with the status its caller is told.  Whatever the SVM and the
    accounts database answer, a transaction that is executed, or replayed to be recorded, makes one
    write to the ledger; the caller, if one waits, is told the status in that record, and subscribers
    are told of it when the write succeeds, after a replay as well, although the comment of [execute]
    promises no notifications there.  A write that succeeds leaves the signature at the transaction's position,
    and its bytes and status under its signature and slot. *)
Theorem execution_recorded `{S : Solana} `{L : !LedgerCodec} `{!LedgerCodecLaws L} `{V : !Svm} `{!SvmLaws V} `{J : Json}
    `{R : Rocks} `{!RocksLaws R} (self : TransactionExecutor) (answers : Answers) (txn : IndexedTransaction)
    (persist : option bool) (fx fx' : Effects) (encoded : bytes)
    (Hrun : Executor.execute self answers txn persist fx = Ok fx') (He : encoding answers txn = Some encoded)
    (Hp : persist <> Some false) :
  exists e r, records answers txn e /\ run_op (OpTransaction e) (fx_ledger fx) = (r, fx_ledger fx') /\
    fx_replies fx' = fx_replies fx ++
      (match pt_mode (it_txn txn) with ModeExecution true => [meta_status (tx_status e)] | _ => [] end) /\
    fx_status_updates fx' = fx_status_updates fx ++ (if is_ok r then [status_of txn (tx_status e)] else []) /\
    (r = Ok tt ->
     position (l_db (fx_ledger fx')) (it_slot txn) (it_index txn) = Some (serialize_signature (pt_signature (it_txn txn))) /\
     holds (l_db (fx_ledger fx')) Transaction (TransactionStatus_key (pt_signature (it_txn txn), it_slot txn)) = Some encoded /\
     holds (l_db (fx_ledger fx')) TransactionStatus (TransactionStatus_key (pt_signature (it_txn txn), it_slot txn))
       = Some (protobuf_encode (generated_from (tx_status e)))).
Proof.
  destruct (execute_recorded _ _ _ _ _ _ _ Hrun He Hp) as (status & e & r & Hr & <- & Hl & Hrep & Hs & _). exists e, r.
  split_conj; [done..|]. intros ->. destruct Hr as (E1 & E2 & E3 & E4). rewrite He in E4. injection E4 as ->.
  apply write_transaction_Ok in Hl as (H1 & H2 & H3). rewrite E1, E2, E3 in *. done.
Qed.

(** C14: what an execution commits.  Whatever the SVM answers, an execution hands the accounts database at
    most one batch: accounts of a transaction that succeeded, and then none of them is a confined
    account with changed lamports unless the fee payer is privileged; or nothing but the fee payer. *)
Theorem commits_bounded `{S : Solana} `{L : !LedgerCodec} `{V : !Svm} `{J : Json} `{R : Rocks}
    (self : TransactionExecutor) (answers : Answers) (txn : IndexedTransaction) (persist : option bool) (fx fx' : Effects)
    (Hrun : Executor.execute self answers txn persist fx = Ok fx') :
  fx_batches fx' = fx_batches fx \/
  exists batch, fx_batches fx' = fx_batches fx ++ [batch] /\ (success_batch answers batch \/ fee_payer_batch txn batch).
Proof. exact (execute_batches self answers txn persist fx fx' Hrun). Qed.

(** C37: a replay that is not to be recorded is recorded when it fails.  With [persist] false a transaction
    that is processed and committed leaves the ledger and the subscribers alone, as the comment of
    [execute] says.  One that is not processed, or whose accounts the database refuses, is written to
    the ledger all the same: its signature at the position it was replayed at, in place of what was
    recorded there, and under its signature and slot its bytes and a status that is the error.  The
    subscribers are told of it too. *)
Theorem failed_replay_leaves_record `{S : Solana} `{L : !LedgerCodec} `{!LedgerCodecLaws L} `{V : !Svm} `{!SvmLaws V} `{J : Json}
    `{R : Rocks} `{!RocksLaws R} (self : TransactionExecutor) (answers : Answers) (txn : IndexedTransaction)
    (at_position : ReplayPosition) (fx fx' : Effects) (encoded : bytes)
    (Hrun : Executor.execute self answers txn (Some false) fx = Ok fx') (Hm : pt_mode (it_txn txn) = Replay at_position)
    (He : encoding answers txn = Some encoded) :
  (is_ok (process answers).1 = true -> an_insert_batch answers = Ok tt ->
   fx_ledger fx' = fx_ledger fx /\ fx_status_updates fx' = fx_status_updates fx /\
   fx_account_updates fx' = fx_account_updates fx /\ fx_replies fx' = fx_replies fx /\ fx_tasks fx' = fx_tasks fx) /\
  (forall err, replay_fails self answers txn fx err -> fx_failures fx' = fx_failures fx ->
   exists meta, meta_status meta = Err err /\
     position (l_db (fx_ledger fx')) (it_slot txn) (it_index txn) = Some (serialize_signature (pt_signature (it_txn txn))) /\
     holds (l_db (fx_ledger fx')) Transaction (TransactionStatus_key (pt_signature (it_txn txn), it_slot txn)) = Some encoded /\
     holds (l_db (fx_ledger fx')) TransactionStatus (TransactionStatus_key (pt_signature (it_txn txn), it_slot txn))
       = Some (protobuf_encode (generated_from meta)) /\
     fx_status_updates fx' = fx_status_updates fx ++ [status_of txn meta]).
Proof.
  split; [by eapply replay_quiet|]. intros err Hp Hf.
  destruct (failed_replay_recorded _ _ _ _ _ _ _ Hrun Hp He) as (e & r & (E1 & E2 & E3 & E4) & Hst & Hl & _ & Hs & Hfail).
  rewrite Hf in Hfail. destruct r as [[]|e'|]; cbn in Hfail.
  - rewrite He in E4. injection E4 as ->. exists (tx_status e).
    apply write_transaction_Ok in Hl as (H1 & H2 & H3). rewrite E1, E2, E3 in *. done.
  - apply (f_equal length) in Hfail. rewrite length_app in Hfail. cbn in Hfail. lia.
  - apply (f_equal length) in Hfail. rewrite length_app in Hfail. cbn in Hfail. lia.
Qed.


(** ** Replay at startup *)

(** C15: what is replayed.  If the ledger has a block for every slot of a range and none after it, each with
    its time and hash and transactions that sanitize, and the scheduler takes them, the replay started
    in the range ends: it has sent, slot by slot and within each slot in the order opposite to that of
    the block's list, the transactions that had succeeded from the slot on at which full processing
    starts; the latest block is that of the last slot.  The slot it returns is the last one replayed
    plus two. *)
Theorem replay_runs_blocks `{S : Solana} `{L : !LedgerCodec} `{J : Json} `{R : Rocks}
    (queued : ReplayRequest -> bool) (ledger : Ledger) (full max_age lowest start : Z)
    (blocks : list (VersionedConfirmedBlock * LatestBlock * list SanitizedTransaction)) (fuel : nat)
    (Hlow : get_lowest_slot ledger = Ok (Some lowest)) (Hstart : start = Z.max (saturating_sub full max_age) lowest)
    (Hblocks : forall i b latest txns, blocks !! i = Some (b, latest, txns) ->
       get_block ledger (start + Z.of_nat i) = Ok (Some b) /\ replayable full (start + Z.of_nat i) b latest txns /\
       Forall (fun r => queued r = true) (requests_of (start + Z.of_nat i) txns))
    (Hend : get_block ledger (start + Z.of_nat (length blocks)) = Ok None)
    (Hbound : 0 <= start /\ start + Z.of_nat (length blocks) + 1 < 2 ^ 64) (Hfuel : (length blocks < fuel)%nat) :
  process_ledger queued fuel ledger full max_age true =
    (Ok (start + Z.of_nat (length blocks) + 1),
     (store_all ledger (map (fun x => x.1.2) blocks),
      concat (imap (fun i x => requests_of (start + Z.of_nat i) x.2) blocks))).
Proof.
  unfold process_ledger. rewrite Hlow, <-Hstart. destruct Hbound as [H0 H1].
  by rewrite (replay_blocks_run queued full blocks fuel start ledger []) by auto.
Qed.

(** The first slot that is not cleaned up cannot be read: the hash of the block before it is refused. *)
Lemma first_available_refused `{S : Solana} `{L : !LedgerCodec} `{!LedgerCodecLaws L} `{J : Json} `{R : Rocks} `{!RocksLaws R}
    (self : Ledger) (slot time : Z) (hash : bytes) :
  readable (l_db self) -> l_lowest_cleanup_slot self = slot - 1 -> 1 < slot -> length hash = 32%nat ->
  slot < 2 ^ 64 ->
  holds (l_db self) Blockhash (SlotColumn_key slot) = Some (serialize_hash hash) ->
  holds (l_db self) Blocktime (SlotColumn_key slot) = Some (serialize_timestamp time) ->
  get_block self slot = Err SlotCleanedUp.
Proof.
  intros Hr Hlow Hs Hl Hu Hh Ht. unfold get_block.
  assert (in_bounds self) as Hb by (unfold in_bounds, U64_MAX; lia).
  assert (available self slot) as Ha by (right; lia).
  rewrite (get_block_hash_Some self slot hash), (get_block_time_Some self slot time), !bind_of_ok by done.
  cbv beta iota. unfold get_block_hash at 1. rewrite (check_cleaned self (saturating_sub slot 1)); [done|lia|]. unfold saturating_sub. lia.
Qed.

(** C36: a ledger that was pruned is not replayed.  Let a ledger be opened whose first block is that of a
    slot above one, as after truncation.  That block cannot be read: reading it asks for the hash of the
    slot before, which opening has marked as cleaned up.  So if the replay is to start at or before
    that slot it ends at once, sends nothing to the scheduler and reports success. *)
Theorem pruned_ledger_not_replayed `{S : Solana} `{L : !LedgerCodec} `{!LedgerCodecLaws L} `{J : Json} `{R : Rocks} `{!RocksLaws R}
    (queued : ReplayRequest -> bool) (d : rocks) (ledger : Ledger) (full max_age lowest time : Z) (hash : bytes) (fuel : nat)
    (Hopen : Ledger_open d = Ok ledger) (Hr : readable d)
    (Hlow : get_lowest_slot ledger = Ok (Some lowest)) (Hone : 1 < lowest) (Hmax : lowest + 1 < 2 ^ 64)
    (Hh : holds d Blockhash (SlotColumn_key lowest) = Some (serialize_hash hash)) (Hl : length hash = 32%nat)
    (Ht : holds d Blocktime (SlotColumn_key lowest) = Some (serialize_timestamp time))
    (Hstart : saturating_sub full max_age <= lowest) :
  get_block ledger lowest = Err SlotCleanedUp /\
  process_ledger queued (Datatypes.S fuel) ledger full max_age true = (Ok (lowest + 1), (ledger, [])).
Proof.
  assert (l_db ledger = d /\ l_lowest_cleanup_slot ledger = lowest - 1) as [Ed Ec].
  { unfold Ledger_open in Hopen. apply bind_Ok in Hopen as ([slot bh] & Hm & Hopen). apply bind_Ok in Hopen as (t & _ & Hopen).
    set (opened := LatestBlock_store _ _) in Hopen. unfold initialize_lowest_cleanup_slot in Hopen. cbv [mbind ledger_io_bind reads] in Hopen.
    destruct (get_lowest_slot opened) as [first|e|] eqn:El; [|done|done]. cbn in Hopen. injection Hopen as <-.
    assert (get_lowest_slot opened = Ok (Some lowest)) as El'.
    { rewrite <-Hlow. unfold get_lowest_slot, set_lowest_cleanup_slot. by case_decide. }
    rewrite El in El'. injection El' as ->. rewrite (proj2 (Z.ltb_lt 0 lowest)) by lia.
    unfold set_lowest_cleanup_slot. case_decide; cbn; (split; [done|]); cbn in *; lia. }
  assert (get_block ledger lowest = Err SlotCleanedUp) as Hg.
  { eapply (first_available_refused ledger lowest time hash); rewrite ?Ed; try done; lia. }
  split; [done|]. unfold process_ledger. rewrite Hlow. rewrite Z.max_r by done. cbn [replay_blocks]. rewrite Hg.
  by rewrite wrap64_small by (unfold is_u64; lia).
Qed.

(** ** On a concrete ledger *)

#[local] Existing Instance toy_crypto.
#[local] Existing Instance toy_json.
#[local] Existing Instance toy_solana.
#[local] Existing Instance toy_codec.
#[local] Existing Instance toy_svm.
#[local] Existing Instance toy_block_encoding.
#[local] Existing Instance toy_rocks.

Definition toy_effects : Effects := n_effects toy_node.
Definition toy_first_sent : IndexedTransaction := MkIndexed 14 0 (toy_arriving x51).

(** An SVM that could not load the transaction. *)
Definition toy_load_failure : Answers := {|
  an_compute_budget := Ok tt; an_output := Err (OtherTransactionError 7); an_balances := None; an_insert_batch := Ok tt;
  an_tasks := []; an_serialized := None; an_loaded_addresses := tt |}.

Definition toy_executor : TransactionExecutor := TransactionExecutor_new 12 (fill 32 x02) LatestBlockInner_default.

Definition toy_after (answers : Answers) (txn : IndexedTransaction) (persist : option bool) : Effects :=
  match Executor.execute toy_executor answers txn persist toy_effects with Ok fx => fx | _ => toy_effects end.

Lemma execution_recorded_witness :
  exists e r, records toy_answers toy_first_sent e /\
    run_op (OpTransaction e) toy_fresh_ledger = (r, fx_ledger (toy_after toy_answers toy_first_sent None)) /\
    fx_replies (toy_after toy_answers toy_first_sent None) = [meta_status (tx_status e)].
Proof.
  destruct (execution_recorded toy_executor toy_answers toy_first_sent None toy_effects (toy_after toy_answers toy_first_sent None)
    (toy_wire_by x51) eq_refl eq_refl ltac:(discriminate)) as (e & r & Hr & Hrun & Hrep & _).
  exists e, r. split; [exact Hr|]. split; [exact Hrun|exact Hrep].
Defined.

Lemma commits_bounded_witness :
  exists batch, fx_batches (toy_after toy_answers toy_first_sent None) = [batch] /\
    (success_batch toy_answers batch \/ fee_payer_batch toy_first_sent batch).
Proof.
  destruct (commits_bounded toy_executor toy_answers toy_first_sent None toy_effects (toy_after toy_answers toy_first_sent None) eq_refl)
    as [H|(batch & H & Hb)].
  - discriminate H.
  - exists batch. split; [exact H|exact Hb].
Defined.

Definition toy_replayed : IndexedTransaction :=
  MkIndexed 14 0 (processable (toy_sanitized x53) (Replay (MkReplay 14 0 false)) (Some (toy_wire_by x53))).

Lemma failed_replay_leaves_record_witness :
  exists meta, meta_status meta = Err (OtherTransactionError 7) /\
    position (l_db (fx_ledger (toy_after toy_load_failure toy_replayed (Some false)))) 14 0 = Some (fill 64 x53) /\
    fx_status_updates (toy_after toy_load_failure toy_replayed (Some false)) = [status_of toy_replayed meta].
Proof.
  destruct (failed_replay_leaves_record toy_executor toy_load_failure toy_replayed (MkReplay 14 0 false) toy_effects
    (toy_after toy_load_failure toy_replayed (Some false)) (toy_wire_by x53) eq_refl eq_refl eq_refl) as [_ H].
  destruct (H (OtherTransactionError 7) (or_introl eq_refl) eq_refl) as (meta & Hm & Hp & _ & _ & Hs).
  exists meta. split; [exact Hm|]. split; [exact Hp|exact Hs].
Defined.

(** *** A written slot *)

Definition toy_entry (signature : byte) (index : Z) : Entry :=
  {| tx_signature := fill 64 signature; tx_slot := 14; tx_index := index; tx_writable := [toy_x]; tx_readonly := [];
     tx_encoded := toy_wire_by signature; tx_status := Ok tt |}.
Definition toy_ops : list LedgerOp :=
  [OpBlock (LatestBlock_new 13 (fill 32 x03) 1700); OpTransaction (toy_entry x52 1); OpBlock toy_two_block;
   OpTick 1000 (MkToken false (fun _ => false)); OpTransaction (toy_entry x51 0); OpCompact SlotSignatures None None].
Definition toy_written : Ledger := (run_ops toy_ops toy_fresh_ledger).2.

Lemma toy_slot_written :
  slot_written 14 toy_ops toy_fresh_ledger (replicate 6 (Ok tt)) toy_written [toy_entry x51 0; toy_entry x52 1] toy_two_block.
Proof.
  split.
  - assert ((run_ops toy_ops toy_fresh_ledger).1 = replicate 6 (Ok tt)) as Er by (vm_compute; reflexivity).
    unfold toy_written. rewrite <-Er. apply surjective_pairing.
  - repeat constructor; eval_done.
  - eval_done.
  - repeat apply List.Forall2_cons; done.
  - apply (reverse_Permutation [toy_entry x51 0; toy_entry x52 1]).
  - repeat constructor; cbn; lia.
  - eval_done.
  - reflexivity.
  - reflexivity.
  - assert (forall k, holds (l_db toy_fresh_ledger) SlotSignatures k = None) as Hn by (intros k; apply lookup_empty).
    split; intros k v Hv; by rewrite Hn in Hv.
  - split; [eval_done|cbn; lia].
  - vm_compute. reflexivity.
  - intros i _. apply lookup_empty.
Qed.

Lemma toy_written_previous : hash_at (l_db toy_written) 13 (fill 32 x03).
Proof. split; [reflexivity|left; vm_compute; reflexivity]. Qed.

Lemma written_block_reads_back_witness :
  get_transaction_signatures_for_slot toy_written 14 = Ok [fill 64 x51; fill 64 x52].
Proof.
  exact (proj1 (written_block_reads_back 14 toy_ops toy_fresh_ledger (replicate 6 (Ok tt)) toy_written
    [toy_entry x51 0; toy_entry x52 1] toy_two_block (fill 32 x03) toy_slot_written
    ltac:(repeat (apply List.Forall_cons || apply List.Forall_nil); eexists; vm_compute; reflexivity) (toy_readable _) (toy_iterable _)
    ltac:(left; vm_compute; reflexivity) toy_written_previous)).
Defined.

Definition toy_receipted : Ledger := (run_op (OpReceipt 0 (Some (fill 64 x51)) x01 [x07]) toy_fresh_ledger).2.

Lemma receipts_survive_upkeep_witness :
  get_receipt (l_db (run_ops toy_ops toy_receipted).2) (Some (Some (fill 64 x51))) = Ok (Some (ReceiptEntry_new 0 x01 [x07])).
Proof.
  rewrite (proj2 (receipts_survive_upkeep toy_ops toy_receipted (run_ops toy_ops toy_receipted).1 (run_ops toy_ops toy_receipted).2
    (surjective_pairing _) ltac:(split; eval_done) ltac:(repeat constructor)
    (toy_readable _) (toy_readable _) (toy_iterable _) (toy_iterable _))).
  vm_compute. reflexivity.
Defined.

(** *** A replay *)

Definition toy_all (_ : ReplayRequest) : bool := true.

Definition toy_read_block (slot : Z) : VersionedConfirmedBlock :=
  match get_block toy_written slot with
  | Ok (Some b) => b
  | _ => MkConfirmedBlock _ _ EmptyString EmptyString 0 [] None None
  end.

Definition toy_replay_blocks : list (VersionedConfirmedBlock * LatestBlock * list SanitizedTransaction) :=
  [(toy_read_block 13, LatestBlock_new 13 (fill 32 x03) 1700, []);
   (toy_read_block 14, toy_two_block, [toy_sanitized x51; toy_sanitized x52])].

Lemma toy_reads slot : match get_block toy_written slot with Ok (Some _) => true | _ => false end = true ->
  get_block toy_written slot = Ok (Some (toy_read_block slot)).
Proof. unfold toy_read_block. by destruct (get_block toy_written slot) as [[]| |]. Qed.

Lemma toy_replayable_13 : replayable 13 13 (toy_read_block 13) (LatestBlock_new 13 (fill 32 x03) 1700) [].
Proof. split; [vm_compute; reflexivity..|]. apply List.Forall2_nil. Qed.

Lemma toy_replayable_14 : replayable 13 14 (toy_read_block 14) toy_two_block [toy_sanitized x51; toy_sanitized x52].
Proof.
  split; [vm_compute; reflexivity..|].
  assert (reverse (successful_transactions 13 14 (toy_read_block 14)) = [toy_wire_by x51; toy_wire_by x52]) as ->
    by (vm_compute; reflexivity).
  repeat apply List.Forall2_cons; try apply List.Forall2_nil; (split; [by eexists|vm_compute; reflexivity]).
Qed.

Lemma toy_replayable i b latest txns : toy_replay_blocks !! i = Some (b, latest, txns) ->
  get_block toy_written (13 + Z.of_nat i) = Ok (Some b) /\ replayable 13 (13 + Z.of_nat i) b latest txns /\
  Forall (fun r => toy_all r = true) (requests_of (13 + Z.of_nat i) txns).
Proof.
  assert (get_block toy_written 13 = Ok (Some (toy_read_block 13))) as H13 by (apply toy_reads; vm_compute; reflexivity).
  assert (get_block toy_written 14 = Ok (Some (toy_read_block 14))) as H14 by (apply toy_reads; vm_compute; reflexivity).
  pose proof toy_replayable_13 as R13. pose proof toy_replayable_14 as R14.
  unfold toy_replay_blocks. revert H13 H14 R13 R14. generalize (toy_read_block 13) (toy_read_block 14). intros b13 b14 H13 H14 R13 R14.
  assert (forall slot l, Forall (fun r => toy_all r = true) (requests_of slot l)) as Hall
    by (intros slot l; apply Forall_forall; by intros).
  destruct i as [|[|i]]; [intros [= <- <- <-]; exact (conj H13 (conj R13 (Hall _ _)))|
    intros [= <- <- <-]; exact (conj H14 (conj R14 (Hall _ _)))|done].
Qed.

Lemma toy_ends : get_block toy_written 15 = Ok None.
Proof.
  assert (match get_block toy_written 15 with Ok None => true | _ => false end = true) as H by (vm_compute; reflexivity).
  by destruct (get_block toy_written 15) as [[]| |].
Qed.

Lemma replay_runs_blocks_witness :
  (process_ledger toy_all 3 toy_written 13 0 true).1 = Ok 16 /\
  (process_ledger toy_all 3 toy_written 13 0 true).2.2 =
    [MkReplayRequest (MkReplay 14 0 false) (toy_sanitized x51); MkReplayRequest (MkReplay 14 0 false) (toy_sanitized x52)].
Proof.
  rewrite (replay_runs_blocks toy_all toy_written 13 0 13 13 toy_replay_blocks 3
    ltac:(vm_compute; reflexivity) eq_refl toy_replayable toy_ends
    ltac:(split; [done|vm_compute; reflexivity]) ltac:(cbn; lia)).
  split; reflexivity.
Defined.

Definition toy_reopened : Ledger :=
  match Ledger_open (l_db toy_written) with Ok ledger => ledger | _ => toy_written end.

Lemma toy_reopens : Ledger_open (l_db toy_written) = Ok toy_reopened.
Proof.
  assert (is_ok (Ledger_open (l_db toy_written)) = true) as H by (vm_compute; reflexivity).
  unfold toy_reopened. by destruct (Ledger_open (l_db toy_written)).
Qed.

Lemma pruned_ledger_not_replayed_witness :
  get_block toy_reopened 13 = Err SlotCleanedUp /\
  process_ledger toy_all 3 toy_reopened 13 150 true = (Ok 14, (toy_reopened, [])).
Proof.
  exact (pruned_ledger_not_replayed toy_all (l_db toy_written) toy_reopened 13 150 13 1700 (fill 32 x03) 2
    toy_reopens (toy_readable _) ltac:(vm_compute; reflexivity) ltac:(lia) ltac:(vm_compute; reflexivity)
    ltac:(vm_compute; reflexivity) ltac:(reflexivity) ltac:(vm_compute; reflexivity) ltac:(vm_compute; discriminate)).
Defined.
