(* ===== verification/Chunks.v ===== *)
(** * Delivering data in chunks: magicblock-committor-program/src/state

    A buffer on the base chain is filled by many small writes.  [Chunks] is the bitfield that tracks
    which of them were delivered (chunks.rs), [ChangesetChunks] cuts the data into the writes
    (changeset_chunks.rs), and [chunk_realloc_ixs] packs the instructions that grow the buffer into
    transactions (instruction_chunks.rs). *)
From S2P Require Import Prelude.

(** ** consts.rs and the sizes of instruction.rs *)

Definition MAX_ACCOUNT_ALLOC_PER_INSTRUCTION_SIZE : Z := 10240.
Definition MAX_INSTRUCTION_LENGTH : nat := 11.
Definition MAX_INSTRUCTION_DATA_SIZE : Z := 1028.

Definition IX_INIT_SIZE : Z := 32 + 8 + 8 + 8 + 1 + 1 + 8 + 2 + 6.
Definition IX_REALLOC_SIZE : Z := 32 + 8 + 8 + 1 + 2 + 6.

(** [uN::div_ceil], which panics on zero. *)
Definition div_ceil {E} (a b : Z) : result E Z :=
  if decide (b = 0) then Panic
  else Ok (if 0 <? a mod b then a / b + 1 else a / b).

(** [%], which panics on zero. *)
Definition checked_rem {E} (a b : Z) : result E Z := if decide (b = 0) then Panic else Ok (a mod b).

(** ** chunks.rs *)

Definition BITS_PER_BYTE : Z := 8.

Record Chunks : Type := MkChunks { ch_bits : bytes; ch_count : Z; ch_chunk_size : Z }.

#[global] Instance Chunks_eq_dec : EqDecision Chunks.
Proof. solve_decision. Defined.

Inductive ChunksError : Type :=
| OutOfBoundsError
| InvalidOffsetError (offset chunk_size : Z).

Definition count_to_bitfield_bytes (count : Z) : may_panic Z := div_ceil count BITS_PER_BYTE.

Definition struct_size (count : Z) : may_panic Z :=
  bits ← count_to_bitfield_bytes count; Ok (bits + 8 + 2).

Definition Chunks_new (chunk_count chunk_size : Z) : may_panic Chunks :=
  size ← struct_size chunk_count;
  if size <? MAX_ACCOUNT_ALLOC_PER_INSTRUCTION_SIZE then
    bits ← count_to_bitfield_bytes chunk_count;
    Ok {| ch_bits := zeros (Z.to_nat bits); ch_count := chunk_count; ch_chunk_size := chunk_size |}
  else Panic.

Definition Chunks_from_data_length (data_len chunk_size : Z) : may_panic Chunks :=
  chunk_count ← div_ceil data_len chunk_size;
  Chunks_new chunk_count chunk_size.

Definition is_chunk_delivered (self : Chunks) (idx : Z) : may_panic (option bool) :=
  if ch_count self <=? idx then Ok None
  else
    let vec_idx := idx / BITS_PER_BYTE in
    let bit_idx := idx mod BITS_PER_BYTE in
    bits ← index_at (ch_bits self) (Z.to_nat vec_idx);
    Ok (Some (negb (Z.land (byte_val bits) (Z.shiftl 1 bit_idx) =? 0))).

Definition set_chunk_delivered (self : Chunks) (idx : Z) : result ChunksError Chunks :=
  if idx <? ch_count self then
    let vec_idx := Z.to_nat (idx / BITS_PER_BYTE) in
    let bit_idx := idx mod BITS_PER_BYTE in
    bits ← index_at (ch_bits self) vec_idx;
    Ok {| ch_bits := <[vec_idx := byte_of (Z.lor (byte_val bits) (Z.shiftl 1 bit_idx))]> (ch_bits self);
          ch_count := ch_count self; ch_chunk_size := ch_chunk_size self |}
  else Err OutOfBoundsError.

Definition set_offset_delivered (self : Chunks) (offset : Z) : result ChunksError Chunks :=
  rem ← checked_rem offset (ch_chunk_size self);
  if decide (rem <> 0) then Err (InvalidOffsetError offset (ch_chunk_size self))
  else set_chunk_delivered self (offset / ch_chunk_size self).

Definition is_offset_delivered (self : Chunks) (offset : Z) : result ChunksError bool :=
  rem ← checked_rem offset (ch_chunk_size self);
  if decide (rem <> 0) then Err (InvalidOffsetError offset (ch_chunk_size self))
  else
    delivered ← rethrow (is_chunk_delivered self (offset / ch_chunk_size self));
    ok_or delivered OutOfBoundsError.

(** [0..n]. *)
Definition range (n : Z) : list Z := seqZ 0 n.

(** The [HashSet] of a filtered range, as the list of its elements. *)
Fixpoint missing_among (self : Chunks) (indexes : list Z) : may_panic (list Z) :=
  match indexes with
  | [] => Ok []
  | idx :: indexes =>
      delivered ← is_chunk_delivered self idx;
      delivered ← expect delivered;
      rest ← missing_among self indexes;
      Ok (if delivered : bool then rest else idx :: rest)
  end.

Definition get_missing_chunks (self : Chunks) : may_panic (list Z) := missing_among self (range (ch_count self)).

Definition is_complete (self : Chunks) : may_panic bool :=
  missing ← get_missing_chunks self; Ok (bool_decide (missing = [])).

(** [impl From<(Vec<bool>, u16)> for Chunks]. *)
Fixpoint set_each (this : Chunks) (i : Z) (vec : list bool) : may_panic Chunks :=
  match vec with
  | [] => Ok this
  | d :: vec =>
      this ← (if d : bool then match set_chunk_delivered this i with Ok this => Ok this | _ => Panic end else Ok this);
      set_each this (i + 1) vec
  end.

Definition Chunks_from (vec : list bool) (chunk_size : Z) : may_panic Chunks :=
  this ← Chunks_new (Z.of_nat (length vec)) chunk_size;
  set_each this 0 vec.

(** ** changeset_chunks.rs *)

Record ChangesetChunk : Type := MkChangesetChunk { cc_offset : Z; cc_data_chunk : bytes; cc_chunk_size : Z }.

Definition ChangesetChunk_from (data : bytes) (offset chunk_size : Z) : may_panic ChangesetChunk :=
  let end_ := Z.min (wrap32 (offset + chunk_size)) (Z.of_nat (length data)) in
  data_chunk ← index_range data (Z.to_nat offset) (Z.to_nat end_);
  Ok {| cc_offset := offset; cc_data_chunk := data_chunk; cc_chunk_size := chunk_size |}.

Definition chunk_idx (self : ChangesetChunk) : may_panic Z :=
  if decide (cc_chunk_size self = 0) then Panic else Ok (cc_offset self / cc_chunk_size self).

Record ChangesetChunks : Type := MkChangesetChunks { cs_chunk_size : Z; cs_chunks : Chunks }.

Definition assert_sizes (self : ChangesetChunks) (data : bytes) : may_panic unit :=
  let chunks_len := wrap64 (ch_count (cs_chunks self) * cs_chunk_size self) in
  let len := Z.of_nat (length data) in
  if (len <=? chunks_len) && (chunks_len <? len + cs_chunk_size self) then Ok tt else Panic.

Record ChangesetChunksIter : Type := MkChunksIter {
  it_data : bytes;
  it_chunk_size : Z;
  it_chunk_count : Z;
  it_filter : option (list Z);
  it_idx : Z;
}.

Definition with_idx (self : ChangesetChunksIter) (idx : Z) : ChangesetChunksIter :=
  {| it_data := it_data self; it_chunk_size := it_chunk_size self; it_chunk_count := it_chunk_count self;
     it_filter := it_filter self; it_idx := idx |}.

(** The loop that skips what the filter has not, for at most [turns] turns. *)
Fixpoint skip_filtered (turns : nat) (filter : list Z) (chunk_count idx : Z) : Z :=
  match turns with
  | O => idx
  | S turns =>
      if idx <? chunk_count then
        if decide (idx ∈ filter) then idx else skip_filtered turns filter chunk_count (idx + 1)
      else idx
  end.

(** [Iterator::next]; the loop turns at most once per chunk left. *)
Definition chunks_next (self : ChangesetChunksIter) : may_panic (option ChangesetChunk * ChangesetChunksIter) :=
  let idx :=
    match it_filter self with
    | Some filter => skip_filtered (Z.to_nat (it_chunk_count self - it_idx self)) filter (it_chunk_count self) (it_idx self)
    | None => it_idx self
    end in
  if it_chunk_count self <=? idx then Ok (None, with_idx self idx)
  else
    let offset := wrap64 (idx * it_chunk_size self) in
    if offset <? Z.of_nat (length (it_data self)) then
      chunk ← ChangesetChunk_from (it_data self) (wrap32 offset) (it_chunk_size self);
      Ok (Some chunk, with_idx self (idx + 1))
    else Panic.

(** [Iterator::collect], for at most [fuel] items. *)
Fixpoint chunks_collect (fuel : nat) (self : ChangesetChunksIter) : may_panic (list ChangesetChunk) :=
  match fuel with
  | O => Ok []
  | S fuel =>
      '(item, self) ← chunks_next self;
      match item with
      | None => Ok []
      | Some chunk => rest ← chunks_collect fuel self; Ok (chunk :: rest)
      end
  end.

Definition ChangesetChunks_iter (self : ChangesetChunks) (data : bytes) : may_panic ChangesetChunksIter :=
  _ ← assert_sizes self data;
  Ok (MkChunksIter data (cs_chunk_size self) (ch_count (cs_chunks self)) None 0).

Definition ChangesetChunks_iter_missing (self : ChangesetChunks) (data : bytes) : may_panic ChangesetChunksIter :=
  _ ← assert_sizes self data;
  missing ← get_missing_chunks (cs_chunks self);
  Ok (MkChunksIter data (cs_chunk_size self) (ch_count (cs_chunks self)) (Some missing) 0).

(** ** instruction_chunks.rs *)

(** [Vec::pop]. *)
Definition pop {T} (l : list T) : option (T * list T) :=
  match reverse l with
  | [] => None
  | x :: l => Some (x, reverse l)
  end.

(** [add_reallocs]: the chunk and what is left of the reallocs; at most one turn for each of them. *)
Fixpoint add_reallocs {T} (turns : nat) (chunk reallocs : list T) (total_size : Z) : list T * list T :=
  match turns with
  | O => (chunk, reallocs)
  | S turns =>
      if (total_size + IX_REALLOC_SIZE <? MAX_INSTRUCTION_DATA_SIZE) && bool_decide (length chunk < MAX_INSTRUCTION_LENGTH)%nat then
        match pop reallocs with
        | Some (realloc, reallocs) => add_reallocs turns (chunk ++ [realloc]) reallocs (total_size + IX_REALLOC_SIZE)
        | None => (chunk, reallocs)
        end
      else (chunk, reallocs)
  end.

(** [while let Some(realloc) = reallocs.pop() { .. }]. *)
Fixpoint realloc_chunks {T} (turns : nat) (reallocs : list T) (chunks : list (list T)) : list (list T) :=
  match turns with
  | O => chunks
  | S turns =>
      match pop reallocs with
      | Some (realloc, reallocs) =>
          let '(chunk, reallocs) := add_reallocs (length reallocs) [realloc] reallocs IX_REALLOC_SIZE in
          realloc_chunks turns reallocs (chunks ++ [chunk])
      | None => chunks
      end
  end.

Definition chunk_realloc_ixs {T} (reallocs : list T) (init_ix : option T) : list (list T) :=
  let turns := length reallocs in
  let reallocs := reverse reallocs in
  match init_ix with
  | Some init_ix =>
      let '(chunk, reallocs) := add_reallocs (length reallocs) [init_ix] reallocs IX_INIT_SIZE in
      realloc_chunks turns reallocs [chunk]
  | None => realloc_chunks turns reallocs []
  end.

(** ** The bitfield *)

Lemma filter_same {A : Type} (P Q : A -> Prop) `{!forall x, Decision (P x), !forall x, Decision (Q x)} (l : list A) :
  (forall x, x ∈ l -> P x <-> Q x) -> filter P l = filter Q l.
Proof.
  induction l as [|x l IH]; intros Hpq; [done|]. pose proof (Hpq x (list_elem_of_here x l)) as Hx.
  assert (filter P l = filter Q l) as Hl by (apply IH; intros y Hy; apply Hpq; by right).
  destruct (decide (P x)); [rewrite !filter_cons_True by tauto|rewrite !filter_cons_False by tauto]; by rewrite Hl.
Qed.

Lemma div_ceil_run {E} a b : 0 <= a -> 0 < b -> exists n, @div_ceil E a b = Ok n /\ 0 <= n /\ (n - 1) * b < a <= n * b.
Proof.
  intros Ha Hb. unfold div_ceil. rewrite decide_False by lia. eexists. split; [done|].
  pose proof (Z.div_mod a b ltac:(lia)) as Hd. pose proof (Z.mod_pos_bound a b Hb) as Hm.
  destruct (Z.ltb_spec 0 (a mod b)); split; nia.
Qed.

(** The bytes of the bitfield are as many as the chunks need. *)
Definition chunks_wf (self : Chunks) : Prop :=
  0 <= ch_count self /\ ch_count self <= 8 * Z.of_nat (length (ch_bits self)).

(** Whether a bit is set. *)
Definition delivered (self : Chunks) (idx : Z) : bool :=
  Z.testbit (byte_val (default x00 (ch_bits self !! Z.to_nat (idx / 8)))) (idx mod 8).

Lemma land_bit x n : 0 <= n -> negb (Z.land x (Z.shiftl 1 n) =? 0) = Z.testbit x n.
Proof.
  intros Hn. rewrite Z.shiftl_1_l. destruct (Z.testbit x n) eqn:Hb.
  - apply negb_true_iff, Z.eqb_neq. intros H0. apply (f_equal (fun y => Z.testbit y n)) in H0.
    rewrite Z.land_spec, Hb, Z.pow2_bits_true, Z.bits_0 in H0 by done. done.
  - apply negb_false_iff, Z.eqb_eq. apply Z.bits_inj'. intros m Hm.
    rewrite Z.land_spec, Z.bits_0. destruct (decide (m = n)) as [->|Hne]; [by rewrite Hb|].
    by rewrite Z.pow2_bits_false, andb_false_r by lia.
Qed.

Lemma lor_bit b n m : 0 <= n < 8 -> 0 <= m < 8 ->
  Z.testbit (byte_val (byte_of (Z.lor (byte_val b) (Z.shiftl 1 n)))) m = Z.testbit (byte_val b) m || (n =? m).
Proof.
  intros Hn Hm. rewrite byte_val_of, (Z.mod_pow2_bits_low _ 8 m) by lia.
  rewrite Z.lor_spec, Z.shiftl_1_l. f_equal. by rewrite Z.pow2_bits_eqb by lia.
Qed.

Section bits.
Implicit Types (self : Chunks) (idx : Z).

Lemma bits_index self idx : chunks_wf self -> 0 <= idx < ch_count self ->
  exists b, ch_bits self !! Z.to_nat (idx / 8) = Some b.
Proof.
  intros [H0 Hc] Hi. apply lookup_lt_is_Some_2. pose proof (Z.div_mod idx 8). pose proof (Z.mod_pos_bound idx 8).
  pose proof (Z.div_pos idx 8). lia.
Qed.

Lemma is_chunk_delivered_run self idx : chunks_wf self -> 0 <= idx < ch_count self ->
  is_chunk_delivered self idx = Ok (Some (delivered self idx)).
Proof.
  intros Hwf Hi. destruct (bits_index self idx Hwf Hi) as [b Hb]. unfold is_chunk_delivered, delivered, index_at, BITS_PER_BYTE.
  rewrite (proj2 (Z.leb_gt _ _)) by lia. rewrite Hb. cbn. by rewrite land_bit by (apply Z.mod_pos_bound; lia).
Qed.

(** Setting a bit sets that bit and no other. *)
Lemma set_chunk_delivered_run self idx : chunks_wf self -> 0 <= idx < ch_count self ->
  exists self', set_chunk_delivered self idx = Ok self' /\ chunks_wf self' /\ ch_count self' = ch_count self /\
    ch_chunk_size self' = ch_chunk_size self /\ length (ch_bits self') = length (ch_bits self) /\
    forall j, 0 <= j -> delivered self' j = delivered self j || (idx =? j).
Proof.
  intros Hwf Hi. destruct (bits_index self idx Hwf Hi) as [b Hb]. unfold set_chunk_delivered, index_at, BITS_PER_BYTE.
  rewrite (proj2 (Z.ltb_lt _ _)) by lia. rewrite Hb. cbn. eexists. split; [done|]. unfold chunks_wf. cbn.
  rewrite length_insert. split_and!; try done; [apply Hwf..|]. intros j Hj. unfold delivered. cbn.
  pose proof (Z.mod_pos_bound idx 8 ltac:(lia)). pose proof (Z.mod_pos_bound j 8 ltac:(lia)).
  pose proof (Z.div_mod idx 8 ltac:(lia)). pose proof (Z.div_mod j 8 ltac:(lia)).
  pose proof (Z.div_pos idx 8 ltac:(lia) ltac:(lia)). pose proof (Z.div_pos j 8 ltac:(lia) ltac:(lia)).
  destruct (decide (idx / 8 = j / 8)) as [He|He].
  - rewrite <-He, list_lookup_insert_eq by (by eapply lookup_lt_Some). cbn. rewrite lor_bit by done. rewrite Hb. cbn.
    f_equal. apply eq_bool_prop_intro. rewrite !Is_true_true, !Z.eqb_eq. lia.
  - rewrite list_lookup_insert_ne by lia. rewrite (proj2 (Z.eqb_neq idx j)) by congruence. by rewrite orb_false_r.
Qed.

Lemma set_offset_delivered_run self idx : chunks_wf self -> 0 < ch_chunk_size self -> 0 <= idx < ch_count self ->
  exists self', set_offset_delivered self (idx * ch_chunk_size self) = Ok self' /\ chunks_wf self' /\
    ch_count self' = ch_count self /\ ch_chunk_size self' = ch_chunk_size self /\
    length (ch_bits self') = length (ch_bits self) /\ forall j, 0 <= j -> delivered self' j = delivered self j || (idx =? j).
Proof.
  intros Hwf Hc Hi. unfold set_offset_delivered, checked_rem. rewrite decide_False by lia. cbn.
  rewrite Z.mod_mul, decide_False, Z.div_mul by lia. by apply set_chunk_delivered_run.
Qed.

Lemma missing_among_run self indexes : chunks_wf self -> Forall (fun i => 0 <= i < ch_count self) indexes ->
  missing_among self indexes = Ok (filter (fun i => delivered self i = false) indexes).
Proof.
  intros Hwf. induction 1 as [|i indexes Hi _ IH]; [done|]. cbn [missing_among].
  rewrite is_chunk_delivered_run by done. cbn [mbind result_bind expect]. rewrite IH. cbn [mbind result_bind].
  destruct (delivered self i) eqn:Hd; [by rewrite filter_cons_False by congruence|by rewrite filter_cons_True].
Qed.

Lemma elem_of_range n i : i ∈ range n <-> 0 <= i < n.
Proof. unfold range. rewrite elem_of_seqZ. lia. Qed.

(** The missing chunks are the indexes whose bit is not set. *)
Lemma get_missing_run self : chunks_wf self ->
  get_missing_chunks self = Ok (filter (fun i => delivered self i = false) (range (ch_count self))).
Proof. intros Hwf. apply missing_among_run; [done|]. apply Forall_forall. intros i Hi. by apply elem_of_range. Qed.

Lemma is_complete_run self : chunks_wf self ->
  is_complete self = Ok (forallb (delivered self) (range (ch_count self))).
Proof.
  intros Hwf. unfold is_complete. rewrite get_missing_run by done. cbn [mbind result_bind]. f_equal.
  induction (range (ch_count self)) as [|i l IH]; [done|]. cbn [forallb].
  destruct (delivered self i) eqn:Hd; [by rewrite filter_cons_False by congruence|by rewrite filter_cons_True].
Qed.

Lemma Chunks_new_run count chunk_size : 0 <= count <= 8 * 10229 ->
  exists self, Chunks_new count chunk_size = Ok self /\ chunks_wf self /\ ch_count self = count /\
    ch_chunk_size self = chunk_size /\ 8 * Z.of_nat (length (ch_bits self)) < count + 8 /\
    forall j, delivered self j = false.
Proof.
  intros Hc. unfold Chunks_new, struct_size, count_to_bitfield_bytes.
  destruct (@div_ceil_run Empty_set count BITS_PER_BYTE ltac:(lia) eq_refl) as (n & Hn & Hn0 & Hb). unfold BITS_PER_BYTE in Hb.
  rewrite Hn. cbn. unfold MAX_ACCOUNT_ALLOC_PER_INSTRUCTION_SIZE. rewrite (proj2 (Z.ltb_lt _ _)) by lia.
  eexists. split; [done|]. unfold chunks_wf, zeros, fill. cbn. rewrite length_replicate. split_and!; try done; try lia.
  intros j. unfold delivered. cbn.
  destruct (replicate (Z.to_nat n) x00 !! Z.to_nat (j / 8)) as [b|] eqn:Hl; cbn; [|apply Z.testbit_0_l].
  apply lookup_replicate in Hl as [-> _]. apply Z.testbit_0_l.
Qed.
End bits.

(** ** Cutting the data *)

(** [n] chunks of [c] bytes cover the data, with offsets that fit a [u32]. *)
Record covers (data : bytes) (c n : Z) : Prop := {
  cv_size : 0 < c < 2 ^ 16;
  cv_count : 0 <= n;
  cv_length : (n - 1) * c < Z.of_nat (length data) <= n * c;
  cv_offsets : n * c < 2 ^ 32;
}.

(** The chunk of an index. *)
Definition chunk_of (data : bytes) (c i : Z) : ChangesetChunk :=
  {| cc_offset := i * c;
     cc_data_chunk := slice data (Z.to_nat (i * c)) (Z.to_nat (Z.min (i * c + c) (Z.of_nat (length data))));
     cc_chunk_size := c |}.

Section cutting.
Context (data : bytes) (c n : Z) (Hcov : covers data c n).

Lemma chunk_bounds i : 0 <= i < n ->
  0 <= i * c < Z.of_nat (length data) /\ i * c + c <= n * c.
Proof. destruct Hcov as [Hc Hn Hl Ho]. nia. Qed.

Lemma ChangesetChunk_from_run i : 0 <= i < n -> ChangesetChunk_from data (i * c) c = Ok (chunk_of data c i).
Proof.
  intros Hi. pose proof (chunk_bounds i Hi) as [H1 H2]. destruct Hcov as [Hc Hn Hl Ho]. unfold ChangesetChunk_from.
  rewrite wrap32_small by (unfold is_u32; lia). unfold index_range. rewrite get_range_in by lia. done.
Qed.

(** What the iterator still yields. *)
Definition wanted (filter : option (list Z)) (i : Z) : Prop :=
  match filter with Some f => i ∈ f | None => True end.

#[local] Instance wanted_dec filter i : Decision (wanted filter i).
Proof. unfold wanted. destruct filter; apply _. Defined.

Lemma wanted_all (l : list Z) : filter (wanted None) l = l.
Proof. induction l as [|i l IH]; [done|]. by rewrite filter_cons_True, IH. Qed.

Lemma skip_filtered_run f turns idx : 0 <= idx <= n -> turns = Z.to_nat (n - idx) ->
  exists j, skip_filtered turns f n idx = j /\ idx <= j <= n /\ (j < n -> j ∈ f) /\
    filter (fun i => i ∈ f) (seqZ idx (n - idx)) = filter (fun i => i ∈ f) (seqZ j (n - j)).
Proof.
  revert idx. induction turns as [|turns IH]; intros idx Hi Ht.
  - exists idx. split_and!; try done; try lia.
  - cbn [skip_filtered]. rewrite (proj2 (Z.ltb_lt _ _)) by lia. case_decide as Hf; [exists idx; split_and!; try done; lia|].
    destruct (IH (idx + 1)) as (j & Hj & Hb & Hw & He); [lia..|]. exists j. split_and!; try done; try lia.
    rewrite <-He, (seqZ_cons idx) by lia. rewrite filter_cons_False by done. by replace (Z.pred (n - idx)) with (n - (idx + 1)) by lia.
Qed.

Lemma chunks_next_run filter_ idx : 0 <= idx <= n ->
  match chunks_next (MkChunksIter data c n filter_ idx) with
  | Ok (Some chunk, self) => exists j, idx <= j < n /\ chunk = chunk_of data c j /\ self = MkChunksIter data c n filter_ (j + 1) /\
      filter (wanted filter_) (seqZ idx (n - idx)) = j :: filter (wanted filter_) (seqZ (j + 1) (n - (j + 1)))
  | Ok (None, _) => filter (wanted filter_) (seqZ idx (n - idx)) = []
  | _ => False
  end.
Proof.
  intros Hi. unfold chunks_next. cbn [it_filter it_chunk_count it_idx it_chunk_size it_data].
  assert (exists j, match filter_ with Some f => skip_filtered (Z.to_nat (n - idx)) f n idx | None => idx end = j /\
    idx <= j <= n /\ (j < n -> wanted filter_ j) /\
    filter (wanted filter_) (seqZ idx (n - idx)) = filter (wanted filter_) (seqZ j (n - j))) as (j & -> & Hj & Hw & ->).
  { destruct filter_ as [f|]; [|exists idx; split_and!; (done || lia)]. by apply (skip_filtered_run f _ idx). }
  destruct (Z.leb_spec n j) as [Hle|Hlt].
  - by replace (seqZ j (n - j)) with (@nil Z) by (symmetry; apply seqZ_nil; lia).
  - pose proof (chunk_bounds j ltac:(lia)) as [H1 H2]. destruct Hcov as [Hc Hn Hl Ho].
    rewrite wrap64_small by (unfold is_u64; lia). rewrite (proj2 (Z.ltb_lt _ _)) by lia.
    rewrite wrap32_small by (unfold is_u32; lia). rewrite ChangesetChunk_from_run by lia. cbn [mbind result_bind].
    exists j. split_and!; try done; try lia. rewrite (seqZ_cons j) by lia. rewrite filter_cons_True by auto.
    by replace (Z.pred (n - j)) with (n - (j + 1)) by lia.
Qed.

Lemma chunks_collect_run filter_ fuel idx : 0 <= idx <= n -> (Z.to_nat (n - idx) < fuel)%nat ->
  chunks_collect fuel (MkChunksIter data c n filter_ idx) =
  Ok (chunk_of data c <$> filter (wanted filter_) (seqZ idx (n - idx))).
Proof.
  revert idx. induction fuel as [|fuel IH]; intros idx Hi Hf; [lia|]. cbn [chunks_collect].
  pose proof (chunks_next_run filter_ idx Hi) as Hn.
  destruct (chunks_next _) as [[[chunk|] self]|[]|]; [|cbn; by rewrite Hn|done].
  destruct Hn as (j & Hj & -> & -> & ->). cbn [mbind result_bind]. rewrite IH by lia. done.
Qed.
End cutting.

(** ** Filling a buffer *)

Lemma lookup_copy_range (out src : bytes) (a b p : nat) : (a <= b <= length out)%nat -> length src = (b - a)%nat ->
  copy_range out a b src !! p = if decide (a <= p < b)%nat then src !! (p - a)%nat else out !! p.
Proof.
  intros Hb Hs. unfold copy_range. case_decide as Hp.
  - rewrite lookup_app_r by (rewrite length_take; lia). rewrite length_take, lookup_app_l by lia. f_equal. lia.
  - destruct (decide (p < a)%nat).
    + rewrite lookup_app_l by (rewrite length_take; lia). by apply lookup_take_lt.
    + rewrite lookup_app_r by (rewrite length_take; lia). rewrite length_take, lookup_app_r, lookup_drop by lia. f_equal. lia.
Qed.

Lemma lookup_slice (l : bytes) a b p : slice l a b !! p = if decide (p < b - a)%nat then l !! (a + p)%nat else None.
Proof.
  unfold slice. case_decide as H; [rewrite lookup_take_lt by done; apply lookup_drop|].
  apply lookup_take_ge. lia.
Qed.

(** Where a chunk counts as delivered, the buffer has the data. *)
Record filled (self : Chunks) (buffer data : bytes) (c n : Z) : Prop := {
  fl_wf : chunks_wf self;
  fl_count : ch_count self = n;
  fl_size : ch_chunk_size self = c;
  fl_length : length buffer = length data;
  fl_bytes p : delivered self (Z.of_nat p / c) = true -> buffer !! p = data !! p;
}.

Section filling.
Context (data : bytes) (c n : Z) (Hcov : covers data c n).
Implicit Types (self : Chunks) (buffer : bytes).

(** The bytes at which a chunk is written. *)
Lemma chunk_place i p : 0 <= i < n -> (p < length data)%nat ->
  (Z.to_nat (i * c) <= p < Z.to_nat (Z.min (i * c + c) (Z.of_nat (length data))))%nat <-> Z.of_nat p / c = i.
Proof.
  intros Hi Hp. pose proof (chunk_bounds data c n Hcov i Hi) as [H1 H2]. destruct Hcov as [Hc Hn Hl Ho].
  pose proof (Z.div_mod (Z.of_nat p) c ltac:(lia)) as Hd. pose proof (Z.mod_pos_bound (Z.of_nat p) c ltac:(lia)) as Hm.
  split; [intros [Ha Hb]; nia|intros <-; nia].
Qed.

(** Writing a chunk keeps the buffer filled, with one more chunk delivered. *)
Lemma filled_write self buffer i : filled self buffer data c n -> 0 <= i < n ->
  let chunk := chunk_of data c i in
  let from := Z.to_nat (cc_offset chunk) in
  exists self', set_offset_delivered self (cc_offset chunk) = Ok self' /\
    filled self' (copy_range buffer from (from + length (cc_data_chunk chunk)) (cc_data_chunk chunk)) data c n /\
    length (ch_bits self') = length (ch_bits self) /\
    (from + length (cc_data_chunk chunk) <= length buffer)%nat /\
    forall j, 0 <= j -> delivered self' j = delivered self j || (i =? j).
Proof.
  intros [Hwf Hn Hc Hl Hb] Hi. cbv zeta. pose proof (chunk_bounds data c n Hcov i Hi) as [H1 H2].
  pose proof (cv_size _ _ _ Hcov) as Hcs. pose proof (chunk_place i) as Hplace. unfold chunk_of. cbn [cc_offset cc_data_chunk].
  set (a := Z.to_nat (i * c)) in *. set (b := Z.to_nat (Z.min (i * c + c) (Z.of_nat (length data)))) in *.
  assert (a <= b <= length data)%nat as Hab by (subst a b; lia).
  rewrite length_slice by done. replace (a + (b - a))%nat with b by lia.
  destruct (set_offset_delivered_run self i) as (self' & Hs & Hwf' & Hn' & Hc' & Hlb & Hd); [done|lia|lia|].
  rewrite Hc in Hs. exists self'. split_and!; try done; try lia.
  split; try congruence; [rewrite length_copy_range by (rewrite ?length_slice; lia); lia|]. intros p Hp.
  rewrite lookup_copy_range by (rewrite ?length_slice; lia). rewrite lookup_slice.
  destruct (decide (p < length data)%nat) as [Hin|Hout].
  - specialize (Hplace p Hi Hin). case_decide as Hr.
    + rewrite decide_True by lia. f_equal. lia.
    + apply Hb. rewrite Hd in Hp by (apply Z.div_pos; lia). rewrite (proj2 (Z.eqb_neq _ _)), orb_false_r in Hp; [done|].
      intros He. by apply Hr, Hplace.
  - rewrite decide_False by lia. rewrite !lookup_ge_None_2 by lia. done.
Qed.

(** Once every chunk is delivered the buffer is the data. *)
Lemma filled_complete self buffer : filled self buffer data c n ->
  (forall i, 0 <= i < n -> delivered self i = true) -> buffer = data.
Proof.
  intros [Hwf Hn Hc Hl Hb] Hall. apply list_eq. intros p. destruct (decide (p < length data)%nat) as [Hp|Hp].
  - apply Hb, Hall. destruct Hcov as [H1 H2 H3 H4]. split; [apply Z.div_pos; lia|]. apply Z.div_lt_upper_bound; lia.
  - rewrite !lookup_ge_None_2 by lia. done.
Qed.
End filling.

(** ** Packing instructions *)

Lemma pop_reverse {T} (x : T) l : pop (reverse (x :: l)) = Some (x, reverse l).
Proof. unfold pop. by rewrite reverse_involutive. Qed.
Lemma pop_nil {T} : @pop T (reverse []) = None.
Proof. done. Qed.

(** Eleven instructions always fit a transaction's data. *)
Lemma add_reallocs_run {T} (l chunk : list T) turns total :
  (length l <= turns)%nat -> total <= IX_INIT_SIZE + (Z.of_nat (length chunk) - 1) * IX_REALLOC_SIZE -> chunk <> [] ->
  add_reallocs turns chunk (reverse l) total =
    (chunk ++ take (MAX_INSTRUCTION_LENGTH - length chunk) l, reverse (drop (MAX_INSTRUCTION_LENGTH - length chunk) l)).
Proof.
  unfold IX_INIT_SIZE, IX_REALLOC_SIZE, MAX_INSTRUCTION_LENGTH.
  revert l chunk total. induction turns as [|turns IH]; intros l chunk total Hl Ht Hc.
  - destruct l; [|cbn in Hl; lia]. cbn. by rewrite take_nil, drop_nil, app_nil_r.
  - cbn [add_reallocs]. unfold IX_REALLOC_SIZE, MAX_INSTRUCTION_DATA_SIZE, MAX_INSTRUCTION_LENGTH.
    case_bool_decide as Hlen.
    + rewrite (proj2 (Z.ltb_lt _ _)) by lia. cbn [andb].
      destruct l as [|x l]; [rewrite pop_nil; by rewrite take_nil, drop_nil, app_nil_r|]. rewrite pop_reverse.
      rewrite IH; [|cbn in Hl; lia|rewrite length_app; cbn; lia|by destruct chunk].
      rewrite length_app. cbn [length]. replace (11 - length chunk)%nat with (S (11 - (length chunk + 1)))%nat by lia.
      cbn [take drop]. by rewrite <-app_assoc.
    + rewrite andb_false_r. replace (11 - length chunk)%nat with 0%nat by lia. by rewrite take_0, drop_0, app_nil_r.
Qed.

(** Groups of eleven, the last one shorter. *)
Fixpoint groups {T} (turns : nat) (l : list T) : list (list T) :=
  match turns, l with
  | S turns, _ :: _ => take MAX_INSTRUCTION_LENGTH l :: groups turns (drop MAX_INSTRUCTION_LENGTH l)
  | _, _ => []
  end.

Lemma realloc_chunks_run {T} turns (l : list T) chunks : (length l <= turns)%nat ->
  realloc_chunks turns (reverse l) chunks = chunks ++ groups turns l.
Proof.
  revert l chunks. induction turns as [|turns IH]; intros l chunks Hl; [by rewrite app_nil_r|]. cbn [realloc_chunks groups].
  destruct l as [|x l]; [by rewrite pop_nil, app_nil_r|]. rewrite pop_reverse, length_reverse.
  rewrite add_reallocs_run by done. cbn [length] in *.
  rewrite IH by (rewrite length_drop; cbn; lia). by rewrite <-app_assoc.
Qed.

Lemma groups_spec {T} turns (l : list T) : (length l <= turns)%nat ->
  concat (groups turns l) = l /\
  Forall (fun chunk => chunk <> [] /\ (length chunk <= MAX_INSTRUCTION_LENGTH)%nat) (groups turns l) /\
  Forall (fun chunk => length chunk = MAX_INSTRUCTION_LENGTH) (take (length (groups turns l) - 1) (groups turns l)).
Proof.
  revert l. induction turns as [|turns IH]; intros l Hl; [by destruct l; [|cbn in Hl; lia]|].
  destruct l as [|x l]; [done|]. cbn [groups concat]. set (rest := drop MAX_INSTRUCTION_LENGTH (x :: l)).
  destruct (IH rest) as (IHc & IHf & IHt); [subst rest; rewrite length_drop; cbn in *; lia|].
  split; [|split].
  - rewrite IHc. subst rest. apply take_drop.
  - constructor; [|done]. split; [done|]. apply firstn_le_length.
  - cbn [length]. replace (S (length (groups turns rest)) - 1)%nat with (length (groups turns rest)) by lia.
    destruct (groups turns rest) as [|g gs] eqn:Hg; [constructor|]. cbn [length take]. constructor.
    + rewrite length_take. assert (rest <> []) as Hr by (intros E; rewrite E in Hg; destruct turns; done).
      assert (length rest <> 0)%nat by (by destruct rest). subst rest. rewrite length_drop in *. lia.
    + cbn [length] in IHt. by replace (S (length gs) - 1)%nat with (length gs) in IHt by lia.
Qed.

Lemma chunk_realloc_ixs_run {T : Type} (reallocs : list T) (init : T) :
  chunk_realloc_ixs reallocs (Some init) =
    (init :: take (MAX_INSTRUCTION_LENGTH - 1) reallocs) :: groups (length reallocs) (drop (MAX_INSTRUCTION_LENGTH - 1) reallocs).
Proof.
  unfold chunk_realloc_ixs. rewrite length_reverse, add_reallocs_run by done. cbn [length app].
  rewrite realloc_chunks_run by (rewrite length_drop; lia). done.
Qed.
