(* ===== verification/Committor.v ===== *)
(** * The committor program: magicblock-committor-program

    The program on the base chain that holds the buffers through which large account states are
    committed: its instructions (instruction.rs), addresses (pdas.rs), errors and handlers
    (processor.rs, utils), and the clients' side that builds the instructions
    (instruction_builder).  Borsh is the class [Borsh], [AccountInfo::resize] the class [Resize]. *)
From stdpp Require Import strings.
From S2P Require Import Prelude Constants Crypto Receipt Slashing Accounts Evidence Runtime Processor Solvency Payouts Court Chunks.

(** ** What the program relies on *)

(** [borsh::to_vec] and [BorshDeserialize::try_from_slice] of a type that derives them. *)
Class Borsh (T : Type) : Type := {
  to_vec : T -> bytes;
  try_from_slice : bytes -> option T;
}.

(** [AccountInfo::resize], of an account that had [original] bytes when the instruction began. *)
Class Resize : Type := {
  account_resize (original : nat) (data : bytes) (new_len : nat) : result ProgramError bytes;
}.

(** An account may grow by [MAX_PERMITTED_DATA_INCREASE] in an instruction; what is new is zero. *)
Class ResizeLaws (Rz : Resize) : Prop := {
  resize_within original data new_len : Z.of_nat new_len <= Z.of_nat original + 10240 ->
    account_resize original data new_len = Ok (resize new_len x00 data);
}.

(** [crate::id()]: ComtrB2KEaWgXsW1dhr1xYL4Ht4Bjj3gXnnL6KMdABq *)
Definition committor_id : bytes :=
  [x03; x06; x46; xc6; x98; x3b; xe0; xa3; x0f; xe3; x4d; x00; x71; x65; x85; x13;
   xcd; x78; x80; x86; x94; x50; xf5; x55; x58; x66; xdd; x2b; x99; xb1; x46; x98].

(** ** error.rs *)

Inductive CommittorError : Type :=
| UnableToSerializeChangeSet (message : string)
| PubkeyError
| OffsetMustBeMultipleOfChunkSize (offset chunk_size : Z)
| OffsetChunkOutOfRange (size offset buffer : Z)
| CommittorOutOfBounds.

Definition CommittorError_from (value : ChunksError) : CommittorError :=
  match value with
  | OutOfBoundsError => CommittorOutOfBounds
  | InvalidOffsetError offset chunk_size => OffsetMustBeMultipleOfChunkSize offset chunk_size
  end.

(** [impl From<CommittorError> for ProgramError]; 0x69000 is 430080. *)
Definition CommittorError_into (e : CommittorError) : ProgramError :=
  Custom (match e with
          | UnableToSerializeChangeSet _ => 430080
          | PubkeyError => 430081
          | OffsetMustBeMultipleOfChunkSize _ _ => 430082
          | OffsetChunkOutOfRange _ _ _ => 430083
          | CommittorOutOfBounds => 430084
          end).

(** ** instruction.rs *)

Inductive CommittorInstruction : Type :=
| IxInit (pubkey : bytes) (chunks_account_size buffer_account_size commit_id : Z) (chunks_bump buffer_bump : byte)
    (chunk_count chunk_size : Z)
| IxReallocBuffer (pubkey : bytes) (buffer_account_size commit_id : Z) (buffer_bump : byte) (invocation_count : Z)
| IxWrite (pubkey : bytes) (commit_id : Z) (chunks_bump buffer_bump : byte) (offset : Z) (data_chunk : bytes)
| IxClose (pubkey : bytes) (commit_id : Z) (chunks_bump buffer_bump : byte).

(** The integers of an instruction are of their widths, its address has 32 bytes. *)
Definition ix_fits (ix : CommittorInstruction) : Prop :=
  match ix with
  | IxInit pubkey chunks_size buffer_size commit_id _ _ count chunk_size =>
      length pubkey = 32%nat /\ is_u64 chunks_size /\ is_u64 buffer_size /\ is_u64 commit_id /\ is_u64 count /\
      0 <= chunk_size < 2 ^ 16
  | IxReallocBuffer pubkey buffer_size commit_id _ invocation_count =>
      length pubkey = 32%nat /\ is_u64 buffer_size /\ is_u64 commit_id /\ 0 <= invocation_count < 2 ^ 16
  | IxWrite pubkey commit_id _ _ offset data_chunk =>
      length pubkey = 32%nat /\ is_u64 commit_id /\ is_u32 offset /\ Z.of_nat (length data_chunk) < 2 ^ 32
  | IxClose pubkey commit_id _ _ => length pubkey = 32%nat /\ is_u64 commit_id
  end.

(** Borsh reads back what it wrote; a vector is its length in four bytes and its elements, a [usize]
    has eight bytes. *)
Class BorshLaws (BC : Borsh Chunks) (BI : Borsh CommittorInstruction) : Prop := {
  chunks_roundtrip c : is_u64 (ch_count c) -> 0 <= ch_chunk_size c < 2 ^ 16 -> Z.of_nat (length (ch_bits c)) < 2 ^ 32 ->
    try_from_slice (to_vec c) = Some c;
  chunks_length c : length (to_vec c) = (4 + length (ch_bits c) + 8 + 2)%nat;
  ix_roundtrip ix : ix_fits ix -> try_from_slice (to_vec ix) = Some ix;
}.

(** ** pdas.rs *)

Definition CHUNKS_SEED : bytes := ["c"; "o"; "m"; "i"; "t"; "t"; "o"; "r"; "_"; "c"; "h"; "u"; "n"; "k"; "s"]%byte.
Definition BUFFER_SEED : bytes := ["c"; "o"; "m"; "i"; "t"; "t"; "o"; "r"; "_"; "b"; "u"; "f"; "f"; "e"; "r"]%byte.

(** The functions the macro [seeds!] defines for a prefix. *)
Definition prefix_seeds (prefix validator_auth pubkey commit_id_slice : bytes) : list bytes :=
  [committor_id; prefix; validator_auth; pubkey; commit_id_slice].
Definition prefix_seeds_with_bump (prefix validator_auth pubkey commit_id_slice : bytes) (bump : byte) : list bytes :=
  [committor_id; prefix; validator_auth; pubkey; commit_id_slice; [bump]].

Section committor.
Context `{C : Crypto} `{R : Runtime} `{Rz : Resize} `{BC : !Borsh Chunks} `{BI : !Borsh CommittorInstruction}.

(** The functions the macro [pda!] defines for a prefix. *)
Definition prefix_pda (prefix validator_auth pubkey commit_id_slice : bytes) : may_panic (bytes * byte) :=
  expect (find_program_address (prefix_seeds prefix validator_auth pubkey commit_id_slice) committor_id).
Definition try_prefix_pda_with_bump (prefix validator_auth pubkey commit_id_slice : bytes) (bump : byte)
    : result CommittorError bytes :=
  ok_or (create_program_address (prefix_seeds_with_bump prefix validator_auth pubkey commit_id_slice bump) committor_id) PubkeyError.

(** ** utils *)

Definition assert_keys_equal (provided_key expected_key : bytes) : result ProgramError unit :=
  ensure (bool_decide (provided_key = expected_key)) (Custom 1).

Definition assert_account_unallocated (account : AccountInfo) : prog unit :=
  data ← borrow_data account;
  lift (ensure (bool_decide (length data = 0%nat)) AccountAlreadyInitialized).

Definition assert_is_signer (account : AccountInfo) : result ProgramError unit :=
  ensure (ai_is_signer account) MissingRequiredSignature.

Definition assert_program_id (program_id : bytes) : result ProgramError unit :=
  ensure (bool_decide (program_id = committor_id)) IncorrectProgramId.

(** [verified_seeds_and_pda!] *)
Definition verified_seeds_and_pda (prefix : bytes) (authority_info : AccountInfo) (pubkey : bytes)
    (account_info : AccountInfo) (commit_id_slice : bytes) (bump : byte) : result ProgramError (list bytes) :=
  let seeds := prefix_seeds_with_bump prefix (ai_key authority_info) pubkey commit_id_slice bump in
  pda ← map_err CommittorError_into (try_prefix_pda_with_bump prefix (ai_key authority_info) pubkey commit_id_slice bump);
  _ ← assert_keys_equal (ai_key account_info) pda;
  Ok seeds.

(** [info.data.borrow_mut().copy_from_slice(src)], which panics if the lengths differ. *)
Definition copy_from_slice (info : AccountInfo) (src : bytes) : prog unit := fun L =>
  if decide (length (data_at L (ai_key info)) = length src) then Ok (tt, set_data L (ai_key info) src) else Panic.

Definition resize_account (info : AccountInfo) (original new_len : nat) : prog unit := fun L =>
  data ← account_resize original (data_at L (ai_key info)) new_len;
  Ok (tt, set_data L (ai_key info) data).

Definition close_and_refund_authority (authority account : AccountInfo) (original : nat) : prog unit :=
  _ ← resize_account account original 0;
  authority_lamports ← get_lamports authority;
  account_lamports ← get_lamports account;
  sum ← lift (ok_or (checked_add authority_lamports account_lamports) ArithmeticOverflow);
  _ ← put_lamports authority sum;
  put_lamports account 0.

(** ** processor.rs *)

Definition process_init (program_id : bytes) (accounts : list AccountInfo) (pubkey : bytes)
    (chunks_account_size buffer_account_size commit_id : Z) (chunks_bump buffer_bump : byte)
    (chunk_count chunk_size : Z) : prog unit :=
  match accounts with
  | [authority_info; chunks_account_info; buffer_account_info; system_program] =>
      _ ← lift (assert_is_signer authority_info);
      let commit_id_slice := le_bytes 8 commit_id in
      chunks_seeds ← lift (verified_seeds_and_pda CHUNKS_SEED authority_info pubkey chunks_account_info commit_id_slice chunks_bump);
      buffer_seeds ← lift (verified_seeds_and_pda BUFFER_SEED authority_info pubkey buffer_account_info commit_id_slice buffer_bump);
      _ ← assert_account_unallocated chunks_account_info;
      _ ← assert_account_unallocated buffer_account_info;
      chunks_rent ← rent_minimum (Z.to_nat chunks_account_size);
      _ ← create_account program_id authority_info chunks_account_info system_program chunks_rent
            (Z.to_nat chunks_account_size) chunks_seeds;
      let initial_alloc_size := Z.min buffer_account_size MAX_ACCOUNT_ALLOC_PER_INSTRUCTION_SIZE in
      buffer_rent ← rent_minimum (Z.to_nat buffer_account_size);
      _ ← create_account program_id authority_info buffer_account_info system_program buffer_rent
            (Z.to_nat initial_alloc_size) buffer_seeds;
      chunks ← lift (rethrow (Chunks_new chunk_count chunk_size));
      copy_from_slice chunks_account_info (to_vec chunks)
  | _ => lift (Err NotEnoughAccountKeys)
  end.

Definition process_realloc_buffer (accounts : list AccountInfo) (pubkey : bytes) (buffer_account_size commit_id : Z)
    (buffer_bump : byte) (invocation_count : Z) : prog unit :=
  match accounts with
  | [authority_info; buffer_account_info] =>
      data ← borrow_data buffer_account_info;
      let current_buffer_size := Z.of_nat (length data) in
      if buffer_account_size <=? current_buffer_size then mret tt
      else
        _ ← lift (assert_is_signer authority_info);
        _ ← lift (verified_seeds_and_pda BUFFER_SEED authority_info pubkey buffer_account_info (le_bytes 8 commit_id) buffer_bump);
        let next_alloc_size :=
          Z.min buffer_account_size (wrap64 (current_buffer_size + MAX_ACCOUNT_ALLOC_PER_INSTRUCTION_SIZE)) in
        resize_account buffer_account_info (length data) (Z.to_nat next_alloc_size)
  | _ => lift (Err NotEnoughAccountKeys)
  end.

Definition verify_seeds_and_pdas (authority_info chunks_account_info buffer_account_info : AccountInfo) (pubkey : bytes)
    (commit_id : Z) (chunks_bump buffer_bump : byte) : result ProgramError unit :=
  let commit_id_slice := le_bytes 8 commit_id in
  _ ← verified_seeds_and_pda CHUNKS_SEED authority_info pubkey chunks_account_info commit_id_slice chunks_bump;
  _ ← verified_seeds_and_pda BUFFER_SEED authority_info pubkey buffer_account_info commit_id_slice buffer_bump;
  Ok tt.

(** Both accounts' data are borrowed mutably at once, which panics if they are one account. *)
Definition process_write (accounts : list AccountInfo) (pubkey : bytes) (offset : Z) (data_chunk : bytes)
    (commit_id : Z) (chunks_bump buffer_bump : byte) : prog unit :=
  match accounts with
  | [authority_info; chunks_account_info; buffer_account_info] =>
      _ ← lift (assert_is_signer authority_info);
      _ ← lift (verify_seeds_and_pdas authority_info chunks_account_info buffer_account_info pubkey commit_id
                  chunks_bump buffer_bump);
      buffer_data ← borrow_data buffer_account_info;
      let len := Z.of_nat (length data_chunk) in
      let out_of_range := OffsetChunkOutOfRange len offset (Z.of_nat (length buffer_data)) in
      end_offset ← lift (map_err CommittorError_into
        (ok_or (let sum := offset + wrap32 len in if sum <? 2 ^ 32 then Some sum else None) out_of_range));
      _ ← lift (map_err CommittorError_into (ensure (negb (Z.of_nat (length buffer_data) <? end_offset)) out_of_range));
      let from := Z.to_nat offset in
      _ ← lift (if decide (from + length data_chunk <= length buffer_data)%nat then Ok tt else Panic);
      _ ← copy_from_slice buffer_account_info (copy_range buffer_data from (from + length data_chunk) data_chunk);
      _ ← lift (if decide (ai_key chunks_account_info = ai_key buffer_account_info) then Panic else Ok tt);
      chunks_data ← borrow_data chunks_account_info;
      chunks ← lift (ok_or (try_from_slice chunks_data) BorshIoError);
      chunks ← lift (map_err (fun e => CommittorError_into (CommittorError_from e)) (set_offset_delivered chunks offset));
      copy_from_slice chunks_account_info (to_vec chunks)
  | _ => lift (Err NotEnoughAccountKeys)
  end.

Definition process_close (accounts : list AccountInfo) (pubkey : bytes) (commit_id : Z) (chunks_bump buffer_bump : byte)
    : prog unit :=
  match accounts with
  | [authority_info; chunks_account_info; buffer_account_info] =>
      _ ← lift (assert_is_signer authority_info);
      _ ← lift (verify_seeds_and_pdas authority_info chunks_account_info buffer_account_info pubkey commit_id
                  chunks_bump buffer_bump);
      chunks_data ← borrow_data chunks_account_info;
      buffer_data ← borrow_data buffer_account_info;
      _ ← close_and_refund_authority authority_info chunks_account_info (length chunks_data);
      close_and_refund_authority authority_info buffer_account_info (length buffer_data)
  | _ => lift (Err NotEnoughAccountKeys)
  end.

Definition committor_process (program_id : bytes) (accounts : list AccountInfo) (instruction_data : bytes) : prog unit :=
  _ ← lift (assert_program_id program_id);
  ix ← lift (ok_or (try_from_slice instruction_data) BorshIoError);
  match ix with
  | IxInit pubkey chunks_account_size buffer_account_size commit_id chunks_bump buffer_bump chunk_count chunk_size =>
      process_init program_id accounts pubkey chunks_account_size buffer_account_size commit_id chunks_bump buffer_bump
        chunk_count chunk_size
  | IxReallocBuffer pubkey buffer_account_size commit_id buffer_bump invocation_count =>
      process_realloc_buffer accounts pubkey buffer_account_size commit_id buffer_bump invocation_count
  | IxWrite pubkey commit_id chunks_bump buffer_bump offset data_chunk =>
      process_write accounts pubkey offset data_chunk commit_id chunks_bump buffer_bump
  | IxClose pubkey commit_id chunks_bump buffer_bump =>
      process_close accounts pubkey commit_id chunks_bump buffer_bump
  end.
End committor.
