(* ===== verification/RpcClient.v ===== *)
(** * The client of the base chain: magicblock-rpc-client

    The errors of the client and which of them are retried (lib.rs, utils.rs), sending a transaction
    and waiting for its status, and the retry loop.  Asynchronous code is a program whose calls are
    the points where it waits for the base chain.  The chain runs a transaction at most once, tells
    one transaction from another by its block hash and its instructions, and runs those that were
    sent in any order and at any time: [Network] says when each of them lands, what the node answers
    and which of several futures goes on.  Signatures, log lines and durations are left out. *)
From S2P Require Import Prelude Constants Crypto Receipt Slashing Accounts Evidence Runtime Processor Solvency Payouts Court.

(** ** Errors *)

#[global] Instance AccountMeta_eq_dec : EqDecision AccountMeta.
Proof. solve_decision. Defined.
#[global] Instance SolInstruction_eq_dec : EqDecision SolInstruction.
Proof. solve_decision. Defined.

(** [InstructionError]: what the program returned, or that it panicked. *)
Inductive InstructionError : Type :=
| FromProgram (e : ProgramError)
| ProgramFailedToComplete.

(** [TransactionError], without the index of the instruction. *)
Inductive TransactionError : Type :=
| InstructionFailed (e : InstructionError)
| OtherTransactionError (code : Z).

#[global] Instance InstructionError_eq_dec : EqDecision InstructionError.
Proof. solve_decision. Defined.
#[global] Instance TransactionError_eq_dec : EqDecision TransactionError.
Proof. solve_decision. Defined.

(** [solana_rpc_client_api::client_error::ErrorKind], with what the client reads of it. *)
Inductive ErrorKind : Type :=
| KindIo
| KindReqwest (status : option Z)
| KindMiddleware
| KindRpcResponseError (code : Z)
| KindOtherRpcError
| KindSerdeJson
| KindTransactionError (e : TransactionError)
| KindSigningError
| KindCustom.

(** [JSON_RPC_SERVER_ERROR_NODE_UNHEALTHY] of Solana's JSON-RPC interface. *)
Definition NODE_UNHEALTHY : Z := -32005.

Inductive MagicBlockRpcClientError : Type :=
| RpcClientError (kind : ErrorKind)
| GetLatestBlockhash (kind : ErrorKind)
| GetSlot (kind : ErrorKind)
| LookupTableDeserialize
| SendTransaction (kind : ErrorKind)
| CannotGetTransactionSignatureStatus
| CannotConfirmTransactionSignatureStatus
| SentTransactionError (e : TransactionError).

Record MagicBlockSendTransactionOutcome : Type := MkOutcome {
  processed_err : option TransactionError;
  confirmed_err : option TransactionError;
}.

(** [MagicBlockSendTransactionOutcome::into_result] *)
Definition outcome_into_result (self : MagicBlockSendTransactionOutcome) : result MagicBlockRpcClientError unit :=
  match (match confirmed_err self with Some err => Some err | None => processed_err self end) with
  | Some err => Err (SentTransactionError err)
  | None => Ok tt
  end.

(** [MagicBlockSendTransactionConfig]: whether to wait for a status, and for the commitment after it. *)
Inductive MagicBlockSendTransactionConfig : Type :=
| JustSend
| SendAndConfirm (wait_for_commitment_level : bool).

Definition ensure_committed : MagicBlockSendTransactionConfig := SendAndConfirm true.

(** ** utils.rs

    A [ControlFlow<(), Duration>] is the milliseconds to sleep before the next attempt, or nothing. *)

Section utils.
Context {ExecErr : Type} (try_map : TransactionError -> result TransactionError ExecErr)
  (from : MagicBlockRpcClientError -> ExecErr).

Definition try_map_client_error (kind : ErrorKind) : result ErrorKind ExecErr :=
  match kind with
  | KindTransactionError transaction_err => map_err KindTransactionError (try_map transaction_err)
  | err_kind => Err err_kind
  end.

Definition map_magicblock_client_error (error : MagicBlockRpcClientError) : ExecErr :=
  match error with
  | SentTransactionError transaction_err =>
      match try_map transaction_err with
      | Ok mapped_err => mapped_err
      | _ => from (SentTransactionError transaction_err)
      end
  | RpcClientError err =>
      match try_map_client_error err with
      | Ok mapped_err => mapped_err
      | _ => from (RpcClientError err)
      end
  | SendTransaction err =>
      match try_map_client_error err with
      | Ok mapped_err => mapped_err
      | _ => from (SendTransaction err)
      end
  | err => from err
  end.
End utils.

Definition decide_reqwest_flow (status : option Z) : option Z :=
  match status with
  | None => Some 500
  | Some status =>
      if (500 <=? status) && (status <? 600) then Some 100
      else if status =? 429 then Some 500
      else None
  end.

Definition decide_rpc_native_flow (kind : ErrorKind) : option Z :=
  match kind with
  | KindIo => Some 500
  | KindReqwest status => decide_reqwest_flow status
  | KindRpcResponseError code => if code =? NODE_UNHEALTHY then Some 500 else None
  | _ => None
  end.

Definition decide_rpc_error_flow (error : MagicBlockRpcClientError) : option Z :=
  match error with
  | RpcClientError err | SendTransaction err => decide_rpc_native_flow err
  | GetSlot _ | LookupTableDeserialize | SentTransactionError _ => None
  | CannotGetTransactionSignatureStatus | CannotConfirmTransactionSignatureStatus => Some 0
  | GetLatestBlockhash _ => Some 100
  end.

(** ** Asynchronous code *)

(** A signed transaction; its signature follows from what is signed. *)
Record Transaction : Type := MkTransaction { tx_blockhash : bytes; tx_ixs : list SolInstruction }.

#[global] Instance Transaction_eq_dec : EqDecision Transaction.
Proof. solve_decision. Defined.

(** What the client waits for: the latest block hash, the node's answer to a transaction, the status
    of one.  A status is the error of the transaction, or none. *)
Inductive RpcCall : Type :=
| CallBlockhash
| CallSend (tx : Transaction)
| CallStatus (tx : Transaction).

Definition rpc_answer (call : RpcCall) : Type :=
  match call with
  | CallBlockhash => (ErrorKind + bytes)%type
  | CallSend _ => option ErrorKind
  | CallStatus _ => option (option TransactionError)
  end.

Inductive async (A : Type) : Type :=
| Return (a : A)
| Await (call : RpcCall) (rest : rpc_answer call -> async A).
Arguments Return {A} a.
Arguments Await {A} call rest.

#[global] Instance async_ret : MRet async := fun A a => Return a.
#[global] Instance async_bind : MBind async := fun A B f =>
  fix go p := match p with Return a => f a | Await call rest => Await call (fun x => go (rest x)) end.

Definition await (call : RpcCall) : async (rpc_answer call) := Await call Return.

(** [?] in asynchronous code. *)
Definition await_ok {E A B : Type} (p : async (result E A)) (f : A -> async (result E B)) : async (result E B) :=
  r ← p; match r with Ok a => f a | Err e => Return (Err e) | Panic => Return Panic end.

Notation "x ←? p ; q" := (await_ok p (fun x => q)) (at level 20, p at level 100, q at level 200) : receipts_scope.

(** ** lib.rs *)

Definition get_latest_blockhash : async (result MagicBlockRpcClientError bytes) :=
  blockhash ← await CallBlockhash;
  Return (match blockhash with inl e => Err (GetLatestBlockhash e) | inr blockhash => Ok blockhash end).

Definition wait_for_processed_status (tx : Transaction) : async (result MagicBlockRpcClientError (option TransactionError)) :=
  status ← await (CallStatus tx); Return (ok_or status CannotGetTransactionSignatureStatus).

Definition wait_for_confirmed_status (tx : Transaction) : async (result MagicBlockRpcClientError (option TransactionError)) :=
  status ← await (CallStatus tx); Return (ok_or status CannotConfirmTransactionSignatureStatus).

Definition send_transaction_with_config (tx : Transaction) : async (result MagicBlockRpcClientError unit) :=
  sent ← await (CallSend tx); Return (match sent with Some e => Err (SendTransaction e) | None => Ok tt end).

Definition send_transaction (tx : Transaction) (config : MagicBlockSendTransactionConfig) : async (result MagicBlockRpcClientError MagicBlockSendTransactionOutcome) :=
  _ ←? send_transaction_with_config tx;
  match config with
  | JustSend => Return (Ok {| processed_err := None; confirmed_err := None |})
  | SendAndConfirm wait_for_commitment_level =>
      processed_status ←? wait_for_processed_status tx;
      match processed_status with
      | Some err => Return (Err (SentTransactionError err))
      | None =>
          confirmed_status ←?
            (if wait_for_commitment_level then
               status ←? wait_for_confirmed_status tx; Return (Ok (Some status))
             else Return (Ok None));
          Return (Ok {| processed_err := None; confirmed_err := default None confirmed_status |})
      end
  end.

(** *** The retry loop of utils.rs, for at most [turns] turns *)

Fixpoint send_transaction_with_retries {SendErr ExecErr : Type} (turns : nat)
    (make_send_fut : async (result SendErr MagicBlockSendTransactionOutcome)) (from : MagicBlockRpcClientError -> SendErr)
    (map_error : SendErr -> ExecErr) (decide_flow : ExecErr -> option Z) (stop_predicate : nat -> bool) (i : nat)
    : async (result ExecErr unit) :=
  match turns with
  | O => Return Panic
  | S turns =>
      let i := S i in
      result ← make_send_fut;
      match (outcome ← result; map_err from (outcome_into_result outcome)) with
      | Ok _ => Return (Ok tt)
      | Panic => Return Panic
      | Err err =>
          let mapped_error := map_error err in
          match decide_flow mapped_error with
          | None => Return (Err mapped_error)
          | Some _ =>
              if stop_predicate i then Return (Err mapped_error)
              else send_transaction_with_retries turns make_send_fut from map_error decide_flow stop_predicate i
          end
      end
  end.

(** ** The base chain and the way to it *)

(** What happens around one call: which of the transactions in flight land, of so many; whether the
    cached block hash is younger than its time to live, and the hash the node would answer; how the
    node answers a transaction; whether a status is seen in time. *)
Record Moment : Type := MkMoment {
  mo_lands : nat -> list nat;
  mo_cache_fresh : bool;
  mo_blockhash : (ErrorKind + bytes)%type;
  mo_sent : option ErrorKind;
  mo_seen : bool;
}.

(** What happens at each time, and which of several futures goes on. *)
Record Network : Type := MkNetwork { net_moment : nat -> Moment; net_turn : nat -> nat }.

Record world : Type := MkWorld {
  w_ledger : ledger;
  w_statuses : list (Transaction * option TransactionError);
  w_in_flight : list Transaction;
  w_blockhash : option bytes;
  w_clock : nat;
}.

Definition status_of (statuses : list (Transaction * option TransactionError)) (tx : Transaction) : option (option TransactionError) :=
  (fun found => found.2.2) <$> list_find (fun s => s.1 = tx) statuses.

Section network.
Context (execute : list SolInstruction -> ledger -> result ProgramError ledger) (N : Network).

(** The chain runs a transaction, unless it already did. *)
Definition process_transaction (w : world) (tx : Transaction) : world :=
  let conclude L status :=
    {| w_ledger := L; w_statuses := (tx, status) :: w_statuses w; w_in_flight := w_in_flight w;
       w_blockhash := w_blockhash w; w_clock := w_clock w |} in
  match status_of (w_statuses w) tx with
  | Some _ => w
  | None =>
      match execute (tx_ixs tx) (w_ledger w) with
      | Ok L => conclude L None
      | Err e => conclude (w_ledger w) (Some (InstructionFailed (FromProgram e)))
      | Panic => conclude (w_ledger w) (Some (InstructionFailed ProgramFailedToComplete))
      end
  end.

(** Some of the transactions in flight land, in the order of the list. *)
Definition land (picks : list nat) (w : world) : world :=
  foldl (fun w i => match w_in_flight w !! i with Some tx => process_transaction w tx | None => w end) w picks.

Definition tick (w : world) : world :=
  {| w_ledger := w_ledger w; w_statuses := w_statuses w; w_in_flight := w_in_flight w; w_blockhash := w_blockhash w;
     w_clock := S (w_clock w) |}.

Definition put_in_flight (w : world) (tx : Transaction) : world :=
  {| w_ledger := w_ledger w; w_statuses := w_statuses w; w_in_flight := w_in_flight w ++ [tx]; w_blockhash := w_blockhash w;
     w_clock := w_clock w |}.

Definition cache_blockhash (w : world) (blockhash : option bytes) : world :=
  {| w_ledger := w_ledger w; w_statuses := w_statuses w; w_in_flight := w_in_flight w; w_blockhash := blockhash;
     w_clock := w_clock w |}.

Definition invalidate_cached_blockhash (w : world) : world := cache_blockhash w None.

(** [get_latest_blockhash] behind its cache. *)
Definition latest_blockhash (m : Moment) (w : world) : (ErrorKind + bytes)%type * world :=
  match w_blockhash w, mo_cache_fresh m with
  | Some blockhash, true => (inr blockhash, w)
  | _, _ =>
      match mo_blockhash m with
      | inr blockhash => (inr blockhash, cache_blockhash w (Some blockhash))
      | inl e => (inl e, w)
      end
  end.

(** A call is answered after whatever lands meanwhile. *)
Definition perform (call : RpcCall) (w : world) : rpc_answer call * world :=
  let m := net_moment N (w_clock w) in
  let w := tick (land (mo_lands m (length (w_in_flight w))) w) in
  match call with
  | CallBlockhash => latest_blockhash m w
  | CallSend tx => (mo_sent m, put_in_flight w tx)
  | CallStatus tx => (if mo_seen m then status_of (w_statuses w) tx else None, w)
  end.

(** One future, to its end. *)
Fixpoint run_async {A : Type} (p : async A) (w : world) : A * world :=
  match p with
  | Return a => (a, w)
  | Await call rest => let '(x, w) := perform call w in run_async (rest x) w
  end.

(** [try_join_all]: whichever goes on, until all succeeded or one failed; at most [turns] turns. *)
Fixpoint try_join_all {E : Type} (turns : nat) (futs : list (async (result E unit))) (w : world) : result E unit * world :=
  match turns with
  | O => (Panic, w)
  | S turns =>
      match futs with
      | [] => (Ok tt, w)
      | _ =>
          let i := (net_turn N (w_clock w) mod length futs)%nat in
          match futs !! i with
          | None => (Panic, w)
          | Some (Return (Ok _)) => try_join_all turns (delete i futs) w
          | Some (Return failed) => (failed, w)
          | Some (Await call rest) =>
              let '(x, w) := perform call w in
              try_join_all turns (<[i := rest x]> futs) w
          end
      end
  end.

(** [join_all]: whichever goes on, until all ended; the results in the order of the futures. *)
Definition returned {A : Type} (p : async A) : option A :=
  match p with Return a => Some a | Await _ _ => None end.

Fixpoint join_all {A : Type} (turns : nat) (futs : list (async A)) (w : world) : may_panic (list A) * world :=
  match mapM returned futs, turns with
  | Some results, _ => (Ok results, w)
  | None, O => (Panic, w)
  | None, S turns =>
      let waiting := filter (fun i => futs !! i ≫= returned = None) (seq 0 (length futs)) in
      match waiting !! (net_turn N (w_clock w) mod length waiting)%nat with
      | None => (Panic, w)
      | Some i =>
          match futs !! i with
          | Some (Await call rest) => let '(x, w) := perform call w in join_all turns (<[i := rest x]> futs) w
          | _ => (Panic, w)
          end
      end
  end.
End network.
