(* ===== verification/RpcInv.v ===== *)
(** * Reasoning about code that talks to the base chain

    A logic for the asynchronous programs of RpcClient.v: [satisfies] says what a program sends and
    returns given what the answers may be, [phase] is an invariant of the chain that every
    transaction that may land keeps, and the rules for one future and for several carry both through
    any behaviour of the network. *)
From S2P Require Import Prelude Constants Crypto Receipt Slashing Accounts Evidence Runtime Processor Solvency Payouts Court RpcClient.

Abbreviation statuses := (list (Transaction * option TransactionError)).

Lemma status_of_cons (st : statuses) tx v tx' :
  status_of ((tx, v) :: st) tx' = if decide (tx = tx') then Some v else status_of st tx'.
Proof.
  unfold status_of. cbn [list_find fst]. destruct (decide (tx = tx')); [done|]. by destruct (list_find _ st) as [[]|].
Qed.

Definition extends (st st' : statuses) : Prop := forall tx v, status_of st tx = Some v -> status_of st' tx = Some v.

#[global] Instance extends_preorder : PreOrder extends.
Proof. split; [by intros st tx v|intros st1 st2 st3 H12 H23 tx v H; auto]. Qed.

(** The chain has run a transaction. *)
Definition settled (st : statuses) (tx : Transaction) : Prop := is_Some (status_of st tx).

Lemma settled_extends st st' tx : extends st st' -> settled st tx -> settled st' tx.
Proof. intros H [v Hv]. exists v. auto. Qed.

Lemma sum_insert (ns : list nat) i n m : ns !! i = Some n -> (sum_list (S <$> <[i := m]> ns) + n = sum_list (S <$> ns) + m)%nat.
Proof.
  revert i. induction ns as [|k ns IH]; intros i; [done|]. destruct i as [|i]; [intros [= ->]; cbn; lia|].
  intros Hi%IH. change (S k + sum_list (S <$> <[i := m]> ns) + n = S k + sum_list (S <$> ns) + m)%nat. lia.
Qed.

(** ** Programs *)

(** What the answers of a run may be: the block hashes, the errors of the node, and the statuses. *)
Record expectations : Type := MkExpect {
  ex_hash : bytes -> Prop;
  ex_kind : ErrorKind -> Prop;
  ex_status : Transaction -> option TransactionError -> Prop;
}.

(** An answer that brings the program on, and one that does not. *)
Definition answers (E : expectations) (call : RpcCall) : rpc_answer call -> Prop :=
  match call with
  | CallBlockhash => fun r => match r with inr h => ex_hash E h | inl _ => False end
  | CallSend _ => fun r => r = None
  | CallStatus tx => fun r => match r with Some v => ex_status E tx v | None => False end
  end.

Definition fails (E : expectations) (call : RpcCall) : rpc_answer call -> Prop :=
  match call with
  | CallBlockhash => fun r => exists k, r = inl k
  | CallSend _ => fun r => exists k, r = Some k /\ ex_kind E k
  | CallStatus tx => fun r => r = None
  end.

(** How many answers may still fail, if there is a limit. *)
Abbreviation budget := (option nat).

Definition spends (b b' : budget) : Prop :=
  match b, b' with
  | None, None => True
  | Some k, Some k' => k = S k'
  | _, _ => False
  end.

Definition sent_by (call : RpcCall) : list Transaction := match call with CallSend tx => [tx] | _ => [] end.

(** Only transactions of [T] are sent, and the status of those that were. *)
Definition allowed (T : Transaction -> Prop) (sent : list Transaction) (call : RpcCall) : Prop :=
  match call with
  | CallBlockhash => True
  | CallSend tx => T tx
  | CallStatus tx => tx ∈ sent
  end.

Fixpoint satisfies {A : Type} (T : Transaction -> Prop) (E : expectations) (Q : A -> list Transaction -> budget -> Prop)
    (sent : list Transaction) (b : budget) (p : async A) : Prop :=
  match p with
  | Return a => Q a sent b
  | Await call rest =>
      allowed T sent call /\
      (forall x, answers E call x -> satisfies T E Q (sent ++ sent_by call) b (rest x)) /\
      (forall x b', fails E call x -> spends b b' -> satisfies T E Q (sent ++ sent_by call) b' (rest x))
  end.

Lemma satisfies_bind {A B : Type} T E (Q : B -> list Transaction -> budget -> Prop) (p : async A) (f : A -> async B) sent b :
  satisfies T E (fun a sent b => satisfies T E Q sent b (f a)) sent b p -> satisfies T E Q sent b (p ≫= f).
Proof.
  revert sent b. induction p as [a|call rest IH]; intros sent b; [done|]. intros (Hc & Hr & Hf). split_and!; [done|..].
  - intros x Hx. by apply IH, Hr.
  - intros x b' Hx Hb. by eapply IH, Hf.
Qed.

Lemma satisfies_mono {A : Type} T E (Q Q' : A -> list Transaction -> budget -> Prop) sent b p :
  (forall a s b, Q a s b -> Q' a s b) -> satisfies T E Q sent b p -> satisfies T E Q' sent b p.
Proof.
  intros HQ. revert sent b. induction p as [a|call rest IH]; intros sent b; [apply HQ|]. intros (Hc & Hr & Hf). split_and!; [done|..]; eauto.
Qed.

(** A program waits at most so often. *)
Fixpoint waits {A : Type} (n : nat) (p : async A) {struct p} : Prop :=
  match p with
  | Return _ => True
  | Await _ rest => match n with O => False | S n => forall x, waits n (rest x) end
  end.

Lemma waits_mono {A : Type} n m (p : async A) : (n <= m)%nat -> waits n p -> waits m p.
Proof.
  revert n m. induction p as [a|call rest IH]; intros n m Hn; [done|]. destruct n as [|n]; [done|]. destruct m as [|m]; [lia|].
  intros Hp x. eapply IH; [|apply Hp]. lia.
Qed.

Lemma waits_bind {A B : Type} n m (p : async A) (f : A -> async B) : waits n p -> (forall a, waits m (f a)) -> waits (n + m) (p ≫= f).
Proof.
  revert n. induction p as [a|call rest IH]; intros n Hp Hf; [eapply waits_mono; [|apply Hf]; lia|].
  destruct n as [|n]; [done|]. intros x. by apply IH.
Qed.

(** ** The chain *)

Section chain.
Context (execute : list SolInstruction -> ledger -> result ProgramError ledger) (N : Network).
Implicit Types (w : world) (inv : ledger -> statuses -> Prop) (T : Transaction -> Prop).

(** Whatever transaction of [T] the chain runs, and with whatever outcome, the invariant is kept. *)
Definition stable inv T : Prop := forall L st tx, T tx -> inv L st -> status_of st tx = None ->
  match execute (tx_ixs tx) L with
  | Ok L' => inv L' ((tx, None) :: st)
  | Err e => inv L ((tx, Some (InstructionFailed (FromProgram e))) :: st)
  | Panic => inv L ((tx, Some (InstructionFailed ProgramFailedToComplete)) :: st)
  end.

(** The invariant holds, and what is in flight keeps it. *)
Record phase inv T w : Prop := {
  ph_inv : inv (w_ledger w) (w_statuses w);
  ph_flight : Forall T (w_in_flight w);
  ph_known tx : settled (w_statuses w) tx -> tx ∈ w_in_flight w;
}.

Record lands_to w w' : Prop := {
  lt_statuses : extends (w_statuses w) (w_statuses w');
  lt_flight : w_in_flight w' = w_in_flight w;
  lt_hash : w_blockhash w' = w_blockhash w;
  lt_clock : w_clock w' = w_clock w;
}.

#[global] Instance lands_to_preorder : PreOrder lands_to.
Proof.
  split; [by intros w; split|]. intros w1 w2 w3 [H1 H2 H3 H4] [G1 G2 G3 G4]. split; [by etrans|congruence..].
Qed.

Lemma process_phase inv T w tx : stable inv T -> phase inv T w -> tx ∈ w_in_flight w ->
  phase inv T (process_transaction execute w tx) /\ lands_to w (process_transaction execute w tx) /\
  settled (w_statuses (process_transaction execute w tx)) tx.
Proof.
  intros Hst [Hi Hf Hk] Hin. unfold process_transaction. destruct (status_of (w_statuses w) tx) as [v|] eqn:E.
  { split_and!; [done|reflexivity|by exists v]. }
  assert (T tx) as HT by (by eapply Forall_forall in Hf). specialize (Hst _ _ _ HT Hi E).
  assert (forall v, extends (w_statuses w) ((tx, v) :: w_statuses w)) as Hext.
  { intros v tx' v' H'. rewrite status_of_cons, decide_False; [done|]. intros ->. congruence. }
  assert (forall v tx', settled ((tx, v) :: w_statuses w) tx' -> tx' ∈ w_in_flight w) as Hkn.
  { intros v tx' [v' Hv']. rewrite status_of_cons in Hv'. destruct (decide (tx = tx')) as [<-|]; [done|]. apply Hk. by exists v'. }
  assert (forall v, settled ((tx, v) :: w_statuses w) tx) as Hse by (intros v; exists v; by rewrite status_of_cons, decide_True).
  destruct (execute _ _) as [L'|e|]; cbn; split_and!; try apply Hse; split; cbn; try done; try apply Hext; apply Hkn.
Qed.

Lemma land_phase inv T picks w : stable inv T -> phase inv T w ->
  phase inv T (land execute picks w) /\ lands_to w (land execute picks w) /\
  forall i tx, i ∈ picks -> w_in_flight w !! i = Some tx -> settled (w_statuses (land execute picks w)) tx.
Proof.
  intros Hst. revert w. induction picks as [|i picks IH]; intros w Hw.
  { split_and!; [done|reflexivity|]. intros i tx Hi. by apply elem_of_nil in Hi. }
  cbn [land foldl]. destruct (w_in_flight w !! i) as [tx|] eqn:E.
  - destruct (process_phase inv T w tx Hst Hw) as (Hw1 & Hl1 & Hs1); [by eapply list_elem_of_lookup_2|].
    destruct (IH _ Hw1) as (Hw2 & Hl2 & Hs2). split_and!; [done|by etrans|].
    intros j tx' [->|Hj]%elem_of_cons Htx'; [|apply (Hs2 j tx' Hj); by rewrite (lt_flight _ _ Hl1)].
    simplify_eq. eapply settled_extends; [apply Hl2|done].
  - destruct (IH _ Hw) as (Hw2 & Hl2 & Hs2). split_and!; [done..|].
    intros j tx' [->|Hj]%elem_of_cons Htx'; [congruence|by apply (Hs2 j)].
Qed.

(** A moment when everything is answered and lands. *)
Record prompt (m : Moment) : Prop := {
  pr_lands n i : (i < n)%nat -> i ∈ mo_lands m n;
  pr_hash : exists h, mo_blockhash m = inr h;
  pr_sent : mo_sent m = None;
  pr_seen : mo_seen m = true;
}.

(** The moments at which something may go wrong; at all others, from some time on, nothing does. *)
Context (faults : list nat).

Definition faults_from (t : nat) : nat := length (filter (fun t' => t <= t')%nat faults).

Definition affords (b : budget) (t : nat) : Prop :=
  match b with
  | None => True
  | Some k => (forall t', (t <= t')%nat -> t' ∉ faults -> prompt (net_moment N t')) /\ (faults_from t <= k)%nat
  end.

Lemma faults_from_S t : (faults_from (S t) <= faults_from t)%nat /\ (t ∈ faults -> (faults_from (S t) < faults_from t)%nat).
Proof.
  unfold faults_from. induction faults as [|t' l [IH1 IH2]]; [split; [done|by intros ?%elem_of_nil]|].
  destruct (decide (S t <= t')%nat) as [H1|H1].
  - rewrite !filter_cons_True by lia. cbn. split; [lia|]. intros [->|Hin]%elem_of_cons; [lia|]. specialize (IH2 Hin). lia.
  - rewrite (filter_cons_False _ t') by lia. destruct (decide (t <= t')%nat) as [H2|H2].
    + rewrite filter_cons_True by lia. cbn. lia.
    + rewrite filter_cons_False by lia. split; [done|]. intros [->|Hin]%elem_of_cons; [lia|auto].
Qed.

Lemma affords_S b t : affords b t -> affords b (S t).
Proof. destruct b as [k|]; [|done]. intros [H1 H2]. pose proof (faults_from_S t) as [H3 _]. split; [intros t' Ht; apply H1; lia|lia]. Qed.

Lemma affords_mono b t t' : (t <= t')%nat -> affords b t -> affords b t'.
Proof. induction 1; [done|]. intros H'. apply affords_S. auto. Qed.

(** The network answers as expected until a time. *)
Record meets (E : expectations) w (until : nat) : Prop := {
  me_cached h : w_blockhash w = Some h -> ex_hash E h;
  me_fetched t h : (w_clock w <= t < until)%nat -> mo_blockhash (net_moment N t) = inr h -> ex_hash E h;
  me_kind t k : mo_sent (net_moment N t) = Some k -> ex_kind E k;
}.

Lemma process_lands w tx : lands_to w (process_transaction execute w tx).
Proof.
  unfold process_transaction. destruct (status_of (w_statuses w) tx) as [v|] eqn:E; [done|].
  assert (forall v, extends (w_statuses w) ((tx, v) :: w_statuses w)) as Hext.
  { intros v tx' v' H'. rewrite status_of_cons, decide_False; [done|]. intros ->. congruence. }
  destruct (execute _ _); (split; cbn; [apply Hext|done..]).
Qed.

Lemma land_lands picks w : lands_to w (land execute picks w).
Proof.
  revert w. induction picks as [|i picks IH]; intros w; [done|]. cbn [land foldl].
  destruct (w_in_flight w !! i); [|apply IH]. etrans; [apply process_lands|apply IH].
Qed.

(** Statuses and time only go forward. *)
Record later w w' : Prop := {
  la_statuses : extends (w_statuses w) (w_statuses w');
  la_clock : (w_clock w <= w_clock w')%nat;
}.

#[global] Instance later_preorder : PreOrder later.
Proof. split; [by split|]. intros w1 w2 w3 [H1 H2] [G1 G2]. split; [by etrans|lia]. Qed.

Lemma perform_later call w x w' : perform execute N call w = (x, w') -> later w w' /\ w_clock w' = S (w_clock w).
Proof.
  unfold perform. set (m := net_moment _ _). pose proof (land_lands (mo_lands m (length (w_in_flight w))) w) as [Hs _ _ Hc].
  set (w1 := land _ _ w) in *. intros Hrun.
  assert (w_statuses w' = w_statuses w1 /\ w_clock w' = S (w_clock w1)) as [E1 E2].
  { destruct call; [|by simplify_eq..]. unfold latest_blockhash in Hrun. repeat case_match; by simplify_eq. }
  split; [split; [by rewrite E1|lia]|lia].
Qed.

(** An answer brings the program on, or a fault is spent. *)
Definition answered_as (E : expectations) (call : RpcCall) (x : rpc_answer call) b b' : Prop :=
  answers E call x /\ b' = b \/ fails E call x /\ spends b b'.

Lemma perform_spec inv T E sent b call w x w' until :
  stable inv T -> phase inv T w -> allowed T sent call -> (forall tx, tx ∈ sent -> tx ∈ w_in_flight w) ->
  meets E w until -> (w_clock w < until)%nat -> affords b (w_clock w) -> perform execute N call w = (x, w') ->
  (forall tx v, status_of (w_statuses w') tx = Some v -> ex_status E tx v) ->
  phase inv T w' /\ w_in_flight w' = w_in_flight w ++ sent_by call /\
  meets E w' until /\ exists b', answered_as E call x b b' /\ affords b' (w_clock w').
Proof.
  intros Hst Hw Hal Hsent Hm Hcl Haf Hrun HF. pose proof (perform_later _ _ _ _ Hrun) as [_ Hclock]. rewrite Hclock. clear Hclock.
  unfold perform in Hrun. set (m := net_moment N (w_clock w)) in *.
  destruct (land_phase inv T (mo_lands m (length (w_in_flight w))) w Hst Hw) as ([Hi1 Hf1 Hk1] & [Hs1 Hfl1 Hh1 Hc1] & Hset).
  set (w1 := land execute _ w) in *.
  assert (forall x, answers E call x -> exists b', answered_as E call x b b' /\ affords b' (S (w_clock w))) as Hgood.
  { intros y Hy. exists b. split; [by left|by apply affords_S]. }
  assert (forall x, fails E call x -> ~ prompt m -> exists b', answered_as E call x b b' /\ affords b' (S (w_clock w))) as Hbad.
  { intros y Hy Hnp. destruct b as [k|]; [|exists None; split; [by right|done]]. destruct Haf as [H1 H2].
    assert (w_clock w ∈ faults) as Hin by (destruct (decide (w_clock w ∈ faults)); [done|destruct Hnp; apply H1; [lia|done]]).
    pose proof (faults_from_S (w_clock w)) as [_ H3]. specialize (H3 Hin). destruct k as [|k]; [lia|]. exists (Some k).
    split; [by right|]. split; [intros t Ht; apply H1; lia|lia]. }
  assert (meets E (tick w1) until) as Hm1.
  { destruct Hm as [M1 M2 M3]. split; cbn; try done; rewrite ?Hh1, ?Hc1; [done|]. intros t h Ht. apply M2. lia. }
  assert (forall w2, w_ledger w2 = w_ledger w1 -> w_statuses w2 = w_statuses w1 -> w_in_flight w2 = w_in_flight w1 -> phase inv T w2) as Hph.
  { intros w2 E1 E2 E3. split; by rewrite ?E1, ?E2, ?E3. }
  destruct call as [|tx|tx]; cbn [sent_by]; rewrite ?app_nil_r.
  - unfold latest_blockhash in Hrun. cbn [w_blockhash tick] in Hrun.
    assert ((x, w') = (inr (default [] (w_blockhash w1)), tick w1) /\ is_Some (w_blockhash w1) \/
      (exists h, mo_blockhash m = inr h /\ (x, w') = (inr h, cache_blockhash (tick w1) (Some h))) \/
      (exists e, mo_blockhash m = inl e /\ (x, w') = (inl e, tick w1))) as Hcases.
    { destruct (mo_blockhash m) as [e|h]; destruct (w_blockhash w1) as [h1|]; [destruct (mo_cache_fresh m)|..|destruct (mo_cache_fresh m)|];
        rewrite <-Hrun; eauto 10. }
    destruct Hcases as [[[= -> ->] [h Hh]]|[(h & Hbh & [= -> ->])|(e & He & [= -> ->])]].
    + split_and!; [by apply Hph|done..|]. apply Hgood. rewrite Hh. cbn. apply (me_cached _ _ _ Hm). congruence.
    + assert (ex_hash E h) as Hh by (apply (me_fetched _ _ _ Hm (w_clock w)); [lia|done]).
      split_and!; [by apply Hph|done| |by apply Hgood]. destruct Hm1 as [M1 M2 M3]. split; cbn in *; try done. congruence.
    + split_and!; [by apply Hph|done..|]. apply Hbad; [by exists e|]. intros [_ [h' Hh'] _ _]. congruence.
  - injection Hrun as <- <-. split_and!; [|cbn; by rewrite Hfl1| |].
    + split; cbn; [done| |].
      * apply Forall_app. split; [done|]. by constructor.
      * intros tx' H'. apply elem_of_app. left. by apply Hk1.
    + destruct Hm1 as [M1 M2 M3]. by split.
    + destruct (mo_sent m) as [k|] eqn:Ek; [|by apply Hgood]. apply Hbad; [exists k; split; [done|by eapply me_kind]|].
      intros [_ _ Hs _]. congruence.
  - injection Hrun as <- <-. split_and!; [by apply Hph|done..|].
    assert (status_of (w_statuses w1) tx = None -> ~ prompt m) as Hun.
    { intros Hno Hpr. destruct (list_elem_of_lookup_1 _ _ (Hsent tx Hal)) as [i Hi].
      destruct (Hset i tx) as [v Hv]; [apply pr_lands; [done|by eapply lookup_lt_Some]|done|]. congruence. }
    destruct (mo_seen m) eqn:Eseen; [|apply Hbad; [done|intros [_ _ _ Hs]; congruence]].
    cbn [w_statuses tick]. destruct (status_of (w_statuses w1) tx) as [v|] eqn:Ev; [apply Hgood; by apply HF|apply Hbad; auto]. done.
Qed.

(** ** One future *)

Lemma run_async_later {A : Type} (p : async A) w a w' : run_async execute N p w = (a, w') -> later w w'.
Proof.
  revert w. induction p as [b|call rest IH]; intros w; cbn [run_async]; [by intros [= _ <-]|].
  destruct (perform _ _ _ _) as [x w1] eqn:E. intros Hrun. apply perform_later in E as [H1 _]. etrans; [done|by eapply IH].
Qed.

Lemma run_async_spec {A : Type} inv T E (Q : A -> list Transaction -> budget -> Prop) sent b (p : async A) w a w' :
  stable inv T -> phase inv T w -> satisfies T E Q sent b p -> (forall tx, tx ∈ sent -> tx ∈ w_in_flight w) ->
  run_async execute N p w = (a, w') -> meets E w (w_clock w') -> affords b (w_clock w) ->
  (forall tx v, status_of (w_statuses w') tx = Some v -> ex_status E tx v) ->
  phase inv T w' /\ meets E w' (w_clock w') /\ exists more b', w_in_flight w' = w_in_flight w ++ more /\ Q a (sent ++ more) b'.
Proof.
  intros Hst. revert sent b w. induction p as [r|call rest IH]; intros sent b w Hw Hp Hsent; cbn [run_async].
  { intros [= <- <-] Hm Haf HF. split_and!; [done..|]. exists [], b. by rewrite !app_nil_r. }
  destruct (perform _ _ _ _) as [x w1] eqn:E1. intros Hrun Hm Haf HF. destruct Hp as (Hal & Hgood & Hbad).
  pose proof (run_async_later _ _ _ _ Hrun) as [Hex Hcl]. pose proof (perform_later _ _ _ _ E1) as [_ Hc1].
  destruct (perform_spec inv T E sent b call w x w1 (w_clock w') Hst Hw Hal Hsent Hm ltac:(lia) Haf E1) as (Hw1 & Hf1 & Hm1 & b' & Hx & Haf1); [auto|].
  destruct (IH x (sent ++ sent_by call) b' w1) as (Hw2 & Hm2 & more & b2 & Hf2 & HQ); try done.
  { destruct Hx as [[Hx ->]|[Hx Hb]]; auto. }
  { intros tx. rewrite Hf1, !elem_of_app. intros [?|?]; auto. }
  split_and!; [done..|]. exists (sent_by call ++ more), b2. by rewrite app_assoc, <-Hf1, app_assoc.
Qed.

(** ** Several futures *)

Lemma try_join_all_later {Err_ : Type} turns (futs : list (async (result Err_ unit))) w r w' :
  try_join_all execute N turns futs w = (r, w') -> later w w'.
Proof.
  revert futs w. induction turns as [|turns IH]; intros futs w; cbn [try_join_all]; [by intros [= _ <-]|].
  destruct futs as [|p futs]; [by intros [= _ <-]|]. set (fs := p :: futs). destruct (fs !! _) as [[[| |]|call rest]|];
    [apply IH|by intros [= _ <-]..| |by intros [= _ <-]].
  destruct (perform _ _ _ _) as [x w1] eqn:E. intros Hrun. apply perform_later in E as [H1 _]. etrans; [done|by eapply IH].
Qed.

(** What a future of several will have shown when it ends. *)
Definition pursues {Err_ : Type} T E w (Q : result Err_ unit -> list Transaction -> budget -> Prop) (p : async (result Err_ unit)) : Prop :=
  exists sent b, satisfies T E Q sent b p /\ (forall tx, tx ∈ sent -> tx ∈ w_in_flight w) /\ affords b (w_clock w).

Lemma try_join_all_spec {Err_ : Type} inv T E (Qs : list (result Err_ unit -> list Transaction -> budget -> Prop)) ns turns futs w r w' :
  stable inv T -> phase inv T w -> Forall2 (pursues T E w) Qs futs -> Forall2 waits ns futs -> (sum_list (S <$> ns) < turns)%nat ->
  try_join_all execute N turns futs w = (r, w') -> meets E w (w_clock w') ->
  (forall tx v, status_of (w_statuses w') tx = Some v -> ex_status E tx v) ->
  phase inv T w' /\ meets E w' (w_clock w') /\
  match r with
  | Ok _ => Forall (fun Q => exists sent b, Q (Ok tt) sent b) Qs
  | _ => exists Q sent b, Q ∈ Qs /\ Q r sent b
  end.
Proof.
  intros Hst. revert Qs ns futs w. induction turns as [|turns IH]; intros Qs ns futs w Hw HQs Hns Hturns; [lia|].
  cbn [try_join_all]. destruct futs as [|p futs].
  { intros [= <- <-] Hm HF. apply Forall2_nil_inv_r in HQs as ->. split_and!; [done..|constructor]. }
  set (fs := p :: futs) in *. set (i := (net_turn N (w_clock w) mod length fs)%nat).
  assert (i < length fs)%nat as Hi by (apply Nat.mod_upper_bound; done).
  destruct (lookup_lt_is_Some_2 fs i Hi) as [q Hq]. rewrite Hq.
  destruct (Forall2_lookup_r _ _ _ _ _ HQs Hq) as (Q & HQ & sent & b & Hsat & Hsent & Haf).
  destruct (Forall2_lookup_r _ _ _ _ _ Hns Hq) as (n & Hn & Hwaits).
  pose proof (delete_Permutation ns i n Hn) as Hperm.
  assert (sum_list (S <$> ns) = (S n + sum_list (S <$> delete i ns))%nat) as Hsum.
  { rewrite Hperm at 1. done. }
  destruct q as [r0|call rest].
  - assert (match r0 with Ok _ => True | _ => (r0, w) = (r, w') end -> r0 <> Ok tt -> meets E w (w_clock w') ->
      phase inv T w' /\ meets E w' (w_clock w') /\ match r with Ok _ => Forall (fun Q => exists sent b, Q (Ok tt) sent b) Qs
        | _ => exists Q sent b, Q ∈ Qs /\ Q r sent b end) as Hfail.
    { intros Hr Hne Hm. destruct r0 as [[]|e|]; [done|..]; simplify_eq; (split_and!; [done..|]); exists Q, sent, b;
        (split; [by eapply list_elem_of_lookup_2|done]). }
    destruct r0 as [[]|e|]; [|intros Hr Hm _; by apply Hfail..]. clear Hfail.
    intros Hrun Hm HF. destruct (IH (delete i Qs) (delete i ns) (delete i fs) w) as (H1 & H2 & H3); try done.
    + by apply Forall2_delete.
    + by apply Forall2_delete.
    + lia.
    + split_and!; [done..|]. destruct r; [|destruct H3 as (Q' & s' & b' & Hin & HQ'); exists Q', s', b'; split; [|done];
        rewrite (delete_Permutation Qs i Q HQ); by right..].
      rewrite (delete_Permutation Qs i Q HQ). constructor; [by exists sent, b|done].
  - destruct (perform _ _ _ _) as [x w1] eqn:E1. intros Hrun Hm HF. destruct Hsat as (Hal & Hgood & Hbad).
    destruct n as [|n]; [done|].
    pose proof (try_join_all_later _ _ _ _ _ Hrun) as [Hex Hcl]. pose proof (perform_later _ _ _ _ E1) as [_ Hc1].
    destruct (perform_spec inv T E sent b call w x w1 (w_clock w') Hst Hw Hal Hsent Hm ltac:(lia) Haf E1) as (Hw1 & Hf1 & Hm1 & b' & Hx & Haf1); [auto|].
    apply (IH Qs (<[i := n]> ns) (<[i := rest x]> fs) w1); try done.
    + rewrite <-(list_insert_id Qs i Q HQ). apply Forall2_insert.
      * eapply Forall2_impl; [done|]. intros Q' p' (s' & b0 & Hs' & Hin & Haf'). exists s', b0. split_and!; [done| |rewrite Hc1; by apply affords_S].
        intros tx Htx. rewrite Hf1, elem_of_app. auto.
      * exists (sent ++ sent_by call), b'. split_and!; [|intros tx; rewrite Hf1, !elem_of_app; intros [?|?]; auto|done].
        destruct Hx as [[Hx ->]|[Hx Hb]]; auto.
    + apply Forall2_insert; [done|apply Hwaits].
    + pose proof (sum_insert ns i (S n) n Hn). lia.
Qed.

(** A single future needs no choice of who goes on. *)
Lemma join_all_one {A : Type} n turns (p : async A) w : waits n p -> (n <= turns)%nat ->
  join_all execute N turns [p] w = let '(a, w') := run_async execute N p w in (Ok [a], w').
Proof.
  revert n turns w. induction p as [a|call rest IH]; intros n turns w Hp Hn; [by destruct turns|].
  destruct n as [|n]; [done|]. destruct turns as [|turns]; [lia|]. cbn [join_all mapM returned mbind option_bind length seq].
  rewrite filter_cons_True by done. cbn [filter list_filter length lookup list_lookup]. rewrite Nat.mod_1_r. cbn [lookup list_lookup run_async].
  destruct (perform _ _ _ _) as [x w1]. apply (IH x n); [apply Hp|lia].
Qed.

(** ** Nothing left to land *)

Definition all_settled w : Prop := forall tx, tx ∈ w_in_flight w -> settled (w_statuses w) tx.

Lemma process_settled w tx : settled (w_statuses w) tx -> process_transaction execute w tx = w.
Proof. intros [v Hv]. unfold process_transaction. by rewrite Hv. Qed.

Lemma land_settled picks w : all_settled w -> land execute picks w = w.
Proof.
  intros Hw. unfold land. induction picks as [|i picks IH]; [done|]. cbn [foldl].
  destruct (w_in_flight w !! i) as [tx|] eqn:E; [|apply IH]. rewrite process_settled; [apply IH|]. by eapply Hw, list_elem_of_lookup_2.
Qed.

Lemma process_all_settled w tx flight : w_in_flight w = flight ++ [tx] -> (forall tx', tx' ∈ flight -> settled (w_statuses w) tx') ->
  all_settled (process_transaction execute w tx).
Proof.
  intros Hf Hs tx'. rewrite (lt_flight _ _ (process_lands w tx)), Hf, elem_of_app, list_elem_of_singleton. intros [Hin| ->].
  - eapply settled_extends; [apply process_lands|auto].
  - unfold process_transaction. destruct (status_of _ tx) as [v|] eqn:E; [by exists v|].
    destruct (execute _ _); eexists; cbn [w_statuses]; by rewrite status_of_cons, decide_True.
Qed.

(** The last transaction lands, whatever else is picked. *)
Lemma land_last picks w flight tx : w_in_flight w = flight ++ [tx] -> (forall tx', tx' ∈ flight -> settled (w_statuses w) tx') ->
  length flight ∈ picks -> land execute picks w = process_transaction execute w tx.
Proof.
  intros Hf Hs Hin. unfold land. induction picks as [|i picks IH]; [by apply elem_of_nil in Hin|]. cbn [foldl].
  destruct (decide (i = length flight)) as [->|Hi].
  - rewrite Hf, list_lookup_middle by done. apply land_settled. by eapply process_all_settled.
  - apply elem_of_cons in Hin as [?|Hin]; [done|]. specialize (IH Hin). destruct (w_in_flight w !! i) as [tx'|] eqn:E; [|done].
    rewrite process_settled; [done|]. apply Hs. rewrite Hf in E. apply lookup_app_Some in E as [E|[Hl E]]; [by eapply list_elem_of_lookup_2|].
    apply list_lookup_singleton_Some in E as [? _]. lia.
Qed.
End chain.
