(* ===== verification/Delivery.v ===== *)
(** * Delivering a commit: magicblock-committor-service

    The clients' side of the committor program: the instructions (instruction_builder of
    magicblock-committor-program), the preparation of a commit task
    (tasks/commit_stage_task.rs) and the transactions the delivery preparator sends
    (transaction_preparator/delivery_preparator.rs), over the client of RpcClient.v.  Compute-budget
    instructions and the uniqueness nonce, which change no account, lookup tables and persisted
    statuses are left out. *)
From stdpp Require Import strings.
From S2P Require Import Prelude Constants Crypto Receipt Slashing Accounts Evidence Runtime Processor Solvency Payouts Court Chunks Committor RpcClient.

(** ** consts.rs *)

Definition IX_WRITE_SIZE_WITHOUT_CHUNKS : Z := 32 + 8 + 1 + 1 + 32.
Definition BUDGET_SET_COMPUTE_UNIT_PRICE_BYTES : Z := (1 + 8) * 8.
Definition BUDGET_SET_COMPUTE_UNIT_LIMIT_BYTES : Z := (1 + 4) * 8.
Definition MAX_WRITE_CHUNK_SIZE : Z :=
  MAX_INSTRUCTION_DATA_SIZE - IX_WRITE_SIZE_WITHOUT_CHUNKS - BUDGET_SET_COMPUTE_UNIT_PRICE_BYTES -
  BUDGET_SET_COMPUTE_UNIT_LIMIT_BYTES.
Definition MAX_PARALLEL_BUFFER_SENDS : nat := 8.

(** ** Tasks *)

(** [CommitDelivery]; of the base account, its data. *)
Inductive CommitDelivery : Type :=
| StateInArgs
| StateInBuffer (prepared : bool)
| DiffInArgs (base_account : bytes)
| DiffInBuffer (base_account : bytes) (prepared : bool).

(** [CommitTask] and [CommitFinalizeTask], which have the same fields; of the committed account, its
    address and its data. *)
Record CommitTask : Type := MkCommitTask {
  ct_commit_id : Z;
  ct_pubkey : bytes;
  ct_data : bytes;
  ct_delivery : CommitDelivery;
}.

(** [PreparationTask], without the reference to the task's flag. *)
Record PreparationTask : Type := MkPreparation {
  pr_commit_id : Z;
  pr_pubkey : bytes;
  pr_chunks : Chunks;
  pr_buffer_data : bytes;
}.

Record CleanupTask : Type := MkCleanup { cl_pubkey : bytes; cl_commit_id : Z }.

Inductive TransactionSendError : Type :=
| CompileError
| SignerError
| ClientError (e : MagicBlockRpcClientError).

Inductive BufferExecutionError : Type :=
| AccountAlreadyInitializedError (e : TransactionError)
| SendFailed (e : TransactionSendError).

(** [impl From<MagicBlockRpcClientError> for BufferExecutionError] *)
Definition BufferExecutionError_from (value : MagicBlockRpcClientError) : BufferExecutionError := SendFailed (ClientError value).

Section delivery.
Context `{C : Crypto} `{R : Runtime} `{Rz : Resize} `{BC : !Borsh Chunks} `{BI : !Borsh CommittorInstruction}.
(** [dlp_api::diff::compute_diff] *)
Context (compute_diff : bytes -> bytes -> bytes).

(** ** instruction_builder *)

(** [Instruction::new_with_borsh] *)
Definition new_with_borsh (ix : CommittorInstruction) (accounts : list AccountMeta) : SolInstruction :=
  {| ix_program_id := committor_id; ix_accounts := accounts; ix_data := to_vec ix |}.

Definition create_init_ix (authority pubkey : bytes) (chunks_account_size buffer_account_size commit_id chunk_count chunk_size : Z)
    : may_panic (SolInstruction * bytes * bytes) :=
  '(chunks_pda, chunks_bump) ← prefix_pda CHUNKS_SEED authority pubkey (le_bytes 8 commit_id);
  '(buffer_pda, buffer_bump) ← prefix_pda BUFFER_SEED authority pubkey (le_bytes 8 commit_id);
  let ix := IxInit pubkey chunks_account_size buffer_account_size commit_id chunks_bump buffer_bump chunk_count chunk_size in
  let accounts := [MkMeta authority true true; MkMeta chunks_pda false true; MkMeta buffer_pda false true;
                   MkMeta system_program_id false false] in
  Ok (new_with_borsh ix accounts, chunks_pda, buffer_pda).

Definition create_realloc_buffer_ix (authority pubkey : bytes) (buffer_account_size commit_id invocation_count : Z)
    : may_panic SolInstruction :=
  '(buffer_pda, buffer_bump) ← prefix_pda BUFFER_SEED authority pubkey (le_bytes 8 commit_id);
  let ix := IxReallocBuffer pubkey buffer_account_size commit_id buffer_bump invocation_count in
  Ok (new_with_borsh ix [MkMeta authority true true; MkMeta buffer_pda false true]).

(** [Iterator::map] and [collect] with a function that may panic. *)
Fixpoint map_panic {A B} (f : A -> may_panic B) (l : list A) : may_panic (list B) :=
  match l with
  | [] => Ok []
  | a :: l => b ← f a; rest ← map_panic f l; Ok (b :: rest)
  end.

Definition create_realloc_buffer_ixs_to_add_remaining (authority pubkey : bytes) (buffer_account_size commit_id remaining_size : Z)
    : may_panic (list SolInstruction) :=
  remaining_invocation_count ← div_ceil remaining_size MAX_ACCOUNT_ALLOC_PER_INSTRUCTION_SIZE;
  map_panic (fun i => create_realloc_buffer_ix authority pubkey buffer_account_size commit_id (wrap16 i))
    (seqZ 1 remaining_invocation_count).

Definition create_realloc_buffer_ixs (authority pubkey : bytes) (buffer_account_size commit_id : Z)
    : may_panic (list SolInstruction) :=
  if buffer_account_size <=? MAX_ACCOUNT_ALLOC_PER_INSTRUCTION_SIZE then Ok []
  else
    let remaining_size := buffer_account_size - MAX_ACCOUNT_ALLOC_PER_INSTRUCTION_SIZE in
    create_realloc_buffer_ixs_to_add_remaining authority pubkey buffer_account_size commit_id remaining_size.

Definition create_write_ix (authority pubkey : bytes) (offset : Z) (data_chunk : bytes) (commit_id : Z)
    : may_panic SolInstruction :=
  '(chunks_pda, chunks_bump) ← prefix_pda CHUNKS_SEED authority pubkey (le_bytes 8 commit_id);
  '(buffer_pda, buffer_bump) ← prefix_pda BUFFER_SEED authority pubkey (le_bytes 8 commit_id);
  let ix := IxWrite pubkey commit_id chunks_bump buffer_bump offset data_chunk in
  Ok (new_with_borsh ix [MkMeta authority true true; MkMeta chunks_pda false true; MkMeta buffer_pda false true]).

Definition create_close_ix (authority pubkey : bytes) (commit_id : Z) : may_panic SolInstruction :=
  '(chunks_pda, chunks_bump) ← prefix_pda CHUNKS_SEED authority pubkey (le_bytes 8 commit_id);
  '(buffer_pda, buffer_bump) ← prefix_pda BUFFER_SEED authority pubkey (le_bytes 8 commit_id);
  let ix := IxClose pubkey commit_id chunks_bump buffer_bump in
  Ok (new_with_borsh ix [MkMeta authority true true; MkMeta chunks_pda false true; MkMeta buffer_pda false true]).

(** ** commit_stage_task.rs *)

(** [from_commit], and [from_commit_finalize], whose body is the same. *)
Definition from_commit (task : CommitTask) : may_panic (option PreparationTask) :=
  let prepare buffer_data :=
    chunks ← Chunks_from_data_length (Z.of_nat (length buffer_data)) MAX_WRITE_CHUNK_SIZE;
    Ok (Some {| pr_commit_id := ct_commit_id task; pr_pubkey := ct_pubkey task; pr_chunks := chunks;
                pr_buffer_data := buffer_data |}) in
  match ct_delivery task with
  | StateInArgs | DiffInArgs _ => Ok None
  | StateInBuffer _ => prepare (ct_data task)
  | DiffInBuffer base_account _ => prepare (compute_diff base_account (ct_data task))
  end.

Definition init_instruction (self : PreparationTask) (authority : bytes) : may_panic SolInstruction :=
  let chunks_account_size := Z.of_nat (length (to_vec (pr_chunks self))) in
  let buffer_account_size := Z.of_nat (length (pr_buffer_data self)) in
  '(instruction, _, _) ← create_init_ix authority (pr_pubkey self) chunks_account_size buffer_account_size (pr_commit_id self)
                           (ch_count (pr_chunks self)) (ch_chunk_size (pr_chunks self));
  Ok instruction.

Definition realloc_instructions (self : PreparationTask) (authority : bytes) : may_panic (list SolInstruction) :=
  create_realloc_buffer_ixs authority (pr_pubkey self) (Z.of_nat (length (pr_buffer_data self))) (pr_commit_id self).

Definition write_instructions (self : PreparationTask) (authority : bytes) : may_panic (list SolInstruction) :=
  chunks_iter ← ChangesetChunks_iter (MkChangesetChunks (ch_chunk_size (pr_chunks self)) (pr_chunks self)) (pr_buffer_data self);
  chunks ← chunks_collect (Datatypes.S (Z.to_nat (it_chunk_count chunks_iter))) chunks_iter;
  map_panic (fun chunk => create_write_ix authority (pr_pubkey self) (cc_offset chunk) (cc_data_chunk chunk) (pr_commit_id self))
    chunks.

Definition cleanup_task (self : PreparationTask) : CleanupTask :=
  {| cl_pubkey := pr_pubkey self; cl_commit_id := pr_commit_id self |}.

(** [PreparationTask::done], on the flag of the task. *)
Definition preparation_done (task : CommitTask) : CommitTask :=
  {| ct_commit_id := ct_commit_id task; ct_pubkey := ct_pubkey task; ct_data := ct_data task;
     ct_delivery := match ct_delivery task with
                    | StateInBuffer _ => StateInBuffer true
                    | DiffInBuffer base_account _ => DiffInBuffer base_account true
                    | delivery => delivery
                    end |}.

(** [CleanupTask::from_commit] *)
Definition cleanup_from_commit (task : CommitTask) : option CleanupTask :=
  match ct_delivery task with
  | StateInBuffer true | DiffInBuffer _ true => Some {| cl_pubkey := ct_pubkey task; cl_commit_id := ct_commit_id task |}
  | _ => None
  end.

Definition cleanup_instruction (self : CleanupTask) (authority : bytes) : may_panic SolInstruction :=
  create_close_ix authority (cl_pubkey self) (cl_commit_id self).

(** ** The base chain *)

(** The instructions of a transaction run in order, and none of them counts if one fails. *)
Fixpoint run_instructions (ixs : list SolInstruction) (L : ledger) : result ProgramError ledger :=
  match ixs with
  | [] => Ok L
  | ix :: ixs =>
      '(_, L) ← committor_process (ix_program_id ix) (infos_of ix) (ix_data ix) L;
      run_instructions ixs L
  end.

(** Accounts without lamports are dropped at the end of a transaction. *)
Definition drop_unfunded (L : ledger) : ledger := filter (fun ka : bytes * account => a_lamports ka.2 <> 0) L.

Definition run_transaction (ixs : list SolInstruction) (L : ledger) : result ProgramError ledger :=
  L ← run_instructions ixs L; Ok (drop_unfunded L).

(** ** delivery_preparator.rs *)

(** Whether a message compiles and can be signed, and what the network does. *)
Context (compiles signs : list SolInstruction -> bytes -> bool) (N : Network).
(** The order in which a [HashSet] of indexes is read. *)
Context (hash_order : list Z -> list Z).

(** [IntentTransactionErrorMapper::try_map] *)
Definition intent_try_map (error : TransactionError) : result TransactionError BufferExecutionError :=
  match error with
  | InstructionFailed (FromProgram AccountAlreadyInitialized) => Ok (AccountAlreadyInitializedError error)
  | err => Err err
  end.

(** [BufferErrorMapper::map] and [BufferErrorMapper::decide_flow] *)
Definition buffer_map (error : TransactionSendError) : BufferExecutionError :=
  match error with
  | ClientError err => map_magicblock_client_error intent_try_map BufferExecutionError_from err
  | err => SendFailed err
  end.

Definition buffer_decide_flow (err : BufferExecutionError) : option Z :=
  match err with
  | SendFailed (ClientError err) => decide_rpc_error_flow err
  | _ => None
  end.

Definition try_send_ixs (instructions : list SolInstruction) : async (result TransactionSendError MagicBlockSendTransactionOutcome) :=
  latest_block_hash ←? (blockhash ← get_latest_blockhash; Return (map_err ClientError blockhash));
  _ ←? Return (ensure (compiles instructions latest_block_hash) CompileError);
  _ ←? Return (ensure (signs instructions latest_block_hash) SignerError);
  outcome ← send_transaction (MkTransaction latest_block_hash instructions) ensure_committed;
  Return (map_err ClientError outcome).

Definition send_ixs_with_retry (instructions : list SolInstruction) (max_attempts : nat) : async (result BufferExecutionError unit) :=
  send_transaction_with_retries max_attempts (try_send_ixs instructions) ClientError buffer_map buffer_decide_flow
    (fun i => bool_decide (max_attempts <= i)%nat) 0.

(** An attempt waits four times at most, and one turn more takes its result. *)
Definition turns_of (futs max_attempts : nat) : nat := Datatypes.S (futs * Datatypes.S (4 * max_attempts)).

(** [slice::chunks] and [slice::chunks_mut]; at most one batch per element. *)
Fixpoint batches {A} (turns size : nat) (l : list A) : list (list A) :=
  match turns, l with
  | Datatypes.S turns, _ :: _ => take size l :: batches turns size (drop size l)
  | _, _ => []
  end.

(** A panic of the client ends the preparation. *)
Definition or_stop {A B : Type} (r : may_panic A) (w : world) (k : A -> result BufferExecutionError B * world)
    : result BufferExecutionError B * world :=
  match r with Ok a => k a | _ => (Panic, w) end.

(** [?] on a step of the preparation. *)
Definition and_then {A B : Type} (r : result BufferExecutionError A * world) (k : A -> world -> result BufferExecutionError B * world)
    : result BufferExecutionError B * world :=
  match r with
  | (Ok a, w) => k a w
  | (Err e, w) => (Err e, w)
  | (Panic, w) => (Panic, w)
  end.

(** The loop over batches, each of which is sent in parallel. *)
Fixpoint send_batches (txs : list (list (list SolInstruction))) (w : world) : result BufferExecutionError unit * world :=
  match txs with
  | [] => (Ok tt, w)
  | batch :: txs =>
      and_then (try_join_all run_transaction N (turns_of (length batch) 5) (map (fun ixs => send_ixs_with_retry ixs 5) batch) w)
        (fun _ w => send_batches txs w)
  end.

Definition parallel (txs : list (list SolInstruction)) : list (list (list SolInstruction)) :=
  batches (length txs) MAX_PARALLEL_BUFFER_SENDS txs.

Definition initialize_buffer_account (authority : bytes) (task : PreparationTask) (w : world)
    : result BufferExecutionError unit * world :=
  or_stop (init_instruction task authority) w (fun init =>
  or_stop (realloc_instructions task authority) w (fun reallocs =>
  or_stop (expect (chunk_realloc_ixs reallocs (Some init) !! 0%nat)) w (fun first =>
  and_then (run_async run_transaction N (send_ixs_with_retry first 5) w) (fun _ w =>
  send_batches (parallel (drop 1 (chunk_realloc_ixs reallocs (Some init)))) w)))).

Definition write_missing_chunks (chunks : Chunks) (write_instructions : list SolInstruction) (w : world)
    : result BufferExecutionError unit * world :=
  or_stop (get_missing_chunks chunks) w (fun missing_chunks =>
  or_stop (map_panic (fun missing_index => instruction ← expect (write_instructions !! Z.to_nat missing_index); Ok [instruction])
             (hash_order missing_chunks)) w (fun chunks_write_instructions =>
  send_batches (parallel chunks_write_instructions) w)).

Definition write_buffer_with_retries (authority : bytes) (task : PreparationTask) (w : world)
    : result BufferExecutionError unit * world :=
  or_stop (write_instructions task authority) w (fun write_instructions =>
  write_missing_chunks (pr_chunks task) write_instructions w).

(** The task is returned with its flag set. *)
Definition prepare_task (authority : bytes) (task : CommitTask) (w : world)
    : result BufferExecutionError CommitTask * world :=
  or_stop (from_commit task) w (fun preparation_task =>
  match preparation_task with
  | None => (Ok task, w)
  | Some preparation_task =>
      and_then (initialize_buffer_account authority preparation_task w) (fun _ w =>
      and_then (write_buffer_with_retries authority preparation_task w) (fun _ w =>
      (Ok (preparation_done task), w)))
  end).

(** [CleanupTask::max_tx_fit_count_with_budget] *)
Definition max_tx_fit_count_with_budget : nat := 8.

(** [Iterator::try_for_each] over results: the first error. *)
Fixpoint first_error {E : Type} (results : list (result E unit)) : result E unit :=
  match results with
  | [] => Ok tt
  | Ok _ :: results => first_error results
  | failed :: _ => failed
  end.

Definition cleanup_buffers (authority : bytes) (cleanup_tasks : list CleanupTask) (w : world)
    : result BufferExecutionError unit * world :=
  match cleanup_tasks with
  | [] => (Ok tt, w)
  | _ =>
      or_stop (map_panic (map_panic (fun task => cleanup_instruction task authority))
                 (batches (length cleanup_tasks) max_tx_fit_count_with_budget cleanup_tasks)) w (fun instructions =>
      let close_futs := map (fun ixs => send_ixs_with_retry ixs 1) instructions in
      let '(results, w) := join_all run_transaction N (turns_of (length close_futs) 1) close_futs w in
      or_stop results w (fun results => (first_error results, w)))
  end.

Definition prepare_task_handling_errors (authority : bytes) (task : CommitTask) (w : world)
    : result BufferExecutionError CommitTask * world :=
  match prepare_task authority task w with
  | (Err (AccountAlreadyInitializedError _), w) =>
      or_stop (from_commit task) w (fun preparation_task =>
      match preparation_task with
      | None => (Ok task, w)
      | Some preparation_task =>
          and_then (cleanup_buffers authority [cleanup_task preparation_task] w) (fun _ w =>
          prepare_task authority task (invalidate_cached_blockhash w))
      end)
  | res => res
  end.
End delivery.
