(* ===== verification/Sending.v ===== *)
(** * How the delivery preparator sends

    What [send_ixs_with_retry] returns on any network, and on one that answers in time; the batches
    that are sent in parallel. *)
From stdpp Require Import strings.
From S2P Require Import Prelude Constants Crypto Receipt Slashing Accounts Evidence Runtime Processor Solvency Payouts Court Chunks Committor RpcClient RpcInv Delivery.

(** What the client makes of a transaction's status. *)
Definition verdict (v : option TransactionError) : result BufferExecutionError unit :=
  match v with
  | None => Ok tt
  | Some e => Err (buffer_map (ClientError (SentTransactionError e)))
  end.

(** The program found an account in use. *)
Definition refused : TransactionError := InstructionFailed (FromProgram AccountAlreadyInitialized).

Section sending.
Context (compiles signs : list SolInstruction -> bytes -> bool).
Context (ixs : list SolInstruction) (T : Transaction -> Prop) (E : expectations).
Context (HT : forall h, ex_hash E h -> T (MkTransaction h ixs)).
(** Where faults are limited, messages compile and the node's errors are retried. *)
Context (limited : bool).
Context (Hcompile : limited = true -> forall h, compiles ixs h = true /\ signs ixs h = true).
Context (Hretry : limited = true -> forall k, ex_kind E k -> is_Some (decide_rpc_native_flow k)).

(** The errors of an attempt whose status was not seen. *)
Definition unanswered (e : TransactionSendError) : Prop :=
  match e with
  | ClientError (SendTransaction k) => ex_kind E k
  | ClientError (GetLatestBlockhash _ | CannotGetTransactionSignatureStatus | CannotConfirmTransactionSignatureStatus) => True
  | CompileError | SignerError => limited = false
  | _ => False
  end.

(** What one attempt shows: a status that was seen, or why there is none. *)
Definition attempted (before : list Transaction) (b : budget) (r : result TransactionSendError MagicBlockSendTransactionOutcome)
    (after : list Transaction) (b' : budget) : Prop :=
  (exists h v, ex_hash E h /\ after = before ++ [MkTransaction h ixs] /\ ex_status E (MkTransaction h ixs) v /\
     (outcome ← r; map_err ClientError (outcome_into_result outcome)) =
       match v with None => Ok tt | Some e => Err (ClientError (SentTransactionError e)) end) \/
  (limited = true -> spends b b') /\ exists e, r = Err e /\ unanswered e.

Lemma try_send_satisfies before b : satisfies T E (attempted before b) before b (try_send_ixs compiles signs ixs).
Proof.
  unfold try_send_ixs, get_latest_blockhash, await_ok. repeat apply satisfies_bind. split_and!; [done| |].
  2: { intros x b' [k ->] Hb. right. split; [done|]. by eexists. }
  intros [k|h] Hh; cbn in Hh; [done|]. cbn [satisfies map_err sent_by]. rewrite app_nil_r.
  assert (limited = false \/ compiles ixs h = true /\ signs ixs h = true) as Hc.
  { destruct limited; [right; auto|by left]. }
  destruct (compiles ixs h); cbn [ensure satisfies mbind async_bind];
    [|destruct Hc as [Hc|[]]; [|done]; right; split; [by rewrite Hc|by eexists]].
  destruct (signs ixs h); cbn [ensure satisfies mbind async_bind];
    [|destruct Hc as [Hc|[]]; [|done]; right; split; [by rewrite Hc|by eexists]]. clear Hc.
  unfold send_transaction, ensure_committed, send_transaction_with_config, wait_for_processed_status, wait_for_confirmed_status, await_ok.
  set (tx := MkTransaction h ixs). repeat apply satisfies_bind. split_and!; [by apply HT| |].
  2: { intros x b' (k & -> & Hk) Hb. right. split; [done|]. by eexists. }
  intros x ->. cbn [satisfies]. repeat apply satisfies_bind. cbn [sent_by]. split_and!; [cbn; set_solver| |].
  2: { intros x b' -> Hb. right. split; [done|]. by eexists. }
  intros [[e|]|] Hv; cbn in Hv; [| |done]; cbn [ok_or satisfies map_err mbind async_bind sent_by]; rewrite app_nil_r.
  { left. by exists h, (Some e). }
  repeat apply satisfies_bind. split_and!; [cbn; set_solver| |].
  2: { intros x b' -> Hb. right. split; [done|]. by eexists. }
  intros [v|] Hv2; cbn in Hv2; [|done]. cbn [ok_or satisfies map_err mbind async_bind sent_by]. rewrite app_nil_r.
  left. exists h, v. split_and!; [done..|]. by destruct v.
Qed.

(** What sending shows, for a number of attempts; with fewer faults than attempts, a status. *)
Definition shown (n : nat) (b : budget) (before : list Transaction) (r : result BufferExecutionError unit) (after : list Transaction)
    (b' : budget) : Prop :=
  match r with
  | Ok _ => exists h, ex_hash E h /\ ex_status E (MkTransaction h ixs) None /\ (n = 1%nat -> after = before ++ [MkTransaction h ixs])
  | Err (AccountAlreadyInitializedError e) =>
      e = refused /\ ((exists h, ex_hash E h /\ ex_status E (MkTransaction h ixs) (Some e)) \/ ex_kind E (KindTransactionError e))
  | Err (SendFailed _) => True
  | Panic => False
  end /\
  (limited = true -> forall k, b = Some k -> (k < n)%nat ->
     exists h v, ex_hash E h /\ ex_status E (MkTransaction h ixs) v /\ r = verdict v).

(** A status is final. *)
Lemma verdict_final e : buffer_decide_flow (buffer_map (ClientError (SentTransactionError e))) = None.
Proof. cbn. destruct (intent_try_map e) as [m| |] eqn:Em; [|done..]. unfold intent_try_map in Em. by repeat case_match; simplify_eq. Qed.

Lemma unanswered_retried e : limited = true -> unanswered e -> is_Some (buffer_decide_flow (buffer_map e)).
Proof.
  intros Hlim. destruct e as [| |c]; cbn; [congruence..|]. destruct c as [| | | |k| | |]; try done.
  intros Hk. pose proof (Hretry Hlim k Hk) as [d Hd]. exists d. by destruct k.
Qed.

Lemma send_satisfies n b before : (0 < n)%nat -> satisfies T E (shown n b before) before b (send_ixs_with_retry compiles signs ixs n).
Proof.
  intros Hn. unfold send_ixs_with_retry.
  assert (forall turns i sent b', (0 < turns)%nat -> n = (i + turns)%nat -> (i = 0%nat -> sent = before) ->
    (limited = true -> forall k, b = Some k -> (k < n)%nat -> exists k', b' = Some k' /\ (k' < turns)%nat) ->
    satisfies T E (shown n b before) sent b' (send_transaction_with_retries turns (try_send_ixs compiles signs ixs) ClientError buffer_map
      buffer_decide_flow (fun i => bool_decide (n <= i)%nat) i)) as Hloop.
  2: { apply Hloop; [done..|]. intros _ k -> Hk. by exists k. }
  intros turns. induction turns as [|turns IH]; intros i sent b' Ht Hi Hs Hbud; [lia|]. cbn [send_transaction_with_retries].
  apply satisfies_bind. eapply satisfies_mono; [|apply try_send_satisfies]. intros r after b2 [(h & v & Hh & Ha & Hv & Hr)|(Hsp & e & -> & He)].
  - rewrite Hr. destruct v as [e|].
    + assert (shown n b before (verdict (Some e)) after b2) as Hsh; [|by rewrite verdict_final].
      split; [|intros _ k _ _; by exists h, (Some e)].
      cbn. destruct (intent_try_map e) as [m| |] eqn:Em; [|done..]. unfold intent_try_map in Em. repeat case_match; simplify_eq.
      split; [done|]. left. by exists h.
    + split; [exists h; split_and!; [done..|]; intros ->; rewrite Ha, Hs by lia; done|]. intros _ k _ _. by exists h, None.
  - cbn [mbind result_bind]. set (mapped := buffer_map e).
    assert ((limited = true -> forall k, b = Some k -> (k < n)%nat -> False) -> shown n b before (Err mapped) after b2) as Hsh.
    { intros Hex. split; [|intros Hlim k Hk Hlt; by destruct (Hex Hlim k Hk Hlt)]. subst mapped. destruct e as [| |c]; [done..|]. destruct c; try done. cbn.
      destruct (try_map_client_error _ _) as [m| |] eqn:Em; [|done..]. unfold try_map_client_error, intent_try_map in Em.
      repeat (case_match; simplify_eq); cbn in Em; simplify_eq. by split; [|right]. }
    destruct (buffer_decide_flow mapped) as [d|] eqn:Ed.
    + case_bool_decide as Hstop.
      * apply Hsh. intros Hlim k Hk Hlt. destruct (Hbud Hlim k Hk Hlt) as (k' & -> & Hk'). specialize (Hsp Hlim). destruct b2; [|done]. cbn in Hsp. lia.
      * apply IH; [lia|lia|lia|]. intros Hlim k Hk Hlt. destruct (Hbud Hlim k Hk Hlt) as (k' & -> & Hk'). specialize (Hsp Hlim).
        destruct b2 as [k2|]; [|done]. cbn in Hsp. exists k2. split; [done|lia].
    + apply Hsh. intros Hlim k Hk Hlt. destruct (unanswered_retried e Hlim He) as [d Hd]. subst mapped. congruence.
Qed.

Lemma send_waits n : waits (4 * n) (send_ixs_with_retry compiles signs ixs n).
Proof.
  unfold send_ixs_with_retry. set (stop := fun i => bool_decide (n <= i)%nat). clearbody stop.
  assert (forall i, waits (4 * n) (send_transaction_with_retries n (try_send_ixs compiles signs ixs) ClientError buffer_map buffer_decide_flow stop i))
    as Hloop; [|apply Hloop].
  induction n as [|n IH]; intros i; [done|]. cbn [send_transaction_with_retries].
  replace (4 * Datatypes.S n)%nat with (4 + 4 * n)%nat by lia. apply waits_bind.
  - intros [k|h]; [done|]. cbn. destruct (compiles ixs h), (signs ixs h); try done. intros [k|]; [done|].
    intros [[e|]|]; try done. intros [v|]; done.
  - intros r. destruct (_ ≫= _) as [|e|]; [done| |done]. cbv zeta. destruct (buffer_decide_flow _); [|done]. destruct (stop _); [done|]. apply IH.
Qed.
End sending.

(** ** A network that answers in time *)

(** What a run of the chain leaves: a status, and a ledger. *)
Definition concluded (r : result ProgramError ledger) (L : ledger) : option TransactionError * ledger :=
  match r with
  | Ok L' => (None, L')
  | Err e => (Some (InstructionFailed (FromProgram e)), L)
  | Panic => (Some (InstructionFailed ProgramFailedToComplete), L)
  end.

Section prompt.
Context (execute : list SolInstruction -> ledger -> result ProgramError ledger) (N : Network).
Context (compiles signs : list SolInstruction -> bytes -> bool).

Lemma run_async_bind {A B : Type} (p : async A) (f : A -> async B) w :
  run_async execute N (p ≫= f) w = let '(a, w1) := run_async execute N p w in run_async execute N (f a) w1.
Proof. revert w. induction p as [a|call rest IH]; intros w; [done|]. cbn. destruct (perform _ _ _ _) as [x w1]. apply IH. Qed.

(** A transaction that is sent where nothing else is in flight. *)
Record sent_once (ixs : list SolInstruction) w v w' (h : bytes) : Prop := {
  so_hash : w_blockhash w = Some h \/ mo_blockhash (net_moment N (w_clock w)) = inr h;
  so_flight : w_in_flight w' = w_in_flight w ++ [MkTransaction h ixs];
  so_settled : all_settled w';
  so_later : later w w';
  so_clock : (w_clock w + 3 <= w_clock w' <= w_clock w + 4)%nat;
  so_outcome : status_of (w_statuses w) (MkTransaction h ixs) = None -> (v, w_ledger w') = concluded (execute ixs (w_ledger w)) (w_ledger w);
  so_statuses tx u : status_of (w_statuses w') tx = Some u -> status_of (w_statuses w) tx = Some u \/ tx = MkTransaction h ixs /\ u = v;
}.

Lemma perform_blockhash w : all_settled w -> prompt (net_moment N (w_clock w)) ->
  exists h, perform execute N CallBlockhash w = (inr h, cache_blockhash (tick w) (Some h)) /\
    (w_blockhash w = Some h \/ mo_blockhash (net_moment N (w_clock w)) = inr h).
Proof.
  intros Hs Hp. unfold perform, latest_blockhash. rewrite land_settled by done. cbn [w_blockhash tick].
  destruct (pr_hash _ Hp) as [h Hh]. rewrite Hh. destruct (w_blockhash w) as [h'|] eqn:E; [destruct (mo_cache_fresh _)|]; eauto.
  exists h'. split; [|by left]. f_equal. unfold cache_blockhash, tick. by rewrite <-E.
Qed.

Lemma prompt_run ixs n w : (0 < n)%nat -> (forall h, compiles ixs h = true /\ signs ixs h = true) ->
  (forall t, (w_clock w <= t < w_clock w + 4)%nat -> prompt (net_moment N t)) -> all_settled w ->
  exists h v w', run_async execute N (send_ixs_with_retry compiles signs ixs n) w = (verdict v, w') /\ sent_once ixs w v w' h.
Proof.
  intros Hn Hc Hp Hs. destruct n as [|n]; [lia|]. unfold send_ixs_with_retry. cbn [send_transaction_with_retries].
  rewrite run_async_bind. unfold try_send_ixs at 1, get_latest_blockhash, await_ok. rewrite !run_async_bind. cbn [run_async await].
  destruct (perform_blockhash w Hs) as (h & -> & Hh); [apply Hp; lia|]. cbn [run_async map_err mbind async_bind].
  destruct (Hc h) as [-> ->]. cbn [ensure run_async mbind async_bind]. rewrite run_async_bind. unfold send_transaction, ensure_committed.
  unfold send_transaction_with_config, await_ok. rewrite !run_async_bind. set (w1 := cache_blockhash (tick w) (Some h)).
  assert (all_settled w1) as Hs1 by done. set (tx := MkTransaction h ixs).
  assert (perform execute N (CallSend tx) w1 = (None, put_in_flight (tick w1) tx)) as Hsend.
  { unfold perform. rewrite land_settled by done. rewrite (pr_sent _ (Hp (w_clock w1) ltac:(cbn; lia))). done. }
  cbn [run_async await]. rewrite Hsend. cbn [run_async]. set (w2 := put_in_flight (tick w1) tx).
  unfold wait_for_processed_status. rewrite !run_async_bind. cbn [run_async await].
  set (w3 := tick (process_transaction execute w2 tx)).
  assert (all_settled (process_transaction execute w2 tx)) as Hs3 by (by eapply process_all_settled).
  assert (tx ∈ w_in_flight (process_transaction execute w2 tx)) as Hin.
  { rewrite (lt_flight _ _ (process_lands execute w2 tx)). cbn. set_solver. }
  destruct (Hs3 tx Hin) as [v Hv].
  assert (perform execute N (CallStatus tx) w2 = (Some v, w3)) as Hproc.
  { unfold perform. pose proof (Hp (w_clock w2) ltac:(cbn; lia)) as Hp2.
    rewrite (land_last execute _ w2 (w_in_flight w) tx); [|done|done|apply pr_lands; [done|cbn; rewrite length_app; cbn; lia]].
    rewrite (pr_seen _ Hp2). subst w3. cbn [w_statuses tick]. by rewrite Hv. }
  rewrite Hproc. cbn [run_async ok_or].
  assert (w_clock w3 = S (w_clock w2)) as Hc3 by (subst w3; cbn; by rewrite (lt_clock _ _ (process_lands execute w2 tx))).
  assert (forall w', w_ledger w' = w_ledger w3 -> w_statuses w' = w_statuses w3 -> w_in_flight w' = w_in_flight w3 ->
    (w_clock w3 <= w_clock w' <= S (w_clock w3))%nat -> sent_once ixs w v w' h) as Hdone.
  { intros w' E1 E2 E3 E5. pose proof (process_lands execute w2 tx) as [Hl1 Hl2 Hl3 Hl4]. split; [done|..].
    - rewrite E3. subst w3. cbn. by rewrite Hl2.
    - intros tx'. rewrite E3, E2. apply Hs3.
    - split; [rewrite E2; apply Hl1|]. cbn in *. lia.
    - cbn in *. lia.
    - rewrite E1. intros Hnew. subst w3. revert Hv. unfold process_transaction. cbn [w_statuses w_ledger w2 w1 put_in_flight tick cache_blockhash].
      fold tx in Hnew. rewrite Hnew. destruct (execute _ _); cbn [w_statuses w_ledger]; rewrite status_of_cons, decide_True by done; by intros [= <-].
    - intros tx' u. rewrite E2. subst w3. revert Hv. unfold process_transaction. cbn [w_statuses w2 w1 put_in_flight tick cache_blockhash].
      destruct (status_of (w_statuses w) tx) as [v0|] eqn:E0; [by left|].
      destruct (execute _ _); cbn [w_statuses w_ledger]; rewrite !status_of_cons, decide_True by done; intros [= <-]; (case_decide as Heq; [intros [= <-]; by right|by left]). }
  exists h, v. destruct v as [e|].
  - exists w3. split; [|apply Hdone; try done; lia]. cbn [run_async map_err mbind async_bind result_bind].
    by rewrite verdict_final.
  - unfold wait_for_confirmed_status. cbn [run_async mbind async_bind]. rewrite !run_async_bind. cbn [run_async await].
    assert (perform execute N (CallStatus tx) w3 = (Some None, tick w3)) as ->.
    { unfold perform. rewrite land_settled by done. rewrite (pr_seen _ (Hp (w_clock w3) ltac:(rewrite Hc3; cbn; lia))).
      cbn [w_statuses tick]. subst w3. cbn [w_statuses tick]. by rewrite Hv. }
    exists (tick w3). split; [done|]. apply Hdone; try done. cbn. lia.
Qed.
End prompt.

(** ** The block hash in use *)

(** The node does not simulate a transaction before it sends it. *)
Definition skips_preflight (N : Network) : Prop := forall t e, mo_sent (net_moment N t) <> Some (KindTransactionError e).

Section in_use.
Context (execute : list SolInstruction -> ledger -> result ProgramError ledger) (N : Network) (Hpre : skips_preflight N).
Context (compiles signs : list SolInstruction -> bytes -> bool) (ixs : list SolInstruction).

(** What is in flight was sent with hashes the node answered by then. *)
Definition hashes_by (t : nat) w : Prop := forall tx, tx ∈ w_in_flight w -> exists t', (t' <= t)%nat /\ mo_blockhash (net_moment N t') = inr (tx_blockhash tx).

(** The cached hash is the youngest that is in flight. *)
Definition in_use w : Prop :=
  match w_blockhash w with
  | Some h => exists t, (t < w_clock w)%nat /\ mo_blockhash (net_moment N t) = inr h /\ hashes_by t w
  | None => w_in_flight w = []
  end.

Lemma in_use_later w w' : in_use w -> w_in_flight w' = w_in_flight w -> w_blockhash w' = w_blockhash w -> (w_clock w <= w_clock w')%nat -> in_use w'.
Proof.
  unfold in_use, hashes_by. intros Hw -> -> Hc. destruct (w_blockhash w); [|done]. destruct Hw as (t & Ht & Hh & Hf). exists t. split_and!; [lia|done..].
Qed.

Lemma perform_in_use call w x w' : in_use w -> perform execute N call w = (x, w') ->
  match call with CallSend tx => w_blockhash w = Some (tx_blockhash tx) | _ => True end -> in_use w'.
Proof.
  unfold perform. set (m := net_moment N (w_clock w)). pose proof (land_lands execute (mo_lands m (length (w_in_flight w))) w) as [_ Hf Hh Hc].
  set (w1 := land _ _ w) in *. intros Hw.
  assert (in_use (tick w1)) as Hw1 by (eapply in_use_later; [done..|cbn; lia]).
  destruct call as [|tx|tx]; intros Hrun Hsend; [|injection Hrun as <- <-..]; [| |done].
  - unfold latest_blockhash in Hrun. cbn [w_blockhash tick] in Hrun.
    assert (forall h, mo_blockhash m = inr h -> in_use (cache_blockhash (tick w1) (Some h))) as Hnew.
    { intros h Hm. exists (w_clock w). cbn. split_and!; [lia|done|]. intros tx. cbn. rewrite Hf. unfold in_use in Hw.
      destruct (w_blockhash w); [|rewrite Hw; by intros ?%elem_of_nil]. destruct Hw as (t & Ht & _ & Hb). intros Hin.
      destruct (Hb tx Hin) as (t' & Ht' & Htx). exists t'. split; [lia|done]. }
    repeat case_match; simplify_eq; auto.
  - unfold in_use in *. cbn in *. rewrite Hh, Hsend in Hw1 |- *. destruct Hw1 as (t & Ht & Hm & Hb). exists t. split_and!; [done..|].
    intros tx'. cbn. rewrite elem_of_app, list_elem_of_singleton. intros [Hin| ->]; [by apply Hb|by exists t].
Qed.

(** What an attempt says of its transaction is so, and the hash of that transaction is in use. *)
Definition attempt_true w (e : TransactionSendError) : Prop :=
  match e with
  | ClientError (SentTransactionError e) => exists h, w_blockhash w = Some h /\ status_of (w_statuses w) (MkTransaction h ixs) = Some (Some e)
  | ClientError (RpcClientError _ | SendTransaction (KindTransactionError _)) => False
  | _ => True
  end.

Lemma perform_hash w h w' : perform execute N CallBlockhash w = (inr h, w') -> w_blockhash w' = Some h.
Proof. unfold perform, latest_blockhash. intros Hrun. repeat case_match; simplify_eq; done. Qed.

Lemma perform_keeps_hash call w x w' : perform execute N call w = (x, w') -> call <> CallBlockhash -> w_blockhash w' = w_blockhash w.
Proof.
  unfold perform. pose proof (land_lands execute (mo_lands (net_moment N (w_clock w)) (length (w_in_flight w))) w) as [_ _ Hh _].
  destruct call; [done|intros [= <- <-] _; done..].
Qed.

Lemma perform_status tx w v w' : perform execute N (CallStatus tx) w = (Some v, w') -> status_of (w_statuses w') tx = Some v.
Proof. unfold perform. intros [= Hs <-]. by destruct (mo_seen _). Qed.

Lemma try_send_in_use w r w' : in_use w -> run_async execute N (try_send_ixs compiles signs ixs) w = (r, w') ->
  in_use w' /\ forall e, (outcome ← r; map_err ClientError (outcome_into_result outcome)) = Err e -> attempt_true w' e.
Proof.
  intros Hw. unfold try_send_ixs, get_latest_blockhash, await_ok. cbn -[perform].
  destruct (perform execute N CallBlockhash w) as [[k|h] w1] eqn:E1; pose proof (perform_in_use _ _ _ _ Hw E1 I) as Hw1; cbn -[perform].
  { intros [= <- <-]. split; [done|]. by intros e [= <-]. }
  apply perform_hash in E1. destruct (compiles ixs h); cbn -[perform]; [|intros [= <- <-]; split; [done|by intros e [= <-]]].
  destruct (signs ixs h); cbn -[perform]; [|intros [= <- <-]; split; [done|by intros e [= <-]]]. set (tx := MkTransaction h ixs).
  destruct (perform execute N (CallSend tx) w1) as [sent w2] eqn:E2. pose proof (perform_in_use _ _ _ _ Hw1 E2 E1) as Hw2.
  pose proof (perform_keeps_hash _ _ _ _ E2 ltac:(done)) as Hh2. destruct sent as [k|]; cbn -[perform].
  { intros [= <- <-]. split; [done|]. intros e [= <-]. destruct k; try done. injection E2 as Hk _. by destruct (Hpre _ _ Hk). }
  destruct (perform execute N (CallStatus tx) w2) as [v w3] eqn:E3. pose proof (perform_in_use _ _ _ _ Hw2 E3 I) as Hw3.
  pose proof (perform_keeps_hash _ _ _ _ E3 ltac:(done)) as Hh3. destruct v as [[e|]|]; cbn -[perform]; [..|by intros [= <- <-]; split; [|intros e [= <-]]].
  { intros [= <- <-]. split; [done|]. intros e' [= <-]. exists h. split; [congruence|by apply perform_status in E3]. }
  destruct (perform execute N (CallStatus tx) w3) as [v w4] eqn:E4. pose proof (perform_in_use _ _ _ _ Hw3 E4 I) as Hw4.
  pose proof (perform_keeps_hash _ _ _ _ E4 ltac:(done)) as Hh4. destruct v as [v|]; cbn -[perform]; [|by intros [= <- <-]; split; [|intros e [= <-]]].
  intros [= <- <-]. split; [done|]. apply perform_status in E4. destruct v as [e|]; cbn -[perform]; [|done]. intros e' [= <-]. exists h. split; [congruence|done].
Qed.

Lemma send_in_use n w r w' : in_use w -> run_async execute N (send_ixs_with_retry compiles signs ixs n) w = (r, w') ->
  in_use w' /\ forall e, r = Err (AccountAlreadyInitializedError e) ->
    exists h, w_blockhash w' = Some h /\ status_of (w_statuses w') (MkTransaction h ixs) = Some (Some refused).
Proof.
  unfold send_ixs_with_retry. set (stop := fun i => bool_decide (n <= i)%nat). clearbody stop. generalize 0%nat as i.
  revert w. induction n as [|n IH]; intros w i Hw; cbn [send_transaction_with_retries]; [by intros [= <- <-]|]. rewrite run_async_bind.
  destruct (run_async execute N (try_send_ixs compiles signs ixs) w) as [r1 w1] eqn:E1.
  destruct (try_send_in_use w r1 w1 Hw E1) as [Hw1 Htrue]. destruct (_ ≫= _) as [[]|e|]; [by intros [= <- <-]| |by intros [= <- <-]].
  specialize (Htrue e eq_refl). cbv zeta.
  assert (in_use w1 /\ forall e0, (Err (buffer_map e) : result _ unit) = Err (AccountAlreadyInitializedError e0) ->
    exists h, w_blockhash w1 = Some h /\ status_of (w_statuses w1) (MkTransaction h ixs) = Some (Some refused)) as Hdone.
  { split; [done|]. intros e0 [= He]. destruct e as [| |c]; try done. destruct c as [| | | |k| | |t]; try done; [by destruct k|].
    cbn in He. unfold intent_try_map in He. repeat case_match; simplify_eq. done. }
  destruct (buffer_decide_flow _); [|by intros [= <- <-]]. destruct (stop _); [by intros [= <- <-]|]. by apply IH.
Qed.
End in_use.

(** ** Batches *)

Section batches.
Context `{C : Crypto} `{R : Runtime} `{Rz : Resize} `{BC : !Borsh Chunks} `{BI : !Borsh CommittorInstruction}.
Context (compiles signs : list SolInstruction -> bytes -> bool) (N : Network) (Hpre : skips_preflight N).
Context (inv : ledger -> statuses -> Prop) (T : Transaction -> Prop) (Hst : stable run_transaction inv T).
(** Whether the network answers in time from now on, but for four moments, and what the node then
    answers is retried. *)
Context (timely : bool) (from : nat) (faults : list nat).
Context (Hcompile : timely = true -> forall ixs h, compiles ixs h = true /\ signs ixs h = true).
Context (Hretry : timely = true -> forall t k, mo_sent (net_moment N t) = Some k -> is_Some (decide_rpc_native_flow k)).
Context (Hfaults : timely = true -> affords N faults (Some 4%nat) from).

Definition expected (st : statuses) : expectations := {|
  ex_hash _ := True;
  ex_kind k := (forall e, k <> KindTransactionError e) /\ (timely = true -> is_Some (decide_rpc_native_flow k));
  ex_status tx v := status_of st tx = Some v |}.

Definition batch_shown (st : statuses) (txs : list (list SolInstruction)) (r : result BufferExecutionError unit) : Prop :=
  match r with
  | Ok _ => forall ixs, ixs ∈ txs -> exists h, status_of st (MkTransaction h ixs) = Some None
  | Err (AccountAlreadyInitializedError e) => exists ixs h, ixs ∈ txs /\ status_of st (MkTransaction h ixs) = Some (Some e)
  | Err (SendFailed _) => True
  | Panic => False
  end /\
  (timely = true -> (forall ixs h v, ixs ∈ txs -> status_of st (MkTransaction h ixs) = Some v -> v = None) -> r = Ok tt).

Lemma batch_run batch w r w' : phase inv T w -> (from <= w_clock w)%nat -> (forall ixs h, ixs ∈ batch -> T (MkTransaction h ixs)) ->
  try_join_all run_transaction N (turns_of (length batch) 5) (map (fun ixs => send_ixs_with_retry compiles signs ixs 5) batch) w = (r, w') ->
  phase inv T w' /\ later w w' /\ batch_shown (w_statuses w') batch r.
Proof.
  intros Hw Hfrom HT Hrun. pose proof (try_join_all_later _ _ _ _ _ _ _ Hrun) as Hl. set (E := expected (w_statuses w')).
  set (b := if timely then Some 4%nat else None).
  assert (affords N faults b (w_clock w)) as Haf.
  { subst b. destruct timely; [|done]. eapply affords_mono; [done|auto]. }
  destruct (try_join_all_spec run_transaction N faults inv T E (map (fun ixs => shown ixs E timely 5 b []) batch) (replicate (length batch) 20%nat)
    (turns_of (length batch) 5) (map (fun ixs => send_ixs_with_retry compiles signs ixs 5) batch) w r w') as (Hw' & _ & Hr); try done.
  - apply Forall2_fmap_2. apply Forall_Forall2_diag, Forall_forall. intros ixs Hin. exists [], b.
    split_and!; [|intros tx Htx; by apply elem_of_nil in Htx|done]. apply send_satisfies; [by auto..|by intros Ht k [_ Hk]; auto|lia].
  - apply Forall2_fmap_r. apply Forall2_same_length_lookup_2; [by rewrite length_replicate|].
    intros i n ixs Hn Hi. apply lookup_replicate in Hn as [-> _]. apply (send_waits compiles signs ixs 5).
  - unfold turns_of. assert (forall m, sum_list (Datatypes.S <$> replicate m 20%nat) = (m * 21)%nat) as ->; [|lia].
    intros m. induction m as [|m IH]; [done|]. change (21 + sum_list (Datatypes.S <$> replicate m 20%nat) = 21 + m * 21)%nat. lia.
  - split; cbn; try done. intros t k Hk. split; [intros e ->; by eapply Hpre|]. intros Ht. by eapply Hretry.
  - split_and!; [done..|]. unfold batch_shown. destruct r as [u|e|].
    + rewrite Forall_map, Forall_forall in Hr. split; [|by destruct u].
      intros ixs Hin. destruct (Hr ixs Hin) as (s & b' & (h & _ & Hs & _) & _). by exists h.
    + destruct Hr as (Q & s & b' & HQ & Hs). apply list_elem_of_fmap in HQ as (ixs & -> & Hin). destruct Hs as [Hs Hp]. split.
      * destruct e as [e|e]; [|done]. destruct Hs as [_ [(h & _ & Hs)|Hs]]; [by exists ixs, h|]. by destruct (proj1 Hs e).
      * intros Ht Hall. destruct (Hp Ht 4%nat) as (h & v & _ & Hv & Heq); [subst b; by rewrite Ht|lia|]. rewrite (Hall ixs h v Hin Hv) in Heq. done.
    + destruct Hr as (Q & s & b' & HQ & Hs). apply list_elem_of_fmap in HQ as (ixs & -> & Hin). by destruct Hs.
Qed.

Lemma send_batches_run bs w r w' : phase inv T w -> (from <= w_clock w)%nat -> (forall ixs h, ixs ∈ concat bs -> T (MkTransaction h ixs)) ->
  send_batches compiles signs N bs w = (r, w') ->
  phase inv T w' /\ later w w' /\ batch_shown (w_statuses w') (concat bs) r.
Proof.
  revert w. induction bs as [|batch bs IH]; intros w Hw Hfrom HT; cbn [send_batches concat].
  { intros [= <- <-]. split_and!; [done..|]. split; [|done]. intros ixs Hin. by apply elem_of_nil in Hin. }
  destruct (try_join_all _ _ _ _ _) as [r1 w1] eqn:E1.
  destruct (batch_run batch w r1 w1) as (Hw1 & Hl1 & Hr1); [done|done| |done|].
  { intros ixs h Hin. apply HT. cbn. set_solver. }
  destruct r1 as [[]|e|]; cbn [and_then].
  - intros Hrun. destruct Hr1 as [Hr1 _]. destruct (IH w1) as (Hw2 & Hl2 & Hr2); [done|destruct Hl1; lia| |done|].
    { intros ixs h Hin. apply HT. cbn. set_solver. }
    split_and!; [done|by etrans|]. unfold batch_shown in *. destruct Hr2 as [Hr2 Hp2]. split.
    + destruct r as [u|[e|]|]; [..|done].
      * intros ixs [Hin|Hin]%elem_of_app; [|auto]. destruct (Hr1 ixs Hin) as [h Hh]. exists h. by apply Hl2.
      * destruct Hr2 as (ixs & h & Hin & Hh). exists ixs, h. set_solver.
      * done.
    + intros Ht Hall. apply Hp2; [done|]. intros ixs h v Hin. apply Hall. set_solver.
  - intros [= <- <-]. split_and!; [done..|]. destruct Hr1 as [Hr1 Hp1]. split.
    + destruct e; [|done]. destruct Hr1 as (ixs & h & Hin & Hh). exists ixs, h. set_solver.
    + intros Ht Hall. apply Hp1; [done|]. intros ixs h v Hin. apply Hall. set_solver.
  - by destruct Hr1.
Qed.
End batches.
