(* ===== verification/DeliveryInv.v ===== *)
(** * What a delivery does to the base chain

    Each instruction of a delivery, run on a ledger where the buffer is in the state the preparation
    leaves it in: initialization, growth, writes in any order, and closing. *)
From stdpp Require Import strings.
From S2P Require Import Prelude Constants Crypto Receipt Slashing Accounts Evidence Runtime Processor Solvency Payouts Court Chunks Committor RpcClient RpcInv Delivery.

Lemma prog_bind_run {A B : Type} (m : prog A) (f : A -> prog B) L a L1 : m L = Ok (a, L1) -> (m ≫= f) L = f a L1.
Proof. intros H. unfold mbind, prog_bind. by rewrite H. Qed.

Lemma lift_run {A B : Type} (r : result ProgramError A) (f : A -> prog B) L a : r = Ok a -> (lift r ≫= f) L = f a L.
Proof. intros ->. done. Qed.

Lemma lift_err {A B : Type} (r : result ProgramError A) (f : A -> prog B) L e : r = Err e -> (lift r ≫= f) L = Err e.
Proof. intros ->. done. Qed.

(** ** Batches *)

Lemma map_panic_run {A B : Type} (f : A -> may_panic B) (g : A -> B) l : (forall a, a ∈ l -> f a = Ok (g a)) ->
  map_panic f l = Ok (map g l).
Proof.
  induction l as [|a l IH]; intros Hf; [done|]. cbn [map_panic map]. rewrite Hf by set_solver. cbn [mbind result_bind].
  rewrite IH by set_solver. done.
Qed.

Lemma concat_batches {A : Type} turns size (l : list A) : (0 < size)%nat -> (length l <= turns)%nat -> concat (batches turns size l) = l.
Proof.
  intros Hs. revert l. induction turns as [|turns IH]; intros l Hl; [by destruct l; [|cbn in Hl; lia]|].
  destruct l as [|x l]; [done|]. cbn [batches concat]. rewrite IH; [apply take_drop|]. rewrite length_drop. cbn in *. lia.
Qed.

Lemma concat_parallel txs : concat (parallel txs) = txs.
Proof. apply concat_batches; [|done]. unfold MAX_PARALLEL_BUFFER_SENDS. lia. Qed.

(** ** The parties of a delivery *)

Record parties `{R : Runtime} (authority pubkey : bytes) (commit_id : Z) (kc kb : bytes) (bc bb : byte) : Prop := {
  pa_chunks : find_program_address (prefix_seeds CHUNKS_SEED authority pubkey (le_bytes 8 commit_id)) committor_id = Some (kc, bc);
  pa_buffer : find_program_address (prefix_seeds BUFFER_SEED authority pubkey (le_bytes 8 commit_id)) committor_id = Some (kb, bb);
  pa_distinct : kc <> kb;
  pa_authority : authority <> kc /\ authority <> kb;
  pa_pubkey : length pubkey = 32%nat;
  pa_commit_id : is_u64 commit_id;
}.

Section delivery_inv.
Context `{C : Crypto} `{R : Runtime} `{RL : !RuntimeLaws R} `{Rz : Resize} `{RZ : !ResizeLaws Rz}.
Context `{BC : !Borsh Chunks} `{BI : !Borsh CommittorInstruction} `{BL : !BorshLaws BC BI}.
Context (authority pubkey : bytes) (commit_id : Z) (kc kb : bytes) (bc bb : byte).
Context (Hp : parties authority pubkey commit_id kc kb bc bb).
Implicit Types (L : ledger) (ch : Chunks) (data buffer : bytes).

Lemma chunks_pda_run : prefix_pda CHUNKS_SEED authority pubkey (le_bytes 8 commit_id) = Ok (kc, bc).
Proof. unfold prefix_pda. by rewrite (pa_chunks _ _ _ _ _ _ _ Hp). Qed.
Lemma buffer_pda_run : prefix_pda BUFFER_SEED authority pubkey (le_bytes 8 commit_id) = Ok (kb, bb).
Proof. unfold prefix_pda. by rewrite (pa_buffer _ _ _ _ _ _ _ Hp). Qed.

Lemma verified_chunks s s' :
  verified_seeds_and_pda CHUNKS_SEED (MkInfo authority s) pubkey (MkInfo kc s') (le_bytes 8 commit_id) bc =
  Ok (prefix_seeds_with_bump CHUNKS_SEED authority pubkey (le_bytes 8 commit_id) bc).
Proof.
  destruct (find_create _ _ _ _ (pa_chunks _ _ _ _ _ _ _ Hp)) as [Hc _].
  unfold verified_seeds_and_pda, try_prefix_pda_with_bump, assert_keys_equal, prefix_seeds_with_bump. cbn [ai_key].
  change (prefix_seeds CHUNKS_SEED authority pubkey (le_bytes 8 commit_id) ++ [[bc]])
    with [committor_id; CHUNKS_SEED; authority; pubkey; le_bytes 8 commit_id; [bc]] in Hc.
  rewrite Hc. cbn. by rewrite bool_decide_true.
Qed.

Lemma verified_buffer s s' :
  verified_seeds_and_pda BUFFER_SEED (MkInfo authority s) pubkey (MkInfo kb s') (le_bytes 8 commit_id) bb =
  Ok (prefix_seeds_with_bump BUFFER_SEED authority pubkey (le_bytes 8 commit_id) bb).
Proof.
  destruct (find_create _ _ _ _ (pa_buffer _ _ _ _ _ _ _ Hp)) as [Hc _].
  unfold verified_seeds_and_pda, try_prefix_pda_with_bump, assert_keys_equal, prefix_seeds_with_bump. cbn [ai_key].
  change (prefix_seeds BUFFER_SEED authority pubkey (le_bytes 8 commit_id) ++ [[bb]])
    with [committor_id; BUFFER_SEED; authority; pubkey; le_bytes 8 commit_id; [bb]] in Hc.
  rewrite Hc. cbn. by rewrite bool_decide_true.
Qed.

Lemma verified_both s s' s'' :
  verify_seeds_and_pdas (MkInfo authority s) (MkInfo kc s') (MkInfo kb s'') pubkey commit_id bc bb = Ok tt.
Proof. unfold verify_seeds_and_pdas. cbv zeta. rewrite verified_chunks. cbn. by rewrite verified_buffer. Qed.

(** An instruction the client built is read back by the program. *)
Lemma process_built ix accounts L : ix_fits ix ->
  committor_process (ix_program_id (new_with_borsh ix accounts)) (infos_of (new_with_borsh ix accounts))
    (ix_data (new_with_borsh ix accounts)) L =
  match ix with
  | IxInit pubkey chunks_account_size buffer_account_size commit_id chunks_bump buffer_bump chunk_count chunk_size =>
      process_init committor_id (infos_of (new_with_borsh ix accounts)) pubkey chunks_account_size buffer_account_size commit_id
        chunks_bump buffer_bump chunk_count chunk_size L
  | IxReallocBuffer pubkey buffer_account_size commit_id buffer_bump invocation_count =>
      process_realloc_buffer (infos_of (new_with_borsh ix accounts)) pubkey buffer_account_size commit_id buffer_bump
        invocation_count L
  | IxWrite pubkey commit_id chunks_bump buffer_bump offset data_chunk =>
      process_write (infos_of (new_with_borsh ix accounts)) pubkey offset data_chunk commit_id chunks_bump buffer_bump L
  | IxClose pubkey commit_id chunks_bump buffer_bump =>
      process_close (infos_of (new_with_borsh ix accounts)) pubkey commit_id chunks_bump buffer_bump L
  end.
Proof.
  intros Hf. unfold committor_process. rewrite (lift_run _ _ _ tt) by (unfold assert_program_id; by rewrite bool_decide_true).
  cbn [ix_data new_with_borsh]. rewrite ix_roundtrip by done. cbn [ok_or]. rewrite (lift_run _ _ _ ix) by done. by destruct ix.
Qed.

(** ** The state of a delivery *)

(** The two accounts hold a tracker and a buffer. *)
Record holds_buffer L ch buffer : Prop := {
  hb_chunks : data_at L kc = to_vec ch;
  hb_buffer : data_at L kb = buffer;
  hb_funded : 0 < lamports_at L kc /\ 0 < lamports_at L kb;
}.

Lemma account_at_drop_unfunded L k : account_at (drop_unfunded L) k = if decide (lamports_at L k = 0) then empty_account else account_at L k.
Proof.
  unfold drop_unfunded, lamports_at, account_at. rewrite map_lookup_filter.
  destruct (L !! k) as [a|]; cbn [default option_bind mbind]; [|by case_decide]. cbn.
  destruct (decide (a_lamports a = 0)) as [H0|H0].
  - rewrite option_guard_False by (cbn; tauto). done.
  - rewrite option_guard_True by done. done.
Qed.

Lemma data_at_drop_unfunded L k : 0 < lamports_at L k -> data_at (drop_unfunded L) k = data_at L k.
Proof. intros H. unfold data_at. rewrite account_at_drop_unfunded, decide_False by lia. done. Qed.
Lemma lamports_at_drop_unfunded L k : lamports_at (drop_unfunded L) k = lamports_at L k.
Proof. unfold lamports_at at 1. rewrite account_at_drop_unfunded. case_decide as H; [by rewrite H|done]. Qed.

Lemma holds_buffer_drop_unfunded L ch buffer : holds_buffer L ch buffer -> holds_buffer (drop_unfunded L) ch buffer.
Proof. intros [Hc Hb [H1 H2]]. split; [by rewrite data_at_drop_unfunded..|by rewrite !lamports_at_drop_unfunded]. Qed.

(** ** Growing the buffer *)

Lemma realloc_run L ch m size count : holds_buffer L ch (zeros m) -> is_u64 size -> Z.of_nat m + 10240 < 2 ^ 64 ->
  exists L', process_realloc_buffer [MkInfo authority true; MkInfo kb false] pubkey size commit_id bb count L = Ok (tt, L') /\
    holds_buffer L' ch (zeros (Nat.max m (Z.to_nat (Z.min size (Z.of_nat m + 10240))))).
Proof.
  intros [Hc Hb Hf] Hs Hm. unfold process_realloc_buffer. rewrite (prog_bind_run _ _ _ (zeros m) L) by (unfold borrow_data; cbn; by rewrite Hb).
  cbv zeta. unfold zeros, fill. rewrite length_replicate. destruct (Z.leb_spec size (Z.of_nat m)) as [Hle|Hgt].
  - exists L. split; [done|]. split; [done| |done]. rewrite Hb. unfold zeros, fill. f_equal. unfold is_u64 in *. lia.
  - rewrite (lift_run _ _ _ tt) by done. rewrite (lift_run _ _ _ _ (verified_buffer true false)).
    unfold MAX_ACCOUNT_ALLOC_PER_INSTRUCTION_SIZE. rewrite wrap64_small by (unfold is_u64 in *; lia).
    unfold resize_account. cbn [ai_key]. rewrite Hb, resize_within by lia. cbn [mbind result_bind].
    eexists. split; [done|]. pose proof (pa_distinct _ _ _ _ _ _ _ Hp). split.
    + rewrite data_at_set, decide_False by done. done.
    + rewrite data_at_set, decide_True by done. unfold zeros, fill. rewrite Nat.max_r by lia. rewrite resize_ge by (rewrite length_replicate; lia).
      rewrite length_replicate, <-replicate_add. f_equal. lia.
    + by rewrite !lamports_at_set_data.
Qed.

(** ** Writing a chunk *)

Lemma write_run L ch buffer data c n i : covers data c n -> n * c < 2 ^ 32 -> holds_buffer L ch buffer -> filled ch buffer data c n ->
  Z.of_nat (length (ch_bits ch)) < 2 ^ 32 -> 0 <= i < n ->
  exists L' ch' buffer', process_write [MkInfo authority true; MkInfo kc false; MkInfo kb false] pubkey (cc_offset (chunk_of data c i))
      (cc_data_chunk (chunk_of data c i)) commit_id bc bb L = Ok (tt, L') /\
    holds_buffer L' ch' buffer' /\ filled ch' buffer' data c n /\ length (ch_bits ch') = length (ch_bits ch) /\
    forall j, 0 <= j -> delivered ch' j = delivered ch j || (i =? j).
Proof.
  intros Hcov Hoff [Hc Hb Hf] Hfill Hbits Hi.
  destruct (filled_write data c n Hcov ch buffer i Hfill Hi) as (ch' & Hset & Hfill' & Hlen & Hfit & Hd). cbv zeta in *.
  pose proof (chunk_bounds data c n Hcov i Hi) as [Hb1 Hb2]. pose proof (pa_distinct _ _ _ _ _ _ _ Hp) as Hne.
  set (chunk := chunk_of data c i) in *. set (from := Z.to_nat (cc_offset chunk)) in *.
  assert (cc_offset chunk = i * c) as Eo by done.
  assert (length buffer = length data) as Elen by apply Hfill.
  assert (Z.of_nat (length data) < 2 ^ 32) as Hdata by (destruct Hcov as [? ? ? ?]; lia).
  exists (set_data (set_data L kb (copy_range buffer from (from + length (cc_data_chunk chunk)) (cc_data_chunk chunk))) kc (to_vec ch')), ch',
    (copy_range buffer from (from + length (cc_data_chunk chunk)) (cc_data_chunk chunk)).
  split; [|split; [split|done]].
  2: by rewrite data_at_set, decide_True.
  2: rewrite data_at_set, decide_False by done; by rewrite data_at_set, decide_True.
  2: by rewrite !lamports_at_set_data.
  unfold process_write. rewrite (lift_run _ _ _ tt) by done. rewrite (lift_run _ _ _ _ (verified_both true false false)).
  rewrite (prog_bind_run _ _ _ buffer L) by (unfold borrow_data; cbn; by rewrite Hb). cbv zeta.
  rewrite wrap32_small by (unfold is_u32; lia).
  rewrite (lift_run _ _ _ (cc_offset chunk + Z.of_nat (length (cc_data_chunk chunk))))
    by (rewrite (proj2 (Z.ltb_lt _ _)) by lia; done).
  rewrite (lift_run _ _ _ tt) by (rewrite (proj2 (Z.ltb_ge _ _)) by lia; done). fold from.
  rewrite (lift_run _ _ _ tt) by (by rewrite decide_True).
  rewrite (prog_bind_run _ _ _ tt (set_data L kb (copy_range buffer from (from + length (cc_data_chunk chunk)) (cc_data_chunk chunk)))).
  2: { unfold copy_from_slice. cbn [ai_key]. rewrite Hb, decide_True; [done|]. rewrite length_copy_range by lia. done. }
  cbn [ai_key]. rewrite (lift_run _ _ _ tt) by (by rewrite decide_False).
  rewrite (prog_bind_run _ _ _ (to_vec ch) _) by (unfold borrow_data; cbn [ai_key]; rewrite data_at_set, decide_False by congruence; by rewrite Hc).
  pose proof (cv_size _ _ _ Hcov). pose proof (cv_count _ _ _ Hcov). pose proof (fl_count _ _ _ _ _ Hfill). pose proof (fl_size _ _ _ _ _ Hfill).
  rewrite (lift_run _ _ _ ch) by (rewrite chunks_roundtrip by (unfold is_u64; nia); done).
  rewrite (lift_run _ _ _ ch') by (by rewrite Hset).
  unfold copy_from_slice. cbn [ai_key]. rewrite data_at_set, (decide_False (P := kb = kc)) by congruence.
  rewrite Hc, !chunks_length, decide_True by congruence. done.
Qed.
(** ** Initializing *)

(** The authority can pay, and nobody has used the addresses. *)
Record payer L : Prop := {
  py_owner : owner_at L authority = system_program_id;
  py_data : data_at L authority = [];
}.

Lemma create_run L to seeds n space : payer L -> authority <> to -> account_at L to = empty_account ->
  create_program_address seeds committor_id = Some to -> Z.of_nat space <= 10240 -> 0 <= n <= lamports_at L authority ->
  create_account committor_id (MkInfo authority true) (MkInfo to false) (MkInfo system_program_id false) n space seeds L =
  Ok (tt, <[to := MkAccount n (zeros space) committor_id]> (set_lamports L authority (lamports_at L authority - n))).
Proof.
  intros [Ho Hd] Hne He Hs Hsp Hn. unfold create_account.
  assert (can_pay L (MkInfo authority true) n) as Hpay by done.
  destruct (create_account_complete committor_id L (MkInfo authority true) (MkInfo to false) (MkInfo system_program_id false)
    n space committor_id seeds Hpay Hne He eq_refl Hs Hsp) as [L' HL']. rewrite HL'. cbn [mbind result_bind].
  by destruct (create_account_sound _ _ _ _ _ _ _ _ _ _ HL') as (_ & _ & _ & ->).
Qed.

Lemma create_address prefix k bump :
  find_program_address (prefix_seeds prefix authority pubkey (le_bytes 8 commit_id)) committor_id = Some (k, bump) ->
  create_program_address (prefix_seeds_with_bump prefix authority pubkey (le_bytes 8 commit_id) bump) committor_id = Some k.
Proof. intros Hf. by destruct (find_create _ _ _ _ Hf) as [Hc _]. Qed.

Lemma init_run L ch size f : payer L -> account_at L kc = empty_account -> account_at L kb = empty_account ->
  Rent_minimum_balance = Some f -> (forall m, 0 < f m) -> is_u64 size -> f (length (to_vec ch)) + f (Z.to_nat size) <= lamports_at L authority ->
  Z.of_nat (length (to_vec ch)) <= 10240 -> Chunks_new (ch_count ch) (ch_chunk_size ch) = Ok ch ->
  exists L', process_init committor_id
      [MkInfo authority true; MkInfo kc false; MkInfo kb false; MkInfo system_program_id false]
      pubkey (Z.of_nat (length (to_vec ch))) size commit_id bc bb (ch_count ch) (ch_chunk_size ch) L = Ok (tt, L') /\
    holds_buffer L' ch (zeros (Z.to_nat (Z.min size 10240))).
Proof.
  intros Hpay Hkc Hkb Hrent Hpos Hsize Hfunds Hspace Hnew. pose proof (pa_distinct _ _ _ _ _ _ _ Hp) as Hne.
  destruct (pa_authority _ _ _ _ _ _ _ Hp) as [Ha1 Ha2]. pose proof (Hpos (length (to_vec ch))). pose proof (Hpos (Z.to_nat size)).
  unfold process_init. rewrite (lift_run _ _ _ tt) by done. cbv zeta.
  rewrite (lift_run _ _ _ _ (verified_chunks true false)), (lift_run _ _ _ _ (verified_buffer true false)).
  assert (forall k, account_at L k = empty_account -> assert_account_unallocated (MkInfo k false) L = Ok (tt, L)) as Hun.
  { intros k He. unfold assert_account_unallocated. rewrite (prog_bind_run _ _ _ [] L); [done|].
    unfold borrow_data, data_at. cbn [ai_key]. by rewrite He. }
  rewrite (prog_bind_run _ _ _ tt L) by auto. rewrite (prog_bind_run _ _ _ tt L) by auto.
  assert (forall m, rent_minimum m = lift (Ok (f m))) as Hrm by (intros m; unfold rent_minimum; by rewrite Hrent).
  rewrite !Hrm, (lift_run _ _ _ (f (length (to_vec ch)))) by (by rewrite Nat2Z.id).
  rewrite Nat2Z.id. erewrite prog_bind_run by
    (apply create_run; [done..|exact (create_address _ _ _ (pa_chunks _ _ _ _ _ _ _ Hp))|done|lia]).
  rewrite (lift_run _ _ _ (f (Z.to_nat size))) by done.
  unfold MAX_ACCOUNT_ALLOC_PER_INSTRUCTION_SIZE. unfold is_u64 in *. set (L1 := <[kc := _]> _).
  assert (account_at L1 kb = empty_account) as Hkb1.
  { subst L1. rewrite account_at_insert, decide_False by done. unfold set_lamports. by rewrite account_at_insert, decide_False. }
  assert (lamports_at L1 authority = lamports_at L authority - f (length (to_vec ch))) as Hl1.
  { subst L1. rewrite lamports_at_insert, decide_False by congruence. by rewrite lamports_at_set, decide_True. }
  assert (payer L1) as Hpay1.
  { destruct Hpay as [Ho Hd]. subst L1. split; rewrite ?owner_at_insert, ?data_at_insert, decide_False by congruence.
    - by rewrite owner_at_set_lamports.
    - by rewrite data_at_set_lamports. }
  erewrite prog_bind_run by (apply create_run; [done..|exact (create_address _ _ _ (pa_buffer _ _ _ _ _ _ _ Hp))|lia|lia]).
  rewrite Hnew. rewrite (lift_run _ _ _ ch) by done. set (L2 := <[kb := _]> _).
  assert (account_at L2 kc = MkAccount (f (length (to_vec ch))) (zeros (length (to_vec ch))) committor_id) as Hkc2.
  { subst L2. rewrite account_at_insert, decide_False by congruence. unfold set_lamports.
    rewrite account_at_insert, decide_False by congruence. subst L1. by rewrite account_at_insert, decide_True. }
  assert (data_at L2 kc = zeros (length (to_vec ch))) as Hd2 by (unfold data_at; by rewrite Hkc2).
  unfold copy_from_slice. cbn [ai_key]. rewrite decide_True by (rewrite Hd2; apply length_replicate). eexists. split; [done|]. split.
  - by rewrite data_at_set, decide_True.
  - rewrite data_at_set, decide_False by done. subst L2. by rewrite data_at_insert, decide_True.
  - rewrite !lamports_at_set_data. unfold lamports_at at 1. rewrite Hkc2. cbn [a_lamports]. subst L2.
    rewrite lamports_at_insert, decide_True by done. cbn [a_lamports]. done.
Qed.

(** Whatever the ledger was, an initialization that succeeds leaves an empty tracker and buffer. *)
Lemma init_sound L L' ch size : is_u64 size -> Chunks_new (ch_count ch) (ch_chunk_size ch) = Ok ch ->
  process_init committor_id [MkInfo authority true; MkInfo kc false; MkInfo kb false; MkInfo system_program_id false]
    pubkey (Z.of_nat (length (to_vec ch))) size commit_id bc bb (ch_count ch) (ch_chunk_size ch) L = Ok (tt, L') ->
  holds_buffer L' ch (zeros (Z.to_nat (Z.min size 10240))).
Proof.
  intros Hsize Hnew. pose proof (pa_distinct _ _ _ _ _ _ _ Hp) as Hne. destruct (pa_authority _ _ _ _ _ _ _ Hp) as [Ha1 Ha2].
  destruct rent_available as (f & Hrent & Hpos). unfold process_init. rewrite (lift_run _ _ _ tt) by done. cbv zeta.
  rewrite (lift_run _ _ _ _ (verified_chunks true false)), (lift_run _ _ _ _ (verified_buffer true false)).
  intros ([] & L1 & H1 & Hrun)%prog_bind_Ok. apply prog_bind_Ok in Hrun as ([] & L2 & H2 & Hrun).
  assert (forall m, rent_minimum m = lift (Ok (f m))) as Hrm by (intros m; unfold rent_minimum; by rewrite Hrent).
  rewrite !Hrm, (lift_run _ _ _ _ eq_refl) in Hrun. apply prog_bind_Ok in Hrun as ([] & L3 & H3 & Hrun).
  rewrite (lift_run _ _ _ _ eq_refl) in Hrun. apply prog_bind_Ok in Hrun as ([] & L4 & H4 & Hrun).
  rewrite Hnew, (lift_run _ _ _ ch) in Hrun by done.
  assert (forall L to seeds n space L', create_account committor_id (MkInfo authority true) (MkInfo to false) (MkInfo system_program_id false)
    n space seeds L = Ok (tt, L') -> L' = <[to := MkAccount n (zeros space) committor_id]> (set_lamports L authority (lamports_at L authority - n))) as Hcreate.
  { intros L0 to seeds n space L0'. unfold create_account. destruct (invoke_create_account _ _ _ _ _ _ _ _ _) as [L5| |] eqn:E; cbn; [|done..].
    intros [= <-]. by apply create_account_sound in E as (_ & _ & _ & ->). }
  apply Hcreate in H3, H4. revert Hrun. unfold copy_from_slice. case_decide; [|done]. intros [= <-]. cbn [ai_key]. subst L4 L3.
  rewrite Nat2Z.id. unfold MAX_ACCOUNT_ALLOC_PER_INSTRUCTION_SIZE. split.
  - by rewrite data_at_set, decide_True.
  - rewrite data_at_set, decide_False by done. by rewrite data_at_insert, decide_True.
  - rewrite !lamports_at_set_data, !lamports_at_insert, lamports_at_set, lamports_at_insert. repeat case_decide; simplify_eq; cbn [a_lamports]; (split; apply Hpos || done).
Qed.

(** An address in use is refused. *)
Lemma init_refused L chunks_size size count chunk_size : data_at L kc <> [] \/ data_at L kb <> [] ->
  process_init committor_id [MkInfo authority true; MkInfo kc false; MkInfo kb false; MkInfo system_program_id false]
    pubkey chunks_size size commit_id bc bb count chunk_size L = Err AccountAlreadyInitialized.
Proof.
  intros Hd. unfold process_init. rewrite (lift_run _ _ _ tt) by done. cbv zeta.
  rewrite (lift_run _ _ _ _ (verified_chunks true false)), (lift_run _ _ _ _ (verified_buffer true false)).
  assert (forall k, assert_account_unallocated (MkInfo k false) L =
    if decide (data_at L k = []) then Ok (tt, L) else Err AccountAlreadyInitialized) as Hun.
  { intros k. unfold assert_account_unallocated. rewrite (prog_bind_run _ _ _ (data_at L k) L) by done.
    by destruct (data_at L k). }
  unfold mbind at 1, prog_bind at 1. rewrite Hun. case_decide; [|done].
  unfold mbind at 1, prog_bind at 1. rewrite Hun. rewrite decide_False by tauto. done.
Qed.

(** ** Closing *)

Lemma close_run L : lamports_at L authority + lamports_at L kc + lamports_at L kb < 2 ^ 64 ->
  0 <= lamports_at L kc -> 0 <= lamports_at L kb ->
  exists L', process_close [MkInfo authority true; MkInfo kc false; MkInfo kb false] pubkey commit_id bc bb L = Ok (tt, L') /\
    lamports_at L' kc = 0 /\ lamports_at L' kb = 0 /\
    lamports_at L' authority = lamports_at L authority + lamports_at L kc + lamports_at L kb /\
    owner_at L' authority = owner_at L authority /\ data_at L' authority = data_at L authority.
Proof.
  intros Hsum H1 H2. pose proof (pa_distinct _ _ _ _ _ _ _ Hp) as Hne. destruct (pa_authority _ _ _ _ _ _ _ Hp) as [Ha1 Ha2].
  unfold process_close. rewrite (lift_run _ _ _ tt) by done. rewrite (lift_run _ _ _ _ (verified_both true false false)).
  rewrite (prog_bind_run _ _ _ (data_at L kc) L) by done. rewrite (prog_bind_run _ _ _ (data_at L kb) L) by done.
  assert (forall k L m, authority <> k -> lamports_at L authority + lamports_at L k < 2 ^ 64 ->
    close_and_refund_authority (MkInfo authority true) (MkInfo k false) m L =
    Ok (tt, set_lamports (set_lamports (set_data L k []) authority (lamports_at L authority + lamports_at L k)) k 0)) as Hclose.
  { clear L Hsum H1 H2. intros k L m Hk Hs. unfold close_and_refund_authority.
    rewrite (prog_bind_run _ _ _ tt (set_data L k [])).
    2: { unfold resize_account. rewrite resize_within by lia. cbn [mbind result_bind ai_key]. by rewrite resize_0. }
    rewrite (prog_bind_run _ _ _ (lamports_at L authority) (set_data L k [])) by (unfold get_lamports; cbn; by rewrite lamports_at_set_data).
    rewrite (prog_bind_run _ _ _ (lamports_at L k) (set_data L k [])) by (unfold get_lamports; cbn; by rewrite lamports_at_set_data).
    unfold checked_add. rewrite decide_True by done. done. }
  erewrite prog_bind_run by (apply Hclose; [done|lia]). rewrite Hclose.
  2: done.
  2: { rewrite !lamports_at_set, !lamports_at_set_data. repeat case_decide; simplify_eq; lia. }
  eexists. split; [done|]. autorewrite with ledger. repeat case_decide; simplify_eq; split_and!; try done; lia.
Qed.
(** ** Transactions *)

Lemma infos_built (ix : CommittorInstruction) accounts :
  infos_of (new_with_borsh ix accounts) = map (fun m => MkInfo (m_pubkey m) (m_is_signer m)) accounts.
Proof. done. Qed.

(** The instructions of a delivery, for a buffer of [size] bytes. *)
Definition realloc_ix (size count : Z) : SolInstruction :=
  new_with_borsh (IxReallocBuffer pubkey size commit_id bb count) [MkMeta authority true true; MkMeta kb false true].
Definition write_ix data c (i : Z) : SolInstruction :=
  new_with_borsh (IxWrite pubkey commit_id bc bb (cc_offset (chunk_of data c i)) (cc_data_chunk (chunk_of data c i)))
    [MkMeta authority true true; MkMeta kc false true; MkMeta kb false true].

Definition is_realloc (size : Z) (ix : SolInstruction) : Prop := exists count, 0 <= count < 2 ^ 16 /\ ix = realloc_ix size count.

(** How large the buffer is after so many instructions that grow it. *)
Definition grown (size : Z) (k : nat) : nat := Z.to_nat (Z.min size (10240 * (1 + Z.of_nat k))).

(** A size the buffer may have by then. *)
Definition grown_to (size : Z) (k m : nat) : Prop := (grown size k <= m)%nat /\ Z.of_nat m <= size.

Lemma run_reallocs size ixs L ch k m : 0 <= size < 2 ^ 63 -> Forall (is_realloc size) ixs ->
  holds_buffer L ch (zeros m) -> grown_to size k m ->
  exists L' m', run_instructions ixs L = Ok L' /\ holds_buffer L' ch (zeros m') /\ grown_to size (k + length ixs) m'.
Proof.
  intros Hs Hixs. revert L k m. induction Hixs as [|ix ixs (count & Hc & ->) _ IH]; intros L k m Hl Hm.
  - exists L, m. by rewrite Nat.add_0_r.
  - cbn [length]. pose proof (pa_pubkey _ _ _ _ _ _ _ Hp). pose proof (pa_commit_id _ _ _ _ _ _ _ Hp). destruct Hm as [Hm1 Hm2].
    destruct (realloc_run L ch m size count Hl) as (L1 & Hrun & Hl1); [unfold is_u64; lia|lia|].
    cbn [run_instructions]. unfold realloc_ix. rewrite process_built by (unfold ix_fits, is_u64 in *; split_and!; done || lia). rewrite infos_built.
    cbn [map m_pubkey m_is_signer]. rewrite Hrun. cbn [mbind result_bind].
    replace (k + S (length ixs))%nat with (S k + length ixs)%nat by lia. eapply IH; [done|].
    unfold grown_to, grown in *. lia.
Qed.

(** A buffer that is large enough is left alone. *)
Lemma run_reallocs_full size ixs L : 0 <= size < 2 ^ 63 -> Forall (is_realloc size) ixs -> size <= Z.of_nat (length (data_at L kb)) ->
  run_instructions ixs L = Ok L.
Proof.
  intros Hs Hixs Hl. induction Hixs as [|ix ixs (count & Hc & ->) _ IH]; [done|]. pose proof (pa_pubkey _ _ _ _ _ _ _ Hp). pose proof (pa_commit_id _ _ _ _ _ _ _ Hp).
  cbn [run_instructions]. unfold realloc_ix. rewrite process_built by (unfold ix_fits, is_u64 in *; split_and!; done || lia). rewrite infos_built.
  cbn [map m_pubkey m_is_signer]. unfold process_realloc_buffer. rewrite (prog_bind_run _ _ _ (data_at L kb) L) by done.
  cbv zeta. rewrite (proj2 (Z.leb_le _ _)) by done. cbn [mret prog_ret mbind result_bind]. exact IH.
Qed.

Lemma write_fits data c n i : covers data c n -> 0 <= i < n ->
  ix_fits (IxWrite pubkey commit_id bc bb (cc_offset (chunk_of data c i)) (cc_data_chunk (chunk_of data c i))).
Proof.
  intros Hcov Hi. pose proof (cv_offsets _ _ _ Hcov). pose proof (chunk_bounds data c n Hcov i Hi) as [Hb1 Hb2]. pose proof (cv_size _ _ _ Hcov).
  refine (conj _ (conj _ (conj _ _))); [apply Hp|apply Hp|change (0 <= i * c < 2 ^ 32); lia|]. cbn [chunk_of cc_data_chunk].
  pose proof (cv_length _ _ _ Hcov). rewrite length_slice by lia. lia.
Qed.

(** A buffer that is filled, with the bits of its tracker. *)
Record filling L data c n ch : Prop := {
  fi_holds : holds_buffer L ch (data_at L kb);
  fi_filled : filled ch (data_at L kb) data c n;
  fi_bits : Z.of_nat (length (ch_bits ch)) < 2 ^ 32;
}.

Lemma write_transaction L data c n ch i : covers data c n -> filling L data c n ch -> 0 <= i < n ->
  exists L' ch', run_transaction [write_ix data c i] L = Ok L' /\ filling L' data c n ch' /\
    forall j, 0 <= j -> delivered ch' j = delivered ch j || (i =? j).
Proof.
  intros Hcov [Hl Hf Hb] Hi. pose proof (cv_offsets _ _ _ Hcov) as Hoff.
  destruct (write_run L ch (data_at L kb) data c n i) as (L1 & ch1 & buffer1 & Hrun & Hl1 & Hf1 & Hb1 & Hd1); [done..|].
  exists (drop_unfunded L1), ch1. pose proof (holds_buffer_drop_unfunded L1 ch1 buffer1 Hl1) as Hl2. pose proof (hb_buffer _ _ _ Hl2) as Hk. split_and!; [|split|done].
  - unfold run_transaction. cbn [run_instructions]. unfold write_ix. rewrite process_built by (by apply (write_fits data c n)). rewrite infos_built.
    cbn [map m_pubkey m_is_signer]. rewrite Hrun. done.
  - by rewrite Hk.
  - by rewrite Hk.
  - lia.
Qed.

(** The transactions of a list, one after the other. *)
Fixpoint run_transactions (txs : list (list SolInstruction)) L : result ProgramError ledger :=
  match txs with
  | [] => Ok L
  | ixs :: txs => L ← run_transaction ixs L; run_transactions txs L
  end.

Lemma run_writes data c n idxs L ch : covers data c n -> filling L data c n ch -> Forall (fun i => 0 <= i < n) idxs ->
  exists L' ch', run_transactions (map (fun i => [write_ix data c i]) idxs) L = Ok L' /\ filling L' data c n ch' /\
    forall j, 0 <= j -> delivered ch' j = delivered ch j || bool_decide (j ∈ idxs).
Proof.
  intros Hcov Hl His. revert L ch Hl. induction His as [|i idxs Hi _ IH]; intros L ch Hl.
  - exists L, ch. split_and!; try done. intros j _. rewrite bool_decide_false by apply not_elem_of_nil. by rewrite orb_false_r.
  - destruct (write_transaction L data c n ch i Hcov Hl Hi) as (L1 & ch1 & Hrun & Hl1 & Hd1).
    destruct (IH L1 ch1 Hl1) as (L' & ch' & Hrun' & Hl' & Hd'). exists L', ch'. split_and!; [|done|].
    + cbn [map run_transactions]. rewrite Hrun. exact Hrun'.
    + intros j Hj. rewrite Hd', Hd1 by done. rewrite <-orb_assoc. f_equal.
      apply eq_bool_prop_intro. rewrite orb_True, !Is_true_true, Z.eqb_eq, !bool_decide_eq_true. set_solver.
Qed.
End delivery_inv.

(** ** Who may touch a buffer *)

Section authority.
Context `{C : Crypto} `{R : Runtime} `{RL : !RuntimeLaws R} `{Rz : Resize}.
Context `{BC : !Borsh Chunks} `{BI : !Borsh CommittorInstruction}.
Implicit Types (L : ledger) (ks : list bytes) (info : AccountInfo).

(** The addresses of an authority's buffers and trackers. *)
Definition derived_for (authority k : bytes) : Prop :=
  exists prefix pubkey commit_id_slice bump, prefix ∈ [CHUNKS_SEED; BUFFER_SEED] /\
    create_program_address (prefix_seeds_with_bump prefix authority pubkey commit_id_slice bump) committor_id = Some k.

Definition touches_only (ks : list bytes) L L' : Prop := forall k, k ∉ ks -> account_at L' k = account_at L k.

Lemma touches_refl ks L : touches_only ks L L.
Proof. by intros k _. Qed.
Lemma touches_trans ks L1 L2 L3 : touches_only ks L1 L2 -> touches_only ks L2 L3 -> touches_only ks L1 L3.
Proof. intros H12 H23 k Hk. by rewrite H23, H12. Qed.

Lemma touches_insert ks k a L : k ∈ ks -> touches_only ks L (<[k := a]> L).
Proof. intros Hk k' Hk'. rewrite account_at_insert, decide_False; [done|]. by intros ->. Qed.

(** A handler that touches nothing but the accounts of [ks]. *)
Definition confined {A : Type} (ks : list bytes) (m : prog A) : Prop := forall L a L', m L = Ok (a, L') -> touches_only ks L L'.

Lemma confined_bind {A B : Type} ks (m : prog A) (f : A -> prog B) : confined ks m -> (forall a, confined ks (f a)) -> confined ks (m ≫= f).
Proof. intros Hm Hf L b L' (a & L1 & H1 & H2)%prog_bind_Ok. eapply touches_trans; [by eapply Hm|by eapply Hf]. Qed.
Lemma confined_lift {A : Type} ks (r : result ProgramError A) : confined ks (lift r).
Proof. intros L a L'. unfold lift. destruct r; cbn; [intros [= <- <-]; apply touches_refl|done..]. Qed.
Lemma confined_read {A : Type} ks (f : ledger -> A) : confined ks (fun L => Ok (f L, L)).
Proof. intros L a L' [= <- <-]. apply touches_refl. Qed.
Lemma confined_copy ks info src : ai_key info ∈ ks -> confined ks (copy_from_slice info src).
Proof. intros Hk L a L'. unfold copy_from_slice. case_decide; [|done]. intros [= <- <-]. by apply touches_insert. Qed.
Lemma confined_resize ks info original n : ai_key info ∈ ks -> confined ks (resize_account info original n).
Proof. intros Hk L a L'. unfold resize_account. destruct (account_resize _ _ _); cbn; [|done..]. intros [= <- <-]. by apply touches_insert. Qed.
Lemma confined_put ks info n : ai_key info ∈ ks -> confined ks (put_lamports info n).
Proof. intros Hk L a L' [= <- <-]. by apply touches_insert. Qed.
Lemma confined_unallocated ks info : confined ks (assert_account_unallocated info).
Proof. apply confined_bind; [apply confined_read|]. intros d. apply confined_lift. Qed.
Lemma confined_rent ks n : confined ks (rent_minimum n).
Proof. apply confined_lift. Qed.

Lemma confined_create ks from to system n space seeds : ai_key from ∈ ks -> ai_key to ∈ ks ->
  confined ks (create_account committor_id from to system n space seeds).
Proof.
  intros Hf Ht L a L'. unfold create_account. destruct (invoke_create_account _ _ _ _ _ _ _ _ _) eqn:E; cbn; [|done..].
  intros [= <- <-]. apply create_account_sound in E as (_ & _ & _ & ->).
  eapply touches_trans; by apply touches_insert.
Qed.

Ltac confine :=
  repeat first
    [ apply confined_bind; [|intros ?] | apply confined_lift | apply confined_read | apply confined_unallocated | apply confined_rent
    | apply confined_copy; set_solver | apply confined_resize; set_solver | apply confined_put; set_solver
    | apply confined_create; set_solver ].

Lemma confined_close ks authority account original : ai_key authority ∈ ks -> ai_key account ∈ ks ->
  confined ks (close_and_refund_authority authority account original).
Proof.
  intros Ha Hk. unfold close_and_refund_authority. confine.
Qed.

Lemma verified_Ok prefix authority pubkey account commit_id_slice bump seeds : prefix ∈ [CHUNKS_SEED; BUFFER_SEED] ->
  verified_seeds_and_pda prefix authority pubkey account commit_id_slice bump = Ok seeds -> derived_for (ai_key authority) (ai_key account).
Proof.
  intros Hpre. unfold verified_seeds_and_pda, try_prefix_pda_with_bump, assert_keys_equal.
  destruct (create_program_address _ _) as [k|] eqn:E; cbn; [|done]. case_bool_decide as Hk; cbn; [|done].
  intros _. exists prefix, pubkey, commit_id_slice, bump. by rewrite Hk.
Qed.

Lemma verify_both_Ok authority chunks buffer pubkey commit_id b1 b2 :
  verify_seeds_and_pdas authority chunks buffer pubkey commit_id b1 b2 = Ok tt ->
  derived_for (ai_key authority) (ai_key chunks) /\ derived_for (ai_key authority) (ai_key buffer).
Proof.
  unfold verify_seeds_and_pdas. cbv zeta. destruct (verified_seeds_and_pda CHUNKS_SEED _ _ _ _ _) eqn:E1; cbn; [|done..].
  destruct (verified_seeds_and_pda BUFFER_SEED _ _ _ _ _) eqn:E2; cbn; [|done..]. intros _.
  split; eapply verified_Ok; [..|exact E1| |exact E2]; set_solver.
Qed.

(** What an instruction touches: its first account, which signed, and addresses derived for it. *)
Definition authorised (accounts : list AccountInfo) L L' : Prop :=
  touches_only [] L L' \/
  exists info rest, accounts = info :: rest /\ ai_is_signer info = true /\
    exists ks, touches_only ks L L' /\ forall k, k ∈ ks -> k = ai_key info \/ derived_for (ai_key info) k.

Lemma signer_Ok info : assert_is_signer info = Ok tt -> ai_is_signer info = true.
Proof. unfold assert_is_signer. by destruct (ai_is_signer info). Qed.

(** Three accounts of which the first signed and the others are derived for it. *)
Lemma authorised_by info rest chunks buffer L L' : ai_is_signer info = true ->
  derived_for (ai_key info) (ai_key chunks) -> derived_for (ai_key info) (ai_key buffer) ->
  touches_only [ai_key info; ai_key chunks; ai_key buffer] L L' -> authorised (info :: rest) L L'.
Proof.
  intros Hs Hc Hb Ht. right. exists info, rest. split_and!; [done..|]. eexists. split; [exact Ht|]. set_solver.
Qed.

Lemma lift_Ok_inv {A B : Type} (r : result ProgramError A) (f : A -> prog B) L b L' :
  (lift r ≫= f) L = Ok (b, L') -> exists a, r = Ok a /\ f a L = Ok (b, L').
Proof. unfold lift, mbind at 1, prog_bind. destruct r; cbn; [eauto|done..]. Qed.

Lemma init_authorised accounts pubkey s1 s2 commit_id b1 b2 count size L a L' :
  process_init committor_id accounts pubkey s1 s2 commit_id b1 b2 count size L = Ok (a, L') -> authorised accounts L L'.
Proof.
  destruct accounts as [|info [|chunks [|buffer [|system [|]]]]]; try done. cbn [process_init]. unfold process_init.
  intros ([] & Hs%signer_Ok & H)%lift_Ok_inv. cbv zeta in H.
  apply lift_Ok_inv in H as (seeds1 & H1 & H). apply lift_Ok_inv in H as (seeds2 & H2 & H).
  apply verified_Ok in H1; [|set_solver]. apply verified_Ok in H2; [|set_solver].
  apply (authorised_by _ _ chunks buffer); try done. revert L a L' H.
  match goal with |- forall L a L', ?m L = _ -> _ => change (confined [ai_key info; ai_key chunks; ai_key buffer] m) end.
  confine.
Qed.

Lemma realloc_authorised accounts pubkey size commit_id b count L a L' :
  process_realloc_buffer accounts pubkey size commit_id b count L = Ok (a, L') -> authorised accounts L L'.
Proof.
  destruct accounts as [|info [|buffer [|]]]; try done. unfold process_realloc_buffer.
  intros (data & L1 & [= <- <-] & H)%prog_bind_Ok. cbv zeta in H. destruct (size <=? _).
  - injection H as <- <-. left. apply touches_refl.
  - apply lift_Ok_inv in H as ([] & Hs%signer_Ok & H). apply lift_Ok_inv in H as (seeds & H1 & H).
    apply verified_Ok in H1; [|set_solver]. apply (authorised_by _ _ buffer buffer); try done.
    eapply confined_resize; [|exact H]. set_solver.
Qed.

Lemma write_authorised accounts pubkey offset chunk commit_id b1 b2 L a L' :
  process_write accounts pubkey offset chunk commit_id b1 b2 L = Ok (a, L') -> authorised accounts L L'.
Proof.
  destruct accounts as [|info [|chunks [|buffer [|]]]]; try done. unfold process_write.
  intros ([] & Hs%signer_Ok & H)%lift_Ok_inv. apply lift_Ok_inv in H as ([] & [H1 H2]%verify_both_Ok & H).
  apply (authorised_by _ _ chunks buffer); try done. revert L a L' H.
  match goal with |- forall L a L', ?m L = _ -> _ => change (confined [ai_key info; ai_key chunks; ai_key buffer] m) end.
  cbv zeta. confine.
Qed.

Lemma close_authorised accounts pubkey commit_id b1 b2 L a L' :
  process_close accounts pubkey commit_id b1 b2 L = Ok (a, L') -> authorised accounts L L'.
Proof.
  destruct accounts as [|info [|chunks [|buffer [|]]]]; try done. unfold process_close.
  intros ([] & Hs%signer_Ok & H)%lift_Ok_inv. apply lift_Ok_inv in H as ([] & [H1 H2]%verify_both_Ok & H).
  apply (authorised_by _ _ chunks buffer); try done. revert L a L' H.
  match goal with |- forall L a L', ?m L = _ -> _ => change (confined [ai_key info; ai_key chunks; ai_key buffer] m) end.
  repeat (apply confined_bind; [first [apply confined_read|apply confined_close; set_solver]|intros ?]). apply confined_close; set_solver.
Qed.

Lemma process_authorised program_id accounts instruction_data L a L' :
  committor_process program_id accounts instruction_data L = Ok (a, L') -> authorised accounts L L'.
Proof.
  unfold committor_process. intros ([] & Hid & H)%lift_Ok_inv. apply lift_Ok_inv in H as (ix & _ & H).
  assert (program_id = committor_id) as -> by (unfold assert_program_id in Hid; by case_bool_decide).
  destruct ix; [by eapply init_authorised|by eapply realloc_authorised|by eapply write_authorised|by eapply close_authorised].
Qed.
End authority.
