(* ===== verification/Preparation.v ===== *)
(** * A preparation on any network

    The three phases of a preparation, as invariants of the base chain that hold whatever lands and
    in whatever order: until the buffer exists, while it grows, and while it is written. *)
From stdpp Require Import strings.
From S2P Require Import Prelude Constants Crypto Receipt Slashing Accounts Evidence Runtime Processor Solvency Payouts Court Chunks Committor RpcClient RpcInv Delivery Sending DeliveryInv.

(** ** Lists of transactions *)

Lemma length_concat_submseteq {A : Type} (l k : list (list A)) : l ⊆+ k -> (length (concat l) <= length (concat k))%nat.
Proof. intros (m & ->)%submseteq_Permutation. rewrite concat_app, length_app. lia. Qed.

Lemma NoDup_concat {A : Type} (l : list (list A)) : Forall (fun x => x <> []) l -> NoDup (concat l) -> NoDup l.
Proof.
  induction 1 as [|x l Hx _ IH]; [constructor|]. cbn. intros (H1 & H2 & H3)%NoDup_app. constructor; [|auto].
  intros Hin. destruct x as [|a x]; [done|]. apply (H2 a); [by left|]. apply list_elem_of_In, in_concat. exists (a :: x).
  rewrite <-list_elem_of_In. split; [done|by left].
Qed.

(** What a task delivers through a buffer. *)
Definition buffer_data (compute_diff : bytes -> bytes -> bytes) (task : CommitTask) : option bytes :=
  match ct_delivery task with
  | StateInArgs | DiffInArgs _ => None
  | StateInBuffer _ => Some (ct_data task)
  | DiffInBuffer base_account _ => Some (compute_diff base_account (ct_data task))
  end.

(** The tracker of a new buffer. *)
Record fresh_chunks (ch : Chunks) (data : bytes) (n : Z) : Prop := {
  fc_covers : covers data MAX_WRITE_CHUNK_SIZE n;
  fc_wf : chunks_wf ch;
  fc_count : ch_count ch = n;
  fc_size : ch_chunk_size ch = MAX_WRITE_CHUNK_SIZE;
  fc_new : Chunks_new n MAX_WRITE_CHUNK_SIZE = Ok ch;
  fc_bits : Z.of_nat (length (ch_bits ch)) <= 10000;
  fc_none j : delivered ch j = false;
}.

Lemma from_commit_run compute_diff task data : buffer_data compute_diff task = Some data -> Z.of_nat (length data) <= 10485760 ->
  exists ch n, from_commit compute_diff task = Ok (Some (MkPreparation (ct_commit_id task) (ct_pubkey task) ch data)) /\ fresh_chunks ch data n.
Proof.
  intros Hd Hl.
  assert (exists ch n, Chunks_from_data_length (Z.of_nat (length data)) MAX_WRITE_CHUNK_SIZE = Ok ch /\ fresh_chunks ch data n)
    as (ch & n & Hch & Hf).
  { destruct (@div_ceil_run Empty_set (Z.of_nat (length data)) MAX_WRITE_CHUNK_SIZE ltac:(lia) eq_refl) as (n & Hn & Hn0 & Hb).
    change MAX_WRITE_CHUNK_SIZE with 842 in *.
    destruct (Chunks_new_run n 842 ltac:(lia)) as (ch & Hnew & Hwf & Hcount & Hsize & Hbits & Hnone). exists ch, n.
    unfold Chunks_from_data_length. rewrite Hn. cbn [mbind result_bind]. split; [done|].
    split; try done; change MAX_WRITE_CHUNK_SIZE with 842; try done; [split; lia|lia]. }
  exists ch, n. split; [|done]. unfold from_commit, buffer_data in *.
  destruct (ct_delivery task); simplify_eq; by rewrite Hch.
Qed.

(** ** The transactions of a preparation *)

Section preparation.
Context `{C : Crypto} `{R : Runtime} `{RL : !RuntimeLaws R} `{Rz : Resize} `{RZ : !ResizeLaws Rz}.
Context `{BC : !Borsh Chunks} `{BI : !Borsh CommittorInstruction} `{BL : !BorshLaws BC BI}.
Context (authority pubkey : bytes) (commit_id : Z) (kc kb : bytes) (bc bb : byte).
Context (Hp : parties authority pubkey commit_id kc kb bc bb).
Context (data : bytes) (ch : Chunks) (n : Z) (Hfresh : fresh_chunks ch data n) (Hl : Z.of_nat (length data) <= 10485760).
Implicit Types (L : ledger) (st : statuses) (w : world).

Abbreviation size := (Z.of_nat (length data)).
Abbreviation holds := (holds_buffer kc kb).

Definition init_ix : SolInstruction :=
  new_with_borsh (IxInit pubkey (Z.of_nat (length (to_vec ch))) size commit_id bc bb (ch_count ch) (ch_chunk_size ch))
    [MkMeta authority true true; MkMeta kc false true; MkMeta kb false true; MkMeta system_program_id false false].
Definition close_ix : SolInstruction :=
  new_with_borsh (IxClose pubkey commit_id bc bb) [MkMeta authority true true; MkMeta kc false true; MkMeta kb false true].
Definition write_tx (i : Z) : list SolInstruction := [write_ix authority pubkey commit_id kc kb bc bb data MAX_WRITE_CHUNK_SIZE i].

Lemma init_fits : ix_fits (IxInit pubkey (Z.of_nat (length (to_vec ch))) size commit_id bc bb (ch_count ch) (ch_chunk_size ch)).
Proof.
  destruct Hfresh as [Hcov Hwf Hcount Hsize Hnew Hbits Hnone]. pose proof (chunks_length ch) as Hcl. change MAX_WRITE_CHUNK_SIZE with 842 in *.
  refine (conj _ (conj _ (conj _ (conj _ (conj _ _))))); [apply Hp|unfold is_u64; lia|unfold is_u64; lia|apply Hp|
    rewrite Hcount; destruct Hcov; unfold is_u64; lia|rewrite Hsize; lia].
Qed.

(** What a transaction begins with tells its kind. *)
Definition leads (ix : CommittorInstruction) (ixs : list SolInstruction) : Prop :=
  ix_fits ix /\ exists accounts rest, ixs = new_with_borsh ix accounts :: rest.

Lemma to_vec_inj (a b : CommittorInstruction) : ix_fits a -> ix_fits b -> to_vec a = to_vec b -> a = b.
Proof. intros Ha Hb H. apply ix_roundtrip in Ha, Hb. rewrite H in Ha. congruence. Qed.

Lemma leads_inj a b ixs : leads a ixs -> leads b ixs -> a = b.
Proof. intros [Ha (ma & ra & ->)] [Hb (mb & rb & Heq)]. injection Heq as _ Hd _. by apply to_vec_inj. Qed.

Lemma leads_close : leads (IxClose pubkey commit_id bc bb) [close_ix].
Proof. split; [split; apply Hp|]. eexists _, []. reflexivity. Qed.

Lemma leads_write i : 0 <= i < n ->
  leads (IxWrite pubkey commit_id bc bb (cc_offset (chunk_of data MAX_WRITE_CHUNK_SIZE i)) (cc_data_chunk (chunk_of data MAX_WRITE_CHUNK_SIZE i)))
    (write_tx i).
Proof. intros Hi. split; [eapply write_fits; [done|apply Hfresh|done]|]. eexists _, []. reflexivity. Qed.

(** The reallocations the client builds. *)
Record builds (reallocs : list SolInstruction) : Prop := {
  bu_run : realloc_instructions (MkPreparation commit_id pubkey ch data) authority = Ok reallocs;
  bu_all : Forall (is_realloc authority pubkey commit_id kb bb size) reallocs;
  bu_enough : size <= 10240 * (1 + Z.of_nat (length reallocs));
  bu_distinct : NoDup reallocs;
}.

Lemma realloc_fits count : 0 <= count < 2 ^ 16 -> ix_fits (IxReallocBuffer pubkey size commit_id bb count).
Proof. intros Hc. refine (conj _ (conj _ (conj _ _))); [apply Hp|unfold is_u64; lia|apply Hp|done]. Qed.

Lemma realloc_instructions_run : exists reallocs, builds reallocs.
Proof.
  unfold realloc_instructions, create_realloc_buffer_ixs, create_realloc_buffer_ixs_to_add_remaining.
  destruct (Z.leb_spec size 10240) as [Hs|Hs].
  { exists []. split; [|constructor|cbn; lia|constructor]. unfold realloc_instructions, create_realloc_buffer_ixs. cbn [pr_buffer_data].
    unfold MAX_ACCOUNT_ALLOC_PER_INSTRUCTION_SIZE. by rewrite (proj2 (Z.leb_le _ _)). }
  destruct (@div_ceil_run Empty_set (size - 10240) 10240 ltac:(lia) eq_refl) as (m & Hm & Hm0 & Hb).
  exists (map (fun i => realloc_ix authority pubkey commit_id kb bb size (wrap16 i)) (seqZ 1 m)). split.
  - unfold realloc_instructions, create_realloc_buffer_ixs, create_realloc_buffer_ixs_to_add_remaining. cbn [pr_pubkey pr_commit_id pr_buffer_data].
    unfold MAX_ACCOUNT_ALLOC_PER_INSTRUCTION_SIZE. rewrite (proj2 (Z.leb_gt _ _)) by done. rewrite Hm. cbn [mbind result_bind].
    apply map_panic_run. intros i _. unfold create_realloc_buffer_ix. by rewrite (buffer_pda_run _ _ _ _ _ _ _ Hp).
  - apply Forall_map, Forall_forall. intros i _. exists (wrap16 i). split; [apply Z.mod_pos_bound; lia|done].
  - rewrite length_map, length_seqZ. lia.
  - apply NoDup_fmap_2_strong; [|apply NoDup_seqZ]. intros i j Hi Hj [= Hd]. apply elem_of_seqZ in Hi, Hj.
    assert (forall k, 1 <= k < 1 + m -> wrap16 k = k) as Hw by (intros k Hk; unfold wrap16; apply Z.mod_small; lia).
    rewrite !Hw in Hd by lia. apply to_vec_inj in Hd as [= ->]; [done|apply realloc_fits; lia..].
Qed.

Context (reallocs : list SolInstruction) (Hb : builds reallocs).

(** The first transaction initializes and grows the buffer, the others grow it. *)
Definition first_tx : list SolInstruction := init_ix :: take 10 reallocs.
Definition early : nat := length (take 10 reallocs).
Definition growth : list (list SolInstruction) := groups (length reallocs) (drop 10 reallocs).

Lemma leads_first :
  leads (IxInit pubkey (Z.of_nat (length (to_vec ch))) size commit_id bc bb (ch_count ch) (ch_chunk_size ch)) first_tx.
Proof. split; [apply init_fits|]. eexists _, _. reflexivity. Qed.

Lemma growth_concat : concat growth = drop 10 reallocs.
Proof. apply groups_spec. rewrite length_drop. lia. Qed.

Lemma growth_nonempty : Forall (fun g => g <> []) growth.
Proof.
  destruct (groups_spec (length reallocs) (drop 10 reallocs)) as (_ & H & _); [rewrite length_drop; lia|].
  eapply Forall_impl; [exact H|]. by intros g [].
Qed.

Lemma growth_distinct : NoDup growth.
Proof.
  apply NoDup_concat; [apply growth_nonempty|]. rewrite growth_concat. eapply sublist_NoDup; [apply Hb|apply sublist_drop].
Qed.

Lemma growth_reallocs g : g ∈ growth -> Forall (is_realloc authority pubkey commit_id kb bb size) g.
Proof.
  intros Hg. apply Forall_forall. intros ix Hix. eapply Forall_forall; [apply (Forall_drop _ 10), Hb|]. rewrite <-growth_concat.
  apply list_elem_of_In, in_concat. exists g. by rewrite <-!list_elem_of_In.
Qed.

Lemma leads_growth g : g ∈ growth -> exists count, leads (IxReallocBuffer pubkey size commit_id bb count) g.
Proof.
  intros Hg. pose proof (growth_reallocs g Hg) as Hall. pose proof growth_nonempty as Hne. rewrite Forall_forall in Hne.
  destruct Hall as [|ix g (count & Hc & ->) _]; [by destruct (Hne [])|]. exists count. split; [by apply realloc_fits|].
  eexists _, g. reflexivity.
Qed.

Lemma holds_used L c b : holds L c b -> data_at L kc <> [].
Proof. intros [Hc _ _] He. rewrite Hc in He. pose proof (chunks_length c) as Hlen. rewrite He in Hlen. cbn in Hlen. lia. Qed.

Lemma run_first L : run_transaction first_tx L =
  ('(_, L) ← process_init committor_id [MkInfo authority true; MkInfo kc false; MkInfo kb false; MkInfo system_program_id false]
     pubkey (Z.of_nat (length (to_vec ch))) size commit_id bc bb (ch_count ch) (ch_chunk_size ch) L;
   L ← run_instructions (take 10 reallocs) L; Ok (drop_unfunded L)).
Proof.
  unfold run_transaction, first_tx. cbn [run_instructions]. unfold init_ix at 1 2 3. rewrite process_built by apply init_fits.
  rewrite infos_built. cbn [map m_pubkey m_is_signer]. by destruct (process_init _ _ _ _ _ _ _ _ _ _ L) as [[]| |].
Qed.

Lemma size_range : 0 <= size < 2 ^ 63.
Proof. lia. Qed.

(** Whatever the ledger was, the first transaction leaves an empty buffer if it succeeds. *)
Lemma first_grows L : holds L ch (zeros (Z.to_nat (Z.min size 10240))) ->
  exists L1 m, run_instructions (take 10 reallocs) L = Ok L1 /\ holds (drop_unfunded L1) ch (zeros m) /\ grown_to size early m.
Proof.
  intros Hh. destruct (run_reallocs _ _ _ _ _ _ _ Hp size (take 10 reallocs) L ch 0 (Z.to_nat (Z.min size 10240)) size_range)
    as (L2 & m & Hrun & Hh2 & Hm); [by apply Forall_take, Hb|done|unfold grown_to, grown; lia|].
  exists L2, m. split_and!; [done|by apply holds_buffer_drop_unfunded|done].
Qed.

Lemma first_sound L L' : run_transaction first_tx L = Ok L' -> exists m, holds L' ch (zeros m) /\ grown_to size early m.
Proof.
  rewrite run_first. destruct (process_init _ _ _ _ _ _ _ _ _ _ L) as [[[] L1]| |] eqn:E; cbn [mbind result_bind]; [|done..].
  apply (init_sound _ _ _ _ _ _ _ Hp) in E; [|unfold is_u64; lia|destruct Hfresh as [_ _ Hcount Hsize Hnew _ _]; by rewrite Hcount, Hsize].
  destruct (first_grows L1 E) as (L2 & m & -> & Hh & Hm). cbn [mbind result_bind]. intros [= <-]. by exists m.
Qed.

Lemma first_refused L : data_at L kc <> [] \/ data_at L kb <> [] -> run_transaction first_tx L = Err AccountAlreadyInitialized.
Proof. intros Hd. rewrite run_first. by rewrite (init_refused _ _ _ _ _ _ _ Hp). Qed.

Lemma first_complete L f : payer authority L -> account_at L kc = empty_account -> account_at L kb = empty_account ->
  Rent_minimum_balance = Some f -> (forall m, 0 < f m) -> (forall m, Z.of_nat m <= 10240 -> f m + f (length data) <= lamports_at L authority) ->
  exists L', run_transaction first_tx L = Ok L'.
Proof.
  intros Hpay Hkc Hkb Hrent Hpos Hfunds. destruct Hfresh as [Hcov Hwf Hcount Hsize Hnew Hbits Hnone]. pose proof (chunks_length ch) as Hcl.
  destruct (init_run _ _ _ _ _ _ _ Hp L ch size f) as (L1 & Hrun & Hl1); try done;
    [unfold is_u64; lia|rewrite Nat2Z.id; apply Hfunds; lia|lia|by rewrite Hcount, Hsize|].
  destruct (first_grows L1 Hl1) as (L2 & m & Hrun2 & _). exists (drop_unfunded L2). rewrite run_first, Hrun. cbn [mbind result_bind].
  by rewrite Hrun2.
Qed.

Lemma growth_run g L m k : g ∈ growth -> holds L ch (zeros m) -> grown_to size k m ->
  exists L' m', run_transaction g L = Ok L' /\ holds L' ch (zeros m') /\ grown_to size (k + length g) m'.
Proof.
  intros Hg Hh Hm. destruct (run_reallocs _ _ _ _ _ _ _ Hp size g L ch k m size_range (growth_reallocs g Hg) Hh Hm) as (L1 & m1 & Hrun & Hh1 & Hm1).
  exists (drop_unfunded L1), m1. unfold run_transaction. rewrite Hrun. split_and!; [done|by apply holds_buffer_drop_unfunded|done].
Qed.

Lemma growth_full g L : g ∈ growth -> length (data_at L kb) = length data -> run_transaction g L = Ok (drop_unfunded L).
Proof.
  intros Hg Hd. unfold run_transaction. rewrite (run_reallocs_full _ _ _ _ _ _ _ Hp size) by (done || lia || by apply growth_reallocs). done.
Qed.

(** ** The phases

    [old] is what the chain had run when the phase began. *)

(** Until the buffer exists: if the first transaction has succeeded since, the buffer is there. *)
Definition inv_init old L st : Prop :=
  extends old st /\
  forall tx, status_of old tx = None -> status_of st tx = Some None -> exists m, holds L ch (zeros m) /\ grown_to size early m.

Definition may_init old (tx : Transaction) : Prop := tx_ixs tx = first_tx \/ tx_ixs tx = [close_ix] /\ settled old tx.

(** While the buffer grows: it is at least as large as the transactions that succeeded make it. *)
Definition inv_grow old L st : Prop :=
  extends old st /\
  exists won m, won ⊆ growth /\ NoDup won /\ holds L ch (zeros m) /\ grown_to size (early + length (concat won)) m /\
    forall tx v, tx_ixs tx ∈ growth -> status_of old tx = None -> status_of st tx = Some v -> v = None /\ tx_ixs tx ∈ won.

Definition may_grow old (tx : Transaction) : Prop := may_init old tx \/ tx_ixs tx ∈ growth.

(** While the buffer is written: every write that succeeded is tracked and stored. *)
Definition inv_write old L st : Prop :=
  extends old st /\
  exists c, filling kc kb L data MAX_WRITE_CHUNK_SIZE n c /\
    forall tx v i, tx_ixs tx = write_tx i -> 0 <= i < n -> status_of old tx = None -> status_of st tx = Some v -> v = None /\ delivered c i = true.

Definition may_write old (tx : Transaction) : Prop := may_grow old tx \/ exists i, 0 <= i < n /\ tx_ixs tx = write_tx i.

Lemma extends_cons st tx v : status_of st tx = None -> extends st ((tx, v) :: st).
Proof. intros H tx' v' H'. rewrite status_of_cons, decide_False; [done|]. intros ->. congruence. Qed.

Lemma extends_unsettled old st tx v : extends old st -> status_of st tx = None -> extends old ((tx, v) :: st).
Proof. intros H H'. etrans; [done|by apply extends_cons]. Qed.

Lemma unsettled_old old st tx : extends old st -> status_of st tx = None -> ~ settled old tx.
Proof. intros H H' [v Hv]. apply H in Hv. congruence. Qed.

Lemma stable_init old : stable run_transaction (inv_init old) (may_init old).
Proof.
  intros L st tx Htx [Hext Hi] Hnew. destruct Htx as [Htx|[_ Hs]]; [|by destruct (unsettled_old _ _ _ Hext Hnew)]. rewrite Htx.
  assert (forall e, inv_init old L ((tx, Some e) :: st)) as Hfail.
  { intros e. split; [by apply extends_unsettled|]. intros tx' Ho. rewrite status_of_cons. case_decide; [done|]. by apply Hi. }
  destruct (run_transaction first_tx L) as [L'| |] eqn:E; [|apply Hfail..].
  split; [by apply extends_unsettled|]. intros _ _ _. by eapply first_sound.
Qed.

Lemma not_growth_first : first_tx ∉ growth.
Proof. intros [count Hg]%leads_growth. pose proof (leads_inj _ _ _ leads_first Hg). done. Qed.
Lemma not_growth_close : [close_ix] ∉ growth.
Proof. intros [count Hg]%leads_growth. pose proof (leads_inj _ _ _ leads_close Hg). done. Qed.
Lemma not_write_first i : 0 <= i < n -> first_tx <> write_tx i.
Proof. intros Hi E. pose proof (leads_write i Hi) as Hw. rewrite <-E in Hw. pose proof (leads_inj _ _ _ leads_first Hw). done. Qed.
Lemma not_write_close i : 0 <= i < n -> [close_ix] <> write_tx i.
Proof. intros Hi E. pose proof (leads_write i Hi) as Hw. rewrite <-E in Hw. pose proof (leads_inj _ _ _ leads_close Hw). done. Qed.
Lemma not_write_growth i : 0 <= i < n -> write_tx i ∉ growth.
Proof. intros Hi [count Hg]%leads_growth. pose proof (leads_inj _ _ _ (leads_write i Hi) Hg). done. Qed.

Lemma stable_grow old : stable run_transaction (inv_grow old) (may_grow old).
Proof.
  intros L st tx Htx [Hext (won & m & Hsub & Hnd & Hh & Hm & Hall)] Hnew.
  destruct Htx as [[Htx|[_ Hs]]|Hg]; [|by destruct (unsettled_old _ _ _ Hext Hnew)|].
  - rewrite Htx, first_refused by (left; by eapply holds_used). split; [by apply extends_unsettled|].
    exists won, m. split_and!; try done. intros tx' v Hg Ho. rewrite status_of_cons. case_decide as Heq; [|by apply Hall].
    subst tx'. rewrite Htx in Hg. by destruct not_growth_first.
  - destruct (growth_run _ L m _ Hg Hh Hm) as (L' & m' & -> & Hh' & Hm'). split; [by apply extends_unsettled|].
    exists (if decide (tx_ixs tx ∈ won) then won else tx_ixs tx :: won), m'. case_decide as Hin.
    + split_and!; try done; [unfold grown_to, grown in *; lia|].
      intros tx' v Hg' Ho. rewrite status_of_cons. case_decide; [intros [= <-]; by subst|by apply Hall].
    + split_and!; try done; [set_solver|by constructor|cbn; rewrite length_app; by replace (early + (length (tx_ixs tx) + length (concat won)))%nat
        with (early + length (concat won) + length (tx_ixs tx))%nat by lia|].
      intros tx' v Hg' Ho. rewrite status_of_cons. case_decide as Heq; [intros [= <-]; subst; split; [done|by left]|].
      intros Hv. destruct (Hall tx' v Hg' Ho Hv). split; [done|by right].
Qed.

Lemma filling_drop_unfunded L c : filling kc kb L data MAX_WRITE_CHUNK_SIZE n c -> filling kc kb (drop_unfunded L) data MAX_WRITE_CHUNK_SIZE n c.
Proof.
  intros [Hh Hf Hbits]. pose proof (holds_buffer_drop_unfunded _ _ _ _ _ Hh) as Hh'. pose proof (hb_buffer _ _ _ _ _ Hh') as E.
  split; by rewrite ?E.
Qed.

Lemma stable_write old : stable run_transaction (inv_write old) (may_write old).
Proof.
  intros L st tx Htx [Hext (c & Hfill & Hall)] Hnew.
  destruct Htx as [[[Htx|[_ Hs]]|Hg]|(i & Hi & Htx)]; [|by destruct (unsettled_old _ _ _ Hext Hnew)|..].
  - rewrite Htx, first_refused by (left; eapply holds_used, Hfill). split; [by apply extends_unsettled|].
    exists c. split; [done|]. intros tx' v j Htx' Hj Ho. rewrite status_of_cons. case_decide as Heq; [|by apply Hall].
    subst tx'. rewrite Htx in Htx'. by apply not_write_first in Htx'.
  - rewrite (growth_full _ L Hg) by apply Hfill. split; [by apply extends_unsettled|].
    exists c. split; [by apply filling_drop_unfunded|]. intros tx' v j Htx' Hj Ho. rewrite status_of_cons. case_decide as Heq; [|by apply Hall].
    subst tx'. rewrite Htx' in Hg. by apply not_write_growth in Hg.
  - rewrite Htx. destruct (write_transaction _ _ _ _ _ _ _ Hp L data MAX_WRITE_CHUNK_SIZE n c i (fc_covers _ _ _ Hfresh) Hfill Hi)
      as (L' & c' & Hrun & Hfill' & Hd). unfold write_tx at 1. rewrite Hrun. split; [by apply extends_unsettled|].
    exists c'. split; [done|]. intros tx' v j Htx' Hj Ho. rewrite status_of_cons. case_decide as Heq.
    + intros [= <-]. split; [done|]. subst tx'. rewrite Htx in Htx'. rewrite Hd by lia. pose proof (leads_write i Hi) as H1. rewrite Htx' in H1.
      pose proof (leads_inj _ _ _ H1 (leads_write j Hj)) as [= Ej _]. change MAX_WRITE_CHUNK_SIZE with 842 in Ej.
      replace j with i by lia. by rewrite Z.eqb_refl, orb_true_r.
    + intros Hv. destruct (Hall tx' v j Htx' Hj Ho Hv) as [-> Hdj]. split; [done|]. rewrite Hd by lia. by rewrite Hdj.
Qed.

(** ** Running the phases *)

Context (compiles signs : list SolInstruction -> bytes -> bool) (N : Network) (Hpre : skips_preflight N).
Context (hash_order : list Z -> list Z) (Hhash : forall l, hash_order l ≡ₚ l).
Context (timely : bool) (from : nat) (faults : list nat).
Context (Hcompile : timely = true -> forall ixs h, compiles ixs h = true /\ signs ixs h = true).
Context (Hretry : timely = true -> forall t k, mo_sent (net_moment N t) = Some k -> is_Some (decide_rpc_native_flow k)).
Context (Hfaults : timely = true -> affords N faults (Some 4%nat) from).

Abbreviation this_task := (MkPreparation commit_id pubkey ch data).

Lemma initialize_steps w : initialize_buffer_account compiles signs N authority this_task w =
  and_then (run_async run_transaction N (send_ixs_with_retry compiles signs first_tx 5) w) (fun _ w =>
    send_batches compiles signs N (parallel growth) w).
Proof.
  unfold initialize_buffer_account. rewrite (bu_run _ Hb). unfold init_instruction, create_init_ix. cbn [pr_pubkey pr_commit_id pr_chunks pr_buffer_data].
  rewrite (chunks_pda_run _ _ _ _ _ _ _ Hp). cbn [mbind result_bind]. rewrite (buffer_pda_run _ _ _ _ _ _ _ Hp).
  cbn [mbind result_bind or_stop]. by rewrite chunk_realloc_ixs_run.
Qed.

Lemma write_instructions_run : write_instructions this_task authority =
  Ok (map (write_ix authority pubkey commit_id kc kb bc bb data MAX_WRITE_CHUNK_SIZE) (seqZ 0 n)).
Proof.
  destruct Hfresh as [Hcov Hwf Hcount Hsize Hnew Hbits Hnone]. unfold write_instructions, ChangesetChunks_iter, assert_sizes.
  cbn [pr_chunks pr_buffer_data cs_chunk_size cs_chunks]. rewrite Hsize, Hcount.
  destruct Hcov as [Hc Hn Hlen Ho] eqn:E. rewrite wrap64_small by (unfold is_u64; lia).
  rewrite (proj2 (Z.leb_le _ _)), (proj2 (Z.ltb_lt _ _)) by lia. cbn [andb mbind result_bind].
  rewrite (chunks_collect_run data _ n Hcov None) by (cbn [it_chunk_count]; lia). cbn [mbind result_bind].
  rewrite (map_panic_run _ (fun chunk => new_with_borsh (IxWrite pubkey commit_id bc bb (cc_offset chunk) (cc_data_chunk chunk))
    [MkMeta authority true true; MkMeta kc false true; MkMeta kb false true])).
  2: { intros chunk _. unfold create_write_ix. cbn [pr_pubkey pr_commit_id].
       by rewrite (chunks_pda_run _ _ _ _ _ _ _ Hp), (buffer_pda_run _ _ _ _ _ _ _ Hp). }
  f_equal. rewrite wanted_all. by rewrite Z.sub_0_r, map_map.
Qed.

Lemma write_steps w : write_buffer_with_retries compiles signs N hash_order authority this_task w =
  send_batches compiles signs N (parallel (map write_tx (hash_order (seqZ 0 n)))) w.
Proof.
  unfold write_buffer_with_retries. rewrite write_instructions_run. cbn [or_stop pr_chunks]. unfold write_missing_chunks.
  destruct Hfresh as [Hcov Hwf Hcount Hsize Hnew Hbits Hnone]. rewrite get_missing_run, Hcount by done.
  assert (filter (fun i => delivered ch i = false) (range n) = seqZ 0 n) as ->.
  { unfold range. assert (forall l : list Z, filter (fun i => delivered ch i = false) l = l) as Hall; [|apply Hall].
    intros l. induction l as [|i l IH]; [done|]. rewrite filter_cons_True by apply Hnone. f_equal. exact IH. }
  cbn [or_stop]. rewrite (map_panic_run _ write_tx); [done|].
  intros i Hi. rewrite Hhash in Hi. apply elem_of_seqZ in Hi. rewrite list_lookup_fmap. rewrite lookup_seqZ_lt by lia. cbn.
  do 2 f_equal. unfold write_tx. repeat f_equal; lia.
Qed.

(** The buffer holds the data, and the tracker says so. *)
Definition delivered_to L : Prop :=
  data_at L kb = data /\ exists c, try_from_slice (data_at L kc) = Some c /\ is_complete c = Ok true.

Lemma filling_delivered L c : filling kc kb L data MAX_WRITE_CHUNK_SIZE n c -> (forall i, 0 <= i < n -> delivered c i = true) -> delivered_to L.
Proof.
  intros [[Hc _ _] Hf Hbits] Hall. pose proof (fc_covers _ _ _ Hfresh) as Hcov. split; [by apply (filled_complete _ _ _ Hcov c)|].
  exists c. destruct Hf as [Hwf Hcount Hsize _ _]. split.
  - rewrite Hc, chunks_roundtrip; [done| |by rewrite Hsize|done]. rewrite Hcount. destruct Hcov. change MAX_WRITE_CHUNK_SIZE with 842 in *.
    unfold is_u64. lia.
  - rewrite is_complete_run, Hcount by done. f_equal. apply forallb_forall. intros i Hi%list_elem_of_In%elem_of_range. auto.
Qed.

(** What a preparation may come to. *)
Definition prepared (task : CommitTask) (r : result BufferExecutionError CommitTask) w' : Prop :=
  match r with
  | Ok task' => task' = preparation_done task /\ forall picks, delivered_to (w_ledger (land run_transaction picks w'))
  | Err (SendFailed _) => True
  | Err (AccountAlreadyInitializedError _) | Panic => False
  end /\
  (timely = true -> is_ok r = true).

(** The buffer is there, and what is in flight is of the first phase. *)
Record initialized w : Prop := {
  in_flight_init : Forall (may_init (w_statuses w)) (w_in_flight w);
  in_known tx : settled (w_statuses w) tx -> tx ∈ w_in_flight w;
  in_holds : exists m, holds (w_ledger w) ch (zeros m) /\ grown_to size early m;
}.

Lemma grow_run w r w' : initialized w -> (from <= w_clock w)%nat -> send_batches compiles signs N (parallel growth) w = (r, w') ->
  Forall (may_grow (w_statuses w')) (w_in_flight w') /\ (forall tx, settled (w_statuses w') tx -> tx ∈ w_in_flight w') /\
  (w_clock w <= w_clock w')%nat /\
  match r with
  | Ok _ => holds (w_ledger w') ch (zeros (length data))
  | Err (SendFailed _) => True
  | _ => False
  end /\ (timely = true -> r = Ok tt).
Proof.
  intros [Hf Hk (m & Hh & Hm)] Hfrom Hrun. set (old := w_statuses w) in *.
  assert (forall g h, g ∈ growth -> status_of old (MkTransaction h g) = None) as Hnew.
  { intros g h Hg. destruct (status_of old (MkTransaction h g)) as [v|] eqn:E; [|done].
    assert (MkTransaction h g ∈ w_in_flight w) as Hin by (apply Hk; by exists v). rewrite Forall_forall in Hf.
    destruct (Hf _ Hin) as [H|[H _]]; cbn in H; subst g; [by destruct not_growth_first|by destruct not_growth_close]. }
  destruct (send_batches_run compiles signs N Hpre (inv_grow old) (may_grow old) (stable_grow old) timely from faults Hcompile Hretry Hfaults (parallel growth) w r w')
    as ([[Hext (won & m' & Hsub & Hnd & Hh' & Hm' & Hall)] Hf' Hk'] & Hl1 & Hshown); try done.
  { split; [|by eapply Forall_impl; [exact Hf|left]|done]. split; [done|]. exists [], m. split_and!; try done.
    - intros x Hx. by apply elem_of_nil in Hx.
    - constructor.
    - cbn. by rewrite Nat.add_0_r.
    - intros tx v _ Ho Hv. subst old. congruence. }
  { intros ixs h. rewrite concat_parallel. intros Hg. by right. }
  rewrite concat_parallel in Hshown. destruct Hshown as [Hr Ht]. split_and!.
  - eapply Forall_impl; [exact Hf'|]. intros tx [[Htx|[Hc Hs]]|Hg]; [left; by left|left; right|by right]. split; [done|by eapply settled_extends].
  - done.
  - by destruct Hl1.
  - destruct r as [[]|[e|e]|]; [|..|done]; [|destruct Hr as (g & h & Hg & Hv); by destruct (Hall (MkTransaction h g) _ Hg (Hnew g h Hg) Hv)|done].
    assert (growth ⊆ won) as Hincl.
    { intros g Hg. destruct (Hr g Hg) as [h Hv]. by destruct (Hall (MkTransaction h g) None Hg (Hnew g h Hg) Hv). }
    pose proof (length_concat_submseteq _ _ (NoDup_submseteq _ _ growth_distinct Hincl)) as Hlen.
    rewrite growth_concat in Hlen. assert (m' = length data) as ->; [|done].
    pose proof (bu_enough _ Hb). assert (early + length (drop 10 reallocs) = length reallocs)%nat by (unfold early; rewrite <-length_app; by rewrite take_drop).
    unfold grown_to, grown in *. lia.
  - intros Htime. apply Ht; [done|]. intros g h v Hg Hv. by destruct (Hall (MkTransaction h g) _ Hg (Hnew g h Hg) Hv).
Qed.

Lemma write_run_all task w r w' : Forall (may_grow (w_statuses w)) (w_in_flight w) -> (forall tx, settled (w_statuses w) tx -> tx ∈ w_in_flight w) ->
  holds (w_ledger w) ch (zeros (length data)) -> (from <= w_clock w)%nat ->
  and_then (write_buffer_with_retries compiles signs N hash_order authority this_task w) (fun _ w => (Ok (preparation_done task), w)) = (r, w') ->
  prepared task r w'.
Proof.
  intros Hf Hk Hh Hfrom. rewrite write_steps. set (old := w_statuses w) in *. set (idxs := hash_order (seqZ 0 n)).
  destruct (send_batches _ _ _ _ _) as [r1 w1] eqn:Hrun.
  assert (forall i, i ∈ idxs <-> 0 <= i < n) as Hidx.
  { intros i. subst idxs. rewrite Hhash, elem_of_seqZ. lia. }
  assert (forall i h, 0 <= i < n -> status_of old (MkTransaction h (write_tx i)) = None) as Hnew.
  { intros i h Hi. destruct (status_of old _) as [v|] eqn:E; [|done].
    assert (MkTransaction h (write_tx i) ∈ w_in_flight w) as Hin by (apply Hk; by exists v). rewrite Forall_forall in Hf.
    destruct (Hf _ Hin) as [[H|[H _]]|H]; cbn in H; [by apply eq_sym, not_write_first in H|by apply eq_sym, not_write_close in H|by apply not_write_growth in H]. }
  destruct (send_batches_run compiles signs N Hpre (inv_write old) (may_write old) (stable_write old) timely from faults Hcompile Hretry Hfaults
    (parallel (map write_tx idxs)) w r1 w1) as (Hph & Hl1 & Hshown); try done.
  { split; [|by eapply Forall_impl; [exact Hf|left]|done]. split; [done|]. exists ch. split.
    - destruct Hfresh as [Hcov Hwf Hcount Hsize Hn Hbits Hnone]. pose proof (hb_buffer _ _ _ _ _ Hh) as Hd. split; rewrite ?Hd; [done| |lia].
      split; try done; [apply length_replicate|]. intros p Hdel. by rewrite Hnone in Hdel.
    - intros tx v i _ _ Ho Hv. subst old. congruence. }
  { intros ixs h. rewrite concat_parallel. intros (i & -> & Hi%Hidx)%list_elem_of_fmap. right. by exists i. }
  rewrite concat_parallel in Hshown. destruct Hshown as [Hr Ht].
  assert (forall i h v, 0 <= i < n -> status_of (w_statuses w1) (MkTransaction h (write_tx i)) = Some v -> v = None) as Hok.
  { intros i h v Hi Hv. destruct (ph_inv _ _ _ Hph) as [_ (c & _ & Hall)]. by destruct (Hall (MkTransaction h (write_tx i)) v i eq_refl Hi (Hnew i h Hi) Hv). }
  destruct r1 as [[]|[e|e]|]; cbn [and_then]; [| | |done].
  - intros [= <- <-]. split; [|done]. split; [done|]. intros picks.
    destruct (land_phase run_transaction _ _ picks w1 (stable_write old) Hph) as ([[_ (c & Hfill & Hall)] _ _] & [Hex _ _ _] & _).
    eapply filling_delivered; [done|]. intros i Hi. destruct (Hr (write_tx i)) as [h Hv]; [apply list_elem_of_fmap; exists i; by rewrite Hidx|].
    by destruct (Hall (MkTransaction h (write_tx i)) None i eq_refl Hi (Hnew i h Hi) (Hex _ _ Hv)).
  - intros _. destruct Hr as (ixs & h & (i & -> & Hi%Hidx)%list_elem_of_fmap & Hv). by apply Hok in Hv.
  - intros [= <- <-]. split; [done|]. intros Htime.
    assert (Err (SendFailed e) = Ok tt :> result BufferExecutionError unit) as Habs; [|done]. apply Ht; [done|].
    intros ixs h v (i & -> & Hi%Hidx)%list_elem_of_fmap Hv. by eapply Hok.
Qed.

(** Once the buffer is there, a preparation comes to its end. *)
Lemma fill_run task w r w' : initialized w -> (from <= w_clock w)%nat ->
  and_then (send_batches compiles signs N (parallel growth) w) (fun _ w =>
    and_then (write_buffer_with_retries compiles signs N hash_order authority this_task w) (fun _ w => (Ok (preparation_done task), w))) = (r, w') ->
  prepared task r w'.
Proof.
  intros Hw Hfrom. destruct (send_batches _ _ _ _ _) as [r1 w1] eqn:Hrun.
  destruct (grow_run w r1 w1 Hw Hfrom Hrun) as (Hf & Hk & Hc & Hr & Ht). destruct r1 as [[]|[e|e]|]; cbn [and_then]; [|done| |done].
  - apply write_run_all; try done. lia.
  - intros [= <- <-]. split; [done|]. intros Htime. by specialize (Ht Htime).
Qed.

(** ** A preparation and its retry *)

Context (compute_diff : bytes -> bytes -> bytes) (task : CommitTask) (Htask : from_commit compute_diff task = Ok (Some this_task)).

Abbreviation prepare := (prepare_task compute_diff compiles signs N hash_order authority task).
Abbreviation send_first := (send_ixs_with_retry compiles signs first_tx 5).

(** A preparation goes on from its first transaction. *)
Lemma prepare_steps w r1 w1 r w' : run_async run_transaction N send_first w = (r1, w1) -> prepare w = (r, w') ->
  match r1 with
  | Ok _ => initialized w1 -> (from <= w_clock w1)%nat -> prepared task r w'
  | Err e => r = Err e /\ w' = w1
  | Panic => r = Panic /\ w' = w1
  end.
Proof.
  intros Hfirst. unfold prepare_task. rewrite Htask. cbn [or_stop]. rewrite initialize_steps, Hfirst.
  destruct r1 as [[]|e|]; cbn [and_then]; [|by intros [= <- <-]..].
  intros Hrun Hw Hfrom. eapply (fill_run task w1); try done.
Qed.

Lemma cleanup_steps w : cleanup_buffers compiles signs N authority [cleanup_task this_task] w =
  run_async run_transaction N (send_ixs_with_retry compiles signs [close_ix] 1) w.
Proof.
  unfold cleanup_buffers. cbn [length batches max_tx_fit_count_with_budget take drop map_panic].
  unfold cleanup_instruction, create_close_ix. cbn [cleanup_task cl_pubkey cl_commit_id pr_pubkey pr_commit_id].
  rewrite (chunks_pda_run _ _ _ _ _ _ _ Hp). cbn [mbind result_bind]. rewrite (buffer_pda_run _ _ _ _ _ _ _ Hp).
  cbn [mbind result_bind or_stop map length]. rewrite (join_all_one _ _ 4);
    [|apply (send_waits compiles signs _ 1)|unfold turns_of; cbn; lia].
  destruct (run_async _ _ _ _) as [[[]| |] w']; done.
Qed.

(** *** Any network *)

(** The hashes the node answered in a stretch of time. *)
Definition answered (t1 t2 : nat) (h : bytes) : Prop := exists t, (t1 <= t < t2)%nat /\ mo_blockhash (net_moment N t) = inr h.

(** Sending a transaction with a hash that the node answered since [t0]. *)
Lemma send_any (inv : ledger -> statuses -> Prop) (T : Transaction -> Prop) ixs k t0 w r w' : (0 < k)%nat ->
  stable run_transaction inv T -> phase inv T w -> (t0 <= w_clock w)%nat -> (forall h, w_blockhash w = Some h -> answered t0 (w_clock w) h) ->
  (forall h, T (MkTransaction h ixs)) ->
  run_async run_transaction N (send_ixs_with_retry compiles signs ixs k) w = (r, w') ->
  phase inv T w' /\ later w w' /\
  match r with
  | Ok _ => exists h, answered t0 (w_clock w') h /\ status_of (w_statuses w') (MkTransaction h ixs) = Some None /\
      (k = 1%nat -> w_in_flight w' = w_in_flight w ++ [MkTransaction h ixs])
  | Err (AccountAlreadyInitializedError e) => e = refused /\ exists h, status_of (w_statuses w') (MkTransaction h ixs) = Some (Some e)
  | Err (SendFailed _) => True
  | Panic => False
  end.
Proof.
  intros Hk Hst Hw Ht0 Hcache HT Hrun. pose proof (run_async_later _ _ _ _ _ _ Hrun) as Hlater.
  set (E := {| ex_hash := answered t0 (w_clock w'); ex_kind k := forall e, k <> KindTransactionError e;
    ex_status tx v := status_of (w_statuses w') tx = Some v |}).
  destruct (run_async_spec run_transaction N faults inv T E (shown ixs E false k None []) [] None (send_ixs_with_retry compiles signs ixs k) w r w')
    as (Hw' & _ & more & b' & Hmore & HQ); try done.
  - apply send_satisfies; done.
  - intros tx Htx. by apply elem_of_nil in Htx.
  - destruct Hlater as [_ Hcl]. split; cbn; [|intros t h Ht Hh; exists t; split; [lia|done]|intros t k0 Hk0 e ->; by eapply Hpre].
    intros h Hh. destruct (Hcache h Hh) as (t & Ht & Hh'). exists t. split; [lia|done].
  - split_and!; [done..|]. destruct HQ as [HQ _]. destruct r as [u|[e|e]|]; try done.
    + destruct HQ as (h & Hh & Hs & Hone). exists h. split_and!; [done..|]. intros E1. specialize (Hone E1). cbn in Hone. by rewrite Hmore, Hone.
    + destruct HQ as [-> [(h & _ & Hs)|HQ]]; [split; [done|by exists h]|]. by destruct (HQ refused).
Qed.

(** A hash the node answered does not come back after another, or not after so many calls. *)
Definition hashes_advance : Prop := forall s t u h h', (s < t < u)%nat ->
  mo_blockhash (net_moment N s) = inr h -> mo_blockhash (net_moment N t) = inr h' -> mo_blockhash (net_moment N u) = inr h -> h' = h.
Definition hashes_expire (calls : nat) : Prop := forall s t h, (s + calls <= t)%nat ->
  mo_blockhash (net_moment N s) = inr h -> mo_blockhash (net_moment N t) <> inr h.

(** The first phase, on any network, where no initialization that succeeded before is sent again. *)
Lemma init_any w r w' : Forall (may_init (w_statuses w)) (w_in_flight w) -> (forall tx, settled (w_statuses w) tx -> tx ∈ w_in_flight w) ->
  w_blockhash w = None ->
  (forall t h, (w_clock w <= t)%nat -> mo_blockhash (net_moment N t) = inr h -> status_of (w_statuses w) (MkTransaction h first_tx) <> Some None) ->
  run_async run_transaction N send_first w = (r, w') ->
  Forall (may_init (w_statuses w)) (w_in_flight w') /\ later w w' /\ (forall tx, settled (w_statuses w') tx -> tx ∈ w_in_flight w') /\
  match r with Ok _ => initialized w' | Err _ => True | Panic => False end.
Proof.
  intros Hf Hk Hcache Hnew Hrun. set (old := w_statuses w) in *.
  destruct (send_any (inv_init old) (may_init old) first_tx 5 (w_clock w) w r w') as ([[Hext Hi] Hf' Hk'] & Hlater & Hr);
    [lia|apply stable_init|split; [split; [done|]; intros tx H1 H2; subst old; congruence|done..]|done|by rewrite Hcache|intros h; by left|done|].
  split_and!; [done..|]. destruct r as [u|e|]; [|done|done]. destruct Hr as (h & (t & Ht & Hh) & Hs & _). split.
  - eapply Forall_impl; [exact Hf'|]. intros tx [Htx|[Hc Hse]]; [by left|right]. split; [done|by eapply settled_extends].
  - done.
  - apply (Hi (MkTransaction h first_tx)); [|done]. destruct (status_of old _) as [v|] eqn:Eo; [|done].
    destruct (Hnew t h ltac:(lia) Hh). rewrite Eo. apply Hext in Eo. congruence.
Qed.

(** Nothing was sent yet. *)
Record quiet w : Prop := {
  qu_statuses : w_statuses w = [];
  qu_flight : w_in_flight w = [];
  qu_hash : w_blockhash w = None;
}.

Abbreviation handle := (prepare_task_handling_errors compute_diff compiles signs N hash_order authority task).

(** After a clean-up the node's hashes are younger than those of the initializations that succeeded. *)
Lemma retry_not_succeeded w1 w2 h2 hc : hashes_advance -> in_use N w1 -> w_blockhash w1 = Some h2 ->
  status_of (w_statuses w1) (MkTransaction h2 first_tx) = Some (Some refused) -> later w1 w2 ->
  w_in_flight w2 = w_in_flight w1 ++ [MkTransaction hc [close_ix]] -> (forall tx, settled (w_statuses w2) tx -> tx ∈ w_in_flight w2) ->
  forall t h, (w_clock w2 <= t)%nat -> mo_blockhash (net_moment N t) = inr h -> status_of (w_statuses w2) (MkTransaction h first_tx) <> Some None.
Proof.
  intros Hadv Huse Hh2 Hs2 [Hext Hcl] Hfl Hk t h Ht Hh Hs. unfold in_use in Huse. rewrite Hh2 in Huse. destruct Huse as (t2 & Ht2 & Hm2 & Hby).
  assert (h2 <> h) as Hne by (intros ->; apply Hext in Hs2; congruence).
  assert (MkTransaction h first_tx ∈ w_in_flight w2) as Hin by (apply Hk; by exists None). rewrite Hfl in Hin.
  apply elem_of_app in Hin as [Hin|Heq%list_elem_of_singleton].
  - destruct (Hby _ Hin) as (t' & Ht' & Hm'). cbn in Hm'. destruct (decide (t' = t2)) as [->|]; [congruence|].
    apply Hne, (Hadv t' t2 t h h2); [lia|done..].
  - apply (f_equal tx_ixs) in Heq. cbn [tx_ixs] in Heq. pose proof leads_close as Hc. rewrite <-Heq in Hc. by pose proof (leads_inj _ _ _ Hc leads_first).
Qed.

Lemma handle_any w r w' : quiet w -> (from <= w_clock w)%nat -> hashes_advance -> handle w = (r, w') ->
  match r with
  | Ok task' => task' = preparation_done task /\ forall picks, delivered_to (w_ledger (land run_transaction picks w'))
  | Err _ => True
  | Panic => False
  end.
Proof.
  intros [Hs0 Hf0 Hh0] Hfrom Hadv. unfold prepare_task_handling_errors.
  destruct (run_async run_transaction N send_first w) as [r1 w1] eqn:E1. destruct (prepare w) as [rp wp] eqn:Ep.
  pose proof (prepare_steps w r1 w1 rp wp E1 Ep) as Hsteps.
  destruct (init_any w r1 w1) as (Hf1 & [_ Hcl1] & Hk1 & Hr1); try done.
  { rewrite Hf0. constructor. }
  { intros tx [v Hv]. by rewrite Hs0 in Hv. }
  { intros t h _ _. by rewrite Hs0. }
  destruct (send_in_use run_transaction N Hpre compiles signs first_tx 5 w r1 w1) as [Huse1 Hrefused]; [unfold in_use; by rewrite Hh0|done|].
  destruct r1 as [[]|e1|]; [|destruct Hsteps as [-> ->]..]; [|destruct e1 as [e1|e1]|done].
  - destruct (Hsteps Hr1 ltac:(lia)) as [Hprep _]. destruct rp as [t|[e|e]|]; try done; by intros [= <- <-].
  - destruct (Hrefused e1 eq_refl) as (h1 & Hh1 & Hs1). rewrite Htask. cbn [or_stop]. rewrite cleanup_steps.
    destruct (run_async run_transaction N (send_ixs_with_retry compiles signs [close_ix] 1) w1) as [r2 w2] eqn:E2.
    destruct (send_any (fun _ _ => True) (fun tx => tx_ixs tx = first_tx \/ tx_ixs tx = [close_ix]) [close_ix] 1 0 w1 r2 w2)
      as ([_ _ Hk2] & Hlater2 & Hr2); [lia| | |lia| |by right|done|].
    { intros L st tx _ _ _. by destruct (run_transaction _ _). }
    { split; [done| |done]. eapply Forall_impl; [exact Hf1|]. intros tx [H|[H _]]; auto. }
    { intros h Hh. unfold in_use in Huse1. rewrite Hh in Huse1. destruct Huse1 as (t & Ht & Hm & _). exists t. split; [lia|done]. }
    destruct r2 as [[]|e|]; cbn [and_then]; [|by intros [= <- <-]|done].
    destruct Hr2 as (h2 & _ & Hst2 & Hone). specialize (Hone eq_refl).
    destruct (run_async run_transaction N send_first (invalidate_cached_blockhash w2)) as [r3 w3] eqn:E3.
    intros Hrun. pose proof (prepare_steps _ _ _ _ _ E3 Hrun) as Hsteps3.
    destruct (init_any (invalidate_cached_blockhash w2) r3 w3) as (_ & [_ Hcl3] & _ & Hr3); try done.
    + cbn. rewrite Hone. apply Forall_app. split.
      * eapply Forall_impl; [exact Hf1|]. intros tx [H|[_ [v Hv]]]; [by left|]. by rewrite Hs0 in Hv.
      * constructor; [|constructor]. right. split; [done|by exists None].
    + by eapply (retry_not_succeeded w1 w2 h1 h2).
    + destruct r3 as [[]|e3|]; [|by destruct Hsteps3 as [-> ->]|done].
      destruct Hlater2 as [_ Hcl2]. cbn in Hcl3. destruct (Hsteps3 Hr3 ltac:(lia)) as [Hprep _]. by destruct r as [t|[e|e]|].
  - by intros [= <- <-].
Qed.

(** *** A network that answers in time *)

(** What an earlier attempt left: one of the addresses is in use. *)
Record left_over L : Prop := {
  lo_data : data_at L kc <> [] \/ data_at L kb <> [];
  lo_owner : owner_at L kc = committor_id /\ owner_at L kb = committor_id;
  lo_lamports : 0 <= lamports_at L kc /\ 0 <= lamports_at L kb;
  lo_supply : lamports_at L authority + lamports_at L kc + lamports_at L kb < 2 ^ 64;
}.

(** The accounts do not exist, and the authority can pay for them. *)
Record ready (f : nat -> Z) L : Prop := {
  re_payer : payer authority L;
  re_chunks : account_at L kc = empty_account;
  re_buffer : account_at L kb = empty_account;
  re_funds m : Z.of_nat m <= 10240 -> f m + f (length data) <= lamports_at L authority;
}.

Lemma close_transaction f L : payer authority L -> left_over L ->
  (forall m, Z.of_nat m <= 10240 -> f m + f (length data) <= lamports_at L authority) ->
  exists L', run_transaction [close_ix] L = Ok L' /\ ready f L'.
Proof.
  intros [Ho Hd] [_ _ [H1 H2] Hs] Hfunds.
  destruct (close_run _ _ _ _ _ _ _ Hp L Hs H1 H2) as (L1 & Hrun & Hkc & Hkb & Hla & Hoa & Hda).
  exists (drop_unfunded L1). split.
  - unfold run_transaction. cbn [run_instructions]. unfold close_ix. rewrite process_built by apply leads_close.
    rewrite infos_built. cbn [map m_pubkey m_is_signer]. by rewrite Hrun.
  - split.
    + split; unfold owner_at, data_at; rewrite account_at_drop_unfunded; case_decide; try done; [by rewrite <-Ho, <-Hoa|by rewrite <-Hd, <-Hda].
    + by rewrite account_at_drop_unfunded, decide_True.
    + by rewrite account_at_drop_unfunded, decide_True.
    + intros m Hm. specialize (Hfunds m Hm). rewrite lamports_at_drop_unfunded. lia.
Qed.

Context (f : nat -> Z) (Hrent : Rent_minimum_balance = Some f) (Htimely : timely = true).

Lemma prepare_prompt w : all_settled w -> Forall (may_init (w_statuses w)) (w_in_flight w) ->
  (forall tx, settled (w_statuses w) tx -> tx ∈ w_in_flight w) -> (from <= w_clock w)%nat -> ready f (w_ledger w) ->
  (forall t, (w_clock w <= t < w_clock w + 4)%nat -> prompt (net_moment N t)) ->
  (forall h, w_blockhash w = Some h \/ mo_blockhash (net_moment N (w_clock w)) = inr h -> status_of (w_statuses w) (MkTransaction h first_tx) = None) ->
  exists t w', prepare w = (Ok t, w').
Proof.
  intros Hs Hf Hk Hfrom [Hpay Hkc Hkb Hfunds] Hprompt Hnew.
  destruct (prompt_run run_transaction N compiles signs first_tx 5 w) as (h & v & w1 & Hrun & [Hh Hfl Hse [Hex _] Hcl Hout Hst]);
    [lia|by apply Hcompile|intros t Ht; apply Hprompt; lia|done|].
  destruct rent_available as (f' & Hf' & Hpos). rewrite Hrent in Hf'. injection Hf' as <-.
  destruct (first_complete (w_ledger w) f) as [L' HL']; [done..|intros m; apply Hpos|done|].
  specialize (Hout (Hnew h Hh)). rewrite HL' in Hout. injection Hout as -> HL1. cbn [verdict] in Hrun.
  destruct (prepare w) as [r w'] eqn:Ep. pose proof (prepare_steps w _ _ _ _ Hrun Ep) as Hsteps. cbn beta iota in Hsteps.
  destruct Hsteps as [Hprep Hok]; [|lia|by specialize (Hok Htimely); destruct r; [by eexists _, _|done..]]. split.
  - rewrite Hfl. apply Forall_app. split; [|constructor; [by left|constructor]].
    eapply Forall_impl; [exact Hf|]. intros tx [Htx|[Hc Hse']]; [by left|right]. split; [done|by eapply settled_extends].
  - intros tx [u Hu]. rewrite Hfl. apply elem_of_app. destruct (Hst tx u Hu) as [Hu'|[-> _]]; [left; apply Hk; by exists u|right; by left].
  - rewrite HL1. by eapply first_sound.
Qed.

Lemma handle_prompt w : quiet w -> (from <= w_clock w)%nat -> hashes_expire 6 ->
  (forall t, (w_clock w <= t < w_clock w + 12)%nat -> prompt (net_moment N t)) ->
  payer authority (w_ledger w) -> (forall m, Z.of_nat m <= 10240 -> f m + f (length data) <= lamports_at (w_ledger w) authority) ->
  account_at (w_ledger w) kc = empty_account /\ account_at (w_ledger w) kb = empty_account \/ left_over (w_ledger w) ->
  exists t w', handle w = (Ok t, w').
Proof.
  intros [Hs0 Hf0 Hh0] Hfrom Hfr Hprompt Hpay Hfunds Hstate. unfold prepare_task_handling_errors.
  assert (all_settled w) as Hse0 by (intros tx Htx; rewrite Hf0 in Htx; by apply elem_of_nil in Htx).
  assert (forall tx, status_of (w_statuses w) tx = None) as Hnone by (intros tx; by rewrite Hs0).
  destruct Hstate as [[Hkc Hkb]|Hleft].
  { destruct (prepare_prompt w) as (t & w' & Ht); try done; [by rewrite Hf0|intros tx [v Hv]; by rewrite Hnone in Hv|intros t0 Ht; apply Hprompt; lia|].
    rewrite Ht. by eexists _, _. }
  destruct (prompt_run run_transaction N compiles signs first_tx 5 w) as (h & v & w1 & Hrun & [Hh Hfl Hse [Hex _] Hcl Hout Hst]);
    [lia|by apply Hcompile|intros t Ht; apply Hprompt; lia|done|].
  specialize (Hout (Hnone _)). rewrite first_refused in Hout by apply Hleft. injection Hout as -> HL1.
  destruct (prepare w) as [r w'] eqn:Ep. destruct (prepare_steps w _ _ _ _ Hrun Ep) as [-> ->]. cbn [buffer_map map_magicblock_client_error intent_try_map].
  rewrite Htask. cbn [or_stop]. rewrite cleanup_steps. rewrite Hf0 in Hfl. cbn [app] in Hfl.
  destruct (prompt_run run_transaction N compiles signs [close_ix] 1 w1) as (h2 & v2 & w2 & Hrun2 & [Hh2 Hfl2 Hse2 [Hex2 _] Hcl2 Hout2 Hst2]);
    [lia|by apply Hcompile|intros t Ht; apply Hprompt; lia|done|].
  assert (status_of (w_statuses w1) (MkTransaction h2 [close_ix]) = None) as Hnew2.
  { destruct (status_of (w_statuses w1) _) as [u|] eqn:Eu; [|done]. destruct (Hst _ _ Eu) as [Hu|[Heq _]]; [by rewrite Hnone in Hu|].
    apply (f_equal tx_ixs) in Heq. cbn [tx_ixs] in Heq. pose proof leads_close as Hc. rewrite Heq in Hc. by pose proof (leads_inj _ _ _ Hc leads_first). }
  destruct (close_transaction f (w_ledger w)) as (L2 & HL2 & Hready); [done..|].
  specialize (Hout2 Hnew2). rewrite HL1, HL2 in Hout2. injection Hout2 as -> HLw2. rewrite Hrun2. cbn [verdict and_then].
  apply prepare_prompt; cbn [w_statuses w_in_flight w_ledger w_clock w_blockhash invalidate_cached_blockhash cache_blockhash]; try done.
  - rewrite Hfl2, Hfl. constructor; [by left|]. constructor; [|constructor]. right. split; [done|]. apply Hse2. rewrite Hfl2, Hfl. set_solver.
  - intros tx [u Hu]. rewrite Hfl2, Hfl. destruct (Hst2 tx u Hu) as [Hu'|[-> _]]; [|right; by left].
    destruct (Hst tx u Hu') as [Hu''|[-> _]]; [by rewrite Hnone in Hu''|by left].
  - lia.
  - by rewrite HLw2.
  - intros t Ht. apply Hprompt. lia.
  - intros h3 [?|Hh3]; [done|]. destruct (status_of (w_statuses w2) _) as [u|] eqn:Eu; [|done].
    destruct (Hst2 _ _ Eu) as [Hu|[Heq _]].
    + destruct (Hst _ _ Hu) as [Hu'|[Heq _]]; [by rewrite Hnone in Hu'|]. injection Heq as ->.
      destruct Hh as [?|Hh]; [congruence|]. destruct (Hfr (w_clock w) (w_clock w2) h ltac:(lia)); done.
    + apply (f_equal tx_ixs) in Heq. cbn [tx_ixs] in Heq. pose proof leads_close as Hc. rewrite <-Heq in Hc. by pose proof (leads_inj _ _ _ Hc leads_first).
Qed.
End preparation.
