(* ===== verification/DeliveryProperties.v ===== *)
(** * What the delivery of a commit guarantees

    The theorems of the committor program and of its client. *)
From stdpp Require Import strings.
From S2P Require Import Prelude Constants Crypto Receipt Slashing Accounts Evidence Runtime Processor Solvency Payouts Court Chunks Committor RpcClient RpcInv Delivery Sending DeliveryInv Preparation.

(** ** Packing *)

(** Packing neither loses, repeats nor reorders an instruction, and what it packs together fits.  The
    transactions, put one after the other, are the initialization followed by the reallocations; none is
    empty, none has more instructions than a transaction may have, their instruction data stays below
    the limit, and all but the last are full. *)
Theorem chunk_realloc_ixs_exact {T : Type} (reallocs : list T) (init : option T) :
  let chunks := chunk_realloc_ixs reallocs init in
  concat chunks = option_list init ++ reallocs /\
  Forall (fun chunk => chunk <> [] /\ (length chunk <= MAX_INSTRUCTION_LENGTH)%nat /\
            IX_INIT_SIZE + (Z.of_nat (length chunk) - 1) * IX_REALLOC_SIZE < MAX_INSTRUCTION_DATA_SIZE) chunks /\
  Forall (fun chunk => length chunk = MAX_INSTRUCTION_LENGTH) (take (length chunks - 1) chunks).
Proof.
  cbv zeta.
  assert (chunk_realloc_ixs reallocs init = groups (S (length reallocs)) (option_list init ++ reallocs)) as ->.
  { destruct init as [init|]; [by rewrite chunk_realloc_ixs_run|]. unfold chunk_realloc_ixs. rewrite realloc_chunks_run by done.
    cbn [option_list app].
    assert (forall (l : list T) a b, (length l <= a)%nat -> (length l <= b)%nat -> groups a l = groups b l) as Hg.
    2: { apply Hg; auto. }
    intros l a. revert l. induction a as [|a IH]; intros l b Ha Hb; [by destruct l; [destruct b|cbn in Ha; lia]|].
    destruct b as [|b]; [by destruct l; [|cbn in Hb; lia]|]. destruct l as [|x l]; [done|]. cbn [groups]. f_equal.
    apply IH; rewrite length_drop; cbn in *; lia. }
  destruct (groups_spec (S (length reallocs)) (option_list init ++ reallocs)) as (Hc & Hf & Hl).
  { destruct init; cbn; lia. }
  split_and!; [done| |done]. eapply Forall_impl; [exact Hf|]. intros chunk [Hne Hlen]. split_and!; try done.
  unfold MAX_INSTRUCTION_LENGTH, IX_INIT_SIZE, IX_REALLOC_SIZE, MAX_INSTRUCTION_DATA_SIZE in *. lia.
Qed.

(** ** Deliveries *)

(** C17: what a preparation reports as delivered is delivered, on any network.  Let transactions land late,
    repeatedly, out of order or after their answer was lost, let attempts fail and be retried with other
    block hashes, let the futures of a batch go on in any order, and let the ledger be in any state, with
    nothing of earlier preparations in flight.  A preparation ends; if it reports success, the buffer
    holds exactly the data and its tracker says so, and nothing that is still in flight can change that.
    The node does not simulate what it sends, and does not answer a block hash again after another. *)
Theorem delivery_sound `{C : Crypto} `{R : Runtime} `{!RuntimeLaws R} `{Rz : Resize} `{!ResizeLaws Rz}
    `{BC : !Borsh Chunks} `{BI : !Borsh CommittorInstruction} `{!BorshLaws BC BI}
    (compute_diff : bytes -> bytes -> bytes) (compiles signs : list SolInstruction -> bytes -> bool) (N : Network)
    (hash_order : list Z -> list Z) (authority : bytes) (task : CommitTask) (kc kb : bytes) (bc bb : byte) (data : bytes)
    (w w' : world) (r : result BufferExecutionError CommitTask)
    (Hhash : forall l, hash_order l ≡ₚ l) (Hpre : skips_preflight N) (Hadvance : hashes_advance N)
    (Hp : parties authority (ct_pubkey task) (ct_commit_id task) kc kb bc bb)
    (Hdata : buffer_data compute_diff task = Some data) (Hl : Z.of_nat (length data) <= 10485760) (Hquiet : quiet w)
    (Hrun : prepare_task_handling_errors compute_diff compiles signs N hash_order authority task w = (r, w')) :
  match r with
  | Ok task' => task' = preparation_done task /\ forall picks, delivered_to kc kb data (w_ledger (land run_transaction picks w'))
  | Err _ => True
  | Panic => False
  end.
Proof.
  destruct (from_commit_run compute_diff task data Hdata Hl) as (ch & n & Htask & Hchunks).
  destruct (realloc_instructions_run _ _ _ _ _ _ _ Hp data ch Hl) as [reallocs Hb].
  apply (handle_any _ _ _ _ _ _ _ Hp data ch n Hchunks Hl reallocs Hb compiles signs N Hpre hash_order Hhash false 0 []
    ltac:(done) ltac:(done) ltac:(done) compute_diff task Htask w r w' Hquiet); [lia|done..].
Qed.


(** ** Interrupted deliveries *)

Lemma forallb_delivered ch n : ch_count ch = n -> chunks_wf ch ->
  is_complete ch = Ok true <-> (forall i, 0 <= i < n -> delivered ch i = true).
Proof.
  intros <- Hwf. rewrite is_complete_run by done. split.
  - intros [= H] i Hi. rewrite forallb_forall in H. apply H, list_elem_of_In, elem_of_range. done.
  - intros H. f_equal. apply forallb_forall. intros i Hi%list_elem_of_In%elem_of_range. auto.
Qed.

(** The tracker tells what is missing, and nothing else is.  After an initialization let any of the
    writes land, in any order and some of them repeatedly.  If the tracker on the chain is complete, the
    buffer is the data.  The client that cuts the data by that tracker gets exactly the chunks that did
    not land, in order; once these land too, the buffer is the data. *)
Theorem interrupted_delivery_resumes `{C : Crypto} `{R : Runtime} `{!RuntimeLaws R} `{Rz : Resize} `{!ResizeLaws Rz}
    `{BC : !Borsh Chunks} `{BI : !Borsh CommittorInstruction} `{!BorshLaws BC BI}
    (authority pubkey : bytes) (commit_id : Z) (kc kb : bytes) (bc bb : byte) (data : bytes) (c n : Z) (L : ledger) (ch : Chunks)
    (landed_writes : list Z)
    (Hp : parties authority pubkey commit_id kc kb bc bb) (Hcov : covers data c n) (Hn : n <= 8 * 10229)
    (Hnew : Chunks_new n c = Ok ch) (Hheld : holds_buffer kc kb L ch (zeros (length data)))
    (Hwrites : Forall (fun i => 0 <= i < n) landed_writes) :
  let writes idxs := map (fun i => [write_ix authority pubkey commit_id kc kb bc bb data c i]) idxs in
  exists L1 ch1 missing L2,
    run_transactions (writes landed_writes) L = Ok L1 /\ try_from_slice (data_at L1 kc) = Some ch1 /\
    (is_complete ch1 = Ok true -> data_at L1 kb = data) /\
    (it ← ChangesetChunks_iter_missing (MkChangesetChunks c ch1) data; chunks_collect (S (Z.to_nat n)) it) =
      Ok (chunk_of data c <$> missing) /\
    missing = filter (fun i => i ∉ landed_writes) (seqZ 0 n) /\
    run_transactions (writes missing) L1 = Ok L2 /\ delivered_to kc kb data L2.
Proof.
  destruct (Chunks_new_run n c) as (ch' & Hnew' & Hwf & Hcount & Hsize & Hbits & Hnone); [destruct Hcov; lia|].
  rewrite Hnew in Hnew'. injection Hnew' as <-. pose proof (hb_buffer _ _ _ _ _ Hheld) as Hbuf.
  assert (filling kc kb L data c n ch) as Hfill.
  { split; rewrite ?Hbuf; [done| |lia]. split; try done; [apply length_replicate|]. intros p Hd. by rewrite Hnone in Hd. }
  destruct (run_writes _ _ _ _ _ _ _ Hp data c n landed_writes L ch) as (L1 & ch1 & Hrun1 & Hf1 & Hd1); [done..|].
  set (missing := filter (fun i => i ∉ landed_writes) (seqZ 0 n)).
  assert (Forall (fun i => 0 <= i < n) missing) as Hmissing.
  { apply Forall_forall. intros i [_ Hi%elem_of_seqZ]%list_elem_of_filter. lia. }
  destruct (run_writes _ _ _ _ _ _ _ Hp data c n missing L1 ch1) as (L2 & ch2 & Hrun2 & Hf2 & Hd2); [done..|].
  assert (forall L ch, filling kc kb L data c n ch -> try_from_slice (data_at L kc) = Some ch) as Hread.
  { intros L0 ch0 [[Hc0 ? ?] [? Hn0 Hs0 ? ?] Hb0]. rewrite Hc0. destruct Hcov as [? ? ? ?].
    apply chunks_roundtrip; [rewrite Hn0; unfold is_u64; lia|rewrite Hs0; lia|done]. }
  assert (forall i, 0 <= i < n -> delivered ch2 i = true) as Hdone.
  { intros i Hi. rewrite Hd2, Hd1 by lia.
    destruct (decide (i ∈ landed_writes)); [by rewrite (bool_decide_true (i ∈ landed_writes)), orb_true_r by done|].
    rewrite (bool_decide_true (i ∈ missing)), orb_true_r; [done|]. apply list_elem_of_filter. rewrite elem_of_seqZ. split; [done|lia]. }
  pose proof (fi_filled _ _ _ _ _ _ _ Hf1) as Hfilled1. pose proof (fi_filled _ _ _ _ _ _ _ Hf2) as Hfilled2.
  destruct Hfilled1 as [Hwf1 Hcount1 ? ? ?], Hfilled2 as [Hwf2 Hcount2 ? ? ?].
  exists L1, ch1, missing, L2. split_and!; try done.
  - by apply Hread.
  - intros Hcomplete. rewrite (forallb_delivered ch1 n) in Hcomplete by done. eapply filled_complete; [done|apply Hf1|done].
  - unfold ChangesetChunks_iter_missing, assert_sizes. cbn [cs_chunk_size cs_chunks]. rewrite Hcount1.
    pose proof Hcov as [? ? ? ?]. rewrite wrap64_small by (unfold is_u64; lia).
    rewrite (proj2 (Z.leb_le _ _)), (proj2 (Z.ltb_lt _ _)) by lia. cbn [andb mbind result_bind].
    rewrite get_missing_run by done. rewrite Hcount1. cbn [mbind result_bind].
    rewrite (chunks_collect_run data c n Hcov) by lia. do 2 f_equal. rewrite Z.sub_0_r. subst missing.
    apply filter_same. intros i Hi. cbn [wanted]. rewrite list_elem_of_filter, elem_of_range, Hd1, Hnone by (apply elem_of_seqZ in Hi; lia).
    apply elem_of_seqZ in Hi. cbn [orb]. rewrite bool_decide_eq_false. intuition lia.
  - split; [|exists ch2; split; [by apply Hread|]].
    + eapply filled_complete; [done|apply Hf2|done].
    + by apply (forallb_delivered ch2 n).
Qed.

(** ** Who may touch a buffer *)

(** C22: a buffer answers to its authority alone.  Whatever accounts and data the program is called with, if
    the call succeeds and changes an account, then the first account given signed the transaction, and the
    changed account is that one or has an address derived for its key. *)
Theorem buffer_needs_authority `{C : Crypto} `{R : Runtime} `{!RuntimeLaws R} `{Rz : Resize}
    `{BC : !Borsh Chunks} `{BI : !Borsh CommittorInstruction}
    (program_id : bytes) (accounts : list AccountInfo) (instruction_data : bytes) (L L' : ledger) (k : bytes)
    (Hrun : committor_process program_id accounts instruction_data L = Ok (tt, L')) (Hk : account_at L' k <> account_at L k) :
  exists info rest, accounts = info :: rest /\ ai_is_signer info = true /\ (k = ai_key info \/ derived_for (ai_key info) k).
Proof.
  destruct (process_authorised _ _ _ _ _ _ Hrun) as [Hnone|(info & rest & -> & Hs & ks & Ht & Hks)].
  - destruct Hk. apply Hnone, not_elem_of_nil.
  - exists info, rest. split_and!; [done..|]. apply Hks. destruct (decide (k ∈ ks)) as [Hin|Hout]; [done|]. by destruct Hk, (Ht k Hout).
Qed.

(** ** Funded addresses *)

Section funded_address.
Context `{C : Crypto} `{R : Runtime} `{RL : !RuntimeLaws R} `{Rz : Resize}.
Context `{BC : !Borsh Chunks} `{BI : !Borsh CommittorInstruction} `{BL : !BorshLaws BC BI}.
Context (authority pubkey : bytes) (commit_id : Z) (kc kb : bytes) (bc bb : byte).
Context (Hp : parties authority pubkey commit_id kc kb bc bb).

Context (Hcreate : forall L from to system n space owner seeds,
  invoke_create_account committor_id L from to system n space owner seeds <> Err AccountAlreadyInitialized).

(** A failure that does not say the account is initialized. *)
Definition blocked {A : Type} (r : result ProgramError A) : Prop :=
  match r with Ok _ | Err AccountAlreadyInitialized => False | _ => True end.

Lemma blocked_bind {A B : Type} (m : prog A) (f : A -> prog B) L : blocked (m L) -> blocked ((m ≫= f) L).
Proof. unfold mbind, prog_bind. destruct (m L) as [[]| |]; done. Qed.

Lemma create_blocked L from to system n space seeds :
  blocked (create_account committor_id from to system n space seeds L) \/
  account_at L (ai_key to) = empty_account /\ exists L', create_account committor_id from to system n space seeds L = Ok (tt, L') /\
    touches_only [ai_key from; ai_key to] L L'.
Proof.
  pose proof (confined_create [ai_key from; ai_key to] from to system n space seeds ltac:(set_solver) ltac:(set_solver) L tt) as Hconf.
  revert Hconf. unfold create_account.
  destruct (invoke_create_account _ _ _ _ _ _ _ _ _) as [L'|e|] eqn:E; cbn [mbind result_bind]; [|left|by left].
  - intros Hconf. right. split; [by apply create_account_sound in E as (_ & _ & ? & _)|]. exists L'. auto.
  - destruct e; try done. by apply Hcreate in E.
Qed.

(** An initialization fails where an address holds lamports, and not because the account has data. *)
Lemma init_funded L s1 s2 count size :
  data_at L kc = [] -> data_at L kb = [] -> 0 < lamports_at L kc \/ 0 < lamports_at L kb ->
  blocked (process_init committor_id [MkInfo authority true; MkInfo kc false; MkInfo kb false; MkInfo system_program_id false]
    pubkey s1 s2 commit_id bc bb count size L).
Proof.
  intros Hdc Hdb Hfund. pose proof (pa_distinct _ _ _ _ _ _ _ Hp) as Hne. destruct (pa_authority _ _ _ _ _ _ _ Hp) as [Ha1 Ha2].
  destruct rent_available as (f & Hrent & Hpos). unfold process_init. rewrite (lift_run _ _ _ tt) by done. cbv zeta.
  rewrite (lift_run _ _ _ _ (verified_chunks _ _ _ _ _ _ _ Hp true false)), (lift_run _ _ _ _ (verified_buffer _ _ _ _ _ _ _ Hp true false)).
  assert (forall k, data_at L k = [] -> assert_account_unallocated (MkInfo k false) L = Ok (tt, L)) as Hun.
  { intros k Hd. unfold assert_account_unallocated. by rewrite (prog_bind_run _ _ _ [] L) by (unfold borrow_data; cbn [ai_key]; by rewrite Hd). }
  rewrite (prog_bind_run _ _ _ tt L) by auto. rewrite (prog_bind_run _ _ _ tt L) by auto.
  assert (forall m, rent_minimum m = lift (Ok (f m))) as Hrm by (intros m; unfold rent_minimum; by rewrite Hrent).
  rewrite !Hrm, (lift_run _ _ _ _ eq_refl).
  assert (forall L0 k, account_at L0 k = empty_account -> ~ 0 < lamports_at L0 k) as Hempty.
  { intros L0 k He. unfold lamports_at. rewrite He. cbn. lia. }
  destruct (create_blocked L (MkInfo authority true) (MkInfo kc false) (MkInfo system_program_id false) (f (Z.to_nat s1)) (Z.to_nat s1)
    (prefix_seeds_with_bump CHUNKS_SEED authority pubkey (le_bytes 8 commit_id) bc)) as [Hb|(He1 & L1 & E1 & Ht1)]; [by apply blocked_bind|].
  rewrite (prog_bind_run _ _ _ tt L1 E1), (lift_run _ _ _ _ eq_refl). cbn [ai_key] in *. apply blocked_bind.
  destruct (create_blocked L1 (MkInfo authority true) (MkInfo kb false) (MkInfo system_program_id false) (f (Z.to_nat s2))
    (Z.to_nat (Z.min s2 MAX_ACCOUNT_ALLOC_PER_INSTRUCTION_SIZE))
    (prefix_seeds_with_bump BUFFER_SEED authority pubkey (le_bytes 8 commit_id) bb)) as [Hb|(He2 & L2 & E2 & Ht2)]; [done|].
  cbn [ai_key] in *. exfalso. rewrite Ht1 in He2 by (rewrite !elem_of_cons, elem_of_nil; intuition congruence).
  pose proof (Hempty _ _ He1). pose proof (Hempty _ _ He2). tauto.
Qed.
End funded_address.

(** C40: a funded address blocks a commit.  The addresses of a commit's buffer and tracker follow from the
    authority, the account and the commit's number.  If either of them holds lamports and no data before
    the preparation, the system program refuses to create the account, which the client does not take for
    an account in use: it does not clean up, and on any network the preparation fails, however often it is
    repeated, with nothing in flight that could change the ledger. *)
Theorem funded_buffer_blocks_commit `{C : Crypto} `{R : Runtime} `{!RuntimeLaws R} `{Rz : Resize} `{!ResizeLaws Rz}
    `{BC : !Borsh Chunks} `{BI : !Borsh CommittorInstruction} `{!BorshLaws BC BI}
    (compute_diff : bytes -> bytes -> bytes) (compiles signs : list SolInstruction -> bytes -> bool) (N : Network)
    (hash_order : list Z -> list Z) (authority : bytes) (task : CommitTask) (kc kb : bytes) (bc bb : byte) (data : bytes) (w : world)
    (Hcreate : forall L from to system n space owner seeds,
      invoke_create_account committor_id L from to system n space owner seeds <> Err AccountAlreadyInitialized)
    (Hhash : forall l, hash_order l ≡ₚ l) (Hpre : skips_preflight N)
    (Hp : parties authority (ct_pubkey task) (ct_commit_id task) kc kb bc bb)
    (Hdata : buffer_data compute_diff task = Some data) (Hl : Z.of_nat (length data) <= 10485760) (Hquiet : quiet w)
    (Hempty : data_at (w_ledger w) kc = [] /\ data_at (w_ledger w) kb = [])
    (Hfund : 0 < lamports_at (w_ledger w) kc \/ 0 < lamports_at (w_ledger w) kb) :
  exists e w', prepare_task_handling_errors compute_diff compiles signs N hash_order authority task w = (Err (SendFailed e), w') /\
    forall picks, w_ledger (land run_transaction picks w') = w_ledger w.
Proof.
  destruct (from_commit_run compute_diff task data Hdata Hl) as (ch & n & Htask & Hchunks).
  destruct (realloc_instructions_run _ _ _ _ _ _ _ Hp data ch Hl) as [reallocs Hb].
  set (first := first_tx authority (ct_pubkey task) (ct_commit_id task) kc kb bc bb data ch reallocs).
  set (inv := fun L (st : statuses) => L = w_ledger w /\ forall tx v, status_of st tx = Some v -> exists e, v = Some e /\ e <> refused).
  set (T := fun tx => tx_ixs tx = first).
  assert (stable run_transaction inv T) as Hstable.
  { intros L st tx Htx [-> Hst] _. rewrite Htx. unfold first. rewrite (run_first _ _ _ _ _ _ _ Hp data ch n Hchunks Hl reallocs).
    pose proof (init_funded _ _ _ _ _ _ _ Hp Hcreate (w_ledger w) (Z.of_nat (length (to_vec ch))) (Z.of_nat (length data)) (ch_count ch)
      (ch_chunk_size ch) (proj1 Hempty) (proj2 Hempty) Hfund) as Hblocked.
    destruct (process_init _ _ _ _ _ _ _ _ _ _ _) as [|e|]; [done|..]; cbn [mbind result_bind];
      (split; [done|]); intros tx' v; rewrite status_of_cons; case_decide; try apply Hst; intros [= <-]; eexists; (split; [done|]); try done. by destruct e. }
  destruct Hquiet as [Hs0 Hf0 Hh0].
  destruct (run_async run_transaction N (send_ixs_with_retry compiles signs first 5) w) as [r1 w1] eqn:E1.
  destruct (send_any data compiles signs N Hpre [] inv T first 5 (w_clock w) w r1 w1) as (Hphase & _ & Hr); try done; [lia|..].
  { split; [split; [done|by rewrite Hs0]|by rewrite Hf0|]. intros tx [v Hv]. by rewrite Hs0 in Hv. }
  { by rewrite Hh0. }
  destruct (prepare_task compute_diff compiles signs N hash_order authority task w) as [r w'] eqn:E.
  pose proof (prepare_steps _ _ _ _ _ _ _ Hp data ch n Hchunks Hl reallocs Hb compiles signs N Hpre hash_order Hhash false 0 []
    ltac:(done) ltac:(done) ltac:(done) compute_diff task Htask w r1 w1 r w' E1 E) as Hsteps.
  destruct Hphase as [[HL Hst] Hf Hk] eqn:Ephase. clear Ephase.
  destruct r1 as [[]|[e|e]|]; [|..|done].
  - destruct Hr as (h & _ & Hh & _). by destruct (Hst _ _ Hh) as (e & ? & _).
  - destruct Hr as [-> [h Hh]]. destruct (Hst _ _ Hh) as (e & [= <-] & ?). done.
  - destruct Hsteps as [-> ->]. exists e, w1. unfold prepare_task_handling_errors. rewrite E. split; [done|]. intros picks.
    destruct (land_phase run_transaction inv T picks w1 Hstable) as ([[? _] _ _] & _); [by split|done].
Qed.

(** ** An executable instance *)

(** The next [n] bytes of an input. *)
Definition field (n : nat) (d : bytes) : option (bytes * bytes) :=
  if decide (n <= length d)%nat then Some (take n d, drop n d) else None.

Lemma field_app n a r : length a = n -> field n (a ++ r) = Some (a, r).
Proof.
  intros <-. unfold field. rewrite decide_True by (rewrite length_app; lia). by rewrite take_app_length, drop_app_length.
Qed.

Lemma le_val_fits n z : 0 <= z < 256 ^ Z.of_nat n -> le_val (le_bytes n z) = z.
Proof. intros Hz. rewrite le_val_bytes by lia. by apply Z.mod_small. Qed.

Definition toy_chunks_to_vec (c : Chunks) : bytes :=
  le_bytes 4 (Z.of_nat (length (ch_bits c))) ++ ch_bits c ++ le_bytes 8 (ch_count c) ++ le_bytes 2 (ch_chunk_size c) ++ [].
Definition toy_chunks_from_slice (d : bytes) : option Chunks :=
  '(len, d) ← field 4 d; '(bits, d) ← field (Z.to_nat (le_val len)) d; '(count, d) ← field 8 d; '(size, d) ← field 2 d;
  if decide (d = []) then Some (MkChunks bits (le_val count) (le_val size)) else None.

Definition toy_ix_to_vec (ix : CommittorInstruction) : bytes :=
  match ix with
  | IxInit pubkey chunks_size buffer_size commit_id b1 b2 count chunk_size =>
      [x00] ++ pubkey ++ le_bytes 8 chunks_size ++ le_bytes 8 buffer_size ++ le_bytes 8 commit_id ++ [b1] ++ [b2] ++
      le_bytes 8 count ++ le_bytes 2 chunk_size ++ []
  | IxReallocBuffer pubkey buffer_size commit_id b2 invocation_count =>
      [x01] ++ pubkey ++ le_bytes 8 buffer_size ++ le_bytes 8 commit_id ++ [b2] ++ le_bytes 2 invocation_count ++ []
  | IxWrite pubkey commit_id b1 b2 offset data_chunk =>
      [x02] ++ pubkey ++ le_bytes 8 commit_id ++ [b1] ++ [b2] ++ le_bytes 4 offset ++
      le_bytes 4 (Z.of_nat (length data_chunk)) ++ data_chunk ++ []
  | IxClose pubkey commit_id b1 b2 => [x03] ++ pubkey ++ le_bytes 8 commit_id ++ [b1] ++ [b2] ++ []
  end.

Definition toy_ix_from_slice (d : bytes) : option CommittorInstruction :=
  '(tag, d) ← field 1 d; '(pubkey, d) ← field 32 d;
  let the_end (d : bytes) ix := if decide (d = []) then Some ix else None in
  match tag with
  | [x00] =>
      '(chunks_size, d) ← field 8 d; '(buffer_size, d) ← field 8 d; '(commit_id, d) ← field 8 d;
      '(b1, d) ← field 1 d; '(b2, d) ← field 1 d; '(count, d) ← field 8 d; '(chunk_size, d) ← field 2 d;
      b1 ← head b1; b2 ← head b2;
      the_end d (IxInit pubkey (le_val chunks_size) (le_val buffer_size) (le_val commit_id) b1 b2 (le_val count) (le_val chunk_size))
  | [x01] =>
      '(buffer_size, d) ← field 8 d; '(commit_id, d) ← field 8 d; '(b2, d) ← field 1 d; '(count, d) ← field 2 d;
      b2 ← head b2;
      the_end d (IxReallocBuffer pubkey (le_val buffer_size) (le_val commit_id) b2 (le_val count))
  | [x02] =>
      '(commit_id, d) ← field 8 d; '(b1, d) ← field 1 d; '(b2, d) ← field 1 d; '(offset, d) ← field 4 d;
      '(len, d) ← field 4 d; '(data_chunk, d) ← field (Z.to_nat (le_val len)) d;
      b1 ← head b1; b2 ← head b2;
      the_end d (IxWrite pubkey (le_val commit_id) b1 b2 (le_val offset) data_chunk)
  | [x03] =>
      '(commit_id, d) ← field 8 d; '(b1, d) ← field 1 d; '(b2, d) ← field 1 d;
      b1 ← head b1; b2 ← head b2;
      the_end d (IxClose pubkey (le_val commit_id) b1 b2)
  | _ => None
  end.

Definition toy_borsh_chunks : Borsh Chunks := {| to_vec := toy_chunks_to_vec; try_from_slice := toy_chunks_from_slice |}.
Definition toy_borsh_ix : Borsh CommittorInstruction := {| to_vec := toy_ix_to_vec; try_from_slice := toy_ix_from_slice |}.

Ltac read_fields :=
  repeat (rewrite field_app by (try apply length_le_bytes; try reflexivity; try assumption); cbn [mbind option_bind head]).

#[local] Instance toy_borsh_laws : BorshLaws toy_borsh_chunks toy_borsh_ix.
Proof.
  split.
  - intros c Hcount Hsize Hbits. cbn. unfold toy_chunks_from_slice, toy_chunks_to_vec. rewrite field_app by apply length_le_bytes.
    cbn [mbind option_bind]. rewrite field_app by (rewrite le_val_fits by (change (256 ^ Z.of_nat 4) with (2 ^ 32); lia); lia).
    cbn [mbind option_bind]. read_fields. rewrite decide_True by done.
    rewrite !le_val_fits by (unfold is_u64 in *; first [change (256 ^ Z.of_nat 8) with (2 ^ 64)|change (256 ^ Z.of_nat 2) with (2 ^ 16)]; lia). by destruct c.
  - intros c. cbn. unfold toy_chunks_to_vec. rewrite !length_app, !length_le_bytes. cbn. lia.
  - intros ix Hix. cbn. unfold toy_ix_from_slice, toy_ix_to_vec, ix_fits, is_u64, is_u32 in *.
    destruct ix; destruct_and!; read_fields;
      rewrite ?(field_app (Z.to_nat _)) by (rewrite le_val_fits by (change (256 ^ Z.of_nat 4) with (2 ^ 32); lia); lia); cbn [mbind option_bind head];
      rewrite decide_True by done;
      rewrite ?le_val_fits by (first [change (256 ^ Z.of_nat 8) with (2 ^ 64)|change (256 ^ Z.of_nat 4) with (2 ^ 32)|change (256 ^ Z.of_nat 2) with (2 ^ 16)]; lia);
      done.
Qed.

Definition toy_resize : Resize := {|
  account_resize original data new_len :=
    if Z.of_nat new_len <=? Z.of_nat original + 10240 then Ok (resize new_len x00 data) else Err (RuntimeError 5) |}.
#[local] Instance toy_resize_laws : ResizeLaws toy_resize.
Proof. split. intros original data new_len Hn. cbn. by rewrite (proj2 (Z.leb_le _ _)). Qed.

#[local] Existing Instance toy_crypto.
#[local] Existing Instance toy_runtime.
#[local] Existing Instance toy_resize.
#[local] Existing Instance toy_borsh_chunks.
#[local] Existing Instance toy_borsh_ix.

Definition toy_validator : bytes := toy_id xa0.
Definition toy_committed : bytes := toy_id xa1.
Definition toy_seeds (prefix : bytes) : list bytes := prefix_seeds prefix toy_validator toy_committed (le_bytes 8 7).
Definition toy_chunks_key : bytes := Eval vm_compute in toy_derive (toy_seeds CHUNKS_SEED ++ [[xff]]) committor_id.
Definition toy_buffer_key : bytes := Eval vm_compute in toy_derive (toy_seeds BUFFER_SEED ++ [[xff]]) committor_id.

Lemma toy_parties : parties toy_validator toy_committed 7 toy_chunks_key toy_buffer_key xff xff.
Proof. split; [vm_compute; reflexivity..|eval_done|split; eval_done|reflexivity|eval_done]. Qed.

(** Two chunks of data, and a ledger where an earlier attempt left accounts. *)
Definition toy_state : bytes := fill 842 x05 ++ fill 3 x06.
Definition toy_task : CommitTask := MkCommitTask 7 toy_committed toy_state (StateInBuffer false).
Definition toy_diff (base data : bytes) : bytes := data.
Definition toy_left_over : ledger :=
  <[toy_validator := MkAccount 1000000 [] (toy_id x00)]>
  (<[toy_chunks_key := MkAccount 50 [x01] committor_id]> (<[toy_buffer_key := MkAccount 60 [x02; x03] committor_id]> ∅)).

(** The hash changes every three calls; what is in flight lands with the youngest first, except at the
    moments given, when nothing lands and the connection fails. *)
Definition toy_moment (down : list nat) (t : nat) : Moment :=
  if decide (t ∈ down) then MkMoment (fun _ => []) true (inl KindIo) (Some KindIo) false
  else MkMoment (fun n => reverse (seq 0 n)) true (inr (replicate (t / 3) x00)) None true.
Definition toy_network (down : list nat) : Network := MkNetwork (toy_moment down) (fun t => t).
Definition toy_world (L : ledger) : world := MkWorld L [] [] None 0.
Definition toy_accepts (ixs : list SolInstruction) (h : bytes) : bool := true.

Lemma toy_hash_inr down t h : mo_blockhash (toy_moment down t) = inr h -> h = replicate (t / 3) x00.
Proof. unfold toy_moment. case_decide; cbn [mo_blockhash]; congruence. Qed.

Lemma toy_skips_preflight down : skips_preflight (toy_network down).
Proof. intros t e. cbn. unfold toy_moment. by case_decide. Qed.

Lemma toy_advances down : hashes_advance (toy_network down).
Proof.
  intros s t u h h' Hstu Hs%toy_hash_inr Ht%toy_hash_inr Hu%toy_hash_inr.
  assert (s / 3 = u / 3)%nat as E by (rewrite Hs in Hu; apply (f_equal length) in Hu; by rewrite !length_replicate in Hu).
  pose proof (Nat.Div0.div_le_mono s t 3 ltac:(lia)). pose proof (Nat.Div0.div_le_mono t u 3 ltac:(lia)).
  rewrite Hs, Ht. f_equal. lia.
Qed.

Lemma toy_expires down : hashes_expire (toy_network down) 6.
Proof.
  intros s t h Hst Hs%toy_hash_inr Ht%toy_hash_inr. rewrite Hs in Ht. apply (f_equal length) in Ht. rewrite !length_replicate in Ht.
  pose proof (Nat.Div0.div_le_mono (s + 2 * 3) t 3 ltac:(lia)) as Hle. rewrite Nat.div_add in Hle by done. lia.
Qed.

Lemma toy_prompt down t : t ∉ down -> prompt (toy_moment down t).
Proof.
  intros Ht. unfold toy_moment. rewrite decide_False by done. split; cbn; [|by eexists|done..].
  intros n i Hi. apply elem_of_reverse, elem_of_seq. lia.
Qed.


(** Five bytes in three chunks, of which two landed. *)
Definition toy_five : bytes := [x01; x02; x03; x04; x05].
Definition toy_tracker : Chunks := MkChunks [x00] 3 2.
Definition toy_initialized : ledger :=
  <[toy_chunks_key := MkAccount 50 (toy_chunks_to_vec toy_tracker) committor_id]>
  (<[toy_buffer_key := MkAccount 60 (zeros 5) committor_id]> ∅).

Lemma interrupted_delivery_resumes_witness :
  exists L1 L2,
    run_transactions (map (fun i => [write_ix toy_validator toy_committed 7 toy_chunks_key toy_buffer_key xff xff toy_five 2 i]) [2; 0; 2])
      toy_initialized = Ok L1 /\
    run_transactions [[write_ix toy_validator toy_committed 7 toy_chunks_key toy_buffer_key xff xff toy_five 2 1]] L1 = Ok L2 /\
    data_at L2 toy_buffer_key = toy_five.
Proof.
  destruct (interrupted_delivery_resumes toy_validator toy_committed 7 toy_chunks_key toy_buffer_key xff xff toy_five 2 3 toy_initialized
    toy_tracker [2; 0; 2] toy_parties) as (L1 & ch1 & missing & L2 & H1 & _ & _ & _ & -> & H2 & Hd & _).
  - split; cbn; lia.
  - lia.
  - reflexivity.
  - split; [vm_compute; reflexivity..|split; eval_done].
  - repeat constructor; lia.
  - exists L1, L2. split_and!; [exact H1|exact H2|exact Hd].
Defined.

(** The same five bytes are to be delivered, and the node is down when the status of the first
    transaction is asked for. *)
Definition toy_small_task : CommitTask := MkCommitTask 7 toy_committed toy_five (StateInBuffer false).
Definition toy_lossy_run : result BufferExecutionError CommitTask * world :=
  prepare_task_handling_errors toy_diff toy_accepts toy_accepts (toy_network [2%nat]) reverse toy_validator toy_small_task
    (toy_world toy_left_over).

Lemma toy_lossy_ok : is_ok toy_lossy_run.1 = true.
Proof. vm_compute. reflexivity. Qed.

Lemma delivery_sound_witness :
  exists task' w', toy_lossy_run = (Ok task', w') /\ task' = preparation_done toy_small_task /\
    forall picks, delivered_to toy_chunks_key toy_buffer_key toy_five (w_ledger (land run_transaction picks w')).
Proof.
  pose proof toy_lossy_ok as Hok. destruct toy_lossy_run as [r w'] eqn:Hrun.
  assert (match r with
    | Ok task' => task' = preparation_done toy_small_task /\
        forall picks, delivered_to toy_chunks_key toy_buffer_key toy_five (w_ledger (land run_transaction picks w'))
    | Err _ => True
    | Panic => False
    end) as H.
  { apply (delivery_sound toy_diff toy_accepts toy_accepts (toy_network [2%nat]) reverse toy_validator toy_small_task toy_chunks_key
      toy_buffer_key xff xff toy_five (toy_world toy_left_over) w' r (fun l => reverse_Permutation l) (toy_skips_preflight _) (toy_advances _)
      toy_parties eq_refl); [eval_done|split; reflexivity|exact Hrun]. }
  destruct r as [task'| |]; [|discriminate..]. exists task', w'. exact (conj eq_refl H).
Defined.

(** The validator closes the accounts of the earlier attempt. *)
Definition toy_closing : list AccountInfo := [MkInfo toy_validator true; MkInfo toy_chunks_key false; MkInfo toy_buffer_key false].
Definition toy_closed : ledger :=
  match committor_process committor_id toy_closing (toy_ix_to_vec (IxClose toy_committed 7 xff xff)) toy_left_over with
  | Ok (_, L) => L
  | _ => toy_left_over
  end.

Lemma toy_closes : committor_process committor_id toy_closing (toy_ix_to_vec (IxClose toy_committed 7 xff xff)) toy_left_over = Ok (tt, toy_closed).
Proof.
  assert (is_ok (committor_process committor_id toy_closing (toy_ix_to_vec (IxClose toy_committed 7 xff xff)) toy_left_over) = true) as H
    by (vm_compute; reflexivity).
  unfold toy_closed. by destruct (committor_process _ _ _ _) as [[[] L]| |].
Qed.

Lemma buffer_needs_authority_witness :
  exists info rest, toy_closing = info :: rest /\ ai_is_signer info = true /\
    (toy_buffer_key = ai_key info \/ derived_for (ai_key info) toy_buffer_key).
Proof.
  apply (buffer_needs_authority committor_id toy_closing (toy_ix_to_vec (IxClose toy_committed 7 xff xff)) toy_left_over toy_closed toy_buffer_key
    toy_closes).
  intros H. apply (f_equal a_lamports) in H. vm_compute in H. discriminate.
Defined.

(** Somebody sent lamports to the buffer's address. *)
Definition toy_funded : ledger :=
  <[toy_validator := MkAccount 1000000 [] (toy_id x00)]> (<[toy_buffer_key := MkAccount 1 [] (toy_id x00)]> ∅).

Lemma toy_create_error (L : ledger) from to system n space owner seeds :
  invoke_create_account committor_id L from to system n space owner seeds <> Err AccountAlreadyInitialized.
Proof. cbn. by destruct (_ && _ && _). Qed.

Lemma funded_buffer_blocks_commit_witness :
  exists e w', prepare_task_handling_errors toy_diff toy_accepts toy_accepts (toy_network [2%nat]) reverse toy_validator toy_task
      (toy_world toy_funded) = (Err (SendFailed e), w') /\
    forall picks, w_ledger (land run_transaction picks w') = toy_funded.
Proof.
  apply (funded_buffer_blocks_commit toy_diff toy_accepts toy_accepts (toy_network [2%nat]) reverse toy_validator toy_task toy_chunks_key
    toy_buffer_key xff xff toy_state (toy_world toy_funded) toy_create_error (fun l => reverse_Permutation l) (toy_skips_preflight _)
    toy_parties eq_refl).
  - eval_done.
  - split; reflexivity.
  - split; vm_compute; reflexivity.
  - right. eval_done.
Defined.
